(* ===== verification/_CoqProject ===== *)
-Q . S2P
Prelude.v
Bytes.v
Utf8.v
Packet.v
ContextCodec.v
ContextCodecProps.v
PacketProps.v
RequestRouter.v
RequestRouterProps.v
Listener.v
Framing.v
Pairing.v
PairingProps.v
FileStore.v
System.v
SocketFile.v
SocketFileProps.v
Control.v
Assoc.v
BrokerModel.v
BrokerSpec.v
BrokerRefinement.v
BrokerProps.v
BrokerEffects.v
BrokerTask.v
BrokerHandle.v
BrokerTaskProps.v
BrokerTaskSync.v
BrokerTracking.v
BrokerProgress.v
BrokerTime.v
BrokerAdmission.v
Protocol.v
Session.v
SessionProps.v
ControlProps.v
Config.v
ConfigProps.v
Push.v
PushProps.v
Text.v
Web.v
WebProps.v
WebRouter.v
AcceptLoop.v
Server.v
ServerProps.v
ServerLiveness.v
ServerTime.v
ServerSpec.v
Deployment.v
DeploymentProps.v
DeploymentSafety.v
DeploymentOrigin.v
Cli.v
Daemon.v
DaemonProps.v
