(* ===== verification/Prelude.v ===== *)
(** * agent-witness server: a verification library

    agent-witness lends the SSH agent of a phone to a headless machine.  Its
    Rust server ([crates/server/src]) listens on a Unix socket like an
    [ssh-agent], queues the requests of local callers, wakes the paired client
    through Web Push, dispatches the requests over the client's WebSocket, and
    returns the answers.  This library models the server's own logic as
    executable definitions and proves what makes it correct.

    ** How the parts fit together

    A local connection ([agent_socket/listener.rs]) reads frames and routes each
    one ([request_router.rs]).  The first packet may be a context frame
    ([request_router/context.rs]) that explains the connection's requests; an
    identity list is answered from the identities the paired client published;
    session-binding requests are refused; everything else is submitted to the
    broker ([broker/task.rs]), whose actor owns the waiting callers and drives a
    pure state machine ([broker/model.rs]).  A remote client connects over a
    WebSocket ([remote/session.rs], messages of [remote/protocol.rs]), is paired
    or authenticated ([remote/pairing]), claims the broker's only remote slot,
    and answers the requests dispatched to it.

    ** Files

    - [Prelude] (this file): Rust's [Result] and its [?] operator ([let?]),
      machine integers, slices.  [Bytes]: octets and big-endian [u32].  [Utf8]:
      [str::from_utf8], [String::from_utf8_lossy] and character classes.
      [Assoc]: lemmas on association lists, finite maps and sorting.
    - [Packet]: [packet.rs].  [PacketProps]: the identities answer is a complete
      frame; packet classes are disjoint.
    - [ContextCodec]: [request_router/context.rs].  [ContextCodecProps]: a
      grammar of context frames, which the decoder recognises exactly; round
      trip, limits, and the classification of foreign packets.
    - [RequestRouter]: [request_router.rs].  [RequestRouterProps]: what is
      forwarded, whose context it carries, which identities are answered.
    - [Listener]: [handle_connection] of [agent_socket/listener.rs], with the
      order of responses and the context of a connection's requests.
      [Framing]: how the connection cuts its stream into packets.
    - [Pairing]: [remote/pairing/mod.rs] and [memory.rs]; the storage trait is
      the class [PairingStore] with the laws [PairingStoreSpec].
      [PairingProps]: the pairing slot, authentication, published identities
      and persistence, proved against that class.  [FileStore]:
      [remote/pairing/file.rs] as an instance of it, with atomic replacement
      under every system-call failure.
    - [BrokerModel]: [broker/model.rs], definition by definition ([BrokerState],
      one arm of [apply_event] per [Event], [expire], [reconcile],
      [requeue_session]).  [BrokerSpec]: the abstract broker, two lists of
      requests in admission order.  [BrokerRefinement]: every operation of the
      model on a representation computes the abstract operation.
      [BrokerProps] and [BrokerEffects]: theorems about reachable states and
      about the effects of events.
    - [BrokerTask]: the actor of [broker/task.rs] ([execute], [handle_local],
      [handle], [stop], one iteration of [run_broker]) and the types of
      [broker/mod.rs].  [BrokerHandle]: the methods with which other tasks reach
      the actor through its bounded mailbox.  [BrokerTaskProps]: totality of the
      loop, and that callers are conserved.  [BrokerTaskSync]: the coherence of
      waiters, model and remote channel, and its consequences.
      [BrokerTracking]: where the actor's requests and wakes come from and go to.
      [BrokerProgress]: which inputs the actor can always take, and that its
      timer answers who waits.  [BrokerTime]: the deadlines of who waits, over an
      iteration.  [BrokerAdmission]: a request that finds room is admitted.
    - [Protocol]: [remote/protocol.rs].  [Session]: [remote/session.rs], over
      the class [PairingAuthority] (the trait of that name), whose instance is
      the pairing service.  [SessionProps]: message limits, the handshake, the
      session's actions, heartbeats.
    - [System]: what the server uses of the file system and of Unix sockets.  A
      [World] holds the directory entries and the listening sockets; every call
      is made in an environment that decides whether it fails and what other
      processes did before it, and is recorded in a trace; the machine also
      remembers what each of its own calls did to the world.
    - [SocketFile]: [agent_socket/file.rs], [agent_socket/mod.rs] and the socket
      file of [control/server.rs].  [SocketFileProps]: claiming and releasing a
      path, what may be removed, and that the two copies agree.
    - [AcceptLoop]: the accept loops of [agent_socket/listener.rs] and
      [control/server.rs], with their supervision of connection tasks.
    - [Control]: [control/protocol.rs], the handler of [control/server.rs] and
      [control/client.rs].  [ControlProps]: the client and the handler composed,
      and the end of sessions whose pairing was cleared.
    - [Config]: [config.rs].  [ConfigProps]: validation, permission modes,
      precedence of the command line, and what a valid configuration guarantees
      to the other components.
    - [Push]: [push.rs].  [PushProps]: the key file under failing calls and
      concurrent starts, and the coalescing of wakes.
    - [Text]: the operations of [str] that the following files use.  [Web]:
      [web/assets.rs].  [WebProps]: conditional requests and the injected DSN.
      [WebRouter]: the routes and the WebSocket upgrade of [web/mod.rs], over
      [axum]'s matching, and what can be read through them.
    - [Cli]: [cli.rs], with its theorems.  [Daemon]: [daemon.rs].
      [DaemonProps]: startup and shutdown.
    - [Server]: the tasks [daemon.rs] spawns and the channels between them as one
      transition system, built from the step functions of the other files, over
      any [PairingAuthority].  [ServerProps]: the log of what happened as an
      invariant, and the end-to-end properties.  [ServerLiveness]: the channels'
      bounds, and that outstanding requests can always be answered.
      [ServerTime]: no request outlives its deadline.  [ServerSpec]: a desk with a
      queue per local connection, as the abstract server its log refines.
    - [Deployment]: the server with its own pairing service, the operator's
      control connections, the watch channels of identities and revocations, and
      the push service.  [DeploymentProps]: what is stored, and the identities
      local clients see.  [DeploymentSafety]: revocation and wakes.
      [DeploymentOrigin]: the paired client traced to its pairing, and who can
      answer.

    ** What the theorems show

    - End to end, however the tasks interleave, a local client's successful
      answer comes from an authorized remote client, for the very request it made
      (C1), and everything sent on a remote client's socket is a rejection or
      follows its authorization, with requests only from local clients (C2).  To
      its local clients the server is a queue per connection (C3), it can always
      answer what is outstanding by itself, on an advancing clock (C4), and no
      request outlives its deadline (C5).  Also: the channels and queues are bounded.
    - With the pairing service in place: only a holder of the pairing credential
      can have answered (C6), a session acts for the paired client or can end at
      once and no longer touches the pairing (C7), local clients are listed the
      paired client's identities (C8), the paired client is woken, at the
      subscription it asked for, for what local clients asked (C9), and what is
      stored stays
      well formed over runs and restarts (C10).
    - The broker model refines its abstract specification along every event
      sequence (C11); its data structures agree (C12) and do not depend on hash-map
      iteration (C13); requests are answered exactly once (C14), and successfully
      only by the matching response (C15); dispatch is FIFO and work-conserving
      (C16).  Without a number: deadlines are enforced by every event, the queue is
      in admission order, timers follow the earliest deadline, stale responses are
      ignored, dispatches are faithful, wakes, quiescence and the absence of a
      panic.
    - The actor never gets stuck (C17), loses or double-answers no caller (C18)
      and keeps its parts in step (C19); a refused second connection can strand a
      caller (C20).  Also: its successful answers are the remote's, and the timer
      answers overdue callers.
    - The context codec recognises its grammar (C21), round-trips (C22) and
      classifies packets (C23).
    - Local connections: ordered responses (C24), the stream's packets (C25); also
      which packets are forwarded, supervised accept loops, whose context requests
      carry, and which identity list is answered.
    - Pairing: the slot is kept (C26), authentication is exact (C27), restarts
      recover (C28), files are replaced atomically (C29).
    - The remote side: the handshake (C30) and a pairing refused after it succeeded
      (C31); also a session's actions, message limits and heartbeats.
    - The operator: clearing the pairing end to end (C32); also the end of the
      cleared client's session.
    - Socket files: nobody else is harmed (C33), removals follow their checks (C34),
      claim and release (C35); also both copies agree.
    - Configuration: a valid one bounds the rest of the server, and a broker with
      room admits, up to deadlines the clocks cannot represent (C36); also that
      validation decides soundness, octal modes and the command line's precedence.
    - Web Push: a sound key file under failing calls (C37), agreement of concurrent
      starts as rely and guarantee (C38); also that the newest wake is published,
      and a start that removes the key another one has returned.
    - The web page and the commands: what HTTP can reach (C39), a start is all or
      nothing, up to dead sockets that failing calls leave (C40); also conditional requests, the inert DSN, what
      [write-context] prints, guarded commands and complete shutdown.

    ** Conventions

    Strings are their UTF-8 bytes and UUIDs the numbers they stand for.
    Counters of the source that wrap in a release build wrap here.  Readings of
    the clocks are unbounded numbers of nanoseconds; where the source adds a
    timeout to one, which panics beyond the clock's range, the model ends the
    actor ([deadline_overflows] in [BrokerTask]).  A
    [HashMap] is a [gmap]; code that iterates one is written over an explicit
    iteration order.  Concurrency is modelled where the source has it: the
    actor, a connection, a session, the accept loops and the push service are
    loops, one definition per iteration, and the theorems quantify over every
    sequence of inputs; other processes may act before any system call.  Values
    of the runtime (clocks, fresh identifiers, channel and system-call failures,
    observations of a watch channel) are arguments.  Other crates (SSH codecs,
    UUID text, JSON, MessagePack, URIs, base64, SHA-256, P-256, framing, figment,
    MIME types, Web Push messages, [axum]'s matching) are operations of classes,
    with what is documented of them as separate classes of laws, each with an
    instance that shows the laws can hold.

    Only [execute_loop] needs fuel, since transport failures feed new effects
    back into its queue.  [execute_fuel] gives it the length of the queue, one
    more for each dispatch and two for each pending request; C17 proves that
    this always suffices.  The key generator's loop runs over the list of draws it
    is given, and says so when they are used up.

    ** Not modelled

    Argument parsing and help texts ([clap]) and the contents of log lines; the
    Sentry layers of [web/mod.rs], which do not change responses; the encryption
    and the HTTP delivery of a Web Push message, which are calls of [web_push];
    the delivery of process signals; and the TypeScript client.  In [Deployment]
    an operation of the pairing service, its save included, is one turn, as the
    service's mutex makes it; a control connection that is
    aborted in the middle of a save is one whose save failed after it had stored
    the new state. *)

From stdpp Require Export base decidable countable option list numbers
  gmap fin_maps sorting strings.

(** ** Rust's [Result] *)

Inductive result (A E : Type) : Type :=
| Ok (value : A)
| Err (error : E).
Arguments Ok {A E} value.
Arguments Err {A E} error.

(** The [?] operator: return early with the callee's error. *)
Definition try_bind {A B E} (r : result A E) (k : A → result B E) : result B E :=
  match r with
  | Ok a => k a
  | Err e => Err e
  end.

(** [Result::map_err]. *)
Definition map_err {A E F} (f : E → F) (r : result A E) : result A F :=
  match r with
  | Ok a => Ok a
  | Err e => Err (f e)
  end.

(** [Option::ok_or]. *)
Definition ok_or {A E} (o : option A) (e : E) : result A E :=
  match o with
  | Some a => Ok a
  | None => Err e
  end.

(** [Result::ok]. *)
Definition ok {A E} (r : result A E) : option A :=
  match r with
  | Ok a => Some a
  | Err _ => None
  end.

(** [Result::is_ok]. *)
Definition is_ok {A E} (r : result A E) : bool :=
  match r with
  | Ok _ => true
  | Err _ => false
  end.

Declare Scope rust_scope.
Delimit Scope rust_scope with rust.
Notation "'let?' x ':=' e 'in' k" := (try_bind e (fun x => k))
  (at level 10, x pattern at level 0, e at level 200, k at level 200)
  : rust_scope.
Global Open Scope rust_scope.

#[export] Instance result_eq_dec `{EqDecision A, EqDecision E} :
  EqDecision (result A E).
Proof. solve_decision. Defined.

(** ** Machine integers

    [u32], [u64] and (64-bit) [usize] values are [N]; every addition of the
    source that is not checked is followed by an explicit wrap, which is what
    a release build does. *)

Definition wrap32 (n : N) : N := (n `mod` 2 ^ 32)%N.
Definition wrap64 (n : N) : N := (n `mod` 2 ^ 64)%N.
Definition U32_MAX : N := (2 ^ 32 - 1)%N.
Definition U64_MAX : N := (2 ^ 64 - 1)%N.

(** [slice.len()] as a [usize]. *)
Definition len {A} (l : list A) : N := N.of_nat (length l).

Lemma len_app {A} (l1 l2 : list A) : len (l1 ++ l2) = (len l1 + len l2)%N.
Proof. unfold len. rewrite length_app. lia. Qed.

Lemma len_nil {A} : len (@nil A) = 0%N.
Proof. done. Qed.
Lemma len_cons {A} (x : A) l : len (x :: l) = (1 + len l)%N.
Proof. unfold len. simpl. lia. Qed.

(** The database [len] computes the lengths of concatenations; [len_lia] closes
    the bounds on them, including those on [usize] values. *)
#[export] Hint Rewrite @len_nil @len_cons @len_app : len.
Ltac len_lia := autorewrite with len in *; unfold U32_MAX, U64_MAX in *; lia.

(** The database [broker] holds the preservation lemmas of the broker's
    well-formedness. *)
Create HintDb broker.

(** ** Slices *)

(** [slice.get(..n)] and [slice.get(n..)]: [None] when out of range. *)
Definition get_to {A} (n : nat) (l : list A) : option (list A) :=
  if decide (n ≤ length l) then Some (take n l) else None.
Definition get_from {A} (n : nat) (l : list A) : option (list A) :=
  if decide (n ≤ length l) then Some (drop n l) else None.

(** [slice.get(a..b)]: [None] unless [a <= b <= len]. *)
Definition get_range {A} (a b : nat) (l : list A) : option (list A) :=
  if decide (a ≤ b ∧ b ≤ length l) then Some (take (b - a) (drop a l)) else None.
