(* ===== verification/Bytes.v ===== *)
(** * Bytes: octets, byte strings and big-endian [u32] values

    What the server uses of Rust's primitive [u8] and [u32] types:
    [u32::from_be_bytes], [u32::to_be_bytes] and byte-string literals.  An
    octet is Rocq's own [Byte.byte], so every byte string is well formed by
    construction. *)

From S2P Require Import Prelude.
From Stdlib Require Strings.Byte Strings.String.

Abbreviation byte := Byte.byte.
Abbreviation bytes := (list Byte.byte).

#[export] Instance byte_eq_dec : EqDecision byte := Byte.byte_eq_dec.

#[export] Instance byte_inhabited : Inhabited byte := populate Byte.x00.

(** ** Octets as numbers *)

Definition byte_of_N (n : N) : byte :=
  default Byte.x00 (Byte.of_N (n `mod` 256)).

(** [b"..."]: the bytes of an ASCII literal. *)
Definition byte_string (s : String.string) : bytes :=
  String.list_byte_of_string s.

(** ** Big-endian [u32] *)

(** [u32::to_be_bytes] *)
Definition u32_to_be_bytes (n : N) : bytes :=
  [byte_of_N (n `div` 2 ^ 24); byte_of_N (n `div` 2 ^ 16);
   byte_of_N (n `div` 2 ^ 8); byte_of_N n].

(** [u32::from_be_bytes(slice.try_into().ok()?)]: the conversion of the slice
    to [[u8; 4]] fails unless it holds exactly four bytes. *)
Definition u32_from_be_bytes (l : bytes) : option N :=
  match l with
  | [a; b; c; d] =>
      Some (Byte.to_N a * 2 ^ 24 + Byte.to_N b * 2 ^ 16
            + Byte.to_N c * 2 ^ 8 + Byte.to_N d)%N
  | _ => None
  end.

(** ** Lemmas *)

Lemma to_N_byte_of_N n : Byte.to_N (byte_of_N n) = (n `mod` 256)%N.
Proof.
  unfold byte_of_N.
  destruct (Byte.of_N (n `mod` 256)) as [b|] eqn:E; simpl.
  - by apply Byte.to_of_N.
  - apply Byte.of_N_None_iff in E.
    pose proof (N.mod_lt n 256). lia.
Qed.

Lemma byte_of_N_to_N b : byte_of_N (Byte.to_N b) = b.
Proof.
  unfold byte_of_N. pose proof (Byte.to_N_bounded b).
  rewrite N.mod_small by lia. by rewrite Byte.of_to_N.
Qed.

#[export] Instance byte_countable : Countable byte :=
  inj_countable' Byte.to_N byte_of_N byte_of_N_to_N.

Lemma to_N_inj a b : Byte.to_N a = Byte.to_N b → a = b.
Proof.
  intros E. by rewrite <- (byte_of_N_to_N a), <- (byte_of_N_to_N b), E.
Qed.

Lemma to_N_lt_256 b : (Byte.to_N b < 256)%N.
Proof. pose proof (Byte.to_N_bounded b). lia. Qed.

Lemma length_u32_to_be_bytes n : length (u32_to_be_bytes n) = 4.
Proof. done. Qed.

(** Splitting a number into four octets and joining them again keeps it
    modulo [2 ^ 32]. *)
Lemma u32_split (n : N) :
  (((n `div` 2 ^ 24) `mod` 256) * 2 ^ 24 + ((n `div` 2 ^ 16) `mod` 256) * 2 ^ 16
   + ((n `div` 2 ^ 8) `mod` 256) * 2 ^ 8 + n `mod` 256)%N = wrap32 n.
Proof.
  unfold wrap32.
  change (2 ^ 8)%N with 256%N. change (2 ^ 16)%N with 65536%N.
  change (2 ^ 24)%N with 16777216%N. change (2 ^ 32)%N with 4294967296%N.
  pose proof (N.div_mod n 256). pose proof (N.mod_lt n 256).
  assert (E1 : (n `div` 65536 = (n `div` 256) `div` 256)%N) by (by rewrite N.Div0.div_div).
  assert (E2 : (n `div` 16777216 = ((n `div` 256) `div` 256) `div` 256)%N)
    by (by rewrite !N.Div0.div_div).
  assert (E3 : (n `div` 4294967296 = (((n `div` 256) `div` 256) `div` 256) `div` 256)%N)
    by (by rewrite !N.Div0.div_div).
  pose proof (N.div_mod n 4294967296). rewrite E3 in *. rewrite E1, E2.
  set (n1 := (n `div` 256)%N) in *. set (n2 := (n1 `div` 256)%N) in *.
  set (n3 := (n2 `div` 256)%N) in *.
  pose proof (N.div_mod n1 256). pose proof (N.div_mod n2 256).
  pose proof (N.div_mod n3 256). lia.
Qed.

Lemma u32_from_to_be_bytes n :
  u32_from_be_bytes (u32_to_be_bytes n) = Some (wrap32 n).
Proof.
  unfold u32_to_be_bytes, u32_from_be_bytes.
  by rewrite !to_N_byte_of_N, u32_split.
Qed.

Lemma u32_from_be_bytes_bound l n :
  u32_from_be_bytes l = Some n → (n < 2 ^ 32)%N.
Proof.
  destruct l as [|a [|b [|c [|d [|]]]]]; simpl; try done.
  intros [= <-].
  pose proof (to_N_lt_256 a). pose proof (to_N_lt_256 b).
  pose proof (to_N_lt_256 c). pose proof (to_N_lt_256 d).
  change (2 ^ 8)%N with 256%N. change (2 ^ 16)%N with 65536%N.
  change (2 ^ 24)%N with 16777216%N. change (2 ^ 32)%N with 4294967296%N. lia.
Qed.

Lemma u32_from_be_bytes_length l n :
  u32_from_be_bytes l = Some n → length l = 4.
Proof. destruct l as [|? [|? [|? [|? [|]]]]]; done. Qed.

Lemma u32_from_be_bytes_is_Some l :
  length l = 4 → is_Some (u32_from_be_bytes l).
Proof. destruct l as [|? [|? [|? [|? [|]]]]]; simpl; try done; eauto. Qed.

Lemma wrap32_small n : (n < 2 ^ 32)%N → wrap32 n = n.
Proof. apply N.mod_small. Qed.

Lemma u32_from_be_bytes_inj l l' n :
  u32_from_be_bytes l = Some n → u32_from_be_bytes l' = Some n → l = l'.
Proof.
  destruct l as [|a [|b [|c [|d [|]]]]]; simpl; try done. intros [= <-].
  destruct l' as [|a' [|b' [|c' [|d' [|]]]]]; simpl; try done. intros E. injection E as E.
  pose proof (to_N_lt_256 a). pose proof (to_N_lt_256 b).
  pose proof (to_N_lt_256 c). pose proof (to_N_lt_256 d).
  pose proof (to_N_lt_256 a'). pose proof (to_N_lt_256 b').
  pose proof (to_N_lt_256 c'). pose proof (to_N_lt_256 d').
  change (2 ^ 8)%N with 256%N in E. change (2 ^ 16)%N with 65536%N in E.
  change (2 ^ 24)%N with 16777216%N in E.
  rewrite (to_N_inj a a'), (to_N_inj b b'), (to_N_inj c c'), (to_N_inj d d'); lia || done.
Qed.

Lemma u32_to_from_be_bytes l n : u32_from_be_bytes l = Some n → u32_to_be_bytes n = l.
Proof.
  intros E. apply (u32_from_be_bytes_inj _ _ n); [|done].
  by rewrite u32_from_to_be_bytes, wrap32_small by by eapply u32_from_be_bytes_bound.
Qed.

(** Slices of a concatenation. *)
Lemma get_to_app {A} (l1 l2 : list A) : get_to (length l1) (l1 ++ l2) = Some l1.
Proof.
  unfold get_to. rewrite decide_True by (rewrite length_app; lia). by rewrite take_app_length.
Qed.

Lemma get_from_app {A} (l1 l2 : list A) : get_from (length l1) (l1 ++ l2) = Some l2.
Proof.
  unfold get_from. rewrite decide_True by (rewrite length_app; lia). by rewrite drop_app_length.
Qed.

Lemma get_split {A} n (l l1 l2 : list A) :
  get_to n l = Some l1 → get_from n l = Some l2 → l = l1 ++ l2 ∧ length l1 = n.
Proof.
  unfold get_to, get_from. case_decide; [|done]. intros [= <-] [= <-].
  by rewrite take_drop, length_take_le.
Qed.

Lemma get_range_app {A} (pre v post : list A) :
  get_range (length pre) (length pre + length v) (pre ++ v ++ post) = Some v.
Proof.
  unfold get_range. rewrite decide_True by (rewrite !length_app; lia).
  rewrite drop_app_length. f_equal. replace (_ - _) with (length v) by lia.
  apply take_app_length.
Qed.

Lemma get_range_split {A} a b (pre rest v : list A) :
  a = length pre → get_range a b (pre ++ rest) = Some v →
  ∃ post, rest = v ++ post ∧ a + length v = b.
Proof.
  intros ->. unfold get_range. case_decide as H; [|done]. rewrite drop_app_length.
  rewrite length_app in H. intros [= <-].
  exists (drop (b - length pre) rest). rewrite take_drop, length_take. split; [done|lia].
Qed.

Lemma len_u32_to_be_bytes n : len (u32_to_be_bytes n) = 4%N.
Proof. done. Qed.
#[export] Hint Rewrite len_u32_to_be_bytes : len.

#[global] Arguments u32_to_be_bytes _ : simpl never.
#[global] Arguments byte_of_N _ : simpl never.
