(* ===== verification/Utf8.v ===== *)
(** * Utf8: what the server uses of Rust's text types

    [str::from_utf8], [str::chars], [String::from_utf8_lossy],
    [char::is_control] and [char::is_whitespace] of the Rust standard library.
    A byte string is cut into chunks the way the library's validator reads it:
    a well-formed sequence is one character, and a malformed sequence ends
    before the first byte that cannot continue it. *)

From S2P Require Import Prelude Bytes.

(** ** Chunks *)

Inductive chunk :=
| Char (code : N) (encoding : bytes)
| Malformed_sequence.

Definition between (lo hi : N) (b : byte) : bool :=
  (lo <=? Byte.to_N b)%N && (Byte.to_N b <=? hi)%N.
(** [byte & 192 == 128] *)
Definition continuation (b : byte) : bool := between 128 191 b.

(** The second byte of a three-byte sequence: no overlong forms, no
    surrogates. *)
Definition second_of_three (b0 b1 : byte) : bool :=
  between 224 224 b0 && between 160 191 b1
  || between 225 236 b0 && continuation b1
  || between 237 237 b0 && between 128 159 b1
  || between 238 239 b0 && continuation b1.
(** The second byte of a four-byte sequence: no overlong forms, nothing above
    U+10FFFF. *)
Definition second_of_four (b0 b1 : byte) : bool :=
  between 240 240 b0 && between 144 191 b1
  || between 241 243 b0 && continuation b1
  || between 244 244 b0 && between 128 143 b1.

(** The payload bits of a leading or a continuation byte. *)
Definition low_bits (n : N) (b : byte) : N := N.land (Byte.to_N b) (2 ^ n - 1).

Fixpoint utf8_chunks (l : bytes) : list chunk :=
  match l with
  | [] => []
  | b0 :: l1 =>
      if between 0 127 b0 then Char (Byte.to_N b0) [b0] :: utf8_chunks l1
      else if between 194 223 b0 then
        match l1 with
        | b1 :: l2 =>
            if continuation b1 then
              Char (low_bits 5 b0 * 64 + low_bits 6 b1) [b0; b1] :: utf8_chunks l2
            else Malformed_sequence :: utf8_chunks l1
        | [] => [Malformed_sequence]
        end
      else if between 224 239 b0 then
        match l1 with
        | b1 :: l2 =>
            if second_of_three b0 b1 then
              match l2 with
              | b2 :: l3 =>
                  if continuation b2 then
                    Char (low_bits 4 b0 * 4096 + low_bits 6 b1 * 64 + low_bits 6 b2)
                      [b0; b1; b2] :: utf8_chunks l3
                  else Malformed_sequence :: utf8_chunks l2
              | [] => [Malformed_sequence]
              end
            else Malformed_sequence :: utf8_chunks l1
        | [] => [Malformed_sequence]
        end
      else if between 240 244 b0 then
        match l1 with
        | b1 :: l2 =>
            if second_of_four b0 b1 then
              match l2 with
              | b2 :: l3 =>
                  if continuation b2 then
                    match l3 with
                    | b3 :: l4 =>
                        if continuation b3 then
                          Char (low_bits 3 b0 * 262144 + low_bits 6 b1 * 4096
                                + low_bits 6 b2 * 64 + low_bits 6 b3)
                            [b0; b1; b2; b3] :: utf8_chunks l4
                        else Malformed_sequence :: utf8_chunks l3
                    | [] => [Malformed_sequence]
                    end
                  else Malformed_sequence :: utf8_chunks l2
              | [] => [Malformed_sequence]
              end
            else Malformed_sequence :: utf8_chunks l1
        | [] => [Malformed_sequence]
        end
      else Malformed_sequence :: utf8_chunks l1
  end.

(** ** Operations *)

Definition well_formed_chunk (c : chunk) : bool :=
  match c with Char _ _ => true | Malformed_sequence => false end.
Definition valid_utf8 (l : bytes) : bool := forallb well_formed_chunk (utf8_chunks l).

(** [std::str::from_utf8(..).ok()] *)
Definition from_utf8 (l : bytes) : option bytes :=
  if valid_utf8 l then Some l else None.

(** [str::chars] *)
Definition chars (l : bytes) : list N :=
  omap (λ c, match c with Char n _ => Some n | Malformed_sequence => None end) (utf8_chunks l).

(** U+FFFD *)
Definition REPLACEMENT_CHARACTER : bytes := [Byte.xef; Byte.xbf; Byte.xbd].
Definition chunk_bytes (c : chunk) : bytes :=
  match c with Char _ e => e | Malformed_sequence => REPLACEMENT_CHARACTER end.
(** [String::from_utf8_lossy(..).into_owned()] *)
Definition from_utf8_lossy (l : bytes) : bytes := mjoin (chunk_bytes <$> utf8_chunks l).

(** The general category Cc. *)
Definition is_control (c : N) : bool := ((c <=? 31) || (127 <=? c) && (c <=? 159))%N.
(** The property White_Space. *)
Definition is_whitespace (c : N) : bool :=
  ((9 <=? c) && (c <=? 13) || (c =? 32) || (c =? 133) || (c =? 160) || (c =? 5760)
   || (8192 <=? c) && (c <=? 8202) || (c =? 8232) || (c =? 8233) || (c =? 8239)
   || (c =? 8287) || (c =? 12288))%N.

(** ** Lemmas *)

(** The validator has read the bytes [e]. *)
Ltac read_chunk e rest :=
  eexists _, e, rest; split; [done|]; split; [done|]; split; [simpl; lia|];
  first
    [ simpl; lia
    | split; [done|]; intros tl; cbn [app utf8_chunks];
      repeat match goal with H : _ = _ :> bool |- _ => rewrite H; clear H end; done ].

(** What one step of the validator reads: the chunk, the bytes it covers, and
    that a well-formed sequence is read the same in front of any bytes. *)
Lemma utf8_chunks_cases b l :
  ∃ c e rest, utf8_chunks (b :: l) = c :: utf8_chunks rest
    ∧ b :: l = e ++ rest ∧ 0 < length e
    ∧ match c with
      | Char n enc => enc = e ∧ ∀ tl, utf8_chunks (e ++ tl) = Char n enc :: utf8_chunks tl
      | Malformed_sequence => length e ≤ 3
      end.
Proof.
  cbn [utf8_chunks].
  destruct (between 0 127 b) eqn:E1; [read_chunk [b] l|].
  destruct (between 194 223 b) eqn:E2.
  { destruct l as [|b1 l]; [read_chunk [b] (@nil byte)|].
    destruct (continuation b1) eqn:C1; [read_chunk [b; b1] l|read_chunk [b] (b1 :: l)]. }
  destruct (between 224 239 b) eqn:E3.
  { destruct l as [|b1 l]; [read_chunk [b] (@nil byte)|].
    destruct (second_of_three b b1) eqn:C1; [|read_chunk [b] (b1 :: l)].
    destruct l as [|b2 l]; [read_chunk [b; b1] (@nil byte)|].
    destruct (continuation b2) eqn:C2; [read_chunk [b; b1; b2] l|read_chunk [b; b1] (b2 :: l)]. }
  destruct (between 240 244 b) eqn:E4; [|read_chunk [b] l].
  destruct l as [|b1 l]; [read_chunk [b] (@nil byte)|].
  destruct (second_of_four b b1) eqn:C1; [|read_chunk [b] (b1 :: l)].
  destruct l as [|b2 l]; [read_chunk [b; b1] (@nil byte)|].
  destruct (continuation b2) eqn:C2; [|read_chunk [b; b1] (b2 :: l)].
  destruct l as [|b3 l]; [read_chunk [b; b1; b2] (@nil byte)|].
  destruct (continuation b3) eqn:C3; [read_chunk [b; b1; b2; b3] l|read_chunk [b; b1; b2] (b3 :: l)].
Qed.

(** Induction on the chunks of a byte string. *)
Lemma utf8_ind (P : bytes → Prop) :
  P [] →
  (∀ c e rest, 0 < length e → P rest → utf8_chunks (e ++ rest) = c :: utf8_chunks rest →
     match c with
     | Char n enc => enc = e ∧ ∀ tl, utf8_chunks (e ++ tl) = Char n enc :: utf8_chunks tl
     | Malformed_sequence => length e ≤ 3
     end → P (e ++ rest)) →
  ∀ l, P l.
Proof.
  intros H0 HS. apply (Wf_nat.induction_ltof1 _ (@length byte)). unfold Wf_nat.ltof.
  intros [|b l] IH; [done|].
  destruct (utf8_chunks_cases b l) as (c & e & rest & E & El & Hlen & Hc).
  rewrite El in *. apply (HS c); try done. apply IH. rewrite length_app. lia.
Qed.

(** Lossy decoding leaves valid text alone. *)
Lemma from_utf8_lossy_valid l : valid_utf8 l = true → from_utf8_lossy l = l.
Proof.
  unfold valid_utf8, from_utf8_lossy. induction l as [|c e rest _ IH E Hc] using utf8_ind; [done|].
  rewrite E. csimpl. destruct c as [n enc|]; [|done].
  destruct Hc as [-> _]. csimpl. intros Hv. by rewrite IH.
Qed.

Definition replace_chunk (c : chunk) : chunk :=
  match c with
  | Char n e => Char n e
  | Malformed_sequence => Char 65533 REPLACEMENT_CHARACTER
  end.

Lemma utf8_chunks_lossy l :
  utf8_chunks (from_utf8_lossy l) = replace_chunk <$> utf8_chunks l.
Proof.
  unfold from_utf8_lossy. induction l as [|c e rest _ IH E Hc] using utf8_ind; [done|].
  rewrite E. csimpl. rewrite <- IH.
  destruct c as [n enc|]; [|done]. destruct Hc as [-> Hc]. apply Hc.
Qed.

(** Lossy decoding always gives valid text. *)
Lemma valid_from_utf8_lossy l : valid_utf8 (from_utf8_lossy l) = true.
Proof.
  unfold valid_utf8. rewrite utf8_chunks_lossy. generalize (utf8_chunks l).
  intros cs. induction cs as [|[] cs IH]; done.
Qed.

(** A malformed sequence has at least one byte and becomes three. *)
Lemma length_from_utf8_lossy l : length (from_utf8_lossy l) ≤ 3 * length l.
Proof.
  unfold from_utf8_lossy. induction l as [|c e rest Hlen IH E Hc] using utf8_ind; [simpl; lia|].
  rewrite E. csimpl. rewrite !length_app.
  destruct c as [n enc|]; simpl; [destruct Hc as [-> _]|]; lia.
Qed.

(** No malformed sequence has more than three bytes. *)
Lemma length_from_utf8_lossy_ge l : length l ≤ length (from_utf8_lossy l).
Proof.
  unfold from_utf8_lossy. induction l as [|c e rest Hlen IH E Hc] using utf8_ind; [simpl; lia|].
  rewrite E. csimpl. rewrite !length_app.
  destruct c as [n enc|]; simpl; [destruct Hc as [-> _]|]; lia.
Qed.

Lemma from_utf8_Some l l' : from_utf8 l = Some l' ↔ valid_utf8 l = true ∧ l' = l.
Proof. unfold from_utf8. case_match; naive_solver. Qed.
