(* ===== verification/Packet.v ===== *)
(** * Packet: transport-neutral SSH-agent requests and responses

    Models [crates/server/src/packet.rs]: the request context and error types
    shared by the router and the broker, the classification of complete
    packets, and the construction of the identities answer.

    A Rust [String] is represented by its UTF-8 bytes.  [Uuid] values are the
    128-bit numbers they stand for; this development only ever compares them.

    The SSH codecs of the [ssh_agent_lib] crate are not part of the
    repository: they are the operations of the class [SshAgentLib], and what
    the server relies on is the law class [SshAgentLibSpec]. *)

From S2P Require Import Prelude Bytes.

Definition Uuid : Type := N.
Bind Scope N_scope with Uuid.
#[export] Instance Uuid_eq_dec : EqDecision Uuid := N.eq_dec.
#[export] Instance Uuid_countable : Countable Uuid := N_countable.

(** Rust [String], as its UTF-8 bytes. *)
Abbreviation rstring := (list Byte.byte).

(** ** Data *)

(** Public key metadata needed to construct an SSH-agent identities answer. *)
Record AgentIdentity := {
  key_blob : bytes;
  comment : rstring;
}.

(** Caller-provided explanation shared by requests on one connection. *)
Record RequestContext := {
  group_id : Uuid;
  reason : rstring;
  command : list rstring;
}.

(** Failure to admit or complete an SSH-agent packet request. *)
Inductive RequestError :=
| Unavailable
| QueueFull
| TimedOut
| Cancelled.

Inductive IdentityError :=
| InvalidKey
| TooLarge.

#[export] Instance AgentIdentity_eq_dec : EqDecision AgentIdentity.
Proof. solve_decision. Defined.
#[export] Instance RequestContext_eq_dec : EqDecision RequestContext.
Proof. solve_decision. Defined.
#[export] Instance RequestError_eq_dec : EqDecision RequestError.
Proof. solve_decision. Defined.
#[export] Instance IdentityError_eq_dec : EqDecision IdentityError.
Proof. solve_decision. Defined.

(** ** The SSH-agent codecs of [ssh_agent_lib] *)

(** A decoder consumes a prefix of its input and returns the rest, as the
    [&mut &[u8]] readers of the crate do; [None] is a decoding error. *)
Class SshAgentLib := {
  Request : Type;
  is_RequestIdentities : Request → bool;
  Request_decode : bytes → option (Request * bytes);
  PublicCredential : Type;
  PublicCredential_decode : bytes → option (PublicCredential * bytes);
  (** [Response::IdentitiesAnswer(identities).encoded_len()] *)
  IdentitiesAnswer_encoded_len : list (PublicCredential * rstring) → option N;
  (** [Response::IdentitiesAnswer(identities).encode(..)]: the bytes written. *)
  IdentitiesAnswer_encode : list (PublicCredential * rstring) → option bytes;
}.

(** What is documented of the codecs: [encoded_len] is the number of bytes
    [encode] writes ([ssh_encoding::Encode]), and the identity-list request is
    the one-byte message [SSH_AGENTC_REQUEST_IDENTITIES] (11). *)
Class SshAgentLibSpec (L : SshAgentLib) := {
  Request_decode_identities : ∀ payload,
    (∃ request, Request_decode payload = Some (request, [])
                ∧ is_RequestIdentities request = true)
    ↔ payload = [Byte.x0b];
  encoded_len_spec : ∀ ids payload,
    IdentitiesAnswer_encode ids = Some payload →
    IdentitiesAnswer_encoded_len ids = Some (len payload);
}.

(** ** Framing *)

Definition packet_payload (packet : bytes) : option bytes :=
  match get_to 4 packet ≫= u32_from_be_bytes with
  | None => None
  | Some length =>
      match get_from 4 packet with
      | None => None
      | Some payload => if (len payload =? length)%N then Some payload else None
      end
  end.

Definition ssh_string (value : bytes) : option bytes :=
  match get_to 4 value ≫= u32_from_be_bytes with
  | None => None
  | Some length => get_range 4 (4 + N.to_nat length) value
  end.

(** ** Classification *)

Definition OPENSSH_SESSION_BIND_EXTENSION : bytes :=
  byte_string "session-bind@openssh.com".

Definition is_openssh_session_bind_request (packet : bytes) : bool :=
  match packet_payload packet with
  | None => false
  | Some payload =>
      match payload with
      | tag :: extension =>
          if decide (Byte.to_N tag = 27%N) then
            match ssh_string extension with
            | None => false
            | Some name => bool_decide (name = OPENSSH_SESSION_BIND_EXTENSION)
            end
          else false
      | [] => false
      end
  end.

Section with_codecs.
Context `{L : SshAgentLib}.

Definition is_identity_request (packet : bytes) : bool :=
  match packet_payload packet with
  | None => false
  | Some payload =>
      match Request_decode payload with
      | Some (request, rest) => is_RequestIdentities request && bool_decide (rest = [])
      | None => false
      end
  end.

(** ** The identities answer *)

(** One identity: its key blob must decode to a credential with nothing left
    over. *)
Definition identity_credential (identity : AgentIdentity) :
    result (PublicCredential * rstring) IdentityError :=
  match PublicCredential_decode (key_blob identity) with
  | None => Err InvalidKey
  | Some (credential, rest) =>
      if decide (rest = []) then Ok (credential, comment identity) else Err InvalidKey
  end.

(** [.map(..).collect::<Result<Vec<_>, _>>()]: the first error wins. *)
Fixpoint identities_response (identities : list AgentIdentity) :
    result (list (PublicCredential * rstring)) IdentityError :=
  match identities with
  | [] => Ok []
  | identity :: rest =>
      let? c := identity_credential identity in
      let? cs := identities_response rest in
      Ok (c :: cs)
  end.

Definition response_payload_length (response : list (PublicCredential * rstring)) :
    result N IdentityError :=
  match IdentitiesAnswer_encoded_len response with
  | None => Err TooLarge
  | Some n => if (n <=? U32_MAX)%N then Ok n else Err TooLarge
  end.

Definition identities_answer (identities : list AgentIdentity) :
    result bytes IdentityError :=
  let? response := identities_response identities in
  let? payload_length := response_payload_length response in
  match IdentitiesAnswer_encode response with
  | None => Err TooLarge
  | Some payload => Ok (u32_to_be_bytes payload_length ++ payload)
  end.

Definition validate_identities (identities : list AgentIdentity) :
    result unit IdentityError :=
  let? response := identities_response identities in
  let? _ := response_payload_length response in
  Ok tt.

End with_codecs.
