(* ===== verification/ContextCodec.v ===== *)
(** * ContextCodec: the Agent Witness context extension

    Models [crates/server/src/request_router/context.rs]: the frame a caller
    sends first on a connection to explain its requests, with the limits the
    encoder and the decoder enforce.

    The textual forms of UUIDs come from the [uuid] crate: they are the
    operations of the class [UuidText], and the documented round trip of the
    simple form is the law class [UuidTextSpec]. *)

From S2P Require Import Prelude Bytes Utf8 Packet.

Definition CONTEXT_EXTENSION : bytes := byte_string "context@agent-witness".
Definition CONTEXT_VERSION : N := 1.
Definition SSH_AGENTC_EXTENSION : N := 27.
Definition MAX_REASON_SIZE : N := 512.
Definition MAX_COMMAND_ARGUMENTS : N := 128.
Definition MAX_COMMAND_SIZE : N := 16 * 1024.

Inductive ContextError :=
| Malformed
| UnsupportedVersion
| InvalidGroupId
| InvalidReason
| InvalidCommand.
#[export] Instance ContextError_eq_dec : EqDecision ContextError.
Proof. solve_decision. Defined.

(** ** The [uuid] crate *)

Class UuidText := {
  (** [Uuid::simple().to_string()] *)
  Uuid_simple : Uuid → rstring;
  (** [Uuid::parse_str(..).ok()] *)
  Uuid_parse_str : rstring → option Uuid;
}.

(** The simple form is 32 hexadecimal digits and parses back. *)
Class UuidTextSpec (U : UuidText) := {
  length_Uuid_simple : ∀ u, length (Uuid_simple u) = 32;
  valid_Uuid_simple : ∀ u, valid_utf8 (Uuid_simple u) = true;
  Uuid_parse_simple : ∀ u, (u < 2 ^ 128)%N → Uuid_parse_str (Uuid_simple u) = Some u;
}.

(** ** The decoder *)

Module Decoder.

Record t := { data : bytes; offset : N }.

(** [Decoder::packet] *)
Definition packet (packet : bytes) : option t :=
  length ← get_to 4 packet ≫= u32_from_be_bytes;
  data ← get_from 4 packet;
  if (len data =? length)%N then Some {| data := data; offset := 0 |} else None.

(** [take] and the methods built on it return the value taken and the decoder
    after it. *)
Definition take (size : N) (d : t) : result (bytes * t) ContextError :=
  let end_ := (offset d + size)%N in
  if (U64_MAX <? end_)%N then Err Malformed
  else
    let? value := ok_or (get_range (N.to_nat (offset d)) (N.to_nat end_) (data d)) Malformed in
    Ok (value, {| data := data d; offset := end_ |}).

Definition take_u8 (d : t) : result (N * t) ContextError :=
  let? (value, d) := take 1 d in
  Ok (Byte.to_N (value !!! 0), d).

(** [expect("four bytes requested")] is the default that [take 4] excludes. *)
Definition take_u32 (d : t) : result (N * t) ContextError :=
  let? (value, d) := take 4 d in
  Ok (default 0%N (u32_from_be_bytes value), d).

Definition take_string (d : t) : result (bytes * t) ContextError :=
  let? (length, d) := take_u32 d in
  take length d.

Definition finish (d : t) : result unit ContextError :=
  if (offset d =? len (data d))%N then Ok tt else Err Malformed.

End Decoder.

(** ** Text limits *)

Definition printable (c : N) : bool :=
  (c =? 32)%N || negb (is_control c) && negb (is_whitespace c).

Definition decode_text (value : bytes) (max_size : N) : option rstring :=
  if bool_decide (value = []) || (max_size <? len value)%N then None
  else
    value ← from_utf8 value;
    if forallb printable (chars value) then Some value else None.

(** [(1..=MAX_COMMAND_ARGUMENTS).contains(&n)] *)
Definition argument_count_ok (n : N) : bool :=
  (1 <=? n)%N && (n <=? MAX_COMMAND_ARGUMENTS)%N.

(** ** Encoding *)

Definition push_string (packet value : bytes) : bytes :=
  packet ++ u32_to_be_bytes (wrap32 (len value)) ++ value.

(** [iter().map(String::len).sum::<usize>()] *)
Definition command_size (command : list rstring) : N :=
  foldr (λ a n, len a + n)%N 0%N command.

Section codec.
Context `{U : UuidText}.

Definition encode (context : RequestContext) : result bytes ContextError :=
  let? _ := ok_or (decode_text (reason context) MAX_REASON_SIZE) InvalidReason in
  if negb (argument_count_ok (len (command context)))
     || (MAX_COMMAND_SIZE <? command_size (command context))%N
  then Err InvalidCommand
  else
    let packet := replicate 4 (byte_of_N 0) in
    let packet := packet ++ [byte_of_N SSH_AGENTC_EXTENSION] in
    let packet := push_string packet CONTEXT_EXTENSION in
    let packet := packet ++ [byte_of_N CONTEXT_VERSION] in
    let packet := push_string packet (Uuid_simple (group_id context)) in
    let packet := push_string packet (reason context) in
    let packet := packet ++ u32_to_be_bytes (wrap32 (len (command context))) in
    let packet := foldl push_string packet (command context) in
    let length := wrap32 (len packet - 4) in
    Ok (u32_to_be_bytes length ++ drop 4 packet).

(** ** Decoding *)

(** The [for _ in 0..argument_count] loop. *)
Fixpoint decode_arguments (count : nat) (size : N) (d : Decoder.t) :
    result (list rstring * Decoder.t) ContextError :=
  match count with
  | 0 => Ok ([], d)
  | S count =>
      let? (argument, d) := Decoder.take_string d in
      let size := (size + len argument)%N in
      if (MAX_COMMAND_SIZE <? size)%N then Err InvalidCommand
      else
        let? (rest, d) := decode_arguments count size d in
        Ok (from_utf8_lossy argument :: rest, d)
  end.

Definition decode_contents (d : Decoder.t) : result (option RequestContext) ContextError :=
  let? (version, d) := Decoder.take_u8 d in
  if negb (version =? CONTEXT_VERSION)%N then Err UnsupportedVersion
  else
    let? (text, d) := Decoder.take_string d in
    let? group_id := ok_or (from_utf8 text ≫= Uuid_parse_str) InvalidGroupId in
    let? (text, d) := Decoder.take_string d in
    let? reason := ok_or (decode_text text MAX_REASON_SIZE) InvalidReason in
    let? (argument_count, d) := Decoder.take_u32 d in
    if negb (argument_count_ok argument_count) then Err InvalidCommand
    else
      let? (command, d) := decode_arguments (N.to_nat argument_count) 0 d in
      let? _ := Decoder.finish d in
      Ok (Some {| group_id := group_id; reason := reason; command := command |}).

Definition decode (packet : bytes) : result (option RequestContext) ContextError :=
  match Decoder.packet packet with
  | None => Ok None
  | Some d =>
      let? (tag, d) := Decoder.take_u8 d in
      if negb (tag =? SSH_AGENTC_EXTENSION)%N then Ok None
      else
        let? (name, d) := Decoder.take_string d in
        if negb (bool_decide (name = CONTEXT_EXTENSION)) then Ok None
        else decode_contents d
  end.

End codec.
