(* ===== verification/ContextCodecProps.v ===== *)
(** * ContextCodecProps: the context codec implements its grammar

    A grammar of context frames ([wire]) and the theorems that [ContextCodec]'s
    decoder accepts exactly its frames within the limits, that what is encoded
    decodes to itself, and which packets the decoder leaves to others. *)

From S2P Require Import Prelude Bytes Utf8 Packet ContextCodec.

(** ** The grammar *)

(** An SSH string: its length, then its bytes. *)
Definition framed (value : bytes) : bytes := u32_to_be_bytes (wrap32 (len value)) ++ value.

(** The payload of a context frame: the message tag, the extension's name, the
    version, the group, the reason, and the arguments with their number. *)
Definition wire_payload (group reason : bytes) (arguments : list bytes) : bytes :=
  [byte_of_N SSH_AGENTC_EXTENSION] ++ framed CONTEXT_EXTENSION
  ++ [byte_of_N CONTEXT_VERSION] ++ framed group ++ framed reason
  ++ u32_to_be_bytes (wrap32 (len arguments)) ++ mjoin (framed <$> arguments).
Definition wire (group reason : bytes) (arguments : list bytes) : bytes :=
  framed (wire_payload group reason arguments).

Lemma len_framed v : len (framed v) = (4 + len v)%N.
Proof. unfold framed. len_lia. Qed.
#[export] Hint Rewrite len_framed : len.

Lemma len_framed_arguments arguments :
  len (mjoin (framed <$> arguments)) = (4 * len arguments + command_size arguments)%N.
Proof.
  induction arguments as [|v l IH]; [done|].
  change (mjoin (framed <$> v :: l)) with (framed v ++ mjoin (framed <$> l)).
  rewrite len_app, len_framed, IH, len_cons. simpl. lia.
Qed.

(** ** The decoder as a cursor *)

(** The decoder that has consumed [pre] and still has [post] to read. *)
Definition at_ (pre post : bytes) : Decoder.t :=
  {| Decoder.data := pre ++ post; Decoder.offset := len pre |}.

Lemma at_app pre v post : at_ (pre ++ v) post = {| Decoder.data := pre ++ v ++ post; Decoder.offset := len (pre ++ v) |}.
Proof. unfold at_. by rewrite app_assoc. Qed.

Lemma take_at pre v post :
  (len (pre ++ v) ≤ U64_MAX)%N →
  Decoder.take (len v) (at_ pre (v ++ post)) = Ok (v, at_ (pre ++ v) post).
Proof.
  intros Hle. unfold Decoder.take. simpl. rewrite <- len_app.
  rewrite (proj2 (N.ltb_ge _ _) Hle). unfold len at 1 2. rewrite !Nat2N.id, length_app.
  rewrite get_range_app. simpl. by rewrite at_app.
Qed.

Lemma take_inv size pre rest v d :
  Decoder.take size (at_ pre rest) = Ok (v, d) →
  ∃ post, rest = v ++ post ∧ len v = size ∧ d = at_ (pre ++ v) post.
Proof.
  unfold Decoder.take. simpl. case_match; [done|].
  destruct (get_range _ _ _) as [w|] eqn:E; [|done]. simpl. intros [= -> <-].
  apply get_range_split in E as (post & -> & El); [|unfold len; lia].
  exists post. assert (len v = size) as <- by (unfold len in *; lia).
  split_and!; [done..|]. rewrite at_app. f_equal. by rewrite len_app.
Qed.

Lemma take_u8_at pre b post :
  (len (pre ++ [b]) ≤ U64_MAX)%N →
  Decoder.take_u8 (at_ pre (b :: post)) = Ok (Byte.to_N b, at_ (pre ++ [b]) post).
Proof.
  intros Hle. unfold Decoder.take_u8. change 1%N with (len [b]).
  change (b :: post) with ([b] ++ post). by rewrite take_at.
Qed.

Lemma take_u8_inv pre rest n d :
  Decoder.take_u8 (at_ pre rest) = Ok (n, d) →
  ∃ post, rest = byte_of_N n :: post ∧ n = Byte.to_N (byte_of_N n)
          ∧ d = at_ (pre ++ [byte_of_N n]) post.
Proof.
  unfold Decoder.take_u8. destruct (Decoder.take _ _) as [[v d']|] eqn:E; [|done].
  apply take_inv in E as (post & -> & Hl & ->). simpl. intros [= <- <-].
  destruct v as [|b [|]]; try done; [|unfold len in Hl; simpl in Hl; lia].
  exists post. change ([b] !!! 0) with b. by rewrite byte_of_N_to_N.
Qed.

Lemma take_u32_at pre n post :
  (n < 2 ^ 32)%N → (len (pre ++ u32_to_be_bytes n) ≤ U64_MAX)%N →
  Decoder.take_u32 (at_ pre (u32_to_be_bytes n ++ post))
  = Ok (n, at_ (pre ++ u32_to_be_bytes n) post).
Proof.
  intros Hn Hle. unfold Decoder.take_u32. change 4%N with (len (u32_to_be_bytes n)).
  rewrite take_at by done. cbn [try_bind]. by rewrite u32_from_to_be_bytes, wrap32_small.
Qed.

Lemma take_u32_inv pre rest n d :
  Decoder.take_u32 (at_ pre rest) = Ok (n, d) →
  ∃ post, rest = u32_to_be_bytes n ++ post ∧ (n < 2 ^ 32)%N
          ∧ d = at_ (pre ++ u32_to_be_bytes n) post.
Proof.
  unfold Decoder.take_u32. destruct (Decoder.take _ _) as [[v d']|] eqn:E; [|done].
  apply take_inv in E as (post & -> & Hl & ->). cbn [try_bind]. intros [= <- <-].
  destruct (u32_from_be_bytes_is_Some v) as [n Hn]; [unfold len in Hl; lia|].
  rewrite Hn. change (default 0%N (Some n)) with n. exists post. rewrite (u32_to_from_be_bytes _ _ Hn).
  split_and!; try done. by eapply u32_from_be_bytes_bound.
Qed.

Lemma take_string_at pre v post :
  (len v < 2 ^ 32)%N → (len (pre ++ framed v) ≤ U64_MAX)%N →
  Decoder.take_string (at_ pre (framed v ++ post)) = Ok (v, at_ (pre ++ framed v) post).
Proof.
  intros Hv Hle. unfold Decoder.take_string, framed. rewrite <- app_assoc, wrap32_small by done.
  rewrite take_u32_at; [|done|len_lia].
  cbn [try_bind]. rewrite take_at, <- app_assoc; [done|len_lia].
Qed.

Lemma take_string_inv pre rest v d :
  Decoder.take_string (at_ pre rest) = Ok (v, d) →
  ∃ post, rest = framed v ++ post ∧ d = at_ (pre ++ framed v) post.
Proof.
  unfold Decoder.take_string. destruct (Decoder.take_u32 _) as [[n d']|] eqn:E; [|done].
  apply take_u32_inv in E as (post & -> & Hn & ->). cbn [try_bind]. intros E.
  apply take_inv in E as (post' & -> & <- & ->). exists post'. unfold framed.
  by rewrite wrap32_small, <- !app_assoc by done.
Qed.

Lemma finish_at pre rest : Decoder.finish (at_ pre rest) = Ok tt ↔ rest = [].
Proof.
  unfold Decoder.finish. simpl. rewrite len_app. split.
  - case_match eqn:E; [|done]. apply N.eqb_eq in E. intros _. destruct rest; [done|].
    unfold len in E. simpl in E. lia.
  - intros ->. by rewrite (proj2 (N.eqb_eq _ _)) by (unfold len; simpl; lia).
Qed.

Lemma packet_framed payload :
  (len payload < 2 ^ 32)%N → Decoder.packet (framed payload) = Some (at_ [] payload).
Proof.
  intros Hl. unfold Decoder.packet, framed. rewrite wrap32_small by done.
  change 4 with (length (u32_to_be_bytes (len payload))).
  rewrite get_to_app, get_from_app. cbn [mbind option_bind].
  rewrite u32_from_to_be_bytes, wrap32_small by done. simpl. by rewrite N.eqb_refl.
Qed.

Lemma packet_inv packet d :
  Decoder.packet packet = Some d →
  ∃ payload, packet = framed payload ∧ (len payload < 2 ^ 32)%N ∧ d = at_ [] payload.
Proof.
  unfold Decoder.packet. destruct (get_to 4 packet) as [h|] eqn:E1; [|done]. simpl.
  destruct (u32_from_be_bytes h) as [n|] eqn:En; [|done]. simpl.
  destruct (get_from 4 packet) as [payload|] eqn:E2; [|done]. simpl.
  destruct (N.eqb_spec (len payload) n) as [Hl|]; [|done]. intros [= <-].
  destruct (get_split _ _ _ _ E1 E2) as [-> _]. exists payload.
  pose proof (u32_from_be_bytes_bound _ _ En).
  split_and!; [|by rewrite Hl|done]. unfold framed.
  by rewrite Hl, wrap32_small, (u32_to_from_be_bytes _ _ En).
Qed.

(** ** Arguments *)

Lemma framed_arguments_cons v l : mjoin (framed <$> v :: l) = framed v ++ mjoin (framed <$> l).
Proof. done. Qed.

Lemma decode_arguments_at arguments size pre post :
  (size + command_size arguments ≤ MAX_COMMAND_SIZE)%N →
  (len (pre ++ mjoin (framed <$> arguments)) ≤ U64_MAX)%N →
  decode_arguments (length arguments) size (at_ pre (mjoin (framed <$> arguments) ++ post))
  = Ok (from_utf8_lossy <$> arguments, at_ (pre ++ mjoin (framed <$> arguments)) post).
Proof.
  revert size pre. induction arguments as [|v l IH]; intros size pre Hs Hl.
  { simpl. by rewrite app_nil_r. }
  rewrite framed_arguments_cons in *. rewrite !len_app in Hl. cbn [command_size foldr] in Hs.
  fold (command_size l) in Hs.
  cbn [length decode_arguments]. rewrite <- app_assoc, take_string_at.
  - cbn [try_bind]. rewrite (proj2 (N.ltb_ge _ _)) by lia.
    rewrite IH; [|lia|len_lia]. cbn [try_bind]. by rewrite <- app_assoc.
  - assert (MAX_COMMAND_SIZE = 16384)%N as E by done. lia.
  - len_lia.
Qed.

Lemma decode_arguments_inv count size pre rest command d :
  decode_arguments count size (at_ pre rest) = Ok (command, d) →
  ∃ arguments post, length arguments = count
    ∧ rest = mjoin (framed <$> arguments) ++ post
    ∧ d = at_ (pre ++ mjoin (framed <$> arguments)) post
    ∧ command = from_utf8_lossy <$> arguments
    ∧ (size ≤ MAX_COMMAND_SIZE → size + command_size arguments ≤ MAX_COMMAND_SIZE)%N.
Proof.
  revert size pre rest command d. induction count as [|count IH];
    intros size pre rest command d; cbn [decode_arguments].
  { intros [= <- <-]. exists [], rest. simpl. rewrite app_nil_r. split_and!; try done. lia. }
  destruct (Decoder.take_string _) as [[v d1]|] eqn:E; [|done]. cbn [try_bind].
  apply take_string_inv in E as (post & -> & ->).
  case_match eqn:Es; [done|]. apply N.ltb_ge in Es.
  destruct (decode_arguments _ _ _) as [[command1 d2]|] eqn:E; [|done]. cbn [try_bind].
  intros [= <- <-]. apply IH in E as (l & post' & <- & -> & -> & -> & Hl).
  exists (v :: l), post'. rewrite framed_arguments_cons, <- !app_assoc.
  split_and!; try done. intros _. cbn [command_size foldr]. fold (command_size l).
  specialize (Hl Es). lia.
Qed.

(** ** The decoder and the grammar *)

Lemma decode_text_Some v max v' :
  decode_text v max = Some v' →
  v' = v ∧ v ≠ [] ∧ (len v ≤ max)%N ∧ valid_utf8 v = true ∧ forallb printable (chars v) = true.
Proof.
  unfold decode_text. case_match eqn:E; [done|].
  apply orb_false_elim in E as [E1%bool_decide_eq_false E2%N.ltb_ge].
  destruct (from_utf8 v) as [w|] eqn:E; [|done]. cbn [mbind option_bind].
  apply from_utf8_Some in E as [Hv ->]. case_match eqn:E; [|done]. by intros [= <-].
Qed.

(** What a reason may be, from the protocol: 1 to 512 bytes of UTF-8 without
    control characters and without white space other than the space. *)
Definition reason_char (c : N) : Prop :=
  c = 32%N ∨ is_control c = false ∧ is_whitespace c = false.
Definition reason_text (v : bytes) : Prop :=
  (1 ≤ len v ≤ 512)%N ∧ valid_utf8 v = true ∧ Forall reason_char (chars v).

Lemma printable_spec c : printable c = true ↔ reason_char c.
Proof.
  unfold printable, reason_char.
  rewrite orb_true_iff, andb_true_iff, N.eqb_eq, !negb_true_iff. done.
Qed.

Lemma decode_text_spec v : decode_text v MAX_REASON_SIZE = Some v ↔ reason_text v.
Proof.
  assert (forallb printable (chars v) = true ↔ Forall reason_char (chars v)) as Hp.
  { rewrite forallb_forall, List.Forall_forall. by setoid_rewrite printable_spec. }
  unfold reason_text. rewrite <- Hp. split.
  - intros (_ & Hne & Hl & Hu & Hc)%decode_text_Some. split_and!; try done.
    destruct v; [done|]. rewrite len_cons. lia.
  - intros ([Hmin Hmax] & Hu & Hc). unfold decode_text, from_utf8. rewrite Hu. cbn.
    rewrite Hc, bool_decide_eq_false_2 by (intros ->; by rewrite len_nil in Hmin).
    by rewrite (proj2 (N.ltb_ge _ _)).
Qed.

Lemma argument_count_spec n : argument_count_ok n = true ↔ (1 ≤ n ≤ MAX_COMMAND_ARGUMENTS)%N.
Proof. unfold argument_count_ok. rewrite andb_true_iff, !N.leb_le. done. Qed.

Section codec.
Context `{U : UuidText}.

(** What a frame of the grammar must satisfy to stand for a context. *)
Record denotes (group : bytes) (arguments : list bytes) (context : RequestContext) : Prop := {
  den_group : from_utf8 group ≫= Uuid_parse_str = Some (group_id context);
  den_reason : reason_text (reason context);
  den_count : (1 ≤ len arguments ≤ 128)%N;
  den_size : (command_size arguments ≤ 16384)%N;
  den_command : command context = from_utf8_lossy <$> arguments;
}.

Lemma decode_contents_inv pre rest o :
  decode_contents (at_ pre rest) = Ok o →
  ∃ context group arguments, o = Some context ∧ denotes group arguments context
    ∧ rest = [byte_of_N CONTEXT_VERSION] ++ framed group ++ framed (reason context)
             ++ u32_to_be_bytes (wrap32 (len arguments)) ++ mjoin (framed <$> arguments).
Proof.
  unfold decode_contents.
  destruct (Decoder.take_u8 _) as [[version d1]|] eqn:E; [|done]. cbn [try_bind].
  apply take_u8_inv in E as (r1 & -> & _ & ->).
  case_match eqn:Ev; [done|]. apply negb_false_iff, N.eqb_eq in Ev as ->.
  destruct (Decoder.take_string _) as [[group d2]|] eqn:E; [|done]. cbn [try_bind].
  apply take_string_inv in E as (r2 & -> & ->).
  destruct (from_utf8 group ≫= Uuid_parse_str) as [u|] eqn:Eu; [|done]. cbn [try_bind ok_or].
  destruct (Decoder.take_string _) as [[text d3]|] eqn:E; [|done]. cbn [try_bind].
  apply take_string_inv in E as (r3 & -> & ->).
  destruct (decode_text text MAX_REASON_SIZE) as [reason|] eqn:Er; [|done]. cbn [try_bind ok_or].
  destruct (Decoder.take_u32 _) as [[n d4]|] eqn:E; [|done]. cbn [try_bind].
  apply take_u32_inv in E as (r4 & -> & Hn & ->).
  case_match eqn:Ec; [done|]. apply negb_false_iff, argument_count_spec in Ec.
  destruct (decode_arguments _ _ _) as [[command d5]|] eqn:E; [|done]. cbn [try_bind].
  apply decode_arguments_inv in E as (arguments & r5 & Hl & -> & -> & -> & Hs).
  destruct (Decoder.finish _) as [[]|] eqn:E; [|done]. apply finish_at in E as ->.
  cbn [try_bind]. intros [= <-]. pose proof (decode_text_Some _ _ _ Er) as [-> _].
  assert (n = len arguments) as -> by (unfold len; lia).
  eexists _, group, arguments. split; [done|]. split.
  - split; simpl; try done; [by apply decode_text_spec|]. unfold MAX_COMMAND_SIZE in *. lia.
  - cbn [reason]. by rewrite wrap32_small, app_nil_r by done.
Qed.

Lemma decode_contents_at pre group arguments context :
  denotes group arguments context →
  let rest := [byte_of_N CONTEXT_VERSION] ++ framed group ++ framed (reason context)
    ++ u32_to_be_bytes (wrap32 (len arguments)) ++ mjoin (framed <$> arguments) in
  (len (pre ++ rest) < 2 ^ 32)%N →
  decode_contents (at_ pre rest) = Ok (Some context).
Proof.
  intros [Hg Hr%decode_text_spec Hc Hs Hcmd] rest Hfit. unfold rest in *. clear rest.
  rewrite wrap32_small by (unfold MAX_COMMAND_ARGUMENTS in *; lia).
  unfold decode_contents. cbn [app]. rewrite take_u8_at by len_lia. cbn [try_bind].
  change (Byte.to_N (byte_of_N CONTEXT_VERSION) =? CONTEXT_VERSION)%N with true. cbn [negb].
  rewrite take_string_at by len_lia. cbn [try_bind]. rewrite Hg. cbn [ok_or try_bind].
  rewrite take_string_at by len_lia. cbn [try_bind]. rewrite Hr. cbn [ok_or try_bind].
  rewrite take_u32_at; [|unfold MAX_COMMAND_ARGUMENTS in *; lia|len_lia]. cbn [try_bind].
  rewrite (proj2 (argument_count_spec _) Hc). cbn [negb].
  unfold len at 1. rewrite Nat2N.id.
  rewrite <- (app_nil_r (mjoin (framed <$> arguments))) at 1.
  rewrite decode_arguments_at by (done || len_lia). cbn [try_bind].
  rewrite (proj2 (finish_at _ _)) by done. cbn [try_bind]. rewrite <- Hcmd.
  by destruct context.
Qed.

Lemma decode_recognises packet context :
  decode packet = Ok (Some context) ↔
  ∃ group arguments,
    packet = wire group (reason context) arguments
    ∧ (len (wire_payload group (reason context) arguments) < 2 ^ 32)%N
    ∧ denotes group arguments context.
Proof.
  unfold decode. split.
  - destruct (Decoder.packet packet) as [d|] eqn:E; [|done].
    apply packet_inv in E as (payload & -> & Hl & ->).
    destruct (Decoder.take_u8 _) as [[tag d1]|] eqn:E; [|done]. cbn [try_bind].
    apply take_u8_inv in E as (r1 & -> & _ & ->).
    case_match eqn:Et; [done|]. apply negb_false_iff, N.eqb_eq in Et as ->.
    destruct (Decoder.take_string _) as [[name d2]|] eqn:E; [|done]. cbn [try_bind].
    apply take_string_inv in E as (r2 & -> & ->).
    case_match eqn:En; [done|]. apply negb_false_iff, bool_decide_eq_true in En as ->.
    intros (c & group & arguments & [= <-] & Hd & ->)%decode_contents_inv.
    exists group, arguments. split_and!; [done|exact Hl|done].
  - intros (group & arguments & -> & Hl & Hd). unfold wire. rewrite packet_framed by done.
    unfold wire_payload in *.
    cbn [app]. rewrite take_u8_at by len_lia. cbn [try_bind].
    change (Byte.to_N (byte_of_N SSH_AGENTC_EXTENSION) =? SSH_AGENTC_EXTENSION)%N with true.
    cbn [negb]. rewrite take_string_at by len_lia. cbn [try_bind].
    rewrite bool_decide_true by done. cbn [negb].
    apply (decode_contents_at _ group arguments context Hd).
    len_lia.
Qed.

(** C21: the decoder recognises exactly the grammar of context frames.  A
    packet decodes to a context if and only if it is a complete frame of the
    extension, within its length field, whose group is a UUID, whose reason is
    1 to 512 bytes of UTF-8 without control characters and without white space
    other than the space, and which has 1 to 128 arguments of at most 16 KiB
    together; the context's arguments are the frame's, with
    malformed UTF-8 replaced. *)
Theorem decode_recognises_wire packet context :
  decode packet = Ok (Some context) ↔
  ∃ group arguments,
    packet = wire group (reason context) arguments
    ∧ (len (wire_payload group (reason context) arguments) < 2 ^ 32)%N
    ∧ denotes group arguments context.
Proof. apply decode_recognises. Qed.

(** ** Encoding *)

Lemma foldl_push_string packet arguments :
  foldl push_string packet arguments = packet ++ mjoin (framed <$> arguments).
Proof.
  revert packet. induction arguments as [|v l IH]; intros packet; cbn [foldl].
  { by rewrite app_nil_r. }
  rewrite IH, framed_arguments_cons. unfold push_string, framed. by rewrite <- !app_assoc.
Qed.

Definition encodable (context : RequestContext) : Prop :=
  decode_text (reason context) MAX_REASON_SIZE = Some (reason context)
  ∧ (1 ≤ len (command context) ≤ MAX_COMMAND_ARGUMENTS)%N
  ∧ (command_size (command context) ≤ MAX_COMMAND_SIZE)%N.

Lemma encode_spec context packet :
  encode context = Ok packet ↔
  encodable context
  ∧ packet = wire (Uuid_simple (group_id context)) (reason context) (command context).
Proof.
  unfold encode, encodable.
  destruct (decode_text (reason context) MAX_REASON_SIZE) as [r|] eqn:Er; cbn [ok_or try_bind].
  2: naive_solver.
  pose proof (decode_text_Some _ _ _ Er) as [-> _].
  destruct (argument_count_ok (len (command context))) eqn:Ec; cbn [negb orb].
  2: { split; [done|]. intros [(_ & Hc & _) _]. apply argument_count_spec in Hc. congruence. }
  apply argument_count_spec in Ec.
  destruct (N.ltb_spec MAX_COMMAND_SIZE (command_size (command context))) as [Hs|Hs].
  { split; [done|]. intros [(_ & _ & Hs') _]. lia. }
  rewrite foldl_push_string. unfold push_string. rewrite <- !app_assoc.
  rewrite (len_app (replicate 4 (byte_of_N 0))).
  change (len (replicate 4 (byte_of_N 0))) with 4%N. rewrite N.add_comm, N.add_sub.
  rewrite (drop_app_length' (replicate 4 _)) by done.
  unfold wire, wire_payload. unfold framed at 1 2 4 5 6. rewrite <- !app_assoc. naive_solver.
Qed.

Lemma encodable_fits context packet `{!UuidTextSpec U} :
  encodable context → packet = wire (Uuid_simple (group_id context)) (reason context) (command context) →
  (len (wire_payload (Uuid_simple (group_id context)) (reason context) (command context)) < 2 ^ 32)%N
  ∧ (len packet ≤ 17483)%N.
Proof.
  intros (Hr & [_ Hc] & Hs) ->. apply decode_text_Some in Hr as (_ & _ & Hr & _).
  unfold wire. rewrite len_framed. unfold wire_payload.
  rewrite !len_app, !len_framed, len_framed_arguments.
  change (len (u32_to_be_bytes _)) with 4%N. change (len CONTEXT_EXTENSION) with 21%N.
  rewrite !len_cons, !len_nil. unfold len at 1 4. rewrite !length_Uuid_simple.
  unfold MAX_REASON_SIZE, MAX_COMMAND_ARGUMENTS, MAX_COMMAND_SIZE in *. lia.
Qed.

Lemma lossy_valid_arguments arguments :
  Forall (λ v, valid_utf8 v = true) arguments → from_utf8_lossy <$> arguments = arguments.
Proof.
  induction 1 as [|v l Hv Hl IH]; [done|]. csimpl. by rewrite from_utf8_lossy_valid, IH.
Qed.

Lemma encodable_decodes context packet `{!UuidTextSpec U} :
  (group_id context < 2 ^ 128)%N → Forall (λ v, valid_utf8 v = true) (command context) →
  encode context = Ok packet → decode packet = Ok (Some context).
Proof.
  intros Hg Hv [He Hp]%encode_spec. pose proof (encodable_fits _ _ He Hp) as [Hfit _].
  apply decode_recognises. eexists _, _. split_and!; [exact Hp|done|].
  destruct He as (Hr & Hc & Hs). split; try done.
  - unfold from_utf8. rewrite valid_Uuid_simple. by apply Uuid_parse_simple.
  - by apply decode_text_spec.
  - by rewrite lossy_valid_arguments.
Qed.

(** C22: what the client encodes, the server decodes.  A context whose strings
    are valid text (as every Rust string is) and which the encoder accepts
    decodes to itself, and the frame never exceeds 17483 bytes, so none of the
    encoder's conversions to 32 bits truncates. *)
Theorem context_round_trip context packet `{!UuidTextSpec U} :
  (group_id context < 2 ^ 128)%N → Forall (λ v, valid_utf8 v = true) (command context) →
  encode context = Ok packet →
  decode packet = Ok (Some context) ∧ (len packet ≤ 17483)%N.
Proof.
  intros Hg Hv He. split; [by apply encodable_decodes|].
  apply encode_spec in He as [He Hp]. by destruct (encodable_fits _ _ He Hp).
Qed.

Lemma command_size_lossy arguments :
  (command_size (from_utf8_lossy <$> arguments) ≤ 3 * command_size arguments)%N.
Proof.
  induction arguments as [|v l IH]; csimpl; [done|]. fold (command_size (from_utf8_lossy <$> l)).
  fold (command_size l). pose proof (length_from_utf8_lossy v). unfold len. lia.
Qed.

(** What the decoder returns respects the limits.  The reason is 1 to 512
    bytes of printable text, there are 1 to 128 arguments, every argument is
    valid text, and their total size is at most three times 16 KiB, since each
    malformed byte may become a three-byte replacement character.  The context
    can be encoded again exactly when the arguments still fit in 16 KiB, and
    then decodes to itself. *)
Theorem decoded_context_limits packet context `{!UuidTextSpec U} :
  decode packet = Ok (Some context) →
  decode_text (reason context) MAX_REASON_SIZE = Some (reason context)
  ∧ (1 ≤ len (command context) ≤ MAX_COMMAND_ARGUMENTS)%N
  ∧ Forall (λ v, valid_utf8 v = true) (command context)
  ∧ (command_size (command context) ≤ 3 * MAX_COMMAND_SIZE)%N
  ∧ ((command_size (command context) ≤ MAX_COMMAND_SIZE)%N ↔
     ∃ packet', encode context = Ok packet')
  ∧ ∀ packet', encode context = Ok packet' → (group_id context < 2 ^ 128)%N →
      decode packet' = Ok (Some context).
Proof.
  intros (group & arguments & _ & _ & [Hg Hr%decode_text_spec Hc Hs Hcmd])%decode_recognises.
  fold MAX_COMMAND_ARGUMENTS in Hc. change 16384%N with MAX_COMMAND_SIZE in Hs.
  assert (len (command context) = len arguments) as Hl
    by (unfold len; by rewrite Hcmd, length_fmap).
  assert (Forall (λ v, valid_utf8 v = true) (command context)) as Hv.
  { rewrite Hcmd. apply Forall_fmap, Forall_true. apply valid_from_utf8_lossy. }
  split_and!; [done|lia|lia|done|..].
  - rewrite Hcmd. etrans; [apply command_size_lossy|lia].
  - split.
    + intros Hsz. eexists. apply encode_spec. split; [|done]. split_and!; try done; lia.
    + intros (packet' & [(_ & _ & Hsz) _]%encode_spec). done.
  - intros packet' He Hid. by apply encodable_decodes.
Qed.

(** ** Packets of others *)

Lemma decoder_packet_payload packet :
  Decoder.packet packet = at_ [] <$> packet_payload packet.
Proof.
  unfold Decoder.packet, packet_payload.
  destruct (get_to 4 packet ≫= u32_from_be_bytes); [|done]. cbn [mbind option_bind].
  destruct (get_from 4 packet); [|done]. cbn [mbind option_bind]. by case_match.
Qed.

Lemma ssh_string_Some value v :
  ssh_string value = Some v ↔ (len v < 2 ^ 32)%N ∧ ∃ post, value = framed v ++ post.
Proof.
  unfold ssh_string. split.
  - destruct (get_to 4 value) as [h|] eqn:E1; [|done]. cbn [mbind option_bind].
    destruct (u32_from_be_bytes h) as [n|] eqn:En; [|done]. intros Hr.
    assert (∃ rest, value = h ++ rest ∧ length h = 4) as (rest & -> & Hh).
    { apply (get_split 4 value h (drop 4 value)) in E1 as E1'; [naive_solver|].
      unfold get_to, get_from in *. by case_decide. }
    apply get_range_split in Hr as (post & -> & Hv); [|done].
    pose proof (u32_from_be_bytes_bound _ _ En).
    assert (len v = n) as <- by (unfold len; lia). split; [done|]. exists post.
    unfold framed. by rewrite wrap32_small, (u32_to_from_be_bytes _ _ En), <- app_assoc.
  - intros (Hl & post & ->). unfold framed. rewrite wrap32_small, <- app_assoc by done.
    change 4 with (length (u32_to_be_bytes (len v))) at 1. rewrite get_to_app.
    cbn [mbind option_bind]. rewrite u32_from_to_be_bytes, wrap32_small by done.
    replace (4 + N.to_nat (len v)) with (length (u32_to_be_bytes (len v)) + length v)
      by (unfold len; simpl; lia).
    apply (get_range_app (u32_to_be_bytes (len v))).
Qed.

Lemma take_string_error pre rest e :
  Decoder.take_string (at_ pre rest) = Err e → e = Malformed.
Proof.
  unfold Decoder.take_string, Decoder.take_u32, Decoder.take, try_bind, ok_or.
  repeat case_match; intros; simplify_eq; done.
Qed.

(** The decoder's string reader and the packet classifier's agree. *)
Lemma take_string_ssh_string pre rest :
  (len (pre ++ rest) < 2 ^ 32)%N →
  Decoder.take_string (at_ pre rest)
  = match ssh_string rest with
    | Some v => Ok (v, at_ (pre ++ framed v) (drop (length (framed v)) rest))
    | None => Err Malformed
    end.
Proof.
  intros Hl. destruct (ssh_string rest) as [v|] eqn:Es.
  - apply ssh_string_Some in Es as (Hv & post & ->). rewrite !len_app in Hl.
    rewrite drop_app_length. apply take_string_at; [done|].
    len_lia.
  - destruct (Decoder.take_string _) as [[v d]|e] eqn:E; [|by apply take_string_error in E as ->].
    apply take_string_inv in E as (post & -> & ->). exfalso.
    assert (ssh_string (framed v ++ post) = Some v) as E; [|congruence].
    apply ssh_string_Some. rewrite !len_app, len_framed in Hl. split; [lia|by eexists].
Qed.

Lemma packet_payload_bound packet payload :
  packet_payload packet = Some payload → (len payload < 2 ^ 32)%N.
Proof.
  intros E. destruct (packet_inv packet (at_ [] payload)) as (p & _ & Hl & E').
  { by rewrite decoder_packet_payload, E. }
  unfold at_ in E'. by simplify_eq.
Qed.

Lemma decode_contents_not_none d : decode_contents d ≠ Ok None.
Proof.
  unfold decode_contents, try_bind, ok_or. repeat case_match; by intros.
Qed.

Lemma decode_cases packet :
  match packet_payload packet with
  | None => decode packet = Ok None
  | Some [] => decode packet = Err Malformed
  | Some (tag :: contents) =>
      if decide (Byte.to_N tag = SSH_AGENTC_EXTENSION) then
        match ssh_string contents with
        | None => decode packet = Err Malformed
        | Some name => decode packet = Ok None ↔ name ≠ CONTEXT_EXTENSION
        end
      else decode packet = Ok None
  end.
Proof.
  unfold decode. rewrite decoder_packet_payload.
  destruct (packet_payload packet) as [payload|] eqn:E; [|done].
  apply packet_payload_bound in E as Hl. cbn [fmap option_fmap option_map].
  destruct payload as [|tag contents]; [done|]. rewrite len_cons in Hl.
  rewrite take_u8_at by len_lia.
  cbn [try_bind]. case_decide as Ht.
  - rewrite (proj2 (N.eqb_eq _ _) Ht). cbn [negb].
    rewrite take_string_ssh_string by len_lia.
    destruct (ssh_string contents) as [name|]; [|done]. cbn [try_bind].
    case_bool_decide as Hn; cbn [negb]; [|done].
    split; [intros H; by apply decode_contents_not_none in H|done].
  - rewrite (proj2 (N.eqb_neq _ _) Ht). done.
Qed.

(** C23: which packets are left to others.  A packet that is not a complete
    frame, or whose message is not an extension, or is an extension of another
    name, is passed on untouched; the extension's own frames never are.  But an
    empty frame, and an extension frame that ends within the extension's name,
    are refused as malformed contexts although they are not contexts. *)
Theorem decode_classification packet :
  match packet_payload packet with
  | None => decode packet = Ok None
  | Some [] => decode packet = Err Malformed
  | Some (tag :: contents) =>
      if decide (Byte.to_N tag = SSH_AGENTC_EXTENSION) then
        match ssh_string contents with
        | None => decode packet = Err Malformed
        | Some name => decode packet = Ok None ↔ name ≠ CONTEXT_EXTENSION
        end
      else decode packet = Ok None
  end.
Proof. apply decode_cases. Qed.
End codec.

(** ** A concrete textual form *)

(** Lower-case hexadecimal digits, most significant first. *)
Definition hex_digit (n : N) : byte :=
  byte_of_N (if (n <? 10)%N then 48 + n else 87 + n).
Definition hex_value (b : byte) : option N :=
  if between 48 57 b then Some (Byte.to_N b - 48)%N
  else if between 97 102 b then Some (Byte.to_N b - 87)%N else None.
Fixpoint hex_digits (k : nat) (n : N) : bytes :=
  match k with
  | 0 => []
  | S k => hex_digits k (n `div` 16) ++ [hex_digit (n `mod` 16)]
  end.
Definition hex_step (acc : option N) (b : byte) : option N :=
  a ← acc; v ← hex_value b; Some (a * 16 + v)%N.
Definition hex_parse (l : bytes) : option N :=
  if decide (length l = 32) then foldl hex_step (Some 0%N) l else None.

Definition hex_uuid_text : UuidText :=
  {| Uuid_simple := hex_digits 32; Uuid_parse_str := hex_parse |}.

Lemma hex_value_digit n :
  (n < 16)%N → hex_value (hex_digit n) = Some n ∧ between 0 127 (hex_digit n) = true.
Proof.
  intros Hn. assert (n ∈ N.of_nat <$> seq 0 16) as Hin.
  { apply list_elem_of_fmap. exists (N.to_nat n). rewrite N2Nat.id. split; [done|].
    apply elem_of_seq. lia. }
  clear Hn. revert n Hin. apply Forall_forall. by repeat constructor.
Qed.

Lemma length_hex_digits k n : length (hex_digits k n) = k.
Proof. revert n. induction k; intros n; simpl; [done|]. rewrite length_app, IHk. simpl. lia. Qed.

Lemma hex_digits_parse k n :
  (n < 16 ^ N.of_nat k)%N → foldl hex_step (Some 0%N) (hex_digits k n) = Some n.
Proof.
  revert n. induction k as [|k IH]; intros n Hn; cbn [hex_digits].
  { simpl in *. f_equal. lia. }
  rewrite foldl_app, IH.
  - cbn [foldl]. pose proof (N.mod_lt n 16).
    destruct (hex_value_digit (n `mod` 16)) as [E _]; [lia|].
    unfold hex_step. cbn [mbind option_bind]. rewrite E. cbn [mbind option_bind]. f_equal.
    pose proof (N.div_mod n 16). lia.
  - apply N.Div0.div_lt_upper_bound. rewrite Nat2N.inj_succ, N.pow_succ_r' in Hn. lia.
Qed.

Lemma valid_ascii l : Forall (λ b, between 0 127 b = true) l → valid_utf8 l = true.
Proof.
  unfold valid_utf8. induction 1 as [|b l Hb _ IH]; [done|]. cbn [utf8_chunks]. by rewrite Hb.
Qed.

Lemma hex_digits_ascii k n : Forall (λ b, between 0 127 b = true) (hex_digits k n).
Proof.
  revert n. induction k as [|k IH]; intros n; cbn [hex_digits]; [constructor|].
  apply Forall_app. split; [apply IH|]. apply Forall_singleton.
  apply hex_value_digit. pose proof (N.mod_lt n 16). lia.
Qed.

#[export] Instance hex_uuid_text_spec : UuidTextSpec hex_uuid_text.
Proof.
  split; intros u; change (Uuid_simple u) with (hex_digits 32 u).
  - apply length_hex_digits.
  - apply valid_ascii, hex_digits_ascii.
  - intros Hu. change Uuid_parse_str with hex_parse. unfold hex_parse.
    rewrite decide_True by apply length_hex_digits. by apply hex_digits_parse.
Qed.

Definition sample_context : RequestContext :=
  {| group_id := 281104512847289437610742823041921;
     reason := byte_string "Push the release";
     command := [byte_string "git"; byte_string "push"; []] |}.
Definition sample_packet : bytes :=
  default [] (ok (encode (U := hex_uuid_text) sample_context)).

Lemma context_round_trip_witness :
  decode (U := hex_uuid_text) sample_packet = Ok (Some sample_context).
Proof.
  refine (proj1 (context_round_trip (U := hex_uuid_text) sample_context sample_packet _ _ _)).
  - done.
  - repeat constructor.
  - by vm_compute.
Defined.

(** A frame whose only argument is one malformed byte decodes to a context
    whose argument is the replacement character. *)
Definition lossy_context : RequestContext :=
  {| group_id := 7; reason := byte_string "Deploy"; command := [REPLACEMENT_CHARACTER] |}.

Lemma decoded_context_limits_witness :
  Forall (λ v, valid_utf8 v = true) (command lossy_context)
  ∧ (command_size (command lossy_context) ≤ 3 * MAX_COMMAND_SIZE)%N.
Proof.
  refine (match decoded_context_limits (U := hex_uuid_text)
    (wire (hex_digits 32 7) (byte_string "Deploy") [[Byte.xff]]) lossy_context _ with
    | conj _ (conj _ (conj H1 (conj H2 _))) => conj H1 H2 end).
  by vm_compute.
Defined.
