(* ===== verification/PacketProps.v ===== *)
(** * PacketProps: classification and the identities answer

    Theorems about [Packet]: the classes of packets are disjoint, the
    identities answer is a complete frame, and validation accepts what can be
    answered.  Ends with an instance of the codec classes. *)

From S2P Require Import Prelude Bytes Utf8 Packet ContextCodec ContextCodecProps.

(** ** Framing *)

Lemma packet_payload_framed payload :
  (len payload < 2 ^ 32)%N → packet_payload (framed payload) = Some payload.
Proof.
  intros Hl. pose proof (packet_framed payload Hl) as E.
  rewrite decoder_packet_payload in E. destruct (packet_payload _) as [p|]; [|done].
  unfold at_ in E. by simplify_eq/=.
Qed.

Section codecs.
Context `{L : SshAgentLib} `{!SshAgentLibSpec L} `{U : UuidText}.

Lemma is_identity_request_payload packet :
  is_identity_request packet = true ↔ packet_payload packet = Some [Byte.x0b].
Proof.
  unfold is_identity_request. destruct (packet_payload packet) as [payload|]; [|naive_solver].
  transitivity (payload = [Byte.x0b]); [|naive_solver].
  rewrite <- Request_decode_identities.
  destruct (Request_decode payload) as [[request rest]|]; [|naive_solver].
  rewrite andb_true_iff, bool_decide_eq_true. naive_solver.
Qed.

(** A session-bind request is an extension frame, so it is neither an
    identity request nor a context. *)
Lemma session_bind_not_identity packet :
  is_openssh_session_bind_request packet = true → is_identity_request packet = false.
Proof.
  intros Hs. apply not_true_iff_false. rewrite is_identity_request_payload.
  intros Hp. unfold is_openssh_session_bind_request in Hs. by rewrite Hp in Hs.
Qed.

Lemma session_bind_not_context packet :
  is_openssh_session_bind_request packet = true → decode packet = Ok None.
Proof.
  unfold is_openssh_session_bind_request. pose proof (decode_cases packet) as Hd.
  destruct (packet_payload packet) as [[|tag contents]|]; [done| |done].
  change SSH_AGENTC_EXTENSION with 27%N in Hd. case_decide; [|done].
  destruct (ssh_string contents) as [name|]; [|done].
  rewrite bool_decide_eq_true. intros ->. by apply Hd.
Qed.

Lemma identity_request_not_context packet :
  is_identity_request packet = true → decode packet = Ok None.
Proof.
  rewrite is_identity_request_payload. pose proof (decode_cases packet) as Hd.
  intros E. rewrite E in Hd. exact Hd.
Qed.

(** ** The identities answer *)

(** An identity whose key blob is exactly one credential. *)
Definition well_formed_identity (identity : AgentIdentity) : Prop :=
  ∃ credential, PublicCredential_decode (key_blob identity) = Some (credential, []).

Lemma identity_credential_Ok identity c :
  identity_credential identity = Ok c ↔
  PublicCredential_decode (key_blob identity) = Some (c.1, []) ∧ c.2 = comment identity.
Proof.
  unfold identity_credential. destruct (PublicCredential_decode _) as [[cr rest]|].
  - case_decide; destruct c; naive_solver.
  - naive_solver.
Qed.

Lemma identity_credential_Err identity e :
  identity_credential identity = Err e ↔ e = InvalidKey ∧ ¬ well_formed_identity identity.
Proof.
  unfold identity_credential, well_formed_identity.
  destruct (PublicCredential_decode _) as [[cr rest]|]; [case_decide|]; naive_solver.
Qed.

Lemma identities_response_Ok identities cs :
  identities_response identities = Ok cs ↔
  Forall2 (λ identity c, PublicCredential_decode (key_blob identity) = Some (c.1, [])
                         ∧ c.2 = comment identity) identities cs.
Proof.
  revert cs. induction identities as [|identity rest IH]; intros cs; cbn [identities_response].
  { split; [intros [= <-]; constructor|by intros ->%Forall2_nil_inv_l]. }
  destruct (identity_credential identity) as [c|e] eqn:E; cbn [try_bind].
  - destruct (identities_response rest) as [cs'|e'] eqn:E'; cbn [try_bind].
    + apply identity_credential_Ok in E. split.
      * intros [= <-]. constructor; [done|]. by apply IH.
      * intros (c2 & cs2 & H1 & H2 & ->)%Forall2_cons_inv_l. apply IH in H2.
        destruct c, c2. naive_solver.
    + split; [done|]. intros (c2 & cs2 & H1 & H2 & ->)%Forall2_cons_inv_l.
      apply IH in H2. done.
  - split; [done|]. intros (c2 & cs2 & [H1 _] & H2 & ->)%Forall2_cons_inv_l.
    apply identity_credential_Err in E as [_ E]. destruct E. by eexists.
Qed.

Lemma identities_response_Err identities e :
  identities_response identities = Err e ↔
  e = InvalidKey ∧ ¬ Forall well_formed_identity identities.
Proof.
  induction identities as [|identity rest IH]; cbn [identities_response].
  { split; [done|]. intros [_ H]. by destruct H. }
  destruct (identity_credential identity) as [c|e'] eqn:E; cbn [try_bind].
  - assert (well_formed_identity identity) as Hw.
    { apply identity_credential_Ok in E as [E _]. by eexists. }
    destruct (identities_response rest) as [cs|e'] eqn:E'; cbn [try_bind].
    + split; [done|]. intros [-> Hn]. rewrite Forall_cons in Hn. naive_solver.
    + rewrite Forall_cons. naive_solver.
  - apply identity_credential_Err in E as [-> E]. rewrite Forall_cons. naive_solver.
Qed.

Lemma identities_response_well_formed identities cs :
  identities_response identities = Ok cs → Forall well_formed_identity identities.
Proof.
  intros H%identities_response_Ok. eapply Forall2_Forall_l; [exact H|].
  apply Forall_true. intros c identity [Hd _]. by eexists.
Qed.

Lemma response_payload_length_Ok cs n :
  response_payload_length cs = Ok n →
  IdentitiesAnswer_encoded_len cs = Some n ∧ (n < 2 ^ 32)%N.
Proof.
  unfold response_payload_length. destruct (IdentitiesAnswer_encoded_len cs) as [k|]; [|done].
  destruct (N.leb_spec k U32_MAX) as [Hk|]; [|done]. intros [= <-]. unfold U32_MAX in Hk.
  split; [done|lia].
Qed.

Lemma response_payload_length_Err cs e : response_payload_length cs = Err e → e = TooLarge.
Proof. unfold response_payload_length. repeat case_match; naive_solver. Qed.

Lemma identities_answer_Ok identities packet :
  identities_answer identities = Ok packet →
  ∃ cs payload, identities_response identities = Ok cs
    ∧ IdentitiesAnswer_encode cs = Some payload ∧ (len payload < 2 ^ 32)%N
    ∧ packet = framed payload.
Proof.
  unfold identities_answer. destruct (identities_response identities) as [cs|]; [|done].
  cbn [try_bind]. destruct (response_payload_length cs) as [n|] eqn:En; [|done].
  apply response_payload_length_Ok in En as [En Hn]. cbn [try_bind].
  destruct (IdentitiesAnswer_encode cs) as [payload|] eqn:Ee; [|done]. intros [= <-].
  pose proof (encoded_len_spec _ _ Ee) as El. assert (n = len payload) as -> by congruence.
  exists cs, payload. split_and!; try done. unfold framed. by rewrite wrap32_small.
Qed.

(** The identities answer is one complete frame for exactly the identities
    given.  A successful answer parses back to the encoding of the identities'
    credentials with their comments, in order, and its identities pass
    validation; [InvalidKey] is reported exactly when some key blob is not one
    whole credential, by the answer and by validation alike. *)
Theorem identities_answer_complete identities :
  (∀ packet, identities_answer identities = Ok packet →
     validate_identities identities = Ok tt
     ∧ ∃ cs payload,
         Forall2 (λ identity c, PublicCredential_decode (key_blob identity) = Some (c.1, [])
                                ∧ c.2 = comment identity) identities cs
         ∧ IdentitiesAnswer_encode cs = Some payload
         ∧ packet_payload packet = Some payload)
  ∧ (identities_answer identities = Err InvalidKey
     ↔ ¬ Forall well_formed_identity identities)
  ∧ (validate_identities identities = Err InvalidKey
     ↔ ¬ Forall well_formed_identity identities).
Proof.
  split; [|split].
  - intros packet Ha. apply identities_answer_Ok in Ha as Ha'.
    destruct Ha' as (cs & payload & Hr & He & Hl & ->). split.
    + unfold identities_answer, validate_identities in *. rewrite Hr in *. cbn [try_bind] in *.
      by destruct (response_payload_length cs).
    + exists cs, payload. rewrite <- identities_response_Ok, packet_payload_framed by done. done.
  - unfold identities_answer. destruct (identities_response identities) as [cs|e] eqn:Er.
    + cbn [try_bind]. pose proof (identities_response_well_formed _ _ Er) as Hwf.
      destruct (response_payload_length cs) as [n|e] eqn:En; cbn [try_bind].
      * case_match; naive_solver.
      * apply response_payload_length_Err in En as ->. naive_solver.
    + cbn [try_bind]. apply identities_response_Err in Er as [-> Hn]. done.
  - unfold validate_identities. destruct (identities_response identities) as [cs|e] eqn:Er.
    + cbn [try_bind]. pose proof (identities_response_well_formed _ _ Er) as Hwf.
      destruct (response_payload_length cs) as [n|e] eqn:En; cbn [try_bind]; [naive_solver|].
      apply response_payload_length_Err in En as ->. naive_solver.
    + cbn [try_bind]. apply identities_response_Err in Er as [-> Hn]. done.
Qed.
End codecs.

(** ** A concrete codec *)

(** Messages are told apart by their tag, a credential is an SSH string. *)
Definition sample_Request_decode (payload : bytes) : option (byte * bytes) :=
  match payload with
  | tag :: rest => Some (tag, rest)
  | [] => None
  end.
Definition sample_credential_decode (blob : bytes) : option (bytes * bytes) :=
  key ← ssh_string blob; Some (key, drop (4 + length key) blob).
Definition sample_answer_encode (ids : list (bytes * rstring)) : bytes :=
  Byte.x0c :: u32_to_be_bytes (wrap32 (len ids))
  ++ mjoin ((λ c, framed c.1 ++ framed c.2) <$> ids).

Definition sample_codecs : SshAgentLib :=
  {| Request := byte; is_RequestIdentities := λ tag, bool_decide (tag = Byte.x0b);
     Request_decode := sample_Request_decode;
     PublicCredential := bytes; PublicCredential_decode := sample_credential_decode;
     IdentitiesAnswer_encoded_len := λ ids, Some (len (sample_answer_encode ids));
     IdentitiesAnswer_encode := λ ids, Some (sample_answer_encode ids) |}.

#[export] Instance sample_codecs_spec : SshAgentLibSpec sample_codecs.
Proof.
  split; simpl.
  - intros payload. split.
    + intros (tag & E & Ht). apply bool_decide_eq_true in Ht as ->.
      destruct payload as [|t rest]; [done|]. simpl in E. by simplify_eq.
    + intros ->. by exists Byte.x0b.
  - intros ids payload E. by simplify_eq.
Qed.

Definition sample_identity : AgentIdentity :=
  {| key_blob := framed (byte_string "ssh-ed25519"); comment := byte_string "laptop" |}.
Definition sample_identities_packet : bytes :=
  default [] (ok (identities_answer (L := sample_codecs) [sample_identity])).

Lemma identities_answer_complete_witness :
  validate_identities (L := sample_codecs) [sample_identity] = Ok tt.
Proof.
  refine (proj1 (proj1 (identities_answer_complete (L := sample_codecs) [sample_identity])
                   sample_identities_packet _)).
  by vm_compute.
Defined.
