(* ===== verification/RequestRouter.v ===== *)
(** * RequestRouter: classify a connection's packets

    Models [crates/server/src/request_router.rs]: the router that belongs to
    one socket connection, with the context negotiated by the connection's
    first packet and the identities answer derived from the paired client's
    published identities.

    The identities arrive on a [tokio] watch channel.  What one call observes
    of it is an argument ([Watch]); what is documented of consecutive
    observations is the hypothesis [watch_consistent] of the theorems that need
    it.  A routed response is a future: it is either ready or the submission of
    a request to the broker. *)

From S2P Require Import Prelude Bytes Utf8 Packet ContextCodec.

Definition AGENT_FAILURE_FRAME : bytes := byte_of_N <$> [0; 0; 0; 1; 5]%N.
Definition AGENT_SUCCESS_FRAME : bytes := byte_of_N <$> [0; 0; 0; 1; 6]%N.

(** ** Data *)

(** One observation of the watch channel: the answer of [has_changed] ([None]
    when all senders are gone) and the value [borrow] shows. *)
Record Watch := {
  has_changed : option bool;
  borrowed : option (list AgentIdentity);
}.

Inductive RouteError :=
| InvalidIdentities (error : IdentityError)
| InvalidContext (error : ContextError)
| LateContext.

(** A future of [Result<Bytes, RequestError>]: [ready_response], or [submit]
    with the packet, the context and the cancellation token it will send. *)
Inductive RoutedResponse :=
| Ready_response (response : bytes)
| Submit (packet : bytes) (context : option RequestContext) (cancellation : N).

Record ConnectionRouter := {
  identity_answer : option bytes;
  context : option RequestContext;
  accepts_context : bool;
}.

#[export] Instance RouteError_eq_dec : EqDecision RouteError.
Proof. solve_decision. Defined.
#[export] Instance RoutedResponse_eq_dec : EqDecision RoutedResponse.
Proof. solve_decision. Defined.

Definition set_identity_answer (a : option bytes) (r : ConnectionRouter) : ConnectionRouter :=
  {| identity_answer := a; context := context r; accepts_context := accepts_context r |}.
Definition set_context (c : option RequestContext) (r : ConnectionRouter) : ConnectionRouter :=
  {| identity_answer := identity_answer r; context := c; accepts_context := accepts_context r |}.
Definition set_accepts_context (b : bool) (r : ConnectionRouter) : ConnectionRouter :=
  {| identity_answer := identity_answer r; context := context r; accepts_context := b |}.

(** ** Operations *)

(** What [submit] returns, from whether the broker took the request and what
    its response channel delivered ([None] when it was dropped). *)
Definition submit (sent : bool) (reply : option (result bytes RequestError)) :
    result bytes RequestError :=
  if sent then
    match reply with
    | Some outcome => outcome
    | None => Err Unavailable
    end
  else Err Unavailable.

Section router.
Context `{L : SshAgentLib} `{U : UuidText}.

(** [as_deref().map(identities_answer).transpose()] *)
Definition derive_answer (identities : option (list AgentIdentity)) :
    result (option bytes) IdentityError :=
  match identities with
  | None => Ok None
  | Some ids => let? answer := identities_answer ids in Ok (Some answer)
  end.

(** [RequestRouter::new] *)
Definition router_new (w : Watch) : result unit IdentityError :=
  let? _ := derive_answer (borrowed w) in Ok tt.

(** [ConnectionRouter::new] *)
Definition connection (w : Watch) : result ConnectionRouter IdentityError :=
  let? answer := derive_answer (borrowed w) in
  Ok {| identity_answer := answer; context := None; accepts_context := true |}.

(** [refresh_identity_answer] *)
Definition refresh_identity_answer (w : Watch) (r : ConnectionRouter) :
    result ConnectionRouter IdentityError :=
  if negb (default false (has_changed w)) then Ok r
  else
    let? answer := derive_answer (borrowed w) in
    Ok (set_identity_answer answer r).

(** The rest of [route] once the packet is known not to be a context. *)
Definition route_request (packet : bytes) (cancellation : N) (r : ConnectionRouter) :
    RoutedResponse :=
  match is_identity_request packet, identity_answer r with
  | true, Some answer => Ready_response answer
  | _, _ =>
      if is_openssh_session_bind_request packet then Ready_response AGENT_FAILURE_FRAME
      else Submit packet (context r) cancellation
  end.

(** [route]: the router afterwards, which errors leave as far as it got. *)
Definition route (w : Watch) (packet : bytes) (cancellation : N) (r : ConnectionRouter) :
    ConnectionRouter * result RoutedResponse RouteError :=
  match refresh_identity_answer w r with
  | Err e => (r, Err (InvalidIdentities e))
  | Ok r =>
      match ContextCodec.decode packet with
      | Ok (Some received) =>
          if accepts_context r then
            (set_accepts_context false (set_context (Some received) r),
             Ok (Ready_response AGENT_SUCCESS_FRAME))
          else (r, Err LateContext)
      | Err error => (r, Err (InvalidContext error))
      | Ok None =>
          let r := set_accepts_context false r in
          (r, Ok (route_request packet cancellation r))
      end
  end.

End router.
