(* ===== verification/RequestRouterProps.v ===== *)
(** * RequestRouterProps: what a connection's router guarantees

    Theorems about [RequestRouter]: requests reach the broker unchanged and
    with the context of their connection, a context is accepted only as the
    first packet, and identity lists are answered from the identities that are
    published when the request arrives. *)

From S2P Require Import Prelude Bytes Utf8 Packet ContextCodec ContextCodecProps PacketProps RequestRouter.

Section router.
Context `{L : SshAgentLib} `{!SshAgentLibSpec L} `{U : UuidText}.

(** ** A connection's packets *)

(** Route packets one after the other; the connection closes at the first
    error. *)
Fixpoint route_all (packets : list (Watch * bytes * N)) (r : ConnectionRouter) :
    ConnectionRouter * list RoutedResponse * option RouteError :=
  match packets with
  | [] => (r, [], None)
  | (w, packet, cancellation) :: rest =>
      match route w packet cancellation r with
      | (r, Err e) => (r, [], Some e)
      | (r, Ok response) =>
          let '(r, responses, e) := route_all rest r in
          (r, response :: responses, e)
      end
  end.

(** Documented behaviour of the watch channel: while a sender exists,
    [has_changed] is [false] only if the value is the one last seen. *)
Definition consistent (seen : option (list AgentIdentity)) (w : Watch) : Prop :=
  has_changed w ≠ None ∧ (has_changed w = Some false → borrowed w = seen).
#[export] Instance consistent_dec seen w : Decision (consistent seen w).
Proof. unfold consistent. apply _. Defined.
Fixpoint watch_consistent (seen : option (list AgentIdentity))
    (packets : list (Watch * bytes * N)) : Prop :=
  match packets with
  | [] => True
  | (w, _, _) :: rest => consistent seen w ∧ watch_consistent (borrowed w) rest
  end.

(** ** One packet *)

(** The context a packet carries, when it is a context frame. *)
Definition carried (packet : bytes) : option RequestContext :=
  default None (ok (ContextCodec.decode packet)).

Definition carries_context (c : option RequestContext) (response : RoutedResponse) : Prop :=
  match response with
  | Submit _ c' _ => c' = c
  | Ready_response _ => True
  end.

Lemma refresh_keeps w r r' :
  refresh_identity_answer w r = Ok r' →
  context r' = context r ∧ accepts_context r' = accepts_context r.
Proof.
  unfold refresh_identity_answer, try_bind. repeat case_match; intros; by simplify_eq.
Qed.

Lemma route_request_context packet cancellation r :
  carries_context (context r) (route_request packet cancellation r).
Proof. unfold route_request. by repeat case_match. Qed.

(** The two ways a packet is accepted. *)
Lemma route_Ok w packet cancellation r r' response :
  route w packet cancellation r = (r', Ok response) →
  ∃ r1, refresh_identity_answer w r = Ok r1 ∧
  ((∃ c, ContextCodec.decode packet = Ok (Some c) ∧ accepts_context r = true
         ∧ r' = set_accepts_context false (set_context (Some c) r1)
         ∧ response = Ready_response AGENT_SUCCESS_FRAME)
   ∨ ContextCodec.decode packet = Ok None ∧ r' = set_accepts_context false r1
     ∧ response = route_request packet cancellation r').
Proof.
  unfold route. destruct (refresh_identity_answer w r) as [r1|] eqn:E; [|done].
  apply refresh_keeps in E as [Hc Ha]. exists r1. split; [done|].
  destruct (ContextCodec.decode packet) as [[c|]|]; [case_match eqn:Eac| |]; simplify_eq.
  - left. exists c. split_and!; congruence.
  - by right.
Qed.

(** What reaches the broker.  A packet is forwarded only if it is neither
    a context, nor a session-binding request, nor an identity-list request
    whose answer is known; it is forwarded unchanged, with the context
    negotiated on its connection and the cancellation token of its request.
    A session-binding request is always answered with a failure frame, unless
    the connection's identities are invalid. *)
Theorem forwarded_unchanged w packet cancellation r r' :
  (∀ p c t, route w packet cancellation r = (r', Ok (Submit p c t)) →
     p = packet ∧ t = cancellation ∧ c = context r ∧ context r' = context r
     ∧ ContextCodec.decode packet = Ok None
     ∧ is_openssh_session_bind_request packet = false
     ∧ (is_identity_request packet = true → identity_answer r' = None))
  ∧ (is_openssh_session_bind_request packet = true →
     ∀ r1, refresh_identity_answer w r = Ok r1 →
     (route w packet cancellation r).2 = Ok (Ready_response AGENT_FAILURE_FRAME)).
Proof.
  split.
  - intros p c t (r1 & Hr & [(c' & _ & _ & _ & ?)|(Hd & -> & Hresp)])%route_Ok; [done|].
    apply refresh_keeps in Hr as [Hc _]. unfold route_request in Hresp. simpl in *.
    rewrite Hc in *. repeat case_match; simplify_eq; naive_solver.
  - intros Hs r1 Hr. unfold route. rewrite Hr, session_bind_not_context by done. simpl.
    unfold route_request. by rewrite session_bind_not_identity, Hs.
Qed.

(** ** The context of a connection *)

Lemma route_accepted w packet cancellation r r' response :
  route w packet cancellation r = (r', Ok response) →
  accepts_context r' = false
  ∧ context r' = (if accepts_context r then
                    match carried packet with Some c => Some c | None => context r end
                  else context r)
  ∧ (accepts_context r = false → carried packet = None)
  ∧ carries_context (context r') response.
Proof.
  intros (r1 & Hr & [(c & Hd & Ha & -> & ->)|(Hd & -> & ->)])%route_Ok;
    apply refresh_keeps in Hr as [Hc Hac]; unfold carried; rewrite Hd; simpl.
  - rewrite Ha. split_and!; done.
  - split_and!; [done|by case_match|done|].
    apply (route_request_context packet cancellation (set_accepts_context false r1)).
Qed.

Lemma route_error w packet cancellation r r' e :
  route w packet cancellation r = (r', Err e) → context r' = context r.
Proof.
  unfold route. destruct (refresh_identity_answer w r) as [r1|] eqn:E; [|by intros [= <- <-]].
  apply refresh_keeps in E as [Hc _]. repeat case_match; intros; by simplify_eq.
Qed.

Lemma route_all_closed packets r r' responses e :
  accepts_context r = false → route_all packets r = (r', responses, e) →
  context r' = context r
  ∧ Forall (carries_context (context r)) responses
  ∧ ∀ i x, packets !! i = Some x → i < length responses → carried x.1.2 = None.
Proof.
  revert r responses. induction packets as [|[[w packet] cancellation] rest IH];
    intros r responses Ha; cbn [route_all].
  { intros [= <- <- <-]. split_and!; [done|constructor|]. intros i x Hi. by rewrite lookup_nil in Hi. }
  destruct (route w packet cancellation r) as [r1 [response|err]] eqn:E.
  - apply route_accepted in E as (Ha1 & Hc1 & Hcar & Hs). rewrite Ha in Hc1.
    destruct (route_all rest r1) as [[r2 responses2] e2] eqn:E2. intros [= <- <- <-].
    apply IH in E2 as (Hc2 & Hall & Hlate); [|done]. rewrite Hc1 in *.
    split_and!; [done|by constructor|].
    intros [|i] x Hi Hlt; simpl in *; [simplify_eq; by apply Hcar|]. eapply Hlate; [done|lia].
  - intros [= <- <- <-]. apply route_error in E. split_and!; [done|constructor|].
    simpl. intros. lia.
Qed.

Lemma first_packet_context w0 r w packet cancellation rest r' response responses e :
  connection w0 = Ok r →
  route_all ((w, packet, cancellation) :: rest) r = (r', response :: responses, e) →
  context r' = carried packet
  ∧ Forall (carries_context (carried packet)) (response :: responses)
  ∧ ∀ i x, rest !! i = Some x → i < length responses → carried x.1.2 = None.
Proof.
  unfold connection. destruct (derive_answer (borrowed w0)) as [answer|]; [|done].
  cbn [try_bind]. intros [= <-]. cbn [route_all].
  destruct (route w packet cancellation _) as [r1 [resp|err]] eqn:E; [|done].
  apply route_accepted in E as (Ha1 & Hc1 & _ & Hs). simpl in Hc1.
  assert (context r1 = carried packet) as Hc by (rewrite Hc1; by destruct (carried packet)).
  destruct (route_all rest r1) as [[r2 responses2] e2] eqn:E2. intros [= <- <- <- <-].
  apply route_all_closed in E2 as (Hc2 & Hall & Hlate); [|done]. rewrite Hc in *.
  split_and!; [done|by constructor|done].
Qed.

(** The context of a connection is that of its first packet.  After any
    packets whose first was accepted, the router's context is exactly the one
    the first packet carried (none if it was an ordinary packet), every request
    of the connection was submitted with it, and no later packet that was
    accepted carried a context: a late one closes the connection instead. *)
Theorem context_of_first_packet w0 r w packet cancellation rest r' response responses e :
  connection w0 = Ok r →
  route_all ((w, packet, cancellation) :: rest) r = (r', response :: responses, e) →
  context r' = carried packet
  ∧ Forall (carries_context (carried packet)) (response :: responses)
  ∧ ∀ i x, rest !! i = Some x → i < length responses → carried x.1.2 = None.
Proof. apply first_packet_context. Qed.

(** ** The identities a connection answers with *)

Lemma refresh_current seen w r r' :
  derive_answer seen = Ok (identity_answer r) → consistent seen w →
  refresh_identity_answer w r = Ok r' → derive_answer (borrowed w) = Ok (identity_answer r').
Proof.
  intros Hi [Hn Hc]. unfold refresh_identity_answer.
  destruct (has_changed w) as [[]|]; [| |done]; cbn [default negb].
  - destruct (derive_answer (borrowed w)) as [a|]; cbn; [|done]. by intros [= <-].
  - intros [= <-]. by rewrite Hc.
Qed.

(** The response to an identity-list request while [identities] are
    published. *)
Definition identity_response (identities : option (list AgentIdentity)) (packet : bytes)
    (response : RoutedResponse) : Prop :=
  match identities with
  | Some ids => ∃ answer, identities_answer ids = Ok answer ∧ response = Ready_response answer
  | None => ∃ c t, response = Submit packet c t
  end.

Lemma route_current seen w packet cancellation r r' response :
  derive_answer seen = Ok (identity_answer r) → consistent seen w →
  route w packet cancellation r = (r', Ok response) →
  derive_answer (borrowed w) = Ok (identity_answer r')
  ∧ (is_identity_request packet = true → identity_response (borrowed w) packet response).
Proof.
  intros Hi Hc (r1 & Hr & Hcase)%route_Ok. pose proof (refresh_current _ _ _ _ Hi Hc Hr) as Hi1.
  destruct Hcase as [(c & Hd & _ & -> & ->)|(Hd & -> & ->)]; (split; [done|]); intros Hid.
  - rewrite identity_request_not_context in Hd by done. done.
  - unfold route_request, identity_response. rewrite Hid. simpl.
    destruct (borrowed w) as [ids|]; simpl in Hi1.
    + destruct (identities_answer ids) as [answer|]; [|done]. simpl in Hi1. simplify_eq.
      exists answer. by rewrite <- Hi1.
    + simplify_eq. rewrite <- Hi1. destruct (is_openssh_session_bind_request packet) eqn:Es; [|by eauto].
      apply session_bind_not_identity in Es. congruence.
Qed.

(** Identity lists are current.  On a connection opened while [identities]
    were published, as long as a publisher exists, every identity-list request
    is answered locally with the answer for the identities published when it
    arrives, and is forwarded unchanged to the remote when none are known. *)
Theorem identity_lists_current packets w0 r r' responses e :
  connection w0 = Ok r → watch_consistent (borrowed w0) packets →
  route_all packets r = (r', responses, e) →
  ∀ i w packet t response,
    packets !! i = Some (w, packet, t) → responses !! i = Some response →
    is_identity_request packet = true → identity_response (borrowed w) packet response.
Proof.
  intros Hnew. assert (derive_answer (borrowed w0) = Ok (identity_answer r)) as Hi.
  { unfold connection in Hnew. destruct (derive_answer _); [|done]. cbn in Hnew. by simplify_eq. }
  clear Hnew. revert Hi. generalize (borrowed w0). revert r responses.
  induction packets as [|[[w packet] cancellation] rest IH];
    intros r responses seen Hi Hw; cbn [route_all].
  { intros _ i w packet t response Hp. by rewrite lookup_nil in Hp. }
  destruct Hw as [Hc Hw].
  destruct (route w packet cancellation r) as [r1 [response|err]] eqn:E.
  - apply (route_current seen) in E as [Hi1 Hid]; [|done..].
    destruct (route_all rest r1) as [[r2 responses2] e2] eqn:E2. intros [= <- <- <-].
    intros [|i] w' packet' t' response' Hp Hr Hreq; simpl in *; [simplify_eq; by apply Hid|].
    by eapply (IH r1 responses2).
  - intros [= <- <- <-] i w' packet' t' response' Hp Hr. by rewrite lookup_nil in Hr.
Qed.
End router.

(** ** Concrete connections *)

Definition quiet_watch (ids : option (list AgentIdentity)) : Watch :=
  {| has_changed := Some false; borrowed := ids |}.
Definition identity_request : bytes := framed [Byte.x0b].
Definition sign_request : bytes := framed [Byte.x0d; Byte.x00].

Definition sample_router : ConnectionRouter :=
  {| identity_answer := None; context := None; accepts_context := true |}.

Lemma forwarded_unchanged_witness :
  (route (L := sample_codecs) (U := hex_uuid_text) (quiet_watch None)
     (framed (Byte.x1b :: framed OPENSSH_SESSION_BIND_EXTENSION)) 4 sample_router).2
  = Ok (Ready_response AGENT_FAILURE_FRAME).
Proof.
  by apply (proj2 (forwarded_unchanged (L := sample_codecs) (U := hex_uuid_text)
    (quiet_watch None) (framed (Byte.x1b :: framed OPENSSH_SESSION_BIND_EXTENSION)) 4
    sample_router sample_router) eq_refl sample_router); vm_compute.
Defined.

(** A context, then two requests, which are submitted with it. *)
Lemma context_of_first_packet_witness :
  ∃ r', context r' = Some sample_context.
Proof.
  pose (result := route_all (L := sample_codecs) (U := hex_uuid_text)
    [(quiet_watch None, sample_packet, 1%N); (quiet_watch None, sign_request, 2%N);
     (quiet_watch None, identity_request, 3%N)] sample_router).
  exists result.1.1.
  assert (carried (U := hex_uuid_text) sample_packet = Some sample_context) as <-
    by by vm_compute.
  by refine (proj1 (context_of_first_packet (L := sample_codecs) (U := hex_uuid_text)
    (quiet_watch None) sample_router (quiet_watch None) sample_packet 1
    [(quiet_watch None, sign_request, 2%N); (quiet_watch None, identity_request, 3%N)]
    _ (Ready_response AGENT_SUCCESS_FRAME)
    [Submit sign_request (Some sample_context) 2;
     Submit identity_request (Some sample_context) 3] None _ _)); vm_compute.
Defined.

(** Identities are published between two identity-list requests. *)
Lemma identity_lists_current_witness :
  identity_response (L := sample_codecs) (Some [sample_identity]) identity_request
    (Ready_response sample_identities_packet).
Proof.
  pose (update := {| has_changed := Some true; borrowed := Some [sample_identity] |}).
  refine (identity_lists_current (L := sample_codecs) (U := hex_uuid_text)
    [(quiet_watch None, identity_request, 1%N); (update, identity_request, 2%N)]
    (quiet_watch None) sample_router
    {| identity_answer := Some sample_identities_packet; context := None;
       accepts_context := false |}
    [Submit identity_request None 1; Ready_response sample_identities_packet] None
    _ _ _ 1 update identity_request 2 _ _ _ _); by vm_compute.
Defined.
