(* ===== verification/Listener.v ===== *)
(** * Listener: one client connection of the SSH-agent socket

    Models [handle_connection] of
    [crates/server/src/agent_socket/listener.rs]: the loop that reads frames,
    routes them, and writes the responses of up to eight pipelined requests in
    the order of the requests.

    Reading, framing ([LengthDelimitedCodec]) and writing belong to the
    runtime: what the reader yields, which response future is done and whether
    a write succeeds are the inputs of a step.  [FuturesOrdered] yields its
    futures' results in the order in which they were pushed. *)

From S2P Require Import Prelude Bytes Utf8 Packet ContextCodec ContextCodecProps PacketProps RequestRouter RequestRouterProps.

Definition MAX_PIPELINED_REQUESTS : nat := 8.

Record Connection := {
  router : ConnectionRouter;
  responses : list RoutedResponse;
  open : bool;
}.

Definition open_connection (r : ConnectionRouter) : Connection :=
  {| router := r; responses := []; open := true |}.

(** What completes in one iteration of the [select!]. *)
Inductive ListenerInput :=
| FrameEnd
| FrameError
| Frame (w : Watch) (packet : bytes) (cancellation : N)
| ResponseDone (outcome : result bytes RequestError).

(** What one iteration did: the responses written to the client, and the
    packets routed with their responses. *)
Record Done := {
  written : list bytes;
  routed : list (Watch * bytes * N * RoutedResponse);
}.
Definition nothing : Done := {| written := []; routed := [] |}.
Definition wrote (b : bytes) : Done := {| written := [b]; routed := [] |}.

Definition close (c : Connection) : Connection :=
  {| router := router c; responses := responses c; open := false |}.
Definition with_responses (r : ConnectionRouter) (l : list RoutedResponse) : Connection :=
  {| router := r; responses := l; open := true |}.

(** The value a future can complete with. *)
Definition completes_with (response : RoutedResponse) (outcome : result bytes RequestError) : bool :=
  match response with
  | Ready_response b => bool_decide (outcome = Ok b)
  | Submit _ _ _ => true
  end.

(** [unwrap_or_else(|_| AGENT_FAILURE_FRAME)] *)
Definition response_bytes (outcome : result bytes RequestError) : bytes :=
  match outcome with
  | Ok b => b
  | Err _ => AGENT_FAILURE_FRAME
  end.

Section connection.
Context `{L : SshAgentLib} `{U : UuidText}.

(** Refuse a packet: a failure frame if no response is outstanding, then the
    connection ends. *)
Definition refuse (write_ok : bool) (c : Connection) : Connection * Done :=
  if decide (responses c = []) then
    (close c, if write_ok then wrote AGENT_FAILURE_FRAME else nothing)
  else (close c, nothing).

(** One iteration; [None] for an input that cannot occur. *)
Definition handle_connection_step (write_ok : bool) (i : ListenerInput) (c : Connection) :
    option (Connection * Done) :=
  if negb (open c) then None
  else
    match i with
    | FrameEnd => Some (close c, nothing)
    | FrameError => Some (refuse write_ok c)
    | Frame w packet cancellation =>
        if decide (MAX_PIPELINED_REQUESTS ≤ length (responses c)) then
          Some (close c, nothing)
        else
          match route w packet cancellation (router c) with
          | (r, Ok response) =>
              Some (with_responses r (responses c ++ [response]),
                    {| written := []; routed := [(w, packet, cancellation, response)] |})
          | (r, Err _) =>
              Some (refuse write_ok {| router := r; responses := responses c; open := true |})
          end
    | ResponseDone outcome =>
        match responses c with
        | [] => None
        | response :: rest =>
            if completes_with response outcome then
              if write_ok then
                Some (with_responses (router c) rest, wrote (response_bytes outcome))
              else Some (close c, nothing)
            else None
        end
    end.

Fixpoint handle_connection (turns : list (bool * ListenerInput)) (c : Connection) :
    option (Connection * Done) :=
  match turns with
  | [] => Some (c, nothing)
  | (write_ok, i) :: rest =>
      match handle_connection_step write_ok i c with
      | None => None
      | Some (c, d1) =>
          match handle_connection rest c with
          | None => None
          | Some (c, d2) =>
              Some (c, {| written := written d1 ++ written d2; routed := routed d1 ++ routed d2 |})
          end
      end
  end.

(** ** Order *)

Definition answers (response : RoutedResponse) (b : bytes) : Prop :=
  ∃ outcome, completes_with response outcome = true ∧ b = response_bytes outcome.

(** The responses written so far belong to the oldest routed packets, in order;
    the outstanding ones to the others; a refused packet is told so only when
    nothing is outstanding. *)
Definition in_order (outstanding : list RoutedResponse) (c : Connection) (d : Done) : Prop :=
  ∃ answered bs refusal,
    outstanding ++ (routed d).*2 = answered ++ responses c
    ∧ written d = bs ++ refusal ∧ Forall2 answers answered bs
    ∧ (refusal = []
       ∨ refusal = [AGENT_FAILURE_FRAME] ∧ responses c = [] ∧ open c = false).

Lemma refuse_in_order write_ok c c' d :
  refuse write_ok c = (c', d) →
  in_order (responses c) c' d ∧ responses c' = responses c ∧ open c' = false.
Proof.
  unfold refuse, in_order. case_decide as Hr; intros [= <- <-]; simpl.
  - split; [|done]. rewrite Hr. exists [], []. destruct write_ok; simpl;
      eexists; (split_and!; [done|done|constructor|]); auto.
  - split; [|done]. exists [], [], []. rewrite app_nil_r. split_and!; auto.
Qed.

Lemma step_in_order write_ok i c c' d :
  handle_connection_step write_ok i c = Some (c', d) →
  in_order (responses c) c' d
  ∧ (length (responses c) ≤ MAX_PIPELINED_REQUESTS →
     length (responses c') ≤ MAX_PIPELINED_REQUESTS).
Proof.
  unfold handle_connection_step. destruct (open c); [|done]. simpl.
  destruct i as [| |w packet cancellation|outcome].
  - intros [= <- <-]. split; [|done]. exists [], [], []. simpl. rewrite app_nil_r.
    split_and!; auto.
  - intros [= Hr]. apply refuse_in_order in Hr as (Ho & Hr & _). by rewrite Hr.
  - case_decide as Hlen.
    { intros [= <- <-]. split; [|done]. exists [], [], []. simpl. rewrite app_nil_r.
      split_and!; auto. }
    destruct (route w packet cancellation (router c)) as [r [response|e]].
    + intros [= <- <-]. simpl. split; [|rewrite length_app; simpl; lia].
      exists [], [], []. split_and!; auto.
    + intros [= Hr]. apply refuse_in_order in Hr as (Ho & Hr & _). simpl in *. by rewrite Hr.
  - destruct (responses c) as [|response rest] eqn:Er; [done|].
    destruct (completes_with response outcome) eqn:Ec; [|done]. destruct write_ok.
    + intros [= <- <-]. simpl. split; [|lia].
      exists [response], [response_bytes outcome], []. simpl. rewrite app_nil_r.
      split_and!; auto. repeat constructor. by exists outcome.
    + intros [= <- <-]. simpl. rewrite Er. split; [|done].
      exists [], [], []. simpl. rewrite Er, app_nil_r. split_and!; auto.
Qed.

Lemma run_in_order turns c c' d :
  handle_connection turns c = Some (c', d) →
  length (responses c) ≤ MAX_PIPELINED_REQUESTS →
  in_order (responses c) c' d ∧ length (responses c') ≤ MAX_PIPELINED_REQUESTS.
Proof.
  revert c d. induction turns as [|[write_ok i] turns IH]; intros c d; cbn [handle_connection].
  { intros [= <- <-] Hlen. split; [|done]. exists [], [], []. simpl. rewrite app_nil_r.
    split_and!; auto. }
  destruct (handle_connection_step write_ok i c) as [[c1 d1]|] eqn:E; [|done].
  apply step_in_order in E as [(a1 & b1 & r1 & Hr1 & Hw1 & Hf1 & Href1) Hlen1].
  destruct (handle_connection turns c1) as [[c2 d2]|] eqn:E2; [|done].
  intros [= <- <-] Hlen. destruct Href1 as [->|(-> & Hnil & Hcl)].
  - destruct (IH c1 d2) as [(a2 & b2 & r2 & Hr2 & Hw2 & Hf2 & Href2) Hlen2]; [done|auto|].
    split; [|done]. exists (a1 ++ a2), (b1 ++ b2), r2. simpl.
    rewrite fmap_app, app_assoc, Hr1, <- !app_assoc, Hr2, Hw1, Hw2, app_nil_r.
    split_and!; auto using Forall2_app.
  - assert (turns = [] ∧ c2 = c1 ∧ d2 = nothing) as (-> & -> & ->).
    { destruct turns as [|[wo i2] turns]; cbn [handle_connection] in E2; [by simplify_eq|].
      unfold handle_connection_step in E2. by rewrite Hcl in E2. }
    split; [|auto]. exists a1, b1, [AGENT_FAILURE_FRAME]. simpl. rewrite !app_nil_r.
    split_and!; auto.
Qed.

(** C24: responses come back in the order of the requests.  Whatever the
    interleaving of frames and completions on a connection, the client has
    received, one after the other, the answers of its oldest accepted packets,
    at most eight accepted packets still wait for theirs, and a refused packet
    is answered with a failure frame only when no earlier packet is waiting, as
    the last thing the connection writes. *)
Theorem responses_in_request_order turns r c d :
  handle_connection turns (open_connection r) = Some (c, d) →
  length (responses c) ≤ MAX_PIPELINED_REQUESTS
  ∧ ∃ answered bs refusal,
      (routed d).*2 = answered ++ responses c
      ∧ written d = bs ++ refusal ∧ Forall2 answers answered bs
      ∧ (refusal = []
         ∨ refusal = [AGENT_FAILURE_FRAME] ∧ responses c = [] ∧ open c = false).
Proof.
  intros H. apply run_in_order in H as [Ho Hlen]; [by split|]. simpl. unfold MAX_PIPELINED_REQUESTS. lia.
Qed.

(** ** What is routed *)

Lemma route_all_app l1 l2 r r1 rs1 :
  route_all l1 r = (r1, rs1, None) →
  route_all (l1 ++ l2) r = (let '(r2, rs2, e) := route_all l2 r1 in (r2, rs1 ++ rs2, e)).
Proof.
  revert r rs1. induction l1 as [|[[w packet] t] l1 IH]; intros r rs1; cbn [route_all app].
  { intros [= <- <-]. by destruct (route_all l2 r) as [[]]. }
  destruct (route w packet t r) as [r' [response|]]; [|done].
  destruct (route_all l1 r') as [[r2 rs2] e] eqn:E. intros [= <- <- ->].
  rewrite (IH r' rs2) by done. by destruct (route_all l2 r2) as [[]].
Qed.

Lemma run_routes turns c c' d :
  handle_connection turns c = Some (c', d) →
  ∃ r', route_all (routed d).*1 (router c) = (r', (routed d).*2, None)
        ∧ (open c' = true → r' = router c').
Proof.
  revert c d. induction turns as [|[write_ok i] turns IH]; intros c d; cbn [handle_connection].
  { intros [= <- <-]. by exists (router c). }
  destruct (handle_connection_step write_ok i c) as [[c1 d1]|] eqn:E; [|done].
  destruct (handle_connection turns c1) as [[c2 d2]|] eqn:E2; [|done]. intros [= <- <-].
  assert (∃ r1, route_all (routed d1).*1 (router c) = (r1, (routed d1).*2, None)
                ∧ (open c1 = true → r1 = router c1)) as (r1 & H1 & Ho1).
  { unfold handle_connection_step, refuse in E. destruct (open c); [|done]. simpl in E.
    destruct i as [| |w packet t|outcome]; repeat case_match; simplify_eq; cbn;
      eexists; (split; [try done|done]).
    match goal with H : route _ _ _ _ = _ |- _ => by rewrite H end. }
  destruct (open c1) eqn:Eo.
  - apply IH in E2 as (r2 & H2 & Ho2). rewrite Ho1 in H1 by done. exists r2. split; [|done].
    simpl. rewrite !fmap_app. rewrite (route_all_app _ _ _ _ _ H1), H2. done.
  - assert (c2 = c1 ∧ d2 = nothing) as [-> ->].
    { destruct turns as [|[wo i2] turns]; cbn [handle_connection] in E2; [by simplify_eq|].
      unfold handle_connection_step in E2. by rewrite Eo in E2. }
    exists r1. simpl. rewrite !app_nil_r. split; [done|]. by rewrite Eo.
Qed.

(** Every request of a connection carries its context.  On a connection
    whose router was just created, all requests submitted to the broker carry
    the context of the first accepted packet, or none if that packet was not a
    context, and no other accepted packet was a context. *)
Theorem requests_carry_first_context turns w0 r c d w packet t response rest :
  connection w0 = Ok r →
  handle_connection turns (open_connection r) = Some (c, d) →
  routed d = (w, packet, t, response) :: rest →
  Forall (carries_context (carried packet)) (routed d).*2
  ∧ Forall (λ x, carried x.1.1.2 = None) rest.
Proof.
  intros Hnew Hrun Hd. apply run_routes in Hrun as (r' & Hr & _). rewrite Hd in *.
  cbn in Hr. change (route_all ((w, packet, t) :: rest.*1) r = (r', response :: rest.*2, None)) in Hr.
  destruct (first_packet_context _ _ _ _ _ _ _ _ _ _ Hnew Hr) as (_ & Hall & Hlate).
  split; [done|]. apply Forall_lookup_2. intros i x Hx.
  apply (Hlate i x.1).
  - by rewrite list_lookup_fmap, Hx.
  - rewrite length_fmap. by eapply lookup_lt_Some.
Qed.
End connection.

(** ** A concrete connection *)

Definition sample_turns : list (bool * ListenerInput) :=
  [(true, Frame (quiet_watch None) sample_packet 1); (true, Frame (quiet_watch None) sign_request 2);
   (true, ResponseDone (Ok AGENT_SUCCESS_FRAME)); (true, ResponseDone (Err TimedOut));
   (true, FrameError)].
Definition sample_run : Connection * Done :=
  default (open_connection sample_router, nothing)
    (handle_connection (L := sample_codecs) (U := hex_uuid_text) sample_turns
       (open_connection sample_router)).

Lemma responses_in_request_order_witness :
  written sample_run.2 = [AGENT_SUCCESS_FRAME; AGENT_FAILURE_FRAME; AGENT_FAILURE_FRAME]
  ∧ length (responses sample_run.1) ≤ MAX_PIPELINED_REQUESTS.
Proof.
  split; [by vm_compute|].
  refine (proj1 (responses_in_request_order (L := sample_codecs) (U := hex_uuid_text)
    sample_turns sample_router sample_run.1 sample_run.2 _)).
  by vm_compute.
Defined.

Lemma requests_carry_first_context_witness :
  Forall (carries_context (Some sample_context)) (routed sample_run.2).*2.
Proof.
  assert (carried (U := hex_uuid_text) sample_packet = Some sample_context) as <-
    by by vm_compute.
  refine (proj1 (requests_carry_first_context (L := sample_codecs) (U := hex_uuid_text)
    sample_turns (quiet_watch None) sample_router sample_run.1 sample_run.2 (quiet_watch None)
    sample_packet 1 (Ready_response AGENT_SUCCESS_FRAME)
    [(quiet_watch None, sign_request, 2%N, Submit sign_request (Some sample_context) 2)] _ _ _));
    by vm_compute.
Defined.
