(* ===== verification/Framing.v ===== *)
(** * Framing: packets out of a connection's byte stream

    Models the reader [handle_connection] of
    [crates/server/src/agent_socket/listener.rs] builds: the settings it gives
    [tokio_util]'s [LengthDelimitedCodec], and what the connection's loop reads
    through it.

    The codec and the stream around it are a parameter, the class
    [FrameReader]; its laws are what their documentation says of the settings
    used here.  What a client writes arrives in arbitrary chunks and ends with
    the end of the stream or with an I/O error. *)

From S2P Require Import Prelude Bytes Utf8 Packet ContextCodec ContextCodecProps PacketProps RequestRouter RequestRouterProps Listener.

(** ** The codec *)

(** The builder's settings: a big-endian length field of four bytes at the start
    ([big_endian], [length_field_type::<u32>]); the difference between its value
    and the length of the frame ([length_adjustment]); the bytes dropped before
    the frame ([num_skip]); the greatest value of the length field
    ([max_frame_length]). *)
Record FrameSettings := {
  length_adjustment : N;
  num_skip : N;
  max_frame_length : N;
}.

Inductive StreamEnd := EndOfFile | ReadFailed.
Inductive CodecError := FrameRejected.

(** What [frames.next()] yields, one after the other, until the stream is over. *)
Class FrameReader := {
  frames : FrameSettings → list bytes → StreamEnd → list (result bytes CodecError);
}.

(** The value of the length field, once it has arrived. *)
Definition length_field (b : bytes) : option N := u32_from_be_bytes (take 4 b).

Class FrameReaderSpec (R : FrameReader) : Prop := {
  (** How the bytes arrive does not matter. *)
  frames_chunks : ∀ s chunks e, frames s chunks e = frames s [mjoin chunks] e;
  (** A frame that has arrived is yielded, without the skipped bytes. *)
  frames_next : ∀ s b n e,
    length_field b = Some n → (n ≤ max_frame_length s)%N →
    let size := N.to_nat (n + length_adjustment s) in
    let skip := N.to_nat (num_skip s) in
    0 < skip + size ≤ length b →
    frames s [b] e = Ok (take size (drop skip b)) :: frames s [drop (skip + size) b] e;
  (** The length field is checked before it is adjusted. *)
  frames_too_long : ∀ s b n e,
    length_field b = Some n → (max_frame_length s < n)%N →
    head (frames s [b] e) = Some (Err FrameRejected);
  (** At the end of the stream nothing may be left.  A header that is skipped has
      already been dropped by then, so this is about headers that are kept. *)
  frames_end : ∀ s, frames s [[]] EndOfFile = [];
  frames_rest : ∀ s b e,
    num_skip s = 0%N → (b ≠ [] ∨ e = ReadFailed) →
    match length_field b with
    | None => True
    | Some n => (n ≤ max_frame_length s)%N ∧ length b < N.to_nat (n + length_adjustment s)
    end →
    head (frames s [b] e) = Some (Err FrameRejected);
}.

(** ** The connection's settings *)

(** [LengthDelimitedCodec::builder()...max_frame_length(max_packet_size + 4)] *)
Definition agent_frames (max_packet_size : N) : FrameSettings :=
  {| length_adjustment := 4; num_skip := 0; max_frame_length := max_packet_size + 4 |}.

(** ** What the client wrote *)

(** How a stream ends after its last complete packet. *)
Inductive Rest := CleanEnd | TooLong | Partial.

(** The packets of a stream, each with its length field. *)
Fixpoint packets (fuel : nat) (limit : N) (b : bytes) (e : StreamEnd) : list bytes * Rest :=
  match fuel, length_field b with
  | S fuel, Some n =>
      if (limit <? n)%N then ([], TooLong)
      else
        let size := 4 + N.to_nat n in
        if decide (size ≤ length b) then
          let '(l, r) := packets fuel limit (drop size b) e in (take size b :: l, r)
        else ([], Partial)
  | _, _ =>
      ([], match b, e with [], EndOfFile => CleanEnd | _, _ => Partial end)
  end.
Definition packets_of (limit : N) (b : bytes) (e : StreamEnd) : list bytes * Rest :=
  packets (length b) limit b e.

(** What the loop's inputs took from the reader. *)
Definition stream_item (i : ListenerInput) : option (option (result bytes CodecError)) :=
  match i with
  | Frame _ packet _ => Some (Some (Ok packet))
  | FrameError => Some (Some (Err FrameRejected))
  | FrameEnd => Some None
  | ResponseDone _ => None
  end.
Definition reads (items : list (result bytes CodecError)) (turns : list (bool * ListenerInput)) :
    Prop :=
  omap stream_item turns.*2 `prefix_of` (Some <$> items) ++ [None].

(** ** Packets *)

Lemma length_field_app b b' n : length_field b = Some n → length_field (b ++ b') = Some n.
Proof.
  unfold length_field. intros H. pose proof (u32_from_be_bytes_length _ _ H) as Hl.
  rewrite length_take in Hl. by rewrite take_app_le by lia.
Qed.

Lemma length_field_length b n : length_field b = Some n → 4 ≤ length b.
Proof.
  unfold length_field. intros H%u32_from_be_bytes_length. rewrite length_take in H. lia.
Qed.

Lemma length_field_framed body b :
  (len body < 2 ^ 32)%N → length_field (framed body ++ b) = Some (len body).
Proof.
  intros Hb. unfold framed. rewrite wrap32_small by done. rewrite <- (app_assoc _ body b).
  unfold length_field. rewrite take_app_le by (rewrite length_u32_to_be_bytes; lia).
  rewrite firstn_all2 by (rewrite length_u32_to_be_bytes; lia).
  by rewrite u32_from_to_be_bytes, wrap32_small.
Qed.

Lemma length_framed body : length (framed body) = 4 + length body.
Proof. unfold framed. by rewrite length_app, length_u32_to_be_bytes. Qed.

(** A complete packet is a framed body. *)
Lemma take_framed b n :
  length_field b = Some n → 4 + N.to_nat n ≤ length b →
  ∃ body, take (4 + N.to_nat n) b = framed body ∧ len body = n.
Proof.
  intros H Hl. exists (take (N.to_nat n) (drop 4 b)).
  assert (len (take (N.to_nat n) (drop 4 b)) = n) as Hn
    by (unfold len; rewrite length_take, length_drop; lia).
  split; [|done]. unfold framed. rewrite Hn. unfold length_field in H.
  rewrite wrap32_small by by eapply u32_from_be_bytes_bound.
  rewrite (u32_to_from_be_bytes _ _ H). by rewrite take_take_drop.
Qed.

Section packets.
Context (limit : N) (e : StreamEnd).

(** Enough fuel makes no difference: every packet has four bytes or more. *)
Lemma packets_fuel fuel fuel' b :
  length b ≤ fuel → length b ≤ fuel' → packets fuel limit b e = packets fuel' limit b e.
Proof.
  revert fuel' b. induction fuel as [|fuel IH]; intros fuel' b H1 H2.
  - destruct b; [|simpl in H1; lia]. by destruct fuel'.
  - destruct fuel' as [|fuel']; [by destruct b; [|simpl in H2; lia]|]. simpl.
    destruct (length_field b) as [n|] eqn:E; [|done]. apply length_field_length in E.
    case_match; [done|]. case_decide; [|done].
    rewrite (IH fuel'); [done|rewrite length_drop; lia..].
Qed.

Lemma packets_of_next b n :
  length_field b = Some n → (n ≤ limit)%N → 4 + N.to_nat n ≤ length b →
  packets_of limit b e
  = let '(l, r) := packets_of limit (drop (4 + N.to_nat n) b) e in (take (4 + N.to_nat n) b :: l, r).
Proof.
  intros H Hn Hl. unfold packets_of. pose proof (length_field_length _ _ H).
  destruct (length b) as [|k] eqn:Ek; [lia|]. cbn [packets]. rewrite H.
  rewrite (proj2 (N.ltb_ge _ _) Hn), decide_True by lia.
  by rewrite (packets_fuel k (length (drop (4 + N.to_nat n) b))) by (rewrite length_drop; lia).
Qed.

(** Written packets are found again. *)
Lemma packets_of_framed bodies tail :
  Forall (λ body, (len body ≤ limit)%N ∧ (len body < 2 ^ 32)%N) bodies →
  packets_of limit (mjoin (framed <$> bodies) ++ tail) e
  = ((framed <$> bodies) ++ (packets_of limit tail e).1, (packets_of limit tail e).2).
Proof.
  induction 1 as [|body bodies [Hb Hb'] _ IH].
  { change (mjoin (framed <$> []) ++ tail) with tail. by destruct (packets_of limit tail e). }
  change (mjoin (framed <$> body :: bodies)) with (framed body ++ mjoin (framed <$> bodies)).
  rewrite <- (app_assoc (framed body)).
  assert (4 + N.to_nat (len body) = length (framed body)) as Hl
    by (rewrite length_framed; unfold len; lia).
  rewrite (packets_of_next _ (len body)); [|by apply length_field_framed|done|].
  - by rewrite Hl, drop_app_length, take_app_length, IH.
  - rewrite Hl, length_app. lia.
Qed.
End packets.

(** ** The reader yields the packets *)

Section reader.
Context `{R : FrameReader} `{!FrameReaderSpec R}.

(** What the reader yields after the last packet. *)
Definition yields_end (r : Rest) (rest : list (result bytes CodecError)) : Prop :=
  match r with
  | CleanEnd => rest = []
  | TooLong | Partial => head rest = Some (Err FrameRejected)
  end.

Lemma frames_packets fuel max b e :
  length b ≤ fuel →
  ∃ rest, frames (agent_frames max) [b] e = (Ok <$> (packets fuel (max + 4) b e).1) ++ rest
          ∧ yields_end (packets fuel (max + 4) b e).2 rest.
Proof.
  revert b. induction fuel as [|fuel IH]; intros b Hl.
  { destruct b; [|simpl in Hl; lia]. eexists. split; [done|]. destruct e; [apply frames_end|].
    apply frames_rest; [done|by right|done]. }
  cbn [packets]. destruct (length_field b) as [n|] eqn:E.
  - destruct (max + 4 <? n)%N eqn:Eb.
    { apply N.ltb_lt in Eb. eexists. split; [done|]. by eapply frames_too_long. }
    apply N.ltb_ge in Eb. pose proof (length_field_length _ _ E) as H4.
    assert (N.to_nat (n + 4) = 4 + N.to_nat n) as Hs by lia.
    case_decide as Hd.
    + destruct (IH (drop (4 + N.to_nat n) b)) as (rest & Hf & Hy); [rewrite length_drop; lia|].
      exists rest. destruct (packets fuel _ _ _) as [l r]. split; [|done].
      rewrite (frames_next (agent_frames max) b n e E Eb) by (simpl; lia).
      cbn [agent_frames length_adjustment num_skip]. rewrite Hs. change (N.to_nat 0) with 0.
      by rewrite (Nat.add_0_l (4 + N.to_nat n)), Hf.
    + eexists. split; [done|]. apply frames_rest; [done|left; by destruct b; [simpl in H4; lia|]|].
      rewrite E. cbn. split; [done|lia].
  - eexists. split; [done|]. destruct b as [|x b], e; simpl; try (apply frames_end);
      (apply frames_rest; [done|auto|by rewrite E]).
Qed.

(** The reader yields exactly the packets of what the client wrote, then the
    end or an error. *)
Lemma frames_exact max chunks e :
  ∃ rest, frames (agent_frames max) chunks e
          = (Ok <$> (packets_of (max + 4) (mjoin chunks) e).1) ++ rest
          ∧ yields_end (packets_of (max + 4) (mjoin chunks) e).2 rest.
Proof. rewrite frames_chunks. by apply frames_packets. Qed.

(** ** The connection reads them *)

Section connection.
Context `{L : SshAgentLib} `{U : UuidText}.

(** The packets of the inputs up to the first that is not a frame. *)
Fixpoint frame_packets (inputs : list ListenerInput) : list bytes :=
  match inputs with
  | Frame _ packet _ :: rest => packet :: frame_packets rest
  | ResponseDone _ :: rest => frame_packets rest
  | _ => []
  end.

Lemma routed_prefix turns c c' d :
  handle_connection turns c = Some (c', d) →
  (λ x, x.1.1.2) <$> routed d `prefix_of` frame_packets turns.*2.
Proof.
  revert c d. induction turns as [|[write_ok i] turns IH]; intros c d; cbn [handle_connection].
  { intros [= <- <-]. apply prefix_nil. }
  destruct (handle_connection_step write_ok i c) as [[c1 d1]|] eqn:E; [|done].
  destruct (handle_connection turns c1) as [[c2 d2]|] eqn:E2; [|done]. intros [= <- <-].
  assert (open c1 = false → d2 = nothing) as Hcl.
  { intros Ho. destruct turns as [|[wo i2] turns]; cbn [handle_connection] in E2; [by simplify_eq|].
    unfold handle_connection_step in E2. by rewrite Ho in E2. }
  apply IH in E2 as Hp. unfold handle_connection_step, refuse in E.
  destruct (open c); [|done]. simpl in E.
  destruct i as [| |w packet t|outcome]; repeat case_match; simplify_eq; cbn;
    try (rewrite (Hcl eq_refl); apply prefix_nil); try done.
  by apply prefix_cons.
Qed.

(** Frames read before anything else are the first items of the stream. *)
Lemma frame_packets_prefix items turns l rest :
  reads items turns → items = (Ok <$> l) ++ rest →
  (∀ packet, head rest ≠ Some (Ok packet)) →
  frame_packets turns.*2 `prefix_of` l.
Proof.
  unfold reads. intros Hr -> Hh. revert l Hr.
  induction turns.*2 as [|i inputs IH]; intros l Hr; [apply prefix_nil|].
  destruct i as [| |w packet t|outcome]; cbn in *; try apply prefix_nil; [|by apply IH].
  destruct l as [|x l]; cbn in Hr.
  - destruct rest as [|y rest]; cbn in Hr; apply prefix_cons_inv_1 in Hr; [done|].
    injection Hr as <-. by destruct (Hh packet).
  - apply prefix_cons_inv_1 in Hr as Hx. injection Hx as <-. apply prefix_cons.
    apply IH. by eapply prefix_cons_inv_2.
Qed.

(** C25: What a client writes is what is routed.  Whatever chunks a client's
    bytes arrive in, a connection that reads them routes, in order, only packets
    the client wrote, whole and with their length field: a prefix of the packets
    at the front of the stream.  A payload is taken as long as it is at most four
    bytes longer than the configured maximum, and the connection reads nothing
    behind a longer one. *)
Theorem client_stream_is_packets max chunks bodies tail e turns r c d :
  mjoin chunks = mjoin (framed <$> bodies) ++ tail →
  Forall (λ body, (len body ≤ max + 4)%N ∧ (len body < 2 ^ 32)%N) bodies →
  (packets_of (max + 4) tail e).1 = [] →
  reads (frames (agent_frames max) chunks e) turns →
  handle_connection turns (open_connection r) = Some (c, d) →
  (λ x, x.1.1.2) <$> routed d `prefix_of` framed <$> bodies
  ∧ ∀ body more, (len body < 2 ^ 32)%N →
      head (frames (agent_frames max) [framed body ++ more] e)
      = Some (if (len body <=? max + 4)%N then Ok (framed body) else Err FrameRejected).
Proof.
  intros Hm Hb Ht Hr Hd. destruct (frames_exact max chunks e) as (rest & Hf & Hy).
  rewrite Hm, packets_of_framed, Ht, app_nil_r in Hf by done. cbn [fst] in Hf. split.
  - etrans; [by eapply routed_prefix|]. eapply frame_packets_prefix; [done|done|].
    intros packet. destruct (packets_of _ _ _).2; cbn in Hy; rewrite ?Hy; done.
  - intros body more Hl. pose proof (length_field_framed body more Hl) as E.
    destruct (N.leb_spec (len body) (max + 4)) as [Hle|Hgt]; [|by eapply frames_too_long].
    assert (N.to_nat (len body + 4) = length (framed body)) as Hs
      by (rewrite length_framed; unfold len; lia).
    rewrite (frames_next (agent_frames max) _ _ e E Hle);
      cbn [agent_frames length_adjustment num_skip]; rewrite Hs; change (N.to_nat 0) with 0.
    + cbn [head]. by rewrite drop_0, take_app_length.
    + rewrite length_app, length_framed. lia.
Qed.
End connection.
End reader.

(** ** A reader *)

(** A direct implementation of the documented behaviour. *)
Fixpoint delimited (fuel : nat) (s : FrameSettings) (b : bytes) (e : StreamEnd) :
    list (result bytes CodecError) :=
  match fuel, length_field b with
  | S fuel, Some n =>
      let size := N.to_nat (n + length_adjustment s) in
      let skip := N.to_nat (num_skip s) in
      if decide ((n ≤ max_frame_length s)%N ∧ 0 < skip + size ≤ length b) then
        Ok (take size (drop skip b)) :: delimited fuel s (drop (skip + size) b) e
      else [Err FrameRejected]
  | _, _ => match b, e with [], EndOfFile => [] | _, _ => [Err FrameRejected] end
  end.

Lemma delimited_fuel s e fuel fuel' b :
  length b ≤ fuel → length b ≤ fuel' → delimited fuel s b e = delimited fuel' s b e.
Proof.
  revert fuel' b. induction fuel as [|fuel IH]; intros fuel' b H1 H2.
  - destruct b; [|simpl in H1; lia]. by destruct fuel'.
  - destruct fuel' as [|fuel']; [by destruct b; [|simpl in H2; lia]|]. cbn [delimited].
    destruct (length_field b) as [n|]; [|done]. case_decide as Hd; [|done]. f_equal.
    apply IH; rewrite length_drop; lia.
Qed.

Definition sample_reader : FrameReader :=
  {| frames := λ s chunks e, let b := mjoin chunks in delimited (length b) s b e |}.

#[export] Instance sample_reader_spec : FrameReaderSpec sample_reader.
Proof.
  assert (∀ b : bytes, mjoin [b] = b) as Hj by (intros b; apply app_nil_r).
  split; cbn [frames sample_reader]; intros s; [intros chunks e|intros b n e E Hn Hs|
    intros b n e E Hn|done|intros b e H0 Hb Hn]; rewrite ?Hj; [done|..].
  - destruct (length b) as [|k] eqn:Hl; [lia|]. cbn [delimited]. rewrite E, decide_True by (rewrite Hl; auto).
    f_equal. apply delimited_fuel; rewrite length_drop; lia.
  - pose proof (length_field_length _ _ E). destruct (length b); [lia|]. cbn [delimited].
    rewrite E, decide_False by lia. done.
  - destruct b as [|x b]; [by destruct Hb as [?| ->]|]. revert Hn. cbn [length delimited].
    destruct (length_field (x :: b)) as [n|]; [intros Hn|done]. by rewrite decide_False by lia.
Qed.

(** A client writes two packets in three chunks and a payload that is too long. *)
Definition sample_bodies : list bytes := [[Byte.x0b]; [Byte.x0d; Byte.x00]].
Definition sample_chunks : list bytes :=
  [[Byte.x00; Byte.x00; Byte.x00]; [Byte.x01; Byte.x0b; Byte.x00];
   [Byte.x00; Byte.x00; Byte.x02; Byte.x0d; Byte.x00; Byte.x00; Byte.x00; Byte.x00; Byte.x09]].
Definition sample_reading : list (bool * ListenerInput) :=
  [(true, Frame (quiet_watch None) (framed [Byte.x0b]) 1);
   (true, ResponseDone (Ok []));
   (true, Frame (quiet_watch None) (framed [Byte.x0d; Byte.x00]) 2);
   (true, FrameError)].

Lemma client_stream_is_packets_witness :
  (λ x, x.1.1.2) <$> routed (default (open_connection sample_router, nothing)
    (handle_connection (L := sample_codecs) (U := hex_uuid_text) sample_reading
       (open_connection sample_router))).2
  `prefix_of` framed <$> sample_bodies.
Proof.
  refine (proj1 (client_stream_is_packets (R := sample_reader) (L := sample_codecs)
    (U := hex_uuid_text) 4 sample_chunks sample_bodies [Byte.x00; Byte.x00; Byte.x00; Byte.x09]
    EndOfFile sample_reading sample_router
    (default (open_connection sample_router, nothing)
       (handle_connection (L := sample_codecs) (U := hex_uuid_text) sample_reading
          (open_connection sample_router))).1 _ _ _ _ _ _)).
  - by vm_compute.
  - repeat (constructor; [split; by vm_compute|]). constructor.
  - by vm_compute.
  - assert (omap stream_item sample_reading.*2
            = (Some <$> frames (FrameReader := sample_reader) (agent_frames 4) sample_chunks EndOfFile))
      as E by by vm_compute. unfold reads. rewrite E. by apply prefix_app_r.
  - by vm_compute.
Defined.
