(* ===== verification/Pairing.v ===== *)
(** * Pairing: first-client pairing and authentication

    Models [crates/server/src/remote/pairing/mod.rs] and [memory.rs]: the
    pairing state, the storage boundary, and the service that pairs the first
    client, authenticates it and keeps its push subscription and public
    identities.

    The storage boundary [PairingStore] is a class, as it is a trait in the
    source: the service is written and verified against it, [PairingStoreSpec]
    states what it relies on, and the memory store (here) and the file store
    ([FileStore]) are its instances.  The service's mutex makes each operation
    atomic.  [Sha256::digest] is the operation of the class [Digest]; fresh
    UUIDs, random credentials, the clock and storage faults are arguments. *)

From S2P Require Import Prelude Bytes Packet.

(** ** Data *)

(** Browser-generated values of a Web Push subscription ([push.rs]). *)
Record PushSubscription := {
  endpoint : rstring;
  expiration_time : option N;
  p256dh : rstring;
  auth : rstring;
}.

(** The single client authorized to connect to this server. *)
Record PairedClient := {
  client_id : Uuid;
  credential_hash : bytes;
  label : rstring;
  created_at : N;
  last_seen_at : option N;
  push_subscription : option PushSubscription;
  client_identities : option (list AgentIdentity);
}.

(** Complete pairing state owned by a store. *)
Record PairingState := {
  server_id : Uuid;
  client : option PairedClient;
}.

#[export] Instance PushSubscription_eq_dec : EqDecision PushSubscription.
Proof. solve_decision. Defined.
#[export] Instance PairedClient_eq_dec : EqDecision PairedClient.
Proof. solve_decision. Defined.
#[export] Instance PairingState_eq_dec : EqDecision PairingState.
Proof. solve_decision. Defined.

(** [PairingState::unpaired], with the UUID it creates. *)
Definition unpaired (fresh : Uuid) : PairingState :=
  {| server_id := fresh; client := None |}.

(** What a store's operation failed at. *)
Inductive StoreError :=
| TaskFailed
| CouldNotRead
| CouldNotInspect
| WrongMode
| CouldNotDecode
| UnsupportedVersion
| NoParent
| CouldNotCreateParent
| NoFileName
| CouldNotEncode
| CouldNotCreate
| CouldNotWrite
| CouldNotSync
| CouldNotReplace
| CouldNotSyncParent.

Inductive AuthorizationError :=
| AlreadyPaired
| NotPaired
| Rejected
| CredentialGeneration
| InvalidIdentities
| Storage (error : StoreError).

(** Failure of [PairingService::open]. *)
Inductive OpenError :=
| OpenStorage (error : StoreError)
| StoredIdentitiesInvalid (error : IdentityError).

Inductive Authorization :=
| Paired (server_id client_id : Uuid) (credential : bytes)
| Authenticated (server_id client_id : Uuid).

#[export] Instance StoreError_eq_dec : EqDecision StoreError.
Proof. solve_decision. Defined.
#[export] Instance AuthorizationError_eq_dec : EqDecision AuthorizationError.
Proof. solve_decision. Defined.

(** [Authorization::client_id] *)
Definition authorized_client (a : Authorization) : Uuid :=
  match a with
  | Paired _ id _ | Authenticated _ id => id
  end.

(** [now]: whole seconds since the epoch of a system time in nanoseconds. *)
Definition now (time : Z) : N := (Z.to_N time `div` 1000000000)%N.

(** ** Boundaries *)

Class Digest := { sha256 : bytes → bytes }.

(** The trait [PairingStore].  Storage operations may fail: [Faults] says how
    the environment behaves during one. *)
Class PairingStore := {
  Store : Type;
  Faults : Type;
  healthy : Faults;
  load : Faults → Store → result (option PairingState) StoreError;
  save : Faults → PairingState → Store → Store * result unit StoreError;
}.

(** What the service relies on: a load tells the stored state, a successful
    save replaces it, and a failed one leaves the old or the new state. *)
Class PairingStoreSpec (S : PairingStore) := {
  load_spec : ∀ f s o, load f s = Ok o → load healthy s = Ok o;
  save_ok : ∀ f st s s', save f st s = (s', Ok tt) → load healthy s' = Ok (Some st);
  save_err : ∀ f st s s' e, save f st s = (s', Err e) →
    load healthy s' = load healthy s ∨ load healthy s' = Ok (Some st);
}.

(** ** The service *)

Section service.
Context `{S : PairingStore} `{D : Digest} `{L : SshAgentLib}.

Record PairingService := {
  store : Store;
  state : PairingState;
  revocations : N;
  identities : option (list AgentIdentity);
}.

Definition service_with (st : Store) (ps : PairingState) (s : PairingService) : PairingService :=
  {| store := st; state := ps; revocations := revocations s; identities := identities s |}.
Definition set_store (st : Store) (s : PairingService) : PairingService :=
  service_with st (state s) s.
(** [identities.send_replace] *)
Definition publish (ids : option (list AgentIdentity)) (s : PairingService) : PairingService :=
  {| store := store s; state := state s; revocations := revocations s; identities := ids |}.
(** [revocations.send_modify(|generation| *generation += 1)] *)
Definition revoke (s : PairingService) : PairingService :=
  {| store := store s; state := state s; revocations := wrap64 (revocations s + 1);
     identities := identities s |}.

Definition stored_identities (ps : PairingState) : option (list AgentIdentity) :=
  client ps ≫= client_identities.

(** [PairingService::open] once the state is known. *)
Definition open_with (st : Store) (ps : PairingState) : result PairingService OpenError :=
  let ids := stored_identities ps in
  let? _ := match ids with
            | Some l => map_err StoredIdentitiesInvalid (validate_identities l)
            | None => Ok tt
            end in
  Ok {| store := st; state := ps; revocations := 0; identities := ids |}.

(** [PairingService::open] *)
Definition open (load_faults save_faults : Faults) (fresh : Uuid) (st : Store) :
    Store * result PairingService OpenError :=
  match load load_faults st with
  | Err e => (st, Err (OpenStorage e))
  | Ok (Some ps) => (st, open_with st ps)
  | Ok None =>
      let ps := unpaired fresh in
      match save save_faults ps st with
      | (st, Err e) => (st, Err (OpenStorage e))
      | (st, Ok _) => (st, open_with st ps)
      end
  end.

(** Save [next] and make it the current state, or fail leaving the state. *)
Definition replace_state {E} (storage : StoreError → E) (f : Faults) (next : PairingState)
    (s : PairingService) : PairingService * result unit E :=
  match save f next (store s) with
  | (st, Ok _) => (service_with st next s, Ok tt)
  | (st, Err e) => (set_store st s, Err (storage e))
  end.

(** [PairingService::clear] *)
Definition clear (f : Faults) (s : PairingService) : PairingService * result bool StoreError :=
  match client (state s) with
  | None => (s, Ok false)
  | Some _ =>
      let next := {| server_id := server_id (state s); client := None |} in
      match replace_state id f next s with
      | (s, Err e) => (s, Err e)
      | (s, Ok _) => (revoke (publish None s), Ok true)
      end
  end.

(** [PairingService::push_subscription] *)
Definition service_push_subscription (s : PairingService) : option PushSubscription :=
  client (state s) ≫= push_subscription.

(** [pair]: [credential] is what the random source delivered. *)
Definition pair (f : Faults) (fresh : Uuid) (credential : option bytes) (time : Z)
    (label : rstring) (s : PairingService) :
    PairingService * result Authorization AuthorizationError :=
  match client (state s) with
  | Some _ => (s, Err AlreadyPaired)
  | None =>
      match credential with
      | None => (s, Err CredentialGeneration)
      | Some credential =>
          let next :=
            {| server_id := server_id (state s);
               client := Some {| client_id := fresh; credential_hash := sha256 credential;
                                 label := label; created_at := now time; last_seen_at := None;
                                 push_subscription := None; client_identities := None |} |} in
          match replace_state Storage f next s with
          | (s, Err e) => (s, Err e)
          | (s, Ok _) => (s, Ok (Paired (server_id (state s)) fresh credential))
          end
      end
  end.

(** Update the paired client and keep the rest of the state. *)
Definition with_client (c : PairedClient) (ps : PairingState) : PairingState :=
  {| server_id := server_id ps; client := Some c |}.
Definition seen_at (t : N) (c : PairedClient) : PairedClient :=
  {| client_id := client_id c; credential_hash := credential_hash c; label := label c;
     created_at := created_at c; last_seen_at := Some t;
     push_subscription := push_subscription c; client_identities := client_identities c |}.
Definition subscribed (p : PushSubscription) (c : PairedClient) : PairedClient :=
  {| client_id := client_id c; credential_hash := credential_hash c; label := label c;
     created_at := created_at c; last_seen_at := last_seen_at c;
     push_subscription := Some p; client_identities := client_identities c |}.
Definition identified (ids : list AgentIdentity) (c : PairedClient) : PairedClient :=
  {| client_id := client_id c; credential_hash := credential_hash c; label := label c;
     created_at := created_at c; last_seen_at := last_seen_at c;
     push_subscription := push_subscription c; client_identities := Some ids |}.

(** [authenticate]; the constant-time comparison is an equality. *)
Definition authenticate (f : Faults) (time : Z) (id : Uuid) (credential : bytes)
    (s : PairingService) : PairingService * result Authorization AuthorizationError :=
  match client (state s) with
  | None => (s, Err NotPaired)
  | Some c =>
      let matches_id := bool_decide (client_id c = id) in
      let matches_credential := bool_decide (credential_hash c = sha256 credential) in
      if negb matches_id || negb matches_credential then (s, Err Rejected)
      else
        match replace_state Storage f (with_client (seen_at (now time) c) (state s)) s with
        | (s, Err e) => (s, Err e)
        | (s, Ok _) => (s, Ok (Authenticated (server_id (state s)) id))
        end
  end.

(** [set_push_subscription] *)
Definition set_push_subscription (f : Faults) (id : Uuid) (subscription : PushSubscription)
    (s : PairingService) : PairingService * result unit AuthorizationError :=
  match client (state s) with
  | None => (s, Err NotPaired)
  | Some c =>
      if decide (client_id c ≠ id) then (s, Err Rejected)
      else replace_state Storage f (with_client (subscribed subscription c) (state s)) s
  end.

(** [set_identities] *)
Definition set_identities (f : Faults) (id : Uuid) (ids : list AgentIdentity)
    (s : PairingService) : PairingService * result unit AuthorizationError :=
  match validate_identities ids with
  | Err _ => (s, Err InvalidIdentities)
  | Ok _ =>
      match client (state s) with
      | None => (s, Err NotPaired)
      | Some c =>
          if decide (client_id c ≠ id) then (s, Err Rejected)
          else
            match replace_state Storage f (with_client (identified ids c) (state s)) s with
            | (s, Err e) => (s, Err e)
            | (s, Ok _) => (publish (Some ids) s, Ok tt)
            end
      end
  end.
End service.

(** ** The memory store *)

(** [MemoryPairingStore]: never fails. *)
Definition memory_store : PairingStore :=
  {| Store := option PairingState; Faults := unit; healthy := tt;
     load := λ _ st, Ok st; save := λ _ ps _, (Some ps, Ok tt) |}.

#[export] Instance memory_store_spec : PairingStoreSpec memory_store.
Proof. split; simpl; intros; simplify_eq; done. Qed.
