(* ===== verification/PairingProps.v ===== *)
(** * PairingProps: what the pairing service guarantees over any store

    Theorems about [Pairing], proved against the storage boundary: the pairing
    slot is claimed once and kept, authentication accepts exactly the paired
    client, published identities are the stored and valid ones, and the stored
    state follows the service's state. *)

From S2P Require Import Prelude Bytes Packet ContextCodecProps PacketProps Pairing.

Section service.
Context `{S : PairingStore} `{D : Digest} `{L : SshAgentLib}.

(** ** Operations as values *)

Inductive Op :=
| OpClear (f : Faults)
| OpPair (f : Faults) (fresh : Uuid) (credential : option bytes) (time : Z) (label : rstring)
| OpAuthenticate (f : Faults) (time : Z) (id : Uuid) (credential : bytes)
| OpSetPushSubscription (f : Faults) (id : Uuid) (subscription : PushSubscription)
| OpSetIdentities (f : Faults) (id : Uuid) (ids : list AgentIdentity).

(** How an operation ended: did it replace the state, and did storage fail. *)
Inductive Outcome :=
| Replaced
| Refused
| StorageFailed.

Definition outcome_of {A} (r : result A AuthorizationError) : Outcome :=
  match r with
  | Ok _ => Replaced
  | Err (Storage _) => StorageFailed
  | Err _ => Refused
  end.
Definition clear_outcome (r : result bool StoreError) : Outcome :=
  match r with
  | Ok true => Replaced
  | Ok false => Refused
  | Err _ => StorageFailed
  end.

Definition perform (op : Op) (s : PairingService) : PairingService * Outcome :=
  match op with
  | OpClear f => let '(s, r) := clear f s in (s, clear_outcome r)
  | OpPair f fresh c t l => let '(s, r) := pair f fresh c t l s in (s, outcome_of r)
  | OpAuthenticate f t id c => let '(s, r) := authenticate f t id c s in (s, outcome_of r)
  | OpSetPushSubscription f id p =>
      let '(s, r) := set_push_subscription f id p s in (s, outcome_of r)
  | OpSetIdentities f id ids => let '(s, r) := set_identities f id ids s in (s, outcome_of r)
  end.

Fixpoint perform_all (ops : list Op) (s : PairingService) : PairingService * list Outcome :=
  match ops with
  | [] => (s, [])
  | op :: rest =>
      let '(s, o) := perform op s in
      let '(s, os) := perform_all rest s in
      (s, o :: os)
  end.

Definition is_clear (op : Op) : bool := match op with OpClear _ => true | _ => false end.

(** ** One operation *)

(** The state an operation tries to reach, when its checks pass. *)
Definition target (op : Op) (s : PairingService) : option PairingState :=
  match op, client (state s) with
  | OpClear _, Some _ => Some {| server_id := server_id (state s); client := None |}
  | OpPair _ fresh (Some c) t l, None =>
      Some (with_client
              {| client_id := fresh; credential_hash := sha256 c; label := l;
                 created_at := now t; last_seen_at := None; push_subscription := None;
                 client_identities := None |} (state s))
  | OpAuthenticate _ t id cr, Some c =>
      if decide (client_id c = id ∧ credential_hash c = sha256 cr) then
        Some (with_client (seen_at (now t) c) (state s))
      else None
  | OpSetPushSubscription _ id p, Some c =>
      if decide (client_id c = id) then Some (with_client (subscribed p c) (state s)) else None
  | OpSetIdentities _ id ids, Some c =>
      if decide (client_id c = id ∧ validate_identities ids = Ok tt) then
        Some (with_client (identified ids c) (state s))
      else None
  | _, _ => None
  end.

Definition op_faults (op : Op) : Faults :=
  match op with
  | OpClear f | OpPair f _ _ _ _ | OpAuthenticate f _ _ _
  | OpSetPushSubscription f _ _ | OpSetIdentities f _ _ => f
  end.

(** The identities published once the operation has replaced the state. *)
Definition published_after (op : Op) (s : PairingService) : option (list AgentIdentity) :=
  match op with
  | OpClear _ => None
  | OpSetIdentities _ _ ids => Some ids
  | _ => identities s
  end.
Definition revocations_after (op : Op) (s : PairingService) : N :=
  match op with
  | OpClear _ => wrap64 (revocations s + 1)
  | _ => revocations s
  end.

(** Every operation checks, then saves, then replaces the state in memory. *)
Lemma perform_spec op s :
  perform op s =
  match target op s with
  | None => (s, Refused)
  | Some next =>
      match save (op_faults op) next (store s) with
      | (st, Ok _) =>
          ({| store := st; state := next; revocations := revocations_after op s;
              identities := published_after op s |}, Replaced)
      | (st, Err _) => (set_store st s, StorageFailed)
      end
  end.
Proof.
  destruct op as [f|f fresh cr t l|f t id cr|f id p|f id ids]; unfold target; cbn.
  - unfold clear, replace_state. destruct (client (state s)); [|done]. simpl.
    by destruct (save _ _ _) as [st []].
  - unfold pair, replace_state. destruct (client (state s)); [by destruct cr|].
    destruct cr; [|done]. simpl. by destruct (save _ _ _) as [st []].
  - unfold authenticate, replace_state. destruct (client (state s)) as [c|]; [|done].
    repeat case_bool_decide; case_decide; try tauto; simpl; try done.
    by destruct (save _ _ _) as [st []].
  - unfold set_push_subscription, replace_state. destruct (client (state s)) as [c|]; [|done].
    repeat case_decide; try done; simpl. by destruct (save _ _ _) as [st []].
  - unfold set_identities, replace_state. destruct (validate_identities ids) as [[]|] eqn:Ev.
    + destruct (client (state s)) as [c|]; [|done].
      repeat case_decide; try naive_solver. by destruct (save _ _ _) as [st []].
    + destruct (client (state s)) as [c|]; [|done]. rewrite decide_False by naive_solver. done.
Qed.

(** An operation moves to its target or leaves the state in memory alone. *)
Lemma perform_cases op s s' o :
  perform op s = (s', o) →
  (o = Replaced ∧ target op s = Some (state s')
   ∧ identities s' = published_after op s ∧ revocations s' = revocations_after op s)
  ∨ (o ≠ Replaced ∧ state s' = state s
     ∧ identities s' = identities s ∧ revocations s' = revocations s).
Proof.
  rewrite perform_spec. destruct (target op s) as [next|]; [|intros [= <- <-]; by right].
  destruct (save _ _ _) as [st []]; intros [= <- <-]; [by left|by right].
Qed.

(** ** The pairing slot *)

(** What identifies a paired client. *)
Definition slot (ps : PairingState) : option (Uuid * bytes * rstring * N) :=
  (λ c, (client_id c, credential_hash c, label c, created_at c)) <$> client ps.

Lemma target_slot op s next :
  target op s = Some next → is_clear op = false → slot (state s) ≠ None →
  slot next = slot (state s).
Proof.
  unfold slot. destruct (client (state s)) as [c|] eqn:Ec; [|done]. intros Ht Hop _. revert Ht.
  unfold target. rewrite Ec.
  destruct op as [f|f fresh [cr|] t l|f t id cr|f id p|f id ids]; try done;
    case_decide; intros; by simplify_eq.
Qed.

Lemma target_server op s next : target op s = Some next → server_id next = server_id (state s).
Proof.
  unfold target. destruct op as [f|f fresh [cr|] t l|f t id cr|f id p|f id ids];
    destruct (client (state s)); try done; try case_decide; intros; by simplify_eq.
Qed.

Lemma perform_all_server ops s s' os :
  perform_all ops s = (s', os) → server_id (state s') = server_id (state s).
Proof.
  revert s os. induction ops as [|op ops IH]; intros s os; cbn; [by intros [= <- <-]|].
  destruct (perform op s) as [s1 o] eqn:E. destruct (perform_all ops s1) as [s2 os2] eqn:E2.
  intros [= <- <-]. rewrite (IH _ _ E2).
  apply perform_cases in E as [(_ & Ht & _)|(_ & -> & _)]; [|done].
  by apply target_server in Ht.
Qed.

Lemma perform_all_slot ops s s' os :
  slot (state s) ≠ None → Forall (λ op, is_clear op = false) ops →
  perform_all ops s = (s', os) → slot (state s') = slot (state s).
Proof.
  revert s os. induction ops as [|op ops IH]; intros s os Hslot Hops; cbn.
  { by intros [= <- <-]. }
  apply Forall_cons in Hops as [Hop Hops].
  destruct (perform op s) as [s1 o] eqn:E. destruct (perform_all ops s1) as [s2 os2] eqn:E2.
  intros [= <- <-].
  assert (slot (state s1) = slot (state s)) as E1.
  { apply perform_cases in E as [(_ & Ht & _)|(_ & -> & _)]; [|done].
    by apply (target_slot _ _ _ Ht). }
  rewrite <- E1. apply (IH _ os2); [by rewrite E1|done|done].
Qed.

(** C26: the pairing slot is claimed once.  Once a client is paired, then
    whatever is requested and however storage fails, as long as no operator
    clears the pairing, the same client stays paired with the same credential,
    label and creation time, and pairing another client is refused without
    touching the state; the server's identity never changes at all. *)
Theorem pairing_slot_is_kept ops s s' os :
  slot (state s) ≠ None → Forall (λ op, is_clear op = false) ops →
  perform_all ops s = (s', os) →
  slot (state s') = slot (state s)
  ∧ server_id (state s') = server_id (state s)
  ∧ ∀ f fresh credential time label,
      pair f fresh credential time label s' = (s', Err AlreadyPaired).
Proof.
  intros Hslot Hops Hrun. pose proof (perform_all_slot _ _ _ _ Hslot Hops Hrun) as E.
  split; [done|]. split; [by eapply perform_all_server|].
  intros. unfold pair. rewrite <- E in Hslot. unfold slot in Hslot.
  by destruct (client (state s')).
Qed.

(** C27: authentication accepts exactly the paired client.  A session is
    authenticated if and only if a client is paired, the identifier is its
    identifier, the credential has the digest recorded at pairing, and the
    state could be saved; then the answer names this server and that client, and
    nothing changes but the time the client was last seen.  An attempt that does
    not match changes nothing at all, not even the store; one that matches but
    could not be saved leaves the service as it was, and the store as the failed
    save left it. *)
Theorem authentication_exact f time id credential s s' r :
  authenticate f time id credential s = (s', r) →
  let matches c := client (state s) = Some c ∧ client_id c = id
                   ∧ credential_hash c = sha256 credential in
  let next c := with_client (seen_at (now time) c) (state s) in
  (is_ok r = true ↔ ∃ c, matches c ∧ (save f (next c) (store s)).2 = Ok tt)
  ∧ (is_ok r = true → r = Ok (Authenticated (server_id (state s)) id)
                      ∧ ∃ c, matches c ∧ state s' = next c)
  ∧ (is_ok r = false → state s' = state s)
  ∧ identities s' = identities s ∧ revocations s' = revocations s
  ∧ ((∀ c, ¬ matches c) → s' = s)
  ∧ ∀ c, matches c → store s' = (save f (next c) (store s)).1.
Proof.
  cbn zeta. unfold authenticate, replace_state. destruct (client (state s)) as [c|] eqn:Ec.
  - repeat case_bool_decide; simpl; try (intros [= <- <-]; naive_solver).
    destruct (save _ _ _) as [st [[]|e]] eqn:Es; intros [= <- <-]; simpl.
    + split_and!; try done.
      * split; [|done]. intros _. exists c. by rewrite Es.
      * intros _. split; [done|]. by exists c.
      * intros Hno. by destruct (Hno c).
      * intros c' ([= <-] & _). by rewrite Es.
    + split_and!; try done.
      * split; [done|]. intros (c' & ([= <-] & _) & Hs). by rewrite Es in Hs.
      * intros Hno. by destruct (Hno c).
      * intros c' ([= <-] & _). by rewrite Es.
  - intros [= <- <-]. naive_solver.
Qed.

(** ** Published identities *)

Definition identities_ok (s : PairingService) : Prop :=
  identities s = stored_identities (state s)
  ∧ ∀ ids, identities s = Some ids → validate_identities ids = Ok tt.

Lemma open_with_ok st ps s :
  open_with st ps = Ok s → identities_ok s ∧ store s = st ∧ state s = ps.
Proof.
  unfold open_with, identities_ok. destruct (stored_identities ps) as [l|] eqn:El; cbn.
  - destruct (validate_identities l) as [[]|] eqn:Ev; cbn; [|done]. intros [= <-]. cbn.
    rewrite El. naive_solver.
  - intros [= <-]. cbn. by rewrite El.
Qed.

Lemma open_cases lf sf fresh st st' s :
  open lf sf fresh st = (st', Ok s) →
  ∃ ps, open_with st' ps = Ok s
        ∧ (load lf st = Ok (Some ps) ∧ st' = st ∨ save sf ps st = (st', Ok tt) ∧ ps = unpaired fresh).
Proof.
  unfold open. destruct (load lf st) as [[ps|]|e]; [| |done].
  - intros E. injection E as <- E. exists ps. split; [done|by left].
  - destruct (save sf (unpaired fresh) st) as [st1 [[]|]] eqn:Es; [|done].
    intros E. injection E as <- E. exists (unpaired fresh). split; [by rewrite <- E|by right].
Qed.

Lemma target_identities op s next :
  target op s = Some next → identities_ok s →
  stored_identities next = published_after op s
  ∧ ∀ ids, published_after op s = Some ids → validate_identities ids = Ok tt.
Proof.
  intros Ht [Hi Hv]. revert Ht. unfold target, published_after, stored_identities in *.
  destruct op as [f|f fresh [cr|] t l|f t id cr|f id p|f id ids];
    destruct (client (state s)) as [c|]; try done; try case_decide; intros; simplify_eq; cbn;
    naive_solver.
Qed.

Lemma perform_all_identities ops s s' os :
  identities_ok s → perform_all ops s = (s', os) → identities_ok s'.
Proof.
  revert s os. induction ops as [|op ops IH]; intros s os Hok; cbn; [by intros [= <- <-]|].
  destruct (perform op s) as [s1 o] eqn:E. destruct (perform_all ops s1) as [s2 os2] eqn:E2.
  intros [= <- <-]. refine (IH s1 os2 _ E2).
  apply perform_cases in E as [(_ & Ht & Hi & _)|(_ & Hst & Hi & _)].
  - destruct (target_identities _ _ _ Ht Hok) as [H1 H2]. unfold identities_ok.
    rewrite Hi. by split.
  - unfold identities_ok. by rewrite Hst, Hi.
Qed.

(** The identities the agent socket answers with are the paired client's.
    From opening the store on, after any operations and whatever storage
    faults, the published identities are exactly those recorded for the paired
    client (none when no client is paired), and they have passed validation. *)
Theorem published_identities_are_the_clients lf sf fresh st st' s ops s' os :
  open lf sf fresh st = (st', Ok s) → perform_all ops s = (s', os) →
  identities s' = stored_identities (state s')
  ∧ ∀ ids, identities s' = Some ids → validate_identities ids = Ok tt.
Proof.
  intros (ps & [Hok _]%open_with_ok & _)%open_cases. by apply perform_all_identities.
Qed.

(** ** Persistence *)

Context `{!PairingStoreSpec S}.

Definition synced (s : PairingService) : Prop := load healthy (store s) = Ok (Some (state s)).

Lemma open_synced lf sf fresh st st' s : open lf sf fresh st = (st', Ok s) → synced s.
Proof.
  intros (ps & (_ & Hst & Hps)%open_with_ok & Hcase)%open_cases. unfold synced.
  rewrite Hst, Hps. destruct Hcase as [[El%load_spec ->]|[Es%save_ok _]]; done.
Qed.

Lemma perform_synced op s s' o :
  perform op s = (s', o) → synced s → o ≠ StorageFailed → synced s'.
Proof.
  rewrite perform_spec. unfold synced. intros Hp Hs Ho.
  destruct (target op s) as [next|]; [|by simplify_eq].
  destruct (save _ _ _) as [st [[]|]] eqn:Es; simplify_eq. by apply save_ok in Es.
Qed.

Lemma perform_all_synced ops s s' os :
  perform_all ops s = (s', os) → synced s → Forall (λ o, o ≠ StorageFailed) os → synced s'.
Proof.
  revert s os. induction ops as [|op ops IH]; intros s os; cbn; [by intros [= <- <-]|].
  destruct (perform op s) as [s1 o] eqn:E. destruct (perform_all ops s1) as [s2 os2] eqn:E2.
  intros [= <- <-] Hs [Ho Hos]%Forall_cons. eapply IH; [done| |done]. by eapply perform_synced.
Qed.

(** C28: a restart finds the pairing as it was.  If no storage operation
    failed since the store was opened, then opening the store again gives the
    same server identity, paired client and published identities.  When a save
    fails, the operation reports it, what is in memory is unchanged, and the
    store holds the old state or the one that was being saved. *)
Theorem restart_recovers lf sf fresh st st' s ops s' os :
  open lf sf fresh st = (st', Ok s) → perform_all ops s = (s', os) →
  (Forall (λ o, o ≠ StorageFailed) os →
   ∀ sf' fresh', ∃ s2, open healthy sf' fresh' (store s') = (store s', Ok s2)
     ∧ state s2 = state s' ∧ identities s2 = identities s')
  ∧ ∀ op s2, perform op s' = (s2, StorageFailed) →
      state s2 = state s' ∧ identities s2 = identities s'
      ∧ (load healthy (store s2) = load healthy (store s')
         ∨ ∃ next, target op s' = Some next ∧ load healthy (store s2) = Ok (Some next)).
Proof.
  intros Hopen Hrun. pose proof (open_synced _ _ _ _ _ _ Hopen) as Hsync.
  apply open_cases in Hopen as (ps & [Hok _]%open_with_ok & _). split.
  - intros Hos sf' fresh'. pose proof (perform_all_synced _ _ _ _ Hrun Hsync Hos) as Hs.
    destruct (perform_all_identities _ _ _ _ Hok Hrun) as [Hi Hv].
    exists {| store := store s'; state := state s'; revocations := 0; identities := identities s' |}.
    split; [|done]. unfold open, open_with. rewrite Hs, <- Hi.
    destruct (identities s') as [ids|]; [|done]. by rewrite Hv.
  - intros op s2 Hp. rewrite perform_spec in Hp. destruct (target op s') as [next|]; [|done].
    destruct (save _ _ _) as [st2 [[]|e]] eqn:Es; [done|]. simplify_eq.
    split_and!; [done..|]. apply save_err in Es as [Es|Es]; [by left|]. right. by exists next.
Qed.
End service.

(** ** A concrete service *)

(** A digest for the samples: the first bytes of the credential. *)
Definition sample_digest : Digest := {| sha256 := take 8 |}.

Definition sample_service : PairingService (S := memory_store) :=
  default {| store := (None : Store (PairingStore := memory_store)); state := unpaired 0;
             revocations := 0; identities := None |}
    (ok (open (S := memory_store) (L := sample_codecs) tt tt 77 None).2).
Definition sample_ops : list (Op (S := memory_store)) :=
  [OpPair (S := memory_store) tt 5 (Some (byte_string "credential")) 1000000000 (byte_string "phone");
   OpSetIdentities (S := memory_store) tt 5 [sample_identity]].
Definition sample_paired : PairingService (S := memory_store) :=
  (perform_all (S := memory_store) (D := sample_digest) (L := sample_codecs)
     sample_ops sample_service).1.
(** A second client tries to pair, the first authenticates, a stranger tries. *)
Definition sample_attempts : list (Op (S := memory_store)) :=
  [OpPair (S := memory_store) tt 6 (Some (byte_string "intruder")) 0 (byte_string "other");
   OpAuthenticate (S := memory_store) tt 2000000000 5 (byte_string "credential");
   OpAuthenticate (S := memory_store) tt 0 6 (byte_string "intruder")].

Lemma pairing_slot_is_kept_witness :
  slot (state (perform_all (S := memory_store) (D := sample_digest) (L := sample_codecs)
                 sample_attempts sample_paired).1) = slot (state sample_paired).
Proof.
  refine (proj1 (pairing_slot_is_kept (S := memory_store) (D := sample_digest)
    (L := sample_codecs) sample_attempts sample_paired _ _ _ _ (surjective_pairing _))).
  - by vm_compute.
  - repeat constructor.
Defined.

Lemma authentication_exact_witness :
  is_ok (authenticate (S := memory_store) (D := sample_digest) tt 2000000000 5
           (byte_string "credential") sample_paired).2 = true.
Proof.
  apply (proj1 (authentication_exact (S := memory_store) (D := sample_digest) tt 2000000000 5
    (byte_string "credential") sample_paired _ _ (surjective_pairing _))).
  eexists. split; [split_and!|]; by vm_compute.
Defined.

Lemma published_identities_are_the_clients_witness :
  identities sample_paired = stored_identities (state sample_paired)
  ∧ identities sample_paired = Some [sample_identity].
Proof.
  split; [|by vm_compute].
  refine (proj1 (published_identities_are_the_clients (S := memory_store) (D := sample_digest)
    (L := sample_codecs) tt tt 77 None _ sample_service sample_ops sample_paired
    (perform_all (S := memory_store) (D := sample_digest) (L := sample_codecs)
       sample_ops sample_service).2 _ _)); by vm_compute.
Defined.

Lemma restart_recovers_witness :
  ∃ s2, open (S := memory_store) (L := sample_codecs) tt tt 99 (store sample_paired)
        = (store sample_paired, Ok s2)
        ∧ state s2 = state sample_paired.
Proof.
  destruct (proj1 (restart_recovers (S := memory_store) (D := sample_digest)
    (L := sample_codecs) tt tt 77 None (store sample_service) sample_service sample_ops
    sample_paired [Replaced; Replaced] ltac:(by vm_compute) ltac:(by vm_compute))
    ltac:(by repeat constructor) tt 99%N) as (s2 & Ho & Hs & _).
  exists s2. by split.
Defined.
