(* ===== verification/FileStore.v ===== *)
(** * FileStore: pairing storage in an atomically replaced JSON file

    Models [crates/server/src/remote/pairing/file.rs] over the files of the
    directory that holds the state file.  Every operating-system call may
    fail: [FileFaults] says which calls of one operation succeed, how much of a
    failing write reached the file, the process's umask, and the UUID in the
    temporary file's name.  [serde_json] is the class [StateJson] with the
    documented round trip as its law. *)

From S2P Require Import Prelude Bytes Utf8 Packet Pairing.

Definition STATE_VERSION : N := 1.
(** [0o600] *)
Definition STATE_MODE : N := 384.
(** [0o077] *)
Definition GROUP_AND_OTHERS : N := 63.

(** ** Data *)

Record StoredState := {
  version : N;
  stored_server_id : Uuid;
  stored_client : option PairedClient;
}.

(** [From<PairingState> for StoredState] *)
Definition stored_from (ps : PairingState) : StoredState :=
  {| version := STATE_VERSION; stored_server_id := server_id ps; stored_client := client ps |}.

(** [TryFrom<StoredState> for PairingState] *)
Definition try_from_stored (s : StoredState) : result PairingState StoreError :=
  if (version s =? STATE_VERSION)%N then
    Ok {| server_id := stored_server_id s; client := stored_client s |}
  else Err UnsupportedVersion.

Class StateJson := {
  to_vec_pretty : StoredState → option bytes;
  from_slice : bytes → option StoredState;
}.
(** Trailing whitespace is allowed after a JSON value. *)
Class StateJsonSpec (J : StateJson) := {
  from_slice_line : ∀ s b, to_vec_pretty s = Some b → from_slice (b ++ [Byte.x0a]) = Some s;
}.

(** The path of the state file. *)
Record StatePath := {
  parent : option rstring;
  file_name : option rstring;
}.

Record File := {
  mode : N;
  contents : bytes;
}.

Record FileStore := {
  path : StatePath;
  files : gmap rstring File;
}.

Record FileFaults := {
  task_runs : bool;
  reads : bool;
  inspects : bool;
  creates_parent : bool;
  creates : bool;
  writes : bool;
  finishes : bool;
  syncs : bool;
  renames : bool;
  syncs_parent : bool;
  removes : bool;
  partial : nat;
  umask : N;
  unique : rstring;
}.
Definition no_faults : FileFaults :=
  {| task_runs := true; reads := true; inspects := true; creates_parent := true;
     creates := true; writes := true; finishes := true; syncs := true; renames := true;
     syncs_parent := true; removes := true; partial := 0; umask := 0; unique := [] |}.

Definition set_files (m : gmap rstring File) (s : FileStore) : FileStore :=
  {| path := path s; files := m |}.

(** ** Operations *)

Section file_store.
Context `{J : StateJson}.

(** [load] *)
Definition file_load (f : FileFaults) (s : FileStore) :
    result (option PairingState) StoreError :=
  if negb (task_runs f) then Err TaskFailed
  else
    match file_name (path s) with
    | None => Err CouldNotRead
    | Some name =>
        if negb (reads f) then Err CouldNotRead
        else
          match files s !! name with
          | None => Ok None
          | Some file =>
              if negb (inspects f) then Err CouldNotInspect
              else if negb (N.land (mode file) GROUP_AND_OTHERS =? 0)%N then Err WrongMode
              else
                let? stored := ok_or (from_slice (contents file)) CouldNotDecode in
                let? state := try_from_stored stored in
                Ok (Some state)
          end
    end.

(** [parent.join(format!(".{name}.{}.tmp", Uuid::new_v4()))] *)
Definition temporary_name (name uuid : rstring) : rstring :=
  byte_string "." ++ from_utf8_lossy name ++ byte_string "." ++ uuid ++ byte_string ".tmp".

(** [write_and_replace]: the files afterwards, also when it fails. *)
Definition write_and_replace (f : FileFaults) (temporary name : rstring) (ps : PairingState)
    (m : gmap rstring File) : gmap rstring File * result unit StoreError :=
  match to_vec_pretty (stored_from ps) with
  | None => (m, Err CouldNotEncode)
  | Some bytes =>
      if negb (creates f) || bool_decide (is_Some (m !! temporary)) then
        (m, Err CouldNotCreate)
      else
        let mode := N.ldiff STATE_MODE (umask f) in
        let put (b : rstring) := <[temporary := {| mode := mode; contents := b |}]> m in
        if negb (writes f) then (put (take (partial f) bytes), Err CouldNotWrite)
        else if negb (finishes f) then (put bytes, Err CouldNotWrite)
        else
          let m' := put (bytes ++ [Byte.x0a]) in
          if negb (syncs f) then (m', Err CouldNotSync)
          else if negb (renames f) then (m', Err CouldNotReplace)
          else
            let m' := <[name := {| mode := mode; contents := bytes ++ [Byte.x0a] |}]>
                        (delete temporary m') in
            if negb (syncs_parent f) then (m', Err CouldNotSyncParent) else (m', Ok tt)
  end.

(** [save] *)
Definition file_save (f : FileFaults) (ps : PairingState) (s : FileStore) :
    FileStore * result unit StoreError :=
  if negb (task_runs f) then (s, Err TaskFailed)
  else
    match parent (path s) with
    | None => (s, Err NoParent)
    | Some [] => (s, Err NoParent)
    | Some _ =>
        if negb (creates_parent f) then (s, Err CouldNotCreateParent)
        else
          match file_name (path s) with
          | None => (s, Err NoFileName)
          | Some name =>
              let temporary := temporary_name name (unique f) in
              match write_and_replace f temporary name ps (files s) with
              | (m, Ok _) => (set_files m s, Ok tt)
              | (m, Err e) =>
                  (set_files (if removes f then delete temporary m else m) s, Err e)
              end
          end
    end.

Definition file_store : PairingStore :=
  {| Store := FileStore; Faults := FileFaults; healthy := no_faults;
     load := file_load; save := file_save |}.

(** ** Properties *)

(** What a new file's mode grants to others is nothing, whatever the umask. *)
Lemma state_mode_private u : N.land (N.ldiff STATE_MODE u) GROUP_AND_OTHERS = 0%N.
Proof.
  assert (N.land STATE_MODE GROUP_AND_OTHERS = 0)%N as E by done.
  apply N.bits_inj. intros i.
  assert (N.testbit (N.land STATE_MODE GROUP_AND_OTHERS) i = N.testbit 0 i) as Ei by by rewrite E.
  rewrite N.land_spec, N.bits_0 in Ei. rewrite N.land_spec, N.ldiff_spec, N.bits_0.
  destruct (N.testbit STATE_MODE i), (N.testbit u i), (N.testbit GROUP_AND_OTHERS i); done.
Qed.

Lemma temporary_fresh name u : temporary_name name u ≠ name.
Proof.
  intros E%(f_equal length). unfold temporary_name in E. rewrite !length_app in E.
  pose proof (length_from_utf8_lossy_ge name). simpl in E. lia.
Qed.

(** The complete new state file. *)
Definition new_file (f : FileFaults) (ps : PairingState) (file : File) : Prop :=
  mode file = N.ldiff STATE_MODE (umask f)
  ∧ ∃ b, to_vec_pretty (stored_from ps) = Some b ∧ contents file = b ++ [Byte.x0a].

(** Replacing never loses the state file: afterwards its name holds the old
    file or the complete new one. *)
Lemma write_and_replace_target f temporary name ps m m' r :
  temporary ≠ name → write_and_replace f temporary name ps m = (m', r) →
  (r = Ok tt ∧ ∃ file, m' !! name = Some file ∧ new_file f ps file)
  ∨ (∃ e, r = Err e) ∧
    (m' !! name = m !! name ∨ ∃ file, m' !! name = Some file ∧ new_file f ps file).
Proof.
  intros Hne. unfold write_and_replace, new_file.
  destruct (to_vec_pretty (stored_from ps)) as [b|]; [|intros; simplify_eq; eauto].
  repeat case_match; intros; simplify_eq; cbn;
    rewrite ?lookup_insert_eq, ?lookup_insert_ne by done; eauto 10.
Qed.

Context `{!StateJsonSpec J}.

Lemma load_written f s name ps m file :
  file_name (path s) = Some name → m !! name = Some file → new_file f ps file →
  file_load no_faults (set_files m s) = Ok (Some ps).
Proof.
  intros Hn Hm (Hmode & b & Hb & Hc). unfold file_load.
  cbn [no_faults task_runs reads inspects negb set_files path files].
  rewrite Hn, Hm, Hmode, Hc, state_mode_private, (from_slice_line _ _ Hb). cbn.
  by destruct ps.
Qed.

Lemma load_same_target s name m :
  file_name (path s) = Some name → m !! name = files s !! name →
  file_load no_faults (set_files m s) = file_load no_faults s.
Proof. intros Hn Hm. unfold file_load. cbn. by rewrite Hn, Hm. Qed.

(** How a save can end. *)
Lemma file_save_cases f ps s s' r :
  file_save f ps s = (s', r) →
  (r = Ok tt ∧ file_load no_faults s' = Ok (Some ps))
  ∨ (∃ e, r = Err e) ∧ (file_load no_faults s' = file_load no_faults s
                        ∨ file_load no_faults s' = Ok (Some ps)).
Proof.
  unfold file_save. destruct (task_runs f); cbn [negb]; [|intros [= <- <-]; eauto].
  destruct (parent (path s)) as [[|b p]|]; [intros [= <- <-]; eauto| |intros [= <- <-]; eauto].
  destruct (creates_parent f); cbn [negb]; [|intros [= <- <-]; eauto].
  destruct (file_name (path s)) as [name|] eqn:En; [|intros [= <- <-]; eauto].
  cbv zeta. pose proof (temporary_fresh name (unique f)) as Hne.
  destruct (write_and_replace _ _ _ _ _) as [m w] eqn:Ew.
  apply write_and_replace_target in Ew as [[-> (file & Hm & Hnew)]|[[e ->] Hm]]; [..|done];
    intros [= <- <-]; [left|right].
  - split; [done|]. by eapply load_written.
  - split; [by eexists|].
    assert ((if removes f then delete (temporary_name name (unique f)) m else m) !! name
            = m !! name) as Ed by (case_match; [by rewrite lookup_delete_ne|done]).
    destruct Hm as [Hm|(file & Hm & Hnew)]; rewrite <- Ed in Hm.
    + left. by eapply load_same_target.
    + right. by eapply load_written.
Qed.

#[export] Instance file_store_spec : PairingStoreSpec file_store.
Proof.
  split; cbn [load save healthy file_store Store Faults].
  - intros f s o. unfold file_load. cbn. repeat case_match; by intros.
  - intros f ps s s' H. apply file_save_cases in H. naive_solver.
  - intros f ps s s' e H. apply file_save_cases in H. naive_solver.
Qed.

(** Every file a replacement leaves is old or was created by it. *)
Lemma write_and_replace_files f temporary name ps m m' r :
  temporary ≠ name → write_and_replace f temporary name ps m = (m', r) →
  (∀ n file, m' !! n = Some file →
     m !! n = Some file ∨ mode file = N.ldiff STATE_MODE (umask f))
  ∧ (r = Ok tt → m' !! temporary = None).
Proof.
  intros Hne. unfold write_and_replace.
  repeat case_match; intros; simplify_eq; cbn; (split; [intros n file|done || intros _]);
    rewrite ?lookup_insert_Some, ?lookup_delete_Some, ?lookup_insert_Some;
    rewrite ?lookup_insert_ne, ?lookup_delete_eq by done; naive_solver.
Qed.

(** C29: the state file is replaced atomically and privately.  Whatever
    operating-system call fails during a save, the next load finds either the
    state as it was before or exactly the new state, and after a reported
    success always the new one; a file written by the store grants nothing to
    the group or to others, whatever the umask; and if its removal succeeds, no
    temporary file of this save is left behind. *)
Theorem file_save_atomic f ps s s' r name :
  file_save f ps s = (s', r) → file_name (path s) = Some name →
  (r = Ok tt → file_load no_faults s' = Ok (Some ps))
  ∧ (r ≠ Ok tt → file_load no_faults s' = file_load no_faults s
                 ∨ file_load no_faults s' = Ok (Some ps))
  ∧ (∀ n file, files s' !! n = Some file → files s !! n = Some file
       ∨ N.land (mode file) GROUP_AND_OTHERS = 0%N)
  ∧ (removes f = true → files s !! temporary_name name (unique f) = None →
     files s' !! temporary_name name (unique f) = None).
Proof.
  intros Hs Hn. pose proof (file_save_cases _ _ _ _ _ Hs) as Hc. split; [naive_solver|].
  split; [naive_solver|]. pose proof (temporary_fresh name (unique f)) as Hne.
  assert (s' = s ∨ ∃ m w, write_and_replace f (temporary_name name (unique f)) name ps (files s) = (m, w)
    ∧ s' = set_files (if decide (w = Ok tt) then m
                      else if removes f then delete (temporary_name name (unique f)) m else m) s)
    as [->|(m & w & Hw & ->)].
  { unfold file_save in Hs. rewrite Hn in Hs. repeat case_match; simplify_eq; try (by left);
      right;
      repeat match goal with u : () |- _ => destruct u end;
      eexists _, _; (split; [done|]); by case_decide. }
  { split; [naive_solver|done]. }
  apply write_and_replace_files in Hw as [Hf Ht]; [|done]. cbn. split.
  - intros n file Hfile. assert (m !! n = Some file) as Hm.
    { repeat case_match; try done. by apply lookup_delete_Some in Hfile as [_ ?]. }
    apply Hf in Hm as [Hold|Hnew]; [by left|right]. rewrite Hnew. apply state_mode_private.
  - intros Hr Hfr. case_decide; [by apply Ht|]. rewrite Hr. apply lookup_delete_eq.
Qed.
End file_store.

(** ** A concrete store *)

(** A codec for the samples: the binary digits of stdpp's encoding of the
    state, one byte each. *)
#[local] Instance AgentIdentity_countable : Countable AgentIdentity :=
  inj_countable' (λ i, (key_blob i, comment i))
    (λ x, {| key_blob := x.1; comment := x.2 |}) ltac:(by intros []).
#[local] Instance PushSubscription_countable : Countable PushSubscription :=
  inj_countable' (λ p, (endpoint p, expiration_time p, p256dh p, auth p))
    (λ x, let '(e, t, k, a) := x in
          {| endpoint := e; expiration_time := t; p256dh := k; auth := a |}) ltac:(by intros []).
#[local] Instance PairedClient_countable : Countable PairedClient :=
  inj_countable'
    (λ c, (client_id c, credential_hash c, label c, created_at c, last_seen_at c,
           push_subscription c, client_identities c))
    (λ x, let '(i, h, l, t, u, p, d) := x in
          {| client_id := i; credential_hash := h; label := l; created_at := t;
             last_seen_at := u; push_subscription := p; client_identities := d |})
    ltac:(by intros []).
Definition stored_code (s : StoredState) : positive :=
  encode (version s, stored_server_id s, stored_client s).
Definition stored_decode (p : positive) : option StoredState :=
  (λ x : N * Uuid * option PairedClient,
     {| version := x.1.1; stored_server_id := x.1.2; stored_client := x.2 |}) <$> decode p.

Fixpoint pos_digits (p : positive) : bytes :=
  match p with
  | xH => []
  | xO p => Byte.x30 :: pos_digits p
  | xI p => Byte.x31 :: pos_digits p
  end.
Fixpoint digits_pos (l : bytes) : positive :=
  match l with
  | Byte.x30 :: l => xO (digits_pos l)
  | Byte.x31 :: l => xI (digits_pos l)
  | _ => xH
  end.

Lemma digits_pos_digits p : digits_pos (pos_digits p ++ [Byte.x0a]) = p.
Proof. induction p as [p IH|p IH|]; cbn; by rewrite ?IH. Qed.

Definition sample_json : StateJson :=
  {| to_vec_pretty := λ s, Some (pos_digits (stored_code s));
     from_slice := λ l, stored_decode (digits_pos l) |}.
#[export] Instance sample_json_spec : StateJsonSpec sample_json.
Proof.
  split. intros [v i c] b. cbn [from_slice to_vec_pretty sample_json]. intros [= <-].
  rewrite digits_pos_digits. unfold stored_decode, stored_code. by rewrite decode_encode.
Qed.

Definition sample_file_store : FileStore :=
  {| path := {| parent := Some (byte_string "/var/lib/witness");
                file_name := Some (byte_string "state.json") |}; files := ∅ |}.

(** The rename succeeds but the directory cannot be synced. *)
Definition late_fault : FileFaults :=
  {| task_runs := true; reads := true; inspects := true; creates_parent := true;
     creates := true; writes := true; finishes := true; syncs := true; renames := true;
     syncs_parent := false; removes := true; partial := 0; umask := 18;
     unique := byte_string "1" |}.

Lemma file_save_atomic_witness :
  file_load (J := sample_json) no_faults
    (file_save (J := sample_json) no_faults (unpaired 7) sample_file_store).1
  = Ok (Some (unpaired 7)).
Proof.
  refine (proj1 (file_save_atomic (J := sample_json) no_faults (unpaired 7) sample_file_store
    _ (Ok tt) (byte_string "state.json") _ eq_refl) eq_refl).
  by vm_compute.
Defined.

(** A reported failure may have taken effect.  If only the final
    synchronisation of the directory fails, [save] reports an error although
    the new state is what the next load finds: a pairing that was reported as
    failed is in force after a restart. *)
Theorem failed_save_may_take_effect `{J : StateJson} `{!StateJsonSpec J} ps s name b p :
  parent (path s) = Some (b :: p) → file_name (path s) = Some name →
  files s !! temporary_name name (unique late_fault) = None →
  is_Some (to_vec_pretty (stored_from ps)) →
  (file_save late_fault ps s).2 = Err CouldNotSyncParent
  ∧ file_load no_faults (file_save late_fault ps s).1 = Ok (Some ps).
Proof.
  intros Hp Hn Ht [b' Hb]. pose proof (temporary_fresh name (unique late_fault)) as Hne.
  unfold file_save. rewrite Hp, Hn. cbn [late_fault task_runs creates_parent negb].
  unfold write_and_replace at 1 2. fold late_fault in *. rewrite Hb.
  rewrite (bool_decide_false (is_Some _)) by (rewrite Ht; by intros [? ?]).
  cbn [late_fault creates writes finishes syncs renames syncs_parent removes negb orb].
  cbn [fst snd]. split; [done|]. eapply (load_written late_fault); [done| |].
  - cbn [unique late_fault umask]. rewrite lookup_delete_ne by done. by rewrite lookup_insert_eq.
  - split; [done|]. by exists b'.
Qed.

Lemma failed_save_may_take_effect_witness :
  (file_save (J := sample_json) late_fault (unpaired 7) sample_file_store).2
  = Err CouldNotSyncParent.
Proof.
  refine (proj1 (failed_save_may_take_effect (J := sample_json) (unpaired 7) sample_file_store
    (byte_string "state.json") _ _ eq_refl eq_refl _ _)); [by vm_compute|by eexists].
Defined.
