(* ===== verification/System.v ===== *)
(** * System: the files, sockets and system calls the server uses

    Models what [agent_socket/file.rs], [control/server.rs] and [push.rs] use of
    [std::fs], of Unix sockets and of [std::path]: the directory entries of the
    machine, the sockets that have a listener, and one operation per call.

    Other processes may act between any two calls and every call may fail: an
    environment [Env] says so for each call, and a run takes one [Env] per call,
    by its number.  A run records what each call met in a trace, and the machine
    before and after its own effect, so that a theorem can speak of what the
    program saw and did at the time of a call. *)

From S2P Require Import Prelude Bytes Utf8 Packet.

(** ** The machine *)

(** [io::ErrorKind], as far as the server distinguishes kinds. *)
Inductive IoError :=
| NotFound
| AlreadyExists
| ConnectionRefused
| AddrInUse
| OtherError (code : N).

Inductive FileKind :=
| Socket
| Regular (contents : bytes)
| Directory
| Symlink (target : rstring).

(** The device and inode numbers of a file. *)
Definition FileId : Type := N * N.

Record Entry := {
  kind : FileKind;
  identity : FileId;
  permissions : N;
}.

Record World := {
  entries : gmap rstring Entry;
  listening : gset (N * N);
}.

#[export] Instance IoError_eq_dec : EqDecision IoError.
Proof. solve_decision. Defined.
#[export] Instance FileKind_eq_dec : EqDecision FileKind.
Proof. solve_decision. Defined.
#[export] Instance FileId_eq_dec : EqDecision FileId := _.
#[export] Instance Entry_eq_dec : EqDecision Entry.
Proof. solve_decision. Defined.

Definition set_entries (m : gmap rstring Entry) (w : World) : World :=
  {| entries := m; listening := listening w |}.
Definition set_listening (l : gset (N * N)) (w : World) : World :=
  {| entries := entries w; listening := l |}.
Definition set_kind (k : FileKind) (e : Entry) : Entry :=
  {| kind := k; identity := identity e; permissions := permissions e |}.
Definition set_mode (m : N) (e : Entry) : Entry :=
  {| kind := kind e; identity := identity e; permissions := m |}.

(** [FileTypeExt::is_socket] *)
Definition is_socket (e : Entry) : bool := bool_decide (kind e = Socket).

(** A path as [std::path::Path] shows it: its text and its [parent()]. *)
Record Path := {
  text : rstring;
  parent : option rstring;
}.

(** The number of symbolic links the system follows in one lookup. *)
Definition MAXSYMLINKS : nat := 40.
Fixpoint follow (links : nat) (w : World) (p : rstring) : result (rstring * Entry) IoError :=
  match entries w !! p with
  | None => Err NotFound
  | Some e =>
      match kind e, links with
      | Symlink target, S links => follow links w target
      | Symlink _, O => Err (OtherError 40)
      | _, _ => Ok (p, e)
      end
  end.

(** Nothing is followed at an entry that is no link. *)
Lemma follow_direct n w p e :
  entries w !! p = Some e → (∀ t, kind e ≠ Symlink t) → follow n w p = Ok (p, e).
Proof. intros He Hk. destruct n; simpl; rewrite He; destruct (kind e) eqn:?; naive_solver. Qed.
#[global] Arguments follow : simpl never.
#[global] Arguments N.ldiff : simpl never.
#[global] Arguments N.land : simpl never.

(** ** Runs *)

(** How the machine behaves around one call: what other processes do before it,
    whether it fails (before or after taking effect), how much of a failing
    write reaches the file, the identity of a file the call creates, and the
    process's umask. *)
Record Env := {
  interference : World → World;
  failure : option IoError;
  late : bool;
  partial : nat;
  fresh : FileId;
  umask : N;
}.

(** What a call met. *)
Inductive Event :=
| IsDir (path : rstring) (answer : bool)
| Inspected (path : rstring) (answer : result Entry IoError)
| Connected (path : rstring) (answer : result unit IoError)
| Bound (path : rstring) (answer : result FileId IoError)
| SetPermissions (path : rstring) (mode : N) (answer : result unit IoError)
| Removed (path : rstring) (answer : result Entry IoError)
| Closed (id : FileId)
| Opened (path : rstring) (answer : result FileId IoError)
| Read (path : rstring) (answer : result bytes IoError)
| Wrote (id : FileId) (answer : result unit IoError)
| Synced (answer : result unit IoError)
| MadeDirs (path : rstring) (answer : result unit IoError).

Record Machine := {
  world : World;
  calls : nat;
  trace : list Event;
  steps : list (World * World);
}.

(** A program of the server: it runs in an environment per call. *)
Definition Sys (A : Type) : Type := (nat → Env) → Machine → A * Machine.

Definition ret {A} (a : A) : Sys A := λ _ s, (a, s).
Definition sys_bind {A B} (m : Sys A) (k : A → Sys B) : Sys B :=
  λ env s, let '(a, s) := m env s in k a env s.

Notation "'let!' x ':=' e 'in' k" := (sys_bind e (fun x => k))
  (at level 10, x pattern at level 0, e at level 200, k at level 200) : rust_scope.

(** [?] in a function that makes system calls. *)
Definition sys_try {A B E} (m : Sys (result A E)) (k : A → Sys (result B E)) :
    Sys (result B E) :=
  let! r := m in
  match r with
  | Ok a => k a
  | Err e => ret (Err e)
  end.

Notation "'let!?' x ':=' e 'in' k" := (sys_try e (fun x => k))
  (at level 10, x pattern at level 0, e at level 200, k at level 200) : rust_scope.

Definition sys_map_err {A E F} (f : E → F) (m : Sys (result A E)) : Sys (result A F) :=
  let! r := m in ret (map_err f r).

(** One call: other processes first, then the call itself. *)
Definition call {A} (event : A → Event) (effect : Env → World → A * World) : Sys A :=
  λ env s,
    let e := env (calls s) in
    let w := interference e (world s) in
    let '(a, w') := effect e w in
    (a, {| world := w'; calls := S (calls s); trace := trace s ++ [event a];
           steps := steps s ++ [(w, w')] |}).

(** A call that fails as a whole or has its effect. *)
Definition fallible {A} (effect : Env → World → result A IoError * World)
    (e : Env) (w : World) : result A IoError * World :=
  match failure e with
  | Some error => (Err error, if late e then (effect e w).2 else w)
  | None => effect e w
  end.
Definition query {A} (f : World → result A IoError) (e : Env) (w : World) :
    result A IoError * World :=
  fallible (λ _ w, (f w, w)) e w.

(** ** Calls *)

(** [Path::is_dir] *)
Definition is_dir (p : rstring) : Sys bool :=
  call (IsDir p) (λ e w,
    (match failure e, follow MAXSYMLINKS w p with
     | None, Ok (_, d) => bool_decide (kind d = Directory)
     | _, _ => false
     end, w)).

(** [fs::symlink_metadata] *)
Definition symlink_metadata (p : rstring) : Sys (result Entry IoError) :=
  call (Inspected p) (query (λ w, ok_or (entries w !! p) NotFound)).

(** [fs::metadata] *)
Definition metadata (p : rstring) : Sys (result Entry IoError) :=
  call (Inspected p) (query (λ w, let? (_, e) := follow MAXSYMLINKS w p in Ok e)).

(** [UnixStream::connect]: what is reached must be a socket with a listener. *)
Definition connect (p : rstring) : Sys (result unit IoError) :=
  call (Connected p) (query (λ w,
    let? (_, e) := follow MAXSYMLINKS w p in
    if is_socket e && bool_decide (identity e ∈ listening w) then Ok tt
    else Err ConnectionRefused)).

(** [UnixListener::bind]: creates the entry and listens on it. *)
Definition unix_bind (p : rstring) : Sys (result FileId IoError) :=
  call (Bound p) (fallible (λ e w,
    match entries w !! p with
    | Some _ => (Err AddrInUse, w)
    | None =>
        let entry := {| kind := Socket; identity := fresh e;
                        permissions := N.ldiff 511 (umask e) |} in
        (Ok (fresh e),
         {| entries := <[p := entry]> (entries w);
            listening := if failure e then listening w else {[fresh e]} ∪ listening w |})
    end)).

(** [fs::set_permissions(path, Permissions::from_mode(mode))] *)
Definition set_permissions (p : rstring) (mode : N) : Sys (result unit IoError) :=
  call (SetPermissions p mode) (fallible (λ _ w,
    match follow MAXSYMLINKS w p with
    | Err e => (Err e, w)
    | Ok (q, e) => (Ok tt, set_entries (<[q := set_mode (N.land mode 4095) e]> (entries w)) w)
    end)).

(** [fs::remove_file]: also removes a symbolic link, never a directory; the
    answer in the trace is what was removed. *)
Definition remove_file (p : rstring) : Sys (result Entry IoError) :=
  call (Removed p) (fallible (λ _ w,
    match entries w !! p with
    | None => (Err NotFound, w)
    | Some e =>
        if decide (kind e = Directory) then (Err (OtherError 21), w)
        else (Ok e, set_entries (delete p (entries w)) w)
    end)).

(** Dropping a listener. *)
Definition close_listener (id : FileId) : Sys unit :=
  call (λ _, Closed id) (λ _ w, (tt, set_listening (listening w ∖ {[id]}) w)).

(** [fs::read] *)
Definition read (p : rstring) : Sys (result bytes IoError) :=
  call (Read p) (query (λ w,
    let? (_, e) := follow MAXSYMLINKS w p in
    match kind e with
    | Regular contents => Ok contents
    | _ => Err (OtherError 21)
    end)).

(** [fs::create_dir_all], as far as the directory itself is concerned. *)
Definition create_dir_all (p : rstring) : Sys (result unit IoError) :=
  call (MadeDirs p) (fallible (λ e w,
    match follow MAXSYMLINKS w p with
    | Ok (_, d) => (if decide (kind d = Directory) then Ok tt else Err AlreadyExists, w)
    | Err NotFound =>
        match entries w !! p with
        | Some _ => (Err AlreadyExists, w)
        | None =>
            (Ok tt, set_entries (<[p := {| kind := Directory; identity := fresh e;
                                           permissions := N.ldiff 511 (umask e) |}]> (entries w)) w)
        end
    | Err error => (Err error, w)
    end)).

(** [OpenOptions::new().write(true).create_new(true).mode(mode).open(path)] *)
Definition create_new (p : rstring) (mode : N) : Sys (result FileId IoError) :=
  call (Opened p) (fallible (λ e w,
    match entries w !! p with
    | Some _ => (Err AlreadyExists, w)
    | None =>
        (Ok (fresh e),
         set_entries (<[p := {| kind := Regular []; identity := fresh e;
                                permissions := N.ldiff mode (umask e) |}]> (entries w)) w)
    end)).

(** Append to the file with this identity, wherever its entry is now. *)
Definition append_to (id : FileId) (b : bytes) (w : World) : World :=
  set_entries
    ((λ e, match kind e with
           | Regular contents =>
               if decide (identity e = id) then set_kind (Regular (contents ++ b)) e else e
           | _ => e
           end) <$> entries w) w.

(** [Write::write_all] to an open file: a failing write may leave a prefix. *)
Definition write_all (id : FileId) (b : bytes) : Sys (result unit IoError) :=
  call (Wrote id) (λ e w,
    match failure e with
    | Some error => (Err error, append_to id (take (partial e) b) w)
    | None => (Ok tt, append_to id b w)
    end).

(** [File::sync_all] *)
Definition sync_all : Sys (result unit IoError) := call Synced (query (λ _, Ok tt)).

(** [fs::File::open] of a directory *)
Definition open_dir (p : rstring) : Sys (result FileId IoError) :=
  call (Opened p) (query (λ w, let? (_, e) := follow MAXSYMLINKS w p in Ok (identity e))).
