(* ===== verification/SocketFile.v ===== *)
(** * SocketFile: claiming and releasing the path of a Unix socket

    Models [crates/server/src/agent_socket/file.rs], [AgentSocket::bind] of
    [agent_socket/mod.rs], and their counterparts in
    [crates/server/src/control/server.rs] ([ControlSocket::bind], [prepare_path]
    and the second [SocketFile]), over the calls of [System]. *)

From S2P Require Import Prelude Bytes Utf8 Packet System.

(** ** The SSH-agent socket *)

Record PathIoError := {
  failed_path : rstring;
  source : IoError;
}.

Inductive AgentSocketError :=
| MissingParent (directory : rstring)
| NotSocket (path : rstring)
| AlreadyActive (path : rstring)
| Probe (error : PathIoError)
| Changed (path : rstring)
| Metadata (error : PathIoError)
| RemoveStale (error : PathIoError)
| Bind (error : PathIoError)
| Permissions (error : PathIoError)
| Accept (source : IoError).

Record SocketFile := {
  path : Path;
  device : N;
  inode : N;
}.

(** A listener is named by the socket it listens on. *)
Record AgentSocket := {
  listener : FileId;
  file : SocketFile;
  max_packet_size : N;
}.

(** [path.parent().filter(non-empty).unwrap_or(".")] *)
Definition parent_or_dot (p : Path) : rstring :=
  match parent p with
  | Some [] | None => byte_string "."
  | Some directory => directory
  end.

Definition path_error (p : Path) (error : IoError) : PathIoError :=
  {| failed_path := text p; source := error |}.

(** [prepare_path] *)
Definition prepare_path (p : Path) : Sys (result unit AgentSocketError) :=
  let! directory := is_dir (parent_or_dot p) in
  if negb directory then ret (Err (MissingParent (parent_or_dot p)))
  else
    let! found := symlink_metadata (text p) in
    match found with
    | Err NotFound => ret (Ok tt)
    | Err error => ret (Err (Metadata (path_error p error)))
    | Ok metadata =>
        if negb (is_socket metadata) then ret (Err (NotSocket (text p)))
        else
          let! probe := connect (text p) in
          match probe with
          | Ok _ => ret (Err (AlreadyActive (text p)))
          | Err ConnectionRefused =>
              let!? current :=
                sys_map_err (λ e, Metadata (path_error p e)) (symlink_metadata (text p)) in
              if negb (bool_decide ((identity current).1 = (identity metadata).1))
                 || negb (bool_decide ((identity current).2 = (identity metadata).2))
              then ret (Err (Changed (text p)))
              else
                let!? _ := sys_map_err (λ e, RemoveStale (path_error p e))
                             (remove_file (text p)) in
                ret (Ok tt)
          | Err error => ret (Err (Probe (path_error p error)))
          end
    end.

(** [SocketFile::bind]; the listener is dropped when it returns an error. *)
Definition bind (p : Path) (mode : N) : Sys (result (SocketFile * FileId) AgentSocketError) :=
  let!? _ := prepare_path p in
  let!? bound := sys_map_err (λ e, Bind (path_error p e)) (unix_bind (text p)) in
  let! permitted := set_permissions (text p) mode in
  match permitted with
  | Err error =>
      let! _ := remove_file (text p) in
      let! _ := close_listener bound in
      ret (Err (Permissions (path_error p error)))
  | Ok _ =>
      let! found := symlink_metadata (text p) in
      match found with
      | Err error =>
          let! _ := close_listener bound in
          ret (Err (Metadata (path_error p error)))
      | Ok metadata =>
          ret (Ok ({| path := p; device := (identity metadata).1;
                      inode := (identity metadata).2 |}, bound))
      end
  end.

(** [Drop for SocketFile] *)
Definition drop_file (f : SocketFile) : Sys unit :=
  let! found := symlink_metadata (text (path f)) in
  match found with
  | Err _ => ret tt
  | Ok metadata =>
      if is_socket metadata
         && bool_decide ((identity metadata).1 = device f)
         && bool_decide ((identity metadata).2 = inode f)
      then let! _ := remove_file (text (path f)) in ret tt
      else ret tt
  end.

(** [AgentSocket::bind] *)
Definition agent_socket_bind (p : Path) (mode max : N) :
    Sys (result AgentSocket AgentSocketError) :=
  let!? (f, l) := bind p mode in
  ret (Ok {| listener := l; file := f; max_packet_size := max |}).

(** An [AgentSocket] going out of scope: its fields are dropped in order. *)
Definition drop_agent_socket (s : AgentSocket) : Sys unit :=
  let! _ := close_listener (listener s) in
  drop_file (file s).

(** ** The control socket *)

(** The context an [anyhow] error of the control socket's file carries. *)
Inductive ControlSocketError :=
| ParentDoesNotExist (directory : rstring)
| CouldNotInspect (path : rstring) (cause : IoError)
| NonSocketPath (path : rstring)
| AnotherServer (path : rstring)
| CouldNotProbe (path : rstring) (cause : IoError)
| SocketChanged
| CouldNotRemoveStale (path : rstring) (cause : IoError)
| CouldNotBind (path : rstring) (cause : IoError)
| CouldNotSetPermissions (path : rstring) (cause : IoError).

Record ControlSocket := {
  control_listener : FileId;
  control_file : SocketFile;
}.

(** [prepare_path] *)
Definition control_prepare_path (p : Path) : Sys (result unit ControlSocketError) :=
  let! directory := is_dir (parent_or_dot p) in
  if negb directory then ret (Err (ParentDoesNotExist (parent_or_dot p)))
  else
    let! found := symlink_metadata (text p) in
    match found with
    | Err NotFound => ret (Ok tt)
    | Err error => ret (Err (CouldNotInspect (text p) error))
    | Ok metadata =>
        if negb (is_socket metadata) then ret (Err (NonSocketPath (text p)))
        else
          let! probe := connect (text p) in
          match probe with
          | Ok _ => ret (Err (AnotherServer (text p)))
          | Err ConnectionRefused =>
              let!? current := sys_map_err (CouldNotInspect (text p)) (symlink_metadata (text p)) in
              if negb (bool_decide ((identity current).1 = (identity metadata).1))
                 || negb (bool_decide ((identity current).2 = (identity metadata).2))
              then ret (Err SocketChanged)
              else
                let!? _ := sys_map_err (CouldNotRemoveStale (text p)) (remove_file (text p)) in
                ret (Ok tt)
          | Err error => ret (Err (CouldNotProbe (text p) error))
          end
    end.

(** [ControlSocket::bind] *)
Definition control_bind (p : Path) (mode : N) : Sys (result ControlSocket ControlSocketError) :=
  let!? _ := control_prepare_path p in
  let!? bound := sys_map_err (CouldNotBind (text p)) (unix_bind (text p)) in
  let! permitted := set_permissions (text p) mode in
  match permitted with
  | Err error =>
      let! _ := remove_file (text p) in
      let! _ := close_listener bound in
      ret (Err (CouldNotSetPermissions (text p) error))
  | Ok _ =>
      let! found := symlink_metadata (text p) in
      match found with
      | Err error =>
          let! _ := close_listener bound in
          ret (Err (CouldNotInspect (text p) error))
      | Ok metadata =>
          ret (Ok {| control_listener := bound;
                     control_file := {| path := p; device := (identity metadata).1;
                                        inode := (identity metadata).2 |} |})
      end
  end.

(** [Drop for SocketFile]: the same guard as the agent socket's. *)
Definition control_drop_file (f : SocketFile) : Sys unit :=
  let! found := symlink_metadata (text (path f)) in
  match found with
  | Err _ => ret tt
  | Ok metadata =>
      if is_socket metadata
         && bool_decide ((identity metadata).1 = device f)
         && bool_decide ((identity metadata).2 = inode f)
      then let! _ := remove_file (text (path f)) in ret tt
      else ret tt
  end.

(** A [ControlSocket] going out of scope. *)
Definition drop_control_socket (s : ControlSocket) : Sys unit :=
  let! _ := close_listener (control_listener s) in
  control_drop_file (control_file s).
