(* ===== verification/SocketFileProps.v ===== *)
(** * SocketFileProps: a socket path is claimed without harming others

    Properties of [SocketFile] on every branch, under failing calls and under
    the interference of other processes. *)

From S2P Require Import Prelude Bytes Utf8 Packet System SocketFile.

(** ** Environments *)

(** No other process acts during the run. *)
Definition undisturbed (env : nat → Env) : Prop := ∀ i w, interference (env i) w = w.
(** Nor does any call fail. *)
Definition calm (env : nat → Env) : Prop := undisturbed env ∧ ∀ i, failure (env i) = None.
(** A connection is refused only by the absence of a listener (connect(2)). *)
Definition honest (env : nat → Env) : Prop := ∀ i, failure (env i) ≠ Some ConnectionRefused.

(** Unfold the calls of a program to one step per call. *)
Ltac sys_unfold :=
  unfold sys_try, sys_map_err, symlink_metadata, connect, unix_bind, set_permissions,
    remove_file, close_listener, is_dir, query, call, sys_bind, ret.

Lemma socket_not_link e t : is_socket e = true → kind e ≠ Symlink t.
Proof. unfold is_socket. case_bool_decide; congruence. Qed.

(** ** What binding does on a calm machine *)

(** The parent directory of a path exists. *)
Definition has_parent (w : World) (p : Path) : bool :=
  match follow MAXSYMLINKS w (parent_or_dot p) with
  | Ok (_, d) => bool_decide (kind d = Directory)
  | Err _ => false
  end.

(** Why a path cannot be claimed, if so. *)
Definition obstacle (w : World) (p : Path) : option AgentSocketError :=
  if negb (has_parent w p) then Some (MissingParent (parent_or_dot p))
  else
    match entries w !! text p with
    | None => None
    | Some e =>
        if negb (is_socket e) then Some (NotSocket (text p))
        else if bool_decide (identity e ∈ listening w) then Some (AlreadyActive (text p))
        else None
    end.

(** The machine once the path is claimed. *)
Definition claimed (w : World) (p : Path) (mode : N) (id : FileId) : World :=
  {| entries := <[text p := {| kind := Socket; identity := id;
                               permissions := N.land mode 4095 |}]> (entries w);
     listening := {[id]} ∪ listening w |}.

Definition owned (p : Path) (id : FileId) : SocketFile :=
  {| path := p; device := id.1; inode := id.2 |}.

Section calm.
Context (env : nat → Env) (Hcalm : calm env).

Lemma calm_call {A} (ev : A → Event) f s :
  call ev f env s
  = (let '(a, w) := f (env (calls s)) (world s) in
     (a, {| world := w; calls := S (calls s); trace := trace s ++ [ev a];
            steps := steps s ++ [(world s, w)] |})).
Proof. unfold call. by rewrite (proj1 Hcalm). Qed.

Lemma calm_query {A} (ev : result A IoError → Event) (f : World → result A IoError) s :
  call ev (query f) env s
  = (f (world s), {| world := world s; calls := S (calls s);
                     trace := trace s ++ [ev (f (world s))];
                     steps := steps s ++ [(world s, world s)] |}).
Proof. rewrite calm_call. unfold query, fallible. by rewrite (proj2 Hcalm). Qed.

Lemma calm_fallible {A} (ev : result A IoError → Event) f s :
  call ev (fallible f) env s
  = (let '(a, w) := f (env (calls s)) (world s) in
     (a, {| world := w; calls := S (calls s); trace := trace s ++ [ev a];
            steps := steps s ++ [(world s, w)] |})).
Proof. rewrite calm_call. unfold fallible. by rewrite (proj2 Hcalm). Qed.

Lemma calm_prepare p s :
  let '(r, s') := prepare_path p env s in
  match obstacle (world s) p with
  | Some e => r = Err e ∧ world s' = world s
  | None => r = Ok tt ∧ world s' = set_entries (delete (text p) (entries (world s))) (world s)
  end.
Proof.
  unfold prepare_path, obstacle, is_dir, sys_bind at 1. rewrite calm_call, (proj2 Hcalm).
  fold (has_parent (world s) p).
  destruct (has_parent (world s) p); [|done]. cbn [negb].
  unfold symlink_metadata at 1, sys_bind at 1. rewrite calm_query. cbn [world].
  destruct (entries (world s) !! text p) as [e|] eqn:He; cbn [ok_or].
  2: { split; [done|]. cbn. destruct (world s). unfold set_entries. cbn in *.
       by rewrite delete_id. }
  destruct (is_socket e) eqn:Hs; [|done]. cbn [negb].
  unfold connect, sys_bind at 1. rewrite calm_query. cbn [world].
  rewrite (follow_direct _ _ _ e) by eauto using socket_not_link. cbn [try_bind].
  rewrite Hs. cbn [andb]. case_bool_decide; [done|].
  unfold sys_try at 1, sys_map_err at 1, sys_bind at 1 2, symlink_metadata. rewrite calm_query.
  cbn [world ret]. rewrite He. cbn [ok_or map_err]. rewrite !bool_decide_true by done. cbn [negb orb].
  unfold sys_try, sys_map_err, sys_bind, remove_file. rewrite calm_fallible. cbn [world].
  rewrite He. destruct (decide _) as [Hd|]; [|done].
  unfold is_socket in Hs. case_bool_decide; congruence.
Qed.

Lemma calm_bind p mode s :
  let '(r, s') := bind p mode env s in
  match obstacle (world s) p with
  | Some e => r = Err e ∧ world s' = world s
  | None => ∃ i, r = Ok (owned p (fresh (env i)), fresh (env i))
                 ∧ world s' = claimed (world s) p mode (fresh (env i))
  end.
Proof.
  unfold bind, sys_try at 1, sys_bind at 1. pose proof (calm_prepare p s) as H.
  destruct (prepare_path p env s) as [r s1]. destruct (obstacle (world s) p) as [e|].
  { by destruct H as [-> H]. }
  destruct H as [-> H].
  unfold sys_try, sys_map_err, sys_bind at 1 2, unix_bind. rewrite calm_fallible, (proj2 Hcalm), H.
  cbn [set_entries entries listening]. rewrite lookup_delete_eq.
  unfold ret. cbn [map_err]. unfold sys_bind at 1, set_permissions.
  rewrite calm_fallible. cbn [world].
  erewrite follow_direct; [|cbn; by rewrite lookup_insert_eq|done].
  unfold sys_bind, symlink_metadata. rewrite calm_query. cbn [world set_entries entries].
  rewrite lookup_insert_eq. cbn [ok_or]. eexists. split; [done|].
  cbn. unfold claimed. f_equal. by rewrite insert_insert_eq, insert_delete_eq.
Qed.
End calm.

(** ** Removals, whatever else happens on the machine *)

(** What justifies removing [q], the answer [a] being met at call [n] after the
    calls [seen] (newest first): a socket that refused a connection and still
    had its identity, or a socket just bound whose mode could not be set.  If
    nothing happens meanwhile, that socket is what is removed. *)
Definition justified (p : Path) (env : nat → Env) (n : nat) (seen : list Event)
    (q : rstring) (a : result Entry IoError) : Prop :=
  q = text p ∧
  match seen with
  | Inspected q1 (Ok current) :: Connected q2 (Err ConnectionRefused)
      :: Inspected q3 (Ok first) :: _ =>
      q1 = q ∧ q2 = q ∧ q3 = q ∧ is_socket first = true ∧ identity current = identity first
      ∧ ((∀ w, interference (env n) w = w) → ∀ e, a = Ok e → e = current)
  | SetPermissions q1 _ (Err _) :: Bound q2 (Ok id) :: _ =>
      q1 = q ∧ q2 = q
      ∧ ((∀ w, interference (env (pred n)) w = w) → (∀ w, interference (env n) w = w) →
         ∀ e, a = Ok e → is_socket e = true ∧ identity e = id)
  | _ => False
  end.

(** Every removal among the calls [l], made after the calls [seen]. *)
Fixpoint removals_justified (p : Path) (env : nat → Env) (n : nat) (seen l : list Event) : Prop :=
  match l with
  | [] => True
  | event :: l =>
      (match event with Removed q a => justified p env n seen q a | _ => True end)
      ∧ removals_justified p env (S n) (event :: seen) l
  end.

Lemma removals_justified_app p env n seen l1 l2 :
  removals_justified p env n seen l1 →
  removals_justified p env (n + length l1) (rev l1 ++ seen) l2 →
  removals_justified p env n seen (l1 ++ l2).
Proof.
  revert n seen. induction l1 as [|ev l1 IH]; intros n seen; cbn [app length rev].
  - by rewrite Nat.add_0_r.
  - intros [Hev H1] H2. split; [done|]. apply IH; [done|].
    rewrite <- app_assoc in H2. by replace (S n + length l1) with (n + S (length l1)) by lia.
Qed.

(** One call appends one event. *)
Lemma call_trace {A} (ev : A → Event) f env s a s' :
  call ev f env s = (a, s') →
  trace s' = trace s ++ [ev a] ∧ calls s' = S (calls s)
  ∧ (a, world s') = f (env (calls s)) (interference (env (calls s)) (world s)).
Proof. unfold call. destruct (f _ _) as [b w]. by intros [= <- <-]. Qed.

Lemma identity_eq (a b : FileId) : a.1 = b.1 → a.2 = b.2 → a = b.
Proof. destruct a, b. by intros; simplify_eq/=. Qed.

(** Split the next call off a run. *)
Ltac next_call :=
  cbn beta iota in *;
  match goal with
  | H : context [call ?ev ?f ?env ?s] |- _ =>
      let E := fresh "E" in
      let T := fresh "T" in
      let N := fresh "N" in
      let W := fresh "W" in
      destruct (call ev f env s) as [? ?] eqn:E;
      apply call_trace in E as (T & N & W)
  end.

(** What a removal met, when nothing happened since the last inspection. *)
Lemma removed_is_inspected (env : nat → Env) e1 e2 w w1 w2 q current e :
  (∀ w, interference (env e2) w = w) →
  (Ok current, w1) = query (λ w, ok_or (entries w !! q) NotFound) e1 w →
  (Ok e, w2) = fallible (λ _ w,
    match entries w !! q with
    | None => (Err NotFound, w)
    | Some e =>
        if decide (kind e = Directory) then (Err (OtherError 21), w)
        else (Ok e, set_entries (delete q (entries w)) w)
    end) (env e2) (interference (env e2) w1) → e = current.
Proof.
  intros -> H1 H2. unfold query, fallible in *.
  destruct (failure e1); [done|]. destruct (failure (env e2)); [done|]. simplify_eq/=.
  destruct (entries w !! q) eqn:E; simplify_eq/=. by destruct (decide _); simplify_eq/=.
Qed.

(** What a removal met, when nothing happened since the socket was bound. *)
Lemma removed_is_bound (env : nat → Env) e0 e1 e2 w0 w1 w2 w3 q mode id x e :
  (∀ w, interference (env e1) w = w) → (∀ w, interference (env e2) w = w) →
  (Ok id, w1) = fallible (λ e w,
    match entries w !! q with
    | Some _ => (Err AddrInUse, w)
    | None =>
        let entry := {| kind := Socket; identity := fresh e;
                        permissions := N.ldiff 511 (umask e) |} in
        (Ok (fresh e),
         {| entries := <[q := entry]> (entries w);
            listening := if failure e then listening w else {[fresh e]} ∪ listening w |})
    end) e0 w0 →
  (Err x, w2) = fallible (λ _ w,
    match follow MAXSYMLINKS w q with
    | Err e => (Err e, w)
    | Ok (q, e) => (Ok tt, set_entries (<[q := set_mode (N.land mode 4095) e]> (entries w)) w)
    end) (env e1) (interference (env e1) w1) →
  (Ok e, w3) = fallible (λ _ w,
    match entries w !! q with
    | None => (Err NotFound, w)
    | Some e =>
        if decide (kind e = Directory) then (Err (OtherError 21), w)
        else (Ok e, set_entries (delete q (entries w)) w)
    end) (env e2) (interference (env e2) w2) → is_socket e = true ∧ identity e = id.
Proof.
  intros -> -> H1 H2 H3. unfold fallible in H1, H2, H3.
  destruct (failure e0); [done|]. destruct (entries w0 !! q); simplify_eq/=.
  erewrite follow_direct in H2; [|cbn; by rewrite lookup_insert_eq|done].
  destruct (failure (env e2)); [done|].
  destruct (failure (env e1)); [|done]. destruct (late (env e1)); simplify_eq/=;
    rewrite lookup_insert_eq in H3; by simplify_eq/=.
Qed.

(** The calls made so far, as one list. *)
Ltac traced :=
  eexists; repeat split;
  [ repeat match goal with T : trace _ = _ |- _ => rewrite T; clear T end;
    by rewrite <- ?app_assoc
  | .. ]; cbn; try lia; try done.

Lemma prepare_path_removals p env s r s' :
  prepare_path p env s = (r, s') →
  ∃ l, trace s' = trace s ++ l ∧ calls s' = calls s + length l
       ∧ removals_justified p env (calls s) [] l.
Proof.
  intros H. unfold prepare_path, sys_try, sys_map_err, sys_bind, ret in H.
  unfold is_dir in H. next_call. destruct b; cbn [negb] in H; simplify_eq; [|traced].
  unfold symlink_metadata at 1 in H. next_call. destruct r0 as [first|[]]; simplify_eq; try traced.
  destruct (is_socket first) eqn:Hfirst; cbn [negb] in H; simplify_eq; [|traced].
  unfold connect in H. next_call. destruct r0 as [|[]]; simplify_eq; try traced.
  unfold symlink_metadata in H. next_call. destruct r0 as [current|]; simplify_eq/=; [|traced].
  destruct (negb _ || negb _) eqn:Hid; simplify_eq; [traced|].
  apply orb_false_iff in Hid as [Hdev Hino].
  apply negb_false_iff, bool_decide_eq_true in Hdev, Hino.
  unfold remove_file in H. next_call.
  assert (s' = m3) as -> by (destruct r0; by simplify_eq/=).
  traced. do 4 (split; [done|]). split; [|done]. unfold justified.
  repeat (split; [by eauto using identity_eq|]). intros Hq e ->.
  replace (S (S (S (S (calls s))))) with (calls m2) in Hq by lia.
  eauto using removed_is_inspected.
Qed.

Lemma bind_removals p mode env s r s' :
  bind p mode env s = (r, s') →
  ∃ l, trace s' = trace s ++ l ∧ removals_justified p env (calls s) [] l.
Proof.
  intros H. unfold bind, sys_try at 1, sys_bind at 1 in H.
  destruct (prepare_path p env s) as [r1 s1] eqn:E.
  apply prepare_path_removals in E as (l & T & N & R).
  destruct r1; [|by injection H as <- <-; eauto].
  enough (∃ l', trace s' = trace s1 ++ l'
                ∧ removals_justified p env (calls s1) (rev l) l') as (l' & T' & R').
  { exists (l ++ l'). rewrite T', T, app_assoc. split; [done|].
    apply removals_justified_app; [done|]. by rewrite app_nil_r, <- N. }
  clear T N R. unfold sys_try, sys_map_err, sys_bind, ret in H.
  unfold unix_bind in H. next_call. destruct r0; cbn [map_err] in H; simplify_eq; [|traced].
  unfold set_permissions in H. next_call. destruct r0.
  - unfold symlink_metadata in H. next_call.
    destruct r0; [|unfold close_listener in H; next_call]; simplify_eq; traced.
  - unfold remove_file, close_listener in H. next_call. next_call. simplify_eq. traced.
    do 2 (split; [done|]). split; [|done]. unfold justified. do 3 (split; [done|]).
    intros H1 H2 e ->. cbn [pred] in H1.
    replace (S (calls s1)) with (calls m) in * by lia.
    replace (S (calls m)) with (calls m0) in * by lia.
    eauto using removed_is_bound.
Qed.

(** ** Failing calls *)

Lemma query_world {A} (f : World → result A IoError) e w a w' :
  (a, w') = query f e w → w' = w.
Proof. unfold query, fallible. destruct (failure e), (late e); intros; by simplify_eq/=. Qed.

Lemma query_ok {A} (f : World → result A IoError) e w a w' :
  (Ok a, w') = query f e w → f w = Ok a.
Proof. unfold query, fallible. destruct (failure e); intros; by simplify_eq/=. Qed.

Lemma query_err {A} (f : World → result A IoError) e w x w' :
  (Err x, w') = query f e w → failure e = Some x ∨ f w = Err x.
Proof. unfold query, fallible. destruct (failure e); intros; simplify_eq/=; auto. Qed.

Lemma ok_or_ok {A E} (o : option A) (e : E) a : ok_or o e = Ok a → o = Some a.
Proof. destruct o; simpl; congruence. Qed.

Lemma fallible_world {A} (f : Env → World → result A IoError * World) e w a w' :
  (a, w') = fallible f e w → w' = w ∨ w' = (f e w).2.
Proof.
  unfold fallible. destruct (failure e); [destruct (late e)|]; intros; simplify_eq; auto.
  right. by match goal with H : _ = f e w |- _ => rewrite <- H end.
Qed.

Lemma fallible_ok {A} (f : Env → World → result A IoError * World) e w a w' :
  (Ok a, w') = fallible f e w → failure e = None ∧ f e w = (Ok a, w').
Proof. unfold fallible. destruct (failure e); intros; by simplify_eq. Qed.

Lemma remove_file_world p (e : Env) w :
  let w' := (match entries w !! p with
             | None => (Err NotFound, w)
             | Some x =>
                 if decide (kind x = Directory) then (Err (OtherError 21), w)
                 else (Ok x, set_entries (delete p (entries w)) w)
             end).2 in
  w' = w ∨ w' = set_entries (delete p (entries w)) w.
Proof. cbn. repeat case_match; auto. Qed.

(** Only the entry at [p] differs, and the listeners do not. *)
Definition same_but (p : rstring) (w w' : World) : Prop :=
  (∀ q, q ≠ p → entries w' !! q = entries w !! q) ∧ listening w' = listening w.

#[export] Instance same_but_preorder p : PreOrder (same_but p).
Proof.
  split; [by split|]. intros w1 w2 w3 [H1 L1] [H2 L2]. split; [|congruence].
  intros q Hq. rewrite H2, H1; done.
Qed.

Lemma same_but_insert p e w : same_but p w (set_entries (<[p := e]> (entries w)) w).
Proof. split; [|done]. intros q Hq. cbn. by rewrite lookup_insert_ne. Qed.

Lemma same_but_delete p w : same_but p w (set_entries (delete p (entries w)) w).
Proof. split; [|done]. intros q Hq. cbn. by rewrite lookup_delete_ne. Qed.

Section undisturbed.
Context (env : nat → Env) (Hund : undisturbed env) (Hhonest : honest env).

(** Preparing a path at most removes a socket nobody listens on. *)
Lemma prepare_path_world p s r s' :
  prepare_path p env s = (r, s') →
  world s' = world s
  ∨ ∃ e, entries (world s) !! text p = Some e ∧ is_socket e = true
         ∧ identity e ∉ listening (world s)
         ∧ world s' = set_entries (delete (text p) (entries (world s))) (world s).
Proof.
  intros H. unfold prepare_path, sys_try, sys_map_err, sys_bind, ret in H.
  unfold is_dir in H. next_call. rewrite Hund in W. injection W as _ W.
  destruct b; cbn [negb] in H; simplify_eq; [|by left].
  unfold symlink_metadata at 1 in H. next_call. rewrite Hund, W in W0.
  pose proof (query_world _ _ _ _ _ W0) as Hm0.
  destruct r0 as [first|[]]; simplify_eq; auto.
  apply query_ok, ok_or_ok in W0 as Hfirst.
  destruct (is_socket first) eqn:Hs; cbn [negb] in H; simplify_eq; auto.
  unfold connect in H. next_call. rewrite Hund, Hm0 in W1.
  pose proof (query_world _ _ _ _ _ W1) as Hm1.
  destruct r0 as [|[]]; simplify_eq; auto.
  assert (identity first ∉ listening (world s)) as Hidle.
  { apply query_err in W1 as [F|W1]; [by destruct (Hhonest _ F)|].
    rewrite (follow_direct _ _ _ first) in W1 by eauto using socket_not_link.
    cbn [try_bind] in W1. rewrite Hs in W1. cbn [andb] in W1. by case_bool_decide. }
  unfold symlink_metadata in H. next_call. rewrite Hund, Hm1 in W2.
  apply query_world in W2 as Hm2.
  destruct r0; cbn [map_err] in H; simplify_eq; auto.
  destruct (negb _ || negb _); simplify_eq; auto.
  unfold remove_file in H. next_call. rewrite Hund, Hm2 in W3.
  assert (s' = m3) as -> by (destruct r0; by simplify_eq/=).
  destruct (fallible_world _ _ _ _ _ W3) as [->| ->]; [by left|].
  destruct (remove_file_world (text p) (env (calls m2)) (world s)) as [->| ->];
    [by left|right; by exists first].
Qed.

Lemma remove_file_same_but p s a s' :
  remove_file p env s = (a, s') →
  same_but p (world s) (world s')
  ∧ (entries (world s') !! p = entries (world s) !! p ∨ entries (world s') !! p = None).
Proof.
  unfold remove_file. intros (T & N & W)%call_trace. rewrite Hund in W.
  destruct (fallible_world _ _ _ _ _ W) as [->| ->]; [split; [done|by left]|].
  destruct (remove_file_world p (env (calls s)) (world s)) as [->| ->]; [split; [done|by left]|].
  split; [apply same_but_delete|right; cbn; apply lookup_delete_eq].
Qed.

Lemma set_permissions_same_but p mode e s a s' :
  entries (world s) !! p = Some e → is_socket e = true →
  set_permissions p mode env s = (a, s') →
  same_but p (world s) (world s')
  ∧ ∃ m, entries (world s') !! p = Some (set_mode m e)
         ∧ (a = Ok tt → m = N.land mode 4095).
Proof.
  unfold set_permissions. intros He Hs (T & N & W)%call_trace. rewrite Hund in W.
  unfold fallible in W. rewrite (follow_direct _ _ _ e) in W by eauto using socket_not_link.
  assert (e = set_mode (permissions e) e) as Ee by by destruct e.
  destruct (failure _); [destruct (late _)|]; simplify_eq;
    match goal with H : world s' = _ |- _ => rewrite H end; cbn [snd];
    (split; [done || apply same_but_insert|]); cbn; rewrite ?lookup_insert_eq; eauto.
  exists (permissions e). rewrite <- Ee. by split.
Qed.

Lemma unix_bind_world p s a s' :
  unix_bind p env s = (a, s') →
  match a with
  | Ok id =>
      id = fresh (env (calls s)) ∧ entries (world s) !! p = None
      ∧ (∃ m, entries (world s') !! p = Some {| kind := Socket; identity := id; permissions := m |})
      ∧ (∀ q, q ≠ p → entries (world s') !! q = entries (world s) !! q)
      ∧ listening (world s') = {[id]} ∪ listening (world s)
  | Err _ =>
      world s' = world s
      ∨ entries (world s) !! p = None ∧ same_but p (world s) (world s')
        ∧ ∃ e, entries (world s') !! p = Some e ∧ is_socket e = true
               ∧ identity e = fresh (env (calls s))
  end.
Proof.
  unfold unix_bind. intros (T & N & W)%call_trace. rewrite Hund in W. unfold fallible in W.
  destruct (entries (world s) !! p) eqn:He.
  { destruct (failure _); [destruct (late _)|]; simplify_eq; auto. }
  destruct (failure _) eqn:F; simplify_eq; cbn.
  - destruct (late _); [right|by left]. split; [done|].
    match goal with H : world s' = _ |- _ => rewrite H end.
    split; [apply same_but_insert|]. cbn. rewrite lookup_insert_eq. by eexists.
  - match goal with H : world s' = _ |- _ => rewrite H end.
    cbn. rewrite lookup_insert_eq. split_and!; eauto.
    intros q Hq. by rewrite lookup_insert_ne.
Qed.

(** With the socket bound, [bind] touches no other path and keeps the listener
    exactly when it succeeds. *)
Lemma bind_world p mode s r s' :
  bind p mode env s = (r, s') →
  (world s' = world s ∧ ∃ x, r = Err x) ∨
  ((∀ e, entries (world s) !! text p = Some e →
         is_socket e = true ∧ identity e ∉ listening (world s))
   ∧ (∀ q, q ≠ text p → entries (world s') !! q = entries (world s) !! q)
   ∧ match r with
     | Ok (f, id) => (∃ i, id = fresh (env i)) ∧ f = owned p id
                     ∧ entries (world s') !! text p
                       = Some {| kind := Socket; identity := id; permissions := N.land mode 4095 |}
                     ∧ listening (world s') = {[id]} ∪ listening (world s)
     | Err _ => (∀ e, entries (world s') !! text p = Some e →
                      is_socket e = true ∧ ∃ i, identity e = fresh (env i))
                ∧ (listening (world s') = listening (world s)
                   ∨ ∃ i, listening (world s') = ({[fresh (env i)]} ∪ listening (world s))
                                                 ∖ {[fresh (env i)]})
     end).
Proof.
  intros H. unfold bind, sys_try at 1, sys_bind at 1 in H.
  destruct (prepare_path p env s) as [r1 s1] eqn:E. apply prepare_path_world in E.
  assert (same_but (text p) (world s) (world s1)) as [Hq Hl]
    by (destruct E as [->|(e & ? & ? & ? & ->)]; auto using same_but_delete; done).
  assert (entries (world s1) !! text p = None → ∀ e, entries (world s) !! text p = Some e →
          is_socket e = true ∧ identity e ∉ listening (world s)) as Hfree.
  { destruct E as [->|(e & He & ? & ? & _)]; [intros; congruence|].
    intros _ e' He'. by simplify_eq. }
  assert (world s1 = world s ∨ entries (world s1) !! text p = None) as Hfail.
  { destruct E as [->|(e & ? & ? & ? & ->)]; auto. right. cbn. apply lookup_delete_eq. }
  unfold sys_try, sys_map_err, sys_bind, ret in H.
  destruct r1; simplify_eq; cbn beta iota in *.
  2: { destruct Hfail as [->|Hn]; [left; eauto|right; split_and!; auto; congruence]. }
  destruct (unix_bind (text p) env s1) as [b s2] eqn:Eb. apply unix_bind_world in Eb.
  destruct b as [id|]; cbn [map_err] in H; simplify_eq.
  2: { destruct Eb as [->|(Hn & [Hq2 Hl2] & e & He & Hs & Hi)];
         [destruct Hfail as [->|Hn]; [left; eauto|right; split_and!; auto; congruence]|].
       right. split; [auto|]. split; [intros q Hne; by rewrite Hq2, Hq|].
       split; [|left; congruence]. rewrite He. intros e' [= <-]. eauto. }
  destruct Eb as (-> & Hn & (m & He) & Hq2 & Hl2).
  right. split; [auto|].
  destruct (set_permissions (text p) mode env s2) as [c s3] eqn:Ec.
  apply (set_permissions_same_but _ _ _ _ _ _ He eq_refl) in Ec as ([Hq3 Hl3] & m3 & He3 & Hm3).
  destruct c as [[]|]; cbn beta iota in H.
  - destruct (symlink_metadata (text p) env s3) as [d s4] eqn:Ed.
    apply call_trace in Ed as (_ & _ & Wd). rewrite Hund in Wd. apply query_world in Wd as Hw4.
    destruct d; cbn beta iota in H.
    + apply query_ok, ok_or_ok in Wd. rewrite He3 in Wd. simplify_eq. rewrite Hw4, (Hm3 eq_refl) in *.
      split; [intros q Hne; by rewrite Hq3, Hq2, Hq|]. split_and!; [by eauto|done|done|congruence].
    + unfold close_listener in H. next_call. rewrite Hund in W. simplify_eq.
      match goal with H : world s' = _ |- _ => rewrite H, Hw4 end. cbn. rewrite Hl3, Hl2, Hl.
      split; [intros q Hne; by rewrite Hq3, Hq2, Hq|]. split; [|eauto].
      rewrite He3. intros e [= <-]. eauto.
  - destruct (remove_file (text p) env s3) as [d s4] eqn:Ed.
    apply remove_file_same_but in Ed as [[Hq4 Hl4] He4].
    unfold close_listener in H. next_call. rewrite Hund in W. simplify_eq.
    match goal with H : world s' = _ |- _ => rewrite H end. cbn. rewrite Hl4, Hl3, Hl2, Hl.
    split; [intros q Hne; by rewrite Hq4, Hq3, Hq2, Hq|]. split; [|eauto].
    destruct He4 as [He4|He4]; rewrite He4; [rewrite He3|done]. intros e [= <-]. eauto.
Qed.
End undisturbed.

(** ** Releasing *)

Lemma drop_file_removals f env s u s' :
  drop_file f env s = (u, s') →
  ∃ l, trace s' = trace s ++ l ∧ ∀ q a, Removed q a ∈ l →
    ∃ e, l = [Inspected q (Ok e); Removed q a] ∧ q = text (path f)
         ∧ is_socket e = true ∧ identity e = (device f, inode f)
         ∧ ((∀ w, interference (env (S (calls s))) w = w) → ∀ x, a = Ok x → x = e).
Proof.
  intros H. unfold drop_file, sys_bind, ret in H.
  unfold symlink_metadata in H. next_call. destruct r as [e|].
  2: { simplify_eq. exists [Inspected (text (path f)) (Err error)]. split; [done|].
       intros q a Hin. by apply list_elem_of_singleton in Hin. }
  destruct (is_socket e && _ && _) eqn:Hown; cbn beta iota in H.
  2: { simplify_eq. exists [Inspected (text (path f)) (Ok e)]. split; [done|].
       intros q a Hin. by apply list_elem_of_singleton in Hin. }
  apply andb_true_iff in Hown as [[Hs Hd]%andb_true_iff Hi].
  apply bool_decide_eq_true in Hd, Hi.
  unfold remove_file in H. next_call. simplify_eq.
  eexists. split; [rewrite T0, T; by rewrite <- app_assoc|].
  intros q a [?|[Ha|?%not_elem_of_nil]%elem_of_cons]%elem_of_cons; [done| |done].
  injection Ha as -> ->. exists e. rewrite <- N. split_and!; try done.
  - by apply identity_eq.
  - intros Hq x ->. eauto using removed_is_inspected.
Qed.

Lemma calm_drop_agent_socket env p mode id s sock :
  calm env → file sock = owned p id → listener sock = id →
  entries (world s) !! text p = Some {| kind := Socket; identity := id; permissions := mode |} →
  world (drop_agent_socket sock env s).2
  = {| entries := delete (text p) (entries (world s));
       listening := listening (world s) ∖ {[id]} |}.
Proof.
  intros Hcalm Hf Hl He. unfold drop_agent_socket, drop_file, sys_bind, close_listener.
  rewrite calm_call by done. unfold symlink_metadata. rewrite calm_query by done.
  rewrite Hf, Hl. cbn [world set_listening entries path owned device inode]. rewrite He.
  cbn [ok_or identity]. unfold is_socket. cbn [kind]. rewrite !bool_decide_true by done.
  cbn [andb]. unfold remove_file. rewrite calm_fallible by done.
  cbn [world entries set_listening owned path]. by rewrite He.
Qed.

(** ** The theorems *)

(** C35: Claiming a socket path does what its comments promise on a machine
    that does not interfere: it is refused, and nothing changes, when the parent
    directory is missing, when something else than a socket has the name or when
    somebody listens there; otherwise the name holds a fresh listening socket
    with exactly the requested permission bits.  Dropping the socket then leaves
    the machine as it was, less a stale socket that had the name. *)
Theorem claim_and_release env p mode max s r s' :
  calm env → (∀ i, fresh (env i) ∉ listening (world s)) →
  agent_socket_bind p mode max env s = (r, s') →
  match obstacle (world s) p with
  | Some e => r = Err e ∧ world s' = world s
  | None =>
      ∃ id, r = Ok {| listener := id; file := owned p id; max_packet_size := max |}
            ∧ world s' = claimed (world s) p mode id
            ∧ ∀ sock, r = Ok sock →
                world (drop_agent_socket sock env s').2
                = set_entries (delete (text p) (entries (world s))) (world s)
  end.
Proof.
  intros Hcalm Hfresh H. unfold agent_socket_bind, sys_try, sys_bind, ret in H.
  pose proof (calm_bind env Hcalm p mode s) as Hb.
  destruct (bind p mode env s) as [r1 s1]. destruct (obstacle (world s) p).
  { destruct Hb as [-> Hb]. by simplify_eq. }
  destruct Hb as (i & -> & Hb). simplify_eq. exists (fresh (env i)). split_and!; [done..|].
  intros sock Hsock. simplify_eq.
  rewrite (calm_drop_agent_socket env p (N.land mode 4095) (fresh (env i))); try done.
  - rewrite Hb. unfold claimed, set_entries. cbn [entries listening]. f_equal.
    + by rewrite delete_insert_eq.
    + specialize (Hfresh i). set_solver.
  - rewrite Hb. cbn [claimed entries]. by rewrite lookup_insert_eq.
Qed.

(** C33: Whatever calls fail, claiming a path never harms anyone else: other
    paths keep their entries, a name held by something that is not a socket or
    by a socket with a listener is refused with the machine unchanged, and the
    listeners afterwards are those from before, with the new one added exactly
    when the claim succeeds. *)
Theorem claim_harms_nobody env p mode s r s' :
  undisturbed env → honest env → (∀ i, fresh (env i) ∉ listening (world s)) →
  bind p mode env s = (r, s') →
  (∀ q, q ≠ text p → entries (world s') !! q = entries (world s) !! q)
  ∧ (∀ e, entries (world s) !! text p = Some e →
          is_socket e = false ∨ identity e ∈ listening (world s) →
          (∃ x, r = Err x) ∧ world s' = world s)
  ∧ match r with
    | Ok (_, id) => listening (world s') = {[id]} ∪ listening (world s)
    | Err _ => listening (world s') = listening (world s)
    end.
Proof.
  intros Hund Hhon Hfresh H. apply bind_world in H as [[Hw [x ->]]|(Hfree & Hq & Hl)]; [| |done..].
  { by rewrite Hw; split_and!; eauto. }
  split; [done|]. split.
  - intros e He Hoc. destruct (Hfree e He) as [? ?]. naive_solver congruence.
  - destruct r as [[f id]|x]; [by destruct Hl as (_ & _ & _ & ?)|].
    destruct Hl as [_ [?|[i ->]]]; [done|].
    specialize (Hfresh i). set_solver.
Qed.

(** C34: Whatever other processes do meanwhile, the agent socket removes a name
    only after the checks that justify it: before binding, the name held a socket
    that refused a connection and had the same device and inode before and after;
    when the mode cannot be set, the name had just been bound; when dropped, the
    name held the socket with the device and inode recorded at binding.  Since the
    check and the removal are different calls, another process can put something
    else there in between; if nothing happens in between, what is removed is the
    socket that was inspected, or in the second case the one that was bound. *)
Theorem removals_verified env p mode s :
  (∃ l, trace (bind p mode env s).2 = trace s ++ l ∧ removals_justified p env (calls s) [] l)
  ∧ ∀ f, ∃ l, trace (drop_file f env s).2 = trace s ++ l ∧ ∀ q a, Removed q a ∈ l →
      ∃ e, l = [Inspected q (Ok e); Removed q a] ∧ q = text (path f)
           ∧ is_socket e = true ∧ identity e = (device f, inode f)
           ∧ ((∀ w, interference (env (S (calls s))) w = w) → ∀ x, a = Ok x → x = e).
Proof.
  split.
  - destruct (bind p mode env s) as [r s'] eqn:E. eauto using bind_removals.
  - intros f. destruct (drop_file f env s) as [r s'] eqn:E. eauto using drop_file_removals.
Qed.

(** ** The control socket's copy *)

(** Errors of the two implementations for the same reason. *)
Inductive same_reason (p : Path) : AgentSocketError → ControlSocketError → Prop :=
| same_missing_parent d : same_reason p (MissingParent d) (ParentDoesNotExist d)
| same_not_socket : same_reason p (NotSocket (text p)) (NonSocketPath (text p))
| same_active : same_reason p (AlreadyActive (text p)) (AnotherServer (text p))
| same_probe e : same_reason p (Probe (path_error p e)) (CouldNotProbe (text p) e)
| same_changed : same_reason p (Changed (text p)) SocketChanged
| same_metadata e : same_reason p (Metadata (path_error p e)) (CouldNotInspect (text p) e)
| same_remove e :
    same_reason p (RemoveStale (path_error p e)) (CouldNotRemoveStale (text p) e)
| same_bind e : same_reason p (Bind (path_error p e)) (CouldNotBind (text p) e)
| same_permissions e :
    same_reason p (Permissions (path_error p e)) (CouldNotSetPermissions (text p) e).
#[local] Hint Constructors same_reason : core.

(** Both return the same value or fail for the same reason. *)
Definition same_outcome {A B} (value : A → B) (p : Path)
    (r : result A AgentSocketError) (r' : result B ControlSocketError) : Prop :=
  match r, r' with
  | Ok a, Ok b => b = value a
  | Err e, Err e' => same_reason p e e'
  | _, _ => False
  end.

Lemma same_prepare p env s :
  same_outcome id p (prepare_path p env s).1 (control_prepare_path p env s).1
  ∧ (prepare_path p env s).2 = (control_prepare_path p env s).2.
Proof.
  unfold prepare_path, control_prepare_path, sys_try, sys_map_err, sys_bind, ret.
  destruct (is_dir (parent_or_dot p) env s) as [[] s1]; [|by cbn; auto]. cbn [negb].
  destruct (symlink_metadata (text p) env s1) as [[first|[]] s2]; try by cbn; auto.
  destruct (is_socket first); [|by cbn; auto]. cbn [negb].
  destruct (connect (text p) env s2) as [[|[]] s3]; try by cbn; auto.
  destruct (symlink_metadata (text p) env s3) as [[current|] s4]; [|by cbn; auto]. cbn [map_err].
  destruct (negb _ || negb _); [by cbn; auto|].
  destruct (remove_file (text p) env s4) as [[] s5]; by cbn; auto.
Qed.

(** The value of the control socket's [bind] for the agent socket's. *)
Definition as_control (claim : SocketFile * FileId) : ControlSocket :=
  {| control_listener := claim.2; control_file := claim.1 |}.

Lemma same_bind_outcome p mode env s :
  same_outcome as_control p (bind p mode env s).1 (control_bind p mode env s).1
  ∧ (bind p mode env s).2 = (control_bind p mode env s).2.
Proof.
  unfold bind, control_bind, sys_try, sys_map_err, sys_bind, ret.
  destruct (same_prepare p env s) as [Hr Hs].
  destruct (prepare_path p env s) as [r s1], (control_prepare_path p env s) as [r' s1'].
  cbn in Hr, Hs. subst s1'. destruct r, r'; try done.
  destruct (unix_bind (text p) env s1) as [[id|] s2]; cbn [map_err]; [|by cbn; auto].
  destruct (set_permissions (text p) mode env s2) as [[] s3].
  - destruct (symlink_metadata (text p) env s3) as [[] s4]; [by cbn|].
    destruct (close_listener id env s4) as [? s5]. by cbn; auto.
  - destruct (remove_file (text p) env s3) as [? s4].
    destruct (close_listener id env s4) as [? s5]. by cbn; auto.
Qed.

(** The control socket's own copy of the code agrees with the agent
    socket's: in every environment both make the same calls, leave the machine
    in the same state, claim the same file or fail for the same reason, and
    release it the same way. *)
Theorem control_socket_agrees env p mode s :
  same_outcome as_control p (bind p mode env s).1 (control_bind p mode env s).1
  ∧ (bind p mode env s).2 = (control_bind p mode env s).2
  ∧ ∀ f, drop_file f env s = control_drop_file f env s.
Proof. destruct (same_bind_outcome p mode env s). done. Qed.

(** ** A machine with a stale and a live socket *)

Definition run_path (name : String.string) : Path :=
  {| text := byte_string name; parent := Some (byte_string "/run") |}.

Definition sample_world : World :=
  {| entries :=
       list_to_map
         [(byte_string "/run", {| kind := Directory; identity := (1, 1)%N; permissions := 493 |});
          (byte_string "/run/stale", {| kind := Socket; identity := (1, 2)%N; permissions := 384 |});
          (byte_string "/run/live", {| kind := Socket; identity := (1, 3)%N; permissions := 384 |});
          (byte_string "/run/note",
           {| kind := Regular []; identity := (1, 4)%N; permissions := 384 |})];
     listening := {[(1, 3)%N]} |}.
Definition sample_machine : Machine := 
  {| world := sample_world; calls := 0; trace := []; steps := [] |}.

Definition quiet_env (i : nat) : Env :=
  {| interference := λ w, w; failure := None; late := false; partial := 0;
     fresh := (1, N.of_nat i + 100)%N; umask := 18 |}.

Lemma quiet_env_calm : calm quiet_env.
Proof. by split. Qed.
Lemma quiet_env_fresh i : fresh (quiet_env i) ∉ listening (world sample_machine).
Proof. cbn. intros E%elem_of_singleton. injection E. lia. Qed.

Lemma claim_and_release_witness :
  (∃ id, entries (world (agent_socket_bind (run_path "/run/stale") 384 1024
                           quiet_env sample_machine).2)
           !! byte_string "/run/stale"
         = Some {| kind := Socket; identity := id; permissions := 384 |})
  ∧ (agent_socket_bind (run_path "/run/live") 384 1024 quiet_env sample_machine).1
    = Err (AlreadyActive (byte_string "/run/live")).
Proof.
  pose proof (claim_and_release quiet_env (run_path "/run/stale") 384 1024 sample_machine _ _
                quiet_env_calm quiet_env_fresh (surjective_pairing _)) as H1.
  pose proof (claim_and_release quiet_env (run_path "/run/live") 384 1024 sample_machine _ _
                quiet_env_calm quiet_env_fresh (surjective_pairing _)) as H2.
  split.
  - destruct H1 as (id & _ & -> & _). exists id. reflexivity.
  - destruct H2 as [-> _]. reflexivity.
Defined.

Lemma claim_harms_nobody_witness :
  (∃ x, (bind (run_path "/run/note") 384 quiet_env sample_machine).1 = Err x)
  ∧ world (bind (run_path "/run/note") 384 quiet_env sample_machine).2 = sample_world.
Proof.
  destruct (claim_harms_nobody quiet_env (run_path "/run/note") 384 sample_machine _ _
              (proj1 quiet_env_calm) (λ i, ltac:(discriminate)) quiet_env_fresh
              (surjective_pairing _)) as (_ & H & _).
  apply (H {| kind := Regular []; identity := (1, 4)%N; permissions := 384 |});
    [reflexivity|by left].
Defined.
