(* ===== verification/Control.v ===== *)
(** * Control: the operator's control socket

    Models [crates/server/src/control]: the messages of [protocol.rs], the
    handler of one connection of [server.rs] and the operator's client of
    [client.rs].  (The socket's file is in [SocketFile].)

    [serde_json] and [LengthDelimitedCodec] are the operations of the classes
    [Json] and [Framing]; what is documented of them is in [JsonSpec] and
    [FramingSpec].  The text of a storage error is an argument. *)

From stdpp Require Import pretty.
From S2P Require Import Prelude Bytes Packet Pairing PairingProps.

(** ** Messages *)

Definition CONTROL_VERSION : N := 1.
Definition MAX_FRAME_LENGTH : N := 16 * 1024.

Inductive ControlRequest := PairingClear.

Inductive ControlResponse :=
| PairingCleared (had_client : bool)
| ControlFailure (message : rstring).

Record Envelope (T : Type) := {
  envelope_version : N;
  message : T;
}.
Arguments Build_Envelope {T} _ _.
Arguments envelope_version {T} _.
Arguments message {T} _.

(** [serde_json::to_vec] and [serde_json::from_slice] of an envelope. *)
Class Json (T : Type) := {
  to_vec : Envelope T → option bytes;
  from_slice : bytes → option (Envelope T);
}.
(** The messages' derived implementations never fail to serialize, and what
    they wrote is read back. *)
Class JsonSpec {T} (J : Json T) := {
  to_vec_total : ∀ m, is_Some (to_vec {| envelope_version := CONTROL_VERSION; message := m |});
  from_to_vec : ∀ m b, to_vec {| envelope_version := CONTROL_VERSION; message := m |} = Some b →
    from_slice b = Some {| envelope_version := CONTROL_VERSION; message := m |};
}.

(** Errors of the protocol, by the context they are reported with. *)
Inductive ControlProtocolError :=
| CouldNotEncodeMessage
| CouldNotDecodeMessage
| UnsupportedControlVersion (version : N).

(** What an operator is shown: [error.to_string()]. *)
Definition protocol_error_text (e : ControlProtocolError) : rstring :=
  match e with
  | CouldNotEncodeMessage => byte_string "could not encode control message"
  | CouldNotDecodeMessage => byte_string "could not decode control message"
  | UnsupportedControlVersion v =>
      byte_string "unsupported control protocol version " ++ byte_string (pretty v)
  end.

(** [encode] *)
Definition control_encode {T} `{Json T} (m : T) : result bytes ControlProtocolError :=
  ok_or (to_vec {| envelope_version := CONTROL_VERSION; message := m |}) CouldNotEncodeMessage.

(** [decode] *)
Definition control_decode {T} `{Json T} (frame : bytes) : result T ControlProtocolError :=
  let? envelope := ok_or (from_slice frame) CouldNotDecodeMessage in
  if negb (envelope_version envelope =? CONTROL_VERSION)%N then
    Err (UnsupportedControlVersion (envelope_version envelope))
  else Ok (message envelope).

(** ** Frames *)

(** [LengthDelimitedCodec] with a maximal frame length: the bytes of a frame,
    and the first frame of the bytes received. *)
Class Framing := {
  frame : N → bytes → option bytes;
  next_frame : N → bytes → option (result bytes unit);
}.
(** A frame within the limit is sent, and is what the peer receives. *)
Class FramingSpec (F : Framing) := {
  frame_within : ∀ max payload, (len payload ≤ max)%N → (max ≤ U32_MAX)%N →
    is_Some (frame max payload);
  next_of_frame : ∀ max payload b rest, frame max payload = Some b →
    next_frame max (b ++ rest) = Some (Ok payload);
}.

(** How a connection can fail, on either side. *)
Inductive ConnectionError :=
| CouldNotConnect
| ClosedWithoutRequest
| CouldNotReadRequest
| CouldNotSendResponse
| CouldNotSendRequest
| ClosedWithoutResponse
| CouldNotReadResponse
| ProtocolFailure (error : ControlProtocolError)
| ServerReported (text : rstring).

Section control.
Context `{S : PairingStore} `{F : Framing} `{JR : Json ControlRequest} `{JA : Json ControlResponse}.
Context (describe : StoreError → rstring).

(** ** The server *)

(** [handle_connection], given what the client sends, whether the response can
    be sent, and how storage behaves: the service afterwards and the bytes sent
    back. *)
Definition handle_control_connection (faults : Faults) (received : bytes) (writes : bool)
    (s : PairingService) : PairingService * result bytes ConnectionError :=
  match next_frame MAX_FRAME_LENGTH received with
  | None => (s, Err ClosedWithoutRequest)
  | Some (Err _) => (s, Err CouldNotReadRequest)
  | Some (Ok request) =>
      let '(s, response) :=
        match control_decode request with
        | Ok PairingClear =>
            match clear faults s with
            | (s, Ok had_client) => (s, PairingCleared had_client)
            | (s, Err error) => (s, ControlFailure (describe error))
            end
        | Err error => (s, ControlFailure (protocol_error_text error))
        end in
      (s,
       let? reply := map_err ProtocolFailure (control_encode response) in
       let? sent := ok_or (frame MAX_FRAME_LENGTH reply) CouldNotSendResponse in
       if writes then Ok sent else Err CouldNotSendResponse)
  end.

(** ** The client *)

(** The bytes [clear_pairing] sends. *)
Definition clear_request : result bytes ConnectionError :=
  let? request := map_err ProtocolFailure (control_encode PairingClear) in
  ok_or (frame MAX_FRAME_LENGTH request) CouldNotSendRequest.

(** [clear_pairing] against a server that answers what it receives. *)
Definition clear_pairing (connects writes : bool) (server : bytes → bytes) :
    result bool ConnectionError :=
  let? _ := if connects then Ok tt else Err CouldNotConnect in
  let? sent := clear_request in
  let? _ := if writes then Ok tt else Err CouldNotSendRequest in
  match next_frame MAX_FRAME_LENGTH (server sent) with
  | None => Err ClosedWithoutResponse
  | Some (Err _) => Err CouldNotReadResponse
  | Some (Ok reply) =>
      let? response := map_err ProtocolFailure (control_decode reply) in
      match response with
      | PairingCleared had_client => Ok had_client
      | ControlFailure text => Err (ServerReported text)
      end
  end.

(** The bytes a connection's client gets to see. *)
Definition reply_bytes (r : result bytes ConnectionError) : bytes := default [] (ok r).
End control.
