(* ===== verification/Assoc.v ===== *)
(** * Assoc: association lists with distinct keys, seen as finite maps

    Generic lemmas shared by the broker files: how [filter], replacement of
    one entry and permutation of an association list with distinct keys are
    reflected by the finite map it denotes, and when sorting a permutation of
    a sorted list gives that list back. *)

From S2P Require Import Prelude.

(** ** Filters *)

Lemma list_filter_ext_in {A} (P Q : A → Prop)
    `{∀ x, Decision (P x), ∀ x, Decision (Q x)} (l : list A) :
  (∀ x, x ∈ l → P x ↔ Q x) → filter P l = filter Q l.
Proof.
  induction l as [|x l IH]; intros HPQ; [done|].
  rewrite !filter_cons.
  assert (filter P l = filter Q l) as ->
    by (apply IH; intros y Hy; by apply HPQ, list_elem_of_further).
  assert (P x ↔ Q x) by apply HPQ, list_elem_of_here.
  by destruct (decide (P x)), (decide (Q x)); try tauto.
Qed.

Lemma list_filter_fmap_comp {A B} (f : A → B) (P : B → Prop)
    `{∀ x, Decision (P x)} (l : list A) :
  filter P (f <$> l) = f <$> filter (λ x, P (f x)) l.
Proof.
  induction l as [|x l IH]; [done|].
  rewrite fmap_cons, !filter_cons.
  destruct (decide (P (f x))); by rewrite ?fmap_cons, IH.
Qed.

Lemma list_filter_all {A} (P : A → Prop) `{∀ x, Decision (P x)} (l : list A) :
  Forall P l → filter P l = l.
Proof.
  induction 1 as [|x l HP Hl IH]; [done|].
  by rewrite filter_cons_True, IH.
Qed.

Lemma list_filter_none {A} (P : A → Prop) `{∀ x, Decision (P x)} (l : list A) :
  Forall (λ x, ¬ P x) l → filter P l = [].
Proof.
  induction 1 as [|x l HP Hl IH]; [done|].
  by rewrite filter_cons_False.
Qed.

Lemma Forall_list_filter {A} (Q P : A → Prop) `{∀ x, Decision (P x)} (l : list A) :
  Forall Q l → Forall Q (filter P l).
Proof.
  rewrite !Forall_forall. intros HQ x Hx.
  apply list_elem_of_filter in Hx as [_ Hx]. by apply HQ.
Qed.

Lemma StronglySorted_filter {A} (R : relation A) (P : A → Prop)
    `{∀ x, Decision (P x)} (l : list A) :
  StronglySorted R l → StronglySorted R (filter P l).
Proof.
  induction 1 as [|x l Hl IH Hx]; [constructor|].
  rewrite filter_cons. destruct (decide (P x)); [|done].
  constructor; [done|]. apply Forall_forall. intros y Hy.
  apply list_elem_of_filter in Hy as [_ Hy].
  rewrite Forall_forall in Hx. by apply Hx.
Qed.

(** ** Keys *)

Section assoc.
Context {K V : Type} `{Countable K}.
Implicit Types (l : list (K * V)) (k : K) (v : V).

Lemma NoDup_fst_filter (P : K * V → Prop) `{∀ x, Decision (P x)} l :
  NoDup l.*1 → NoDup (filter P l).*1.
Proof.
  induction l as [|x l IH]; intros Hnd; [done|].
  apply NoDup_cons in Hnd as [Hx Hnd]. rewrite filter_cons.
  destruct (decide (P x)); [|by apply IH].
  apply NoDup_cons. split; [|by apply IH].
  intros Hin. apply Hx.
  apply list_elem_of_fmap in Hin as (y & -> & Hy).
  apply list_elem_of_filter in Hy as [_ Hy].
  apply list_elem_of_fmap. by exists y.
Qed.

Lemma NoDup_fst_inj l x y :
  NoDup l.*1 → x ∈ l → y ∈ l → x.1 = y.1 → x = y.
Proof.
  intros Hnd Hx Hy E. destruct x as [k v], y as [k' v']. simpl in E. subst.
  apply (elem_of_list_to_map (M := gmap K)) in Hx, Hy; [|done..]. congruence.
Qed.

Lemma key_in_filter (P : K * V → Prop) `{∀ x, Decision (P x)} l x :
  NoDup l.*1 → x ∈ l → x.1 ∈ (filter P l).*1 ↔ P x.
Proof.
  intros Hnd Hx. rewrite list_elem_of_fmap. split.
  - intros (y & E & Hy). apply list_elem_of_filter in Hy as [HP Hy].
    by rewrite (NoDup_fst_inj l x y).
  - intros HP. exists x. split; [done|]. by apply list_elem_of_filter.
Qed.

(** Dropping from the keys of a sublist those that a filter of the whole list
    selects is the same as filtering the sublist. *)
Lemma filter_keys_not_in (P : K * V → Prop) `{∀ x, Decision (P x)} l l' :
  NoDup l.*1 → (∀ x, x ∈ l' → x ∈ l) →
  filter (λ k, k ∉ (filter P l).*1) l'.*1 = (filter (λ x, ¬ P x) l').*1.
Proof.
  intros Hnd Hsub. rewrite list_filter_fmap_comp. f_equal.
  apply list_filter_ext_in. intros x Hx.
  by rewrite key_in_filter by auto.
Qed.

(** ** Maps *)

Lemma list_to_map_filter (P : K * V → Prop) `{∀ x, Decision (P x)} l k v :
  NoDup l.*1 →
  (list_to_map (filter P l) : gmap K V) !! k = Some v ↔
  (list_to_map l : gmap K V) !! k = Some v ∧ P (k, v).
Proof.
  intros Hnd. rewrite <- !elem_of_list_to_map by (try apply NoDup_fst_filter; done).
  rewrite list_elem_of_filter. tauto.
Qed.

Lemma list_to_map_delete l k :
  NoDup l.*1 →
  delete k (list_to_map l : gmap K V) = list_to_map (filter (λ x, x.1 ≠ k) l).
Proof.
  intros Hnd. apply map_eq. intros i. apply option_eq. intros v.
  rewrite lookup_delete_Some, list_to_map_filter by done. simpl. split; intros [? ?]; auto.
Qed.

Lemma list_to_map_update l1 l2 k v v' :
  NoDup (l1 ++ (k, v) :: l2).*1 →
  <[k := v']> (list_to_map (l1 ++ (k, v) :: l2) : gmap K V)
  = list_to_map (l1 ++ (k, v') :: l2).
Proof.
  rewrite fmap_app, fmap_cons. intros Hnd. simpl in Hnd.
  induction l1 as [|[k1 v1] l1 IH]; simpl in *.
  - by rewrite insert_insert_eq.
  - apply NoDup_cons in Hnd as [Hk1 Hnd].
    rewrite insert_insert_ne, IH; [done|done|].
    intros ->. apply Hk1. apply elem_of_app. right. apply list_elem_of_here.
Qed.

Lemma list_to_map_fmap (f : V → V) l :
  f <$> (list_to_map l : gmap K V) = list_to_map (prod_map id f <$> l).
Proof.
  induction l as [|[k v] l IH]; [apply fmap_empty|]. simpl.
  by rewrite fmap_insert, IH.
Qed.

Lemma list_to_map_size l :
  NoDup l.*1 → size (list_to_map l : gmap K V) = length l.
Proof.
  intros Hnd. rewrite <- (length_map_to_list (list_to_map l : gmap K V)).
  by rewrite map_to_list_to_map.
Qed.

Lemma fst_prod_map_id (f : V → V) l : (prod_map id f <$> l).*1 = l.*1.
Proof. induction l as [|[k v] l IH]; csimpl; [done|]. by f_equal. Qed.

End assoc.

(** ** Sorting a permutation of a strictly sorted list *)

Lemma StronglySorted_strict_inj {A} (R : relation A) (l : list A) x y :
  StronglySorted (λ x y, R x y ∧ ¬ R y x) l →
  x ∈ l → y ∈ l → R x y → R y x → x = y.
Proof.
  induction 1 as [|z l Hl IH Hz]; intros Hx Hy Hxy Hyx.
  - by apply not_elem_of_nil in Hx.
  - rewrite Forall_forall in Hz.
    apply elem_of_cons in Hx as [->|Hx]; apply elem_of_cons in Hy as [->|Hy]; auto.
    + by destruct (Hz y Hy).
    + by destruct (Hz x Hx).
Qed.

Lemma merge_sort_strict {A} (R : relation A) `{!RelDecision R}
    `{!Transitive R, !Total R} (l l' : list A) :
  StronglySorted (λ x y, R x y ∧ ¬ R y x) l → l' ≡ₚ l → merge_sort R l' = l.
Proof.
  intros Hs Hp. apply (StronglySorted_unique_strong R).
  - intros x y Hx Hy. rewrite merge_sort_Permutation, Hp in Hx.
    by apply (StronglySorted_strict_inj R l).
  - by apply StronglySorted_merge_sort.
  - clear Hp. induction Hs as [|x l Hs IH Hx]; constructor; [done|].
    eapply Forall_impl; [done|]. by intros y [? _].
  - by rewrite merge_sort_Permutation.
Qed.
