(* ===== verification/BrokerModel.v ===== *)
(** * BrokerModel: the request broker's pure state machine

    Models [crates/server/src/broker/model.rs] (with the identifiers and
    [WakeRequest] of [broker/mod.rs]) definition by definition: the facts the
    broker keeps, the events that change them, and the effects it emits.

    [Instant] is the monotonic clock, [u64] and [u32] counters wrap as in a
    release build, the [HashMap] is a [gmap] and the [VecDeque] a list.  A
    [HashMap] iterates in an arbitrary order, so the operations that iterate
    ([expire], [requeue_session], [next_deadline]) are written over an explicit
    iteration order [iter]; the file [BrokerRefinement] proves that the order
    does not matter.

    [expire] calls [unwrap] on the removal of each expired request and
    [Event::Locked] has an [unreachable!] arm.  Both are written as the
    branch that leaves the state alone; [BrokerRefinement] proves that the
    first is never taken, and the second is excluded by its guard. *)

From S2P Require Import Prelude Bytes Packet.

Definition Instant : Type := N.
Bind Scope N_scope with Instant.
Abbreviation RequestId := Uuid.
Abbreviation SessionId := Uuid.

(** ** Data *)

Record WakeRequest := { reasons : list rstring }.

(** Availability facts for the single remote agent. *)
Inductive RemoteAgentState :=
| Disconnected
| Locked (session_id : SessionId) (capacity : N)
| Ready (session_id : SessionId) (capacity : N).

Inductive PendingState :=
| Queued
| InFlight (session_id : SessionId) (attempt : N).

Record PendingRequest := {
  packet : bytes;
  context : option RequestContext;
  deadline : Instant;
  requested_at : N;
  deadline_timestamp : N;
  sequence : N;
  attempt : N;
  pstate : PendingState;
}.

Record BrokerState := {
  agent : RemoteAgentState;
  pending : gmap RequestId PendingRequest;
  queue : list RequestId;
  max_pending_requests : N;
  next_sequence : N;
  wake_announced : bool;
}.

(** Facts that can change broker state. *)
Inductive Event :=
| EvSubmit (request_id : RequestId) (packet : bytes)
    (context : option RequestContext) (deadline : Instant)
    (requested_at deadline_timestamp : N)
| EvConnected (session_id : SessionId) (capacity : N)
| EvReady (session_id : SessionId)
| EvLocked (session_id : SessionId)
| EvDisconnected (session_id : SessionId)
| EvResponse (session_id : SessionId) (request_id : RequestId) (attempt : N)
    (packet : bytes)
| EvCancelled (request_id : RequestId)
| EvTick.

(** Side effects produced by reconciliation and executed by the actor. *)
Inductive Effect :=
| Dispatch (session_id : SessionId) (request_id : RequestId) (attempt : N)
    (requested_at deadline : N) (packet : bytes) (context : option RequestContext)
| Cancel (session_id : SessionId) (request_id : RequestId) (attempt : N)
| WakeRequired (request : WakeRequest)
| Complete (request_id : RequestId) (outcome : result bytes RequestError).

Inductive ModelError :=
| RemoteAlreadyConnected.

#[export] Instance RemoteAgentState_eq_dec : EqDecision RemoteAgentState.
Proof. solve_decision. Defined.
#[export] Instance PendingState_eq_dec : EqDecision PendingState.
Proof. solve_decision. Defined.
#[export] Instance WakeRequest_eq_dec : EqDecision WakeRequest.
Proof. solve_decision. Defined.
#[export] Instance PendingRequest_eq_dec : EqDecision PendingRequest.
Proof. solve_decision. Defined.
#[export] Instance Effect_eq_dec : EqDecision Effect.
Proof. solve_decision. Defined.

(** Field assignments. *)
Definition set_agent (a : RemoteAgentState) (st : BrokerState) : BrokerState :=
  {| agent := a; pending := pending st; queue := queue st;
     max_pending_requests := max_pending_requests st;
     next_sequence := next_sequence st; wake_announced := wake_announced st |}.
Definition set_requests (m : gmap RequestId PendingRequest) (q : list RequestId)
    (st : BrokerState) : BrokerState :=
  {| agent := agent st; pending := m; queue := q;
     max_pending_requests := max_pending_requests st;
     next_sequence := next_sequence st; wake_announced := wake_announced st |}.
Definition set_next_sequence (n : N) (st : BrokerState) : BrokerState :=
  {| agent := agent st; pending := pending st; queue := queue st;
     max_pending_requests := max_pending_requests st;
     next_sequence := n; wake_announced := wake_announced st |}.
Definition set_wake_announced (b : bool) (st : BrokerState) : BrokerState :=
  {| agent := agent st; pending := pending st; queue := queue st;
     max_pending_requests := max_pending_requests st;
     next_sequence := next_sequence st; wake_announced := b |}.
Definition set_pstate (s : PendingState) (p : PendingRequest) : PendingRequest :=
  {| packet := packet p; context := context p; deadline := deadline p;
     requested_at := requested_at p; deadline_timestamp := deadline_timestamp p;
     sequence := sequence p; attempt := attempt p; pstate := s |}.
Definition set_attempt (n : N) (p : PendingRequest) : PendingRequest :=
  {| packet := packet p; context := context p; deadline := deadline p;
     requested_at := requested_at p; deadline_timestamp := deadline_timestamp p;
     sequence := sequence p; attempt := n; pstate := pstate p |}.

(** ** Queries *)

(** [RemoteAgentState::session] *)
Definition session (a : RemoteAgentState) : option SessionId :=
  match a with
  | Disconnected => None
  | Locked s _ | Ready s _ => Some s
  end.

Definition connected_remote (st : BrokerState) : option (SessionId * N) :=
  match agent st with
  | Disconnected => None
  | Locked s c | Ready s c => Some (s, c)
  end.

(** The [matches!] test of [in_flight_for] and the match of
    [requeue_session]. *)
Definition in_flight_on (s : SessionId) (p : PendingRequest) : bool :=
  match pstate p with
  | Queued => false
  | InFlight active _ => bool_decide (active = s)
  end.

Definition in_flight_for (st : BrokerState) (s : SessionId) : N :=
  len (filter (λ kv, in_flight_on s kv.2 = true) (map_to_list (pending st))).

(** [values().map(deadline).min()] over an iteration order. *)
Definition next_deadline_iter (iter : list (RequestId * PendingRequest)) :
    option Instant :=
  foldr (λ kv acc, match acc with
                   | None => Some (deadline kv.2)
                   | Some d => Some (N.min (deadline kv.2) d)
                   end) None iter.
Definition next_deadline (st : BrokerState) : option Instant :=
  next_deadline_iter (map_to_list (pending st)).

(** [sort_by_key(|(_, sequence)| *sequence)] *)
Definition by_sequence (x y : RequestId * N) : Prop := (x.2 ≤ y.2)%N.
#[export] Instance by_sequence_dec : RelDecision by_sequence :=
  λ x y, decide (x.2 ≤ y.2)%N.
Definition sort_by_sequence : list (RequestId * N) → list (RequestId * N) :=
  merge_sort by_sequence.

(** ** Expiry *)

Definition expired (now : Instant) (p : PendingRequest) : bool :=
  (deadline p <=? now)%N.

(** The effects of giving up on one request: stop the remote attempt if there
    is one, then fail the local waiter. *)
Definition abandon (e : RequestError) (id : RequestId) (p : PendingRequest) :
    list Effect :=
  match pstate p with
  | InFlight s a => [Cancel s id a]
  | Queued => []
  end ++ [Complete id (Err e)].

(** The [flat_map] over the expired requests: each is removed from the map and
    abandoned. *)
Fixpoint remove_expired (ids : list RequestId) (m : gmap RequestId PendingRequest) :
    gmap RequestId PendingRequest * list Effect :=
  match ids with
  | [] => (m, [])
  | id :: rest =>
      match m !! id with
      | Some p =>
          let '(m', effects) := remove_expired rest (delete id m) in
          (m', abandon TimedOut id p ++ effects)
      | None => remove_expired rest m
      end
  end.

Definition expired_ids (iter : list (RequestId * PendingRequest)) (now : Instant) :
    list RequestId :=
  (sort_by_sequence
     ((λ kv, (kv.1, sequence kv.2)) <$>
        filter (λ kv, expired now kv.2 = true) iter)).*1.

Definition expire_iter (iter : list (RequestId * PendingRequest)) (now : Instant)
    (st : BrokerState) : BrokerState * list Effect :=
  let ids := expired_ids iter now in
  let q := filter (λ id, id ∉ ids) (queue st) in
  let '(m, effects) := remove_expired ids (pending st) in
  (set_requests m q st, effects).
Definition expire (now : Instant) (st : BrokerState) : BrokerState * list Effect :=
  expire_iter (map_to_list (pending st)) now st.

(** ** Reconciliation *)

(** One dispatch: the request enters its next attempt on the session. *)
Definition deliver (s : SessionId) (p : PendingRequest) : PendingRequest :=
  let p := set_attempt (wrap32 (attempt p + 1)) p in
  set_pstate (InFlight s (attempt p)) p.

Definition dispatch_effect (s : SessionId) (id : RequestId) (p : PendingRequest) :
    Effect :=
  Dispatch s id (attempt p) (requested_at p) (deadline_timestamp p)
    (packet p) (context p).

(** The [while in_flight < capacity] loop.  Every iteration pops the queue, so
    the recursion is on the queue. *)
Fixpoint dispatch_loop (s : SessionId) (capacity in_flight : N)
    (q : list RequestId) (m : gmap RequestId PendingRequest) :
    list RequestId * gmap RequestId PendingRequest * list Effect :=
  match q with
  | [] => ([], m, [])
  | id :: rest =>
      if (in_flight <? capacity)%N then
        match m !! id with
        | None => dispatch_loop s capacity in_flight rest m
        | Some p =>
            let p' := deliver s p in
            let '(q', m', effects) :=
              dispatch_loop s capacity (in_flight + 1) rest (<[id := p']> m) in
            (q', m', dispatch_effect s id p' :: effects)
        end
      else (q, m, [])
  end.

(** [filter(|reason| seen.insert(reason))]: keep first occurrences, in order. *)
Fixpoint distinct (seen : list rstring) (l : list rstring) : list rstring :=
  match l with
  | [] => []
  | r :: rest =>
      if decide (r ∈ seen) then distinct seen rest else r :: distinct (r :: seen) rest
  end.

(** Distinct reasons of the queued requests, in queue order. *)
Definition queued_reasons (st : BrokerState) : list rstring :=
  distinct [] (omap (λ id, pending st !! id ≫= λ p, reason <$> context p) (queue st)).

Definition dispatch_queue (st : BrokerState) : BrokerState * list Effect :=
  match connected_remote st with
  | None => (st, [])
  | Some (s, capacity) =>
      let '(q, m, effects) :=
        dispatch_loop s capacity (in_flight_for st s) (queue st) (pending st) in
      (set_requests m q st, effects)
  end.

Definition announce_wake (st : BrokerState) : BrokerState * list Effect :=
  if decide (queue st = [] ∨ session (agent st) ≠ None) then
    (set_wake_announced false st, [])
  else if wake_announced st then (st, [])
  else (set_wake_announced true st,
        [WakeRequired {| reasons := queued_reasons st |}]).

(** Dispatch to any connected worker, or announce that an offline worker is
    needed. *)
Definition reconcile (st : BrokerState) : BrokerState * list Effect :=
  let '(st, dispatched) := dispatch_queue st in
  let '(st, wake) := announce_wake st in
  (st, dispatched ++ wake).

(** ** Disconnection *)

Definition requeue_session_iter (iter : list (RequestId * PendingRequest))
    (s : SessionId) (st : BrokerState) : BrokerState :=
  let requeued :=
    sort_by_sequence ((λ kv, (kv.1, sequence kv.2)) <$>
      filter (λ kv, in_flight_on s kv.2 = true) iter) in
  set_requests
    ((λ p, if in_flight_on s p then set_pstate Queued p else p) <$> pending st)
    (requeued.*1 ++ queue st) st.
(** Return one session's unfinished work to the front of the FIFO queue. *)
Definition requeue_session (s : SessionId) (st : BrokerState) : BrokerState :=
  requeue_session_iter (map_to_list (pending st)) s st.

(** ** Events *)

(** The [match event] of [BrokerState::apply]: the new facts and the effects
    pushed by the arm, or the early return. *)
Definition apply_event (ev : Event) (st : BrokerState) :
    result (BrokerState * list Effect) ModelError :=
  match ev with
  | EvSubmit id pkt ctx dl req dlts =>
      if (max_pending_requests st <=? N.of_nat (size (pending st)))%N then
        Ok (st, [Complete id (Err QueueFull)])
      else
        let p := {| packet := pkt; context := ctx; deadline := dl;
                    requested_at := req; deadline_timestamp := dlts;
                    sequence := next_sequence st; attempt := 0;
                    pstate := Queued |} in
        let st := set_next_sequence (wrap64 (next_sequence st + 1)) st in
        let st := set_requests (<[id := p]> (pending st)) (queue st ++ [id]) st in
        Ok (set_wake_announced false st, [])
  | EvConnected s c =>
      if decide (agent st = Disconnected) then
        Ok (set_wake_announced false (set_agent (Locked s c) st), [])
      else Err RemoteAlreadyConnected
  | EvReady s =>
      match agent st with
      | Locked active c | Ready active c =>
          if decide (active = s) then Ok (set_agent (Ready s c) st, []) else Ok (st, [])
      | Disconnected => Ok (st, [])
      end
  | EvLocked s =>
      if decide (session (agent st) = Some s) then
        match agent st with
        | Locked _ c | Ready _ c => Ok (set_agent (Locked s c) st, [])
        | Disconnected => Ok (st, [])
        end
      else Ok (st, [])
  | EvDisconnected s =>
      if decide (session (agent st) = Some s) then
        let st := requeue_session s st in
        Ok (set_wake_announced false (set_agent Disconnected st), [])
      else Ok (st, [])
  | EvResponse s id a pkt =>
      match pending st !! id with
      | Some p =>
          if decide (pstate p = InFlight s a) then
            Ok (set_requests (delete id (pending st)) (queue st) st,
                [Complete id (Ok pkt)])
          else Ok (st, [])
      | None => Ok (st, [])
      end
  | EvCancelled id =>
      match pending st !! id with
      | Some p =>
          Ok (set_requests (delete id (pending st))
                (filter (λ queued, queued ≠ id) (queue st)) st,
              abandon Cancelled id p)
      | None => Ok (st, [])
      end
  | EvTick => Ok (st, [])
  end.

(** Expire overdue work, apply one fact change, then reconcile all gates.  The
    early return keeps the state that expiry left, without its effects. *)
Definition apply (ev : Event) (now : Instant) (st : BrokerState) :
    BrokerState * result (list Effect) ModelError :=
  let '(st, timed_out) := expire now st in
  match apply_event ev st with
  | Err e => (st, Err e)
  | Ok (st, changed) =>
      let '(st, reconciled) := reconcile st in
      (st, Ok (timed_out ++ changed ++ reconciled))
  end.

(** [BrokerState::new] *)
Definition new (max_pending : N) : BrokerState :=
  {| agent := Disconnected; pending := ∅; queue := [];
     max_pending_requests := max_pending; next_sequence := 0;
     wake_announced := false |}.
