(* ===== verification/BrokerSpec.v ===== *)
(** * BrokerSpec: what the broker promises, without its data structures

    The abstract broker keeps two lists of requests in admission order: those
    delivered to the connected session and those still waiting.  There is no
    hash map, no separate queue of identifiers and no sorting by sequence
    number.  [concrete] is the [BrokerState] that represents an abstract
    state; the file [BrokerRefinement] proves that every operation of
    [BrokerModel] on a representation computes the representation of the
    abstract operation's result, with the same effects. *)

From S2P Require Import Prelude Bytes Packet BrokerModel.

Abbreviation Entry := (RequestId * PendingRequest)%type.

Record SpecState := {
  sp_agent : RemoteAgentState;
  delivered : list Entry;
  waiting : list Entry;
  sp_max : N;
  sp_next : N;
  sp_wake : bool;
}.

Definition entries (sp : SpecState) : list Entry := delivered sp ++ waiting sp.

Definition sp_set_agent (a : RemoteAgentState) (sp : SpecState) : SpecState :=
  {| sp_agent := a; delivered := delivered sp; waiting := waiting sp;
     sp_max := sp_max sp; sp_next := sp_next sp; sp_wake := sp_wake sp |}.
Definition sp_set_entries (d w : list Entry) (sp : SpecState) : SpecState :=
  {| sp_agent := sp_agent sp; delivered := d; waiting := w;
     sp_max := sp_max sp; sp_next := sp_next sp; sp_wake := sp_wake sp |}.
Definition sp_set_next (n : N) (sp : SpecState) : SpecState :=
  {| sp_agent := sp_agent sp; delivered := delivered sp; waiting := waiting sp;
     sp_max := sp_max sp; sp_next := n; sp_wake := sp_wake sp |}.
Definition sp_set_wake (b : bool) (sp : SpecState) : SpecState :=
  {| sp_agent := sp_agent sp; delivered := delivered sp; waiting := waiting sp;
     sp_max := sp_max sp; sp_next := sp_next sp; sp_wake := b |}.

(** ** Abstract operations *)

Definition overdue (now : Instant) (e : Entry) : Prop := expired now e.2 = true.
#[export] Instance overdue_dec now e : Decision (overdue now e).
Proof. unfold overdue. apply _. Defined.

(** Give up on every overdue request, oldest first. *)
Definition spec_expire (now : Instant) (sp : SpecState) : SpecState * list Effect :=
  (sp_set_entries (filter (λ e, ¬ overdue now e) (delivered sp))
     (filter (λ e, ¬ overdue now e) (waiting sp)) sp,
   mjoin ((λ e, abandon TimedOut e.1 e.2) <$> filter (overdue now) (entries sp))).

(** How many more requests the connected session may hold. *)
Definition free_slots (c : N) (sp : SpecState) : nat :=
  N.to_nat (c - len (delivered sp)).

(** Hand the oldest waiting requests to the session, up to its capacity. *)
Definition spec_dispatch (sp : SpecState) : SpecState * list Effect :=
  match sp_agent sp with
  | Disconnected => (sp, [])
  | Locked s c | Ready s c =>
      let n := free_slots c sp in
      let sent := prod_map id (deliver s) <$> take n (waiting sp) in
      (sp_set_entries (delivered sp ++ sent) (drop n (waiting sp)) sp,
       (λ e, dispatch_effect s e.1 e.2) <$> sent)
  end.

Definition waiting_reasons (sp : SpecState) : list rstring :=
  distinct [] (omap (λ e, reason <$> context e.2) (waiting sp)).

(** Announce once that waiting requests need a remote. *)
Definition spec_wake (sp : SpecState) : SpecState * list Effect :=
  if decide (waiting sp = [] ∨ session (sp_agent sp) ≠ None) then
    (sp_set_wake false sp, [])
  else if sp_wake sp then (sp, [])
  else (sp_set_wake true sp, [WakeRequired {| reasons := waiting_reasons sp |}]).

Definition spec_reconcile (sp : SpecState) : SpecState * list Effect :=
  let '(sp, dispatched) := spec_dispatch sp in
  let '(sp, wake) := spec_wake sp in
  (sp, dispatched ++ wake).

Definition find_entry (id : RequestId) (l : list Entry) : option PendingRequest :=
  snd <$> head (filter (λ e, e.1 = id) l).

Definition without (id : RequestId) (l : list Entry) : list Entry :=
  filter (λ e, e.1 ≠ id) l.

Definition fresh_entry (id : RequestId) (pkt : bytes) (ctx : option RequestContext)
    (dl : Instant) (req dlts seq : N) : Entry :=
  (id, {| packet := pkt; context := ctx; deadline := dl; requested_at := req;
          deadline_timestamp := dlts; sequence := seq; attempt := 0;
          pstate := Queued |}).

Definition spec_event (ev : Event) (sp : SpecState) :
    result (SpecState * list Effect) ModelError :=
  match ev with
  | EvSubmit id pkt ctx dl req dlts =>
      if (sp_max sp <=? len (entries sp))%N then
        Ok (sp, [Complete id (Err QueueFull)])
      else
        Ok (sp_set_wake false (sp_set_next (wrap64 (sp_next sp + 1))
             (sp_set_entries (delivered sp)
                (waiting sp ++ [fresh_entry id pkt ctx dl req dlts (sp_next sp)]) sp)), [])
  | EvConnected s c =>
      if decide (sp_agent sp = Disconnected) then
        Ok (sp_set_wake false (sp_set_agent (Locked s c) sp), [])
      else Err RemoteAlreadyConnected
  | EvReady s =>
      match sp_agent sp with
      | Locked active c | Ready active c =>
          if decide (active = s) then Ok (sp_set_agent (Ready s c) sp, []) else Ok (sp, [])
      | Disconnected => Ok (sp, [])
      end
  | EvLocked s =>
      match sp_agent sp with
      | Locked active c | Ready active c =>
          if decide (active = s) then Ok (sp_set_agent (Locked s c) sp, []) else Ok (sp, [])
      | Disconnected => Ok (sp, [])
      end
  | EvDisconnected s =>
      if decide (session (sp_agent sp) = Some s) then
        Ok (sp_set_wake false (sp_set_agent Disconnected
             (sp_set_entries [] ((prod_map id (set_pstate Queued) <$> delivered sp)
                                 ++ waiting sp) sp)), [])
      else Ok (sp, [])
  | EvResponse s id a pkt =>
      match find_entry id (delivered sp) with
      | Some p =>
          if decide (pstate p = InFlight s a) then
            Ok (sp_set_entries (without id (delivered sp)) (waiting sp) sp,
                [Complete id (Ok pkt)])
          else Ok (sp, [])
      | None => Ok (sp, [])
      end
  | EvCancelled id =>
      match find_entry id (entries sp) with
      | Some p =>
          Ok (sp_set_entries (without id (delivered sp)) (without id (waiting sp)) sp,
              abandon Cancelled id p)
      | None => Ok (sp, [])
      end
  | EvTick => Ok (sp, [])
  end.

Definition spec_apply (ev : Event) (now : Instant) (sp : SpecState) :
    SpecState * result (list Effect) ModelError :=
  let '(sp, timed_out) := spec_expire now sp in
  match spec_event ev sp with
  | Err e => (sp, Err e)
  | Ok (sp, changed) =>
      let '(sp, reconciled) := spec_reconcile sp in
      (sp, Ok (timed_out ++ changed ++ reconciled))
  end.

Definition spec_new (max_pending : N) : SpecState :=
  {| sp_agent := Disconnected; delivered := []; waiting := [];
     sp_max := max_pending; sp_next := 0; sp_wake := false |}.

(** ** Representation *)

Definition concrete (sp : SpecState) : BrokerState :=
  {| agent := sp_agent sp; pending := list_to_map (entries sp);
     queue := (waiting sp).*1; max_pending_requests := sp_max sp;
     next_sequence := sp_next sp; wake_announced := sp_wake sp |}.

(** ** Well-formed abstract states *)

Definition older (x y : Entry) : Prop := (sequence x.2 < sequence y.2)%N.

(** Every delivered request is in flight on the connected session under its
    current attempt number. *)
Definition on_session (a : RemoteAgentState) (e : Entry) : Prop :=
  ∃ s, session a = Some s ∧ pstate e.2 = InFlight s (attempt e.2).

Record spec_wf (sp : SpecState) : Prop := {
  wf_distinct : NoDup (entries sp).*1;
  wf_ordered : StronglySorted older (entries sp);
  wf_sequence : Forall (λ e, sequence e.2 < sp_next sp)%N (entries sp);
  wf_waiting : Forall (λ e, pstate e.2 = Queued) (waiting sp);
  wf_delivered : Forall (on_session (sp_agent sp)) (delivered sp);
  wf_capacity : ∀ s c, sp_agent sp = Locked s c ∨ sp_agent sp = Ready s c →
                       (len (delivered sp) ≤ c)%N;
  wf_max : (len (entries sp) ≤ sp_max sp)%N;
}.

(** Between events the wake flag records exactly that waiting requests need a
    remote: it has been announced, and will not be announced again. *)
Definition wake_settled (sp : SpecState) : Prop :=
  sp_wake sp = true ↔ sp_agent sp = Disconnected ∧ waiting sp ≠ [].

(** Events the broker actor can feed to the model: a submitted request carries
    a fresh identifier, and the 64-bit sequence counter has not run out. *)
Definition admissible (ev : Event) (st : BrokerState) : Prop :=
  match ev with
  | EvSubmit id _ _ _ _ _ =>
      pending st !! id = None ∧ (next_sequence st + 1 < 2 ^ 64)%N
  | _ => True
  end.
#[export] Instance admissible_dec ev st : Decision (admissible ev st).
Proof. destruct ev; simpl; apply _. Defined.
