(* ===== verification/BrokerRefinement.v ===== *)
(** * BrokerRefinement: the broker model implements its specification

    For every well-formed abstract state, each operation of [BrokerModel] on
    its representation yields the representation of the abstract result and
    the same effects.  The iteration order of the hash map is shown to be
    unobservable on the way. *)

From S2P Require Import Prelude Bytes Packet Assoc BrokerModel BrokerSpec.

(** ** Well-formedness is a property of sublists *)

Lemma wf_delivered_disconnected sp :
  spec_wf sp → sp_agent sp = Disconnected → delivered sp = [].
Proof.
  intros Hwf E. pose proof (wf_delivered _ Hwf) as H.
  destruct (delivered sp) as [|e d]; [done|].
  apply Forall_cons in H as [(s & Hs & _) _]. by rewrite E in Hs.
Qed.

Lemma len_filter_le {A} (P : A → Prop) `{∀ x, Decision (P x)} (l : list A) :
  (len (filter P l) ≤ len l)%N.
Proof. unfold len. pose proof (length_filter P l). lia. Qed.

(** Removing entries keeps a state well formed. *)
Lemma wf_filter (P Q : Entry → Prop) `{∀ x, Decision (P x), ∀ x, Decision (Q x)} sp :
  spec_wf sp →
  spec_wf (sp_set_entries (filter P (delivered sp)) (filter Q (waiting sp)) sp).
Proof.
  intros []. unfold entries in *. split; unfold entries; simpl.
  - rewrite fmap_app in *. apply NoDup_app in wf_distinct as (Hd & Hdw & Hw).
    apply NoDup_app; split_and!; [by apply NoDup_fst_filter| |by apply NoDup_fst_filter].
    intros k Hk1 Hk2.
    apply list_elem_of_fmap in Hk1 as (e1 & -> & He1).
    apply list_elem_of_fmap in Hk2 as (e2 & E & He2).
    apply list_elem_of_filter in He1 as [_ He1], He2 as [_ He2].
    apply (Hdw e1.1); [by apply list_elem_of_fmap_2|].
    rewrite E. by apply list_elem_of_fmap_2.
  - apply StronglySorted_app in wf_ordered as (Hdw & Hd & Hw).
    apply StronglySorted_app_2.
    + intros x y Hx Hy. apply list_elem_of_filter in Hx as [_ Hx], Hy as [_ Hy]. auto.
    + by apply StronglySorted_filter.
    + by apply StronglySorted_filter.
  - apply Forall_app in wf_sequence as [? ?].
    apply Forall_app; split; by apply Forall_list_filter.
  - by apply Forall_list_filter.
  - by apply Forall_list_filter.
  - intros s c Hsc. etrans; [apply len_filter_le|]. by eapply wf_capacity.
  - etrans; [|exact wf_max]. rewrite !len_app.
    pose proof (len_filter_le P (delivered sp)). pose proof (len_filter_le Q (waiting sp)).
    lia.
Qed.

(** ** Iteration order *)

#[export] Instance by_sequence_trans : Transitive by_sequence.
Proof. intros x y z. unfold by_sequence. lia. Qed.
#[export] Instance by_sequence_total : Total by_sequence.
Proof. intros x y. unfold by_sequence. lia. Qed.

Lemma iter_entries sp :
  spec_wf sp → map_to_list (pending (concrete sp)) ≡ₚ entries sp.
Proof. intros Hwf. by apply map_to_list_to_map, wf_distinct. Qed.

(** Sorting any selection of the requests by sequence number lists them in
    admission order, whatever the order the map was iterated in. *)
Lemma sort_selection (P : Entry → Prop) `{∀ e, Decision (P e)} (iter l : list Entry) :
  StronglySorted older l → iter ≡ₚ l →
  (sort_by_sequence ((λ kv, (kv.1, sequence kv.2)) <$> filter P iter)).*1
  = (filter P l).*1.
Proof.
  intros Hs Hp. unfold sort_by_sequence.
  rewrite (merge_sort_strict by_sequence ((λ kv, (kv.1, sequence kv.2)) <$> filter P l)).
  - by rewrite <- list_fmap_compose.
  - assert (StronglySorted older (filter P l)) as Hs' by by apply StronglySorted_filter.
    clear Hs Hp. induction Hs' as [|e l' Hs IH He]; [constructor|].
    csimpl. constructor; [done|]. apply Forall_fmap.
    eapply Forall_impl; [exact He|]. intros e'. unfold older, by_sequence. simpl. lia.
  - by rewrite Hp.
Qed.

Lemma expired_ids_entries iter l now :
  StronglySorted older l → iter ≡ₚ l →
  expired_ids iter now = (filter (overdue now) l).*1.
Proof. intros Hs Hp. by apply (sort_selection (overdue now)). Qed.

(** ** Expiry *)

Lemma remove_expired_entries (es : list Entry) (m : gmap RequestId PendingRequest) :
  NoDup es.*1 → Forall (λ e, m !! e.1 = Some e.2) es →
  remove_expired es.*1 m
  = (foldr delete m es.*1, mjoin ((λ e, abandon TimedOut e.1 e.2) <$> es)).
Proof.
  revert m. induction es as [|[id p] es IH]; intros m Hnd Hin; [done|].
  csimpl in *. apply NoDup_cons in Hnd as [Hid Hnd].
  apply Forall_cons in Hin as [Hp Hin]. csimpl in Hp. rewrite Hp.
  rewrite IH; [|done|].
  - f_equal. clear -Hid. induction es as [|e es IH]; [done|]. csimpl in *.
    rewrite delete_delete, IH; [done|set_solver].
  - apply Forall_forall. intros e He. rewrite Forall_forall in Hin.
    rewrite lookup_delete_ne; [by apply Hin|].
    intros ->. apply Hid. by apply list_elem_of_fmap_2.
Qed.

Lemma foldr_delete_lookup {V} (m : gmap RequestId V) ks k v :
  foldr delete m ks !! k = Some v ↔ m !! k = Some v ∧ k ∉ ks.
Proof.
  induction ks as [|k' ks IH]; simpl; [set_solver|].
  rewrite lookup_delete_Some, IH. set_solver.
Qed.

Lemma foldr_delete_filter (P : Entry → Prop) `{∀ e, Decision (P e)} (l : list Entry) :
  NoDup l.*1 →
  foldr delete (list_to_map l : gmap RequestId PendingRequest) (filter P l).*1
  = list_to_map (filter (λ e, ¬ P e) l).
Proof.
  intros Hnd. apply map_eq. intros k. apply option_eq. intros v.
  rewrite foldr_delete_lookup, list_to_map_filter by done.
  split; intros [Hkv HP]; (split; [done|]).
  - intros HP'. apply HP. apply (key_in_filter P l (k, v)); try done.
    by apply elem_of_list_to_map.
  - intros Hin. apply HP. apply (key_in_filter P l (k, v)); try done.
    by apply elem_of_list_to_map.
Qed.

Lemma concrete_set_entries sp d w :
  concrete (sp_set_entries d w sp)
  = set_requests (list_to_map (d ++ w)) w.*1 (concrete sp).
Proof. done. Qed.

Lemma overdue_in_map sp now :
  spec_wf sp →
  Forall (λ e, pending (concrete sp) !! e.1 = Some e.2)
    (filter (overdue now) (entries sp)).
Proof.
  intros Hwf. apply Forall_forall. intros [id p] He.
  apply list_elem_of_filter in He as [_ He]. simpl.
  by apply elem_of_list_to_map; [apply wf_distinct|].
Qed.

Lemma refine_expire_iter sp now iter :
  spec_wf sp → iter ≡ₚ map_to_list (pending (concrete sp)) →
  expire_iter iter now (concrete sp)
  = (concrete (spec_expire now sp).1, (spec_expire now sp).2).
Proof.
  intros Hwf Hp. pose proof (wf_distinct _ Hwf) as Hnd.
  rewrite (iter_entries sp Hwf) in Hp.
  unfold expire_iter. rewrite (expired_ids_entries iter (entries sp))
    by (done || by apply wf_ordered).
  rewrite remove_expired_entries
    by (by apply NoDup_fst_filter || by apply overdue_in_map).
  simpl. rewrite concrete_set_entries, <- filter_app. fold (entries sp).
  rewrite foldr_delete_filter by done. f_equal. f_equal.
  apply filter_keys_not_in; [done|].
  intros e He. apply elem_of_app. by right.
Qed.

Lemma refine_expire sp now :
  spec_wf sp →
  expire now (concrete sp) = (concrete (spec_expire now sp).1, (spec_expire now sp).2).
Proof. intros Hwf. by apply refine_expire_iter. Qed.

Lemma wf_expire sp now : spec_wf sp → spec_wf (spec_expire now sp).1.
Proof. apply wf_filter. Qed.

(** ** Lookup *)

Lemma find_entry_lookup id (l : list Entry) :
  (list_to_map l : gmap RequestId PendingRequest) !! id = find_entry id l.
Proof.
  induction l as [|[k p] l IH]; [done|]. unfold find_entry in *.
  simpl list_to_map. rewrite lookup_insert, filter_cons. simpl.
  by destruct (decide (k = id)).
Qed.

Lemma find_entry_app id (l1 l2 : list Entry) :
  find_entry id (l1 ++ l2)
  = match find_entry id l1 with Some p => Some p | None => find_entry id l2 end.
Proof.
  unfold find_entry. rewrite filter_app.
  by destruct (filter (λ e, e.1 = id) l1) as [|[k p] ?].
Qed.

Lemma find_entry_elem id p (l : list Entry) : find_entry id l = Some p → (id, p) ∈ l.
Proof.
  unfold find_entry. destruct (filter (λ e, e.1 = id) l) as [|[k q] t] eqn:E; [done|].
  intros [= <-]. assert ((k, q) ∈ filter (λ e : Entry, e.1 = id) l) as Hin
    by (rewrite E; apply list_elem_of_here).
  apply list_elem_of_filter in Hin as [<- Hin]. done.
Qed.

Lemma without_absent id (l : list Entry) : id ∉ l.*1 → without id l = l.
Proof.
  intros Hid. apply list_filter_all, Forall_forall. intros e He <-.
  apply Hid. by apply list_elem_of_fmap_2.
Qed.

Lemma without_app id (l1 l2 : list Entry) :
  without id (l1 ++ l2) = without id l1 ++ without id l2.
Proof. apply filter_app. Qed.

(** ** Disconnection *)

Lemma in_flight_on_delivered sp s e :
  spec_wf sp → session (sp_agent sp) = Some s → e ∈ delivered sp →
  in_flight_on s e.2 = true.
Proof.
  intros Hwf Hs He. pose proof (wf_delivered _ Hwf) as Hd.
  rewrite Forall_forall in Hd. destruct (Hd e He) as (s' & Hs' & Hp).
  unfold in_flight_on. rewrite Hp. apply bool_decide_eq_true. congruence.
Qed.

Lemma in_flight_on_waiting sp s e :
  spec_wf sp → e ∈ waiting sp → in_flight_on s e.2 = false.
Proof.
  intros Hwf He. pose proof (wf_waiting _ Hwf) as Hw.
  rewrite Forall_forall in Hw. unfold in_flight_on. by rewrite (Hw e He).
Qed.

(** The requests in flight on the connected session are the delivered ones. *)
Lemma in_flight_selection sp s :
  spec_wf sp → session (sp_agent sp) = Some s →
  filter (λ kv : Entry, in_flight_on s kv.2 = true) (entries sp) = delivered sp.
Proof.
  intros Hwf Hs. unfold entries. rewrite filter_app, list_filter_all, list_filter_none.
  - apply app_nil_r.
  - apply Forall_forall. intros e He. by rewrite (in_flight_on_waiting sp).
  - apply Forall_forall. intros e He. by apply (in_flight_on_delivered sp).
Qed.

Lemma refine_in_flight_for sp s :
  spec_wf sp → session (sp_agent sp) = Some s →
  in_flight_for (concrete sp) s = len (delivered sp).
Proof.
  intros Hwf Hs. unfold in_flight_for, len. f_equal.
  rewrite <- (in_flight_selection sp s) by done.
  apply Permutation_length. by rewrite (iter_entries sp Hwf).
Qed.

Definition spec_requeue (sp : SpecState) : SpecState :=
  sp_set_entries [] ((prod_map id (set_pstate Queued) <$> delivered sp) ++ waiting sp) sp.

Lemma refine_requeue_iter sp s iter :
  spec_wf sp → session (sp_agent sp) = Some s →
  iter ≡ₚ map_to_list (pending (concrete sp)) →
  requeue_session_iter iter s (concrete sp) = concrete (spec_requeue sp).
Proof.
  intros Hwf Hs Hp. rewrite (iter_entries sp Hwf) in Hp.
  unfold requeue_session_iter, spec_requeue.
  rewrite (sort_selection (λ kv, in_flight_on s kv.2 = true) iter (entries sp))
    by (done || by apply wf_ordered).
  rewrite in_flight_selection, concrete_set_entries by done. f_equal.
  - simpl. rewrite list_to_map_fmap. f_equal. unfold entries. rewrite fmap_app. f_equal.
    + apply list_fmap_ext. intros i e He. destruct e as [k p]. simpl. f_equal.
      apply list_elem_of_lookup_2 in He.
      pose proof (in_flight_on_delivered sp s (k, p) Hwf Hs He) as E.
      simpl in E. by rewrite E.
    + rewrite <- (list_fmap_id (waiting sp)) at 2.
      apply list_fmap_ext. intros i e He. destruct e as [k p]. simpl. f_equal.
      apply list_elem_of_lookup_2 in He.
      pose proof (in_flight_on_waiting sp s (k, p) Hwf He) as E.
      simpl in E. by rewrite E.
  - by rewrite fmap_app, fst_prod_map_id.
Qed.

(** ** Well-formedness depends on keys and sequence numbers *)

Definition stamps (l : list Entry) : list (RequestId * N) :=
  (λ e, (e.1, sequence e.2)) <$> l.

Lemma stamps_keys l : (stamps l).*1 = l.*1.
Proof. unfold stamps. by rewrite <- list_fmap_compose. Qed.

Lemma stamps_sorted l :
  StronglySorted older l ↔ StronglySorted (λ x y, x.2 < y.2)%N (stamps l).
Proof.
  split.
  - induction 1 as [|e l Hl IH He]; [constructor|]. csimpl. constructor; [done|].
    apply Forall_fmap. exact He.
  - induction l as [|e l IH]; [constructor|]. csimpl. intros Hs.
    apply StronglySorted_inv in Hs as [Hs He]. constructor; [by apply IH|].
    exact (proj1 (Forall_fmap _ _ _) He).
Qed.

Lemma wf_stamps sp sp' :
  spec_wf sp → stamps (entries sp') = stamps (entries sp) →
  sp_next sp' = sp_next sp → sp_max sp' = sp_max sp →
  Forall (λ e, pstate e.2 = Queued) (waiting sp') →
  Forall (on_session (sp_agent sp')) (delivered sp') →
  (∀ s c, sp_agent sp' = Locked s c ∨ sp_agent sp' = Ready s c →
          (len (delivered sp') ≤ c)%N) →
  spec_wf sp'.
Proof.
  intros [] Est En Em Hw Hd Hc. split; try done.
  - by rewrite <- stamps_keys, Est, stamps_keys.
  - by rewrite stamps_sorted, Est, <- stamps_sorted.
  - rewrite En. cut (Forall (λ x, x.2 < sp_next sp)%N (stamps (entries sp'))).
    { intros H. exact (proj1 (Forall_fmap _ _ _) H). }
    rewrite Est. apply Forall_fmap. exact wf_sequence.
  - rewrite Em. etrans; [|exact wf_max]. apply N.eq_le_incl. unfold len. f_equal.
    apply (f_equal length) in Est. unfold stamps in Est. by rewrite !length_fmap in Est.
Qed.

Lemma stamps_app l1 l2 : stamps (l1 ++ l2) = stamps l1 ++ stamps l2.
Proof. apply fmap_app. Qed.

Lemma stamps_prod_map f l :
  (∀ p, sequence (f p) = sequence p) → stamps (prod_map id f <$> l) = stamps l.
Proof.
  intros Hf. unfold stamps. rewrite <- list_fmap_compose. apply list_fmap_ext.
  intros i [k p] _. simpl. by rewrite Hf.
Qed.

(** ** Dispatch *)

Lemma dispatch_loop_entries s c (w d : list Entry) :
  NoDup (d ++ w).*1 →
  let n := N.to_nat (c - len d) in
  let sent := prod_map id (deliver s) <$> take n w in
  dispatch_loop s c (len d) w.*1 (list_to_map (d ++ w))
  = ((drop n w).*1, list_to_map (d ++ sent ++ drop n w),
     (λ e, dispatch_effect s e.1 e.2) <$> sent).
Proof.
  revert d. induction w as [|[id p] w IH]; intros d Hnd; cbv zeta.
  { by rewrite take_nil, drop_nil. }
  csimpl. destruct (N.ltb_spec (len d) c) as [Hlt|Hge].
  - rewrite (elem_of_list_to_map_1 _ id p) by
      (done || (apply elem_of_app; right; apply list_elem_of_here)).
    replace (N.to_nat (c - len d))
      with (S (N.to_nat (c - len (d ++ [(id, deliver s p)]))))
      by (rewrite len_app; unfold len in *; simpl; lia).
    rewrite list_to_map_update, (cons_middle (id, deliver s p) d w), app_assoc by done.
    replace (len d + 1)%N with (len (d ++ [(id, deliver s p)])) by (by rewrite len_app).
    rewrite IH by (by rewrite <- app_assoc, fmap_app in *).
    csimpl. by rewrite <- app_assoc.
  - replace (N.to_nat (c - len d)) with 0 by lia. done.
Qed.

Lemma refine_dispatch sp :
  spec_wf sp →
  dispatch_queue (concrete sp) = (concrete (spec_dispatch sp).1, (spec_dispatch sp).2).
Proof.
  intros Hwf. unfold dispatch_queue, connected_remote, spec_dispatch. simpl.
  destruct (sp_agent sp) as [|s c|s c] eqn:Ea; [done| |];
    rewrite refine_in_flight_for by (by rewrite ?Ea); unfold entries;
    rewrite (dispatch_loop_entries s c (waiting sp) (delivered sp)) by apply Hwf;
    simpl; by rewrite concrete_set_entries, <- app_assoc.
Qed.

Lemma deliver_on_session a s e :
  session a = Some s → on_session a (prod_map id (deliver s) e).
Proof. destruct e as [k p]. intros Hs. by exists s. Qed.

Lemma wf_dispatch sp : spec_wf sp → spec_wf (spec_dispatch sp).1.
Proof.
  intros Hwf. unfold spec_dispatch.
  destruct (sp_agent sp) as [|s c|s c] eqn:Ea; [done| |];
    apply (wf_stamps sp); simpl; try done;
    try (unfold entries at 1; simpl; rewrite <- app_assoc, !stamps_app,
           stamps_prod_map, <- stamps_app, take_drop by done; by rewrite <- stamps_app);
    try (apply Forall_drop; apply Hwf);
    try (apply Forall_app; split; [apply Hwf|]; apply Forall_fmap, Forall_true;
         intros e; apply deliver_on_session; by rewrite Ea).
  all: intros s' c' Hsc; pose proof (wf_capacity _ Hwf s' c' Hsc) as Hc;
    rewrite len_app; unfold len, free_slots in *; rewrite length_fmap, length_take.
  all: assert (c' = c) as -> by (rewrite Ea in Hsc; naive_solver); unfold len; lia.
Qed.

(** ** Wake announcements *)

Lemma refine_reasons sp :
  spec_wf sp → queued_reasons (concrete sp) = waiting_reasons sp.
Proof.
  intros Hwf. unfold queued_reasons, waiting_reasons. f_equal. simpl.
  assert (∀ e, e ∈ waiting sp →
    (list_to_map (entries sp) : gmap RequestId PendingRequest) !! e.1 = Some e.2) as Hin.
  { intros [k p] He. apply elem_of_list_to_map_1; [apply Hwf|].
    apply elem_of_app. by right. }
  induction (waiting sp) as [|e w IH]; [done|]. csimpl.
  rewrite Hin by apply list_elem_of_here. simpl.
  rewrite IH by (intros e' He'; by apply Hin, list_elem_of_further). done.
Qed.

Lemma refine_wake sp :
  spec_wf sp →
  announce_wake (concrete sp) = (concrete (spec_wake sp).1, (spec_wake sp).2).
Proof.
  intros Hwf. unfold announce_wake, spec_wake.
  rewrite (refine_reasons sp Hwf).
  rewrite (decide_ext (queue (concrete sp) = [] ∨ session (agent (concrete sp)) ≠ None)
             (waiting sp = [] ∨ session (sp_agent sp) ≠ None)).
  - destruct (decide _); [done|]. simpl. by destruct (sp_wake sp).
  - simpl. destruct (waiting sp); naive_solver.
Qed.

Lemma wf_ignores_wake sp b : spec_wf sp → spec_wf (sp_set_wake b sp).
Proof. intros []. by split. Qed.

Lemma wf_wake sp : spec_wf sp → spec_wf (spec_wake sp).1.
Proof.
  intros Hwf. unfold spec_wake. repeat case_decide || case_match;
    simpl; by try apply wf_ignores_wake.
Qed.

Lemma wake_settled_wake sp : wake_settled (spec_wake sp).1.
Proof.
  unfold wake_settled, spec_wake. case_decide as Hd.
  - simpl. split; [done|]. intros [Ea Hw]. rewrite Ea in Hd. naive_solver.
  - assert (sp_agent sp = Disconnected) as Ea.
    { destruct (sp_agent sp); [done|exfalso; apply Hd; by right..]. }
    destruct (sp_wake sp) eqn:Ew; simpl; tauto.
Qed.

(** ** Reconciliation *)

Lemma refine_reconcile sp :
  spec_wf sp →
  reconcile (concrete sp) = (concrete (spec_reconcile sp).1, (spec_reconcile sp).2).
Proof.
  intros Hwf. unfold reconcile, spec_reconcile.
  rewrite refine_dispatch by done. pose proof (wf_dispatch sp Hwf) as Hwf'.
  destruct (spec_dispatch sp) as [sp' d]. simpl in *.
  rewrite refine_wake by done. by destruct (spec_wake sp').
Qed.

Lemma wf_reconcile sp : spec_wf sp → spec_wf (spec_reconcile sp).1.
Proof.
  intros Hwf. unfold spec_reconcile. pose proof (wf_dispatch sp Hwf) as Hwf'.
  destruct (spec_dispatch sp) as [sp' d]. simpl in *.
  pose proof (wf_wake sp' Hwf'). by destruct (spec_wake sp').
Qed.

Lemma wake_settled_reconcile sp : wake_settled (spec_reconcile sp).1.
Proof.
  unfold spec_reconcile. destruct (spec_dispatch sp) as [sp' d].
  pose proof (wake_settled_wake sp'). by destruct (spec_wake sp').
Qed.

(** ** Events *)

Lemma refine_response sp s id a pkt :
  spec_wf sp →
  apply_event (EvResponse s id a pkt) (concrete sp)
  = match spec_event (EvResponse s id a pkt) sp with
    | Ok (sp', es) => Ok (concrete sp', es)
    | Err e => Err e
    end.
Proof.
  intros Hwf. simpl. rewrite find_entry_lookup. unfold entries. rewrite find_entry_app.
  destruct (find_entry id (delivered sp)) as [p|] eqn:Ed.
  - destruct (decide _); [|done].
    rewrite concrete_set_entries. do 3 f_equal.
    rewrite list_to_map_delete by apply Hwf. f_equal.
    fold (without id (delivered sp ++ waiting sp)). rewrite without_app. f_equal. apply without_absent.
    apply find_entry_elem in Ed. pose proof (wf_distinct _ Hwf) as Hnd.
    unfold entries in Hnd. rewrite fmap_app in Hnd.
    apply NoDup_app in Hnd as (_ & Hdw & _).
    apply Hdw. by apply (list_elem_of_fmap_2 fst) in Ed.
  - destruct (find_entry id (waiting sp)) as [p|] eqn:Ew; [|done].
    apply find_entry_elem in Ew. pose proof (wf_waiting _ Hwf) as Hw.
    rewrite Forall_forall in Hw. specialize (Hw _ Ew). simpl in Hw. by rewrite Hw.
Qed.

Lemma refine_cancelled sp id :
  spec_wf sp →
  apply_event (EvCancelled id) (concrete sp)
  = match spec_event (EvCancelled id) sp with
    | Ok (sp', es) => Ok (concrete sp', es)
    | Err e => Err e
    end.
Proof.
  intros Hwf. simpl. rewrite find_entry_lookup.
  destruct (find_entry id (entries sp)) as [p|]; [|done].
  rewrite concrete_set_entries. do 2 f_equal. f_equal.
  - rewrite list_to_map_delete by apply Hwf. f_equal.
    fold (without id (entries sp)). apply without_app.
  - by rewrite list_filter_fmap_comp.
Qed.

Lemma refine_event sp ev :
  spec_wf sp → admissible ev (concrete sp) →
  apply_event ev (concrete sp)
  = match spec_event ev sp with
    | Ok (sp', es) => Ok (concrete sp', es)
    | Err e => Err e
    end.
Proof.
  intros Hwf Hadm. destruct ev as [id pkt ctx dl req dlts|s c|s|s|s|s id a pkt|id|].
  - simpl. rewrite list_to_map_size by apply Hwf. fold (len (entries sp)).
    destruct (_ <=? _)%N; [done|]. do 2 f_equal.
    destruct Hadm as [Hfresh%not_elem_of_list_to_map_2 _].
    unfold concrete, entries, fresh_entry in *. simpl.
    by rewrite app_assoc, list_to_map_snoc, fmap_app by done.
  - simpl. by destruct (decide _).
  - simpl. by destruct (sp_agent sp); [done|destruct (decide _)..].
  - simpl. destruct (sp_agent sp); simpl; [done|destruct (decide _)..];
      repeat case_decide; naive_solver.
  - simpl. case_decide as Hs; [|done].
    unfold requeue_session. by rewrite refine_requeue_iter.
  - by apply refine_response.
  - by apply refine_cancelled.
  - done.
Qed.

Lemma wf_submit sp e :
  spec_wf sp → e.1 ∉ (entries sp).*1 → sequence e.2 = sp_next sp →
  pstate e.2 = Queued → (sp_next sp + 1 < 2 ^ 64)%N → (len (entries sp) < sp_max sp)%N →
  spec_wf (sp_set_wake false (sp_set_next (wrap64 (sp_next sp + 1))
             (sp_set_entries (delivered sp) (waiting sp ++ [e]) sp))).
Proof.
  intros [] Hid Hseq Hq Hlt Hmax. unfold wrap64. rewrite N.mod_small by done.
  split; try done; unfold entries; simpl; rewrite ?app_assoc; fold (entries sp).
  - rewrite fmap_app. apply NoDup_app. split_and!; [done| |apply NoDup_singleton].
    intros k Hk ->%list_elem_of_singleton. done.
  - apply StronglySorted_app_2; [|done|repeat constructor].
    intros x y Hx ->%list_elem_of_singleton. unfold older. rewrite Hseq.
    rewrite Forall_forall in wf_sequence. by apply wf_sequence.
  - apply Forall_app. split; [|apply Forall_singleton; lia].
    eapply Forall_impl; [done|]. intros e'. simpl. lia.
  - apply Forall_app. split; [done|]. by apply Forall_singleton.
  - rewrite len_app. unfold len at 2. simpl. lia.
Qed.

Lemma wf_relabel_agent sp a :
  spec_wf sp → session a = session (sp_agent sp) →
  (∀ s c, a = Locked s c ∨ a = Ready s c →
          ∃ s', sp_agent sp = Locked s' c ∨ sp_agent sp = Ready s' c) →
  spec_wf (sp_set_agent a sp).
Proof.
  intros Hwf Hs Hc. apply (wf_stamps sp); try done; simpl.
  - apply Hwf.
  - eapply Forall_impl; [apply Hwf|]. intros e (s & Hs' & Hp).
    exists s. by rewrite Hs.
  - intros s c Hsc. destruct (Hc s c Hsc) as [s' Hs']. by eapply Hwf.
Qed.

Lemma wf_connect sp a :
  spec_wf sp → sp_agent sp = Disconnected → spec_wf (sp_set_agent a sp).
Proof.
  intros Hwf Ea. pose proof (wf_delivered_disconnected sp Hwf Ea) as Ed.
  apply (wf_stamps sp); try done; simpl.
  - apply Hwf.
  - by rewrite Ed.
  - intros s c _. rewrite Ed. unfold len. simpl. lia.
Qed.

Lemma wf_disconnect sp :
  spec_wf sp → spec_wf (sp_set_agent Disconnected (spec_requeue sp)).
Proof.
  intros Hwf. apply (wf_stamps sp); try done; simpl.
  - unfold entries. simpl. rewrite !stamps_app. by rewrite stamps_prod_map.
  - apply Forall_app. split; [|apply Hwf].
    apply Forall_fmap, Forall_true. by intros [].
  - naive_solver.
Qed.

Lemma wf_remove_delivered sp id :
  spec_wf sp → spec_wf (sp_set_entries (without id (delivered sp)) (waiting sp) sp).
Proof.
  intros Hwf. pose proof (wf_filter (λ e, e.1 ≠ id) (λ _, True) sp Hwf) as H.
  by rewrite (list_filter_all (λ _, True) (waiting sp)) in H by by apply Forall_true.
Qed.

Lemma wf_event sp ev sp' es :
  spec_wf sp → admissible ev (concrete sp) → spec_event ev sp = Ok (sp', es) →
  spec_wf sp'.
Proof.
  intros Hwf Hadm Hev. destruct ev as [id pkt ctx dl req dlts|s c|s|s|s|s id a pkt|id|];
    simpl in Hev.
  - destruct (N.leb_spec (sp_max sp) (len (entries sp))); simplify_eq; [done|].
    destruct Hadm as [Hfresh%not_elem_of_list_to_map_2 Hlt]. by apply wf_submit.
  - case_decide; simplify_eq. by apply wf_ignores_wake, wf_connect.
  - destruct (sp_agent sp) eqn:Ea; simplify_eq; try done;
      case_decide; simplify_eq; try done; apply wf_relabel_agent; rewrite ?Ea; naive_solver.
  - destruct (sp_agent sp) eqn:Ea; simplify_eq; try done;
      case_decide; simplify_eq; try done; apply wf_relabel_agent; rewrite ?Ea; naive_solver.
  - case_decide; simplify_eq; [|done]. by apply wf_ignores_wake, wf_disconnect.
  - destruct (find_entry _ _); [case_decide|]; simplify_eq; try done.
    by apply wf_remove_delivered.
  - destruct (find_entry _ _); simplify_eq; [|done]. by apply wf_filter.
  - by simplify_eq.
Qed.

(** ** The whole step *)

Lemma admissible_expire ev now sp :
  admissible ev (concrete sp) → spec_wf sp → admissible ev (concrete (spec_expire now sp).1).
Proof.
  destruct ev; try done. intros [Hid Hlt] Hwf. split; [|done].
  apply not_elem_of_list_to_map. apply not_elem_of_list_to_map in Hid.
  intros Hin. apply Hid. simpl in *. unfold entries in *. simpl in Hin.
  rewrite <- filter_app in Hin. apply list_elem_of_fmap in Hin as (e & -> & He).
  apply list_elem_of_filter in He as [_ He]. by apply list_elem_of_fmap_2.
Qed.

Lemma refine_apply sp ev now :
  spec_wf sp → admissible ev (concrete sp) →
  apply ev now (concrete sp)
  = (concrete (spec_apply ev now sp).1, (spec_apply ev now sp).2).
Proof.
  intros Hwf Hadm. unfold apply, spec_apply. rewrite refine_expire by done.
  pose proof (wf_expire sp now Hwf) as Hwf1.
  pose proof (admissible_expire ev now sp Hadm Hwf) as Hadm1.
  destruct (spec_expire now sp) as [sp1 es0]. simpl in *.
  rewrite refine_event by done.
  destruct (spec_event ev sp1) as [[sp2 es1]|e] eqn:Eev; [|done].
  pose proof (wf_event _ _ _ _ Hwf1 Hadm1 Eev) as Hwf2.
  rewrite refine_reconcile by done. by destruct (spec_reconcile sp2).
Qed.

Lemma spec_event_err ev sp e :
  spec_event ev sp = Err e → ∃ s c, ev = EvConnected s c ∧ sp_agent sp ≠ Disconnected.
Proof.
  destruct ev; simpl; try done; repeat case_match; try done; intros; simplify_eq; eauto.
Qed.

Lemma wf_apply sp ev now :
  spec_wf sp → admissible ev (concrete sp) → spec_wf (spec_apply ev now sp).1.
Proof.
  intros Hwf Hadm. unfold spec_apply.
  pose proof (wf_expire sp now Hwf) as Hwf1.
  pose proof (admissible_expire ev now sp Hadm Hwf) as Hadm1.
  destruct (spec_expire now sp) as [sp1 es0]. simpl in *.
  destruct (spec_event ev sp1) as [[sp2 es1]|e] eqn:Eev; [|done].
  pose proof (wf_reconcile sp2 (wf_event _ _ _ _ Hwf1 Hadm1 Eev)).
  by destruct (spec_reconcile sp2).
Qed.

#[export] Hint Resolve wf_expire wf_dispatch wf_wake wf_reconcile wf_apply wf_event
  admissible_expire : broker.

Lemma wake_settled_apply sp ev now :
  wake_settled sp → wake_settled (spec_apply ev now sp).1.
Proof.
  intros Hset. unfold spec_apply. simpl.
  destruct (spec_event ev _) as [[sp2 es1]|e] eqn:Eev; simpl.
  - pose proof (wake_settled_reconcile sp2). by destruct (spec_reconcile sp2).
  - apply spec_event_err in Eev as (s & c & -> & Ha). simpl in Ha.
    unfold wake_settled in *. simpl. naive_solver.
Qed.
