(* ===== verification/BrokerProps.v ===== *)
(** * BrokerProps: what the broker guarantees in every reachable state

    Reachability of [BrokerModel] states, and the theorems about them: the
    refinement of the abstract broker along whole event sequences, the
    structural invariant, FIFO order, conservation of requests, deadline
    enforcement, response correlation, capacity, wake announcements, and
    independence from the hash map's iteration order.  All are consequences of
    [BrokerRefinement]. *)

From S2P Require Import Prelude Bytes Packet Assoc BrokerModel BrokerSpec BrokerRefinement.

(** ** Runs and reachability *)

(** A sequence of events, each at the instant it is applied. *)
Fixpoint run (trace : list (Event * Instant)) (st : BrokerState) :
    BrokerState * list (result (list Effect) ModelError) :=
  match trace with
  | [] => (st, [])
  | (ev, now) :: rest =>
      let '(st', r) := apply ev now st in
      let '(st'', rs) := run rest st' in
      (st'', r :: rs)
  end.

Fixpoint spec_run (trace : list (Event * Instant)) (sp : SpecState) :
    SpecState * list (result (list Effect) ModelError) :=
  match trace with
  | [] => (sp, [])
  | (ev, now) :: rest =>
      let '(sp', r) := spec_apply ev now sp in
      let '(sp'', rs) := spec_run rest sp' in
      (sp'', r :: rs)
  end.

Fixpoint admissible_run (trace : list (Event * Instant)) (st : BrokerState) : Prop :=
  match trace with
  | [] => True
  | (ev, now) :: rest => admissible ev st ∧ admissible_run rest (apply ev now st).1
  end.

Inductive step : BrokerState → BrokerState → Prop :=
| step_apply ev now st st' r :
    admissible ev st → apply ev now st = (st', r) → step st st'.

Definition reachable (max : N) (st : BrokerState) : Prop := rtc step (new max) st.

(** ** Observations on effects *)

Definition completes (id : RequestId) (e : Effect) : bool :=
  match e with
  | Complete id' _ => bool_decide (id' = id)
  | _ => false
  end.
Definition completions (id : RequestId) (es : list Effect) : nat :=
  length (filter (λ e, completes id e = true) es).

Definition holds (id : RequestId) (st : BrokerState) : nat :=
  if decide (is_Some (pending st !! id)) then 1 else 0.

Definition submits (id : RequestId) (ev : Event) : nat :=
  match ev with
  | EvSubmit id' _ _ _ _ _ => if decide (id' = id) then 1 else 0
  | _ => 0
  end.

(** ** Every reachable state represents a well-formed abstract state *)

Lemma wf_new max : spec_wf (spec_new max).
Proof.
  split; unfold entries; simpl; try by constructor.
  - naive_solver.
  - unfold len. simpl. lia.
Qed.

Lemma wake_settled_new max : wake_settled (spec_new max).
Proof. unfold wake_settled. naive_solver. Qed.

Lemma spec_apply_max ev now sp : sp_max (spec_apply ev now sp).1 = sp_max sp.
Proof.
  unfold spec_apply, spec_reconcile, spec_dispatch, spec_wake. simpl.
  destruct ev; simpl; repeat case_match; simplify_eq; done.
Qed.

Lemma reachable_spec max st :
  reachable max st →
  ∃ sp, st = concrete sp ∧ spec_wf sp ∧ wake_settled sp ∧ sp_max sp = max.
Proof.
  intros Hr. unfold reachable in Hr. revert st Hr.
  refine (@rtc_ind_r _ step _ (new max) _ _).
  - exists (spec_new max). split_and!; [done|apply wf_new|apply wake_settled_new|done].
  - intros st st' _ [ev now st0 st0' r Hadm Hap] (sp & -> & Hwf & Hset & Hmax).
    rewrite refine_apply in Hap by done. simplify_eq.
    exists (spec_apply ev now sp).1. split_and!; [done| | |].
    + auto with broker.
    + by apply wake_settled_apply.
    + by rewrite spec_apply_max.
Qed.

(** A broker state that represents a well-formed abstract state. *)
Definition well_formed (st : BrokerState) : Prop := ∃ sp, st = concrete sp ∧ spec_wf sp.

Lemma well_formed_new max : well_formed (new max).
Proof. exists (spec_new max). split; [done|apply wf_new]. Qed.

Lemma well_formed_reachable max st : reachable max st → well_formed st.
Proof. intros (sp & -> & Hwf & _)%reachable_spec. by exists sp. Qed.

Lemma well_formed_apply ev now st st' r :
  well_formed st → admissible ev st → apply ev now st = (st', r) → well_formed st'.
Proof.
  intros (sp & -> & Hwf) Hadm Hap. rewrite refine_apply in Hap by done. simplify_eq.
  eexists. split; auto with broker.
Qed.

(** Transfer of the abstract well-formedness to the concrete state. *)

Lemma pending_entry sp id p :
  spec_wf sp → pending (concrete sp) !! id = Some p ↔ (id, p) ∈ entries sp.
Proof. intros Hwf. symmetry. by apply elem_of_list_to_map, wf_distinct. Qed.

Lemma entry_cases sp e :
  e ∈ entries sp ↔ e ∈ delivered sp ∨ e ∈ waiting sp.
Proof. apply elem_of_app. Qed.

Lemma waiting_queued sp e : spec_wf sp → e ∈ waiting sp → pstate e.2 = Queued.
Proof. intros Hwf He. pose proof (wf_waiting _ Hwf) as H. rewrite Forall_forall in H. auto. Qed.

Lemma delivered_in_flight sp e :
  spec_wf sp → e ∈ delivered sp →
  ∃ s, session (sp_agent sp) = Some s ∧ pstate e.2 = InFlight s (attempt e.2).
Proof.
  intros Hwf He. pose proof (wf_delivered _ Hwf) as H. rewrite Forall_forall in H.
  by apply H.
Qed.

Lemma queued_waiting sp e :
  spec_wf sp → e ∈ entries sp → pstate e.2 = Queued → e ∈ waiting sp.
Proof.
  intros Hwf [He|He]%entry_cases Hq; [|done].
  destruct (delivered_in_flight sp e Hwf He) as (s & _ & Hp). congruence.
Qed.

Lemma in_flight_delivered sp e s a :
  spec_wf sp → e ∈ entries sp → pstate e.2 = InFlight s a → e ∈ delivered sp.
Proof.
  intros Hwf [He|He]%entry_cases Hq; [done|].
  pose proof (waiting_queued sp e Hwf He). congruence.
Qed.

Lemma older_irrefl (l : list Entry) x y :
  StronglySorted older l → x ∈ l → y ∈ l → sequence x.2 = sequence y.2 → x = y.
Proof.
  induction 1 as [|z l Hl IH Hz]; intros Hx Hy E.
  - by apply not_elem_of_nil in Hx.
  - rewrite Forall_forall in Hz.
    apply elem_of_cons in Hx as [->|Hx]; apply elem_of_cons in Hy as [->|Hy]; auto.
    + specialize (Hz y Hy). unfold older in Hz. lia.
    + specialize (Hz x Hx). unfold older in Hz. lia.
Qed.

(** ** The structural invariant *)

(** Everything the fields of [BrokerState] promise about each other. *)
Record invariant (max : N) (st : BrokerState) : Prop := {
  inv_queue_distinct : NoDup (queue st);
  inv_queue_is_queued : ∀ id,
    id ∈ queue st ↔ ∃ p, pending st !! id = Some p ∧ pstate p = Queued;
  inv_in_flight_session : ∀ id p s a,
    pending st !! id = Some p → pstate p = InFlight s a →
    session (agent st) = Some s ∧ a = attempt p;
  inv_sequence_bound : ∀ id p,
    pending st !! id = Some p → (sequence p < next_sequence st)%N;
  inv_sequence_distinct : ∀ id1 id2 p1 p2,
    pending st !! id1 = Some p1 → pending st !! id2 = Some p2 →
    sequence p1 = sequence p2 → id1 = id2;
  inv_capacity : ∀ s c,
    connected_remote st = Some (s, c) → (in_flight_for st s ≤ c)%N;
  inv_pending_bound : (N.of_nat (size (pending st)) ≤ max)%N;
  inv_wake : wake_announced st = true ↔ agent st = Disconnected ∧ queue st ≠ [];
}.

Lemma wf_queue sp id :
  spec_wf sp →
  id ∈ queue (concrete sp) ↔
  ∃ p, pending (concrete sp) !! id = Some p ∧ pstate p = Queued.
Proof.
  intros Hwf. simpl. rewrite list_elem_of_fmap. split.
  - intros ([k p] & -> & He). exists p. split.
    + apply (pending_entry sp _ p Hwf), entry_cases. by right.
    + by apply (waiting_queued sp (k, p)).
  - intros (p & Hp & Hq). exists (id, p). split; [done|].
    apply queued_waiting; try done. by apply pending_entry.
Qed.

Lemma connected_agent st s c :
  connected_remote st = Some (s, c) → agent st = Locked s c ∨ agent st = Ready s c.
Proof. unfold connected_remote. destruct (agent st); naive_solver. Qed.

Lemma connected_session st s c :
  connected_remote st = Some (s, c) → session (agent st) = Some s.
Proof. unfold connected_remote. destruct (agent st); naive_solver. Qed.

Lemma wf_invariant sp :
  spec_wf sp → wake_settled sp → invariant (sp_max sp) (concrete sp).
Proof.
  intros Hwf Hset. split.
  - simpl. pose proof (wf_distinct _ Hwf) as Hnd. unfold entries in Hnd.
    rewrite fmap_app in Hnd. by apply NoDup_app in Hnd as (_ & _ & ?).
  - intros id. by apply wf_queue.
  - intros id p s a Hp Hs. apply pending_entry in Hp; [|done].
    pose proof (in_flight_delivered _ _ s a Hwf Hp Hs) as Hd.
    destruct (delivered_in_flight _ _ Hwf Hd) as (s' & Hs' & Hp'). simpl in *.
    rewrite Hs in Hp'. by simplify_eq.
  - intros id p Hp. apply pending_entry in Hp; [|done].
    pose proof (wf_sequence _ Hwf) as H. rewrite Forall_forall in H. by apply H in Hp.
  - intros id1 id2 p1 p2 H1 H2 E. apply pending_entry in H1, H2; try done.
    pose proof (older_irrefl _ _ _ (wf_ordered _ Hwf) H1 H2 E). by simplify_eq.
  - intros s c Hsc. rewrite refine_in_flight_for
      by (done || exact (connected_session (concrete sp) s c Hsc)).
    apply (wf_capacity _ Hwf s c), (connected_agent (concrete sp)), Hsc.
  - simpl. rewrite list_to_map_size by apply Hwf. apply Hwf.
  - simpl. unfold wake_settled in Hset. rewrite Hset.
    destruct (waiting sp); naive_solver.
Qed.

(** C12: In every reachable state the queue lists, without repetition, exactly
    the pending requests that are queued; every in-flight request belongs to
    the connected session under its current attempt; sequence numbers are
    distinct and below the counter; the session's capacity and the pending
    limit are respected; and the wake flag is set exactly when queued requests
    wait for a remote. *)
Theorem reachable_invariant max st : reachable max st → invariant max st.
Proof.
  intros (sp & -> & Hwf & Hset & <-)%reachable_spec. by apply wf_invariant.
Qed.

(** ** Runs *)

#[export] Instance admissible_run_dec trace st : Decision (admissible_run trace st).
Proof.
  revert st. induction trace as [|[ev now] trace IH]; intros st; simpl; apply _.
Defined.

Lemma run_reachable_from max trace st :
  reachable max st → admissible_run trace st → reachable max (run trace st).1.
Proof.
  revert st. induction trace as [|[ev now] trace IH]; intros st Hr Hadm; [done|].
  destruct Hadm as [Hadm Hrest]. simpl in *.
  destruct (apply ev now st) as [st' r] eqn:E. simpl in *.
  specialize (IH st'). destruct (run trace st') as [st'' rs]. simpl in *.
  apply IH; [|done]. eapply rtc_r; [exact Hr|]. by eapply step_apply.
Qed.

Lemma run_reachable max trace :
  admissible_run trace (new max) → reachable max (run trace (new max)).1.
Proof. apply run_reachable_from. apply rtc_refl. Qed.

Lemma run_refines trace sp :
  spec_wf sp → admissible_run trace (concrete sp) →
  run trace (concrete sp) = (concrete (spec_run trace sp).1, (spec_run trace sp).2)
  ∧ spec_wf (spec_run trace sp).1.
Proof.
  revert sp. induction trace as [|[ev now] trace IH]; intros sp Hwf Hadm; [done|].
  destruct Hadm as [Hadm Hrest]. simpl in *.
  pose proof (wf_apply sp ev now Hwf Hadm) as Hwf'.
  rewrite refine_apply in * by done.
  destruct (spec_apply ev now sp) as [sp' r]. simpl in *.
  destruct (IH sp' Hwf' Hrest) as [-> Hwf'']. by destruct (spec_run trace sp').
Qed.

(** C11: Along every admissible sequence of events the broker model computes
    the same results and effects as the abstract broker that keeps two lists
    in admission order, and its state represents the abstract state. *)
Theorem broker_refines_spec max trace :
  admissible_run trace (new max) →
  run trace (new max)
  = (concrete (spec_run trace (spec_new max)).1, (spec_run trace (spec_new max)).2).
Proof. intros Hadm. by apply (run_refines trace (spec_new max)), Hadm; apply wf_new. Qed.

(** ** FIFO order *)

(** Position of a pending request in admission order. *)
Definition admitted_before (st : BrokerState) (id1 id2 : RequestId) : Prop :=
  ∃ p1 p2, pending st !! id1 = Some p1 ∧ pending st !! id2 = Some p2
           ∧ (sequence p1 < sequence p2)%N.

Lemma sorted_keys st (l : list Entry) :
  Forall (λ e, pending st !! e.1 = Some e.2) l → StronglySorted older l →
  StronglySorted (admitted_before st) l.*1.
Proof.
  intros Hin Hs. induction Hs as [|e l Hs IH He]; [constructor|].
  apply Forall_cons in Hin as [Hp Hin]. csimpl. constructor; [by apply IH|].
  apply Forall_fmap, Forall_forall. intros e' He'. simpl.
  rewrite Forall_forall in Hin, He. exists e.2, e'.2. split_and!; auto.
  by apply He.
Qed.

(** In every reachable state the queue is in admission order, and every
    in-flight request was admitted before every queued one; so requeueing a
    session's work in front of the queue restores admission order. *)
Theorem queue_in_admission_order max st :
  reachable max st →
  StronglySorted (admitted_before st) (queue st) ∧
  ∀ id p s a queued,
    pending st !! id = Some p → pstate p = InFlight s a → queued ∈ queue st →
    admitted_before st id queued.
Proof.
  intros (sp & -> & Hwf & _ & _)%reachable_spec.
  pose proof (wf_ordered _ Hwf) as Hord. unfold entries in Hord.
  apply StronglySorted_app in Hord as (Hdw & _ & Hw).
  assert (∀ e, e ∈ waiting sp → pending (concrete sp) !! e.1 = Some e.2) as Hin.
  { intros [k p] He. apply pending_entry; [done|]. apply entry_cases. by right. }
  split.
  - apply sorted_keys; [|done]. by apply Forall_forall.
  - intros id p s a queued Hp Hs Hq.
    apply list_elem_of_fmap in Hq as (e & -> & He).
    exists p, e.2. split_and!; [done|by apply Hin|].
    apply (Hdw (id, p)); [|done]. apply (in_flight_delivered sp _ s a); try done.
    by apply pending_entry.
Qed.

(** ** The hash map's iteration order is unobservable *)

Lemma next_deadline_iter_perm l l' :
  l ≡ₚ l' → next_deadline_iter l = next_deadline_iter l'.
Proof.
  unfold next_deadline_iter.
  induction 1 as [|x l l' Hp IH|x y l|l l' l'' Hp1 IH1 Hp2 IH2]; simpl.
  - done.
  - by rewrite IH.
  - destruct (foldr _ _ l) as [d|]; f_equal; lia.
  - by rewrite IH1.
Qed.

(** C13: In every reachable state, expiring overdue requests, requeueing a
    session and computing the next deadline give the same state, effects and
    result whatever order the hash map is iterated in. *)
Theorem iteration_order_irrelevant max st iter now s :
  reachable max st → iter ≡ₚ map_to_list (pending st) →
  expire_iter iter now st = expire now st
  ∧ (session (agent st) = Some s →
     requeue_session_iter iter s st = requeue_session s st)
  ∧ next_deadline_iter iter = next_deadline st.
Proof.
  intros (sp & -> & Hwf & _ & _)%reachable_spec Hp. split_and!.
  - by rewrite refine_expire_iter, refine_expire.
  - intros Hs. unfold requeue_session. by rewrite !refine_requeue_iter.
  - by apply next_deadline_iter_perm.
Qed.

(** ** Deadlines *)

Lemma next_deadline_iter_min l :
  match next_deadline_iter l with
  | None => l = []
  | Some d => (∃ e, e ∈ l ∧ deadline e.2 = d) ∧ ∀ e, e ∈ l → (d ≤ deadline e.2)%N
  end.
Proof.
  unfold next_deadline_iter. induction l as [|x l IH]; simpl; [done|].
  destruct (foldr _ None l) as [d|]; simpl.
  - destruct IH as [(e & He & Hd) Hmin]. split.
    + destruct (N.min_spec (deadline x.2) d) as [[_ ->]|[_ ->]].
      * exists x. split; [apply list_elem_of_here|done].
      * exists e. split; [by apply list_elem_of_further|done].
    + intros e' [->|He']%elem_of_cons; [lia|]. specialize (Hmin e' He'). lia.
  - subst. split.
    + exists x. split; [apply list_elem_of_here|done].
    + intros e' ->%list_elem_of_singleton. done.
Qed.

(** [next_deadline] is the earliest deadline of the pending requests: it
    is [None] exactly when nothing is pending, and otherwise some request has
    that deadline and none an earlier one. *)
Theorem next_deadline_earliest st :
  match next_deadline st with
  | None => pending st = ∅
  | Some d =>
      (∃ id p, pending st !! id = Some p ∧ deadline p = d)
      ∧ ∀ id p, pending st !! id = Some p → (d ≤ deadline p)%N
  end.
Proof.
  unfold next_deadline. pose proof (next_deadline_iter_min (map_to_list (pending st))) as H.
  destruct (next_deadline_iter _) as [d|].
  - destruct H as [([id p] & He & Hd) Hmin]. split.
    + exists id, p. split; [by apply elem_of_map_to_list|done].
    + intros id' p' Hp. apply elem_of_map_to_list in Hp. by apply (Hmin (id', p')).
  - by apply map_to_list_empty_iff.
Qed.

(** ** The [unwrap] of [expire] *)

Lemma remove_expired_keeps ids m id :
  id ∉ ids → (remove_expired ids m).1 !! id = m !! id.
Proof.
  revert m. induction ids as [|k ids IH]; intros m Hid; [done|]. simpl.
  apply not_elem_of_cons in Hid as [Hne Hid]. destruct (m !! k); [|by apply IH].
  specialize (IH (delete k m) Hid). destruct (remove_expired ids (delete k m)).
  simpl in *. by rewrite IH, lookup_delete_ne.
Qed.

(** The [unwrap] in [expire] never panics: when the turn of an expired
    request comes, after the removal of those before it, the request is still
    in the map. *)
Theorem expire_unwrap_safe max st iter now ids1 id ids2 :
  reachable max st → iter ≡ₚ map_to_list (pending st) →
  expired_ids iter now = ids1 ++ id :: ids2 →
  is_Some ((remove_expired ids1 (pending st)).1 !! id).
Proof.
  intros (sp & -> & Hwf & _ & _)%reachable_spec Hp Hids.
  rewrite (iter_entries sp Hwf) in Hp.
  rewrite (expired_ids_entries iter (entries sp)) in Hids by (done || apply Hwf).
  pose proof (NoDup_fst_filter (overdue now) _ (wf_distinct _ Hwf)) as Hnd.
  rewrite Hids in Hnd. apply NoDup_app in Hnd as (_ & Hdisj & _).
  rewrite remove_expired_keeps
    by (intros Hin; by apply (Hdisj id Hin), list_elem_of_here).
  assert (id ∈ (filter (overdue now) (entries sp)).*1) as Hin
    by (rewrite Hids; apply elem_of_app; right; apply list_elem_of_here).
  apply list_elem_of_fmap in Hin as ([k p] & -> & [_ Hin]%list_elem_of_filter).
  exists p. by apply pending_entry.
Qed.

(** ** A concrete run *)

(** Two requests are submitted while no remote is connected, then a session of
    capacity one connects: the first is in flight, the second queued. *)
Definition sample_context : RequestContext :=
  {| group_id := 7; reason := byte_string "Push the release";
     command := [byte_string "git"; byte_string "push"] |}.
Definition sample_trace : list (Event * Instant) :=
  [(EvSubmit 1 (byte_string "sign") (Some sample_context) 30 1000 31000, 0%N);
   (EvSubmit 2 (byte_string "list") None 40 1001 31001, 1%N);
   (EvConnected 100 1, 2%N)].
Definition sample_state : BrokerState := (run sample_trace (new 8)).1.

Lemma sample_admissible : admissible_run sample_trace (new 8).
Proof. by apply (bool_decide_eq_true_1 _); vm_compute. Qed.

Lemma sample_reachable : reachable 8 sample_state.
Proof. apply run_reachable, sample_admissible. Qed.

Lemma broker_refines_spec_witness :
  admissible_run sample_trace (new 8)
  ∧ run sample_trace (new 8)
    = (concrete (spec_run sample_trace (spec_new 8)).1,
       (spec_run sample_trace (spec_new 8)).2).
Proof.
  split; [apply sample_admissible|].
  apply (broker_refines_spec 8 sample_trace), sample_admissible.
Defined.

Lemma reachable_invariant_witness :
  reachable 8 sample_state ∧ queue sample_state = [2%N] ∧ invariant 8 sample_state.
Proof.
  split_and!; [apply sample_reachable|by vm_compute|].
  apply (reachable_invariant 8), sample_reachable.
Defined.

Lemma queue_in_admission_order_witness : admitted_before sample_state 1 2.
Proof.
  eapply (proj2 (queue_in_admission_order 8 sample_state sample_reachable) 1%N
            (default (fresh_entry 0 [] None 0 0 0 0).2 (pending sample_state !! 1%N)) 100%N 1%N 2%N).
  - by vm_compute.
  - by vm_compute.
  - vm_compute. apply list_elem_of_here.
Defined.

Lemma iteration_order_irrelevant_witness :
  expire_iter (reverse (map_to_list (pending sample_state))) 35 sample_state
  = expire 35 sample_state.
Proof.
  apply (iteration_order_irrelevant 8 sample_state
           (reverse (map_to_list (pending sample_state))) 35 100);
    [apply sample_reachable|apply reverse_Permutation].
Defined.

Lemma expire_unwrap_safe_witness :
  is_Some ((remove_expired [1%N] (pending sample_state)).1 !! 2%N).
Proof.
  apply (expire_unwrap_safe 8 sample_state (map_to_list (pending sample_state)) 50
           [1%N] 2 []); [apply sample_reachable|done|by vm_compute].
Defined.
