(* ===== verification/BrokerEffects.v ===== *)
(** * BrokerEffects: what the broker tells the outside world

    Theorems about the effects one [apply] emits in a reachable state:
    conservation of requests (each admitted request is answered exactly once),
    deadline enforcement, correlation of responses with attempts, dispatch
    order and capacity, and wake announcements. *)

From S2P Require Import Prelude Bytes Packet Assoc BrokerModel BrokerSpec BrokerRefinement BrokerProps.

(** ** Counting *)

Lemma completions_app id es1 es2 :
  completions id (es1 ++ es2) = completions id es1 + completions id es2.
Proof. unfold completions. by rewrite filter_app, length_app. Qed.

(** How often an identifier occurs in a list of requests. *)
Definition held (id : RequestId) (l : list Entry) : nat :=
  length (filter (λ e, e.1 = id) l).

Lemma held_app id l1 l2 : held id (l1 ++ l2) = held id l1 + held id l2.
Proof. unfold held. by rewrite filter_app, length_app. Qed.

Lemma held_cons id e l : held id (e :: l) = (if decide (e.1 = id) then 1 else 0) + held id l.
Proof. unfold held. rewrite filter_cons. by case_decide. Qed.

Lemma held_keys id l1 l2 : l1.*1 = l2.*1 → held id l1 = held id l2.
Proof.
  revert l2. induction l1 as [|e1 l1 IH]; intros [|e2 l2]; csimpl; try done.
  intros [= E1 E2]. rewrite !held_cons, E1. by rewrite (IH l2).
Qed.

Lemma held_filter_split id (P : Entry → Prop) `{∀ e, Decision (P e)} l :
  held id (filter P l) + held id (filter (λ e, ¬ P e) l) = held id l.
Proof.
  induction l as [|e l IH]; [done|]. rewrite !filter_cons, held_cons.
  destruct (decide (P e)), (decide (¬ P e)); try done; rewrite held_cons; lia.
Qed.

Lemma holds_held sp id : spec_wf sp → holds id (concrete sp) = held id (entries sp).
Proof.
  intros Hwf. unfold holds. simpl. rewrite find_entry_lookup.
  pose proof (wf_distinct _ Hwf) as Hnd. unfold find_entry, held.
  induction (entries sp) as [|e l IH]; [done|]. csimpl in Hnd.
  apply NoDup_cons in Hnd as [He Hnd]. rewrite filter_cons.
  destruct (decide (e.1 = id)) as [<-|Hne]; [|by apply IH].
  simpl. rewrite (list_filter_none (λ x, x.1 = e.1) l); [done|].
  apply Forall_forall. intros e' He' E. apply He. rewrite <- E.
  by apply list_elem_of_fmap_2.
Qed.

Lemma completions_abandon id err k p :
  completions id (abandon err k p) = if decide (k = id) then 1 else 0.
Proof.
  unfold completions, abandon. destruct (pstate p); simpl;
    rewrite ?filter_cons; simpl; case_bool_decide; repeat case_decide; done.
Qed.

Lemma completions_abandon_all id err (l : list Entry) :
  completions id (mjoin ((λ e, abandon err e.1 e.2) <$> l)) = held id l.
Proof.
  induction l as [|e l IH]; [done|]. csimpl.
  by rewrite completions_app, completions_abandon, held_cons, IH.
Qed.

Lemma completions_none id es : Forall (λ e, completes id e = false) es → completions id es = 0.
Proof.
  intros H. unfold completions. rewrite list_filter_none; [done|].
  eapply Forall_impl; [exact H|]. by intros e ->.
Qed.

(** ** Conservation *)

Lemma expire_conserves id now sp :
  completions id (spec_expire now sp).2 + held id (entries (spec_expire now sp).1)
  = held id (entries sp).
Proof.
  simpl. rewrite completions_abandon_all. unfold entries at 2. simpl.
  rewrite <- filter_app. apply held_filter_split.
Qed.

Lemma reconcile_conserves id sp :
  completions id (spec_reconcile sp).2 = 0
  ∧ held id (entries (spec_reconcile sp).1) = held id (entries sp).
Proof.
  unfold spec_reconcile. assert (completions id (spec_dispatch sp).2 = 0
    ∧ held id (entries (spec_dispatch sp).1) = held id (entries sp)) as [H1 H2].
  { unfold spec_dispatch. destruct (sp_agent sp); [done| |]; split; simpl.
    1, 3: apply completions_none, Forall_fmap, Forall_true; done.
    all: apply held_keys; unfold entries; simpl.
    all: by rewrite !fmap_app, fst_prod_map_id, <- app_assoc, <- fmap_app, take_drop. }
  destruct (spec_dispatch sp) as [sp' es]. simpl in *.
  unfold spec_wake. repeat case_match; simplify_eq; simpl; by rewrite completions_app, H1.
Qed.

Lemma held_without id l : held id (without id l) = 0.
Proof.
  induction l as [|e l IH]; [done|]. unfold without in *. rewrite filter_cons.
  case_decide; [|done]. rewrite held_cons, IH. by case_decide.
Qed.

Lemma held_without_ne id k l : id ≠ k → held id (without k l) = held id l.
Proof.
  intros Hne. induction l as [|e l IH]; [done|]. unfold without in *. rewrite filter_cons.
  case_decide; rewrite !held_cons, IH; [done|]. case_decide; [congruence|done].
Qed.

Lemma held_found id l p : NoDup l.*1 → find_entry id l = Some p → held id l = 1.
Proof.
  intros Hnd Hf. apply find_entry_elem in Hf. unfold held.
  induction l as [|e l IH]; [by apply not_elem_of_nil in Hf|]. csimpl in Hnd.
  apply NoDup_cons in Hnd as [He Hnd]. rewrite filter_cons.
  apply elem_of_cons in Hf as [<-|Hf].
  - simpl. rewrite decide_True by done. simpl.
    rewrite (list_filter_none (λ x, x.1 = id) l); [done|].
    apply Forall_forall. intros e' He' E. apply He. simpl. rewrite <- E.
    by apply list_elem_of_fmap_2.
  - case_decide as E; [|by apply IH]. exfalso. apply He. rewrite E.
    by apply (list_elem_of_fmap_2 fst) in Hf.
Qed.

Lemma event_conserves id ev sp sp' es :
  spec_wf sp → spec_event ev sp = Ok (sp', es) →
  completions id es + held id (entries sp') = held id (entries sp) + submits id ev.
Proof.
  intros Hwf Hev. pose proof (wf_distinct _ Hwf) as Hnd.
  destruct ev as [k pkt ctx dl req dlts|s c|s|s|s|s k a pkt|k|]; simpl in Hev.
  - case_match; simplify_eq.
    + unfold completions. simpl. rewrite filter_cons. simpl.
      case_bool_decide; repeat case_decide; simpl; done || lia.
    + unfold completions, entries. simpl. rewrite !app_assoc, held_app, held_cons.
      unfold fresh_entry. simpl. change (held id []) with 0. lia.
  - case_decide; simplify_eq. done.
  - repeat case_match; simplify_eq; simpl; by rewrite ?Nat.add_0_r.
  - repeat case_match; simplify_eq; simpl; by rewrite ?Nat.add_0_r.
  - case_decide; simplify_eq; simpl; [|by rewrite Nat.add_0_r].
    unfold completions, entries. simpl. rewrite Nat.add_0_r. apply held_keys.
    by rewrite !fmap_app, fst_prod_map_id.
  - destruct (find_entry k (delivered sp)) as [p|] eqn:Ef; simplify_eq; [|simpl; lia].
    case_decide; simplify_eq; [|simpl; lia]. unfold entries in *. simpl.
    rewrite fmap_app in Hnd. apply NoDup_app in Hnd as (Hnd & _ & _).
    rewrite !held_app. unfold completions. rewrite filter_cons. simpl.
    case_bool_decide as E; repeat case_decide; try done.
    + subst. rewrite held_without, (held_found _ _ _ Hnd Ef). simpl. lia.
    + rewrite held_without_ne by congruence. simpl. lia.
  - destruct (find_entry k (entries sp)) as [p|] eqn:Ef; simplify_eq; [|simpl; lia].
    rewrite completions_abandon. unfold entries. simpl. rewrite <- without_app.
    fold (entries sp). case_decide as E.
    + subst. rewrite held_without, (held_found _ _ _ Hnd Ef). lia.
    + rewrite held_without_ne by congruence. simpl. lia.
  - simplify_eq. simpl. lia.
Qed.

Lemma apply_conserves id ev now sp sp' es :
  spec_wf sp → admissible ev (concrete sp) → spec_apply ev now sp = (sp', Ok es) →
  completions id es + held id (entries sp') = held id (entries sp) + submits id ev.
Proof.
  intros Hwf Hadm Hap. unfold spec_apply in Hap.
  pose proof (expire_conserves id now sp) as H1. pose proof (wf_expire sp now Hwf) as Hwf1.
  destruct (spec_expire now sp) as [sp1 es0]. simpl in *.
  destruct (spec_event ev sp1) as [[sp2 es1]|] eqn:Eev; [|done].
  pose proof (event_conserves id _ _ _ _ Hwf1 Eev) as H2.
  destruct (reconcile_conserves id sp2) as [H3 H4].
  destruct (spec_reconcile sp2) as [sp3 es2]. simpl in *. simplify_eq.
  rewrite !completions_app. lia.
Qed.

(** Answers to a request along a run, and submissions of it. *)
Definition answered (id : RequestId) (rs : list (result (list Effect) ModelError)) : nat :=
  sum_list ((λ r, match r with Ok es => completions id es | Err _ => 0 end) <$> rs).
Definition submissions (id : RequestId) (trace : list (Event * Instant)) : nat :=
  sum_list ((λ x, submits id x.1) <$> trace).

Lemma apply_rejected sp ev now sp' e :
  spec_apply ev now sp = (sp', Err e) →
  sp' = (spec_expire now sp).1 ∧ ∃ s c, ev = EvConnected s c ∧ sp_agent sp ≠ Disconnected.
Proof.
  unfold spec_apply. simpl. destruct (spec_event ev _) as [[sp2 es1]|e'] eqn:Eev.
  - by destruct (spec_reconcile sp2).
  - intros ?. simplify_eq. split; [done|]. by apply spec_event_err in Eev.
Qed.

Lemma rejected_holds_le id ev now sp sp' e :
  spec_apply ev now sp = (sp', Err e) → held id (entries sp') ≤ held id (entries sp).
Proof.
  intros [-> _]%apply_rejected. pose proof (expire_conserves id now sp). lia.
Qed.

Lemma run_conserves id trace sp :
  spec_wf sp → admissible_run trace (concrete sp) →
  let '(st', rs) := run trace (concrete sp) in
  answered id rs + holds id st' ≤ held id (entries sp) + submissions id trace
  ∧ (Forall (λ r, is_ok r = true) rs →
     answered id rs + holds id st' = held id (entries sp) + submissions id trace).
Proof.
  revert sp. induction trace as [|[ev now] trace IH]; intros sp Hwf Hadm.
  { simpl. rewrite holds_held by done. unfold answered, submissions. simpl. lia. }
  destruct Hadm as [Hadm Hrest]. simpl in *.
  pose proof (wf_apply sp ev now Hwf Hadm) as Hwf'. rewrite refine_apply in * by done.
  destruct (spec_apply ev now sp) as [sp' r] eqn:Eap. simpl in *.
  specialize (IH sp' Hwf' Hrest). destruct (run trace (concrete sp')) as [st' rs].
  unfold answered, submissions in *. csimpl. destruct IH as [IHle IHeq].
  destruct r as [es|e].
  - pose proof (apply_conserves id _ _ _ _ _ Hwf Hadm Eap). split; [lia|].
    intros [_ Hok]%Forall_cons. specialize (IHeq Hok). lia.
  - pose proof (rejected_holds_le id _ _ _ _ _ Eap). split; [lia|].
    by intros [? _]%Forall_cons.
Qed.

(** C14: Along every admissible run, a request is answered at most once per
    submission; and if no event was refused, each submission has been answered
    exactly once or is still pending. *)
Theorem answered_exactly_once max trace id st rs :
  admissible_run trace (new max) → run trace (new max) = (st, rs) →
  answered id rs + holds id st ≤ submissions id trace
  ∧ (Forall (λ r, is_ok r = true) rs →
     answered id rs + holds id st = submissions id trace).
Proof.
  intros Hadm Hrun. pose proof (run_conserves id trace (spec_new max) (wf_new max) Hadm) as H.
  change (concrete (spec_new max)) with (new max) in H. by rewrite Hrun in H.
Qed.

(** ** Provenance: requests keep what was submitted *)

(** The fields a request is admitted with. *)
Definition same_request (p p' : PendingRequest) : Prop :=
  packet p = packet p' ∧ context p = context p' ∧ deadline p = deadline p'
  ∧ requested_at p = requested_at p' ∧ deadline_timestamp p = deadline_timestamp p'
  ∧ sequence p = sequence p'.

Lemma same_request_refl p : same_request p p.
Proof. done. Qed.

Definition submitted_as (ev : Event) (id : RequestId) (p : PendingRequest) : Prop :=
  ∃ pkt ctx dl req dlts seq,
    ev = EvSubmit id pkt ctx dl req dlts
    ∧ same_request (fresh_entry id pkt ctx dl req dlts seq).2 p.

Lemma expire_provenance now sp e :
  e ∈ entries (spec_expire now sp).1 ↔ e ∈ entries sp ∧ ¬ overdue now e.
Proof.
  simpl. unfold entries. simpl. rewrite <- filter_app, list_elem_of_filter. tauto.
Qed.

Lemma event_provenance ev sp sp' es id p' :
  spec_event ev sp = Ok (sp', es) → (id, p') ∈ entries sp' →
  (∃ p, (id, p) ∈ entries sp ∧ same_request p p' ∧ attempt p = attempt p')
  ∨ submitted_as ev id p' ∧ attempt p' = 0%N.
Proof.
  intros Hev Hin.
  assert ((id, p') ∈ entries sp → ∃ p, (id, p) ∈ entries sp ∧ same_request p p'
            ∧ attempt p = attempt p') as Hkeep by (intros; by exists p').
  destruct ev as [k pkt ctx dl req dlts|s c|s|s|s|s k a pkt|k|]; simpl in Hev.
  - case_match; simplify_eq; [by left; apply Hkeep|].
    unfold entries in Hin. simpl in Hin. rewrite app_assoc in Hin.
    apply elem_of_app in Hin as [Hin|Hin%list_elem_of_singleton]; [by left; apply Hkeep|].
    right. unfold fresh_entry in Hin. simplify_eq. split; [|done].
    by exists pkt, ctx, dl, req, dlts, (sp_next sp).
  - case_decide; simplify_eq. by left; apply Hkeep.
  - repeat case_match; simplify_eq; by left; apply Hkeep.
  - repeat case_match; simplify_eq; by left; apply Hkeep.
  - case_decide; simplify_eq; [|by left; apply Hkeep]. left.
    unfold entries in Hin. simpl in Hin. apply elem_of_app in Hin as [Hin|Hin].
    + apply list_elem_of_fmap in Hin as ([k p] & [= -> ->] & Hin).
      exists p. split; [|done]. apply entry_cases. by left.
    + apply Hkeep, entry_cases. by right.
  - left. apply Hkeep. repeat case_match; simplify_eq; try done.
    apply entry_cases. apply entry_cases in Hin as [Hin|Hin]; [left|by right].
    by apply list_elem_of_filter in Hin as [_ Hin].
  - left. apply Hkeep. repeat case_match; simplify_eq; try done.
    apply entry_cases. apply entry_cases in Hin as [Hin|Hin];
      apply list_elem_of_filter in Hin as [_ Hin]; auto.
  - simplify_eq. by left; apply Hkeep.
Qed.

Lemma deliver_same s p : same_request p (deliver s p).
Proof. done. Qed.

Lemma wake_entries sp : entries (spec_wake sp).1 = entries sp.
Proof. unfold spec_wake. repeat case_match; done. Qed.

Lemma reconcile_entries sp : entries (spec_reconcile sp).1 = entries (spec_dispatch sp).1.
Proof.
  unfold spec_reconcile. destruct (spec_dispatch sp) as [sp' es].
  pose proof (wake_entries sp'). by destruct (spec_wake sp').
Qed.

Lemma reconcile_provenance sp id p' :
  (id, p') ∈ entries (spec_reconcile sp).1 →
  ∃ p, (id, p) ∈ entries sp ∧ same_request p p'.
Proof.
  rewrite reconcile_entries. unfold spec_dispatch.
  destruct (sp_agent sp) as [|s c|s c]; [by exists p'| |];
    unfold entries; simpl; rewrite <- app_assoc; intros Hin;
    apply elem_of_app in Hin as [Hin|Hin];
    try (exists p'; split; [apply elem_of_app; by left|done]);
    apply elem_of_app in Hin as [Hin|Hin].
  1, 3: apply list_elem_of_fmap in Hin as ([k p] & [= -> ->] & Hin);
    exists p; split; [|done]; apply elem_of_app; right;
    by eapply elem_of_take in Hin as (? & ? & _); eapply list_elem_of_lookup_2.
  all: exists p'; split; [|done]; apply elem_of_app; right;
    apply list_elem_of_lookup in Hin as [i Hin]; rewrite lookup_drop in Hin;
    by eapply list_elem_of_lookup_2.
Qed.

Lemma apply_provenance ev now sp sp' es id p' :
  spec_apply ev now sp = (sp', Ok es) → (id, p') ∈ entries sp' →
  (∃ p, (id, p) ∈ entries sp ∧ (now < deadline p)%N ∧ same_request p p')
  ∨ submitted_as ev id p'.
Proof.
  unfold spec_apply. pose proof (expire_provenance now sp) as Hexp.
  destruct (spec_expire now sp) as [sp1 es0]. simpl in Hexp. intros Hap Hin.
  destruct (spec_event ev sp1) as [[sp2 es1]|] eqn:Eev; [|done].
  pose proof (reconcile_provenance sp2 id p') as Hrec.
  destruct (spec_reconcile sp2) as [sp3 es2]. simplify_eq.
  destruct (Hrec Hin) as (p2 & Hp2 & Hsame2).
  destruct (event_provenance _ _ _ _ _ _ Eev Hp2) as [(p1 & Hp1 & Hsame1 & _)|[Hsub _]].
  - left. apply Hexp in Hp1 as [Hp1 Hdue]. exists p1. split_and!; [done| |].
    + unfold overdue, expired in Hdue. rewrite N.leb_le in Hdue. simpl in Hdue. lia.
    + unfold same_request in *. intuition congruence.
  - right. destruct Hsub as (pkt & ctx & dl & req & dlts & seq & -> & Hs).
    exists pkt, ctx, dl, req, dlts, seq. split; [done|].
    unfold same_request in *. intuition congruence.
Qed.

(** ** Shape of the effects of one step *)

Lemma apply_parts ev now sp sp' es :
  spec_apply ev now sp = (sp', Ok es) →
  ∃ sp2 changed,
    spec_event ev (spec_expire now sp).1 = Ok (sp2, changed)
    ∧ sp' = (spec_reconcile sp2).1
    ∧ es = (spec_expire now sp).2 ++ changed ++ (spec_reconcile sp2).2.
Proof.
  unfold spec_apply. destruct (spec_expire now sp) as [sp1 es0].
  destruct (spec_event ev sp1) as [[sp2 es1]|] eqn:Eev; [|done].
  destruct (spec_reconcile sp2) as [sp3 es2] eqn:Er. intros ?. simplify_eq.
  exists sp2, es1. simpl. by rewrite Er.
Qed.

Lemma elem_of_abandon err id p e :
  e ∈ abandon err id p ↔
  e = Complete id (Err err) ∨ ∃ s a, pstate p = InFlight s a ∧ e = Cancel s id a.
Proof.
  unfold abandon. destruct (pstate p) as [|s a]; simpl;
    rewrite ?elem_of_cons, ?elem_of_nil; naive_solver.
Qed.

Lemma elem_of_expire now sp e :
  e ∈ (spec_expire now sp).2 ↔
  ∃ id p, (id, p) ∈ entries sp ∧ overdue now (id, p) ∧ e ∈ abandon TimedOut id p.
Proof.
  simpl. rewrite list_elem_of_join. split.
  - intros (l & He & Hl). apply list_elem_of_fmap in Hl as ([id p] & -> & Hin).
    apply list_elem_of_filter in Hin as [? ?]. eauto.
  - intros (id & p & Hin & Hdue & He). exists (abandon TimedOut id p). split; [done|].
    apply (list_elem_of_fmap_2' _ _ (id, p)); [|done]. by apply list_elem_of_filter.
Qed.

(** What reconciliation can emit: dispatches to the session, or one wake. *)
Lemma elem_of_reconcile sp e :
  e ∈ (spec_reconcile sp).2 →
  (∃ s id a req dl pkt ctx, e = Dispatch s id a req dl pkt ctx)
  ∨ ∃ r, e = WakeRequired r.
Proof.
  unfold spec_reconcile. destruct (spec_dispatch sp) as [sp' es] eqn:Ed.
  destruct (spec_wake sp') as [sp'' es'] eqn:Ew. simpl.
  intros [Hin|Hin]%elem_of_app.
  - left. unfold spec_dispatch in Ed. repeat case_match; simplify_eq;
      [by apply not_elem_of_nil in Hin|..];
      apply list_elem_of_fmap in Hin as (x & -> & _); unfold dispatch_effect; eauto 10.
  - right. unfold spec_wake in Ew. repeat case_match; simplify_eq;
      try (by apply not_elem_of_nil in Hin). apply list_elem_of_singleton in Hin. eauto.
Qed.

(** ** Deadlines *)

Lemma apply_deadlines st ev now st' es :
  well_formed st → admissible ev st → apply ev now st = (st', Ok es) →
  (∀ id p, pending st' !! id = Some p → (now < deadline p)%N ∨ submits id ev = 1)
  ∧ ∀ id p, pending st !! id = Some p → (deadline p ≤ now)%N →
      Complete id (Err TimedOut) ∈ es ∧ pending st' !! id = None.
Proof.
  intros (sp & -> & Hwf) Hadm Hap.
  pose proof (wf_apply sp ev now Hwf Hadm) as Hwf'.
  rewrite refine_apply in Hap by done.
  destruct (spec_apply ev now sp) as [sp' r] eqn:Eap. simpl in *. simplify_eq. split.
  - intros id p Hp. apply pending_entry in Hp; [|done].
    destruct (apply_provenance _ _ _ _ _ _ _ Eap Hp) as [(p0 & _ & Hd & Hs)|Hs].
    + left. destruct Hs as (_ & _ & <- & _). done.
    + right. destruct Hs as (? & ? & ? & ? & ? & ? & -> & _). simpl. by rewrite decide_True.
  - intros id p Hp Hdue. split.
    + destruct (apply_parts _ _ _ _ _ Eap) as (sp2 & ch & _ & _ & ->).
      apply elem_of_app. left. apply elem_of_expire. exists id, p.
      split_and!; [by apply pending_entry| |apply elem_of_abandon; by left].
      unfold overdue, expired. by apply N.leb_le.
    + destruct (pending (concrete sp') !! id) as [p'|] eqn:Ep'; [|done].
      apply pending_entry in Ep'; [|done].
      destruct (apply_provenance _ _ _ _ _ _ _ Eap Ep') as [(p0 & Hp0 & Hd & _)|Hs].
      * apply (pending_entry sp id p0 Hwf) in Hp0. simpl in Hp, Hp0.
        rewrite Hp in Hp0. simplify_eq. lia.
      * destruct Hs as (? & ? & ? & ? & ? & ? & -> & _). simpl in Hadm. naive_solver.
Qed.

(** Deadlines are enforced.  After an event accepted at [now], a pending
    request is either not yet due or was submitted by that very event, and
    every request that was due has been removed and its waiter told
    [TimedOut]. *)
Theorem deadlines_enforced max st ev now st' es :
  reachable max st → admissible ev st → apply ev now st = (st', Ok es) →
  (∀ id p, pending st' !! id = Some p → (now < deadline p)%N ∨ submits id ev = 1)
  ∧ ∀ id p, pending st !! id = Some p → (deadline p ≤ now)%N →
      Complete id (Err TimedOut) ∈ es ∧ pending st' !! id = None.
Proof. intros Hr%well_formed_reachable. by apply apply_deadlines. Qed.

(** ** Response correlation *)

Lemma ok_complete_from_response ev sp sp' es id pkt :
  spec_event ev sp = Ok (sp', es) → Complete id (Ok pkt) ∈ es →
  ∃ s a p, ev = EvResponse s id a pkt ∧ find_entry id (delivered sp) = Some p
           ∧ pstate p = InFlight s a.
Proof.
  intros Hev Hin. destruct ev; simpl in Hev; repeat case_match; simplify_eq;
    try (by apply not_elem_of_nil in Hin).
  - apply list_elem_of_singleton in Hin. done.
  - apply list_elem_of_singleton in Hin. simplify_eq. eauto 10.
  - apply elem_of_abandon in Hin. naive_solver.
Qed.

Lemma find_entry_wf sp id p :
  spec_wf sp → find_entry id (entries sp) = Some p ↔ (id, p) ∈ entries sp.
Proof.
  intros Hwf. rewrite <- find_entry_lookup. symmetry.
  apply elem_of_list_to_map, Hwf.
Qed.

Lemma find_delivered sp id p s a :
  spec_wf sp → (id, p) ∈ entries sp → pstate p = InFlight s a →
  find_entry id (delivered sp) = Some p.
Proof.
  intros Hwf Hin Hs. pose proof (proj2 (find_entry_wf sp id p Hwf) Hin) as Hf.
  unfold entries in Hf. rewrite find_entry_app in Hf.
  destruct (find_entry id (delivered sp)) as [p'|]; [done|].
  apply find_entry_elem in Hf. pose proof (waiting_queued sp _ Hwf Hf). simpl in *. congruence.
Qed.

Lemma apply_success st ev now st' es id pkt :
  well_formed st → admissible ev st → apply ev now st = (st', Ok es) →
  Complete id (Ok pkt) ∈ es ↔
  ∃ s a p, ev = EvResponse s id a pkt ∧ pending st !! id = Some p
           ∧ pstate p = InFlight s a ∧ (now < deadline p)%N.
Proof.
  intros (sp & -> & Hwf) Hadm Hap.
  rewrite refine_apply in Hap by done.
  destruct (spec_apply ev now sp) as [sp' r] eqn:Eap. simpl in *. simplify_eq.
  destruct (apply_parts _ _ _ _ _ Eap) as (sp2 & ch & Eev & _ & ->).
  pose proof (wf_expire sp now Hwf) as Hwf1. split.
  - intros [Hin|[Hin|Hin]%elem_of_app]%elem_of_app.
    + apply elem_of_expire in Hin as (k & p & _ & _ & Hin%elem_of_abandon). naive_solver.
    + destruct (ok_complete_from_response _ _ _ _ _ _ Eev Hin) as (s & a & p & -> & Hf & Hp).
      apply find_entry_elem in Hf.
      assert ((id, p) ∈ entries (spec_expire now sp).1) as He
        by (apply entry_cases; by left).
      apply expire_provenance in He as [He Hdue]. exists s, a, p.
      split_and!; [done|by apply (pending_entry sp)|done|].
      unfold overdue, expired in Hdue. simpl in Hdue. rewrite N.leb_le in Hdue. lia.
    + apply elem_of_reconcile in Hin. naive_solver.
  - intros (s & a & p & -> & Hp & Hs & Hdue).
    apply (pending_entry sp id p Hwf) in Hp.
    assert ((id, p) ∈ entries (spec_expire now sp).1) as He.
    { apply expire_provenance. split; [done|]. unfold overdue, expired. simpl.
      rewrite N.leb_le. lia. }
    pose proof (find_delivered _ _ _ _ _ Hwf1 He Hs) as Hf. simpl in Eev, Hf.
    rewrite Hf, decide_True in Eev by done. simplify_eq.
    apply elem_of_app. right. apply elem_of_app. left. by apply list_elem_of_singleton.
Qed.

(** C15: A request is answered successfully exactly when the event is a
    response naming the request, the session and the attempt it is in flight
    under, and the request is not overdue; the answer is that response's
    packet. *)
Theorem success_iff_matching_response max st ev now st' es id pkt :
  reachable max st → admissible ev st → apply ev now st = (st', Ok es) →
  Complete id (Ok pkt) ∈ es ↔
  ∃ s a p, ev = EvResponse s id a pkt ∧ pending st !! id = Some p
           ∧ pstate p = InFlight s a ∧ (now < deadline p)%N.
Proof. intros Hr%well_formed_reachable. by apply apply_success. Qed.

(** A response from a session that is not the connected one, or for an
    attempt that is not the request's current one, changes nothing: the step
    is exactly that of a clock tick. *)
Theorem stale_response_ignored max st s id a pkt now :
  reachable max st →
  session (agent st) ≠ Some s ∨ (∀ p, pending st !! id = Some p → attempt p ≠ a) →
  apply (EvResponse s id a pkt) now st = apply EvTick now st.
Proof.
  intros (sp & -> & Hwf & _ & _)%reachable_spec Hstale.
  rewrite !refine_apply by done.
  assert (spec_event (EvResponse s id a pkt) (spec_expire now sp).1
          = Ok ((spec_expire now sp).1, [])) as Hev.
  { pose proof (wf_expire sp now Hwf) as Hwf1. simpl spec_event.
    destruct (find_entry id _) as [p|] eqn:Ef; [|done].
    apply find_entry_elem in Ef.
    destruct (delivered_in_flight _ _ Hwf1 Ef) as (s' & Hs' & Hp). simpl in Hp.
    rewrite decide_False; [done|]. intros Hp'. rewrite Hp in Hp'. simplify_eq.
    destruct Hstale as [Hs|Ha]; [by apply Hs|]. apply (Ha p); [|done].
    apply (pending_entry sp id p Hwf).
    by apply (expire_provenance now sp (id, p)), entry_cases; left. }
  unfold spec_apply. destruct (spec_expire now sp) as [sp1 es0].
  cbn [fst] in Hev. by rewrite Hev.
Qed.

(** ** Dispatch *)

(** Identifiers dispatched by a list of effects, in order. *)
Definition dispatched (es : list Effect) : list RequestId :=
  omap (λ e, match e with Dispatch _ id _ _ _ _ _ => Some id | _ => None end) es.

Lemma dispatched_none es :
  (∀ s id a req dl pkt ctx, Dispatch s id a req dl pkt ctx ∉ es) → dispatched es = [].
Proof.
  unfold dispatched. induction es as [|e es IH]; intros H; [done|]. csimpl.
  rewrite IH by (intros; by intros ?%(list_elem_of_further _ e)%H).
  destruct e; try done. exfalso. eapply H, list_elem_of_here.
Qed.

Lemma event_no_dispatch ev sp sp' es s id a req dl pkt ctx :
  spec_event ev sp = Ok (sp', es) → Dispatch s id a req dl pkt ctx ∉ es.
Proof.
  intros Hev Hin. destruct ev; simpl in Hev; repeat case_match; simplify_eq;
    try (by apply not_elem_of_nil in Hin); try (by apply list_elem_of_singleton in Hin).
  apply elem_of_abandon in Hin. naive_solver.
Qed.

Lemma expire_no_dispatch now sp s id a req dl pkt ctx :
  Dispatch s id a req dl pkt ctx ∉ (spec_expire now sp).2.
Proof. intros (k & p & _ & _ & H%elem_of_abandon)%elem_of_expire. naive_solver. Qed.

Lemma dispatched_app es1 es2 : dispatched (es1 ++ es2) = dispatched es1 ++ dispatched es2.
Proof. apply omap_app. Qed.

Lemma dispatched_apply ev now sp sp' es :
  spec_apply ev now sp = (sp', Ok es) →
  ∃ sp2 changed, spec_event ev (spec_expire now sp).1 = Ok (sp2, changed)
    ∧ sp' = (spec_reconcile sp2).1 ∧ dispatched es = dispatched (spec_dispatch sp2).2.
Proof.
  intros (sp2 & ch & Eev & -> & ->)%apply_parts. exists sp2, ch. split_and!; [done..|].
  rewrite !dispatched_app, (dispatched_none (spec_expire now sp).2)
    by (intros; apply expire_no_dispatch).
  rewrite (dispatched_none ch) by (intros; by eapply event_no_dispatch). simpl.
  unfold spec_reconcile. destruct (spec_dispatch sp2) as [sp3 es3].
  assert (dispatched (spec_wake sp3).2 = []) as Hw
    by (unfold spec_wake; by repeat case_match).
  destruct (spec_wake sp3) as [sp4 es4]. simpl in *.
  by rewrite dispatched_app, Hw, app_nil_r.
Qed.

Lemma reconcile_lists sp :
  sp_agent (spec_reconcile sp).1 = sp_agent sp
  ∧ delivered (spec_reconcile sp).1 = delivered (spec_dispatch sp).1
  ∧ waiting (spec_reconcile sp).1 = waiting (spec_dispatch sp).1.
Proof.
  unfold spec_reconcile, spec_dispatch, spec_wake. repeat case_match; simplify_eq; done.
Qed.

Lemma dispatched_sent sp :
  ∃ d, delivered (spec_dispatch sp).1 = delivered sp ++ d
       ∧ dispatched (spec_dispatch sp).2 = d.*1
       ∧ ∀ s c, sp_agent sp = Locked s c ∨ sp_agent sp = Ready s c →
           (len (delivered sp) ≤ c)%N →
           waiting (spec_dispatch sp).1 = [] ∨ len (delivered sp ++ d) = c.
Proof.
  unfold spec_dispatch. destruct (sp_agent sp) as [|s0 c0|s0 c0].
  { exists []. simpl. rewrite app_nil_r. naive_solver. }
  all: eexists; split; [done|]; split;
    [simpl; generalize (prod_map id (deliver s0) <$> take (free_slots c0 sp) (waiting sp));
     intros l; induction l as [|e l IH]; [done|]; csimpl; by f_equal|].
  all: intros s c Hsc Hle; assert (c = c0) as -> by naive_solver.
  all: destruct (decide (length (waiting sp) ≤ free_slots c0 sp)) as [Hn|Hn].
  1, 3: left; simpl; by apply drop_ge.
  all: right; rewrite len_app; unfold len, free_slots in *;
    rewrite length_fmap, length_take; unfold len in *; lia.
Qed.

(** C16: Requests are dispatched in admission order, ahead of everything that
    stays queued, and the session is kept busy: after an accepted event either
    nothing is queued or the connected session holds exactly its capacity. *)
Theorem dispatch_fifo_and_work_conserving max st ev now st' es :
  reachable max st → admissible ev st → apply ev now st = (st', Ok es) →
  StronglySorted (admitted_before st') (dispatched es ++ queue st')
  ∧ ∀ s c, connected_remote st' = Some (s, c) →
      queue st' = [] ∨ in_flight_for st' s = c.
Proof.
  intros (sp & -> & Hwf & _ & _)%reachable_spec Hadm Hap.
  pose proof (wf_apply sp ev now Hwf Hadm) as Hwf'.
  rewrite refine_apply in Hap by done.
  destruct (spec_apply ev now sp) as [sp' r] eqn:Eap. cbn [fst snd] in *. simplify_eq.
  destruct (dispatched_apply _ _ _ _ _ Eap) as (sp2 & ch & Eev & -> & Ed).
  destruct (dispatched_sent sp2) as (d & Hd & Hds & Hcap).
  destruct (reconcile_lists sp2) as (Ha & Hdel & Hwait). split.
  - rewrite Ed, Hds. simpl. rewrite <- fmap_app.
    pose proof (wf_ordered _ Hwf') as Hord. unfold entries in Hord.
    rewrite Hdel, Hd, <- app_assoc in Hord.
    apply StronglySorted_app in Hord as (_ & _ & Hord).
    apply sorted_keys; [|done]. apply Forall_forall. intros [k p] Hin.
    apply pending_entry; [done|]. unfold entries. rewrite Hdel, Hd, <- app_assoc.
    apply elem_of_app. by right.
  - intros s c Hsc. pose proof (connected_session _ _ _ Hsc) as Hs.
    pose proof (connected_agent _ _ _ Hsc) as Hag. simpl in Hs, Hag.
    rewrite refine_in_flight_for by done. simpl. rewrite Hdel, Hwait, Hd.
    rewrite Ha in Hag. destruct (Hcap s c Hag) as [->| ->]; [|by left|by right].
    apply (wf_capacity sp2) with s; [|done].
    by eapply wf_event, Eev; auto with broker.
Qed.

Lemma dispatch_from_waiting sp s id a req dl pkt ctx :
  Dispatch s id a req dl pkt ctx ∈ (spec_dispatch sp).2 →
  session (sp_agent sp) = Some s ∧
  ∃ p, (id, p) ∈ waiting sp ∧ (id, deliver s p) ∈ delivered (spec_dispatch sp).1
       ∧ dispatch_effect s id (deliver s p) = Dispatch s id a req dl pkt ctx.
Proof.
  unfold spec_dispatch. destruct (sp_agent sp) as [|s0 c|s0 c].
  { by intros ?%not_elem_of_nil. }
  all: intros ([k p'] & E & Hin)%list_elem_of_fmap; cbn [fst snd] in E.
  all: pose proof Hin as Hin'; apply list_elem_of_fmap in Hin as ([k' p] & [= -> ->] & Hin).
  all: assert (s0 = s) as -> by (unfold dispatch_effect in E; congruence).
  all: assert (k' = id) as -> by (unfold dispatch_effect in E; congruence).
  all: split; [done|]; exists p; split_and!; [|simpl; apply elem_of_app; by right|done].
  all: by apply elem_of_take in Hin as (? & ? & _); eapply list_elem_of_lookup_2.
Qed.

Lemma apply_dispatch st ev now st' es s id a req dl pkt ctx :
  well_formed st → admissible ev st → apply ev now st = (st', Ok es) →
  Dispatch s id a req dl pkt ctx ∈ es →
  session (agent st') = Some s ∧
  ∃ p', pending st' !! id = Some p' ∧ pstate p' = InFlight s a
    ∧ packet p' = pkt ∧ context p' = ctx ∧ requested_at p' = req
    ∧ deadline_timestamp p' = dl
    ∧ ((∃ p, pending st !! id = Some p ∧ same_request p p'
             ∧ a = wrap32 (attempt p + 1))
       ∨ submitted_as ev id p' ∧ a = 1%N).
Proof.
  intros (sp & -> & Hwf) Hadm Hap Hin.
  pose proof (wf_apply sp ev now Hwf Hadm) as Hwf'.
  rewrite refine_apply in Hap by done.
  destruct (spec_apply ev now sp) as [sp' r] eqn:Eap. cbn [fst snd] in *. simplify_eq.
  destruct (apply_parts _ _ _ _ _ Eap) as (sp2 & ch & Eev & -> & ->).
  apply elem_of_app in Hin as [Hin|Hin]; [by apply expire_no_dispatch in Hin|].
  apply elem_of_app in Hin as [Hin|Hin]; [by eapply event_no_dispatch in Hin|].
  assert (Dispatch s id a req dl pkt ctx ∈ (spec_dispatch sp2).2) as Hd.
  { unfold spec_reconcile in Hin. destruct (spec_dispatch sp2) as [sp3 es3].
    destruct (spec_wake sp3) as [sp4 es4] eqn:Ew. apply elem_of_app in Hin as [?|Hin]; [done|].
    unfold spec_wake in Ew. repeat case_match; simplify_eq;
      try (by apply not_elem_of_nil in Hin). by apply list_elem_of_singleton in Hin. }
  destruct (reconcile_lists sp2) as (Ha & Hdel & _).
  destruct (dispatch_from_waiting _ _ _ _ _ _ _ _ Hd) as (Hs & p2 & Hp2 & Hp' & E).
  split; [simpl; by rewrite Ha|]. exists (deliver s p2).
  unfold dispatch_effect in E. injection E as <- <- <- <- <-. split_and!; try done.
  - apply pending_entry; [done|]. apply entry_cases. left. by rewrite Hdel.
  - destruct (event_provenance _ _ _ _ id p2 Eev) as [(p1 & Hp1 & Hsame & Hatt)|[Hsub Hatt]].
    + apply entry_cases. by right.
    + left. exists p1. apply expire_provenance in Hp1 as [Hp1 _].
      split_and!; [by apply pending_entry|done|]. simpl. by rewrite Hatt.
    + right. split; [done|]. simpl. by rewrite Hatt.
Qed.

(** Every dispatch carries the connected session, the packet, context and
    times the request was submitted with, and an attempt number one above the
    previous attempt; the request is then in flight under exactly that session
    and attempt. *)
Theorem dispatch_faithful max st ev now st' es s id a req dl pkt ctx :
  reachable max st → admissible ev st → apply ev now st = (st', Ok es) →
  Dispatch s id a req dl pkt ctx ∈ es →
  session (agent st') = Some s ∧
  ∃ p', pending st' !! id = Some p' ∧ pstate p' = InFlight s a
    ∧ packet p' = pkt ∧ context p' = ctx ∧ requested_at p' = req
    ∧ deadline_timestamp p' = dl
    ∧ ((∃ p, pending st !! id = Some p ∧ same_request p p'
             ∧ a = wrap32 (attempt p + 1))
       ∨ submitted_as ev id p' ∧ a = 1%N).
Proof. intros Hr%well_formed_reachable. by apply apply_dispatch. Qed.

(** ** Wake announcements *)

Lemma elem_of_distinct seen l x : x ∈ distinct seen l ↔ x ∈ l ∧ x ∉ seen.
Proof.
  revert seen. induction l as [|r l IH]; intros seen; simpl; [set_solver|].
  case_decide as Hr; [|rewrite elem_of_cons]; rewrite IH, !elem_of_cons.
  - split; [tauto|]. intros [[->|?] ?]; tauto.
  - destruct (decide (x = r)) as [->|Hne]; tauto.
Qed.

Lemma NoDup_distinct seen l : NoDup (distinct seen l).
Proof.
  revert seen. induction l as [|r l IH]; intros seen; simpl; [constructor|].
  case_decide; [done|]. apply NoDup_cons. split; [|done].
  rewrite elem_of_distinct, elem_of_cons. tauto.
Qed.

Definition is_wake (e : Effect) : bool :=
  match e with WakeRequired _ => true | _ => false end.

Lemma event_no_wake ev sp sp' es :
  spec_event ev sp = Ok (sp', es) → Forall (λ e, is_wake e = false) es.
Proof.
  intros Hev. destruct ev; simpl in Hev; repeat case_match; simplify_eq; try by repeat constructor.
  apply Forall_forall. intros e Hin%elem_of_abandon. naive_solver.
Qed.

Lemma expire_no_wake now sp : Forall (λ e, is_wake e = false) (spec_expire now sp).2.
Proof.
  apply Forall_forall. intros e (k & p & _ & _ & H%elem_of_abandon)%elem_of_expire.
  naive_solver.
Qed.

Lemma dispatch_no_wake sp : Forall (λ e, is_wake e = false) (spec_dispatch sp).2.
Proof.
  unfold spec_dispatch. destruct (sp_agent sp); simpl; [constructor|..];
    by apply Forall_fmap, Forall_true.
Qed.

(** The wakes of a step are those of its reconciliation. *)
Lemma apply_wakes ev now sp sp' es :
  spec_apply ev now sp = (sp', Ok es) →
  ∃ sp2 changed, spec_event ev (spec_expire now sp).1 = Ok (sp2, changed)
    ∧ sp' = (spec_wake (spec_dispatch sp2).1).1
    ∧ filter (λ e, is_wake e = true) es
      = filter (λ e, is_wake e = true) (spec_wake (spec_dispatch sp2).1).2.
Proof.
  intros (sp2 & ch & Eev & -> & ->)%apply_parts. exists sp2, ch. split; [done|].
  assert (∀ es, Forall (λ e, is_wake e = false) es →
                filter (λ e, is_wake e = true) es = []) as Hnone.
  { intros l Hl. apply list_filter_none. eapply Forall_impl; [exact Hl|]. by intros e ->. }
  rewrite !filter_app, (Hnone _ (expire_no_wake now sp)), (Hnone _ (event_no_wake _ _ _ _ Eev)).
  unfold spec_reconcile. pose proof (Hnone _ (dispatch_no_wake sp2)) as Hd.
  destruct (spec_dispatch sp2) as [sp3 es3]. cbn [fst snd app] in *.
  destruct (spec_wake sp3) as [sp4 es4]. cbn [fst snd]. split; [done|].
  by rewrite filter_app, Hd.
Qed.

Lemma elem_of_wake sp r :
  WakeRequired r ∈ (spec_wake sp).2 →
  sp_agent sp = Disconnected ∧ waiting sp ≠ [] ∧ sp_wake sp = false
  ∧ r = {| reasons := waiting_reasons sp |}.
Proof.
  unfold spec_wake. case_decide as Hd; [by intros ?%not_elem_of_nil|].
  destruct (sp_wake sp); [by intros ?%not_elem_of_nil|].
  intros [= ->]%list_elem_of_singleton. split_and!; try done.
  - destruct (sp_agent sp); [done|exfalso; apply Hd; by right..].
  - intros E. apply Hd. by left.
Qed.

Lemma apply_announces st ev now st' es :
  well_formed st → admissible ev st → apply ev now st = (st', Ok es) →
  length (filter (λ e, is_wake e = true) es) ≤ 1
  ∧ ∀ r, WakeRequired r ∈ es →
      agent st' = Disconnected ∧ queue st' ≠ [] ∧ NoDup (reasons r)
      ∧ ∀ x, x ∈ reasons r ↔
          ∃ id p c, id ∈ queue st' ∧ pending st' !! id = Some p
                    ∧ context p = Some c ∧ reason c = x.
Proof.
  intros (sp & -> & Hwf) Hadm Hap.
  pose proof (wf_apply sp ev now Hwf Hadm) as Hwf'.
  rewrite refine_apply in Hap by done.
  destruct (spec_apply ev now sp) as [sp' res] eqn:Eap. cbn [fst snd] in *. simplify_eq.
  destruct (apply_wakes _ _ _ _ _ Eap) as (sp2 & ch & _ & -> & Hw). rewrite Hw. split.
  { unfold spec_wake. repeat case_match; simpl; lia. }
  intros r Hr. assert (WakeRequired r ∈ filter (λ e, is_wake e = true) es) as Hr'
    by (by apply list_elem_of_filter).
  rewrite Hw in Hr'. apply list_elem_of_filter in Hr' as [_ Hr'].
  pose proof Hr' as (Ha & Hne & Hflag & ->)%elem_of_wake.
  set (sp3 := (spec_dispatch sp2).1) in *.
  assert (sp_agent (spec_wake sp3).1 = Disconnected ∧ waiting (spec_wake sp3).1 = waiting sp3)
    as [Ha' Hw'] by (unfold spec_wake; by repeat case_match).
  split_and!; [done| |apply NoDup_distinct|].
  { simpl. rewrite Hw'. by destruct (waiting sp3). }
  intros x. simpl. unfold waiting_reasons. rewrite elem_of_distinct, list_elem_of_omap, Hw'. split.
  - intros [([k p] & Hin & Hc) _]. simpl in Hc.
    destruct (context p) as [c|] eqn:Ec; simplify_eq/=. exists k, p, c.
    split_and!; try done; [by apply (list_elem_of_fmap_2 fst) in Hin|].
    apply (pending_entry (spec_wake sp3).1 k p Hwf'), entry_cases. right. by rewrite Hw'.
  - intros (k & p & c & Hk & Hp & Hc & <-). split; [|by apply not_elem_of_nil].
    apply list_elem_of_fmap in Hk as ([k' p'] & -> & Hin). simpl in *.
    exists (k', p'). split; [done|]. simpl.
    apply (pending_entry (spec_wake sp3).1 k' p Hwf') in Hp.
    assert ((k', p') ∈ entries (spec_wake sp3).1) as Hin'
      by (apply entry_cases; right; by rewrite Hw').
    pose proof (NoDup_fst_inj _ _ _ (wf_distinct _ Hwf') Hp Hin' eq_refl).
    simplify_eq. by rewrite Hc.
Qed.

(** An accepted event announces at most one wake.  A wake is announced
    only when no remote is connected and requests are queued, and it lists the
    reasons of the queued requests, each once. *)
Theorem wake_announcement max st ev now st' es :
  reachable max st → admissible ev st → apply ev now st = (st', Ok es) →
  length (filter (λ e, is_wake e = true) es) ≤ 1
  ∧ ∀ r, WakeRequired r ∈ es →
      agent st' = Disconnected ∧ queue st' ≠ [] ∧ NoDup (reasons r)
      ∧ ∀ x, x ∈ reasons r ↔
          ∃ id p c, id ∈ queue st' ∧ pending st' !! id = Some p
                    ∧ context p = Some c ∧ reason c = x.
Proof. intros Hr%well_formed_reachable. by apply apply_announces. Qed.

(** ** Quiescence *)

Lemma sp_set_entries_id sp : sp_set_entries (delivered sp) (waiting sp) sp = sp.
Proof. by destruct sp. Qed.

Lemma tick_quiet sp now :
  wake_settled sp → Forall (λ e, ¬ overdue now e) (entries sp) →
  (∀ s c, sp_agent sp = Locked s c ∨ sp_agent sp = Ready s c →
          waiting sp = [] ∨ len (delivered sp) = c) →
  spec_apply EvTick now sp = (sp, Ok []).
Proof.
  intros Hset Hdue Hbusy. unfold spec_apply, spec_expire.
  unfold entries in Hdue. rewrite (list_filter_none (overdue now)) by done.
  apply Forall_app in Hdue as [Hd Hw].
  rewrite !list_filter_all, sp_set_entries_id by done. simpl.
  assert (spec_dispatch sp = (sp, [])) as E1.
  { unfold spec_dispatch. destruct (sp_agent sp) as [|s c|s c] eqn:Ea; [done| |].
    all: destruct (Hbusy s c) as [Hwait|Hc]; [naive_solver| |].
    1, 3: rewrite Hwait, take_nil, drop_nil; simpl; rewrite app_nil_r, <- Hwait.
    1, 2: by rewrite sp_set_entries_id.
    all: unfold free_slots; rewrite Hc, N.sub_diag; simpl.
    all: by rewrite app_nil_r, sp_set_entries_id. }
  assert (spec_wake sp = (sp, [])) as E2.
  { unfold spec_wake, wake_settled in *. case_decide as Hdec.
    - assert (sp_wake sp = false) as Ew.
      { destruct (sp_wake sp); [|done]. destruct (proj1 Hset eq_refl) as [Ha Hne].
        rewrite Ha in Hdec. naive_solver. }
      f_equal. destruct sp. simpl in *. by subst.
    - assert (sp_agent sp = Disconnected) as Ea
        by (destruct (sp_agent sp); [done|exfalso; apply Hdec; by right..]).
      by rewrite (proj2 Hset) by tauto. }
  unfold spec_reconcile. by rewrite E1, E2.
Qed.

(** The broker settles in one step.  After an accepted event that leaves
    no pending request due, a clock tick at the same instant changes nothing
    and emits nothing; in particular routine ticks repeat no notification. *)
Theorem tick_after_event_is_silent max st ev now st' es :
  reachable max st → admissible ev st → apply ev now st = (st', Ok es) →
  (∀ id p, pending st' !! id = Some p → (now < deadline p)%N) →
  apply EvTick now st' = (st', Ok []).
Proof.
  intros (sp & -> & Hwf & Hset & _)%reachable_spec Hadm Hap Hdue.
  pose proof (wf_apply sp ev now Hwf Hadm) as Hwf'.
  pose proof (wake_settled_apply sp ev now Hset) as Hset'.
  rewrite refine_apply in Hap by done.
  destruct (spec_apply ev now sp) as [sp' r] eqn:Eap. cbn [fst snd] in *. simplify_eq.
  destruct (dispatched_apply _ _ _ _ _ Eap) as (sp2 & ch & Eev & -> & _).
  rewrite refine_apply, tick_quiet; try done.
  - apply Forall_forall. intros [k p] Hin. apply pending_entry in Hin; [|done].
    specialize (Hdue k p Hin). unfold overdue, expired. simpl. rewrite N.leb_le. lia.
  - intros s c Hsc. destruct (reconcile_lists sp2) as (Ha & Hdel & Hwait).
    destruct (dispatched_sent sp2) as (d & Hd & _ & Hcap).
    rewrite Ha in Hsc. rewrite Hdel, Hwait, Hd. apply (Hcap s c Hsc).
    apply (wf_capacity sp2) with s; [|done].
    by eapply wf_event, Eev; auto with broker.
Qed.

(** ** Witnesses *)

(** The phone answers request 1: it completes and request 2 takes its place. *)
Definition sample_response : Event := EvResponse 100 1 1 (byte_string "signature").
Definition sample_answered : BrokerState := (apply sample_response 5 sample_state).1.
Definition sample_effects : list Effect :=
  [Complete 1 (Ok (byte_string "signature"));
   Dispatch 100 2 1 1001 31001 (byte_string "list") None].

Lemma sample_response_step :
  apply sample_response 5 sample_state = (sample_answered, Ok sample_effects).
Proof. by vm_compute. Qed.

(** The session disconnects: its request is queued again and a wake lists its
    reason. *)
Definition sample_lost : BrokerState := (apply (EvDisconnected 100) 5 sample_state).1.
Definition sample_wake : WakeRequest := {| reasons := [byte_string "Push the release"] |}.

Lemma sample_disconnect_step :
  apply (EvDisconnected 100) 5 sample_state = (sample_lost, Ok [WakeRequired sample_wake]).
Proof. by vm_compute. Qed.

Lemma answered_exactly_once_witness :
  let trace := sample_trace ++ [(sample_response, 5%N)] in
  answered 1 (run trace (new 8)).2 + holds 1 (run trace (new 8)).1 = submissions 1 trace.
Proof.
  intros trace.
  apply (answered_exactly_once 8 trace 1 (run trace (new 8)).1 (run trace (new 8)).2).
  - by apply (bool_decide_eq_true_1 _); vm_compute.
  - apply surjective_pairing.
  - vm_compute. repeat constructor.
Defined.

Lemma deadlines_enforced_witness :
  Complete 1 (Err TimedOut) ∈ [Cancel 100 1 1; Complete 1 (Err TimedOut);
                               Dispatch 100 2 1 1001 31001 (byte_string "list") None].
Proof.
  eapply (proj2 (deadlines_enforced 8 sample_state EvTick 30
                   (apply EvTick 30 sample_state).1 _ sample_reachable I ltac:(by vm_compute))
            1%N (default (fresh_entry 0 [] None 0 0 0 0).2 (pending sample_state !! 1%N))).
  - by vm_compute.
  - by vm_compute.
Defined.

Lemma success_iff_matching_response_witness :
  ∃ s a p, sample_response = EvResponse s 1 a (byte_string "signature")
           ∧ pending sample_state !! 1%N = Some p ∧ pstate p = InFlight s a
           ∧ (5 < deadline p)%N.
Proof.
  apply (success_iff_matching_response 8 sample_state sample_response 5 sample_answered
           sample_effects 1 (byte_string "signature"));
    [apply sample_reachable|done|apply sample_response_step|apply list_elem_of_here].
Defined.

Lemma stale_response_ignored_witness :
  apply (EvResponse 99 1 1 []) 5 sample_state = apply EvTick 5 sample_state.
Proof.
  apply (stale_response_ignored 8 sample_state 99 1 1 [] 5); [apply sample_reachable|].
  left. by vm_compute.
Defined.

Lemma dispatch_fifo_and_work_conserving_witness :
  dispatched sample_effects = [2%N]
  ∧ (queue sample_answered = [] ∨ in_flight_for sample_answered 100 = 1%N).
Proof.
  split; [done|].
  apply (dispatch_fifo_and_work_conserving 8 sample_state sample_response 5 sample_answered
           sample_effects); [apply sample_reachable|done|apply sample_response_step|].
  by vm_compute.
Defined.

Lemma dispatch_faithful_witness : session (agent sample_answered) = Some 100%N.
Proof.
  apply (dispatch_faithful 8 sample_state sample_response 5 sample_answered sample_effects
           100 2 1 1001 31001 (byte_string "list") None);
    [apply sample_reachable|done|apply sample_response_step|].
  apply list_elem_of_further, list_elem_of_here.
Defined.

Lemma wake_announcement_witness :
  agent sample_lost = Disconnected ∧ queue sample_lost ≠ [].
Proof.
  destruct (proj2 (wake_announcement 8 sample_state (EvDisconnected 100) 5 sample_lost
                     [WakeRequired sample_wake] sample_reachable I sample_disconnect_step)
              sample_wake (list_elem_of_here _ _)) as (Ha & Hq & _).
  done.
Defined.

Lemma tick_after_event_is_silent_witness :
  apply EvTick 5 sample_answered = (sample_answered, Ok []).
Proof.
  apply (tick_after_event_is_silent 8 sample_state sample_response 5 sample_answered
           sample_effects); [apply sample_reachable|done|apply sample_response_step|].
  intros id p Hp. apply elem_of_map_to_list in Hp. revert Hp. vm_compute.
  intros Hp. apply list_elem_of_singleton in Hp. by simplify_eq.
Defined.
