(* ===== verification/BrokerTask.v ===== *)
(** * BrokerTask: the actor around the broker model

    Models [crates/server/src/broker/task.rs] and the control types of
    [broker/mod.rs].  The actor owns the model, the local waiters and the
    remote's outbound channel, and turns the model's effects into messages.

    Channels are identified by handles.  What the actor sends is an explicit
    list of actions; a send on the remote's channel fails when its receiver is
    gone, which the environment decides per command through [delivers].
    Values the runtime supplies (fresh UUIDs and abort handles, the monotonic
    and the system clock) are arguments of the handlers. *)

From S2P Require Import Prelude Bytes Packet Assoc BrokerModel.

(** A channel end, an abort handle or a cancellation token. *)
Abbreviation Handle := N.

(** ** Data *)

(** Durations are in nanoseconds, like [Instant]. *)
Record BrokerConfig := {
  request_timeout : N;
  config_max_pending_requests : N;
}.

Inductive BrokerError :=
| BrokerUnavailable
| BrokerRemoteAlreadyConnected
| InvalidRemoteCapacity.

(** Message emitted by the broker for the active remote session. *)
Inductive RemoteCommand :=
| RemoteRequest (request_id : RequestId) (attempt requested_at deadline : N)
    (packet : bytes) (context : option RequestContext)
| RemoteCancel (request_id : RequestId) (attempt : N).

(** Internal messages serialized through the broker actor's mailbox. *)
Inductive Command :=
| CmdConnect (capacity : N) (outbound response : Handle)
| CmdReady (session_id : SessionId)
| CmdLocked (session_id : SessionId)
| CmdDisconnected (session_id : SessionId)
| CmdResponse (session_id : SessionId) (request_id : RequestId) (attempt : N)
    (packet : bytes)
| CmdShutdown (response : Handle).

Record Waiter := {
  response : Handle;
  cancellation : Handle;
}.

(** One complete SSH-agent packet awaiting processing ([packet.rs]). *)
Record PacketRequest := {
  req_packet : bytes;
  req_context : option RequestContext;
  req_response : Handle;
  req_cancellation : Handle;
}.

Record BrokerActor := {
  config : BrokerConfig;
  state : BrokerState;
  waiters : gmap RequestId Waiter;
  remote : option (SessionId * Handle);
}.

(** What the actor does to the world. *)
Inductive Action :=
| Respond (waiter : Handle) (outcome : result bytes RequestError)
| Abort (registration : Handle)
| Outbound (channel : Handle) (command : RemoteCommand)
| Wake (request : WakeRequest)
| ConnectReply (response : Handle) (outcome : result SessionId BrokerError)
| ShutdownReply (response : Handle).

#[export] Instance BrokerError_eq_dec : EqDecision BrokerError.
Proof. solve_decision. Defined.
#[export] Instance RemoteCommand_eq_dec : EqDecision RemoteCommand.
Proof. solve_decision. Defined.
#[export] Instance Action_eq_dec : EqDecision Action.
Proof. solve_decision. Defined.

Definition set_state (st : BrokerState) (a : BrokerActor) : BrokerActor :=
  {| config := config a; state := st; waiters := waiters a; remote := remote a |}.
Definition set_waiters (w : gmap RequestId Waiter) (a : BrokerActor) : BrokerActor :=
  {| config := config a; state := state a; waiters := w; remote := remote a |}.
Definition set_remote (r : option (SessionId * Handle)) (a : BrokerActor) : BrokerActor :=
  {| config := config a; state := state a; waiters := waiters a; remote := r |}.

(** [unix_milliseconds]: a system time is a signed number of nanoseconds since
    the Unix epoch. *)
Definition unix_milliseconds (time : Z) : N :=
  let elapsed := Z.to_N time in
  let millis := (elapsed `div` 1000000)%N in
  if (millis <=? U64_MAX)%N then millis else U64_MAX.

(** An [Instant] and a [SystemTime] count seconds in a signed 64-bit integer:
    adding a duration panics when the sum is beyond it. *)
Definition TIME_LIMIT : Z := 2 ^ 63 * 10 ^ 9.
Definition deadline_overflows (timeout : N) (now : Instant) (system_now : Z) : bool :=
  (TIME_LIMIT <=? Z.of_N (now + timeout))%Z || (TIME_LIMIT <=? system_now + Z.of_N timeout)%Z.
Arguments deadline_overflows : simpl never.

(** ** Executing effects *)

Section actor.
(** Whether the receiver of an outbound channel is still there when a command
    is sent. *)
Context (delivers : Handle → RemoteCommand → bool).

(** Send on the remote's channel if it belongs to the session: the actions
    performed and whether the command was sent. *)
Definition send_remote (a : BrokerActor) (s : SessionId) (command : RemoteCommand) :
    list Action * bool :=
  match remote a with
  | Some (active, channel) =>
      if decide (active = s) then
        if delivers channel command then ([Outbound channel command], true)
        else ([], false)
      else ([], false)
  | None => ([], false)
  end.

(** The body of [execute]'s loop for one effect: the actor, what it did, and
    the effects appended to the queue. *)
Definition execute_one (e : Effect) (now : Instant) (a : BrokerActor) :
    BrokerActor * list Action * list Effect :=
  match e with
  | Dispatch s id att req dl pkt ctx =>
      let '(acts, sent) := send_remote a s (RemoteRequest id att req dl pkt ctx) in
      if sent then (a, acts, [])
      else
        let a := set_remote None a in
        match BrokerModel.apply (EvDisconnected s) now (state a) with
        | (st, Ok reconciled) => (set_state st a, acts, reconciled)
        | (st, Err _) => (set_state st a, acts, [])
        end
  | Cancel s id att => (a, (send_remote a s (RemoteCancel id att)).1, [])
  | WakeRequired request => (a, [Wake request], [])
  | Complete id outcome =>
      match waiters a !! id with
      | Some w =>
          (set_waiters (delete id (waiters a)) a,
           [Abort (cancellation w); Respond (response w) outcome], [])
      | None => (a, [], [])
      end
  end.

(** The loop of [execute]; [None] when the fuel runs out before the effects
    do.  [BrokerTaskProps] proves that [execute] always has enough. *)
Fixpoint execute_loop (fuel : nat) (effects : list Effect) (now : Instant)
    (a : BrokerActor) : option (BrokerActor * list Action) :=
  match effects with
  | [] => Some (a, [])
  | e :: rest =>
      match fuel with
      | 0 => None
      | S fuel =>
          let '(a', acts, more) := execute_one e now a in
          match execute_loop fuel (rest ++ more) now a' with
          | None => None
          | Some (a'', acts') => Some (a'', acts ++ acts')
          end
      end
  end.

Definition is_dispatch (e : Effect) : bool :=
  match e with Dispatch _ _ _ _ _ _ _ => true | _ => false end.
Definition execute_fuel (effects : list Effect) (st : BrokerState) : nat :=
  length effects + length (filter (λ e, is_dispatch e = true) effects)
  + 2 * size (pending st).
Definition execute (effects : list Effect) (now : Instant) (a : BrokerActor) :
    option (BrokerActor * list Action) :=
  execute_loop (execute_fuel effects (state a)) effects now a.

(** [BrokerActor::apply] *)
Definition actor_apply (ev : Event) (now : Instant) (a : BrokerActor) :
    option (BrokerActor * list Action) :=
  match BrokerModel.apply ev now (state a) with
  | (st, Ok effects) => execute effects now (set_state st a)
  | (st, Err _) => Some (set_state st a, [])
  end.

(** ** Handlers *)

(** [stop]: fail every waiter. *)
Definition stop (a : BrokerActor) : BrokerActor * list Action :=
  (set_waiters ∅ a,
   mjoin ((λ kv, [Abort (cancellation kv.2); Respond (response kv.2) (Err Unavailable)])
            <$> map_to_list (waiters a))).

(** The event a local request becomes. *)
Definition submit_event (request_id : RequestId) (now : Instant) (system_now : Z)
    (request : PacketRequest) (timeout : N) : Event :=
  EvSubmit request_id (req_packet request) (req_context request)
    (now + timeout)%N (unix_milliseconds system_now)
    (unix_milliseconds (system_now + Z.of_N timeout)).

(** [handle_local], with the UUID and abort handle it creates and the clocks it
    reads.  The cancellation future it returns is the pair of the request and
    its abort handle.  The flag says that the addition of the timeout panicked.
    That ends the actor's task: the waiters, this one included, are dropped, and
    a caller whose response channel is dropped reads [Unavailable] from it
    ([submit] of [RequestRouter]), which is what [stop] answers. *)
Definition handle_local (request_id : RequestId) (abort : Handle) (now : Instant)
    (system_now : Z) (request : PacketRequest) (a : BrokerActor) :
    option (BrokerActor * list Action * bool) :=
  let w := {| response := req_response request; cancellation := abort |} in
  let a := set_waiters (<[request_id := w]> (waiters a)) a in
  let timeout := request_timeout (config a) in
  if deadline_overflows timeout now system_now then
    let '(a, acts) := stop a in Some (a, acts, true)
  else
    (λ r, (r.1, r.2, false))
    <$> actor_apply (submit_event request_id now system_now request timeout) now a.

(** [handle]: the flag says that the actor is done. *)
Definition handle (command : Command) (new_session : SessionId) (now : Instant)
    (a : BrokerActor) : option (BrokerActor * list Action * bool) :=
  let continue (r : option (BrokerActor * list Action)) :=
    (λ r, (r.1, r.2, false)) <$> r in
  match command with
  | CmdConnect capacity outbound resp =>
      match BrokerModel.apply (EvConnected new_session capacity) now (state a) with
      | (st, Ok effects) =>
          let a := set_remote (Some (new_session, outbound)) (set_state st a) in
          match execute effects now a with
          | None => None
          | Some (a, acts) =>
              Some (a, ConnectReply resp (Ok new_session) :: acts, false)
          end
      | (st, Err RemoteAlreadyConnected) =>
          Some (set_state st a,
                [ConnectReply resp (Err BrokerRemoteAlreadyConnected)], false)
      end
  | CmdReady s => continue (actor_apply (EvReady s) now a)
  | CmdLocked s => continue (actor_apply (EvLocked s) now a)
  | CmdDisconnected s =>
      let a := match remote a with
               | Some (active, _) =>
                   if decide (active = s) then set_remote None a else a
               | None => a
               end in
      continue (actor_apply (EvDisconnected s) now a)
  | CmdResponse s id att pkt => continue (actor_apply (EvResponse s id att pkt) now a)
  | CmdShutdown resp =>
      let '(a, acts) := stop a in
      Some (a, acts ++ [ShutdownReply resp], true)
  end.

(** ** The select loop *)

(** What completes in one iteration of [run_broker]'s [select!]. *)
Inductive Input :=
| InLocal (request_id : RequestId) (abort : Handle) (now : Instant) (system_now : Z)
    (request : PacketRequest)
| InLocalClosed
| InCancelled (request_id : RequestId) (now : Instant)
| InAborted (request_id : RequestId)
| InCommand (command : Command) (new_session : SessionId) (now : Instant)
| InCommandsClosed
| InDeadline (now : Instant).

Record BrokerLoop := {
  actor : BrokerActor;
  local_requests_open : bool;
  cancellations : list (RequestId * Handle);
  running : bool;
}.

Definition run_broker_init (cfg : BrokerConfig) : BrokerLoop :=
  {| actor := {| config := cfg; state := new (config_max_pending_requests cfg);
                 waiters := ∅; remote := None |};
     local_requests_open := true; cancellations := []; running := true |}.

Definition loop_continue (l : BrokerLoop) (cs : list (RequestId * Handle))
    (r : option (BrokerActor * list Action)) : option (BrokerLoop * list Action) :=
  (λ r, ({| actor := r.1; local_requests_open := local_requests_open l;
            cancellations := cs; running := running l |}, r.2)) <$> r.

(** One iteration.  [None] stands for an input that cannot occur in the state
    (or for exhausted fuel, which [BrokerTaskProps] excludes). *)
Definition run_broker_step (i : Input) (l : BrokerLoop) :
    option (BrokerLoop * list Action) :=
  if negb (running l) then None else
  match i with
  | InLocal id abort now sys request =>
      if local_requests_open l then
        match handle_local id abort now sys request (actor l) with
        | None => None
        | Some (a, acts, panicked) =>
            Some ({| actor := a; local_requests_open := true;
                     cancellations := (id, abort) :: cancellations l;
                     running := negb panicked |}, acts)
        end
      else None
  | InLocalClosed =>
      if local_requests_open l then
        Some ({| actor := actor l; local_requests_open := false;
                 cancellations := cancellations l; running := true |}, [])
      else None
  | InCancelled id now =>
      if decide (id ∈ (cancellations l).*1) then
        loop_continue l (filter (λ c, c.1 ≠ id) (cancellations l))
          (actor_apply (EvCancelled id) now (actor l))
      else None
  | InAborted id =>
      if decide (id ∈ (cancellations l).*1) then
        loop_continue l (filter (λ c, c.1 ≠ id) (cancellations l)) (Some (actor l, []))
      else None
  | InCommand command new_session now =>
      match handle command new_session now (actor l) with
      | None => None
      | Some (a, acts, done) =>
          Some ({| actor := a; local_requests_open := local_requests_open l;
                   cancellations := cancellations l; running := negb done |}, acts)
      end
  | InCommandsClosed =>
      let '(a, acts) := stop (actor l) in
      Some ({| actor := a; local_requests_open := local_requests_open l;
               cancellations := cancellations l; running := false |}, acts)
  | InDeadline now =>
      match next_deadline (state (actor l)) with
      | Some d =>
          if (d <=? now)%N then
            loop_continue l (cancellations l) (actor_apply EvTick now (actor l))
          else None
      | None => None
      end
  end.

End actor.
