(* ===== verification/BrokerHandle.v ===== *)
(** * BrokerHandle: how other tasks reach the broker's actor

    Models [BrokerHandle] of [crates/server/src/broker/task.rs]: every method
    puts one command into the actor's bounded mailbox, or reports that the actor
    is gone, and two of them then wait for a reply on a one-shot channel.

    A send into a bounded channel waits while the channel is full, succeeds once
    there is room, and fails once the receiver is dropped.  [accepted] is how a
    send ended; [mailbox_takes] says when it can end so. *)

From S2P Require Import Prelude Bytes Packet BrokerModel BrokerTask.

(** [mpsc::channel(128)] *)
Definition COMMAND_CHANNEL_CAPACITY : nat := 128.

(** [spawn]: the actor's loop, and the mailbox the handle sends to. *)
Definition spawn (cfg : BrokerConfig) : BrokerLoop * list Command := (run_broker_init cfg, []).

(** Whether sending these commands can end now: the receiver is gone, or there
    is room. *)
Definition mailbox_takes (receiving : bool) (mailbox posted : list Command) : bool :=
  negb receiving || bool_decide (length mailbox + length posted ≤ COMMAND_CHANNEL_CAPACITY).

(** What a method put into the mailbox, and what it returned. *)
Definition send_remote_event (accepted : bool) (command : Command) :
    list Command * result unit BrokerError :=
  if accepted then ([command], Ok tt) else ([], Err BrokerUnavailable).

Definition remote_ready (accepted : bool) (s : SessionId) : list Command * result unit BrokerError :=
  send_remote_event accepted (CmdReady s).
Definition remote_locked (accepted : bool) (s : SessionId) : list Command * result unit BrokerError :=
  send_remote_event accepted (CmdLocked s).
Definition remote_disconnected (accepted : bool) (s : SessionId) :
    list Command * result unit BrokerError :=
  send_remote_event accepted (CmdDisconnected s).
Definition remote_response (accepted : bool) (s : SessionId) (request_id : RequestId) (attempt : N)
    (packet : bytes) : list Command * result unit BrokerError :=
  send_remote_event accepted (CmdResponse s request_id attempt packet).

(** [connect_remote] until it waits for the actor's reply on [response]. *)
Definition connect_remote (accepted : bool) (capacity : N) (outbound response : Handle) :
    list Command * result unit BrokerError :=
  if (capacity =? 0)%N then ([], Err InvalidRemoteCapacity)
  else send_remote_event accepted (CmdConnect capacity outbound response).

(** The rest of [connect_remote]: [None] when the reply's sender was dropped. *)
Definition connect_reply (reply : option (result SessionId BrokerError)) :
    result SessionId BrokerError :=
  match reply with
  | Some outcome => outcome
  | None => Err BrokerUnavailable
  end.

(** [shutdown]: what it sends, and whether it then waits for the
    acknowledgement. *)
Definition shutdown (accepted : bool) (response : Handle) : list Command * bool :=
  if accepted then ([CmdShutdown response], true) else ([], false).

(** A method reports success exactly when it has sent its command. *)
Lemma send_remote_event_ok accepted command posted r :
  send_remote_event accepted command = (posted, r) →
  (r = Ok tt ↔ posted = [command]) ∧ (r ≠ Ok tt → posted = []) ∧ is_ok r = accepted.
Proof. unfold send_remote_event. destruct accepted; intros [= <- <-]; naive_solver. Qed.
