(* ===== verification/BrokerTaskProps.v ===== *)
(** * BrokerTaskProps: what the broker actor guarantees

    Theorems about [BrokerTask]: the effect loop always finishes within its
    fuel, every iteration of the select loop is total, the waiters, the model
    and the remote channel stay in step, every local caller is answered exactly
    once or still waits, and what a refused connection does to a waiter. *)

From S2P Require Import Prelude Bytes Packet Assoc BrokerModel BrokerSpec BrokerRefinement BrokerProps BrokerEffects BrokerTask.

(** ** The effect loop has enough fuel *)

Lemma size_delete_Some {V} (m : gmap RequestId V) id v :
  m !! id = Some v → S (size (delete id m)) = size m.
Proof.
  intros H. rewrite <- (insert_delete_id m id v H) at 2.
  by rewrite map_size_insert_None by apply lookup_delete_eq.
Qed.

Lemma length_abandon err id p : length (abandon err id p) ≤ 2.
Proof. unfold abandon. destruct (pstate p); simpl; lia. Qed.

(** Every effect of expiry is paid for by a request it removes. *)
Lemma remove_expired_budget ids m :
  length (remove_expired ids m).2 + 2 * size (remove_expired ids m).1 ≤ 2 * size m.
Proof.
  revert m. induction ids as [|id ids IH]; intros m; simpl; [lia|].
  destruct (m !! id) as [p|] eqn:E; [|apply IH].
  specialize (IH (delete id m)). apply size_delete_Some in E.
  destruct (remove_expired ids (delete id m)) as [m' es]. simpl in *.
  rewrite length_app. pose proof (length_abandon TimedOut id p). lia.
Qed.

Lemma expire_budget now st :
  length (expire now st).2 + 2 * size (pending (expire now st).1) ≤ 2 * size (pending st).
Proof.
  unfold expire, expire_iter.
  pose proof (remove_expired_budget (expired_ids (map_to_list (pending st)) now) (pending st)).
  by destruct (remove_expired _ _).
Qed.

(** Effects other than dispatches. *)
Abbreviation quiet := (Forall (λ e, is_dispatch e = false)).

Lemma abandon_quiet err id p : quiet (abandon err id p).
Proof. unfold abandon. destruct (pstate p); simpl; repeat constructor. Qed.

Lemma expire_quiet now st : quiet (expire now st).2.
Proof.
  unfold expire, expire_iter. generalize (expired_ids (map_to_list (pending st)) now).
  intros ids. cut (quiet (remove_expired ids (pending st)).2).
  { by destruct (remove_expired _ _). }
  generalize (pending st). induction ids as [|id ids IH]; intros m; simpl; [constructor|].
  destruct (m !! id) as [p|]; [|apply IH]. specialize (IH (delete id m)).
  destruct (remove_expired ids (delete id m)). apply Forall_app.
  split; [apply abandon_quiet|done].
Qed.

Lemma apply_event_quiet ev st st' es : apply_event ev st = Ok (st', es) → quiet es.
Proof.
  destruct ev; simpl; repeat case_match; intros; simplify_eq;
    try apply abandon_quiet; repeat constructor.
Qed.

Lemma announce_wake_spec st :
  agent (announce_wake st).1 = agent st
  ∧ pending (announce_wake st).1 = pending st
  ∧ length (announce_wake st).2 ≤ 1
  ∧ quiet (announce_wake st).2.
Proof.
  unfold announce_wake. case_decide; [|case_match]; simpl; split_and!; try done; try lia;
    repeat constructor.
Qed.

(** Dispatches are addressed to the connected session, unless it is gone. *)
Definition addressed (a : RemoteAgentState) (e : Effect) : Prop :=
  match e with
  | Dispatch s _ _ _ _ _ _ => a = Disconnected ∨ session a = Some s
  | _ => True
  end.

Lemma quiet_addressed a es : quiet es → Forall (addressed a) es.
Proof. intros H. eapply Forall_impl; [exact H|]. by intros []. Qed.

Lemma disconnected_addressed es : Forall (addressed Disconnected) es.
Proof. apply Forall_true. intros []; try done. by left. Qed.

Lemma dispatch_loop_addressed s c n q m a :
  session a = Some s → Forall (addressed a) (dispatch_loop s c n q m).2.
Proof.
  intros Ha. revert n m. induction q as [|id q IH]; intros n m; simpl; [constructor|].
  destruct (n <? c)%N; [|constructor]. destruct (m !! id) as [p|]; [|apply IH].
  specialize (IH (n + 1)%N (<[id:=deliver s p]> m)).
  destruct (dispatch_loop _ _ _ _ _) as [[q' m'] es]. constructor; [by right|done].
Qed.

Lemma dispatch_queue_addressed st :
  agent (dispatch_queue st).1 = agent st
  ∧ Forall (addressed (agent st)) (dispatch_queue st).2.
Proof.
  unfold dispatch_queue, connected_remote.
  destruct (agent st) as [|s c|s c] eqn:Ea; [by split; [|constructor]|..];
    pose proof (dispatch_loop_addressed s c (in_flight_for st s) (queue st) (pending st)
      (agent st)) as H; rewrite Ea in H; specialize (H eq_refl);
    by destruct (dispatch_loop _ _ _ _ _) as [[q m] es].
Qed.

Lemma reconcile_addressed st :
  agent (reconcile st).1 = agent st
  ∧ Forall (addressed (agent st)) (reconcile st).2.
Proof.
  unfold reconcile. destruct (dispatch_queue_addressed st) as [Ha Hd].
  destruct (dispatch_queue st) as [st1 es1]. simpl in *.
  destruct (announce_wake_spec st1) as (H1 & _ & _ & H2).
  destruct (announce_wake st1) as [st2 es2]. simpl in *. split; [congruence|].
  apply Forall_app. split; [done|by apply quiet_addressed].
Qed.

Lemma apply_addressed ev now st st' es :
  apply ev now st = (st', Ok es) → Forall (addressed (agent st')) es.
Proof.
  unfold apply. pose proof (expire_quiet now st) as He.
  destruct (expire now st) as [st1 es1]. simpl in He.
  destruct (apply_event ev st1) as [[st2 es2]|] eqn:Ev; [|done].
  destruct (reconcile_addressed st2) as [Ha Hr]. destruct (reconcile st2) as [st3 es3].
  simpl in *. intros [= <- <-]. rewrite Ha, !Forall_app.
  split_and!; auto using quiet_addressed.
  by eapply quiet_addressed, apply_event_quiet.
Qed.

(** Losing the session requeues its work: at most one new effect that no removed
    request pays for, and no dispatch. *)
Lemma disconnect_budget s now st :
  addressed (agent st) (Dispatch s 0 0 0 0 [] None) →
  ∃ st' es, apply (EvDisconnected s) now st = (st', Ok es)
    ∧ agent st' = Disconnected ∧ quiet es
    ∧ length es + 2 * size (pending st') ≤ S (2 * size (pending st)).
Proof.
  simpl. intros Ha. pose proof (expire_budget now st) as Hb.
  pose proof (expire_quiet now st) as He.
  assert (agent (expire now st).1 = agent st) as Hag.
  { unfold expire, expire_iter. by destruct (remove_expired _ _). }
  unfold apply. destruct (expire now st) as [st1 es1]. simpl in *.
  assert (∃ st2, apply_event (EvDisconnected s) st1 = Ok (st2, [])
      ∧ agent st2 = Disconnected ∧ size (pending st2) = size (pending st1))
    as (st2 & E0 & E1 & E2).
  { simpl. case_decide as Hd; eexists; (split; [done|]); simpl.
    - split; [done|]. apply map_size_fmap.
    - split; [|done]. rewrite Hag in *. destruct Ha as [Ha|Ha]; [done|congruence]. }
  simpl in E0. rewrite E0. unfold reconcile, dispatch_queue, connected_remote. rewrite E1.
  destruct (announce_wake_spec st2) as (H1 & H2 & H3 & H4).
  destruct (announce_wake st2) as [st3 es3]. simpl in *.
  eexists _, _. split; [done|]. rewrite length_app, H2, E2, Forall_app.
  split_and!; [congruence|done|done|lia].
Qed.

Lemma execute_fuel_cons e es st :
  execute_fuel (e :: es) st = execute_fuel es st + (if is_dispatch e then 2 else 1).
Proof.
  unfold execute_fuel. rewrite filter_cons.
  destruct (is_dispatch e); case_decide; simpl; lia || done.
Qed.

Lemma execute_fuel_quiet es more st :
  quiet more → execute_fuel (es ++ more) st = execute_fuel es st + length more.
Proof.
  intros Hq. unfold execute_fuel. rewrite filter_app, !length_app.
  rewrite (list_filter_none _ more); [simpl; lia|].
  eapply Forall_impl; [exact Hq|]. intros e ->. done.
Qed.

Lemma execute_fuel_state es st st' n :
  n + 2 * size (pending st') ≤ S (2 * size (pending st)) →
  execute_fuel es st' + n ≤ S (execute_fuel es st).
Proof. unfold execute_fuel. lia. Qed.

Section totality.
Context (delivers : Handle → RemoteCommand → bool).

Lemma execute_one_budget e es now a a' acts more :
  Forall (addressed (agent (state a))) (e :: es) →
  execute_one delivers e now a = (a', acts, more) →
  Forall (addressed (agent (state a'))) (es ++ more)
  ∧ execute_fuel (es ++ more) (state a') < execute_fuel (e :: es) (state a).
Proof.
  intros [He Hes]%Forall_cons Hx. rewrite execute_fuel_cons.
  destruct e as [s id att req dl pkt ctx|s id att|r|id r]; simpl in Hx.
  - destruct (send_remote _ _ _ _) as [acts0 sent]. destruct sent.
    { simplify_eq. rewrite app_nil_r. simpl. split; [done|lia]. }
    destruct (disconnect_budget s now (state a)) as (st & es' & E & Hag & Hq & Hb); [done|].
    rewrite E in Hx. simplify_eq. simpl. rewrite Hag, execute_fuel_quiet by done.
    split; [apply disconnected_addressed|].
    pose proof (execute_fuel_state es (state a) st (length more) Hb). lia.
  - simplify_eq. rewrite app_nil_r. simpl. split; [done|lia].
  - simplify_eq. rewrite app_nil_r. simpl. split; [done|lia].
  - destruct (waiters a !! id); simplify_eq; rewrite app_nil_r; simpl; (split; [done|lia]).
Qed.

Lemma execute_loop_total fuel es now a :
  Forall (addressed (agent (state a))) es → execute_fuel es (state a) ≤ fuel →
  is_Some (execute_loop delivers fuel es now a).
Proof.
  revert es a. induction fuel as [|fuel IH]; intros [|e es] a Had Hf; simpl; try by eauto.
  { rewrite execute_fuel_cons in Hf. destruct (is_dispatch e); lia. }
  destruct (execute_one delivers e now a) as [[a' acts] more] eqn:E.
  apply execute_one_budget with (es := es) in E as [Had' Hlt]; [|done].
  destruct (IH (es ++ more) a') as [[a'' acts'] ->]; [done|lia|eauto].
Qed.

Lemma execute_total es now a :
  Forall (addressed (agent (state a))) es → is_Some (execute delivers es now a).
Proof. intros Had. by apply execute_loop_total. Qed.

Lemma actor_apply_total ev now a : is_Some (actor_apply delivers ev now a).
Proof.
  unfold actor_apply. destruct (apply ev now (state a)) as [st [es|]] eqn:E; [|eauto].
  apply execute_total. by eapply apply_addressed.
Qed.

Lemma handle_local_total id ab now sys r a :
  is_Some (handle_local delivers id ab now sys r a).
Proof.
  unfold handle_local. destruct (deadline_overflows _ _ _); [by eexists|].
  apply fmap_is_Some, actor_apply_total.
Qed.

Lemma handle_total c s now a : is_Some (handle delivers c s now a).
Proof.
  destruct c as [cap out resp|s'|s'|s'|s' id att pkt|resp]; simpl;
    try (apply fmap_is_Some, actor_apply_total); [|by eauto].
  destruct (apply _ now (state a)) as [st [es|[]]] eqn:E; [|by eauto].
  destruct (execute_total es now (set_remote (Some (s, out)) (set_state st a)))
    as [[a' acts] ->]; [by eapply apply_addressed|by eauto].
Qed.
End totality.

(** ** The select loop never gets stuck *)

(** The inputs [select!] can deliver: a local request or the end of the local
    channel while it is open, a cancellation that is registered, any mailbox
    command, and the timer once the earliest deadline has passed. *)
Definition enabled (i : Input) (l : BrokerLoop) : Prop :=
  running l = true ∧
  match i with
  | InLocal _ _ _ _ _ | InLocalClosed => local_requests_open l = true
  | InCancelled id _ | InAborted id => id ∈ (cancellations l).*1
  | InCommand _ _ _ | InCommandsClosed => True
  | InDeadline now => ∃ d, next_deadline (state (actor l)) = Some d ∧ (d ≤ now)%N
  end.

(** C17: every iteration of [run_broker]'s loop finishes: whatever the actor's
    state and whichever commands the remote's channel refuses, each input that
    can occur is handled to completion, the effects that transport failures
    feed back into the queue included, and so is a request whose deadline the
    clocks cannot represent, which ends the actor.  An input is handled only if
    it is enabled. *)
Theorem run_broker_step_total delivers i l :
  is_Some (run_broker_step delivers i l) ↔ enabled i l.
Proof.
  unfold run_broker_step, enabled, loop_continue. split.
  - intros [r Hr]. destruct (running l); [|done]. split; [done|].
    destruct i; repeat case_match; try done; repeat case_decide; try done; eauto.
    eexists. split; [done|]. by apply N.leb_le.
  - intros [-> Hi]. destruct i as [id ab now sys r| |id now|id|c s now| |now]; simpl.
    + rewrite Hi. destruct (handle_local_total delivers id ab now sys r (actor l))
        as [[[a acts] d] ->]. eauto.
    + rewrite Hi. eauto.
    + rewrite decide_True by done. apply fmap_is_Some, actor_apply_total.
    + rewrite decide_True by done. eauto.
    + destruct (handle_total delivers c s now (actor l)) as [[[a acts] d] ->]. eauto.
    + eauto.
    + destruct Hi as (d & -> & Hd). rewrite (proj2 (N.leb_le _ _) Hd).
      apply fmap_is_Some, actor_apply_total.
Qed.

(** The actor a local request finds: its caller already waits. *)
Definition with_caller (id : RequestId) (ab : Handle) (r : PacketRequest) (a : BrokerActor) :
    BrokerActor :=
  set_waiters (<[id := {| response := req_response r; cancellation := ab |}]> (waiters a)) a.

(** What a local request does: it is submitted, or its deadline cannot be
    represented and the actor is over. *)
Lemma local_step delivers id ab now sys r l l' acts :
  run_broker_step delivers (InLocal id ab now sys r) l = Some (l', acts) →
  let timeout := request_timeout (config (actor l)) in
  let a := with_caller id ab r (actor l) in
  local_requests_open l' = local_requests_open l
  ∧ (deadline_overflows timeout now sys = false ∧ running l' = true
       ∧ actor_apply delivers (submit_event id now sys r timeout) now a = Some (actor l', acts)
     ∨ deadline_overflows timeout now sys = true ∧ running l' = false
       ∧ actor l' = (stop a).1 ∧ acts = (stop a).2).
Proof.
  unfold run_broker_step, handle_local. destruct (running l); [|done]. simpl.
  destruct (local_requests_open l); [|done]. unfold with_caller.
  destruct (deadline_overflows _ _ _).
  - intros [= <- <-]. split; [done|]. by right.
  - destruct (actor_apply _ _ _ _) as [[a' acts']|]; simpl; [|done].
    intros [= <- <-]. split; [done|]. by left.
Qed.

(** ** Runs of the select loop *)

(** One iteration: which sends the remote's channel accepts, and what the loop
    is woken by. *)
Definition Turn : Type := (Handle → RemoteCommand → bool) * Input.

Fixpoint loop_run (turns : list Turn) (l : BrokerLoop) : option (BrokerLoop * list Action) :=
  match turns with
  | [] => Some (l, [])
  | (delivers, i) :: rest =>
      match run_broker_step delivers i l with
      | None => None
      | Some (l', acts) =>
          match loop_run rest l' with
          | None => None
          | Some (l'', acts') => Some (l'', acts ++ acts')
          end
      end
  end.

(** A local request gets an identifier no waiter has (a random UUID), and the
    64-bit sequence counter has not run out. *)
Definition fresh_input (i : Input) (l : BrokerLoop) : Prop :=
  match i with
  | InLocal id _ _ _ _ =>
      waiters (actor l) !! id = None ∧ (next_sequence (state (actor l)) + 1 < 2 ^ 64)%N
  | _ => True
  end.
#[export] Instance fresh_input_dec i l : Decision (fresh_input i l).
Proof. destruct i; simpl; apply _. Defined.

Fixpoint fresh_run (turns : list Turn) (l : BrokerLoop) : Prop :=
  match turns with
  | [] => True
  | (delivers, i) :: rest =>
      fresh_input i l ∧
      match run_broker_step delivers i l with
      | None => True
      | Some (l', _) => fresh_run rest l'
      end
  end.
#[export] Instance fresh_run_dec turns l : Decision (fresh_run turns l).
Proof.
  revert l. induction turns as [|[d i] turns IH]; intros l; simpl; [apply _|].
  apply and_dec; [apply _|]. destruct (run_broker_step d i l) as [[]|]; apply _.
Defined.

(** ** Every local caller is answered exactly once or still waits *)

Definition responded (acts : list Action) : list Handle :=
  omap (λ x, match x with Respond h _ => Some h | _ => None end) acts.
Definition outstanding (a : BrokerActor) : list Handle :=
  (λ kv, response kv.2) <$> map_to_list (waiters a).
Definition arrives (i : Input) : list Handle :=
  match i with
  | InLocal _ _ _ _ r => [req_response r]
  | _ => []
  end.

Lemma responded_app acts1 acts2 :
  responded (acts1 ++ acts2) = responded acts1 ++ responded acts2.
Proof. apply omap_app. Qed.

Lemma send_remote_silent delivers a s c : responded (send_remote delivers a s c).1 = [].
Proof. unfold send_remote. by repeat case_match. Qed.

Section conservation.
Context (delivers : Handle → RemoteCommand → bool).

Lemma execute_one_conserves e now a a' acts more :
  execute_one delivers e now a = (a', acts, more) →
  responded acts ++ outstanding a' ≡ₚ outstanding a.
Proof.
  destruct e as [s id att req dl pkt ctx|s id att|r|id r]; simpl.
  - pose proof (send_remote_silent delivers a s (RemoteRequest id att req dl pkt ctx)) as Hs.
    destruct (send_remote _ _ _ _) as [acts0 []]; simpl in Hs;
      [|destruct (apply _ _ _) as [st []]]; intros; simplify_eq; by rewrite Hs.
  - intros; simplify_eq. by rewrite send_remote_silent.
  - intros; by simplify_eq.
  - destruct (waiters a !! id) as [w|] eqn:Ew; intros; simplify_eq; [|done].
    unfold outstanding. cbn. by rewrite <- (map_to_list_delete _ _ _ Ew).
Qed.

Lemma execute_loop_conserves fuel es now a a' acts :
  execute_loop delivers fuel es now a = Some (a', acts) →
  responded acts ++ outstanding a' ≡ₚ outstanding a.
Proof.
  revert es a acts. induction fuel as [|fuel IH]; intros [|e es] a acts; simpl;
    try (intros; by simplify_eq).
  destruct (execute_one delivers e now a) as [[a1 acts1] more] eqn:E.
  apply execute_one_conserves in E.
  destruct (execute_loop delivers fuel (es ++ more) now a1) as [[a2 acts2]|] eqn:E2; [|done].
  intros; simplify_eq. apply IH in E2.
  by rewrite responded_app, <- E, <- E2, app_assoc.
Qed.

Lemma actor_apply_conserves ev now a a' acts :
  actor_apply delivers ev now a = Some (a', acts) →
  responded acts ++ outstanding a' ≡ₚ outstanding a.
Proof.
  unfold actor_apply. destruct (apply ev now (state a)) as [st [es|]].
  - intros E. by apply execute_loop_conserves in E.
  - intros; by simplify_eq.
Qed.

Lemma stop_conserves a :
  responded (stop a).2 ≡ₚ outstanding a ∧ outstanding (stop a).1 = [].
Proof.
  split; [|unfold outstanding; simpl; by rewrite map_to_list_empty].
  unfold stop, outstanding. simpl. induction (map_to_list (waiters a)) as [|kv kvs IH]; [done|].
  csimpl. by rewrite IH.
Qed.

Lemma handle_conserves c s now a a' acts d :
  handle delivers c s now a = Some (a', acts, d) →
  responded acts ++ outstanding a' ≡ₚ outstanding a ∧ (d = true → outstanding a' = []).
Proof.
  destruct c as [cap out resp|s'|s'|s'|s' id att pkt|resp]; simpl.
  - destruct (apply _ now (state a)) as [st [es|[]]].
    + destruct (execute _ _ _ _) as [[a1 acts1]|] eqn:E; [|done]. intros; simplify_eq.
      apply execute_loop_conserves in E. by rewrite E.
    + intros; by simplify_eq.
  - intros ([a1 acts1] & E & [= -> -> ->])%fmap_Some.
    apply actor_apply_conserves in E. by rewrite E.
  - intros ([a1 acts1] & E & [= -> -> ->])%fmap_Some.
    apply actor_apply_conserves in E. by rewrite E.
  - intros ([a1 acts1] & E & [= -> -> ->])%fmap_Some.
    apply actor_apply_conserves in E. rewrite E. split; [|done].
    by repeat case_match.
  - intros ([a1 acts1] & E & [= -> -> ->])%fmap_Some.
    apply actor_apply_conserves in E. by rewrite E.
  - intros [= <- <- <-]. destruct (stop_conserves a) as [E1 E2]. simpl in *.
    rewrite E2, app_nil_r, responded_app. simpl. by rewrite app_nil_r.
Qed.

Lemma run_broker_step_conserves i l l' acts :
  fresh_input i l → run_broker_step delivers i l = Some (l', acts) →
  responded acts ++ outstanding (actor l') ≡ₚ arrives i ++ outstanding (actor l)
  ∧ (running l' = false → outstanding (actor l') = []).
Proof.
  intros Hfr Hst. assert (enabled i l) as [Hrun _].
  { apply (run_broker_step_total delivers). by rewrite Hst. }
  destruct i as [id ab now sys r| |id now|id|c s now| |now];
    [|unfold run_broker_step, loop_continue in Hst; rewrite Hrun in Hst; simpl in *..].
  - assert (outstanding (with_caller id ab r (actor l)) ≡ₚ req_response r :: outstanding (actor l))
      as Hins by (unfold outstanding; simpl; by rewrite map_to_list_insert by apply Hfr).
    apply local_step in Hst as [_ [(_ & Hr & Ha)|(_ & _ & -> & ->)]].
    + apply actor_apply_conserves in Ha. rewrite Ha, Hins. split; [done|congruence].
    + destruct (stop_conserves (with_caller id ab r (actor l))) as [E1 E2].
      by rewrite E2, app_nil_r, E1.
  - case_match; [|done]. simplify_eq. done.
  - case_decide; [|done]. apply fmap_Some in Hst as ([a acts1] & Ha & [= -> ->]).
    apply actor_apply_conserves in Ha. simpl. split; [done|congruence].
  - case_decide; [|done]. simplify_eq. simpl. split; [done|congruence].
  - destruct (handle _ _ _ _ _) as [[[a acts1] d]|] eqn:E; [|done]. simplify_eq.
    apply handle_conserves in E as [E1 E2]. simpl. split; [done|].
    intros Hd. apply E2. by destruct d.
  - destruct (stop_conserves (actor l)) as [E1 E2]. simplify_eq. cbn in *. rewrite E2.
    by rewrite app_nil_r.
  - destruct (next_deadline _) as [d|]; [|done]. case_match; [|done].
    apply fmap_Some in Hst as ([a acts1] & Ha & [= -> ->]).
    apply actor_apply_conserves in Ha. simpl. split; [done|congruence].
Qed.
End conservation.

Lemma loop_run_conserves turns l l' acts :
  fresh_run turns l → loop_run turns l = Some (l', acts) →
  (running l = false → outstanding (actor l) = []) →
  responded acts ++ outstanding (actor l')
    ≡ₚ mjoin (arrives ∘ snd <$> turns) ++ outstanding (actor l)
  ∧ (running l' = false → outstanding (actor l') = []).
Proof.
  revert l acts. induction turns as [|[d i] turns IH]; intros l acts Hfr Hr Hrun; simpl in *.
  { by simplify_eq. }
  destruct Hfr as [Hfr Hfrs].
  destruct (run_broker_step d i l) as [[l1 acts1]|] eqn:E; [|done].
  destruct (loop_run turns l1) as [[l2 acts2]|] eqn:E2; [|done]. simplify_eq.
  apply run_broker_step_conserves in E as [E Hrun1]; [|done].
  destruct (IH l1 acts2) as [IH1 IH2]; [done..|]. split; [|done].
  rewrite responded_app, <- app_assoc, IH1.
  rewrite (Permutation_app_comm (mjoin _) (outstanding _)), app_assoc, E.
  csimpl. rewrite <- !app_assoc. f_equiv. apply Permutation_app_comm.
Qed.

(** C18: no local caller is lost and none is answered twice.  Along every run
    of the broker actor the response channels of the requests received so far
    are, as a multiset, exactly those already answered together with those
    still waiting; once the actor has stopped nobody is waiting, so every
    request received was answered exactly once. *)
Theorem every_caller_accounted_for cfg turns l acts :
  fresh_run turns (run_broker_init cfg) →
  loop_run turns (run_broker_init cfg) = Some (l, acts) →
  mjoin (arrives ∘ snd <$> turns) ≡ₚ responded acts ++ outstanding (actor l)
  ∧ (running l = false → mjoin (arrives ∘ snd <$> turns) ≡ₚ responded acts).
Proof.
  intros Hfr Hr. destruct (loop_run_conserves _ _ _ _ Hfr Hr) as [E Hstop]; [done|].
  cbn in E. unfold outstanding in E at 2. cbn in E. rewrite map_to_list_empty in E.
  rewrite app_nil_r in E. split; [done|]. intros Hf.
  rewrite <- E, Hstop by done. by rewrite app_nil_r.
Qed.
