(* ===== verification/BrokerTaskSync.v ===== *)
(** * BrokerTaskSync: the actor's waiters, model and remote stay in step

    The coherence invariant of [BrokerTask]'s actor, kept by every effect the
    loop executes and by every input, and what follows from it: which callers
    wait, who is answered when a deadline passes, where a successful answer
    comes from, and how a refused connection strands a caller. *)

From S2P Require Import Prelude Bytes Packet Assoc BrokerModel BrokerSpec BrokerRefinement BrokerProps BrokerEffects BrokerTask BrokerTaskProps.

(** ** The invariant *)

Definition waits (id : RequestId) (a : BrokerActor) : nat :=
  if decide (is_Some (waiters a !! id)) then 1 else 0.
Definition stranded_in (O : gset RequestId) (id : RequestId) : nat :=
  if decide (id ∈ O) then 1 else 0.

(** With [es] still to be executed: the model is well formed, the outbound
    channel is that of the connected session, and the callers that wait are
    those whose request is pending, those about to be answered, and the
    stranded ones [O]. *)
Record coherent (O : gset RequestId) (es : list Effect) (a : BrokerActor) : Prop := {
  co_model : well_formed (state a);
  co_remote : fst <$> remote a = session (agent (state a));
  co_addressed : Forall (addressed (agent (state a))) es;
  co_waits : ∀ id, waits id a
               = holds id (state a) + completions id es + stranded_in O id;
}.

Lemma apply_balance ev now st st' es :
  well_formed st → admissible ev st → apply ev now st = (st', Ok es) →
  ∀ id, completions id es + holds id st' = holds id st + submits id ev.
Proof.
  intros (sp & -> & Hwf) Hadm Hap id. pose proof (wf_apply sp ev now Hwf Hadm) as Hwf'.
  rewrite refine_apply in Hap by done.
  destruct (spec_apply ev now sp) as [sp' r] eqn:E. simpl in *. simplify_eq.
  rewrite !holds_held by done. by apply (apply_conserves id ev now).
Qed.

Lemma expire_agent now st : agent (expire now st).1 = agent st.
Proof. unfold expire, expire_iter. by destruct (remove_expired _ _). Qed.

(** The session the model is connected to after an event. *)
Definition session_after (ev : Event) (st : BrokerState) : option SessionId :=
  match ev with
  | EvConnected s _ => Some s
  | EvDisconnected s =>
      if decide (session (agent st) = Some s) then None else session (agent st)
  | _ => session (agent st)
  end.

Lemma apply_session ev now st st' es :
  apply ev now st = (st', Ok es) → session (agent st') = session_after ev st.
Proof.
  unfold apply. pose proof (expire_agent now st) as Ha.
  destruct (expire now st) as [st1 es1]. simpl in Ha.
  destruct (apply_event ev st1) as [[st2 es2]|] eqn:Ev; [|done].
  destruct (reconcile_addressed st2) as [Hr _]. destruct (reconcile st2) as [st3 es3].
  simpl in *. intros [= <- <-]. rewrite Hr. unfold session_after. rewrite <- Ha.
  destruct ev; simpl in *; repeat case_match; simplify_eq; done || congruence.
Qed.

Lemma apply_refused ev now st st' e :
  apply ev now st = (st', Err e) →
  ∃ s c, ev = EvConnected s c ∧ agent st ≠ Disconnected ∧ st' = (expire now st).1.
Proof.
  unfold apply. pose proof (expire_agent now st) as Ha.
  destruct (expire now st) as [st1 es1]. simpl in Ha.
  destruct (apply_event ev st1) as [[st2 es2]|] eqn:Ev.
  { by destruct (reconcile st2). }
  intros; simplify_eq. destruct ev; simpl in *; repeat case_match; simplify_eq.
  eexists _, _. split_and!; [done|congruence|done].
Qed.

Lemma completions_cons id e es :
  completions id (e :: es) = (if completes id e then 1 else 0) + completions id es.
Proof.
  unfold completions. rewrite filter_cons. destruct (completes id e); by case_decide.
Qed.

(** ** Effects keep the invariant *)

Section effects.
Context (delivers : Handle → RemoteCommand → bool).

Lemma coherent_complete O id r es a :
  coherent O (Complete id r :: es) a →
  is_Some (waiters a !! id) ∧ coherent O es (set_waiters (delete id (waiters a)) a).
Proof.
  intros [Hm Hr Had Hw]. pose proof (Hw id) as Hid.
  rewrite completions_cons in Hid. simpl in Hid. rewrite bool_decide_true in Hid by done.
  unfold waits in Hid. case_decide as Hs; [|lia]. split; [done|].
  apply Forall_cons in Had as [_ Had]. split; try done. intros id'. simpl.
  specialize (Hw id'). rewrite completions_cons in Hw. simpl in Hw. unfold waits in *. simpl.
  destruct (decide (id' = id)) as [->|Hne].
  - rewrite lookup_delete_eq, decide_False by (by intros [? ?]). lia.
  - rewrite lookup_delete_ne by done. rewrite bool_decide_false in Hw by congruence. lia.
Qed.

Lemma execute_one_coherent O e es now a a' acts more :
  coherent O (e :: es) a → execute_one delivers e now a = (a', acts, more) →
  coherent O (es ++ more) a'.
Proof.
  intros Hco Hx. pose proof (co_addressed _ _ _ Hco) as Had.
  apply (execute_one_budget delivers e es now a a' acts more Had) in Hx as Hx'.
  destruct Hx' as [Had' _].
  destruct e as [s id att req dl pkt ctx|s id att|r|id r]; simpl in Hx.
  - destruct Hco as [Hm Hr _ Hw]. destruct (send_remote _ _ _ _) as [acts0 sent]. destruct sent.
    { simplify_eq. rewrite app_nil_r in *. by split. }
    apply Forall_cons in Had as [Had _].
    destruct (disconnect_budget s now (state a)) as (st & es' & E & Hag & Hq & Hb); [done|].
    rewrite E in Hx. simplify_eq. split; simpl.
    + exact (well_formed_apply (EvDisconnected s) _ _ _ _ Hm I E).
    + by rewrite Hag.
    + done.
    + intros id'. specialize (Hw id'). rewrite completions_cons in Hw.
      pose proof (apply_balance (EvDisconnected s) _ _ _ _ Hm I E id') as Hb'. simpl in *.
      rewrite completions_app. unfold waits in *. simpl. lia.
  - simplify_eq. rewrite app_nil_r in *. by destruct Hco.
  - simplify_eq. rewrite app_nil_r in *. by destruct Hco.
  - apply coherent_complete in Hco as [[w Ew] Hco]. rewrite Ew in Hx. simplify_eq.
    by rewrite app_nil_r.
Qed.

Lemma execute_loop_coherent O fuel es now a a' acts :
  coherent O es a → execute_loop delivers fuel es now a = Some (a', acts) →
  coherent O [] a'.
Proof.
  revert es a acts. induction fuel as [|fuel IH]; intros [|e es] a acts Hco; simpl;
    try (intros; by simplify_eq).
  destruct (execute_one delivers e now a) as [[a1 acts1] more] eqn:E.
  apply (execute_one_coherent O e es) in E; [|done].
  destruct (execute_loop delivers fuel (es ++ more) now a1) as [[a2 acts2]|] eqn:E2; [|done].
  intros; simplify_eq. by eapply IH.
Qed.

(** A coherent actor with nothing to execute, whose caller of a new request is
    already registered. *)
Definition ready_for (O : gset RequestId) (ev : Event) (a : BrokerActor) : Prop :=
  well_formed (state a) ∧ admissible ev (state a)
  ∧ fst <$> remote a = session_after ev (state a)
  ∧ ∀ id, waits id a = holds id (state a) + submits id ev + stranded_in O id.

Lemma apply_coherent O ev now a st es :
  ready_for O ev a → apply ev now (state a) = (st, Ok es) →
  coherent O es (set_state st a).
Proof.
  intros (Hm & Hadm & Hr & Hw) E. split; simpl.
  - by eapply well_formed_apply.
  - by rewrite (apply_session _ _ _ _ _ E).
  - by eapply apply_addressed.
  - intros id. pose proof (apply_balance _ _ _ _ _ Hm Hadm E id) as Hb.
    specialize (Hw id). unfold waits in *. simpl. lia.
Qed.

Lemma actor_apply_coherent O ev now a a' acts :
  ready_for O ev a → (∀ s c, ev ≠ EvConnected s c) →
  actor_apply delivers ev now a = Some (a', acts) → coherent O [] a'.
Proof.
  intros Hrd Hev. unfold actor_apply.
  destruct (apply ev now (state a)) as [st [es|e]] eqn:E.
  - apply execute_loop_coherent. by eapply apply_coherent.
  - apply apply_refused in E as (s & c & -> & _). by destruct (Hev s c).
Qed.
End effects.

(** ** Inputs keep the invariant *)

Definition is_refusal (x : Action) : bool :=
  match x with ConnectReply _ (Err _) => true | _ => false end.
Abbreviation no_refusal := (Forall (λ x, is_refusal x = false)).

Lemma coherent_settled O a :
  coherent O [] a →
  well_formed (state a) ∧ fst <$> remote a = session (agent (state a))
  ∧ ∀ id, waits id a = holds id (state a) + stranded_in O id.
Proof.
  intros [Hm Hr _ Hw]. split_and!; [done..|]. intros id. rewrite Hw.
  change (completions id []) with 0. lia.
Qed.

(** Without stranded callers, a waiting caller's request is pending. *)
Lemma waiter_pending a id w :
  coherent ∅ [] a → waiters a !! id = Some w → is_Some (pending (state a) !! id).
Proof.
  intros (_ & _ & Hc)%coherent_settled Hw. specialize (Hc id).
  unfold waits, holds, stranded_in in Hc. rewrite decide_True in Hc by (rewrite Hw; eauto).
  rewrite (decide_False (P := id ∈ ∅)) in Hc by set_solver. case_decide; [done|lia].
Qed.

Lemma coherent_ready O ev a :
  coherent O [] a → (∀ id, submits id ev = 0) → session_after ev (state a) = session (agent (state a)) →
  ready_for O ev a.
Proof.
  intros (Hm & Hr & Hw)%coherent_settled Hs Ha. split_and!; [done| |by rewrite Ha|].
  - destruct ev; try done. simpl in Hs. specialize (Hs request_id). by case_decide.
  - intros id. rewrite Hw, Hs. lia.
Qed.

Lemma coherent_submit O id w pkt ctx dl req dlts a :
  coherent O [] a → waiters a !! id = None → (next_sequence (state a) + 1 < 2 ^ 64)%N →
  ready_for O (EvSubmit id pkt ctx dl req dlts) (set_waiters (<[id := w]> (waiters a)) a).
Proof.
  intros (Hm & Hr & Hw)%coherent_settled Hid Hseq. split_and!; try done.
  - split; [|done]. specialize (Hw id). unfold waits, holds in Hw.
    rewrite Hid, decide_False in Hw by (by intros [? ?]).
    simpl. destruct (pending (state a) !! id); [|done]. rewrite decide_True in Hw by done. lia.
  - intros id'. specialize (Hw id'). unfold waits in *. simpl in *.
    destruct (decide (id = id')) as [->|Hne].
    + rewrite lookup_insert_eq. rewrite Hid, decide_False in Hw by (by intros [? ?]).
      rewrite (decide_True (P := is_Some _)) by done. lia.
    + rewrite lookup_insert_ne by done. lia.
Qed.

Lemma coherent_disconnect O s a :
  coherent O [] a →
  ready_for O (EvDisconnected s)
    match remote a with
    | Some (active, _) => if decide (active = s) then set_remote None a else a
    | None => a
    end.
Proof.
  intros (Hm & Hr & Hw)%coherent_settled. unfold ready_for. simpl.
  destruct (remote a) as [[s' h]|] eqn:Er; simpl in Hr; [case_decide as Hs|]; simpl;
    split_and!; try done.
  - rewrite <- Hr. by rewrite decide_True by congruence.
  - intros id. specialize (Hw id). unfold waits in *. simpl. lia.
  - rewrite Er, <- Hr. by rewrite decide_False by congruence.
  - intros id. specialize (Hw id). simpl in Hw. lia.
  - by rewrite Er, <- Hr.
  - intros id. specialize (Hw id). simpl in Hw. lia.
Qed.

(** The actor that has just been given a remote. *)
Lemma connect_coherent O s cap out now a st es :
  coherent O [] a → apply (EvConnected s cap) now (state a) = (st, Ok es) →
  coherent O es (set_remote (Some (s, out)) (set_state st a)).
Proof.
  intros (Hm & Hr & Hw)%coherent_settled E.
  apply (apply_coherent O (EvConnected s cap) now (set_remote (Some (s, out)) a) st es); [|done].
  split_and!; try done. intros id. specialize (Hw id). unfold waits in *. simpl in *. lia.
Qed.

(** Refusing a connection strands the callers whose requests expire in it. *)
Definition newly_stranded (now : Instant) (st : BrokerState) : gset RequestId :=
  dom (pending st) ∖ dom (pending (expire now st).1).

Lemma coherent_refused O now a :
  coherent O [] a →
  coherent (O ∪ newly_stranded now (state a)) [] (set_state (expire now (state a)).1 a).
Proof.
  intros (Hm & Hr & Hw)%coherent_settled. split; simpl.
  - destruct Hm as (sp & -> & Hwf). rewrite refine_expire by done.
    eexists. split; auto with broker.
  - by rewrite expire_agent.
  - constructor.
  - intros id. specialize (Hw id). unfold waits in *. simpl in *.
    assert (holds id (expire now (state a)).1 ≤ holds id (state a)) as Hle.
    { destruct Hm as (sp & -> & Hwf). rewrite refine_expire by done. cbn [fst].
      rewrite !holds_held by auto with broker.
      pose proof (expire_conserves id now sp). lia. }
    assert (stranded_in (O ∪ newly_stranded now (state a)) id
            + holds id (expire now (state a)).1 = stranded_in O id + holds id (state a)).
    { unfold stranded_in, newly_stranded, holds in *.
      rewrite (decide_ext (id ∈ O ∪ _) (id ∈ O ∨ is_Some (pending (state a) !! id)
        ∧ ¬ is_Some (pending (expire now (state a)).1 !! id)))
        by (rewrite elem_of_union, elem_of_difference, !elem_of_dom; done).
      repeat case_decide; tauto || lia. }
    change (completions id []) with 0. lia.
Qed.

Section inputs.
Context (delivers : Handle → RemoteCommand → bool).

Lemma handle_coherent O c s now a a' acts :
  coherent O [] a → handle delivers c s now a = Some (a', acts, false) →
  ∃ O', coherent O' [] a' ∧ O ⊆ O' ∧ (no_refusal acts → O' = O).
Proof.
  intros Hco. destruct c as [cap out resp|s'|s'|s'|s' id att pkt|resp]; simpl.
  - destruct (apply _ now (state a)) as [st [es|[]]] eqn:E.
    + destruct (execute _ _ _ _) as [[a1 acts1]|] eqn:Ex; [|done].
      intros; simplify_eq. exists O. split_and!; try done.
      refine (execute_loop_coherent delivers O _ _ _ _ _ _ _ Ex). by eapply connect_coherent.
    + intros; simplify_eq. apply apply_refused in E as (? & ? & _ & _ & ->).
      eexists. split_and!; [by apply coherent_refused|set_solver|].
      intros [? _]%Forall_cons. done.
  - intros ([a1 acts1] & E & [= -> ->])%fmap_Some. exists O. split_and!; try done.
    eapply actor_apply_coherent; [|..|exact E]; [by apply coherent_ready|done].
  - intros ([a1 acts1] & E & [= -> ->])%fmap_Some. exists O. split_and!; try done.
    eapply actor_apply_coherent; [|..|exact E]; [by apply coherent_ready|done].
  - intros ([a1 acts1] & E & [= -> ->])%fmap_Some. exists O. split_and!; try done.
    eapply actor_apply_coherent; [|..|exact E]; [by apply coherent_disconnect|done].
  - intros ([a1 acts1] & E & [= -> ->])%fmap_Some. exists O. split_and!; try done.
    eapply actor_apply_coherent; [|..|exact E]; [by apply coherent_ready|done].
  - done.
Qed.

Lemma step_coherent O i l l' acts :
  fresh_input i l → coherent O [] (actor l) →
  run_broker_step delivers i l = Some (l', acts) → running l' = true →
  ∃ O', coherent O' [] (actor l') ∧ O ⊆ O' ∧ (no_refusal acts → O' = O).
Proof.
  intros Hfr Hco Hst Hrun.
  destruct i as [id ab now sys r| |id now|id|c s now| |now];
    [|unfold run_broker_step, loop_continue in Hst; destruct (running l); [|done]; simpl in *..].
  - apply local_step in Hst as [_ [(_ & _ & Ha)|(_ & Hr & _)]]; [|by rewrite Hr in Hrun].
    exists O. split_and!; try done. eapply actor_apply_coherent; [|..|exact Ha]; [|done].
    by apply coherent_submit; [|apply Hfr..].
  - case_match; [|done]. simplify_eq. by exists O.
  - case_decide; [|done]. apply fmap_Some in Hst as ([a acts1] & Ha & [= -> ->]).
    exists O. split_and!; try done. eapply actor_apply_coherent; [|..|exact Ha]; [|done].
    by apply coherent_ready.
  - case_decide; [|done]. simplify_eq. by exists O.
  - destruct (handle _ _ _ _ _) as [[[a acts1] d]|] eqn:E; [|done]. simplify_eq.
    simpl in Hrun. destruct d; [done|]. by apply (handle_coherent O) in E.
  - simplify_eq.
  - destruct (next_deadline _) as [d|]; [|done]. case_match; [|done].
    apply fmap_Some in Hst as ([a acts1] & Ha & [= -> ->]).
    exists O. split_and!; try done. eapply actor_apply_coherent; [|..|exact Ha]; [|done].
    by apply coherent_ready.
Qed.
End inputs.

Lemma coherent_init cfg : coherent ∅ [] (actor (run_broker_init cfg)).
Proof.
  split; simpl; [apply well_formed_new|done|constructor|].
  intros id. unfold waits, holds, stranded_in. simpl. rewrite !lookup_empty.
  rewrite !decide_False; [done|set_solver|by intros [? ?]..].
Qed.

(** A stopped loop handles nothing, so a running loop has run throughout. *)
Lemma loop_run_running turns l l' acts :
  loop_run turns l = Some (l', acts) → running l' = true → running l = true.
Proof.
  destruct turns as [|[d i] turns]; simpl; [intros; by simplify_eq|].
  unfold run_broker_step. by destruct (running l).
Qed.

Lemma loop_run_coherent O turns l l' acts :
  fresh_run turns l → coherent O [] (actor l) →
  loop_run turns l = Some (l', acts) → running l' = true →
  ∃ O', coherent O' [] (actor l') ∧ O ⊆ O' ∧ (no_refusal acts → O' = O).
Proof.
  revert O l acts. induction turns as [|[d i] turns IH]; intros O l acts Hfr Hco Hr Hrun;
    simpl in *.
  { simplify_eq. by exists O. }
  destruct Hfr as [Hfr Hfrs].
  destruct (run_broker_step d i l) as [[l1 acts1]|] eqn:E; [|done].
  destruct (loop_run turns l1) as [[l2 acts2]|] eqn:E2; [|done]. simplify_eq.
  pose proof (loop_run_running _ _ _ _ E2 Hrun) as Hrun1.
  destruct (step_coherent d O i l l1 acts1) as (O1 & Hco1 & Hsub1 & Hno1); [done..|].
  destruct (IH O1 l1 acts2) as (O2 & Hco2 & Hsub2 & Hno2); [done..|].
  exists O2. split_and!; [done|set_solver|]. intros [H1 H2]%Forall_app.
  rewrite Hno2, Hno1 by done. done.
Qed.

(** ** From completions to answers *)

Section answers.
Context (delivers : Handle → RemoteCommand → bool).

Lemma execute_one_waiters e now a a' acts more :
  execute_one delivers e now a = (a', acts, more) → waiters a' ⊆ waiters a.
Proof.
  destruct e; simpl; repeat case_match; intros; simplify_eq; try done. apply delete_subseteq.
Qed.

Lemma execute_loop_waiters fuel es now a a' acts :
  execute_loop delivers fuel es now a = Some (a', acts) → waiters a' ⊆ waiters a.
Proof.
  revert es a acts. induction fuel as [|fuel IH]; intros [|e es] a acts; simpl;
    try (intros; by simplify_eq).
  destruct (execute_one delivers e now a) as [[a1 acts1] more] eqn:E.
  apply execute_one_waiters in E.
  destruct (execute_loop delivers fuel (es ++ more) now a1) as [[a2 acts2]|] eqn:E2; [|done].
  intros; simplify_eq. etrans; [by eapply IH|done].
Qed.

Lemma completes_elem id r es : Complete id r ∈ es → 1 ≤ completions id es.
Proof.
  induction es as [|e es IH]; [by intros ?%not_elem_of_nil|].
  rewrite completions_cons. intros [<-|Hin]%elem_of_cons; [|specialize (IH Hin); lia].
  simpl. rewrite bool_decide_true by done. lia.
Qed.

(** Another effect's execution leaves the waiter of a completion alone. *)
Lemma execute_one_keeps O e es now a a' acts more id r w :
  coherent O (e :: es) a → e ≠ Complete id r → Complete id r ∈ es →
  waiters a !! id = Some w → execute_one delivers e now a = (a', acts, more) →
  waiters a' !! id = Some w.
Proof.
  intros Hco Hne Hin Hw. destruct e as [s id' att req dl pkt ctx|s id' att|rq|id' r']; simpl.
  - repeat case_match; intros; by simplify_eq.
  - intros; by simplify_eq.
  - intros; by simplify_eq.
  - pose proof (co_waits _ _ _ Hco id) as Hc. rewrite completions_cons in Hc. simpl in Hc.
    apply completes_elem in Hin. unfold waits in Hc. rewrite decide_True in Hc by (rewrite Hw; eauto).
    case_bool_decide as Hd; [lia|].
    case_match; intros; simplify_eq; [|done]. simpl. by rewrite lookup_delete_ne.
Qed.

Lemma complete_responds O fuel es now a a' acts id r w :
  coherent O es a → Complete id r ∈ es → waiters a !! id = Some w →
  execute_loop delivers fuel es now a = Some (a', acts) →
  Respond (response w) r ∈ acts ∧ waiters a' !! id = None.
Proof.
  revert es a acts. induction fuel as [|fuel IH]; intros [|e es] a acts Hco Hin Hw; simpl;
    try (by apply not_elem_of_nil in Hin); [done|].
  destruct (execute_one delivers e now a) as [[a1 acts1] more] eqn:E.
  destruct (execute_loop delivers fuel (es ++ more) now a1) as [[a2 acts2]|] eqn:E2; [|done].
  intros; simplify_eq. destruct (decide (e = Complete id r)) as [->|Hne].
  - simpl in E. rewrite Hw in E. simplify_eq. split.
    + apply elem_of_app. left. apply elem_of_cons. right. apply list_elem_of_here.
    + apply execute_loop_waiters in E2. simpl in E2.
      destruct (waiters a' !! id) as [w'|] eqn:E'; [|done].
      eapply lookup_weaken in E'; [|exact E2]. by rewrite lookup_delete_eq in E'.
  - apply elem_of_cons in Hin as [<-|Hin]; [done|].
    pose proof (execute_one_keeps O e es now a a1 acts1 more id r w Hco Hne Hin Hw E) as Hw1.
    pose proof (execute_one_coherent delivers O e es now a a1 acts1 more Hco E) as Hco1.
    destruct (IH (es ++ more) a1 acts2 Hco1) as [H1 H2]; [|done..|].
    { apply elem_of_app. by left. }
    split; [|done]. apply elem_of_app. by right.
Qed.

Lemma disconnect_no_success s now st st' es id pkt :
  well_formed st → apply (EvDisconnected s) now st = (st', Ok es) → Complete id (Ok pkt) ∉ es.
Proof.
  intros Hm E Hin.
  pose proof (proj1 (apply_success st (EvDisconnected s) now st' es id pkt Hm I E) Hin).
  naive_solver.
Qed.

(** A successful answer comes from a completion the loop started with. *)
Lemma execute_one_success O e es now a a' acts more h pkt :
  coherent O (e :: es) a → execute_one delivers e now a = (a', acts, more) →
  (Respond h (Ok pkt) ∈ acts →
   ∃ id w, e = Complete id (Ok pkt) ∧ waiters a !! id = Some w ∧ response w = h)
  ∧ ∀ id, Complete id (Ok pkt) ∉ more.
Proof.
  intros Hco. pose proof (co_model _ _ _ Hco) as Hm.
  destruct e as [s id' att req dl pkt' ctx|s id' att|rq|id' r']; simpl.
  - pose proof (send_remote_silent delivers a s (RemoteRequest id' att req dl pkt' ctx)) as Hs.
    destruct (send_remote _ _ _ _) as [acts0 sent]. simpl in Hs.
    assert (Respond h (Ok pkt) ∉ acts0) as Hno.
    { intros Hin. assert (h ∈ responded acts0) as Hh by (apply list_elem_of_omap; by eexists).
      rewrite Hs in Hh. by apply not_elem_of_nil in Hh. }
    destruct sent; [intros; simplify_eq; split; [done|intros; apply not_elem_of_nil]|].
    destruct (apply _ _ _) as [st [es'|]] eqn:E; intros; simplify_eq;
      (split; [done|]); intros id; [|apply not_elem_of_nil].
    by eapply disconnect_no_success.
  - intros; simplify_eq. split; [|intros; apply not_elem_of_nil]. intros Hin.
    unfold send_remote in Hin. repeat case_match; set_solver.
  - intros; simplify_eq. split; [|intros; apply not_elem_of_nil]. set_solver.
  - case_match; intros; simplify_eq; (split; [|intros; apply not_elem_of_nil]); [|set_solver].
    intros Hin. exists id'. eexists. split_and!; [|done|]; set_solver.
Qed.

Lemma success_from_complete O fuel es now a a' acts h pkt :
  coherent O es a → execute_loop delivers fuel es now a = Some (a', acts) →
  Respond h (Ok pkt) ∈ acts →
  ∃ id w, waiters a !! id = Some w ∧ response w = h ∧ Complete id (Ok pkt) ∈ es.
Proof.
  revert es a acts. induction fuel as [|fuel IH]; intros [|e es] a acts Hco; simpl;
    try (intros ? Hin; simplify_eq; by apply not_elem_of_nil in Hin).
  destruct (execute_one delivers e now a) as [[a1 acts1] more] eqn:E.
  destruct (execute_loop delivers fuel (es ++ more) now a1) as [[a2 acts2]|] eqn:E2; [|done].
  intros ? Hin. simplify_eq.
  pose proof (execute_one_coherent delivers O e es now a a1 acts1 more Hco E) as Hco1.
  destruct (execute_one_success O e es now a a1 acts1 more h pkt Hco E) as [Hs Hmore].
  apply elem_of_app in Hin as [Hin|Hin].
  - destruct (Hs Hin) as (id & w & -> & Hw & Hh). exists id, w.
    split_and!; [done..|apply list_elem_of_here].
  - destruct (IH (es ++ more) a1 acts2 Hco1 E2 Hin) as (id & w & Hw & Hh & Hc).
    exists id, w. split_and!; [|done|].
    + eapply lookup_weaken; [exact Hw|]. by eapply execute_one_waiters.
    + apply elem_of_app in Hc as [Hc|Hc]; [by apply list_elem_of_further|].
      by destruct (Hmore id).
Qed.
End answers.

(** ** Deadlines through the loop *)

Definition none_due (now : Instant) (st : BrokerState) : Prop :=
  ∀ id p, pending st !! id = Some p → (now < deadline p)%N.

Lemma none_due_apply ev now st st' es :
  well_formed st → admissible ev st → (∀ id, submits id ev = 0) →
  apply ev now st = (st', Ok es) → none_due now st'.
Proof.
  intros Hm Hadm Hs E id p Hp.
  destruct (proj1 (apply_deadlines _ _ _ _ _ Hm Hadm E) id p Hp) as [|Hsub]; [done|].
  by rewrite Hs in Hsub.
Qed.

Lemma execute_loop_none_due delivers O fuel es now a a' acts :
  coherent O es a → none_due now (state a) →
  execute_loop delivers fuel es now a = Some (a', acts) → none_due now (state a').
Proof.
  revert es a acts. induction fuel as [|fuel IH]; intros [|e es] a acts Hco Hd; simpl;
    try (intros; by simplify_eq).
  destruct (execute_one delivers e now a) as [[a1 acts1] more] eqn:E.
  destruct (execute_loop delivers fuel (es ++ more) now a1) as [[a2 acts2]|] eqn:E2; [|done].
  intros; simplify_eq. eapply IH; [by eapply execute_one_coherent| |done].
  destruct e; simpl in E; repeat case_match; simplify_eq; try done; simpl.
  - refine (none_due_apply (EvDisconnected session_id) now _ _ _ (co_model _ _ _ Hco) I _ _);
      done.
  - match goal with H : apply _ _ _ = _ |- _ => apply apply_refused in H end. naive_solver.
Qed.

Lemma next_deadline_pending st d :
  next_deadline st = Some d → ∃ id p, pending st !! id = Some p ∧ deadline p = d.
Proof.
  unfold next_deadline. pose proof (next_deadline_iter_min (map_to_list (pending st))) as H.
  intros E. rewrite E in H. destruct H as [([id p] & He & Hd) _].
  exists id, p. split; [by apply elem_of_map_to_list|done].
Qed.

(** ** Theorems *)

(** The states of the loop of a running broker actor, with what it did. *)
Definition loop_reachable (cfg : BrokerConfig) (l : BrokerLoop) (acts : list Action) : Prop :=
  running l = true ∧
  ∃ turns, fresh_run turns (run_broker_init cfg)
           ∧ loop_run turns (run_broker_init cfg) = Some (l, acts).

Lemma loop_reachable_coherent cfg l acts :
  loop_reachable cfg l acts →
  ∃ O, coherent O [] (actor l) ∧ (no_refusal acts → O = ∅).
Proof.
  intros (Hrun & turns & Hfr & Hr).
  destruct (loop_run_coherent ∅ turns _ _ _ Hfr (coherent_init cfg) Hr Hrun)
    as (O & Hco & _ & Hno). by exists O.
Qed.

(** C19: the actor's parts stay in step.  In every reachable state of the
    running broker actor the outbound channel belongs to exactly the session
    the model is connected to, and every pending request has its caller
    waiting.  As long as no connection was refused, the callers that wait are
    exactly those of the pending requests. *)
Theorem callers_match_pending cfg l acts :
  loop_reachable cfg l acts →
  fst <$> remote (actor l) = session (agent (state (actor l)))
  ∧ dom (pending (state (actor l))) ⊆ dom (waiters (actor l))
  ∧ (no_refusal acts → dom (waiters (actor l)) = dom (pending (state (actor l)))).
Proof.
  intros (O & (Hm & Hr & Hw)%coherent_settled & Hno)%loop_reachable_coherent.
  unfold waits, holds, stranded_in in Hw. split_and!; [done| |].
  - intros id Hid. apply elem_of_dom in Hid. apply elem_of_dom. specialize (Hw id).
    rewrite (decide_True (P := is_Some (pending _ !! id))) in Hw by done.
    by case_decide.
  - intros Hacts. rewrite Hno in Hw by done. apply set_eq. intros id.
    rewrite !elem_of_dom. specialize (Hw id).
    rewrite (decide_False (P := id ∈ ∅)) in Hw by set_solver.
    repeat case_decide; naive_solver lia.
Qed.

Lemma deadline_step_answers delivers O l now l' acts' :
  coherent O [] (actor l) →
  run_broker_step delivers (InDeadline now) l = Some (l', acts') →
  (∀ id w p, waiters (actor l) !! id = Some w → pending (state (actor l)) !! id = Some p →
     (deadline p ≤ now)%N →
     Respond (response w) (Err TimedOut) ∈ acts' ∧ waiters (actor l') !! id = None)
  ∧ ∀ d, next_deadline (state (actor l')) = Some d → (now < d)%N.
Proof.
  intros Hco Hst.
  unfold run_broker_step, loop_continue in Hst. destruct (running l); [|done]. simpl in Hst.
  destruct (next_deadline _) as [d|]; [|done]. case_match; [|done].
  apply fmap_Some in Hst as ([a1 acts1] & Ha & [= -> ->]). simpl.
  assert (ready_for O EvTick (actor l)) as Hrd by by apply coherent_ready.
  unfold actor_apply in Ha. destruct (apply EvTick now _) as [st [es|e]] eqn:E.
  2: { apply apply_refused in E. naive_solver. }
  pose proof (apply_coherent O _ _ _ _ _ Hrd E) as Hco'. pose proof (co_model _ _ _ Hco) as Hm.
  pose proof (apply_deadlines _ EvTick _ _ _ Hm I E) as [_ Hdue]. split.
  - intros id w p Hw Hp Hd. destruct (Hdue id p Hp Hd) as [Hin _].
    by eapply complete_responds.
  - intros d' (id & p & Hp & <-)%next_deadline_pending.
    refine (execute_loop_none_due delivers O _ _ _ _ _ _ Hco' _ Ha id p Hp).
    by apply (none_due_apply EvTick now (state (actor l)) st es).
Qed.

(** When the timer fires, deadlines are met.  Every caller whose request
    is overdue is answered [TimedOut] in that very iteration and no longer
    waits, and the next deadline lies in the future, so that the timer does
    not fire again for the same instant, whichever commands the remote's
    channel refuses meanwhile. *)
Theorem deadline_turn_answers cfg l acts delivers now l' acts' :
  loop_reachable cfg l acts →
  run_broker_step delivers (InDeadline now) l = Some (l', acts') →
  (∀ id w p, waiters (actor l) !! id = Some w → pending (state (actor l)) !! id = Some p →
     (deadline p ≤ now)%N →
     Respond (response w) (Err TimedOut) ∈ acts' ∧ waiters (actor l') !! id = None)
  ∧ ∀ d, next_deadline (state (actor l')) = Some d → (now < d)%N.
Proof. intros (O & Hco & _)%loop_reachable_coherent. by apply (deadline_step_answers delivers O). Qed.

(** A successful answer executed for an event matches a response event. *)
Lemma execute_success delivers O ev now a st es a' acts h pkt :
  ready_for O ev a → apply ev now (state a) = (st, Ok es) →
  execute delivers es now (set_state st a) = Some (a', acts) →
  Respond h (Ok pkt) ∈ acts →
  ∃ s id att w p, ev = EvResponse s id att pkt ∧ waiters a !! id = Some w ∧ response w = h
    ∧ pending (state a) !! id = Some p ∧ pstate p = InFlight s att ∧ (now < deadline p)%N.
Proof.
  intros Hrd E Hx Hin. pose proof (apply_coherent O _ _ _ _ _ Hrd E) as Hco.
  destruct (success_from_complete delivers O _ _ _ _ _ _ _ _ Hco Hx Hin)
    as (id & w & Hw & Hh & Hc).
  destruct Hrd as (Hm & Hadm & _).
  apply (proj1 (apply_success _ _ _ _ _ _ _ Hm Hadm E)) in Hc as (s & att & p & -> & Hp).
  by exists s, id, att, w, p.
Qed.

Lemma actor_apply_success delivers O ev now a a' acts h pkt :
  ready_for O ev a → actor_apply delivers ev now a = Some (a', acts) →
  Respond h (Ok pkt) ∈ acts →
  ∃ s id att w p, ev = EvResponse s id att pkt ∧ waiters a !! id = Some w ∧ response w = h
    ∧ pending (state a) !! id = Some p ∧ pstate p = InFlight s att ∧ (now < deadline p)%N.
Proof.
  unfold actor_apply. intros Hrd. destruct (apply ev now (state a)) as [st [es|]] eqn:E.
  - intros. by eapply execute_success.
  - intros [= <- <-] Hin. by apply not_elem_of_nil in Hin.
Qed.

Lemma stop_no_success a h pkt : Respond h (Ok pkt) ∉ (stop a).2.
Proof.
  unfold stop. simpl. intros Hin. apply list_elem_of_join in Hin as (l & Hin & Hl).
  apply list_elem_of_fmap in Hl as (kv & -> & _). set_solver.
Qed.

Lemma in_flight_connected st id p s att :
  well_formed st → pending st !! id = Some p → pstate p = InFlight s att →
  session (agent st) = Some s.
Proof.
  intros (sp & -> & Hwf) Hp Hs. apply pending_entry in Hp; [|done].
  pose proof (in_flight_delivered sp (id, p) s att Hwf Hp Hs) as Hd.
  destruct (delivered_in_flight sp _ Hwf Hd) as (s' & Hs' & Hp'). simpl in *. congruence.
Qed.

Lemma step_success delivers O i l l' acts h pkt :
  fresh_input i l → coherent O [] (actor l) →
  run_broker_step delivers i l = Some (l', acts) → Respond h (Ok pkt) ∈ acts →
  ∃ s id att x now w p, i = InCommand (CmdResponse s id att pkt) x now
    ∧ waiters (actor l) !! id = Some w ∧ response w = h
    ∧ pending (state (actor l)) !! id = Some p ∧ pstate p = InFlight s att
    ∧ (now < deadline p)%N.
Proof.
  intros Hfr Hco Hst Hin.
  destruct i as [id ab now sys r| |id now|id|c x now| |now];
    [|unfold run_broker_step, loop_continue in Hst; destruct (running l); [|done]; simpl in *..].
  - apply local_step in Hst as [_ [(_ & _ & Ha)|(_ & _ & _ & ->)]];
      [|by apply (stop_no_success (with_caller id ab r (actor l))) in Hin].
    eapply actor_apply_success in Ha; [| |exact Hin]; [naive_solver|].
    by apply coherent_submit; [|apply Hfr..].
  - case_match; [|done]. simplify_eq. by apply not_elem_of_nil in Hin.
  - case_decide; [|done]. apply fmap_Some in Hst as ([a acts1] & Ha & [= -> ->]).
    eapply actor_apply_success in Ha; [| |exact Hin]; [naive_solver|by apply coherent_ready].
  - case_decide; [|done]. simplify_eq. by apply not_elem_of_nil in Hin.
  - destruct (handle _ _ _ _ _) as [[[a acts1] d]|] eqn:E; [|done]. simplify_eq.
    destruct c as [cap out resp|s'|s'|s'|s' id att pkt'|resp]; simpl in E.
    + destruct (apply _ now _) as [st [es|[]]] eqn:Eap; simplify_eq; [|set_solver].
      destruct (execute _ _ _ _) as [[a1 acts1]|] eqn:Ex; simplify_eq.
      apply elem_of_cons in Hin as [?|Hin]; [done|].
      refine (_ (execute_success delivers O (EvConnected x cap) now
        (set_remote (Some (x, out)) (actor l)) st es _ _ h pkt _ Eap Ex Hin)); [naive_solver|].
      apply coherent_settled in Hco as (Hm & Hr & Hw). split_and!; try done.
      intros id. specialize (Hw id). unfold waits in *. simpl in *. lia.
    + apply fmap_Some in E as ([a1 acts2] & Ha & [= -> -> ->]).
      eapply actor_apply_success in Ha; [| |exact Hin]; [naive_solver|by apply coherent_ready].
    + apply fmap_Some in E as ([a1 acts2] & Ha & [= -> -> ->]).
      eapply actor_apply_success in Ha; [| |exact Hin]; [naive_solver|by apply coherent_ready].
    + apply fmap_Some in E as ([a1 acts2] & Ha & [= -> -> ->]).
      eapply actor_apply_success in Ha; [| |exact Hin]; [naive_solver|by apply coherent_disconnect].
    + apply fmap_Some in E as ([a1 acts2] & Ha & [= -> -> ->]).
      eapply actor_apply_success in Ha; [| |exact Hin]; [|by apply coherent_ready].
      destruct Ha as (s & id0 & att0 & w & p & [= -> -> -> ->] & ?). by exists s, id0, att0, x, now, w, p.
    + simplify_eq. apply elem_of_app in Hin as [Hin|Hin]; [|set_solver].
      by apply (stop_no_success (actor l)) in Hin.
  - simplify_eq. by apply (stop_no_success (actor l)) in Hin.
  - destruct (next_deadline _) as [d|]; [|done]. case_match; [|done].
    apply fmap_Some in Hst as ([a acts1] & Ha & [= -> ->]).
    eapply actor_apply_success in Ha; [| |exact Hin]; [naive_solver|by apply coherent_ready].
Qed.

(** A local caller gets a remote's packet exactly when that remote
    answers the request it holds.  An iteration answers a caller successfully
    with a packet only if it handles a response of the connected session,
    carrying that packet, that names the caller's request and the attempt it
    is in flight under, before its deadline; and such a response does answer
    that caller. *)
Theorem successful_answers_are_the_remotes cfg l acts delivers i l' acts' h pkt :
  loop_reachable cfg l acts → fresh_input i l →
  run_broker_step delivers i l = Some (l', acts') →
  Respond h (Ok pkt) ∈ acts' ↔
  ∃ s channel id att x now w p,
    i = InCommand (CmdResponse s id att pkt) x now
    ∧ remote (actor l) = Some (s, channel)
    ∧ waiters (actor l) !! id = Some w ∧ response w = h
    ∧ pending (state (actor l)) !! id = Some p ∧ pstate p = InFlight s att
    ∧ (now < deadline p)%N.
Proof.
  intros (O & Hco & _)%loop_reachable_coherent Hfr Hst. split.
  - intros Hin.
    destruct (step_success delivers O i l l' acts' h pkt Hfr Hco Hst Hin)
      as (s & id & att & x & now & w & p & -> & Hw & Hh & Hp & Hs & Hd).
    apply coherent_settled in Hco as (Hm & Hr & _).
    rewrite (in_flight_connected _ _ _ _ _ Hm Hp Hs) in Hr.
    apply fmap_Some in Hr as ([s' channel] & Hr & ->).
    by exists s', channel, id, att, x, now, w, p.
  - intros (s & ch & id & att & x & now & w & p & -> & Hr & Hw & <- & Hp & Hs & Hd).
    unfold run_broker_step in Hst. destruct (running l); [|done]. simpl in Hst.
    destruct (actor_apply _ _ _ _) as [[a acts1]|] eqn:Ha; simpl in Hst; simplify_eq.
    unfold actor_apply in Ha. destruct (apply _ now _) as [st [es|]] eqn:E.
    2: { apply apply_refused in E. naive_solver. }
    assert (ready_for O (EvResponse s id att pkt) (actor l)) as Hrd by by apply coherent_ready.
    pose proof (apply_coherent O _ _ _ _ _ Hrd E) as Hco'.
    pose proof (co_model _ _ _ Hco) as Hm.
    eapply (complete_responds delivers O _ es _ _ _ _ id); [done| |done|exact Ha].
    apply (apply_success _ (EvResponse s id att pkt) _ _ _ _ _ Hm I E). by exists s, att, p.
Qed.

Lemma expire_forgets st id p now :
  well_formed st → pending st !! id = Some p → (deadline p ≤ now)%N →
  pending (expire now st).1 !! id = None.
Proof.
  intros (sp & -> & Hwf) Hp Hd. rewrite refine_expire by done. cbn [fst].
  apply eq_None_not_Some. intros [p' Hp'].
  apply (pending_entry _ id p' (wf_expire sp now Hwf)) in Hp'.
  apply expire_provenance in Hp' as [Hp' Hnd]. apply (pending_entry sp id p' Hwf) in Hp'.
  rewrite Hp' in Hp. simplify_eq. apply Hnd. by apply N.leb_le.
Qed.

(** C20: a refused connection strands callers.  If a second remote tries to
    connect while a request is overdue but not yet expired, then the request is
    forgotten without its caller being told: whatever happens afterwards, for
    as long as the broker runs, the caller still waits and no request is
    pending for it, so that neither a response nor a deadline can answer it. *)
Theorem refused_connection_strands_caller cfg l acts id p now capacity out resp x delivers
    turns l' acts' :
  loop_reachable cfg l acts → remote (actor l) ≠ None →
  pending (state (actor l)) !! id = Some p → (deadline p ≤ now)%N →
  let turn := (delivers, InCommand (CmdConnect capacity out resp) x now) in
  fresh_run (turn :: turns) l → loop_run (turn :: turns) l = Some (l', acts') →
  running l' = true →
  ConnectReply resp (Err BrokerRemoteAlreadyConnected) ∈ acts'
  ∧ is_Some (waiters (actor l') !! id) ∧ pending (state (actor l')) !! id = None.
Proof.
  intros (O & Hco & _)%loop_reachable_coherent Hrem Hp Hd turn [_ Hfr] Hrun Hl'.
  pose proof (coherent_settled _ _ Hco) as (Hm & Hr & _).
  assert (agent (state (actor l)) ≠ Disconnected) as Hag.
  { intros Ha. rewrite Ha in Hr. by destruct (remote (actor l)). }
  cbn [loop_run turn] in Hrun. unfold run_broker_step in Hrun, Hfr.
  destruct (running l); [|done]. simpl in Hrun, Hfr.
  destruct (apply _ now _) as [st [es|[]]] eqn:E.
  { apply apply_session in E as Hs. unfold apply in E.
    pose proof (expire_agent now (state (actor l))) as Hex.
    destruct (expire now (state (actor l))) as [st1 es1]. simpl in E, Hex.
    rewrite decide_False in E by congruence. done. }
  apply apply_refused in E as (? & ? & _ & _ & ->).
  destruct (loop_run turns _) as [[l2 acts2]|] eqn:E2; [|done]. simplify_eq.
  destruct (loop_run_coherent _ _ _ _ _ Hfr (coherent_refused O now _ Hco) E2 Hl')
    as (O' & (_ & _ & Hw)%coherent_settled & Hsub & _).
  assert (id ∈ O') as Hid.
  { apply Hsub, elem_of_union_r. unfold newly_stranded. apply elem_of_difference. split; [by apply elem_of_dom_2 in Hp|].
    apply not_elem_of_dom. by eapply expire_forgets. }
  specialize (Hw id). unfold waits, holds, stranded_in in Hw.
  rewrite (decide_True (P := id ∈ O')) in Hw by done. split; [apply list_elem_of_here|].
  repeat case_decide; try lia. split; [done|]. by apply eq_None_not_Some.
Qed.

(** ** A concrete run *)

Definition accepts : Handle → RemoteCommand → bool := λ _ _, true.
Definition sample_request (response : Handle) : PacketRequest :=
  {| req_packet := byte_string "sign"; req_context := None; req_response := response;
     req_cancellation := 70 |}.

(** A request arrives at time 0 with a timeout of 30, a remote of capacity one
    connects on channel 50. *)
Definition sample_turns : list Turn :=
  [(accepts, InLocal 1 60 0 1000000000000 (sample_request 10));
   (accepts, InCommand (CmdConnect 1 50 80) 100 1);
   (accepts, InCommand (CmdReady 100) 0 2)].
Definition sample_config : BrokerConfig :=
  {| request_timeout := 30; config_max_pending_requests := 8 |}.
Definition sample_loop : BrokerLoop :=
  (default (run_broker_init sample_config, []) (loop_run sample_turns (run_broker_init sample_config))).1.
Definition sample_acts : list Action :=
  [Wake {| reasons := [] |}; ConnectReply 80 (Ok 100%N);
   Outbound 50 (RemoteRequest 1 1 1000000 1000000 (byte_string "sign") None)].

Lemma sample_loop_run :
  loop_run sample_turns (run_broker_init sample_config) = Some (sample_loop, sample_acts).
Proof. by vm_compute. Qed.

Lemma sample_fresh : fresh_run sample_turns (run_broker_init sample_config).
Proof. by apply (bool_decide_eq_true_1 _); vm_compute. Qed.

Lemma sample_loop_reachable : loop_reachable sample_config sample_loop sample_acts.
Proof.
  split; [by vm_compute|]. exists sample_turns. split; [apply sample_fresh|apply sample_loop_run].
Qed.

Definition sample_pending : PendingRequest :=
  {| packet := byte_string "sign"; context := None; deadline := 30; requested_at := 1000000;
     deadline_timestamp := 1000000; sequence := 0; attempt := 1; pstate := InFlight 100 1 |}.

Definition sample_answer : Input :=
  InCommand (CmdResponse 100 1 1 (byte_string "signature")) 0 5.
Definition sample_step (i : Input) : BrokerLoop * list Action :=
  default (sample_loop, []) (run_broker_step accepts i sample_loop).

Lemma every_caller_accounted_for_witness :
  mjoin (arrives ∘ snd <$> sample_turns)
    ≡ₚ responded sample_acts ++ outstanding (actor sample_loop).
Proof.
  exact (proj1 (every_caller_accounted_for sample_config sample_turns sample_loop
                  sample_acts sample_fresh sample_loop_run)).
Defined.

Lemma callers_match_pending_witness :
  dom (waiters (actor sample_loop)) = dom (pending (state (actor sample_loop))).
Proof.
  apply (callers_match_pending sample_config sample_loop sample_acts sample_loop_reachable).
  repeat constructor.
Defined.

Lemma deadline_turn_answers_witness :
  Respond 10 (Err TimedOut) ∈ (sample_step (InDeadline 31)).2.
Proof.
  refine (proj1 (proj1 (deadline_turn_answers sample_config sample_loop sample_acts accepts 31
    (sample_step (InDeadline 31)).1 _ sample_loop_reachable _) 1%N
    {| response := 10; cancellation := 60 |} sample_pending _ _ _)); by vm_compute.
Defined.

Lemma successful_answers_are_the_remotes_witness :
  Respond 10 (Ok (byte_string "signature")) ∈ (sample_step sample_answer).2.
Proof.
  apply (successful_answers_are_the_remotes sample_config sample_loop sample_acts accepts
    sample_answer (sample_step sample_answer).1 _ 10 _ sample_loop_reachable I);
    [by vm_compute|].
  exists 100%N, 50%N, 1%N, 1%N, 0%N, 5%N, {| response := 10; cancellation := 60 |}, sample_pending.
  by vm_compute.
Defined.

(** A second remote connects at 40, then the timer and the first remote's
    answer come too late. *)
Definition sample_late_turns : list Turn := [(accepts, sample_answer)].
Definition sample_stranded : BrokerLoop * list Action :=
  default (sample_loop, [])
    (loop_run ((accepts, InCommand (CmdConnect 1 51 81) 101 40) :: sample_late_turns) sample_loop).

Lemma refused_connection_strands_caller_witness :
  is_Some (waiters (actor sample_stranded.1) !! 1%N)
  ∧ pending (state (actor sample_stranded.1)) !! 1%N = None.
Proof.
  refine (proj2 (refused_connection_strands_caller sample_config sample_loop sample_acts 1
    sample_pending 40 1 51 81 101 accepts sample_late_turns sample_stranded.1 sample_stranded.2
    sample_loop_reachable _ _ _ _ _ _)); by vm_compute.
Defined.
