(* ===== verification/BrokerTracking.v ===== *)
(** * BrokerTracking: where the actor's requests come from and go to

    Lemmas that connect the broker actor with its neighbours: every pending
    request is one that was received, a request in flight has been sent on the
    channel of the session it is in flight on, and waiters and channels are
    those the actor was given. *)

From S2P Require Import Prelude Bytes Packet Assoc BrokerModel BrokerSpec BrokerRefinement BrokerProps BrokerEffects BrokerTask BrokerTaskProps BrokerTaskSync.

(** ** The model *)

Lemma expire_pending st now id p :
  well_formed st → pending (expire now st).1 !! id = Some p → pending st !! id = Some p.
Proof.
  intros (sp & -> & Hwf). rewrite refine_expire by done. cbn [fst].
  rewrite !pending_entry by auto with broker. intros Hin. by apply expire_provenance in Hin as [? _].
Qed.

(** A pending request was pending before, or has just been submitted. *)
Lemma apply_pending st ev now st' es id p' :
  well_formed st → admissible ev st → apply ev now st = (st', Ok es) →
  pending st' !! id = Some p' →
  (∃ p, pending st !! id = Some p ∧ same_request p p') ∨ submitted_as ev id p'.
Proof.
  intros (sp & -> & Hwf) Hadm Hap Hp. pose proof (wf_apply sp ev now Hwf Hadm) as Hwf'.
  rewrite refine_apply in Hap by done.
  destruct (spec_apply ev now sp) as [sp' r] eqn:E. cbn [fst snd] in *. simplify_eq.
  apply (pending_entry sp' id p' Hwf') in Hp.
  destruct (apply_provenance _ _ _ _ _ _ _ E Hp) as [(p & Hp' & _ & Hs)|]; [|by right].
  left. exists p. split; [|done]. by apply pending_entry.
Qed.

Lemma event_delivered ev sp sp' es e :
  spec_event ev sp = Ok (sp', es) → e ∈ delivered sp' → e ∈ delivered sp.
Proof.
  destruct ev; simpl; repeat case_match; intros; simplify_eq/=; try done.
  - by apply not_elem_of_nil in H1.
  - by apply list_elem_of_filter in H2 as [_ ?].
  - by apply list_elem_of_filter in H1 as [_ ?].
Qed.

(** A request in flight was so before, or is dispatched now. *)
Lemma apply_in_flight st ev now st' es id p s a :
  well_formed st → admissible ev st → apply ev now st = (st', Ok es) →
  pending st' !! id = Some p → pstate p = InFlight s a →
  pending st !! id = Some p
  ∨ Dispatch s id a (requested_at p) (deadline_timestamp p) (packet p) (context p) ∈ es.
Proof.
  intros (sp & -> & Hwf) Hadm Hap Hp Hs. pose proof (wf_apply sp ev now Hwf Hadm) as Hwf'.
  rewrite refine_apply in Hap by done.
  destruct (spec_apply ev now sp) as [sp' r] eqn:E. cbn [fst snd] in *. simplify_eq.
  apply (pending_entry sp' id p Hwf') in Hp.
  pose proof (in_flight_delivered sp' (id, p) s a Hwf' Hp Hs) as Hd.
  assert (attempt p = a) as <-.
  { destruct (delivered_in_flight sp' (id, p) Hwf' Hd) as (s' & _ & Hp'). simpl in *. congruence. }
  destruct (apply_parts _ _ _ _ _ E) as (sp2 & ch & Eev & -> & ->).
  rewrite (proj1 (proj2 (reconcile_lists sp2))) in Hd.
  assert ((id, p) ∈ delivered sp2 ∨
          dispatch_effect s id p ∈ (spec_dispatch sp2).2) as [Hd'|Hd'].
  { unfold spec_dispatch in *. destruct (sp_agent sp2) as [|s0 c|s0 c]; [by left|..].
    all: simpl in Hd; apply elem_of_app in Hd as [Hd|Hd]; [by left|]; right; simpl.
    all: apply list_elem_of_fmap; exists (id, p); split; [|done].
    all: apply list_elem_of_fmap in Hd as ([k q] & [= -> ->] & _).
    all: simpl in Hs; by simplify_eq. }
  - left. apply (event_delivered _ _ _ _ _ Eev) in Hd'.
    assert ((id, p) ∈ entries (spec_expire now sp).1) as He by (apply entry_cases; by left).
    apply expire_provenance in He as [He _]. by apply pending_entry.
  - right. rewrite !elem_of_app. right; right. unfold spec_reconcile.
    destruct (spec_dispatch sp2) as [sp3 es3]. destruct (spec_wake sp3) as [sp4 es4].
    apply elem_of_app. by left.
Qed.

(** ** The actor *)

(** What leaves the actor for the remote client: commands put on outbound
    channels, and wakes. *)
Inductive Emission :=
| Emitted (channel : Handle) (command : RemoteCommand)
| Roused (request : WakeRequest).
Definition outbounds (acts : list Action) : list Emission :=
  omap (λ x, match x with
             | Outbound ch c => Some (Emitted ch c)
             | Wake request => Some (Roused request)
             | _ => None
             end) acts.

Lemma outbounds_app acts1 acts2 :
  outbounds (acts1 ++ acts2) = outbounds acts1 ++ outbounds acts2.
Proof. apply omap_app. Qed.

Lemma stop_outbounds a : outbounds (stop a).2 = [].
Proof.
  unfold stop. cbn [snd]. by induction (map_to_list (waiters a)) as [|kv l IH].
Qed.

Section tracked.
(** The requests the actor has received. *)
Context (known : RequestId → bytes → option RequestContext → Prop).

(** The reasons of a wake are those of known requests. *)
Definition explained (wk : WakeRequest) : Prop :=
  ∀ x, x ∈ reasons wk → ∃ id pkt c, known id pkt (Some c) ∧ reason c = x.
(** What is emitted, or is about to be, concerns known requests only. *)
Definition grounded (x : Emission) : Prop :=
  match x with
  | Emitted _ (RemoteRequest id _ _ _ pkt ctx) => known id pkt ctx
  | Emitted _ (RemoteCancel _ _) => True
  | Roused wk => explained wk
  end.
Definition grounded_effect (e : Effect) : Prop :=
  match e with
  | Dispatch _ id _ _ _ pkt ctx => known id pkt ctx
  | WakeRequired wk => explained wk
  | _ => True
  end.

(** With [es] still to be executed: pending requests are known ones, what is
    emitted concerns known ones, and a request in flight is about to be
    dispatched to, or has been put on the channel of, its session. *)
Record tracked (sent : list Emission) (es : list Effect) (a : BrokerActor) : Prop := {
  tr_pending : ∀ id p, pending (state a) !! id = Some p → known id (packet p) (context p);
  tr_effects : Forall grounded_effect es;
  tr_flight : ∀ id p s att,
    pending (state a) !! id = Some p → pstate p = InFlight s att →
    (∃ req dl, Dispatch s id att req dl (packet p) (context p) ∈ es)
    ∨ ∃ ch req dl, remote a = Some (s, ch)
                   ∧ Emitted ch (RemoteRequest id att req dl (packet p) (context p)) ∈ sent;
  tr_sent : Forall grounded sent;
}.

Definition knows_event (ev : Event) : Prop :=
  ∀ id pkt ctx dl req dlts, ev = EvSubmit id pkt ctx dl req dlts → known id pkt ctx.

(** What an event makes the model ask for concerns its pending requests. *)
Lemma apply_grounded st ev now st' es :
  well_formed st → admissible ev st → apply ev now st = (st', Ok es) →
  (∀ id p, pending st' !! id = Some p → known id (packet p) (context p)) →
  Forall grounded_effect es.
Proof.
  intros Hm Hadm E Hp. apply Forall_forall. intros [s id att req dl pkt ctx| |wk|] Hin; try done; simpl.
  - destruct (apply_dispatch _ _ _ _ _ _ _ _ _ _ _ _ Hm Hadm E Hin)
      as (_ & p & Hid & _ & <- & <- & _). by apply Hp.
  - destruct (apply_announces _ _ _ _ _ Hm Hadm E) as [_ Hw].
    destruct (Hw wk Hin) as (_ & _ & _ & Hx). intros x (id & p & c & _ & Hid & Ec & <-)%Hx.
    exists id, (packet p), c. split; [|done]. rewrite <- Ec. by apply Hp.
Qed.

Lemma apply_tracked O sent ev now a r st es :
  ready_for O ev (set_remote r a) → tracked sent [] a → knows_event ev →
  (∀ s ch ch', remote a = Some (s, ch) → r = Some (s, ch') → ch = ch') →
  apply ev now (state a) = (st, Ok es) → tracked sent es (set_state st (set_remote r a)).
Proof.
  intros (Hm & Hadm & Hr & _) [Hp _ Hf Hs] Hk Hch E. simpl in *.
  pose proof (well_formed_apply _ _ _ _ _ Hm Hadm E) as Hm'.
  assert (∀ id p, pending st !! id = Some p → known id (packet p) (context p)) as Hp'.
  { intros id p Hid. destruct (apply_pending _ _ _ _ _ _ _ Hm Hadm E Hid)
      as [(q & Hq & <- & <- & _)|(pkt & ctx & dl & req & dlts & seq & -> & <- & <- & _)]; eauto. }
  split; simpl; [done|exact (apply_grounded _ _ _ _ _ Hm Hadm E Hp')| |done].
  - intros id p s att Hid Hst.
    pose proof (in_flight_connected _ _ _ _ _ Hm' Hid Hst) as Hses.
    destruct (apply_in_flight _ _ _ _ _ _ _ _ _ Hm Hadm E Hid Hst) as [Hold|]; [|by eauto].
    destruct (Hf id p s att Hold Hst) as [(? & ? & []%not_elem_of_nil)|(ch & req & dl & Hrem & Hin)].
    rewrite <- (apply_session _ _ _ _ _ E), Hses in Hr.
    apply fmap_Some in Hr as ([s' ch'] & -> & [= ->]). right. exists ch', req, dl.
    by rewrite <- (Hch s' ch ch').
Qed.

Context (delivers : Handle → RemoteCommand → bool).

Lemma send_remote_outbounds a s c acts b :
  send_remote delivers a s c = (acts, b) →
  if b then ∃ ch, remote a = Some (s, ch) ∧ outbounds acts = [Emitted ch c]
  else outbounds acts = [].
Proof.
  unfold send_remote. destruct (remote a) as [[active ch]|]; [|by intros [= <- <-]].
  case_decide; [|by intros [= <- <-]]. destruct (delivers ch c); intros [= <- <-]; [|done].
  exists ch. by subst.
Qed.

(** Executing an effect that leaves the model alone. *)
Lemma tracked_pop sent e es acts a :
  tracked sent (e :: es) a →
  (∀ s id att req dl pkt ctx, e = Dispatch s id att req dl pkt ctx →
     ∃ ch, remote a = Some (s, ch)
           ∧ outbounds acts = [Emitted ch (RemoteRequest id att req dl pkt ctx)]) →
  (grounded_effect e → Forall grounded (outbounds acts)) →
  tracked (sent ++ outbounds acts) es a.
Proof.
  intros [Hp He Hf Hs] Hd Hn. apply Forall_cons in He as [He1 He]. split; [done|done| |].
  - intros id p s att Hid Hst.
    destruct (Hf id p s att Hid Hst) as [(req & dl & [<-|Hin]%elem_of_cons)|(ch & req & dl & Hr & Hin)].
    + destruct (Hd _ _ _ _ _ _ _ eq_refl) as (ch & Hr & ->). right. exists ch, req, dl. set_solver.
    + left. by eauto.
    + right. exists ch, req, dl. set_solver.
  - apply Forall_app. auto.
Qed.

Lemma execute_one_tracked O sent e es now a a' acts more :
  coherent O (e :: es) a → tracked sent (e :: es) a →
  execute_one delivers e now a = (a', acts, more) →
  tracked (sent ++ outbounds acts) (es ++ more) a'.
Proof.
  intros Hco Ht Hx. destruct e as [s id att req dl pkt ctx|s id att|w|id r]; simpl in Hx.
  - destruct (send_remote _ _ _ _) as [acts0 b] eqn:Es. apply send_remote_outbounds in Es.
    destruct b.
    { simplify_eq. rewrite (app_nil_r es). apply tracked_pop with (1 := Ht).
      - intros ??????? [= <- <- <- <- <- <- <-]. done.
      - destruct Es as (ch & _ & ->). by repeat constructor. }
    destruct Hco as [Hm Hr Had Hw]. apply Forall_cons in Had as [Had _].
    destruct (disconnect_budget s now (state a)) as (st & es' & E & Hag & Hq & _); [done|].
    rewrite E in Hx. simplify_eq. rewrite Es, app_nil_r.
    pose proof (well_formed_apply (EvDisconnected s) _ _ _ _ Hm I E) as Hm'.
    destruct Ht as [Hp He _ Hs]. apply Forall_cons in He as [_ He].
    assert (∀ id' p, pending st !! id' = Some p → known id' (packet p) (context p)) as Hp'.
    { intros id' p Hid. destruct (apply_pending _ (EvDisconnected s) _ _ _ _ _ Hm I E Hid)
        as [(q & Hq' & <- & <- & _)|(? & ? & ? & ? & ? & ? & ? & _)]; [by eauto|done]. }
    split; simpl; [done| | |done].
    + apply Forall_app. split; [done|].
      exact (apply_grounded _ (EvDisconnected s) _ _ _ Hm I E Hp').
    + intros id' p s' att' Hid Hst.
      pose proof (in_flight_connected _ _ _ _ _ Hm' Hid Hst) as Hses. by rewrite Hag in Hses.
  - destruct (send_remote _ _ _ _) as [acts0 b] eqn:Es. apply send_remote_outbounds in Es.
    simplify_eq. rewrite (app_nil_r es). apply tracked_pop with (1 := Ht); [done|]. intros _.
    simpl. destruct b; [destruct Es as (ch' & _ & ->)|rewrite Es]; by repeat constructor.
  - simplify_eq. rewrite (app_nil_r es). apply tracked_pop with (1 := Ht); [done|].
    by repeat constructor.
  - destruct (waiters a !! id) as [w|]; simplify_eq; rewrite (app_nil_r es).
    + apply (tracked_pop sent _ es [Abort (cancellation w); Respond (response w) r]) in Ht;
        [|done|constructor]. by destruct Ht.
    + apply tracked_pop with (1 := Ht); [done|constructor].
Qed.

Lemma execute_loop_tracked O fuel sent es now a a' acts :
  coherent O es a → tracked sent es a → execute_loop delivers fuel es now a = Some (a', acts) →
  tracked (sent ++ outbounds acts) [] a'.
Proof.
  revert sent es a acts. induction fuel as [|fuel IH]; intros sent [|e es] a acts Hco Ht; simpl;
    try (intros; simplify_eq; by rewrite app_nil_r).
  destruct (execute_one delivers e now a) as [[a1 acts1] more] eqn:E.
  destruct (execute_loop delivers fuel (es ++ more) now a1) as [[a2 acts2]|] eqn:E2; [|done].
  intros; simplify_eq. rewrite outbounds_app, app_assoc. eapply IH; [| |done].
  - by eapply execute_one_coherent.
  - by eapply execute_one_tracked.
Qed.

Lemma actor_apply_tracked O sent ev now a r a' acts :
  ready_for O ev (set_remote r a) → tracked sent [] a → knows_event ev →
  (∀ s ch ch', remote a = Some (s, ch) → r = Some (s, ch') → ch = ch') →
  actor_apply delivers ev now (set_remote r a) = Some (a', acts) →
  (∀ s c, ev ≠ EvConnected s c) → tracked (sent ++ outbounds acts) [] a'.
Proof.
  intros Hrd Ht Hk Hch Ha Hev. unfold actor_apply in Ha.
  destruct (apply ev now (state (set_remote r a))) as [st [es|e]] eqn:E.
  - refine (execute_loop_tracked O _ sent es now _ a' acts _ _ Ha).
    + by eapply apply_coherent.
    + by eapply apply_tracked.
  - apply apply_refused in E as (s & c & -> & _). by destruct (Hev s c).
Qed.

Lemma set_remote_same a : set_remote (remote a) a = a.
Proof. by destruct a. Qed.

(** The same with the outbound channel left alone. *)
Lemma actor_apply_tracked_same O sent ev now a a' acts :
  ready_for O ev a → tracked sent [] a → knows_event ev →
  actor_apply delivers ev now a = Some (a', acts) →
  (∀ s c, ev ≠ EvConnected s c) → tracked (sent ++ outbounds acts) [] a'.
Proof.
  rewrite <- (set_remote_same a) at 1 3. intros. eapply actor_apply_tracked; try done. congruence.
Qed.

Lemma tracked_expire sent now a :
  well_formed (state a) → tracked sent [] a →
  tracked sent [] (set_state (expire now (state a)).1 a).
Proof.
  intros Hm [Hp He Hf Hs]. split; simpl; [..|done].
  - intros id p Hid%expire_pending; eauto.
  - done.
  - intros id p s att Hid%expire_pending Hst; eauto.
Qed.

Lemma disconnect_tracked O sent s now a a' acts :
  coherent O [] a → tracked sent [] a →
  actor_apply delivers (EvDisconnected s) now
    match remote a with
    | Some (active, _) => if decide (active = s) then set_remote None a else a
    | None => a
    end = Some (a', acts) →
  tracked (sent ++ outbounds acts) [] a'.
Proof.
  intros Hco Ht Ha. pose proof (coherent_disconnect O s a Hco) as Hrd.
  destruct (remote a) as [[active ch]|] eqn:Er; [case_decide|].
  - by eapply actor_apply_tracked in Ha.
  - by eapply actor_apply_tracked_same in Ha.
  - by eapply actor_apply_tracked_same in Ha.
Qed.

Lemma connect_tracked O sent s cap out now a st es a' acts :
  coherent O [] a → tracked sent [] a →
  apply (EvConnected s cap) now (state a) = (st, Ok es) →
  execute delivers es now (set_remote (Some (s, out)) (set_state st a)) = Some (a', acts) →
  tracked (sent ++ outbounds acts) [] a'.
Proof.
  intros Hco Ht E Hx. pose proof (coherent_settled _ _ Hco) as (Hm & Hr & Hw).
  assert (ready_for O (EvConnected s cap) (set_remote (Some (s, out)) a)) as Hrd.
  { split_and!; try done. intros id. specialize (Hw id). unfold waits in *. simpl in *. lia. }
  assert (remote a = None) as Hnone.
  { destruct (remote a) as [[s' ch]|]; [|done]. simpl in Hr. unfold apply in E.
    pose proof (expire_agent now (state a)) as Ha. destruct (expire now (state a)) as [st1 es1].
    simpl in E, Ha. case_decide as Hd; [|done]. rewrite <- Ha, Hd in Hr. done. }
  refine (execute_loop_tracked O _ sent es now _ a' acts _ _ Hx).
  - by apply (apply_coherent O (EvConnected s cap) now (set_remote (Some (s, out)) a)).
  - apply (apply_tracked O sent (EvConnected s cap) now a); try done. by rewrite Hnone.
Qed.

Lemma handle_tracked O sent c s now a a' acts d :
  coherent O [] a → tracked sent [] a → handle delivers c s now a = Some (a', acts, d) →
  tracked (sent ++ outbounds acts) [] a'.
Proof.
  intros Hco Ht. destruct c as [cap out resp|s'|s'|s'|s' id att pkt|resp]; simpl.
  - destruct (apply _ now (state a)) as [st [es|[]]] eqn:E.
    + destruct (execute _ _ _ _) as [[a1 acts1]|] eqn:Ex; [|done].
      intros; simplify_eq. exact (connect_tracked O sent s cap out now a st es a' acts1 Hco Ht E Ex).
    + intros; simplify_eq. simpl. rewrite app_nil_r.
      apply apply_refused in E as (? & ? & _ & _ & ->).
      apply tracked_expire; [apply Hco|done].
  - intros ([a1 acts1] & Ha & [= -> -> ->])%fmap_Some.
    eapply actor_apply_tracked_same; [| | |exact Ha|]; [by apply coherent_ready|done..].
  - intros ([a1 acts1] & Ha & [= -> -> ->])%fmap_Some.
    eapply actor_apply_tracked_same; [| | |exact Ha|]; [by apply coherent_ready|done..].
  - intros ([a1 acts1] & Ha & [= -> -> ->])%fmap_Some. by eapply disconnect_tracked.
  - intros ([a1 acts1] & Ha & [= -> -> ->])%fmap_Some.
    eapply actor_apply_tracked_same; [| | |exact Ha|]; [by apply coherent_ready|done..].
  - pose proof (stop_outbounds a) as Ho. intros [= <- <- <-]. cbn [stop snd] in Ho.
    rewrite outbounds_app, Ho, app_nil_r. by destruct Ht.
Qed.

Lemma step_tracked O sent i l l' acts :
  fresh_input i l → coherent O [] (actor l) → tracked sent [] (actor l) →
  (∀ id abort now sys r, i = InLocal id abort now sys r → known id (req_packet r) (req_context r)) →
  run_broker_step delivers i l = Some (l', acts) →
  tracked (sent ++ outbounds acts) [] (actor l').
Proof.
  intros Hfr Hco Ht Hk Hst.
  destruct i as [id ab now sys r| |id now|id|c s now| |now];
    [|unfold run_broker_step, loop_continue in Hst; destruct (running l); [|done]; simpl in *..].
  - apply local_step in Hst as [_ [(_ & _ & Ha)|(_ & _ & -> & ->)]];
      [|rewrite stop_outbounds, app_nil_r; by destruct Ht].
    eapply actor_apply_tracked_same; [by apply coherent_submit; [|apply Hfr..]| | |exact Ha|done].
    + by destruct Ht.
    + intros ?????? [= <- <- <- <- <- <-]. by eapply Hk.
  - case_match; [|done]. simplify_eq. by rewrite app_nil_r.
  - case_decide; [|done]. apply fmap_Some in Hst as ([a acts1] & Ha & [= -> ->]).
    eapply actor_apply_tracked_same; [| | |exact Ha|]; [by apply coherent_ready|done..].
  - case_decide; [|done]. simplify_eq. by rewrite app_nil_r.
  - destruct (handle _ _ _ _ _) as [[[a acts1] d]|] eqn:E; [|done]. simplify_eq.
    by eapply handle_tracked.
  - pose proof (stop_outbounds (actor l)) as Ho. injection Hst as <- <-. cbn [stop snd] in Ho.
    rewrite Ho, app_nil_r. by destruct Ht.
  - destruct (next_deadline _) as [d|]; [|done]. case_match; [|done].
    apply fmap_Some in Hst as ([a acts1] & Ha & [= -> ->]).
    eapply actor_apply_tracked_same; [| | |exact Ha|]; [by apply coherent_ready|done..].
Qed.
End tracked.

(** ** Waiters, channels and replies *)

(** What executing effects does not do: it adds no waiter, opens no channel and
    answers no connection. *)
Record only_effects (a a' : BrokerActor) (acts : list Action) : Prop := {
  oe_waiters : waiters a' ⊆ waiters a;
  oe_remote : ∀ x, remote a' = Some x → remote a = Some x;
  oe_replies : ∀ h o, ConnectReply h o ∉ acts;
}.

Lemma stop_only a0 a : remote a = remote a0 → only_effects a0 (stop a).1 (stop a).2.
Proof.
  intros Hr. split; simpl; [by apply map_empty_subseteq|by rewrite Hr|].
  intros h o (k & Hin & Hl)%list_elem_of_join. apply list_elem_of_fmap in Hl as (kv & -> & _). set_solver.
Qed.

Section frames.
Context (delivers : Handle → RemoteCommand → bool).

Lemma execute_one_only e now a a' acts more :
  execute_one delivers e now a = (a', acts, more) → only_effects a a' acts.
Proof.
  intros Hx. split.
  - by eapply execute_one_waiters.
  - intros x. destruct e; simpl in Hx; repeat case_match; simplify_eq; done.
  - intros h o. destruct e; simpl in Hx; unfold send_remote in *; repeat case_match;
      simplify_eq; set_solver.
Qed.

Lemma execute_loop_only fuel es now a a' acts :
  execute_loop delivers fuel es now a = Some (a', acts) → only_effects a a' acts.
Proof.
  revert es a acts. induction fuel as [|fuel IH]; intros [|e es] a acts; simpl;
    try (intros; simplify_eq; split; set_solver).
  destruct (execute_one delivers e now a) as [[a1 acts1] more] eqn:E.
  destruct (execute_loop delivers fuel (es ++ more) now a1) as [[a2 acts2]|] eqn:E2; [|done].
  intros; simplify_eq. apply execute_one_only in E as [Hw1 Hr1 Ho1]. apply IH in E2 as [Hw2 Hr2 Ho2].
  split; [by etrans|by auto|]. intros h o [Hin|Hin]%elem_of_app; [by apply Ho1 in Hin|by apply Ho2 in Hin].
Qed.

Lemma actor_apply_only ev now a a' acts :
  actor_apply delivers ev now a = Some (a', acts) → only_effects a a' acts.
Proof.
  unfold actor_apply. destruct (apply ev now (state a)) as [st [es|]].
  - intros [Hw Hr Ho]%execute_loop_only. by split.
  - intros [= <- <-]. split; set_solver.
Qed.

(** The waiters and the channel an input brings. *)
Definition brings_waiter (i : Input) (id : RequestId) (w : Waiter) : Prop :=
  ∃ abort now sys r, i = InLocal id abort now sys r ∧ response w = req_response r.
Definition brings_channel (i : Input) (acts : list Action) (s : SessionId) (ch : Handle) : Prop :=
  ∃ cap resp now, i = InCommand (CmdConnect cap ch resp) s now ∧ ConnectReply resp (Ok s) ∈ acts.

Lemma handle_frames c s now a a' acts d :
  handle delivers c s now a = Some (a', acts, d) →
  waiters a' ⊆ waiters a
  ∧ (∀ x ch, remote a' = Some (x, ch) →
       remote a = Some (x, ch) ∨ brings_channel (InCommand c s now) acts x ch)
  ∧ ∀ resp x, ConnectReply resp (Ok x) ∈ acts →
      ∃ cap ch, c = CmdConnect cap ch resp ∧ x = s.
Proof.
  destruct c as [cap out resp|s'|s'|s'|s' id att pkt|resp]; simpl.
  - destruct (apply _ now (state a)) as [st [es|[]]].
    + destruct (execute _ _ _ _) as [[a1 acts1]|] eqn:Ex; [|done]. intros [= <- <- <-].
      apply execute_loop_only in Ex as [Hw Hr Ho]. split_and!; [done| |].
      * intros x ch Hx%Hr. simpl in Hx. simplify_eq. right. exists cap, resp, now. split; [done|]. apply list_elem_of_here.
      * intros r x [[= -> ->]|Hin]%elem_of_cons; [by eauto|]. by apply Ho in Hin.
    + intros [= <- <- <-]. split_and!; [done|by auto|]. intros r x Hin. set_solver.
  - intros ([a1 acts1] & [Hw Hr Ho]%actor_apply_only & [= -> -> ->])%fmap_Some.
    split_and!; [done|by auto|]. intros r x Hin. by apply Ho in Hin.
  - intros ([a1 acts1] & [Hw Hr Ho]%actor_apply_only & [= -> -> ->])%fmap_Some.
    split_and!; [done|by auto|]. intros r x Hin. by apply Ho in Hin.
  - intros ([a1 acts1] & [Hw Hr Ho]%actor_apply_only & [= -> -> ->])%fmap_Some. split_and!.
    + etrans; [done|]. by repeat case_match.
    + intros x ch Hx%Hr. left. repeat case_match; simplify_eq/=; congruence.
    + intros r x Hin. by apply Ho in Hin.
  - intros ([a1 acts1] & [Hw Hr Ho]%actor_apply_only & [= -> -> ->])%fmap_Some.
    split_and!; [done|by auto|]. intros r x Hin. by apply Ho in Hin.
  - destruct (stop_only a a eq_refl) as [Hw Hr Ho]. intros [= <- <- <-]. split_and!; [done|by auto|].
    intros r x [Hin|Hin]%elem_of_app; [by apply Ho in Hin|set_solver].
Qed.

Lemma step_frames i l l' acts :
  run_broker_step delivers i l = Some (l', acts) →
  (∀ id w, waiters (actor l') !! id = Some w →
     waiters (actor l) !! id = Some w ∨ brings_waiter i id w)
  ∧ (∀ s ch, remote (actor l') = Some (s, ch) →
       remote (actor l) = Some (s, ch) ∨ brings_channel i acts s ch)
  ∧ ∀ resp s, ConnectReply resp (Ok s) ∈ acts →
      ∃ cap ch now, i = InCommand (CmdConnect cap ch resp) s now.
Proof.
  assert (∀ a a' acts, only_effects a a' acts →
    (∀ id w, waiters a' !! id = Some w → waiters a !! id = Some w ∨ brings_waiter i id w)
    ∧ (∀ s ch, remote a' = Some (s, ch) → remote a = Some (s, ch) ∨ brings_channel i acts s ch)
    ∧ ∀ resp s, ConnectReply resp (Ok s) ∈ acts →
        ∃ cap ch now, i = InCommand (CmdConnect cap ch resp) s now) as Honly.
  { intros a a' acts' [Hw Hr Ho]. split_and!; [|by auto|].
    - intros id w Hid. left. by eapply lookup_weaken.
    - intros resp s Hin. by apply Ho in Hin. }
  intros Hst. destruct i as [id ab now sys r| |id now|id|c s now| |now];
    [|unfold run_broker_step, loop_continue in Hst; destruct (running l); [|done]; simpl in *..].
  - apply local_step in Hst as [_ [(_ & _ & Ha)|(_ & _ & -> & ->)]];
      [|by apply Honly, stop_only].
    apply actor_apply_only, Honly in Ha as (Hw & Hr & Ho). split_and!; [|done..].
    intros id' w Hid. apply Hw in Hid as [Hid|]; [|by right]. simpl in Hid.
    apply lookup_insert_Some in Hid as [[-> <-]|[_ Hid]]; [right|by left].
    by exists ab, now, sys, r.
  - case_match; [|done]. simplify_eq. split_and!; [by auto..|set_solver].
  - case_decide; [|done]. apply fmap_Some in Hst as ([a acts1] & Ha & [= -> ->]).
    by apply actor_apply_only, Honly in Ha.
  - case_decide; [|done]. simplify_eq. split_and!; [by auto..|set_solver].
  - destruct (handle _ _ _ _ _) as [[[a acts1] d]|] eqn:E; [|done]. simplify_eq. simpl.
    apply handle_frames in E as (Hw & Hr & Ho). split_and!; [|done|].
    + intros id w Hid. left. by eapply lookup_weaken.
    + intros resp x (cap & ch & -> & ->)%Ho. by eauto.
  - injection Hst as <- <-. by apply (Honly _ _ _ (stop_only (actor l) (actor l) eq_refl)).
  - destruct (next_deadline _) as [d|]; [|done]. case_match; [|done].
    apply fmap_Some in Hst as ([a acts1] & Ha & [= -> ->]).
    by apply actor_apply_only, Honly in Ha.
Qed.
End frames.

Lemma explained_mono (known known' : RequestId → bytes → option RequestContext → Prop) wk :
  (∀ id pkt ctx, known id pkt ctx → known' id pkt ctx) → explained known wk → explained known' wk.
Proof. intros Hk He x (id & pkt & c & ? & ?)%He. exists id, pkt, c. auto. Qed.

Lemma grounded_mono (known known' : RequestId → bytes → option RequestContext → Prop) x :
  (∀ id pkt ctx, known id pkt ctx → known' id pkt ctx) → grounded known x → grounded known' x.
Proof.
  intros Hk. destruct x as [ch [id att req dl pkt ctx|]|wk]; simpl; [apply Hk|done|].
  by apply explained_mono.
Qed.

Lemma tracked_mono (known known' : RequestId → bytes → option RequestContext → Prop) sent sent' es a :
  (∀ id pkt ctx, known id pkt ctx → known' id pkt ctx) → sent ⊆ sent' →
  Forall (grounded known') sent' →
  tracked known sent es a → tracked known' sent' es a.
Proof.
  intros Hk Hs Hn [Hp He Hf _]. split; [by eauto| | |done].
  - eapply Forall_impl; [exact He|].
    intros [s id att req dl pkt ctx| |wk|]; simpl; [apply Hk|done|by apply explained_mono|done].
  - intros id p s att Hid Hst.
    destruct (Hf id p s att Hid Hst) as [?|(ch & req & dl & ? & ?)]; [by left|].
    right. exists ch, req, dl. auto.
Qed.
