(* ===== verification/BrokerProgress.v ===== *)
(** * BrokerProgress: what the broker's actor can do on its own

    The sequence counter moves only with submissions, an iteration that admits a
    request or fires the timer keeps the actor running unless the clock cannot
    represent a deadline, and the timer can always be waited for on behalf of a waiting caller. *)

From S2P Require Import Prelude Bytes Packet Assoc BrokerModel BrokerSpec BrokerRefinement BrokerProps BrokerEffects BrokerTask BrokerTaskProps BrokerTaskSync BrokerTracking.

(** ** The sequence counter *)

Lemma expire_sequence now st : next_sequence (expire now st).1 = next_sequence st.
Proof. unfold expire, expire_iter. by destruct (remove_expired _ _). Qed.

Lemma reconcile_sequence st : next_sequence (reconcile st).1 = next_sequence st.
Proof.
  unfold reconcile, dispatch_queue, announce_wake.
  destruct (connected_remote st) as [[s c]|]; [destruct (dispatch_loop _ _ _ _ _) as [[q m] es]|];
    repeat case_match; by simplify_eq.
Qed.

Definition submissions (ev : Event) : N :=
  match ev with EvSubmit _ _ _ _ _ _ => 1 | _ => 0 end.

Lemma apply_sequence ev now st :
  (next_sequence (apply ev now st).1 ≤ next_sequence st + submissions ev)%N.
Proof.
  unfold apply. pose proof (expire_sequence now st) as He.
  destruct (expire now st) as [st1 es]. simpl in He.
  destruct (apply_event ev st1) as [[st2 es']|] eqn:E; [|simpl; lia].
  pose proof (reconcile_sequence st2) as Hr. destruct (reconcile st2) as [st3 es3]. simpl in *.
  rewrite Hr, <- He. pose proof (N.Div0.mod_le (next_sequence st1 + 1) (2 ^ 64)) as Hw.
  destruct ev; simpl in *; repeat case_match; simplify_eq/=; unfold wrap64 in *; lia.
Qed.

Section sequence.
Context (delivers : Handle → RemoteCommand → bool).

Lemma execute_loop_sequence fuel es now a a' acts :
  execute_loop delivers fuel es now a = Some (a', acts) →
  (next_sequence (state a') ≤ next_sequence (state a))%N.
Proof.
  revert es a acts. induction fuel as [|fuel IH]; intros [|e es] a acts; simpl;
    try (intros; by simplify_eq).
  destruct (execute_one delivers e now a) as [[a1 acts1] more] eqn:E.
  destruct (execute_loop delivers fuel _ now a1) as [[a2 acts2]|] eqn:E2; [|done].
  intros [= <- <-]. apply IH in E2. etrans; [exact E2|].
  destruct e as [s id att req dl pkt ctx| | |]; simpl in E;
    [|repeat case_match; by simplify_eq..].
  destruct (send_remote _ _ _ _) as [acts0 []]; [by simplify_eq|].
  pose proof (apply_sequence (EvDisconnected s) now (state a)) as Hs. simpl in Hs.
  destruct (apply _ _ _) as [st [|]]; simplify_eq/=; lia.
Qed.

Lemma actor_apply_sequence ev now a a' acts :
  actor_apply delivers ev now a = Some (a', acts) →
  (next_sequence (state a') ≤ next_sequence (state a) + submissions ev)%N.
Proof.
  unfold actor_apply. pose proof (apply_sequence ev now (state a)) as Hs.
  destruct (apply ev now (state a)) as [st [es|]]; simpl in Hs.
  - intros H%execute_loop_sequence. simpl in H. lia.
  - by intros [= <- <-].
Qed.
End sequence.

(** ** The inputs that need no other task *)

Definition own_input (i : Input) : bool :=
  match i with InLocal _ _ _ _ _ | InDeadline _ => true | _ => false end.

(** Such an iteration answers no connection, and the actor runs on unless the
    deadline of a request is beyond the clock. *)
Lemma own_step delivers i l l' acts :
  own_input i = true → run_broker_step delivers i l = Some (l', acts) →
  (running l' = false → ∃ id ab now sys r, i = InLocal id ab now sys r
     ∧ deadline_overflows (request_timeout (config (actor l))) now sys = true)
  ∧ local_requests_open l' = local_requests_open l
  ∧ (next_sequence (state (actor l')) ≤ next_sequence (state (actor l)) + len (arrives i))%N
  ∧ ∀ h o, ConnectReply h o ∉ acts.
Proof.
  intros Hi Hst. destruct i as [id ab now sys r| | | | | |now]; try done.
  - apply local_step in Hst as [Ho [(_ & Hr & Ha)|(Hov & _ & -> & ->)]].
    + pose proof (actor_apply_sequence _ _ _ _ _ _ Ha) as Hs.
      apply actor_apply_only in Ha as [_ _ Hno]. split_and!; [congruence|done..].
    + split_and!; [naive_solver|done|simpl; lia|].
      apply (stop_only (with_caller id ab r (actor l)) _ eq_refl).
  - unfold run_broker_step, loop_continue in Hst. destruct (running l) eqn:Hr; [|done]. simpl in Hst.
    destruct (next_deadline _) as [d|]; [|done]. destruct (d <=? now)%N; [|done].
    apply fmap_Some in Hst as ([a acts1] & Ha & [= -> ->]).
    pose proof (actor_apply_sequence _ _ _ _ _ _ Ha) as Hs.
    apply actor_apply_only in Ha as [_ _ Hno]. by split_and!.
Qed.

Lemma step_open delivers i l l' acts :
  run_broker_step delivers i l = Some (l', acts) →
  local_requests_open l' = false → local_requests_open l = false ∨ i = InLocalClosed.
Proof.
  intros Hst Ho. destruct i as [id ab now sys r| | | | | |]; [|unfold run_broker_step, loop_continue in Hst;
    destruct (running l); [|done]; simpl in Hst..]; auto; left;
    [apply local_step in Hst as [E _]; congruence|..]; repeat case_match; simplify_eq/=; try done;
    apply fmap_Some in Hst as (? & _ & [= -> _]); done.
Qed.

(** ** The timer *)

(** Without stranded callers, a waiting caller's request is pending, and some
    instant, as late as one likes, fires the timer for it. *)
Lemma waiter_times_out l id w t :
  running l = true → coherent ∅ [] (actor l) → waiters (actor l) !! id = Some w →
  ∃ now, (t ≤ now)%N ∧ enabled (InDeadline now) l
    ∧ ∀ delivers l' acts, run_broker_step delivers (InDeadline now) l = Some (l', acts) →
        Respond (response w) (Err TimedOut) ∈ acts.
Proof.
  intros Hrun Hco Hw. destruct (waiter_pending _ _ _ Hco Hw) as [p Hp].
  exists (N.max t (deadline p)). split_and!; [lia| |].
  - split; [done|]. pose proof (next_deadline_earliest (state (actor l))) as Hd.
    destruct (next_deadline _) as [d|];
      [exists d; split; [done|]; apply N.max_le_iff; right; by eapply Hd|].
    by rewrite Hd, lookup_empty in Hp.
  - intros delivers l' acts Hst.
    by eapply (deadline_step_answers delivers ∅ _ _ _ _ Hco Hst); [..|apply N.le_max_r].
Qed.
