(* ===== verification/BrokerTime.v ===== *)
(** * BrokerTime: the broker's actor and its clock

    Every iteration of the actor that reads the clock leaves no request pending
    whose deadline has passed, pending requests keep the deadline they were
    admitted with, and a caller that waits is kept until it is answered. *)

From S2P Require Import Prelude Bytes Packet Assoc BrokerModel BrokerSpec BrokerRefinement BrokerProps BrokerEffects BrokerTask BrokerTaskProps BrokerTaskSync BrokerTracking.

(** The time an iteration reads. *)
Definition input_time (i : Input) : option Instant :=
  match i with
  | InLocal _ _ now _ _ | InCancelled _ now | InCommand _ _ now | InDeadline now => Some now
  | InLocalClosed | InAborted _ | InCommandsClosed => None
  end.

(** ** Pending requests *)

(** Nothing pending is new or has another deadline. *)
Definition shrinks (st st' : BrokerState) : Prop :=
  ∀ id p', pending st' !! id = Some p' →
    ∃ p, pending st !! id = Some p ∧ deadline p = deadline p'.

#[export] Instance shrinks_preorder : PreOrder shrinks.
Proof.
  split.
  - intros st id p Hp. by exists p.
  - intros st1 st2 st3 H12 H23 id p (q & Hq & <-)%H23. by apply H12.
Qed.

(** A pending request after an event at [now]: submitted by it, or pending
    before and not due. *)
Definition due_after (ev : Event) (now : Instant) (st : BrokerState) (id : RequestId)
    (p' : PendingRequest) : Prop :=
  (∃ pkt ctx req dlts, ev = EvSubmit id pkt ctx (deadline p') req dlts)
  ∨ (now < deadline p')%N ∧ ∃ p, pending st !! id = Some p ∧ deadline p = deadline p'.

Lemma apply_due ev now st st' es id p' :
  well_formed st → admissible ev st → apply ev now st = (st', Ok es) →
  pending st' !! id = Some p' → due_after ev now st id p'.
Proof.
  intros Hm Hadm E Hp. destruct (apply_pending _ _ _ _ _ _ _ Hm Hadm E Hp)
    as [(q & Hq & _ & _ & Hd & _)|(pkt & ctx & dl & req & dlts & seq & -> & _ & _ & Hd & _)].
  - destruct (proj1 (apply_deadlines _ _ _ _ _ Hm Hadm E) id p' Hp) as [Hlt|Hs].
    + right. split; [done|]. by exists q.
    + destruct ev; try done. simpl in Hs. case_decide; [subst|done].
      destruct Hadm as [Hnone _]. congruence.
  - left. simpl in Hd. rewrite <- Hd. by eauto.
Qed.

Lemma expire_due now st id p' :
  well_formed st → pending (expire now st).1 !! id = Some p' →
  (now < deadline p')%N ∧ pending st !! id = Some p'.
Proof.
  intros Hm Hp. split; [|by eapply expire_pending]. destruct Hm as (sp & -> & Hwf).
  rewrite refine_expire in Hp by done. cbn [fst] in Hp. apply pending_entry in Hp; [|auto with broker].
  apply expire_provenance in Hp as [_ Hd]. unfold overdue, expired in Hd.
  rewrite N.leb_le in Hd. simpl in Hd. lia.
Qed.

Section time.
Context (delivers : Handle → RemoteCommand → bool).

Lemma execute_one_shrinks O e es now a a' acts more :
  coherent O (e :: es) a → execute_one delivers e now a = (a', acts, more) →
  shrinks (state a) (state a') ∧ config a' = config a.
Proof.
  intros Hco Hx. pose proof (co_model _ _ _ Hco) as Hm.
  destruct e as [s id att req dl pkt ctx| | |id r]; simpl in Hx; [|by simplify_eq..|by case_match; simplify_eq].
  destruct (send_remote _ _ _ _) as [acts0 []]; [by simplify_eq|].
  destruct (apply (EvDisconnected s) now (state a)) as [st [es'|]] eqn:E; simplify_eq/=; (split; [|done]).
  - intros id' p' Hp'. destruct (apply_due (EvDisconnected s) _ _ _ _ _ _ Hm I E Hp') as [(? & ? & ? & ? & ?)|[_ ?]]; done.
  - apply apply_refused in E as (? & ? & ? & _). done.
Qed.

Lemma execute_loop_shrinks O fuel es now a a' acts :
  coherent O es a → execute_loop delivers fuel es now a = Some (a', acts) →
  shrinks (state a) (state a') ∧ config a' = config a.
Proof.
  revert es a acts. induction fuel as [|fuel IH]; intros [|e es] a acts Hco; simpl;
    try (intros; by simplify_eq).
  destruct (execute_one delivers e now a) as [[a1 acts1] more] eqn:E.
  destruct (execute_loop delivers fuel (es ++ more) now a1) as [[a2 acts2]|] eqn:E2; [|done].
  intros; simplify_eq. apply IH in E2 as [H2 ->]; [|by eapply execute_one_coherent].
  apply (execute_one_shrinks O) with (es := es) in E as [H1 ->]; [|done]. split; [by etrans|done].
Qed.

(** After an event and what it makes the actor do, at the same time. *)
Lemma shrinks_due ev now st st1 st2 id p' :
  (∀ id p, pending st1 !! id = Some p → due_after ev now st id p) → shrinks st1 st2 →
  pending st2 !! id = Some p' → due_after ev now st id p'.
Proof.
  intros H1 H2 (p & Hp & Hd)%H2. apply H1 in Hp. unfold due_after in *. by rewrite Hd in Hp.
Qed.

Lemma actor_apply_due O ev now a a' acts :
  ready_for O ev a → (∀ s c, ev ≠ EvConnected s c) →
  actor_apply delivers ev now a = Some (a', acts) →
  config a' = config a
  ∧ ∀ id p', pending (state a') !! id = Some p' → due_after ev now (state a) id p'.
Proof.
  intros Hrd Hev. unfold actor_apply.
  destruct (apply ev now (state a)) as [st [es|e]] eqn:E.
  - intros Hx. apply (execute_loop_shrinks O) in Hx as [Hs Hc]; [|by eapply apply_coherent].
    split; [done|]. intros id p'. eapply shrinks_due; [|exact Hs]. intros id' p Hp.
    destruct Hrd as (Hm & Hadm & _). by eapply apply_due.
  - apply apply_refused in E as (s & c & -> & _). by destruct (Hev s c).
Qed.

(** A pending request after an iteration: admitted by it, or pending before and,
    if the iteration read the clock and the actor goes on, not due. *)
Definition due_after_input (i : Input) (going : bool) (a : BrokerActor) (id : RequestId)
    (p' : PendingRequest) : Prop :=
  (∃ ab now sys r, i = InLocal id ab now sys r ∧ deadline p' = (now + request_timeout (config a))%N)
  ∨ (∀ now, input_time i = Some now → going = true → (now < deadline p')%N)
    ∧ ∃ p, pending (state a) !! id = Some p ∧ deadline p = deadline p'.

(** An event that submits nothing. *)
Lemma due_after_quiet ev now i going a st id p' :
  (∀ id, submits id ev = 0) → (∀ t, input_time i = Some t → t = now) →
  st = state a → due_after ev now st id p' → due_after_input i going a id p'.
Proof.
  intros Hs Ht -> [(? & ? & ? & ? & ->)|[Hlt Hp]].
  - specialize (Hs id). simpl in Hs. by rewrite decide_True in Hs.
  - right. split; [|done]. by intros t ->%Ht.
Qed.

Lemma handle_due O c s now a a' acts d :
  coherent O [] a → handle delivers c s now a = Some (a', acts, d) →
  config a' = config a
  ∧ ∀ id p', pending (state a') !! id = Some p' →
      due_after_input (InCommand c s now) (negb d) a id p'.
Proof.
  intros Hco.
  assert (∀ ev a1 acts1, ready_for O ev a → (∀ id, submits id ev = 0) → (∀ s c, ev ≠ EvConnected s c) →
    actor_apply delivers ev now a = Some (a1, acts1) →
    config a1 = config a
    ∧ ∀ id p', pending (state a1) !! id = Some p' →
        due_after_input (InCommand c s now) true a id p') as Hev.
  { intros ev a1 acts1 Hrd Hs Hne Ha. destruct (actor_apply_due O _ _ _ _ _ Hrd Hne Ha) as [Hc Hp].
    split; [done|]. intros id p' Hid%Hp. eapply due_after_quiet; try done. by intros t [= ->]. }
  destruct c as [cap out resp|s'|s'|s'|s' id att pkt|resp]; simpl.
  - pose proof (co_model _ _ _ Hco) as Hm. destruct (apply _ now (state a)) as [st [es|[]]] eqn:E.
    + destruct (execute _ _ _ _) as [[a1 acts1]|] eqn:Ex; [|done]. intros [= <- <- <-].
      apply (execute_loop_shrinks O) in Ex as [Hs Hc]; [|by eapply connect_coherent].
      split; [done|]. intros id p' Hp. eapply (due_after_quiet (EvConnected s cap) now); try done.
      * by intros t [= ->].
      * eapply shrinks_due; [|exact Hs|exact Hp]. intros id' p. by eapply apply_due.
    + intros [= <- <- <-]. split; [done|]. apply apply_refused in E as (? & ? & _ & _ & ->).
      intros id p' [Hlt Hp]%expire_due; [|done]. right. split; [by intros t [= <-]|by exists p'].
  - intros ([a1 acts1] & E & [= -> -> ->])%fmap_Some. eapply Hev, E; [|done..]. by apply coherent_ready.
  - intros ([a1 acts1] & E & [= -> -> ->])%fmap_Some. eapply Hev, E; [|done..]. by apply coherent_ready.
  - intros ([a1 acts1] & E & [= -> -> ->])%fmap_Some.
    apply (actor_apply_due O) in E as [Hc Hp]; [|by apply coherent_disconnect|done].
    split; [rewrite Hc; by repeat case_match|]. intros id p' Hid%Hp.
    eapply due_after_quiet; [..|exact Hid]; try done; [by intros t [= ->]|by repeat case_match].
  - intros ([a1 acts1] & E & [= -> -> ->])%fmap_Some. eapply Hev, E; [|done..]. by apply coherent_ready.
  - intros [= <- <- <-]. split; [done|]. intros id p' Hp. right. split; [done|]. by exists p'.
Qed.

Lemma step_due O i l l' acts :
  fresh_input i l → coherent O [] (actor l) → run_broker_step delivers i l = Some (l', acts) →
  config (actor l') = config (actor l)
  ∧ ∀ id p', pending (state (actor l')) !! id = Some p' →
      due_after_input i (running l') (actor l) id p'.
Proof.
  intros Hfr Hco Hst.
  assert (∀ g, input_time i = None → config (actor l) = config (actor l)
    ∧ ∀ id p', pending (state (actor l)) !! id = Some p' → due_after_input i g (actor l) id p') as Hsame.
  { intros g Ht. split; [done|]. intros id p' Hp. right. split; [by rewrite Ht|by exists p']. }
  destruct i as [id ab now sys r| |id now|id|c s now| |now];
    [|unfold run_broker_step, loop_continue in Hst; destruct (running l); [|done]; simpl in *..].
  - apply local_step in Hst as [_ [(_ & -> & Ha)|(_ & -> & -> & ->)]].
    2: { split; [done|]. intros id' p' Hp. right. split; [done|]. by exists p'. }
    apply (actor_apply_due O) in Ha as [Hc Hp]; [|by apply coherent_submit; [|apply Hfr..]|done].
    split; [done|]. intros id' p' [(? & ? & ? & ? & [= <- _ _ E _ _])|[Hlt Hq]]%Hp.
    + left. exists ab, now, sys, r. split; [done|]. by rewrite <- E.
    + right. split; [by intros t [= <-]|done].
  - case_match; [|done]. simplify_eq. by apply Hsame.
  - case_decide; [|done]. apply fmap_Some in Hst as ([a acts1] & Ha & [= -> ->]).
    apply (actor_apply_due O) in Ha as [Hc Hp]; [|by apply coherent_ready|done].
    split; [done|]. intros id' p' Hid%Hp. eapply due_after_quiet; [..|exact Hid]; try done.
    by intros t [= ->].
  - case_decide; [|done]. simplify_eq. by apply Hsame.
  - destruct (handle _ _ _ _ _) as [[[a acts1] d]|] eqn:E; [|done]. simplify_eq.
    by apply (handle_due O) in E.
  - injection Hst as <- <-. by apply Hsame.
  - destruct (next_deadline _) as [d|]; [|done]. case_match; [|done].
    apply fmap_Some in Hst as ([a acts1] & Ha & [= -> ->]).
    apply (actor_apply_due O) in Ha as [Hc Hp]; [|by apply coherent_ready|done].
    split; [done|]. intros id' p' Hid%Hp. eapply due_after_quiet; [..|exact Hid]; try done.
    by intros t [= ->].
Qed.

(** ** Waiting callers *)

(** The caller of [id] still waits, or has been answered. *)
Definition served (w : Waiter) (id : RequestId) (a : BrokerActor) (acts : list Action) : Prop :=
  waiters a !! id = Some w ∨ response w ∈ responded acts.

Lemma execute_one_serves e now a a' acts more id w :
  execute_one delivers e now a = (a', acts, more) → waiters a !! id = Some w → served w id a' acts.
Proof.
  unfold served. intros Hx Hw. destruct e as [s id' att req dl pkt ctx| | |id' r]; simpl in Hx;
    [left; repeat case_match; by simplify_eq|left; by simplify_eq..|].
  destruct (waiters a !! id') as [w'|] eqn:E; simplify_eq; [|by left]. simpl.
  destruct (decide (id = id')) as [->|Hne]; [|left; by rewrite lookup_delete_ne].
  right. simplify_eq. apply list_elem_of_here.
Qed.

Lemma execute_loop_serves fuel es now a a' acts id w :
  execute_loop delivers fuel es now a = Some (a', acts) → waiters a !! id = Some w →
  served w id a' acts.
Proof.
  revert es a acts. induction fuel as [|fuel IH]; intros [|e es] a acts; simpl;
    try (intros; simplify_eq; by left).
  destruct (execute_one delivers e now a) as [[a1 acts1] more] eqn:E.
  destruct (execute_loop delivers fuel (es ++ more) now a1) as [[a2 acts2]|] eqn:E2; [|done].
  intros [= <- <-] Hw. unfold served, responded. rewrite omap_app, elem_of_app.
  destruct (execute_one_serves _ _ _ _ _ _ _ _ E Hw) as [Hw1|?]; [|by auto].
  destruct (IH _ _ _ E2 Hw1); auto.
Qed.

Lemma actor_apply_serves ev now a a' acts id w :
  actor_apply delivers ev now a = Some (a', acts) → waiters a !! id = Some w → served w id a' acts.
Proof.
  unfold actor_apply. destruct (apply ev now (state a)) as [st [es|]].
  - intros Hx Hw. by eapply execute_loop_serves.
  - intros [= <- <-] Hw. by left.
Qed.

Lemma stop_unavailable a id w :
  waiters a !! id = Some w → Respond (response w) (Err Unavailable) ∈ (stop a).2.
Proof.
  intros Hw. unfold stop. cbn [snd].
  apply list_elem_of_join. eexists. split; [apply list_elem_of_further, list_elem_of_here|].
  apply list_elem_of_fmap. exists (id, w). split; [done|]. by apply elem_of_map_to_list.
Qed.

Lemma stop_serves a id w : waiters a !! id = Some w → response w ∈ responded (stop a).2.
Proof. intros Hw%stop_unavailable. apply list_elem_of_omap. by eexists. Qed.

Lemma handle_serves c s now a a' acts d id w :
  handle delivers c s now a = Some (a', acts, d) → waiters a !! id = Some w → served w id a' acts.
Proof.
  destruct c as [cap out resp|s'|s'|s'|s' k att pkt|resp]; simpl; intros Hx Hw.
  - destruct (apply _ now (state a)) as [st [es|[]]].
    + destruct (execute _ _ _ _) as [[a1 acts1]|] eqn:Ex; [|done]. injection Hx as <- <- <-.
      apply (execute_loop_serves _ _ _ _ _ _ _ _ Ex Hw).
    + injection Hx as <- <- <-. by left.
  - apply fmap_Some in Hx as ([a1 acts1] & E & [= -> -> ->]). by eapply actor_apply_serves.
  - apply fmap_Some in Hx as ([a1 acts1] & E & [= -> -> ->]). by eapply actor_apply_serves.
  - apply fmap_Some in Hx as ([a1 acts1] & E & [= -> -> ->]). eapply actor_apply_serves; [done|].
    by repeat case_match.
  - apply fmap_Some in Hx as ([a1 acts1] & E & [= -> -> ->]). by eapply actor_apply_serves.
  - injection Hx as <- <- <-. right. unfold responded. rewrite omap_app, elem_of_app. left.
    by eapply (stop_serves a).
Qed.

Lemma step_serves i l l' acts id w :
  fresh_input i l → run_broker_step delivers i l = Some (l', acts) →
  waiters (actor l) !! id = Some w → served w id (actor l') acts.
Proof.
  intros Hfr Hst Hw.
  destruct i as [k ab now sys r| |k now|k|c s now| |now];
    [|unfold run_broker_step, loop_continue in Hst; destruct (running l); [|done]; simpl in *..].
  - assert (waiters (with_caller k ab r (actor l)) !! id = Some w) as Hw'.
    { simpl. rewrite lookup_insert_ne; [done|]. intros ->. by destruct Hfr as [Hnone _]; rewrite Hw in Hnone. }
    apply local_step in Hst as [_ [(_ & _ & Ha)|(_ & _ & -> & ->)]]; [by eapply actor_apply_serves|].
    right. by eapply stop_serves.
  - case_match; [|done]. simplify_eq. by left.
  - case_decide; [|done]. apply fmap_Some in Hst as ([a acts1] & Ha & [= -> ->]).
    by eapply actor_apply_serves.
  - case_decide; [|done]. simplify_eq. by left.
  - destruct (handle _ _ _ _ _) as [[[a acts1] d]|] eqn:E; [|done]. simplify_eq.
    by eapply handle_serves.
  - injection Hst as <- <-. right. by eapply (stop_serves (actor l)).
  - destruct (next_deadline _) as [d|]; [|done]. case_match; [|done].
    apply fmap_Some in Hst as ([a acts1] & Ha & [= -> ->]). by eapply actor_apply_serves.
Qed.

(** The caller of a request that is admitted. *)
Lemma admission_serves id ab now sys r l l' acts :
  run_broker_step delivers (InLocal id ab now sys r) l = Some (l', acts) →
  served {| response := req_response r; cancellation := ab |} id (actor l') acts.
Proof.
  set (w := {| response := _; cancellation := _ |}).
  assert (waiters (with_caller id ab r (actor l)) !! id = Some w) as Hw
    by (simpl; by rewrite lookup_insert_eq).
  intros [_ [(_ & _ & Ha)|(_ & _ & -> & ->)]]%local_step; [by eapply actor_apply_serves|].
  right. by eapply (stop_serves _ _ _ Hw).
Qed.

(** Nobody waits for an actor that has stopped. *)
Lemma stopped_empty i l l' acts :
  run_broker_step delivers i l = Some (l', acts) → running l' = false → waiters (actor l') = ∅.
Proof.
  intros Hst Hrun. destruct i as [k ab now sys r| |k now|k|c s now| |now];
    [by apply local_step in Hst as [_ [(_ & ? & _)|(_ & _ & -> & _)]]; [congruence|]
    |unfold run_broker_step, loop_continue in Hst; destruct (running l) eqn:Hr; [|done]; simpl in Hst..];
    try (repeat case_match; try apply fmap_Some in Hst as (? & _ & [= -> _]); simplify_eq/=; congruence).
  destruct (handle _ _ _ _ _) as [[[a acts1] d]|] eqn:E; [|done]. simplify_eq/=.
  apply negb_false_iff in Hrun as ->. destruct c; simpl in E;
    try (by apply fmap_Some in E as (? & _ & ?)); repeat case_match; by simplify_eq.
Qed.
End time.

(** Without a refused connection, a caller waits only before its deadline. *)
Lemma waits_before_deadline delivers O i l l' acts now id w :
  fresh_input i l → coherent O [] (actor l) → run_broker_step delivers i l = Some (l', acts) →
  coherent ∅ [] (actor l') → running l' = true → input_time i = Some now →
  waiters (actor l') !! id = Some w → (∀ ab t sys r, i ≠ InLocal id ab t sys r) →
  ∃ p, pending (state (actor l)) !! id = Some p ∧ (now < deadline p)%N.
Proof.
  intros Hfr Hco Hst Hco' Hrun Ht Hw Hne. destruct (waiter_pending _ _ _ Hco' Hw) as [p' Hp].
  destruct (proj2 (step_due _ _ _ _ _ _ Hfr Hco Hst) id p' Hp)
    as [(ab & t & sys & r & -> & _)|[Hlt (p & Hp0 & E)]]; [by destruct (Hne ab t sys r)|].
  exists p. split; [done|]. rewrite E. by apply Hlt.
Qed.
