(* ===== verification/BrokerAdmission.v ===== *)
(** * BrokerAdmission: a broker with room takes a request

    The actor's limits are those it was configured with in every reachable state,
    and a local request that finds room becomes pending with its caller waiting,
    whatever sending it to the remote leads to. *)

From S2P Require Import Prelude Bytes Packet Assoc BrokerModel BrokerSpec BrokerRefinement BrokerProps BrokerEffects BrokerTask BrokerTaskProps BrokerTaskSync BrokerTracking BrokerTime.

(** ** The configured limits *)

Lemma reconcile_limit st : max_pending_requests (reconcile st).1 = max_pending_requests st.
Proof.
  unfold reconcile, dispatch_queue, announce_wake.
  destruct (connected_remote st) as [[s c]|]; [destruct (dispatch_loop _ _ _ _ _) as [[q m] es]|];
    by repeat case_match; simplify_eq.
Qed.

Lemma apply_limit ev now st : max_pending_requests (apply ev now st).1 = max_pending_requests st.
Proof.
  unfold apply. assert (max_pending_requests (expire now st).1 = max_pending_requests st) as He
    by (unfold expire, expire_iter; by destruct (remove_expired _ _)).
  destruct (expire now st) as [st1 es1]. simpl in He.
  destruct (apply_event ev st1) as [[st2 es2]|] eqn:Ev; [|done].
  assert (max_pending_requests st2 = max_pending_requests st1) as H2
    by (destruct ev; simpl in Ev; repeat case_match; by simplify_eq).
  pose proof (reconcile_limit st2) as H3.
  destruct (reconcile st2) as [st3 es3]. simpl in *. congruence.
Qed.

(** The actor's configuration and its model's limit. *)
Definition limits (a : BrokerActor) : BrokerConfig * N := (config a, max_pending_requests (state a)).

Section limits.
Context (delivers : Handle → RemoteCommand → bool).

Lemma execute_one_limits e now a : limits (execute_one delivers e now a).1.1 = limits a.
Proof.
  unfold limits. destruct e as [s id att req dl pkt ctx| | |id r]; simpl; [|done..|by case_match].
  destruct (send_remote _ _ _ _) as [acts []]; [done|].
  pose proof (apply_limit (EvDisconnected s) now (state a)) as Hl.
  destruct (apply _ _ _) as [st []]; simpl in *; by rewrite Hl.
Qed.

Lemma execute_loop_limits fuel es now a a' acts :
  execute_loop delivers fuel es now a = Some (a', acts) → limits a' = limits a.
Proof.
  revert es a acts. induction fuel as [|fuel IH]; intros [|e es] a acts; simpl;
    try (intros; by simplify_eq).
  pose proof (execute_one_limits e now a) as He.
  destruct (execute_one delivers e now a) as [[a1 acts1] more]. simpl in He.
  destruct (execute_loop delivers fuel (es ++ more) now a1) as [[a2 acts2]|] eqn:E2; [|done].
  intros [= <- <-]. by rewrite (IH _ _ _ E2).
Qed.

Lemma actor_apply_limits ev now a a' acts :
  actor_apply delivers ev now a = Some (a', acts) → limits a' = limits a.
Proof.
  unfold actor_apply. pose proof (apply_limit ev now (state a)) as Hl.
  destruct (apply ev now (state a)) as [st [es|]]; simpl in Hl.
  - intros ->%execute_loop_limits. unfold limits. simpl. by rewrite Hl.
  - intros [= <- <-]. unfold limits. simpl. by rewrite Hl.
Qed.

Lemma handle_limits c s now a a' acts d :
  handle delivers c s now a = Some (a', acts, d) → limits a' = limits a.
Proof.
  destruct c as [cap out resp|s'|s'|s'|s' id att pkt|resp]; simpl;
    try (intros ([a1 acts1] & H%actor_apply_limits & [= -> -> ->])%fmap_Some; rewrite H;
         by repeat case_match).
  - pose proof (apply_limit (EvConnected s cap) now (state a)) as Hl.
    destruct (apply _ now (state a)) as [st [es|[]]]; simpl in Hl.
    + destruct (execute _ _ _ _) as [[a1 acts1]|] eqn:Ex; [|done]. intros [= <- <- <-].
      apply execute_loop_limits in Ex as ->. unfold limits. simpl. by rewrite Hl.
    + intros [= <- <- <-]. unfold limits. simpl. by rewrite Hl.
  - by intros [= <- <- <-].
Qed.

Lemma step_limits i l l' acts :
  run_broker_step delivers i l = Some (l', acts) → limits (actor l') = limits (actor l).
Proof.
  intros Hst. destruct i as [id ab now sys r| |id now|id|c s now| |now];
    [|unfold run_broker_step, loop_continue in Hst; destruct (running l); [|done]; simpl in Hst..].
  - apply local_step in Hst as [_ [(_ & _ & ->%actor_apply_limits)|(_ & _ & -> & _)]]; done.
  - case_match; [|done]. by simplify_eq.
  - case_decide; [|done]. apply fmap_Some in Hst as ([a acts1] & Ha & [= -> ->]).
    by eapply actor_apply_limits.
  - case_decide; [|done]. by simplify_eq.
  - destruct (handle _ _ _ _ _) as [[[a acts1] d]|] eqn:E; [|done]. simplify_eq.
    by eapply handle_limits.
  - by injection Hst as <- <-.
  - destruct (next_deadline _) as [d|]; [|done]. case_match; [|done].
    apply fmap_Some in Hst as ([a acts1] & Ha & [= -> ->]). by eapply actor_apply_limits.
Qed.
End limits.

Lemma loop_run_limits turns l l' acts :
  loop_run turns l = Some (l', acts) → limits (actor l') = limits (actor l).
Proof.
  revert l acts. induction turns as [|[d i] turns IH]; intros l acts; simpl; [by intros [= <- <-]|].
  destruct (run_broker_step d i l) as [[l1 acts1]|] eqn:E; [|done].
  destruct (loop_run turns l1) as [[l2 acts2]|] eqn:E2; [|done]. intros [= <- <-].
  rewrite (IH _ _ E2). by eapply step_limits.
Qed.

Lemma loop_reachable_limits cfg l acts :
  loop_reachable cfg l acts → limits (actor l) = (cfg, config_max_pending_requests cfg).
Proof. by intros (_ & turns & _ & ->%loop_run_limits). Qed.

(** ** Requests that are not completed *)

Lemma completions_zero id es : (∀ r, Complete id r ∉ es) → completions id es = 0.
Proof.
  intros Hno. apply completions_none, Forall_forall. intros e He.
  destruct e as [| | |id' r]; try done. simpl. apply bool_decide_eq_false. intros ->.
  by apply (Hno r).
Qed.

(** An event that finds room for the request it may bring, or takes away the
    remote, completes no request but those that are due. *)
Definition spares (ev : Event) (st : BrokerState) : Prop :=
  match ev with
  | EvSubmit _ _ _ _ _ _ => (N.of_nat (size (pending st)) < max_pending_requests st)%N
  | EvDisconnected _ => True
  | _ => False
  end.

Lemma spec_event_spares ev now sp sp2 changed :
  spec_wf sp → spares ev (concrete sp) →
  spec_event ev (spec_expire now sp).1 = Ok (sp2, changed) → changed = [].
Proof.
  intros Hwf Hroom Hev. destruct ev; try done; simpl in Hev.
  - assert (sp_max sp <=? len (entries (spec_expire now sp).1) = false)%N as E.
    { apply N.leb_gt. simpl in Hroom. rewrite list_to_map_size in Hroom by apply Hwf.
      unfold len, entries in *. simpl. rewrite <- filter_app.
      pose proof (length_filter (λ e, ¬ overdue now e) (delivered sp ++ waiting sp)). lia. }
    simpl in E. rewrite E in Hev. by simplify_eq.
  - case_decide; by simplify_eq.
Qed.

Lemma apply_spares ev now st st' es id :
  well_formed st → apply ev now st = (st', Ok es) → admissible ev st → spares ev st →
  (∀ p, pending st !! id = Some p → (now < deadline p)%N) → completions id es = 0.
Proof.
  intros (sp & -> & Hwf) Hap Hadm Hsp Hdue. apply completions_zero. intros r Hin.
  rewrite refine_apply in Hap by done.
  destruct (spec_apply ev now sp) as [sp' res] eqn:E. simpl in Hap. simplify_eq.
  destruct (apply_parts _ _ _ _ _ E) as (sp2 & changed & Hev & _ & ->).
  apply (spec_event_spares _ _ _ _ _ Hwf Hsp) in Hev as ->.
  rewrite app_nil_l in Hin. apply elem_of_app in Hin as [Hin|Hin].
  - apply elem_of_expire in Hin as (k & p & Hp & Hd & [[= <- ->]|(? & ? & _ & ?)]%elem_of_abandon); [|done].
    apply (pending_entry sp id p Hwf), Hdue in Hp. unfold overdue, expired in Hd.
    apply N.leb_le in Hd. simpl in Hd. lia.
  - apply elem_of_reconcile in Hin. naive_solver.
Qed.

(** ** Admission *)

(** The request is pending, as it was submitted, and not due. *)
Definition kept (id : RequestId) (q : PendingRequest) (now : Instant) (st : BrokerState) : Prop :=
  (now < deadline q)%N ∧ ∃ p, pending st !! id = Some p ∧ same_request q p.

Lemma kept_due id q now st p : kept id q now st → pending st !! id = Some p → (now < deadline p)%N.
Proof. intros (Hlt & p' & Hp' & _ & _ & Hd & _) Hp. simplify_eq. by rewrite <- Hd. Qed.

Section admission.
Context (delivers : Handle → RemoteCommand → bool).

Lemma disconnect_keeps s now st st' es id q :
  well_formed st → apply (EvDisconnected s) now st = (st', Ok es) → kept id q now st →
  kept id q now st' ∧ completions id es = 0.
Proof.
  intros Hm E Hk. assert (completions id es = 0) as Hc.
  { eapply apply_spares; [done|exact E|done..|]. intros p. by eapply kept_due. }
  split; [|done]. destruct Hk as (Hlt & p & Hp & Hs). split; [done|].
  pose proof (apply_balance (EvDisconnected s) _ _ _ _ Hm I E id) as Hb. rewrite Hc in Hb.
  unfold holds in Hb. rewrite Hp, (decide_True (P := is_Some (Some p))) in Hb by done. simpl in Hb.
  case_decide as Hs'; [|lia]. destruct Hs' as [p' Hp']. exists p'. split; [done|].
  destruct (apply_pending st (EvDisconnected s) now st' es id p' Hm I E Hp') as [(p0 & Hp0 & Hs0)|(? & ? & ? & ? & ? & ? & ? & _)];
    [|done]. simplify_eq. unfold same_request in *. intuition congruence.
Qed.

Lemma execute_loop_admits O fuel es now a a' acts id q :
  coherent O es a → execute_loop delivers fuel es now a = Some (a', acts) →
  kept id q now (state a) → completions id es = 0 → kept id q now (state a').
Proof.
  revert es a acts. induction fuel as [|fuel IH]; intros [|e es] a acts Hco; simpl;
    try (by intros [= <- <-]).
  destruct (execute_one delivers e now a) as [[a1 acts1] more] eqn:E.
  destruct (execute_loop delivers fuel (es ++ more) now a1) as [[a2 acts2]|] eqn:E2; [|done].
  intros [= <- <-] Hk Hc. pose proof (execute_one_coherent _ _ _ _ _ _ _ _ _ Hco E) as Hco1.
  rewrite completions_cons in Hc.
  assert (kept id q now (state a1) ∧ completions id more = 0) as [Hk1 Hm].
  { destruct e as [s id' att req dl pkt ctx| | |id' r]; simpl in E;
      [|by simplify_eq..|destruct (waiters a !! id'); by simplify_eq].
    destruct (send_remote _ _ _ _) as [acts0 []]; [by simplify_eq|].
    destruct (apply (EvDisconnected s) now (state a)) as [st [es'|]] eqn:Ea; simplify_eq; simpl.
    - by eapply disconnect_keeps; [apply Hco|..].
    - apply apply_refused in Ea as (? & ? & ? & _). done. }
  eapply IH; [exact Hco1|exact E2|done|]. rewrite completions_app. lia.
Qed.

(** A submission that finds room. *)
Lemma submit_kept id pkt ctx dl req dlts now st st' es :
  well_formed st → admissible (EvSubmit id pkt ctx dl req dlts) st →
  (N.of_nat (size (pending st)) < max_pending_requests st)%N → (now < dl)%N →
  apply (EvSubmit id pkt ctx dl req dlts) now st = (st', Ok es) →
  ∃ q, kept id q now st' ∧ completions id es = 0
    ∧ packet q = pkt ∧ context q = ctx ∧ deadline q = dl.
Proof.
  intros Hm Hadm Hroom Hlt E. pose proof Hadm as [Hnone _].
  assert (completions id es = 0) as Hc
    by (eapply apply_spares; [done|exact E|done..|]; rewrite Hnone; done).
  pose proof (apply_balance _ _ _ _ _ Hm Hadm E id) as Hb. rewrite Hc in Hb.
  unfold holds in Hb. simpl in Hb. rewrite (decide_True (P := id = id)) in Hb by done.
  case_decide as Hp; [|lia]. destruct Hp as [p Hp].
  destruct (apply_pending _ _ _ _ _ _ _ Hm Hadm E Hp)
    as [(p0 & Hp0 & _)|(? & ? & ? & ? & ? & seq & [= <- <- <- <- <-] & Hs)]; [congruence|].
  eexists. split_and!; [split; [|by exists p]|..]; done.
Qed.

(** A request that finds room. *)
Lemma room_admits O id ab now sys r l l' acts :
  coherent O [] (actor l) → fresh_input (InLocal id ab now sys r) l →
  (0 < request_timeout (config (actor l)))%N → running l' = true →
  (N.of_nat (size (pending (state (actor l)))) < max_pending_requests (state (actor l)))%N →
  run_broker_step delivers (InLocal id ab now sys r) l = Some (l', acts) →
  waiters (actor l') !! id = Some {| response := req_response r; cancellation := ab |}
  ∧ ∃ p, pending (state (actor l')) !! id = Some p
      ∧ packet p = req_packet r ∧ context p = req_context r
      ∧ deadline p = (now + request_timeout (config (actor l)))%N.
Proof.
  intros Hco Hfr Ht Hrun Hroom Hst. pose proof (step_coherent _ _ _ _ _ _ Hfr Hco Hst Hrun) as (O' & Hco' & _).
  apply local_step in Hst as [_ [(_ & _ & Ha)|(_ & Hf & _)]]; [|congruence].
  set (w := {| response := _; cancellation := _ |}).
  pose proof (coherent_submit O id w (req_packet r) (req_context r)
    (now + request_timeout (config (actor l))) (unix_milliseconds sys)
    (unix_milliseconds (sys + Z.of_N (request_timeout (config (actor l)))))
    (actor l) Hco (proj1 Hfr) (proj2 Hfr)) as Hrd.
  pose proof (actor_apply_only _ _ _ _ _ _ Ha) as [Hw _ _].
  unfold actor_apply, submit_event in Ha.
  destruct (apply _ now _) as [st [es|]] eqn:E; [|apply apply_refused in E; naive_solver].
  assert (now < now + request_timeout (config (actor l)))%N as Hlt by lia.
  destruct (submit_kept _ _ _ _ _ _ _ _ _ _ (proj1 Hrd) (proj1 (proj2 Hrd)) Hroom Hlt E)
    as (q & Hk & Hc & <- & <- & Hq).
  pose proof (apply_coherent _ _ _ _ _ _ Hrd E) as Hco1.
  destruct (execute_loop_admits O _ _ _ _ _ _ id q Hco1 Ha Hk Hc) as (_ & p & Hp & E1 & E2 & Hd & _).
  split; [|exists p; by rewrite <- Hd].
  apply coherent_settled in Hco' as (_ & _ & Hwt). specialize (Hwt id).
  unfold waits, holds in Hwt. rewrite Hp, (decide_True (P := is_Some (Some p))) in Hwt by done.
  case_decide as Hs; [|lia]. destruct Hs as [w' Hw']. rewrite Hw'.
  eapply lookup_weaken in Hw; [|exact Hw']. simpl in Hw. by rewrite lookup_insert_eq in Hw.
Qed.
End admission.
