(* ===== verification/Protocol.v ===== *)
(** * Protocol: the remote client's application messages

    Models [crates/server/src/remote/protocol.rs]: the messages exchanged with
    the paired client, their validation, and the versioned envelope.

    The encodings come from other crates ([rmp_serde], [http], [base64],
    [p256]): they are the operations of the class [RemoteCodecs]. *)

From S2P Require Import Prelude Bytes Packet Assoc BrokerModel BrokerTask.

Definition VERSION : N := 1.
Definition MAX_LABEL_LENGTH : N := 128.
Definition MAX_CREDENTIAL_LENGTH : N := 128.
Definition MAX_PUSH_ENDPOINT_LENGTH : N := 4096.
Definition P256DH_LENGTH : N := 65.
Definition AUTH_SECRET_LENGTH : N := 16.
Definition MAX_MESSAGE_OVERHEAD : N := 32 * 1024.
Definition MAX_IDENTITIES : N := 64.
Definition MAX_IDENTITY_KEY_BLOB_LENGTH : N := 16 * 1024.
Definition MAX_IDENTITY_COMMENT_LENGTH : N := 1024.
Definition MAX_IDENTITIES_ANSWER_LENGTH : N := 256 * 1024.

(** ** Messages *)

(** Messages accepted from a remote client. *)
Inductive ClientMessage :=
| PairRequest (label : rstring)
| Authenticate (client_id : Uuid) (credential : bytes)
| AgentReady
| AgentLocked
| AgentResponse (request_id : RequestId) (attempt : N) (packet : bytes)
| SetPushSubscription (endpoint : rstring) (expiration_time : option N) (p256_dh auth : rstring)
| SetIdentities (identities : list AgentIdentity)
| Pong.

(** Messages sent to a remote client. *)
Inductive ServerMessage :=
| Paired (server_id client_id : Uuid) (credential : bytes) (session_id : SessionId)
    (vapid_public_key : bytes)
| Authenticated (server_id : Uuid) (session_id : SessionId) (vapid_public_key : bytes)
| Rejected
| AgentRequest (request_id : RequestId) (attempt requested_at deadline : N) (packet : bytes)
    (context : option RequestContext)
| CancelRequest (request_id : RequestId) (attempt : N)
| Ping.

Inductive ProtocolError :=
| UnsupportedVersion (version : N)
| InvalidMessage
| DecodeError
| EncodeError.

#[export] Instance ClientMessage_eq_dec : EqDecision ClientMessage.
Proof. solve_decision. Defined.
#[export] Instance ServerMessage_eq_dec : EqDecision ServerMessage.
Proof. solve_decision. Defined.

(** [From<RemoteCommand> for ServerMessage] *)
Definition server_message (command : RemoteCommand) : ServerMessage :=
  match command with
  | RemoteRequest id attempt requested_at deadline packet context =>
      AgentRequest id attempt requested_at deadline packet context
  | RemoteCancel id attempt => CancelRequest id attempt
  end.

(** ** Encodings of other crates *)

(** A parsed [http::Uri], as far as it is inspected. *)
Record Uri := {
  scheme_str : option rstring;
  authority : option rstring;
}.

Class RemoteCodecs := {
  (** [rmp_serde::from_slice::<Envelope<ClientMessage>>] *)
  from_slice : bytes → option (N * ClientMessage);
  (** [rmp_serde::to_vec_named(&Envelope { version, message })] *)
  to_vec_named : N → ServerMessage → option bytes;
  (** [str::parse::<Uri>] *)
  parse_uri : rstring → option Uri;
  (** [URL_SAFE_NO_PAD.decode] *)
  base64_decode : rstring → option bytes;
  (** [PublicKey::from_sec1_bytes(..).is_ok()] *)
  is_public_key : bytes → bool;
}.

(** ** Validation *)

Section protocol.
Context `{C : RemoteCodecs} `{L : SshAgentLib}.

(** [Result::is_ok_and] / [Option] counterpart. *)
Definition is_some_and {A} (o : option A) (f : A → bool) : bool :=
  match o with Some a => f a | None => false end.

Definition valid_identity (identity : AgentIdentity) : bool :=
  negb (bool_decide (key_blob identity = []))
  && (len (key_blob identity) <=? MAX_IDENTITY_KEY_BLOB_LENGTH)%N
  && (len (comment identity) <=? MAX_IDENTITY_COMMENT_LENGTH)%N.

Definition valid_identities (identities : list AgentIdentity) : bool :=
  (len identities <=? MAX_IDENTITIES)%N
  && forallb valid_identity identities
  && is_some_and (ok (identities_answer identities))
       (λ answer, (len answer <=? MAX_IDENTITIES_ANSWER_LENGTH)%N).

Definition valid_push_endpoint (endpoint : rstring) : bool :=
  if bool_decide (endpoint = []) || (MAX_PUSH_ENDPOINT_LENGTH <? len endpoint)%N then false
  else
    is_some_and (parse_uri endpoint)
      (λ uri, bool_decide (scheme_str uri = Some (byte_string "https"))
              && bool_decide (authority uri ≠ None)).

Definition valid_p256dh (value : rstring) : bool :=
  if (128 <? len value)%N then false
  else
    is_some_and (base64_decode value)
      (λ b, (len b =? P256DH_LENGTH)%N && is_public_key b).

Definition valid_auth_secret (value : rstring) : bool :=
  (len value <=? 64)%N
  && is_some_and (base64_decode value) (λ b, (len b =? AUTH_SECRET_LENGTH)%N).

(** [ClientMessage::validate] *)
Definition validate (message : ClientMessage) : result unit ProtocolError :=
  match message with
  | PairRequest label =>
      if bool_decide (label = []) || (MAX_LABEL_LENGTH <? len label)%N
      then Err InvalidMessage else Ok tt
  | Authenticate _ credential =>
      if bool_decide (credential = []) || (MAX_CREDENTIAL_LENGTH <? len credential)%N
      then Err InvalidMessage else Ok tt
  | SetPushSubscription endpoint _ p256_dh auth =>
      if negb (valid_push_endpoint endpoint) || negb (valid_p256dh p256_dh)
         || negb (valid_auth_secret auth)
      then Err InvalidMessage else Ok tt
  | SetIdentities identities =>
      if negb (valid_identities identities) then Err InvalidMessage else Ok tt
  | _ => Ok tt
  end.

(** [decode] *)
Definition decode (frame : bytes) : result ClientMessage ProtocolError :=
  let? (version, message) := ok_or (from_slice frame) DecodeError in
  if (version =? VERSION)%N then Ok message else Err (UnsupportedVersion version).

(** [decode_client] *)
Definition decode_client (frame : bytes) : result ClientMessage ProtocolError :=
  let? message := decode frame in
  let? _ := validate message in
  Ok message.

(** [encode_server] *)
Definition encode_server (message : ServerMessage) : result bytes ProtocolError :=
  ok_or (to_vec_named VERSION message) EncodeError.

(** ** Properties *)

(** What an accepted message is bounded by. *)
Definition within_limits (message : ClientMessage) : Prop :=
  match message with
  | PairRequest label => label ≠ [] ∧ (len label ≤ 128)%N
  | Authenticate _ credential => credential ≠ [] ∧ (len credential ≤ 128)%N
  | SetPushSubscription endpoint _ p256_dh auth =>
      (len endpoint ≤ 4096)%N ∧ (len p256_dh ≤ 128)%N ∧ (len auth ≤ 64)%N
      ∧ (∃ uri, parse_uri endpoint = Some uri ∧ scheme_str uri = Some (byte_string "https"))
      ∧ (∃ key, base64_decode p256_dh = Some key ∧ len key = 65%N ∧ is_public_key key = true)
      ∧ (∃ secret, base64_decode auth = Some secret ∧ len secret = 16%N)
  | SetIdentities identities =>
      (len identities ≤ 64)%N
      ∧ Forall (λ i, (1 ≤ len (key_blob i) ≤ 16384)%N ∧ (len (comment i) ≤ 1024)%N) identities
      ∧ validate_identities identities = Ok tt
      ∧ ∃ answer, identities_answer identities = Ok answer ∧ (len answer ≤ 262144)%N
  | _ => True
  end.

Lemma is_some_and_true {A} (o : option A) f :
  is_some_and o f = true ↔ ∃ a, o = Some a ∧ f a = true.
Proof. destruct o; naive_solver. Qed.

Lemma ok_Some {A E} (r : result A E) a : ok r = Some a ↔ r = Ok a.
Proof. destruct r; naive_solver. Qed.

Lemma length_guard (l : bytes) (n : N) :
  bool_decide (l = []) || (n <? len l)%N = false ↔ l ≠ [] ∧ (len l ≤ n)%N.
Proof. rewrite orb_false_iff, bool_decide_eq_false, N.ltb_ge. done. Qed.

Lemma answer_validates identities answer :
  identities_answer identities = Ok answer → validate_identities identities = Ok tt.
Proof.
  unfold identities_answer, validate_identities.
  destruct (identities_response identities) as [cs|]; [|done]. cbn [try_bind].
  by destruct (response_payload_length cs).
Qed.

Lemma valid_identities_limits identities :
  valid_identities identities = true → within_limits (SetIdentities identities).
Proof.
  unfold valid_identities. rewrite !andb_true_iff, N.leb_le, is_some_and_true.
  intros [[Hn Hall%Is_true_true%forallb_True] (answer & Ha%ok_Some & Hl%N.leb_le)]. cbn. split_and!; [done| | |].
  - eapply Forall_impl; [exact Hall|]. intros i Hi%Is_true_true. unfold valid_identity in Hi.
    rewrite !andb_true_iff, negb_true_iff, bool_decide_eq_false, !N.leb_le in Hi.
    destruct Hi as [[Hne Hk] Hc]. unfold len in *.
    destruct (key_blob i); [done|]. unfold MAX_IDENTITY_KEY_BLOB_LENGTH, MAX_IDENTITY_COMMENT_LENGTH in *.
    cbn [length] in *. lia.
  - by eapply answer_validates.
  - by exists answer.
Qed.

Lemma valid_push_limits endpoint t p256_dh auth :
  valid_push_endpoint endpoint = true → valid_p256dh p256_dh = true →
  valid_auth_secret auth = true → within_limits (SetPushSubscription endpoint t p256_dh auth).
Proof.
  unfold valid_push_endpoint, valid_p256dh, valid_auth_secret. intros He Hp Ha.
  destruct (bool_decide (endpoint = []) || _) eqn:Eg; [done|]. rewrite length_guard in Eg. destruct Eg as [_ Eg].
  destruct (N.ltb_spec 128 (len p256_dh)); [done|].
  apply andb_true_iff in Ha as [Ha1%N.leb_le (secret & Hs & Hl%N.eqb_eq)%is_some_and_true].
  apply is_some_and_true in Hp as (key & Hk & [Hkl%N.eqb_eq Hkp]%andb_true_iff).
  apply is_some_and_true in He as (uri & Hu & [Hsch _]%andb_true_iff).
  apply bool_decide_eq_true in Hsch. cbn. unfold MAX_PUSH_ENDPOINT_LENGTH in *.
  split_and!; [done|done|done|by exists uri|by exists key|by exists secret].
Qed.

Lemma decode_client_limits frame message :
  decode_client frame = Ok message →
  from_slice frame = Some (VERSION, message) ∧ within_limits message.
Proof.
  unfold decode_client, decode. destruct (from_slice frame) as [[v m]|]; [|done].
  cbn [ok_or try_bind]. destruct (N.eqb_spec v VERSION) as [->|]; [|done]. cbn [try_bind].
  destruct (validate m) as [[]|] eqn:Ev; [|done]. cbn [try_bind]. intros [= <-]. split; [done|].
  unfold validate in Ev. destruct m; try done.
  - case_match eqn:Eg; [done|]. by rewrite length_guard in Eg.
  - case_match eqn:Eg; [done|]. by rewrite length_guard in Eg.
  - case_match eqn:Eg; [done|]. apply orb_false_iff in Eg as [[E1 E2]%orb_false_iff E3].
    apply negb_false_iff in E1, E2, E3. by apply valid_push_limits.
  - case_match eqn:Eg; [done|]. apply negb_false_iff in Eg. by apply valid_identities_limits.
Qed.
End protocol.
