(* ===== verification/Session.v ===== *)
(** * Session: one remote client's WebSocket

    Models [crates/server/src/remote/session.rs]: the handshake that pairs or
    authenticates the first message and claims the broker's remote slot, and
    the loop that adapts the socket to the broker until either side ends it.

    The pairing boundary is the class [PairingAuthority], the trait of the
    same name; [Pairing]'s service is its instance.  The broker is reached
    through commands: the session's actions are the frames it sends and the
    commands it puts in the broker's mailbox.  What the socket, the broker's
    replies, the timer and the signals do are inputs. *)

From S2P Require Import Prelude Bytes Packet Assoc BrokerModel BrokerTask BrokerHandle Pairing Protocol.

(** ** Boundaries *)

Class PairingAuthority := {
  Authority : Type;
  AuthorityEnv : Type;
  authority_pair : AuthorityEnv → rstring → Authority →
    Authority * result Authorization AuthorizationError;
  authority_authenticate : AuthorityEnv → Uuid → bytes → Authority →
    Authority * result Authorization AuthorizationError;
  authority_set_push_subscription : AuthorityEnv → Uuid → PushSubscription → Authority →
    Authority * result unit AuthorizationError;
  authority_set_identities : AuthorityEnv → Uuid → list AgentIdentity → Authority →
    Authority * result unit AuthorizationError;
}.

(** What the runtime supplies to one operation of the pairing service. *)
Record ServiceEnv `{S : PairingStore} := {
  env_faults : Faults;
  env_fresh : Uuid;
  env_credential : option bytes;
  env_time : Z;
}.

(** [impl PairingAuthority for PairingService] *)
Definition service_authority (S : PairingStore) (D : Digest) (L : SshAgentLib) :
    PairingAuthority :=
  {| Authority := PairingService; AuthorityEnv := ServiceEnv;
     authority_pair := λ e label s,
       pair (env_faults e) (env_fresh e) (env_credential e) (env_time e) label s;
     authority_authenticate := λ e id credential s,
       authenticate (env_faults e) (env_time e) id credential s;
     authority_set_push_subscription := λ e id p s, set_push_subscription (env_faults e) id p s;
     authority_set_identities := λ e id ids s, set_identities (env_faults e) id ids s |}.

(** An axum WebSocket message. *)
Inductive Message :=
| Binary (frame : bytes)
| Text
| WsPing
| WsPong
| Close.

(** What a session does to the world. *)
Inductive SessionAction :=
| Send (message : ServerMessage)
| ToBroker (command : Command).

Section session.
Context `{A : PairingAuthority} `{C : RemoteCodecs} `{L : SshAgentLib}.

(** ** The handshake *)

(** [receive_client]: the first message, if it is a valid binary frame. *)
Definition receive_client (received : option Message) : option ClientMessage :=
  match received with
  | Some (Binary frame) => ok (decode_client frame)
  | _ => None
  end.

Definition handshake_response (authorization : Authorization) (session_id : SessionId)
    (vapid_public_key : bytes) : ServerMessage :=
  match authorization with
  | Pairing.Paired server_id client_id credential =>
      Paired server_id client_id credential session_id vapid_public_key
  | Pairing.Authenticated server_id _ =>
      Authenticated server_id session_id vapid_public_key
  end.

(** Send a message if it can be encoded. *)
Definition send (message : ServerMessage) : list SessionAction :=
  if is_ok (encode_server message) then [Send message] else [].
Definition send_rejected : list SessionAction := send Rejected.

(** The first message's authorization: [None] when it is not a handshake. *)
Definition authorize (env : AuthorityEnv) (message : ClientMessage) (a : Authority) :
    Authority * option (result Authorization AuthorizationError) :=
  match message with
  | PairRequest label => let '(a, r) := authority_pair env label a in (a, Some r)
  | Authenticate id credential =>
      let '(a, r) := authority_authenticate env id credential a in (a, Some r)
  | _ => (a, None)
  end.

(** A session that has passed its handshake. *)
Record Established := {
  session_id : SessionId;
  client_id : Uuid;
}.

(** [serve] up to [run_authenticated]: what the socket received, how the
    broker answered [connect_remote], and whether the response could be
    sent. *)
Definition serve (env : AuthorityEnv) (received : option Message)
    (connected : result SessionId BrokerError) (sent : bool) (vapid_public_key : bytes)
    (a : Authority) : Authority * list SessionAction * option Established :=
  match receive_client received with
  | None => (a, [], None)
  | Some message =>
      match authorize env message a with
      | (a, None) => (a, send_rejected, None)
      | (a, Some (Err _)) => (a, send_rejected, None)
      | (a, Some (Ok authorization)) =>
          match connected with
          | Err BrokerRemoteAlreadyConnected => (a, send_rejected, None)
          | Err _ => (a, [], None)
          | Ok session =>
              let response := handshake_response authorization session vapid_public_key in
              if is_ok (encode_server response) && sent then
                (a, [Send response],
                 Some {| session_id := session; client_id := authorized_client authorization |})
              else (a, [ToBroker (CmdDisconnected session)], None)
          end
      end
  end.

(** ** The authenticated session *)

(** [handle_client_message]: the authority and the pong flag afterwards, what
    was sent to the broker, and whether the session goes on.  [accepted] says
    whether the broker's mailbox takes the command. *)
Definition handle_client_message (env : AuthorityEnv) (message : Message) (accepted : bool)
    (e : Established) (awaiting_pong : bool) (a : Authority) :
    Authority * bool * list SessionAction * bool :=
  let told (sent : list Command * result unit BrokerError) :=
    (a, awaiting_pong, ToBroker <$> sent.1, is_ok sent.2) in
  match message with
  | Binary frame =>
      match decode_client frame with
      | Err _ => (a, awaiting_pong, [], false)
      | Ok AgentReady => told (remote_ready accepted (session_id e))
      | Ok AgentLocked => told (remote_locked accepted (session_id e))
      | Ok (AgentResponse request_id attempt packet) =>
          told (remote_response accepted (session_id e) request_id attempt packet)
      | Ok Pong => (a, false, [], true)
      | Ok (SetPushSubscription endpoint expiration_time p256_dh auth) =>
          let subscription :=
            {| endpoint := endpoint; expiration_time := expiration_time; p256dh := p256_dh;
               auth := auth |} in
          let '(a, r) := authority_set_push_subscription env (client_id e) subscription a in
          (a, awaiting_pong, [], is_ok r)
      | Ok (SetIdentities identities) =>
          let '(a, r) := authority_set_identities env (client_id e) identities a in
          (a, awaiting_pong, [], is_ok r)
      | Ok (PairRequest _) | Ok (Authenticate _ _) => (a, awaiting_pong, [], false)
      end
  | WsPing | WsPong => (a, awaiting_pong, [], true)
  | Text | Close => (a, awaiting_pong, [], false)
  end.

(** What completes in one iteration of [run_authenticated]'s [select!]. *)
Inductive SessionInput :=
| FromBroker (command : option RemoteCommand) (sent : bool)
| FromClient (env : AuthorityEnv) (message : option Message) (accepted : bool)
| Heartbeat (sent : bool)
| Revoked
| Shutdown.

Record Session := {
  established : Established;
  authority_state : Authority;
  awaiting_pong : bool;
  alive : bool;
}.

Definition start_session (e : Established) (a : Authority) : Session :=
  {| established := e; authority_state := a; awaiting_pong := false; alive := true |}.

Definition set_pong (b : bool) (s : Session) : Session :=
  {| established := established s; authority_state := authority_state s; awaiting_pong := b;
     alive := alive s |}.

(** Leave the loop: the session is taken from the broker. *)
Definition end_session (acts : list SessionAction) (s : Session) : Session * list SessionAction :=
  ({| established := established s; authority_state := authority_state s;
      awaiting_pong := awaiting_pong s; alive := false |},
   acts ++ [ToBroker (CmdDisconnected (session_id (established s)))]).

(** One iteration; [None] once the session has ended. *)
Definition run_authenticated_step (i : SessionInput) (s : Session) :
    option (Session * list SessionAction) :=
  if negb (alive s) then None
  else
    Some
      match i with
      | FromBroker None _ => end_session [] s
      | FromBroker (Some command) sent =>
          let message := server_message command in
          if is_ok (encode_server message) && sent then (s, [Send message])
          else end_session [] s
      | FromClient _ None _ => end_session [] s
      | FromClient env (Some message) accepted =>
          let '(a, pong, acts, continue) :=
            handle_client_message env message accepted (established s) (awaiting_pong s)
              (authority_state s) in
          let s := {| established := established s; authority_state := a;
                      awaiting_pong := pong; alive := true |} in
          if continue then (s, acts) else end_session acts s
      | Heartbeat sent =>
          if is_ok (encode_server Ping) && negb (awaiting_pong s) && sent then
            (set_pong true s, [Send Ping])
          else end_session [] s
      | Revoked | Shutdown => end_session [] s
      end.

Fixpoint run_authenticated (inputs : list SessionInput) (s : Session) :
    option (Session * list SessionAction) :=
  match inputs with
  | [] => Some (s, [])
  | i :: rest =>
      match run_authenticated_step i s with
      | None => None
      | Some (s, acts) =>
          match run_authenticated rest s with
          | None => None
          | Some (s, acts') => Some (s, acts ++ acts')
          end
      end
  end.
End session.
