(* ===== verification/SessionProps.v ===== *)
(** * SessionProps: what a remote session guarantees

    Theorems about [Protocol] and [Session]: accepted messages are within
    their limits, a session exists only after authorization and always leaves
    the broker, it acts only for its own session and client, and a client that
    stops answering is disconnected. *)

From S2P Require Import Prelude Bytes Packet ContextCodecProps PacketProps Assoc BrokerModel BrokerTask Pairing PairingProps Protocol Session.

Section session.
Context `{A : PairingAuthority} `{C : RemoteCodecs} `{L : SshAgentLib}.

(** An accepted client message is within the protocol's limits.  Whatever
    the frame, a message that is decoded carries the supported version, a label
    or credential of 1 to 128 bytes, an HTTPS push endpoint with a well-formed
    key and secret, or at most 64 identities of bounded size whose answer
    exists, fits in 256 KiB and passes the validation of the pairing
    service. *)
Theorem accepted_messages_within_limits frame message :
  decode_client frame = Ok message →
  from_slice frame = Some (VERSION, message) ∧ within_limits message.
Proof. apply decode_client_limits. Qed.

(** ** The handshake *)

(** The first message was authorized. *)
Definition authorized_by (env : AuthorityEnv) (received : option Message) (a : Authority)
    (authorization : Authorization) : Prop :=
  ∃ message, receive_client received = Some message
    ∧ (authorize env message a).2 = Some (Ok authorization).

(** C30: a session is established only for an authorized client on the
    broker's remote slot.  It is established exactly when the first message is
    a valid pairing or authentication request that the authority accepts, the
    broker grants a session, and the response is encoded and sent; then the
    client has received exactly that response, and the session is bound to the
    authorized client.  If the broker granted a session to an authorized client
    and the response did not reach it, the session is given back to the broker
    and nothing else is done.  A client that sent a message and was not
    authorized, or found the slot taken, is told [Rejected] (if that can be
    encoded) and nothing else; in all other cases nothing is sent.  The authority
    has done the authorization, and nothing without a message. *)
Theorem handshake_outcome env received connected sent key a a' acts o :
  serve env received connected sent key a = (a', acts, o) →
  (∀ e, o = Some e →
     ∃ authorization, authorized_by env received a authorization
       ∧ connected = Ok (session_id e) ∧ sent = true
       ∧ client_id e = authorized_client authorization
       ∧ acts = [Send (handshake_response authorization (session_id e) key)])
  ∧ (∀ authorization session, authorized_by env received a authorization →
       connected = Ok session →
       if is_ok (encode_server (handshake_response authorization session key)) && sent
       then is_Some o
       else o = None ∧ acts = [ToBroker (CmdDisconnected session)])
  ∧ (∀ message, receive_client received = Some message →
       (∀ authorization, ¬ authorized_by env received a authorization)
       ∨ connected = Err BrokerRemoteAlreadyConnected →
       o = None ∧ acts = if is_ok (encode_server Rejected) then [Send Rejected] else [])
  ∧ (∀ authorization e, authorized_by env received a authorization →
       connected = Err e → e ≠ BrokerRemoteAlreadyConnected → o = None ∧ acts = [])
  ∧ (∀ message, receive_client received = Some message → a' = (authorize env message a).1)
  ∧ (receive_client received = None → a' = a ∧ o = None ∧ acts = []).
Proof.
  unfold authorized_by, serve, send_rejected, send.
  destruct (receive_client received) as [message|] eqn:Er; [|intros [= <- <- <-]; naive_solver].
  destruct (authorize env message a) as [a1 r] eqn:Ea.
  assert (∀ au, (∃ m, Some message = Some m ∧ (authorize env m a).2 = Some (Ok au))
                ↔ r = Some (Ok au)) as Hau.
  { intros au. split; [intros (m & [= <-] & Hm)|intros ->; exists message]; by rewrite Ea in *. }
  assert (∀ m, Some message = Some m → a1 = (authorize env m a).1) as Ha1
    by (intros m [= <-]; by rewrite Ea).
  setoid_rewrite Hau. destruct r as [[au|x]|].
  - destruct connected as [session|err].
    + destruct (is_ok (encode_server (handshake_response au session key)) && sent) eqn:Hs;
        intros [= <- <- <-].
      * pose proof (proj2 (andb_prop _ _ Hs)) as ->.
        split_and!; try done; intros; simplify_eq; [by eexists|by rewrite Hs|naive_solver].
      * split_and!; try done; intros; simplify_eq; [by rewrite Hs|naive_solver].
    + destruct err; case_match; intros [= <- <- <-]; split_and!; naive_solver.
  - case_match; intros [= <- <- <-]; split_and!; naive_solver.
  - case_match; intros [= <- <- <-]; split_and!; naive_solver.
Qed.

(** ** The session *)

(** The session a broker command is about. *)
Definition command_session (c : Command) : option SessionId :=
  match c with
  | CmdReady s | CmdLocked s | CmdDisconnected s | CmdResponse s _ _ _ => Some s
  | CmdConnect _ _ _ | CmdShutdown _ => None
  end.

(** An action of the session [e] that does not end it. *)
Definition ordinary (e : Established) (inputs : list SessionInput) (x : SessionAction) : Prop :=
  match x with
  | ToBroker c => command_session c = Some (session_id e) ∧ c ≠ CmdDisconnected (session_id e)
  | Send m => m = Ping ∨ ∃ c, FromBroker (Some c) true ∈ inputs ∧ m = server_message c
  end.

(** What a session has done by the time it is [s']: ordinary actions, and at the
    end its removal from the broker. *)
Definition acted (e : Established) (inputs : list SessionInput) (s' : Session)
    (acts : list SessionAction) : Prop :=
  ∃ acts0, Forall (ordinary e inputs) acts0
    ∧ acts = acts0 ++ (if alive s' then [] else [ToBroker (CmdDisconnected (session_id e))]).

Lemma handle_client_message_ordinary env message accepted e pong a a' pong' acts b inputs :
  handle_client_message env message accepted e pong a = (a', pong', acts, b) →
  Forall (ordinary e inputs) acts.
Proof.
  unfold handle_client_message. destruct accepted; repeat case_match; intros; simplify_eq/=;
    repeat constructor; cbn; done.
Qed.

(** A message that ends the session puts nothing into the broker's mailbox. *)
Lemma handle_client_message_stops env message accepted e pong a a' pong' acts :
  handle_client_message env message accepted e pong a = (a', pong', acts, false) → acts = [].
Proof.
  unfold handle_client_message. destruct accepted; repeat case_match; intros; by simplify_eq/=.
Qed.

(** The iteration that ends a session only removes it from the broker. *)
Lemma step_ending i s s' acts :
  run_authenticated_step i s = Some (s', acts) → alive s' = false →
  acts = [ToBroker (CmdDisconnected (session_id (established s)))].
Proof.
  unfold run_authenticated_step. destruct (alive s) eqn:Eal; [|done]. cbn [negb].
  intros [= Hs] Hal. destruct i as [[command|] sent|env [message|] accepted|sent| |];
    try (by injection Hs as <- <-).
  - destruct (_ && sent); injection Hs as <- <-; [congruence|done].
  - destruct (handle_client_message _ _ _ _ _ _) as [[[a pong] acts0] []] eqn:E;
      injection Hs as <- <-; [done|]. by apply handle_client_message_stops in E as ->.
  - destruct (_ && sent); injection Hs as <- <-; [|done]. cbn in Hal. congruence.
Qed.

Lemma step_acted i s s' acts :
  run_authenticated_step i s = Some (s', acts) →
  established s' = established s ∧ acted (established s) [i] s' acts.
Proof.
  unfold run_authenticated_step, acted. destruct (alive s) eqn:Eal; [|done]. cbn [negb].
  assert (∀ x, x ∈ [i] → x = i) as Hi by set_solver.
  destruct i as [[command|] sent|env [message|] accepted|sent| |].
  - destruct (encode_server (server_message command)) eqn:Ee; [destruct sent|];
      intros [= <- <-]; cbn; rewrite ?Eal; (split; [done|]).
    + exists [Send (server_message command)]. split; [|done]. constructor; [|constructor].
      right. exists command. split; [set_solver|done].
    + exists []. by split.
    + exists []. by split.
  - intros [= <- <-]. split; [done|]. exists []. by split.
  - destruct (handle_client_message _ _ _ _ _ _) as [[[a pong] acts0] continue] eqn:E.
    apply (handle_client_message_ordinary _ _ _ _ _ _ _ _ _ _
             [FromClient env (Some message) accepted]) in E.
    destruct continue; intros [= <- <-]; cbn; (split; [done|]).
    + exists acts0. by rewrite app_nil_r.
    + by exists acts0.
  - intros [= <- <-]. split; [done|]. exists []. by split.
  - destruct (encode_server Ping); [destruct (awaiting_pong s); [|destruct sent]|];
      intros [= <- <-]; cbn; rewrite ?Eal; (split; [done|]).
    + exists []. by split.
    + exists [Send Ping]. split; [|done]. constructor; [by left|constructor].
    + exists []. by split.
    + exists []. by split.
  - intros [= <- <-]. split; [done|]. exists []. by split.
  - intros [= <- <-]. split; [done|]. exists []. by split.
Qed.

Lemma ordinary_mono e inputs inputs' acts :
  inputs ⊆ inputs' → Forall (ordinary e inputs) acts → Forall (ordinary e inputs') acts.
Proof.
  intros Hsub H. eapply Forall_impl; [exact H|]. intros [m|c]; cbn; [|done].
  intros [|(c & Hc & ?)]; [by left|right]. exists c. by split; [apply Hsub|].
Qed.

Lemma run_acted inputs s s' acts :
  run_authenticated inputs s = Some (s', acts) → alive s = true →
  established s' = established s ∧ acted (established s) inputs s' acts.
Proof.
  revert s acts. induction inputs as [|i inputs IH]; intros s acts; cbn [run_authenticated].
  { intros [= <- <-] Hal. split; [done|]. exists []. by rewrite Hal. }
  destruct (run_authenticated_step i s) as [[s1 acts1]|] eqn:E; [|done].
  destruct (run_authenticated inputs s1) as [[s2 acts2]|] eqn:E2; [|done].
  intros [= <- <-] Hal. apply step_acted in E as (He & acts0 & Ho & ->).
  destruct (alive s1) eqn:Eal1.
  - destruct (IH s1 acts2 E2 Eal1) as (He2 & acts0' & Ho2 & ->).
    rewrite He in *. split; [congruence|]. exists (acts0 ++ acts0').
    rewrite app_nil_r, app_assoc. split; [|done]. apply Forall_app. split.
    + eapply ordinary_mono; [|exact Ho]. set_solver.
    + eapply ordinary_mono; [|exact Ho2]. set_solver.
  - assert (inputs = [] ∧ s2 = s1 ∧ acts2 = []) as (-> & -> & ->).
    { destruct inputs as [|i2 inputs]; cbn [run_authenticated] in E2; [by simplify_eq|].
      unfold run_authenticated_step in E2. by rewrite Eal1 in E2. }
    split; [done|]. exists acts0. rewrite app_nil_r, Eal1. by split.
Qed.

(** A session speaks only for itself and always leaves the broker.
    Whatever the client, the broker and the signals do, every command a session
    sends to the broker names the session the broker granted, every message it
    sends to the client is a ping or one of the broker's commands to it, and it
    tells the broker that it is gone exactly when it ends, as its last
    action. *)
Theorem session_speaks_for_itself inputs e a s acts :
  run_authenticated inputs (start_session e a) = Some (s, acts) →
  established s = e
  ∧ ∃ acts0,
      acts = acts0 ++ (if alive s then [] else [ToBroker (CmdDisconnected (session_id e))])
      ∧ Forall (λ x, match x with
          | ToBroker c => command_session c = Some (session_id e)
                          ∧ c ≠ CmdDisconnected (session_id e)
          | Send m => m = Ping ∨ ∃ c, FromBroker (Some c) true ∈ inputs ∧ m = server_message c
          end) acts0.
Proof.
  intros H. apply run_acted in H as (He & acts0 & Ho & ->); [|done]. cbn in *.
  split; [done|]. exists acts0. split; [done|]. exact Ho.
Qed.

(** ** Heartbeats *)

(** An input by which the client does not answer a ping. *)
Definition not_a_pong (i : SessionInput) : Prop :=
  match i with
  | FromClient _ (Some (Binary frame)) _ => decode_client frame ≠ Ok Pong
  | _ => True
  end.

Lemma step_still_awaiting i s s' acts :
  run_authenticated_step i s = Some (s', acts) → not_a_pong i →
  awaiting_pong s = true → awaiting_pong s' = true.
Proof.
  unfold run_authenticated_step, handle_client_message, end_session.
  destruct (alive s); [|done]. cbn [negb]. intros Hs Hn Haw.
  destruct i as [[command|] sent|env [message|] accepted|sent| |]; cbn in *;
    repeat case_match; simplify_eq; cbn in *; done || congruence.
Qed.

Lemma run_app inputs1 inputs2 s :
  run_authenticated (inputs1 ++ inputs2) s
  = match run_authenticated inputs1 s with
    | None => None
    | Some (s1, acts1) =>
        match run_authenticated inputs2 s1 with
        | None => None
        | Some (s2, acts2) => Some (s2, acts1 ++ acts2)
        end
    end.
Proof.
  revert s. induction inputs1 as [|i inputs1 IH]; intros s; cbn [app run_authenticated].
  { by destruct (run_authenticated inputs2 s) as [[]|]. }
  destruct (run_authenticated_step i s) as [[s1 acts1]|]; [|done]. rewrite IH.
  destruct (run_authenticated inputs1 s1) as [[s2 acts2]|]; [|done].
  destruct (run_authenticated inputs2 s2) as [[s3 acts3]|]; [|done]. by rewrite app_assoc.
Qed.

Lemma run_still_awaiting inputs s s' acts :
  run_authenticated inputs s = Some (s', acts) → Forall not_a_pong inputs →
  awaiting_pong s = true → awaiting_pong s' = true.
Proof.
  revert s acts. induction inputs as [|i inputs IH]; intros s acts; cbn [run_authenticated].
  { by intros [= <- <-]. }
  destruct (run_authenticated_step i s) as [[s1 acts1]|] eqn:E; [|done].
  destruct (run_authenticated inputs s1) as [[s2 acts2]|] eqn:E2; [|done].
  intros [= <- <-] [Hn Hns]%Forall_cons Haw. eapply IH; [done..|].
  by eapply step_still_awaiting.
Qed.

Lemma heartbeat_step sent s s' acts :
  run_authenticated_step (Heartbeat sent) s = Some (s', acts) →
  alive s' = true → awaiting_pong s' = true.
Proof.
  unfold run_authenticated_step, end_session. destruct (alive s); [|done]. cbn [negb].
  case_match; intros; by simplify_eq.
Qed.

Lemma heartbeat_awaiting sent s s' acts :
  run_authenticated_step (Heartbeat sent) s = Some (s', acts) →
  awaiting_pong s = true → alive s' = false.
Proof.
  unfold run_authenticated_step. destruct (alive s); [|done]. cbn [negb]. intros Hs Haw.
  unfold end_session in Hs. case_match eqn:Ec; [|by simplify_eq].
  rewrite Haw in Ec. by rewrite andb_false_r in Ec.
Qed.

Lemma run_alive inputs s s' acts :
  run_authenticated inputs s = Some (s', acts) → inputs ≠ [] → alive s = true.
Proof.
  destruct inputs as [|i inputs]; [done|]. cbn [run_authenticated].
  unfold run_authenticated_step. by destruct (alive s).
Qed.

(** A client that stops answering is disconnected.  If between two
    heartbeats the client sends no pong, the second one ends the session and
    frees the broker's remote slot, whatever else happened in between. *)
Theorem silent_client_disconnected before between sent1 sent2 e a s acts :
  run_authenticated (before ++ Heartbeat sent1 :: between ++ [Heartbeat sent2])
    (start_session e a) = Some (s, acts) →
  Forall not_a_pong between →
  alive s = false ∧ last acts = Some (ToBroker (CmdDisconnected (session_id e))).
Proof.
  intros Hrun Hn. cut (alive s = false).
  { intros Hal. split; [done|].
    apply run_acted in Hrun as (_ & acts0 & _ & ->); [|done]. rewrite Hal. apply last_snoc. }
  rewrite run_app in Hrun.
  destruct (run_authenticated before _) as [[s0 acts0]|] eqn:E0; [|done].
  cbn [run_authenticated] in Hrun.
  destruct (run_authenticated_step (Heartbeat sent1) s0) as [[s1 acts1]|] eqn:E1; [|done].
  rewrite run_app in Hrun.
  destruct (run_authenticated between s1) as [[s2 acts2]|] eqn:E2; [|done].
  cbn [run_authenticated] in Hrun.
  destruct (run_authenticated_step (Heartbeat sent2) s2) as [[s3 acts3]|] eqn:E3; [|done].
  simplify_eq. assert (alive s2 = true) as Hal2.
  { unfold run_authenticated_step in E3. by destruct (alive s2). }
  assert (alive s1 = true) as Hal1.
  { destruct between as [|i between]; [cbn in E2; by simplify_eq|]. by eapply run_alive. }
  eapply heartbeat_awaiting; [exact E3|]. eapply run_still_awaiting; [done..|].
  by eapply heartbeat_step.
Qed.
End session.

(** ** A pairing that is refused after it succeeded *)

(** C31: a pairing can be refused after it succeeded.  When a client pairs while
    the broker's remote slot is still taken (a revoked session that has not
    ended yet), it is told [Rejected] although the
    service has recorded it: the credential is never sent, and no other client
    can pair until the pairing is cleared. *)
Theorem refused_pairing_keeps_slot `{S : PairingStore} `{D : Digest} `{C : RemoteCodecs}
    `{L : SshAgentLib} (env : ServiceEnv) frame label credential sent key s :
  decode_client frame = Ok (PairRequest label) → Pairing.client (Pairing.state s) = None →
  env_credential env = Some credential →
  (∀ next, (save (env_faults env) next (Pairing.store s)).2 = Ok tt) →
  let '(s', acts, established) :=
    serve (A := service_authority S D L) env (Some (Binary frame))
      (Err BrokerRemoteAlreadyConnected) sent key s in
  established = None
  ∧ (is_ok (encode_server Rejected) = true → acts = [Send Rejected])
  ∧ (∀ server id cr session k, Send (Paired server id cr session k) ∉ acts)
  ∧ slot (Pairing.state s') = Some (env_fresh env, sha256 credential, label, now (env_time env))
  ∧ ∀ f fresh cr time l, pair f fresh cr time l s' = (s', Err AlreadyPaired).
Proof.
  intros Hd Hc Hcr Hsave. unfold serve, receive_client. rewrite Hd. cbn [ok].
  unfold authorize. cbn [authority_pair service_authority]. unfold pair at 1.
  rewrite Hc, Hcr. unfold replace_state.
  specialize (Hsave {| Pairing.server_id := Pairing.server_id (Pairing.state s);
    Pairing.client := Some {| Pairing.client_id := env_fresh env;
      credential_hash := sha256 credential; Pairing.label := label;
      created_at := now (env_time env); last_seen_at := None; push_subscription := None;
      client_identities := None |} |}).
  destruct (save _ _ _) as [st r]. cbn in Hsave. subst r. cbn.
  unfold send_rejected, send. split_and!; try done; [by intros ->|].
  intros server id cr session k. case_match; set_solver.
Qed.

(** ** A concrete session *)

(** Codecs whose frames are one tag byte and perhaps a payload; the only base64
    texts are those of one key and one secret. *)
Definition sample_subscription : PushSubscription :=
  {| endpoint := byte_string "https://push"; expiration_time := None;
     p256dh := byte_string "key"; auth := byte_string "secret" |}.
Definition sample_remote : RemoteCodecs :=
  {| from_slice := λ frame,
       match frame with
       | [Byte.x00] => Some (1%N, Pong)
       | [Byte.x01] => Some (1%N, AgentReady)
       | Byte.x02 :: label => Some (1%N, PairRequest label)
       | Byte.x03 :: packet => Some (1%N, AgentResponse 1 1 packet)
       | [Byte.x04] => Some (1%N, SetIdentities [sample_identity])
       | [Byte.x05] =>
           let p := sample_subscription in
           Some (1%N, SetPushSubscription (endpoint p) (expiration_time p) (p256dh p) (auth p))
       | [Byte.x06] => Some (1%N, Authenticate 5 (byte_string "credential"))
       | _ => None
       end;
     to_vec_named := λ _ _, Some [];
     parse_uri := λ _, Some {| scheme_str := Some (byte_string "https"); authority := Some [] |};
     base64_decode := λ t,
       if decide (t = byte_string "key") then Some (replicate 65 Byte.x04)
       else if decide (t = byte_string "secret") then Some (replicate 16 Byte.x00)
       else None;
     is_public_key := λ _, true |}.
Definition sample_authority : PairingAuthority :=
  service_authority memory_store sample_digest sample_codecs.
Definition sample_env : AuthorityEnv (PairingAuthority := sample_authority) :=
  {| env_faults := (tt : Faults (PairingStore := memory_store)); env_fresh := 5;
     env_credential := Some (byte_string "credential"); env_time := 0 |}.
Definition pair_frame : bytes := Byte.x02 :: byte_string "phone".

Lemma accepted_messages_within_limits_witness :
  within_limits (C := sample_remote) (L := sample_codecs) (PairRequest (byte_string "phone")).
Proof.
  refine (proj2 (accepted_messages_within_limits (C := sample_remote) (L := sample_codecs)
    pair_frame _ _)). by vm_compute.
Defined.

Lemma refused_pairing_keeps_slot_witness :
  let '(s', acts, established) :=
    serve (A := sample_authority) (C := sample_remote) (L := sample_codecs) sample_env
      (Some (Binary pair_frame)) (Err BrokerRemoteAlreadyConnected) true [] sample_service in
  established = None
  ∧ (is_ok (encode_server (C := sample_remote) Rejected) = true → acts = [Send Rejected])
  ∧ (∀ server id cr session k, Send (Paired server id cr session k) ∉ acts)
  ∧ slot (Pairing.state s')
    = Some (5%N, sha256 (Digest := sample_digest) (byte_string "credential"),
            byte_string "phone", 0%N)
  ∧ ∀ f fresh cr time l,
      pair (S := memory_store) (D := sample_digest) f fresh cr time l s' = (s', Err AlreadyPaired).
Proof.
  refine (refused_pairing_keeps_slot (S := memory_store) (D := sample_digest)
    (C := sample_remote) (L := sample_codecs) sample_env pair_frame (byte_string "phone")
    (byte_string "credential") true [] sample_service _ _ _ _); by intros.
Defined.

Definition sample_established : Established := {| session_id := 100; client_id := 5 |}.
Definition sample_handshake :=
  serve (A := sample_authority) (C := sample_remote) (L := sample_codecs) sample_env
    (Some (Binary pair_frame)) (Ok 100%N) true [] sample_service.

Lemma handshake_outcome_witness :
  sample_handshake.2 = Some sample_established
  ∧ is_Some sample_handshake.2.
Proof.
  split; [by vm_compute|].
  refine (proj1 (proj2 (handshake_outcome (A := sample_authority) (C := sample_remote)
    (L := sample_codecs) sample_env (Some (Binary pair_frame)) (Ok 100%N) true [] sample_service
    sample_handshake.1.1 sample_handshake.1.2 sample_handshake.2 _))
    (Pairing.Paired 77 5 (byte_string "credential")) 100%N _ eq_refl); [by vm_compute|].
  exists (PairRequest (byte_string "phone")). split; by vm_compute.
Defined.

Definition sample_before : list (SessionInput (A := sample_authority)) :=
  [FromClient (A := sample_authority) sample_env (Some (Binary [Byte.x01])) true].
Definition sample_between : list (SessionInput (A := sample_authority)) :=
  [FromBroker (A := sample_authority) (Some (RemoteCancel 1 1)) true;
   FromClient (A := sample_authority) sample_env (Some WsPong) true].
Definition sample_session_run :=
  default (start_session sample_established (sample_service : Authority (PairingAuthority := sample_authority)), [])
    (run_authenticated (A := sample_authority) (C := sample_remote) (L := sample_codecs)
       (sample_before ++ Heartbeat (A := sample_authority) true :: sample_between
          ++ [Heartbeat (A := sample_authority) true])
       (start_session sample_established (sample_service : Authority (PairingAuthority := sample_authority)))).

Lemma silent_client_disconnected_witness : alive sample_session_run.1 = false.
Proof.
  refine (proj1 (silent_client_disconnected (A := sample_authority) (C := sample_remote)
    (L := sample_codecs) sample_before sample_between true true sample_established
    (sample_service : Authority (PairingAuthority := sample_authority))
    sample_session_run.1 sample_session_run.2 _ _)).
  - reflexivity.
  - repeat constructor.
Defined.

Lemma session_speaks_for_itself_witness :
  established sample_session_run.1 = sample_established.
Proof.
  refine (proj1 (session_speaks_for_itself (A := sample_authority) (C := sample_remote)
    (L := sample_codecs)
    (sample_before ++ Heartbeat (A := sample_authority) true :: sample_between
       ++ [Heartbeat (A := sample_authority) true]) sample_established
    (sample_service : Authority (PairingAuthority := sample_authority))
    sample_session_run.1 sample_session_run.2 _)).
  reflexivity.
Defined.
