(* ===== verification/ControlProps.v ===== *)
(** * ControlProps: clearing the pairing, from the operator to the session

    The operator's command reaches the pairing service and its result reaches
    the operator; a cleared client's sessions end. *)

From S2P Require Import Prelude Bytes Packet Assoc BrokerModel BrokerTask Pairing PairingProps Protocol Session SessionProps PacketProps Control.

(** ** The command *)

Section command.
Context `{S : PairingStore} `{!PairingStoreSpec S}.
Context `{F : Framing} `{!FramingSpec F}.
Context `{JR : Json ControlRequest} `{!JsonSpec JR}.
Context `{JA : Json ControlResponse} `{!JsonSpec JA}.
Context (describe : StoreError → rstring).

(** The replies fit in a frame. *)
Definition replies_fit : Prop :=
  ∀ m b, to_vec {| envelope_version := CONTROL_VERSION; message := m |} = Some b →
    (∃ had, m = PairingCleared had) ∨ (∃ e, m = ControlFailure (describe e)) →
    (len b ≤ MAX_FRAME_LENGTH)%N.
(** So does the request. *)
Definition request_fits : Prop :=
  ∀ b, to_vec {| envelope_version := CONTROL_VERSION; message := PairingClear |} = Some b →
    (len b ≤ MAX_FRAME_LENGTH)%N.

Lemma decode_encode {T} {J : Json T} {HJ : JsonSpec J} (m : T) b :
  control_encode m = Ok b → control_decode b = Ok m.
Proof.
  unfold control_encode, control_decode. intros H.
  destruct (to_vec _) as [b'|] eqn:E; simpl in H; [|done]. injection H as ->.
  by rewrite (from_to_vec _ _ E).
Qed.

Lemma encode_total {T} {J : Json T} {HJ : JsonSpec J} (m : T) :
  ∃ b, control_encode m = Ok b ∧ to_vec {| envelope_version := CONTROL_VERSION; message := m |} = Some b.
Proof. unfold control_encode. destruct (to_vec_total m) as [b ->]. by exists b. Qed.

Lemma frame_total b : (len b ≤ MAX_FRAME_LENGTH)%N → ∃ sent, frame MAX_FRAME_LENGTH b = Some sent.
Proof. intros Hb. apply frame_within; [done|]. done. Qed.

Lemma next_whole b sent : frame MAX_FRAME_LENGTH b = Some sent →
  next_frame MAX_FRAME_LENGTH sent = Some (Ok b).
Proof. intros H. rewrite <- (app_nil_r sent). by apply next_of_frame. Qed.

(** A message that fits reaches the other side as it was. *)
Lemma transmit {T} {J : Json T} {HJ : JsonSpec J} (m : T) :
  (∀ b, to_vec {| envelope_version := CONTROL_VERSION; message := m |} = Some b →
        (len b ≤ MAX_FRAME_LENGTH)%N) →
  ∃ b sent, control_encode m = Ok b ∧ frame MAX_FRAME_LENGTH b = Some sent
            ∧ next_frame MAX_FRAME_LENGTH sent = Some (Ok b) ∧ control_decode b = Ok m.
Proof.
  intros Hfit. destruct (encode_total m) as (b & He & Hb).
  destruct (frame_total b (Hfit b Hb)) as (sent & Hs).
  exists b, sent. split_and!; eauto using next_whole, decode_encode.
Qed.

(** What the service does when the operator asks to clear the pairing. *)
Lemma clear_spec f s :
  let '(s', r) := clear f s in
  match r with
  | Ok had =>
      had = bool_decide (is_Some (client (state s))) ∧ client (state s') = None
      ∧ server_id (state s') = server_id (state s)
      ∧ (had = true → identities s' = None ∧ load healthy (store s') = Ok (Some (state s')))
      ∧ (had = false → s' = s)
  | Err _ => state s' = state s ∧ identities s' = identities s ∧ revocations s' = revocations s
  end.
Proof.
  unfold clear. destruct (client (state s)) as [c|] eqn:Ec.
  2: { rewrite bool_decide_false by (intros [? ?]; done). done. }
  unfold replace_state. destruct (save f _ (store s)) as [st [[]|e]] eqn:Es; [|done].
  rewrite bool_decide_true by done. split_and!; try done. intros _. split; [done|].
  cbn. by apply save_ok in Es.
Qed.

(** C32: The operator's [pairing clear] and the server's handler compose: the
    command does exactly what [PairingService::clear] does and reports exactly
    its outcome.  On success nobody is paired any more, in memory and on disk,
    no identities are published, and the operator learns whether somebody was
    paired; when storage fails the pairing is unchanged and the operator gets
    the reason.  Bytes that are not this command leave the service unchanged. *)
Theorem operator_clears_pairing f s :
  replies_fit → request_fits →
  (∃ request,
    clear_request = Ok request ∧
    let '(s', reply) := handle_control_connection describe f request true s in
    let outcome := clear_pairing true true (λ _, reply_bytes reply) in
    match clear f s with
    | (s1, Ok had) =>
        s' = s1 ∧ outcome = Ok had ∧ had = bool_decide (is_Some (client (state s)))
        ∧ client (state s') = None ∧ server_id (state s') = server_id (state s)
        ∧ (had = true → identities s' = None ∧ load healthy (store s') = Ok (Some (state s')))
    | (s1, Err e) => s' = s1 ∧ outcome = Err (ServerReported (describe e)) ∧ state s' = state s
    end)
  ∧ ∀ received writes,
      (∀ payload, next_frame MAX_FRAME_LENGTH received = Some (Ok payload) →
                  control_decode payload ≠ Ok PairingClear) →
      (handle_control_connection describe f received writes s).1 = s.
Proof.
  intros Hreplies Hrequest. split.
  - destruct (transmit PairingClear Hrequest) as (b & sent & He & Hs & Hn & Hd).
    assert (clear_request = Ok sent) as Hreq by (unfold clear_request; by rewrite He; simpl; rewrite Hs).
    exists sent. split; [done|].
    unfold handle_control_connection, clear_pairing. rewrite Hreq, Hn, Hd. cbn [try_bind].
    pose proof (clear_spec f s) as Hclear. destruct (clear f s) as [s1 r].
    set (m := match r with Ok had => PairingCleared had | Err e => ControlFailure (describe e) end).
    destruct (transmit m) as (b' & sent' & He' & Hs' & Hn' & Hd').
    { intros b' Hb'. apply (Hreplies m b' Hb'). unfold m. destruct r; eauto. }
    subst m. destruct r as [had|e]; cbn beta iota.
    all: rewrite He'; cbn [map_err try_bind]; rewrite Hs'; cbn [ok_or try_bind reply_bytes ok default];
      unfold reply_bytes; cbn; rewrite Hn', Hd'; cbn; naive_solver.
  - intros received writes Hno. unfold handle_control_connection.
    destruct (next_frame MAX_FRAME_LENGTH received) as [[payload|]|]; [|done..].
    specialize (Hno payload eq_refl). destruct (control_decode payload) as [[]|]; done.
Qed.
End command.

(** ** Sessions of a cleared client *)

(** [revocations.changed()] of a receiver that subscribed at [seen] completes. *)
Definition revocation_pending `{S : PairingStore} (seen : N) (s : PairingService) : bool :=
  negb (revocations s =? seen)%N.

Section revocation.
Context `{S : PairingStore} `{D : Digest} `{L : SshAgentLib}.

(** A clear that took effect, among the operations and their outcomes. *)
Definition cleared (op_outcome : Op * Outcome) : bool :=
  is_clear op_outcome.1 && match op_outcome.2 with Replaced => true | _ => false end.

Definition clears (ops : list Op) (os : list Outcome) : N :=
  len (filter (λ x, cleared x = true) (zip ops os)).

Lemma perform_revocations op s s' o :
  perform op s = (s', o) →
  revocations s' = if cleared (op, o) then wrap64 (revocations s + 1) else revocations s.
Proof.
  intros [(-> & _ & _ & ->)|(Ho & _ & _ & ->)]%perform_cases; unfold cleared; cbn.
  - by destruct op.
  - destruct (is_clear op), o; done.
Qed.

Lemma wrap64_add a b : wrap64 (wrap64 a + b) = wrap64 (a + b).
Proof. unfold wrap64. by rewrite N.Div0.add_mod_idemp_l. Qed.

Lemma perform_all_revocations ops s s' os :
  (revocations s < 2 ^ 64)%N → perform_all ops s = (s', os) →
  revocations s' = wrap64 (revocations s + clears ops os).
Proof.
  revert s os. induction ops as [|op ops IH]; intros s os Hb; cbn [perform_all].
  { intros [= <- <-]. unfold wrap64. cbn. rewrite N.add_0_r, N.mod_small; done. }
  destruct (perform op s) as [s1 o] eqn:E. destruct (perform_all ops s1) as [s2 os2] eqn:E2.
  intros [= <- <-]. apply perform_revocations in E.
  assert (revocations s1 < 2 ^ 64)%N.
  { rewrite E. destruct (cleared (op, o)); [|done]. unfold wrap64. by apply N.mod_lt. }
  rewrite (IH _ _ ltac:(done) E2), E. unfold clears. cbn [zip zip_with]. rewrite filter_cons.
  destruct (cleared (op, o)); cbn [decide].
  - rewrite decide_True by done. rewrite wrap64_add. f_equal. len_lia.
  - by rewrite decide_False.
Qed.

Lemma clears_bound ops os : (clears ops os ≤ len ops)%N.
Proof.
  unfold clears, len. pose proof (length_filter (λ x, cleared x = true) (zip ops os)) as H1.
  pose proof (length_zip_with Datatypes.pair ops os) as H2. unfold zip in *. lia.
Qed.

Lemma clears_pos ops os :
  clears ops os ≠ 0%N ↔ ∃ i f, ops !! i = Some (OpClear f) ∧ os !! i = Some Replaced.
Proof.
  unfold clears, len. split.
  - intros Hne. destruct (filter _ (zip ops os)) as [|x l] eqn:E; [done|].
    assert (x ∈ filter (λ x, cleared x = true) (zip ops os)) as Hx by (rewrite E; apply list_elem_of_here).
    apply list_elem_of_filter in Hx as [Hc [i Hi]%list_elem_of_lookup].
    destruct x as [op o]. apply lookup_zip_Some in Hi as [Ho Hos].
    destruct op, o; cbn in *; try done. eauto.
  - intros (i & f & Hi & Ho) E.
    assert ((OpClear f, Replaced) ∈ filter (λ x, cleared x = true) (zip ops os)) as Hin.
    { apply list_elem_of_filter. split; [done|]. apply list_elem_of_lookup. exists i.
      by apply lookup_zip_Some. }
    destruct (filter _ _); [by apply not_elem_of_nil in Hin|done].
Qed.
End revocation.

Lemma wrap64_moves r c :
  (r < 2 ^ 64)%N → (c < 2 ^ 64)%N → wrap64 (r + c) = r ↔ c = 0%N.
Proof.
  unfold wrap64. intros Hr Hc. split; [|intros ->; rewrite N.add_0_r, N.mod_small; done].
  destruct (N.lt_ge_cases (r + c) (2 ^ 64)) as [H|H].
  - rewrite N.mod_small by done. lia.
  - rewrite (N.mod_eq (r + c)) by done.
    assert ((r + c) `div` 2 ^ 64 = 1)%N as -> by (symmetry; apply (N.div_unique _ _ _ (r + c - 2 ^ 64)); lia).
    lia.
Qed.

(** A client whose pairing is cleared loses its session.  Whatever the
    service does after a session has subscribed to revocations, a revocation is
    pending for that session exactly when a clear has taken effect since; and a
    running session then ends, giving back the broker's remote slot and nothing
    else. *)
Theorem cleared_sessions_end `{S : PairingStore} `{D : Digest} `{L : SshAgentLib}
    `{A : PairingAuthority} `{C : RemoteCodecs}
    (ops : list Op) (s s' : PairingService) os (session : Session) :
  (revocations s < 2 ^ 64)%N → (len ops < 2 ^ 64)%N → perform_all ops s = (s', os) →
  (revocation_pending (revocations s) s' = true ↔
    ∃ i f, ops !! i = Some (OpClear f) ∧ os !! i = Some Replaced)
  ∧ (alive session = true →
     ∃ ended, run_authenticated_step Revoked session
              = Some (ended, [ToBroker (CmdDisconnected (session_id (established session)))])
              ∧ alive ended = false).
Proof.
  intros Hb Hlen Hops. split.
  2: { intros Halive. unfold run_authenticated_step. rewrite Halive. cbn. eauto. }
  rewrite <- clears_pos. unfold revocation_pending. rewrite negb_true_iff, N.eqb_neq.
  rewrite (perform_all_revocations ops s s' os Hb Hops).
  pose proof (clears_bound ops os). rewrite wrap64_moves; [done|done|lia].
Qed.

(** ** Concrete codecs *)

(** Frames with a four-byte big-endian length. *)
Definition sample_framing : Framing :=
  {| frame := λ max payload,
       if decide (len payload ≤ max ∧ len payload ≤ U32_MAX)%N
       then Some (u32_to_be_bytes (len payload) ++ payload) else None;
     next_frame := λ max received,
       match received with
       | [] => None
       | _ =>
           match get_to 4 received ≫= u32_from_be_bytes, get_from 4 received with
           | Some n, Some rest =>
               if decide (n ≤ max)%N then
                 Some (ok_or (get_to (N.to_nat n) rest) tt)
               else Some (Err tt)
           | _, _ => Some (Err tt)
           end
       end |}.

#[export] Instance sample_framing_spec : FramingSpec sample_framing.
Proof.
  split; cbn [frame next_frame sample_framing].
  - intros max payload H1 H2. rewrite decide_True by lia. by eexists.
  - intros max payload b rest H. destruct (decide _) as [[H1 H2]|]; [|done].
    apply (inj Some) in H as <-. rewrite <- app_assoc.
    destruct ((u32_to_be_bytes (len payload)) ++ payload ++ rest) as [|x l] eqn:E; [done|].
    rewrite <- E. change 4 with (length (u32_to_be_bytes (len payload))).
    rewrite get_to_app, get_from_app. cbn [mbind option_bind].
    rewrite u32_from_to_be_bytes, wrap32_small by (unfold U32_MAX in H2; lia).
    rewrite decide_True by done. unfold len at 1. rewrite Nat2N.id, get_to_app. done.
Qed.

Definition sample_request_json : Json ControlRequest :=
  {| to_vec := λ e, Some [byte_of_N (envelope_version e)];
     from_slice := λ b, match b with
                        | [v] => Some {| envelope_version := Byte.to_N v; message := PairingClear |}
                        | _ => None
                        end |}.
Definition sample_response_json : Json ControlResponse :=
  {| to_vec := λ e,
       Some (byte_of_N (envelope_version e) ::
             match message e with
             | PairingCleared had => [if had then Byte.x01 else Byte.x00]
             | ControlFailure text => Byte.x02 :: text
             end);
     from_slice := λ b,
       match b with
       | v :: Byte.x02 :: text =>
           Some {| envelope_version := Byte.to_N v; message := ControlFailure text |}
       | [v; had] =>
           Some {| envelope_version := Byte.to_N v;
                   message := PairingCleared (bool_decide (had = Byte.x01)) |}
       | _ => None
       end |}.

#[export] Instance sample_request_json_spec : JsonSpec sample_request_json.
Proof. split; [by eexists|]. intros [] b [= <-]. done. Qed.
#[export] Instance sample_response_json_spec : JsonSpec sample_response_json.
Proof. split; [by eexists|]. intros [[]|text] b [= <-]; done. Qed.

Lemma operator_clears_pairing_witness :
  ∃ request,
    clear_request (F := sample_framing) (JR := sample_request_json) = Ok request
    ∧ client (state (handle_control_connection (S := memory_store) (F := sample_framing)
                       (JR := sample_request_json) (JA := sample_response_json) (λ _, []) tt request true sample_paired).1)
      = None.
Proof.
  assert (replies_fit (JA := sample_response_json) (λ _, [])) as H1.
  { intros m b [= <-] [[[] ->]|[e ->]]; by vm_compute. }
  assert (request_fits (JR := sample_request_json)) as H2.
  { intros b [= <-]. by vm_compute. }
  destruct (operator_clears_pairing (S := memory_store) (F := sample_framing) (λ _, []) tt sample_paired H1 H2)
    as [(request & Hr & H) _].
  exists request. split; [exact Hr|].
  revert H. destruct (handle_control_connection _ _ _ _ _) as [s' reply].
  destruct (clear (S := memory_store) tt sample_paired) as [s1 []] eqn:E; [intros (_ & _ & _ & H & _); exact H|].
  by vm_compute in E.
Defined.

Lemma cleared_sessions_end_witness :
  revocation_pending 0
    (perform_all (S := memory_store) (D := sample_digest) (L := sample_codecs)
       [OpClear (S := memory_store) tt] sample_paired).1 = true.
Proof.
  apply (proj1 (cleared_sessions_end (S := memory_store) (D := sample_digest)
    (L := sample_codecs) (A := sample_authority) (C := sample_remote)
    [OpClear (S := memory_store) tt] sample_paired _ _
    (start_session (A := sample_authority) {| session_id := 1; Session.client_id := 5 |} sample_paired)
    ltac:(by vm_compute) ltac:(by vm_compute) (surjective_pairing _))).
  exists 0, tt. by vm_compute.
Defined.
