(* ===== verification/Config.v ===== *)
(** * Config: the daemon's configuration

    Models [crates/server/src/config.rs]: the configuration record and its
    defaults, the layering of defaults, file and command line, the parsing of
    permission modes and the validation.

    [figment] (which merges the layers and reads the TOML file) and Sentry's DSN
    parser are classes; a duration is its nanoseconds. *)

From S2P Require Import Prelude Bytes Utf8 Packet System.

(** ** Data *)

Record SocketAddr := {
  ip : N;
  port : N;
}.

Record Config := {
  state_path : option Path;
  vapid_private_key_file : Path;
  control_socket : Path;
  control_socket_mode : N;
  unix_socket : Path;
  socket_mode : N;
  http_listen : SocketAddr;
  request_timeout : N;
  max_agent_packet_size : N;
  max_pending_requests : N;
  remote_capacity : N;
  sentry_backend_dsn : option rstring;
  sentry_frontend_dsn : option rstring;
}.

(** [0o600] *)
Definition OWNER_ONLY : N := 384.
Definition NANOS_PER_SEC : N := 1000000000.

Definition path_in (directory name : String.string) : Path :=
  {| text := byte_string directory ++ byte_string "/" ++ byte_string name;
     parent := Some (byte_string directory) |}.

(** [Config::default] *)
Definition default_config : Config :=
  {| state_path := None;
     vapid_private_key_file := path_in "/var/lib/agent-witness" "vapid.key";
     control_socket := path_in "/run/agent-witness" "control.sock";
     control_socket_mode := OWNER_ONLY;
     unix_socket := path_in "/run/agent-witness" "agent.sock";
     socket_mode := OWNER_ONLY;
     http_listen := {| ip := 127 * 2 ^ 24 + 1; port := 9345 |};
     request_timeout := 90 * NANOS_PER_SEC;
     max_agent_packet_size := 256 * 1024;
     max_pending_requests := 32;
     remote_capacity := 32;
     sentry_backend_dsn := None;
     sentry_frontend_dsn := None |}.

Record ConfigOverrides := {
  override_control_socket : option Path;
  override_unix_socket : option Path;
  override_request_timeout : option N;
}.

(** [ConfigError::Invalid], with its text. *)
Inductive ConfigError := Invalid (reason : rstring).

(** ** Validation *)

(** [parse::<sentry::types::Dsn>()]: the error's text, if the parse fails. *)
Class Sentry := { dsn_error : rstring → option rstring }.

(** [0o777] *)
Definition PERMISSION_BITS : N := 511.
(** [!0o777] of a [u32] *)
Definition OTHER_BITS : N := U32_MAX - PERMISSION_BITS.

Section validate.
Context `{Sentry}.

(** [validate_dsn] *)
Definition validate_dsn (name : String.string) (value : option rstring) : result unit ConfigError :=
  match value with
  | None => Ok tt
  | Some value =>
      match dsn_error value with
      | None => Ok tt
      | Some error =>
          Err (Invalid (byte_string name ++ byte_string " is not a valid Sentry DSN: " ++ error))
      end
  end.

(** [Config::validate] *)
Definition validate (c : Config) : result unit ConfigError :=
  let invalid (reason : String.string) : result unit ConfigError :=
    Err (Invalid (byte_string reason)) in
  if negb (N.land (control_socket_mode c) OTHER_BITS =? 0)%N then
    invalid "control_socket_mode must contain only Unix permission bits"
  else if negb (N.land (socket_mode c) OTHER_BITS =? 0)%N then
    invalid "socket_mode must contain only Unix permission bits"
  else if (request_timeout c =? 0)%N then
    invalid "request_timeout must be greater than zero"
  else if (max_agent_packet_size c =? 0)%N then
    invalid "max_agent_packet_size must be greater than zero"
  else if (U32_MAX <? max_agent_packet_size c)%N then
    invalid "max_agent_packet_size cannot exceed the SSH-agent u32 frame length"
  else if (max_pending_requests c =? 0)%N then
    invalid "max_pending_requests must be greater than zero"
  else if (remote_capacity c =? 0)%N then
    invalid "remote_capacity must be greater than zero"
  else
    let? _ := validate_dsn "sentry_backend_dsn" (sentry_backend_dsn c) in
    let? _ := validate_dsn "sentry_frontend_dsn" (sentry_frontend_dsn c) in
    Ok tt.
End validate.

(** ** Permission modes *)

Inductive ParseIntError :=
| EmptyNumber
| InvalidDigit
| PosOverflow.

#[export] Instance ParseIntError_eq_dec : EqDecision ParseIntError.
Proof. solve_decision. Defined.

(** [char::to_digit(8)] *)
Definition octal_digit (b : byte) : option N :=
  if between 48 55 b then Some (Byte.to_N b - 48)%N else None.

Fixpoint octal_digits (value : N) (digits : bytes) : result N ParseIntError :=
  match digits with
  | [] => Ok value
  | b :: rest =>
      let? digit := ok_or (octal_digit b) InvalidDigit in
      if (U32_MAX <? value * 8 + digit)%N then Err PosOverflow
      else octal_digits (value * 8 + digit) rest
  end.

(** [u32::from_str_radix(value, 8)]: one [+] may precede the digits. *)
Definition from_str_octal (value : rstring) : result N ParseIntError :=
  match value with
  | [] => Err EmptyNumber
  | b :: rest =>
      if decide (b = Byte.x2b ∧ rest ≠ []) then octal_digits 0 rest else octal_digits 0 value
  end.

(** What the deserializer hands to [ModeVisitor]. *)
Inductive ModeToken :=
| TokenU64 (value : N)
| TokenStr (value : rstring)
| TokenOther.

Inductive ModeError :=
| OutOfRange
| NotOctal (error : ParseIntError)
| UnexpectedType.

(** [deserialize_mode] *)
Definition deserialize_mode (token : ModeToken) : result N ModeError :=
  match token with
  | TokenU64 value => if (value <=? U32_MAX)%N then Ok value else Err OutOfRange
  | TokenStr value => map_err NotOctal (from_str_octal value)
  | TokenOther => Err UnexpectedType
  end.

(** ** Layers *)

(** The settings the command line can override. *)
Inductive Setting :=
| SetControlSocket (path : Path)
| SetUnixSocket (path : Path)
| SetRequestTimeout (duration : N).

Definition apply_setting (s : Setting) (c : Config) : Config :=
  match s with
  | SetControlSocket p =>
      {| state_path := state_path c; vapid_private_key_file := vapid_private_key_file c;
         control_socket := p; control_socket_mode := control_socket_mode c;
         unix_socket := unix_socket c; socket_mode := socket_mode c;
         http_listen := http_listen c; request_timeout := request_timeout c;
         max_agent_packet_size := max_agent_packet_size c;
         max_pending_requests := max_pending_requests c; remote_capacity := remote_capacity c;
         sentry_backend_dsn := sentry_backend_dsn c;
         sentry_frontend_dsn := sentry_frontend_dsn c |}
  | SetUnixSocket p =>
      {| state_path := state_path c; vapid_private_key_file := vapid_private_key_file c;
         control_socket := control_socket c; control_socket_mode := control_socket_mode c;
         unix_socket := p; socket_mode := socket_mode c;
         http_listen := http_listen c; request_timeout := request_timeout c;
         max_agent_packet_size := max_agent_packet_size c;
         max_pending_requests := max_pending_requests c; remote_capacity := remote_capacity c;
         sentry_backend_dsn := sentry_backend_dsn c;
         sentry_frontend_dsn := sentry_frontend_dsn c |}
  | SetRequestTimeout d =>
      {| state_path := state_path c; vapid_private_key_file := vapid_private_key_file c;
         control_socket := control_socket c; control_socket_mode := control_socket_mode c;
         unix_socket := unix_socket c; socket_mode := socket_mode c;
         http_listen := http_listen c; request_timeout := d;
         max_agent_packet_size := max_agent_packet_size c;
         max_pending_requests := max_pending_requests c; remote_capacity := remote_capacity c;
         sentry_backend_dsn := sentry_backend_dsn c;
         sentry_frontend_dsn := sentry_frontend_dsn c |}
  end.

(** The layers [figment] merges and the record it extracts from them; a
    duration travels as [humantime] text. *)
Class Figment := {
  Layers : Type;
  FigmentError : Type;
  from_defaults : Config → Layers;
  merge_toml : Path → Layers → Layers;
  merge_setting : Setting → Layers → Layers;
  extract_layers : Layers → result Config FigmentError;
}.
(** A path is serialized as text. *)
Definition serializable (s : Setting) : bool :=
  match s with
  | SetControlSocket p | SetUnixSocket p => valid_utf8 (text p)
  | SetRequestTimeout _ => true
  end.
(** Extracting inverts serializing, and a setting merged last replaces the one
    below it. *)
Class FigmentSpec (F : Figment) := {
  extract_defaults : extract_layers (from_defaults default_config) = Ok default_config;
  extract_setting : ∀ s l c, serializable s = true → extract_layers l = Ok c →
    extract_layers (merge_setting s l) = Ok (apply_setting s c);
}.

Definition merge_optional `{Figment} {A} (setting : A → Setting) (o : option A) (l : Layers) :
    Layers :=
  match o with
  | Some a => merge_setting (setting a) l
  | None => l
  end.

(** [Config::extract] *)
Definition extract `{Figment} (path : option Path) (o : ConfigOverrides) :
    result Config FigmentError :=
  let figment := from_defaults default_config in
  let figment := match path with Some path => merge_toml path figment | None => figment end in
  let figment := merge_optional SetControlSocket (override_control_socket o) figment in
  let figment := merge_optional SetUnixSocket (override_unix_socket o) figment in
  let figment := merge_optional SetRequestTimeout (override_request_timeout o) figment in
  extract_layers figment.
