(* ===== verification/ConfigProps.v ===== *)
(** * ConfigProps: what a validated configuration guarantees

    Validation decides a predicate on the fields, a validated configuration keeps
    the rest of the server within its bounds, the command line wins over the
    file, and permission modes are octal numerals. *)

From S2P Require Import Prelude Bytes Utf8 Packet BrokerModel BrokerTask BrokerTaskProps BrokerTaskSync BrokerTime BrokerAdmission BrokerHandle Protocol System Config.

(** ** Types *)

(** The values the record's field types can hold. *)
Definition well_typed (c : Config) : Prop :=
  (control_socket_mode c ≤ U32_MAX)%N ∧ (socket_mode c ≤ U32_MAX)%N
  ∧ (max_agent_packet_size c ≤ U64_MAX)%N ∧ (max_pending_requests c ≤ U64_MAX)%N
  ∧ (remote_capacity c ≤ U64_MAX)%N.

(** What the runtime needs of them. *)
Definition sound `{Sentry} (c : Config) : Prop :=
  (control_socket_mode c ≤ PERMISSION_BITS)%N ∧ (socket_mode c ≤ PERMISSION_BITS)%N
  ∧ (0 < request_timeout c)%N
  ∧ (0 < max_agent_packet_size c ≤ U32_MAX)%N
  ∧ (0 < max_pending_requests c)%N ∧ (0 < remote_capacity c)%N
  ∧ (∀ dsn, sentry_backend_dsn c = Some dsn → dsn_error dsn = None)
  ∧ (∀ dsn, sentry_frontend_dsn c = Some dsn → dsn_error dsn = None).

Lemma other_bits_zero m :
  (m ≤ U32_MAX)%N → N.land m OTHER_BITS = 0%N ↔ (m ≤ PERMISSION_BITS)%N.
Proof.
  intros Hm.
  assert (m = N.lor (N.land m PERMISSION_BITS) (N.land m OTHER_BITS)) as Hsplit.
  { rewrite <- N.land_lor_distr_r. change (N.lor PERMISSION_BITS OTHER_BITS) with (N.ones 32).
    rewrite N.land_ones, N.mod_small; [done|]. unfold U32_MAX in Hm. lia. }
  assert (N.land m PERMISSION_BITS = m `mod` 2 ^ 9)%N as Hlow by apply (N.land_ones m 9).
  split; intros H.
  - rewrite H, N.lor_0_r in Hsplit. rewrite Hsplit, Hlow.
    pose proof (N.mod_lt m (2 ^ 9)). unfold PERMISSION_BITS. lia.
  - assert (m = N.land m PERMISSION_BITS) as ->.
    { rewrite Hlow, N.mod_small; [done|]. unfold PERMISSION_BITS in H. lia. }
    by rewrite <- N.land_assoc, N.land_0_r.
Qed.

(** Validating is a chain of guards. *)
Lemma guard_ok {E} (b : bool) (e : E) (k : result unit E) :
  (if b then Err e else k) = Ok tt ↔ b = false ∧ k = Ok tt.
Proof. destruct b; naive_solver. Qed.

Lemma try_ok {E} (r k : result unit E) : try_bind r (λ _, k) = Ok tt ↔ r = Ok tt ∧ k = Ok tt.
Proof. destruct r as [[]|]; naive_solver. Qed.

Lemma validate_dsn_ok `{Sentry} name value :
  validate_dsn name value = Ok tt ↔ ∀ dsn, value = Some dsn → dsn_error dsn = None.
Proof.
  unfold validate_dsn. destruct value as [dsn|]; [|naive_solver].
  destruct (dsn_error dsn) eqn:E; naive_solver.
Qed.

Lemma validate_ok `{Sentry} c : well_typed c → validate c = Ok tt ↔ sound c.
Proof.
  intros (H1 & H2 & _). unfold validate, sound. cbn zeta.
  rewrite !guard_ok, !try_ok, !validate_dsn_ok, !negb_false_iff, !N.eqb_eq, !N.eqb_neq, N.ltb_ge.
  rewrite !other_bits_zero by done. unfold U32_MAX. naive_solver lia.
Qed.

(** Validation decides a type: of the values the fields can hold, it
    accepts exactly the configurations whose modes are permission bits, whose
    timeout, limits and capacity are positive, whose packets have a length that
    fits the [u32] frame header, and whose DSNs parse.  The defaults are among
    them. *)
Theorem validate_decides_soundness `{Sentry} c :
  well_typed c → (validate c = Ok tt ↔ sound c) ∧ (validate default_config = Ok tt).
Proof.
  intros Ht. split; [by apply validate_ok|].
  apply validate_ok; [by vm_compute|]. unfold sound. split_and!; by vm_compute.
Qed.

(** The broker's configuration, as [run] of [daemon.rs] builds it. *)
Definition broker_config (c : Config) : BrokerConfig :=
  {| BrokerTask.request_timeout := request_timeout c;
     config_max_pending_requests := max_pending_requests c |}.

(** What a local request does to a broker with that configuration that has room. *)
Lemma configured_broker_admits `{Sentry} c l acts delivers id ab now sys r :
  sound c → loop_reachable (broker_config c) l acts → local_requests_open l = true →
  fresh_input (InLocal id ab now sys r) l →
  (pending (state (actor l)) = ∅
   ∨ (N.of_nat (size (pending (state (actor l)))) < max_pending_requests c)%N) →
  ∃ l' acts', run_broker_step delivers (InLocal id ab now sys r) l = Some (l', acts')
    ∧ if deadline_overflows (request_timeout c) now sys then
        running l' = false ∧ Respond (req_response r) (Err Unavailable) ∈ acts'
      else
        running l' = true
        ∧ waiters (actor l') !! id = Some {| response := req_response r; cancellation := ab |}
        ∧ ∃ p, pending (state (actor l')) !! id = Some p
            ∧ packet p = req_packet r ∧ context p = req_context r
            ∧ deadline p = (now + request_timeout c)%N.
Proof.
  intros (_ & _ & Ht & _ & Hn & _) Hreach Hop Hfr Hroom.
  pose proof (loop_reachable_limits _ _ _ Hreach) as [= Hcfg Hmax].
  pose proof (loop_reachable_coherent _ _ _ Hreach) as (O & Hco & _).
  destruct (proj2 (run_broker_step_total delivers (InLocal id ab now sys r) l)) as [[l' acts'] Hst];
    [by destruct Hreach|]. exists l', acts'. split; [done|].
  destruct (local_step _ _ _ _ _ _ _ _ _ Hst) as [_ [(Hov & Hrun & _)|(Hov & Hrun & _ & ->)]];
    rewrite Hcfg in Hov; simpl in Hov; rewrite Hov; (split; [done|]).
  - eapply (room_admits delivers O id ab now sys r) in Hst;
      [by rewrite Hcfg in Hst|done..|by rewrite Hcfg|done|].
    rewrite Hmax. simpl. destruct Hroom as [->|?]; [by rewrite map_size_empty|done].
  - apply (stop_unavailable (with_caller id ab r (actor l)) id
      {| response := req_response r; cancellation := ab |}). apply lookup_insert_eq.
Qed.

(** C36: A validated configuration keeps the rest of the server within its
    bounds: the daemon's sums of sizes do not overflow a [usize] and a frame with
    its header fits in a [u32] plus four; [chmod] grants exactly the configured
    bits; the broker never refuses a session for its capacity; and in every state
    the broker can reach, if nothing is pending or the queue has room, a local
    request is admitted: it is pending, with its packet and context and the
    configured timeout from now as its deadline, and its caller waits.  The one
    exception is a deadline that the clocks cannot represent, which ends the
    broker and answers the caller [Unavailable]; validation does not exclude it,
    since it accepts every positive timeout. *)
Theorem validated_config_bounds `{Sentry} c :
  well_typed c → validate c = Ok tt →
  wrap64 (max_agent_packet_size c + 4 + MAX_MESSAGE_OVERHEAD)
    = (max_agent_packet_size c + 4 + MAX_MESSAGE_OVERHEAD)%N
  ∧ (max_agent_packet_size c + 4 ≤ U32_MAX + 4)%N
  ∧ N.land (socket_mode c) 4095 = socket_mode c
  ∧ N.land (control_socket_mode c) 4095 = control_socket_mode c
  ∧ (∀ outbound response, connect_remote true (remote_capacity c) outbound response
       = ([CmdConnect (remote_capacity c) outbound response], Ok tt))
  ∧ (∀ l acts delivers id ab now sys r,
       loop_reachable (broker_config c) l acts → local_requests_open l = true →
       fresh_input (InLocal id ab now sys r) l →
       (pending (state (actor l)) = ∅
        ∨ (N.of_nat (size (pending (state (actor l)))) < max_pending_requests c)%N) →
       ∃ l' acts', run_broker_step delivers (InLocal id ab now sys r) l = Some (l', acts')
         ∧ if deadline_overflows (request_timeout c) now sys then
             running l' = false ∧ Respond (req_response r) (Err Unavailable) ∈ acts'
           else
             running l' = true
             ∧ waiters (actor l') !! id = Some {| response := req_response r; cancellation := ab |}
             ∧ ∃ p, pending (state (actor l')) !! id = Some p
                 ∧ packet p = req_packet r ∧ context p = req_context r
                 ∧ deadline p = (now + request_timeout c)%N)
  ∧ ∀ timeout, (0 < timeout)%N → validate (apply_setting (SetRequestTimeout timeout) c) = Ok tt.
Proof.
  intros Ht Hv%validate_ok; [|done]. pose proof Hv as (Hc & Hs & Hto & Hp & Hn & Hr & Hd1 & Hd2).
  split_and!.
  - unfold wrap64. apply N.mod_small. unfold MAX_MESSAGE_OVERHEAD, U32_MAX in *. lia.
  - lia.
  - change 4095%N with (N.ones 12). rewrite N.land_ones, N.mod_small; [done|].
    unfold PERMISSION_BITS in *. lia.
  - change 4095%N with (N.ones 12). rewrite N.land_ones, N.mod_small; [done|].
    unfold PERMISSION_BITS in *. lia.
  - intros. unfold connect_remote. rewrite (proj2 (N.eqb_neq _ _)); [done|lia].
  - intros. by eapply configured_broker_admits.
  - intros timeout Hpos. by apply validate_ok.
Qed.

(** ** Permission modes *)

(** The number a string of octal digits stands for. *)
Definition is_octal (b : byte) : Prop := between 48 55 b = true.
Definition octal_value (digits : bytes) : N :=
  foldl (λ v b, v * 8 + (Byte.to_N b - 48))%N 0%N digits.

Lemma octal_fold_mono v digits :
  (v ≤ foldl (λ v b, v * 8 + (Byte.to_N b - 48)) v digits)%N.
Proof.
  revert v. induction digits as [|b digits IH]; intros v; cbn; [lia|].
  specialize (IH (v * 8 + (Byte.to_N b - 48))%N). lia.
Qed.

Lemma octal_digits_ok v digits n :
  (v ≤ U32_MAX)%N →
  octal_digits v digits = Ok n ↔
  Forall is_octal digits
  ∧ foldl (λ v b, v * 8 + (Byte.to_N b - 48))%N v digits = n ∧ (n ≤ U32_MAX)%N.
Proof.
  revert v. induction digits as [|b digits IH]; intros v Hv; cbn [octal_digits foldl].
  { rewrite Forall_nil. naive_solver. }
  rewrite Forall_cons. unfold octal_digit, is_octal at 1.
  destruct (between 48 55 b) eqn:Hb; cbn [ok_or try_bind]; [|naive_solver].
  destruct (N.ltb_spec U32_MAX (v * 8 + (Byte.to_N b - 48))) as [Ho|Ho].
  - split; [done|]. intros ([_ _] & Hn & Hmax).
    pose proof (octal_fold_mono (v * 8 + (Byte.to_N b - 48)) digits). lia.
  - rewrite IH by done. naive_solver.
Qed.

(** A permission mode written as a string is an octal numeral: it is
    accepted, with that value, exactly when it consists of octal digits, at least
    one of them, after an optional plus sign, and stands for a [u32]. *)
Theorem mode_is_octal value n :
  deserialize_mode (TokenStr value) = Ok n ↔
  ∃ digits, (value = digits ∨ value = Byte.x2b :: digits) ∧ digits ≠ []
            ∧ Forall is_octal digits ∧ octal_value digits = n ∧ (n ≤ U32_MAX)%N.
Proof.
  unfold deserialize_mode, from_str_octal, octal_value.
  assert (∀ r : result N ParseIntError, map_err NotOctal r = Ok n ↔ r = Ok n) as Hmap
    by (intros []; naive_solver).
  assert (∀ l, Forall is_octal (Byte.x2b :: l) → False) as Hplus
    by (intros l [Hb _]%Forall_cons; by vm_compute in Hb).
  rewrite Hmap. destruct value as [|b rest]; [naive_solver|].
  destruct (decide _) as [[-> Hrest]|Hnot].
  - rewrite octal_digits_ok by done. split.
    + intros H. exists rest. tauto.
    + intros (digits & [<-|Hv] & Hd & Hoct & ?); [by destruct (Hplus rest)|].
      injection Hv as ->. tauto.
  - rewrite octal_digits_ok by done. split.
    + intros (Hoct & ?). exists (b :: rest). split_and!; naive_solver.
    + intros (digits & [<-|Hv] & Hd & ?); [tauto|]. injection Hv as -> ->. tauto.
Qed.

(** ** Layers *)

(** A configuration with the command line's settings. *)
Definition overridden (o : ConfigOverrides) (c : Config) : Config :=
  let c := from_option (λ p, apply_setting (SetControlSocket p) c) c (override_control_socket o) in
  let c := from_option (λ p, apply_setting (SetUnixSocket p) c) c (override_unix_socket o) in
  from_option (λ d, apply_setting (SetRequestTimeout d) c) c (override_request_timeout o).

(** The paths on the command line are text. *)
Definition textual (o : ConfigOverrides) : Prop :=
  (∀ p, override_control_socket o = Some p → valid_utf8 (text p) = true)
  ∧ (∀ p, override_unix_socket o = Some p → valid_utf8 (text p) = true).

Section layers.
Context `{F : Figment} `{!FigmentSpec F} `{Sentry}.

Lemma merge_optional_ok {A} (setting : A → Setting) o l c :
  (∀ a, o = Some a → serializable (setting a) = true) →
  extract_layers l = Ok c →
  extract_layers (merge_optional setting o l)
  = Ok (from_option (λ a, apply_setting (setting a) c) c o).
Proof. intros Hs Hl. destruct o as [a|]; cbn; [|done]. by apply extract_setting; auto. Qed.

(** The command line wins.  Whatever the file holds, the extracted
    configuration is that of the file (or the defaults) with the command line's
    settings in place of the file's; with no file it is valid unless the timeout
    given on the command line is zero. *)
Theorem command_line_wins o c path :
  textual o →
  extract_layers (match path with
                  | Some p => merge_toml p (from_defaults default_config)
                  | None => from_defaults default_config
                  end) = Ok c →
  extract path o = Ok (overridden o c)
  ∧ (override_control_socket o ≠ None → override_control_socket o = Some (control_socket (overridden o c)))
  ∧ (override_unix_socket o ≠ None → override_unix_socket o = Some (unix_socket (overridden o c)))
  ∧ (path = None → c = default_config
       ∧ (validate (overridden o c) = Ok tt ↔ override_request_timeout o ≠ Some 0%N)).
Proof.
  intros [Hcs Hus] Hl.
  split_and!.
  - unfold extract. cbn zeta.
    rewrite (merge_optional_ok SetRequestTimeout _ _ _ ltac:(done)
      (merge_optional_ok SetUnixSocket _ _ _ Hus (merge_optional_ok SetControlSocket _ _ _ Hcs Hl))).
    done.
  - unfold overridden. destruct o as [[p|] [q|] [d|]]; done.
  - unfold overridden. destruct o as [[p|] [q|] [d|]]; done.
  - intros ->. rewrite extract_defaults in Hl. injection Hl as <-. split; [done|].
    rewrite validate_ok by (destruct o as [[p|] [q|] [d|]]; by vm_compute).
    unfold sound. destruct o as [[p|] [q|] [d|]]; cbn -[N.lt N.le].
    all: unfold OWNER_ONLY, PERMISSION_BITS, U32_MAX, NANOS_PER_SEC.
    all: split; [intros (_ & _ & ? & _); naive_solver lia|].
    all: intros Ho; split_and!; try done; try lia; destruct d; done || lia.
Qed.
End layers.

(** ** Concrete parsers *)

Definition sample_sentry : Sentry :=
  {| dsn_error := λ dsn, if decide (dsn = []) then Some (byte_string "empty") else None |}.

(** A machine with no configuration files. *)
Definition sample_figment : Figment :=
  {| Layers := Config; FigmentError := unit; from_defaults := λ c, c; merge_toml := λ _ c, c;
     merge_setting := apply_setting; extract_layers := Ok |}.
#[export] Instance sample_figment_spec : FigmentSpec sample_figment.
Proof. split; [done|]. by intros s l c _ [= ->]. Qed.

Example mode_0640 : deserialize_mode (TokenStr (byte_string "0640")) = Ok 416%N.
Proof. done. Qed.
Example mode_too_large :
  deserialize_mode (TokenStr (byte_string "40000000000")) = Err (NotOctal PosOverflow).
Proof. done. Qed.

Lemma validate_decides_soundness_witness :
  sound (H := sample_sentry) default_config.
Proof.
  apply (proj1 (validate_decides_soundness (H := sample_sentry) default_config
                  ltac:(by vm_compute))). reflexivity.
Defined.

(** A first request at time 2, with the default timeout of 90 seconds and with one
    the clock cannot add. *)
Definition first_request : PacketRequest :=
  {| req_packet := byte_string "sign"; req_context := None; req_response := 7; req_cancellation := 7 |}.
Definition endless_config : Config :=
  apply_setting (SetRequestTimeout (2 ^ 63 * NANOS_PER_SEC)) default_config.

Lemma validated_config_bounds_witness :
  wrap64 (max_agent_packet_size default_config + 4 + MAX_MESSAGE_OVERHEAD) = 294916%N
  ∧ (∃ l acts, run_broker_step (λ _ _, true) (InLocal 1 60 2 1000 first_request)
                 (run_broker_init (broker_config default_config)) = Some (l, acts)
     ∧ is_Some (pending (state (actor l)) !! 1%N))
  ∧ (∃ l acts, run_broker_step (λ _ _, true) (InLocal 1 60 2 1000 first_request)
                 (run_broker_init (broker_config endless_config)) = Some (l, acts)
     ∧ running l = false).
Proof.
  assert (∀ c, loop_reachable (broker_config c) (run_broker_init (broker_config c)) [])
    as Hreach by (intros c; split; [done|]; by exists []).
  destruct (validated_config_bounds (H := sample_sentry) default_config
    ltac:(by vm_compute) ltac:(reflexivity)) as (Hsum & _ & _ & _ & _ & Hadm & Htimeout).
  destruct (validated_config_bounds (H := sample_sentry) endless_config
    ltac:(by vm_compute) ltac:(by apply Htimeout)) as (_ & _ & _ & _ & _ & Hover & _).
  split_and!.
  - rewrite Hsum. reflexivity.
  - destruct (Hadm _ _ (λ _ _, true) 1%N 60%N 2%N 1000%Z first_request (Hreach _) eq_refl)
      as (l & acts & Hst & Ha); [by vm_compute|by left|].
    exists l, acts. split; [exact Hst|]. destruct Ha as (_ & _ & p & Hp & _). by exists p.
  - destruct (Hover _ _ (λ _ _, true) 1%N 60%N 2%N 1000%Z first_request (Hreach _) eq_refl)
      as (l & acts & Hst & Ha); [by vm_compute|by left|].
    exists l, acts. split; [exact Hst|]. by destruct Ha.
Defined.

Lemma command_line_wins_witness :
  ∃ c, extract (H := sample_figment) None
         {| override_control_socket := None;
            override_unix_socket := Some (path_in "/tmp" "agent.sock");
            override_request_timeout := Some NANOS_PER_SEC |} = Ok c
       ∧ unix_socket c = path_in "/tmp" "agent.sock".
Proof.
  eexists. split.
  - refine (proj1 (command_line_wins (F := sample_figment) (H := sample_sentry)
      {| override_control_socket := None;
         override_unix_socket := Some (path_in "/tmp" "agent.sock");
         override_request_timeout := Some NANOS_PER_SEC |} default_config None _ _));
      [split; intros p [= <-]; reflexivity|reflexivity].
  - reflexivity.
Defined.
