(* ===== verification/Push.v ===== *)
(** * Push: Web Push key, notifications and delivery

    Models [crates/server/src/push.rs]: the file that keeps the VAPID private
    key (over the calls of [System]), the notification's text and message, and
    the service that coalesces wakes and publishes them.

    P-256, base64, JSON and the [web_push] crate are classes.  Random bytes are
    an argument: the draws the system's generator delivers. *)

From stdpp Require Import pretty.
From S2P Require Import Prelude Bytes Utf8 Packet BrokerModel Pairing System.

Definition PRIVATE_KEY_LENGTH : N := 32.
(** [0o600] *)
Definition PRIVATE_KEY_MODE : N := 384.
(** [0o077] *)
Definition KEY_GROUP_AND_OTHERS : N := 63.
Definition NOTIFICATION_TITLE : rstring := byte_string "Signing request".
Definition NOTIFICATION_BODY : rstring :=
  byte_string "A server is requesting SSH authentication.".

(** ** Keys *)

(** The operations of [p256::SecretKey], and URL-safe base64. *)
Class P256 := {
  SecretKey : Type;
  secret_from_slice : bytes → option SecretKey;
  secret_to_bytes : SecretKey → bytes;
  uncompressed_public_key : SecretKey → bytes;
  base64_url : bytes → rstring;
}.
(** A key is 32 bytes, and is read back from them. *)
Class P256Spec (P : P256) := {
  secret_length : ∀ k, len (secret_to_bytes k) = PRIVATE_KEY_LENGTH;
  secret_round_trip : ∀ k, secret_from_slice (secret_to_bytes k) = Some k;
}.

Inductive DecodeError := WrongLength | InvalidScalar.

(** What opening the key failed at.  [StillDrawing] is no outcome of the source:
    the draws considered are used up and [generate] would draw again. *)
Inductive KeyError :=
| KeyTaskFailed
| KeyUnreadable (error : IoError)
| KeyNotInspected (error : IoError)
| KeyMustBePrivate
| KeyUndecodable (error : DecodeError)
| KeyWithoutParent
| KeyParentNotCreated (error : IoError)
| KeyNotGenerated
| KeyDisappeared
| KeyNotCreated (error : IoError)
| KeyNotPersisted (error : IoError)
| KeyParentNotSynced (error : IoError)
| StillDrawing.

Section key.
Context `{P256}.

Record VapidKey := { private_key : SecretKey }.

(** [VapidKey::public_key] *)
Definition public_key (k : VapidKey) : bytes := uncompressed_public_key (private_key k).
(** [VapidKey::encoded_private_key] *)
Definition encoded_private_key (k : VapidKey) : rstring :=
  base64_url (secret_to_bytes (private_key k)).

(** [decode] *)
Definition decode_key (b : bytes) : result VapidKey DecodeError :=
  if negb (len b =? PRIVATE_KEY_LENGTH)%N then Err WrongLength
  else
    let? k := ok_or (secret_from_slice b) InvalidScalar in
    Ok {| private_key := k |}.

(** [generate]: each draw is 32 bytes, or a failure of the generator. *)
Fixpoint generate (draws : list (option bytes)) : result VapidKey KeyError :=
  match draws with
  | [] => Err StillDrawing
  | None :: _ => Err KeyNotGenerated
  | Some b :: draws =>
      match secret_from_slice b with
      | Some k => Ok {| private_key := k |}
      | None => generate draws
      end
  end.

(** [load] *)
Definition load_key (p : rstring) : Sys (result (option VapidKey) KeyError) :=
  let! contents := read p in
  match contents with
  | Err NotFound => ret (Ok None)
  | Err error => ret (Err (KeyUnreadable error))
  | Ok contents =>
      let!? metadata := sys_map_err KeyNotInspected (metadata p) in
      if negb (N.land (permissions metadata) KEY_GROUP_AND_OTHERS =? 0)%N then
        ret (Err KeyMustBePrivate)
      else
        ret (let? key := map_err KeyUndecodable (decode_key contents) in Ok (Some key))
  end.

(** [create] *)
Definition create_key (draws : list (option bytes)) (p : Path) : Sys (result VapidKey KeyError) :=
  match parent p with
  | None | Some [] => ret (Err KeyWithoutParent)
  | Some parent =>
      let!? _ := sys_map_err KeyParentNotCreated (create_dir_all parent) in
      let!? key := ret (generate draws) in
      let! created := create_new (text p) PRIVATE_KEY_MODE in
      match created with
      | Err AlreadyExists =>
          let!? found := load_key (text p) in
          ret (ok_or found KeyDisappeared)
      | Err error => ret (Err (KeyNotCreated error))
      | Ok file =>
          let! result :=
            (let!? _ := write_all file (secret_to_bytes (private_key key)) in sync_all) in
          match result with
          | Err error =>
              let! _ := remove_file (text p) in
              ret (Err (KeyNotPersisted error))
          | Ok _ =>
              let!? _ := sys_map_err KeyParentNotSynced
                           (let!? _ := open_dir parent in sync_all) in
              ret (Ok key)
          end
      end
  end.

(** [open], and [VapidKey::open] in its blocking task. *)
Definition open_key (draws : list (option bytes)) (p : Path) : Sys (result VapidKey KeyError) :=
  let!? found := load_key (text p) in
  match found with
  | Some key => ret (Ok key)
  | None => create_key draws p
  end.
Definition vapid_open (task_runs : bool) (draws : list (option bytes)) (p : Path) :
    Sys (result VapidKey KeyError) :=
  if task_runs then open_key draws p else ret (Err KeyTaskFailed).
End key.

(** ** Notifications *)

(** The text of a notification: the first reason, and how many there are
    besides ([×] is U+00D7). *)
Definition notification_body (reasons : list rstring) : rstring :=
  match reasons with
  | [] => NOTIFICATION_BODY
  | [reason] => reason
  | reason :: _ =>
      reason ++ byte_string " (" ++ byte_string (pretty (len reasons - 1)%N)
      ++ [Byte.xc3; Byte.x97] ++ byte_string " more)"
  end.

(** [web_push::SubscriptionInfo] *)
Record SubscriptionInfo := {
  info_endpoint : rstring;
  info_p256dh : rstring;
  info_auth : rstring;
}.

(** Signing and building of the [web_push] crate and the notification's JSON. *)
Class WebPush := {
  SignatureBuilder : Type;
  Signature : Type;
  WebPushMessage : Type;
  builder_from_base64 : rstring → SubscriptionInfo → option SignatureBuilder;
  build_signature : SignatureBuilder → option Signature;
  notification_json : rstring → rstring → option bytes;
  build_message : SubscriptionInfo → N → bytes → Signature → option WebPushMessage;
}.

Inductive PublishError :=
| NoSignature
| NotSigned
| NotEncoded
| NotBuilt
| DeliveryTimedOut
| RejectedByService.

(** How the push service answers within [DELIVERY_TIMEOUT]. *)
Inductive Delivery := Accepted | DeliveryRejected | NoAnswer.

Section service.
Context `{P256} `{WebPush}.

(** [notification_payload] *)
Definition notification_payload (reasons : list rstring) : result bytes PublishError :=
  ok_or (notification_json NOTIFICATION_TITLE (notification_body reasons)) NotEncoded.

(** [build_notification] *)
Definition build_notification (s : PushSubscription) (vapid : VapidKey) (ttl : N)
    (reasons : list rstring) : result WebPushMessage PublishError :=
  let info := {| info_endpoint := endpoint s; info_p256dh := p256dh s; info_auth := auth s |} in
  let? builder := ok_or (builder_from_base64 (encoded_private_key vapid) info) NoSignature in
  let? signature := ok_or (build_signature builder) NotSigned in
  let? payload := notification_payload reasons in
  ok_or (build_message info ttl payload signature) NotBuilt.

Record PushConfig := {
  vapid : VapidKey;
  ttl : N;
}.

(** [PushService::new]: the timeout in whole seconds, as a [u32]. *)
Definition push_service_new (k : VapidKey) (request_timeout : N) : PushConfig :=
  let seconds := (request_timeout `div` 1000000000)%N in
  {| vapid := k; ttl := if (seconds <=? U32_MAX)%N then seconds else U32_MAX |}.

(** [PushService::publish]: what was sent, and the result. *)
Definition publish_wake (c : PushConfig) (subscription : option PushSubscription)
    (answer : Delivery) (request : WakeRequest) :
    option WebPushMessage * result bool PublishError :=
  match subscription with
  | None => (None, Ok false)
  | Some subscription =>
      match build_notification subscription (vapid c) (ttl c) (reasons request) with
      | Err e => (None, Err e)
      | Ok message =>
          (Some message,
           match answer with
           | Accepted => Ok true
           | DeliveryRejected => Err RejectedByService
           | NoAnswer => Err DeliveryTimedOut
           end)
      end
  end.
End service.

(** ** The service's loop *)

(** Where [PushService::serve] stands. *)
Inductive Phase :=
| Waiting
| Sleeping (request : WakeRequest)
| Publishing (request : WakeRequest)
| Stopped.

(** The loop's channel and phase, and the requests published so far. *)
Record Coalescer := {
  channel : list WakeRequest;
  senders : bool;
  phase : Phase;
  published : list WakeRequest;
}.

Definition start_coalescer : Coalescer :=
  {| channel := []; senders := true; phase := Waiting; published := [] |}.

(** [wakes.recv()]: take the oldest request, wait for one, or stop once all
    senders are gone. *)
Definition receive (c : Coalescer) : Coalescer :=
  match channel c with
  | request :: rest =>
      {| channel := rest; senders := senders c; phase := Sleeping request;
         published := published c |}
  | [] =>
      {| channel := []; senders := senders c;
         phase := if senders c then Waiting else Stopped; published := published c |}
  end.

(** What happens next: a wake is sent, the last sender goes, the 200 ms are
    over, or [publish] returns. *)
Inductive PushEvent :=
| WakeSent (request : WakeRequest)
| SendersGone
| SleepOver
| PublishDone.

(** [while let Ok(latest) = wakes.try_recv() { request = latest; }] *)
Definition latest (request : WakeRequest) (rest : list WakeRequest) : WakeRequest :=
  List.last rest request.

(** One event; [None] for one that cannot happen. *)
Definition push_step (ev : PushEvent) (c : Coalescer) : option Coalescer :=
  match ev, phase c with
  | WakeSent request, Stopped => None
  | WakeSent request, p =>
      if senders c then
        let c := {| channel := channel c ++ [request]; senders := true; phase := p;
                    published := published c |} in
        Some (match p with Waiting => receive c | _ => c end)
      else None
  | SendersGone, p =>
      if senders c then
        let c := {| channel := channel c; senders := false; phase := p;
                    published := published c |} in
        Some (match p with Waiting => receive c | _ => c end)
      else None
  | SleepOver, Sleeping request =>
      Some {| channel := []; senders := senders c;
              phase := Publishing (latest request (channel c)); published := published c |}
  | PublishDone, Publishing request =>
      Some (receive {| channel := channel c; senders := senders c; phase := Waiting;
                       published := published c ++ [request] |})
  | _, _ => None
  end.

Fixpoint push_run (events : list PushEvent) (c : Coalescer) : option Coalescer :=
  match events with
  | [] => Some c
  | ev :: rest =>
      match push_step ev c with
      | Some c => push_run rest c
      | None => None
      end
  end.
