(* ===== verification/PushProps.v ===== *)
(** * PushProps: the key survives restarts, the latest wake is published

    Properties of [Push]: the VAPID key file under failing calls and concurrent
    starts, the notification's contents, and the coalescing of wakes. *)

From stdpp Require Import pretty.
From S2P Require Import Prelude Bytes Utf8 Packet BrokerModel Pairing System SocketFile SocketFileProps Push.

(** ** Coalescing *)

(** The request the loop is working on. *)
Definition current (p : Phase) : list WakeRequest :=
  match p with
  | Sleeping r | Publishing r => [r]
  | Waiting | Stopped => []
  end.

(** What is published or still to be: nothing else can be published. *)
Definition outlook (c : Coalescer) : list WakeRequest :=
  published c ++ current (phase c) ++ channel c.

Definition sent_by (ev : PushEvent) : list WakeRequest :=
  match ev with WakeSent r => [r] | _ => [] end.
Definition all_sent (events : list PushEvent) : list WakeRequest := mjoin (sent_by <$> events).

Definition at_rest (p : Phase) : bool :=
  match p with Waiting | Stopped => true | _ => false end.

Definition tracks (sent : list WakeRequest) (c : Coalescer) : Prop :=
  sublist (outlook c) sent ∧ last (outlook c) = last sent
  ∧ (at_rest (phase c) = true → channel c = []).

Lemma receive_outlook c :
  phase c = Waiting →
  outlook (receive c) = outlook c ∧ (at_rest (phase (receive c)) = true → channel (receive c) = [])
  ∧ published (receive c) = published c.
Proof.
  intros Hp. unfold receive, outlook. rewrite Hp.
  destruct (channel c) as [|r rest]; [|done]. cbn. by destruct (senders c).
Qed.

Lemma last_default {A} (x a b : A) l : List.last (x :: l) a = List.last (x :: l) b.
Proof. revert x. induction l as [|y l IH]; intros x; [done|]. apply (IH y). Qed.

Lemma latest_spec r rest : last (r :: rest) = Some (latest r rest).
Proof.
  unfold latest. revert r. induction rest as [|x rest IH]; intros r; [done|].
  rewrite last_cons_cons, IH. destruct rest as [|y rest]; [done|]. f_equal. apply (last_default y x r rest).
Qed.

Lemma latest_sublist r rest : sublist [latest r rest] (r :: rest).
Proof.
  pose proof (latest_spec r rest) as H. apply last_Some in H as [l ->].
  by apply sublist_inserts_l.
Qed.

Lemma push_step_tracks sent ev c c' :
  tracks sent c → push_step ev c = Some c' → tracks (sent ++ sent_by ev) c'.
Proof.
  intros (Hsub & Hlast & Hrest).
  assert (∀ r c1, outlook c1 = outlook c ++ [r] →
          sublist (outlook c1) (sent ++ [r]) ∧ last (outlook c1) = last (sent ++ [r])) as Hsent.
  { intros r c1 ->. rewrite !last_snoc. split; [|done]. by apply sublist_app. }
  unfold push_step. destruct ev as [r| | |]; cbn [sent_by]; rewrite ?app_nil_r.
  - destruct (phase c) eqn:Hp; destruct (senders c); try done; intros [= <-].
    + match goal with |- tracks _ (receive ?x) => destruct (receive_outlook x eq_refl) as (Ho & Hr & _) end.
      unfold tracks. rewrite Ho. split_and!; [| |done]; apply Hsent; unfold outlook; cbn;
        by rewrite Hp, app_assoc.
    + unfold tracks. split_and!; [| |done]; apply Hsent; unfold outlook; cbn;
        by rewrite Hp, <- !app_assoc.
    + unfold tracks. split_and!; [| |done]; apply Hsent; unfold outlook; cbn;
        by rewrite Hp, <- !app_assoc.
  - destruct (senders c); [|done]. intros [= <-]. destruct (phase c) eqn:Hp.
    + match goal with |- tracks _ (receive ?x) => destruct (receive_outlook x eq_refl) as (Ho & Hr & _) end.
      unfold tracks. rewrite Ho. unfold outlook in *. cbn. by rewrite Hp in *.
    + unfold tracks, outlook in *. cbn. by rewrite Hp in *.
    + unfold tracks, outlook in *. cbn. by rewrite Hp in *.
    + unfold tracks, outlook in *. cbn. by rewrite Hp in *.
  - destruct (phase c) as [|r|r|] eqn:Hp; try done. intros [= <-].
    unfold tracks, outlook in *. rewrite Hp in *. cbn in *. split_and!; [| |done].
    + etrans; [|exact Hsub]. apply sublist_app; [done|]. apply latest_sublist.
    + rewrite <- Hlast, last_snoc, last_app, latest_spec. done.
  - destruct (phase c) as [|r|r|] eqn:Hp; try done. intros [= <-].
    match goal with |- tracks _ (receive ?x) => destruct (receive_outlook x eq_refl) as (Ho & Hr & _) end.
    unfold tracks. rewrite Ho. unfold outlook in *. rewrite Hp in *. cbn in *.
    by rewrite <- app_assoc.
Qed.

Lemma push_run_tracks events sent c c' :
  tracks sent c → push_run events c = Some c' → tracks (sent ++ all_sent events) c'.
Proof.
  revert sent c. induction events as [|ev events IH]; intros sent c Ht; cbn [push_run].
  { intros [= <-]. unfold all_sent. cbn. by rewrite app_nil_r. }
  destruct (push_step ev c) as [c1|] eqn:E; [|done]. intros Hrun.
  unfold all_sent. cbn. rewrite app_assoc. eauto using push_step_tracks.
Qed.

Lemma start_tracks : tracks [] start_coalescer.
Proof. done. Qed.

(** Two more publications at most bring the loop to rest. *)
Lemma settle sent c :
  tracks sent c → ∃ events c', length events ≤ 3 ∧ all_sent events = []
    ∧ push_run events c = Some c' ∧ at_rest (phase c') = true.
Proof.
  intros (_ & _ & Hrest).
  assert (∀ c1 r, phase c1 = Sleeping r →
          ∃ c', push_run [SleepOver; PublishDone] c1 = Some c' ∧ at_rest (phase c') = true) as Hs.
  { intros c1 r Hp. cbn [push_run]. unfold push_step. rewrite Hp. cbn.
    eexists. split; [done|]. unfold receive. cbn. by destruct (senders c1). }
  destruct (phase c) as [|r|r|] eqn:Hp.
  - exists [], c. rewrite Hp. split_and!; [cbn; lia|done..].
  - destruct (Hs c r Hp) as (c' & H1 & H2). exists [SleepOver; PublishDone], c'.
    split_and!; [cbn; lia|done..].
  - destruct (channel c) as [|r' rest] eqn:Hch.
    + eexists [PublishDone], _. split_and!; [cbn; lia|done| |].
      * cbn [push_run]. unfold push_step. by rewrite Hp.
      * unfold receive. cbn. rewrite Hch. cbn. by destruct (senders c).
    + set (c1 := receive {| channel := channel c; senders := senders c; phase := Waiting;
                            published := published c ++ [r] |}).
      destruct (Hs c1 r') as (c' & H1 & H2); [unfold c1, receive; cbn; by rewrite Hch|].
      exists [PublishDone; SleepOver; PublishDone], c'. split_and!; [cbn; lia|done| |done].
      cbn [push_run] in *. unfold push_step at 1. by rewrite Hp.
  - exists [], c. rewrite Hp. split_and!; [cbn; lia|done..].
Qed.

(** At rest everything has been published, the newest wake last. *)
Lemma tracks_rest sent c :
  tracks sent c → at_rest (phase c) = true → last (published c) = last sent.
Proof.
  intros (_ & <- & Hch) Hp. unfold outlook. rewrite (Hch Hp).
  destruct (phase c); try done; cbn; by rewrite app_nil_r.
Qed.

Lemma tracks_published sent c : tracks sent c → sublist (published c) sent.
Proof. intros (Hsub & _). etrans; [|exact Hsub]. unfold outlook. by apply sublist_inserts_r. Qed.

(** Wakes are coalesced without losing the news.  Along every run the
    requests published are wakes that were sent, in that order and each at most
    once as often as sent; the newest wake is always published, being published
    or next; once no more wakes come, at most two further publications bring the
    service to rest with the newest wake as the last one published. *)
Theorem newest_wake_is_published events c :
  push_run events start_coalescer = Some c →
  sublist (published c) (all_sent events)
  ∧ last (outlook c) = last (all_sent events)
  ∧ (at_rest (phase c) = true → last (published c) = last (all_sent events))
  ∧ ∃ more c', length more ≤ 3 ∧ all_sent more = [] ∧ push_run more c = Some c'
      ∧ at_rest (phase c') = true ∧ last (published c') = last (all_sent events).
Proof.
  intros Hrun. pose proof (push_run_tracks _ _ _ _ start_tracks Hrun) as Ht. cbn in Ht.
  split_and!.
  - by apply tracks_published.
  - by destruct Ht as (_ & ? & _).
  - by apply tracks_rest.
  - destruct (settle _ _ Ht) as (more & c' & Hl & Hno & Hmore & Hp).
    exists more, c'. split_and!; try done. apply tracks_rest; [|done].
    pose proof (push_run_tracks _ _ _ _ Ht Hmore) as Ht'. by rewrite Hno, app_nil_r in Ht'.
Qed.

(** ** The key file *)

Lemma ldiff_private m u : N.land m 63 = 0%N → N.land (N.ldiff m u) 63 = 0%N.
Proof.
  intros E. apply N.bits_inj. intros i.
  assert (N.testbit (N.land m 63) i = false) as Ei by (rewrite E; apply N.bits_0).
  rewrite N.land_spec in Ei. rewrite N.land_spec, N.ldiff_spec, N.bits_0.
  destruct (N.testbit m i), (N.testbit u i); cbn in *; congruence.
Qed.

Section key_file.
Context `{P : P256}.

(** The key a restart finds. *)
Definition key_on_disk (w : World) (p : rstring) : result (option VapidKey) KeyError :=
  match follow MAXSYMLINKS w p with
  | Err NotFound => Ok None
  | Err error => Err (KeyUnreadable error)
  | Ok (_, e) =>
      match kind e with
      | Regular contents =>
          if negb (N.land (permissions e) KEY_GROUP_AND_OTHERS =? 0)%N then Err KeyMustBePrivate
          else let? key := map_err KeyUndecodable (decode_key contents) in Ok (Some key)
      | _ => Err (KeyUnreadable (OtherError 21))
      end
  end.

Lemma calm_load env p s r s' :
  calm env → load_key p env s = (r, s') → r = key_on_disk (world s) p ∧ world s' = world s.
Proof.
  intros Hcalm H. unfold load_key, sys_try, sys_map_err, sys_bind, ret, read, metadata in H.
  rewrite calm_query in H by done. unfold key_on_disk.
  destruct (follow MAXSYMLINKS (world s) p) as [[q e]|[]] eqn:Hf; cbn [try_bind] in H;
    try by simplify_eq.
  destruct (kind e); cbn beta iota in H; try by simplify_eq.
  rewrite calm_query in H by done. cbn [world] in H. rewrite Hf in H. cbn [try_bind map_err] in H.
  by destruct (negb _); simplify_eq.
Qed.

(** A load of an undisturbed machine changes nothing and invents no key. *)
Lemma load_key_world env p s r s' :
  undisturbed env → load_key p env s = (r, s') →
  world s' = world s ∧ ∀ k, r = Ok (Some k) → key_on_disk (world s) p = Ok (Some k).
Proof.
  intros Hund H. unfold load_key, sys_try, sys_map_err, sys_bind, ret in H.
  unfold read in H. next_call. rewrite Hund in W. apply query_world in W as Hw.
  destruct r0 as [contents|[]]; simplify_eq; try done.
  unfold metadata in H. next_call. rewrite Hund, Hw in W0. apply query_world in W0 as Hw0.
  apply query_ok in W. unfold key_on_disk.
  destruct (follow MAXSYMLINKS (world s) p) as [[q e]|] eqn:Hf; cbn [try_bind] in W; [|done].
  destruct (kind e) eqn:Hk; simplify_eq.
  destruct r0 as [found|]; cbn [map_err] in H; [|by simplify_eq].
  apply query_ok in W0. rewrite Hf in W0. cbn in W0. simplify_eq.
  destruct (negb _); simplify_eq; done.
Qed.

Context `{!P256Spec P}.

Lemma decode_secret k : decode_key (secret_to_bytes (private_key k)) = Ok k.
Proof. unfold decode_key. rewrite secret_length, N.eqb_refl, secret_round_trip. by destruct k. Qed.

(** A complete private file holds the key. *)
Lemma written_key_on_disk w p k id u :
  entries w !! p = Some {| kind := Regular (secret_to_bytes (private_key k)); identity := id;
                           permissions := N.ldiff PRIVATE_KEY_MODE u |} →
  key_on_disk w p = Ok (Some k).
Proof.
  intros He. unfold key_on_disk. rewrite (follow_direct _ _ _ _ He) by done.
  cbn [kind permissions]. unfold KEY_GROUP_AND_OTHERS. rewrite ldiff_private by done.
  by rewrite decode_secret.
Qed.

(** The entry at [p] after appending to a file. *)
Lemma append_to_lookup id b w p e contents :
  entries w !! p = Some e → kind e = Regular contents → identity e = id →
  entries (append_to id b w) !! p = Some (set_kind (Regular (contents ++ b)) e).
Proof.
  intros He Hk Hid. unfold append_to. cbn. rewrite lookup_fmap, He. cbn.
  by rewrite Hk, decide_True.
Qed.

Section undisturbed_key.
Context (env : nat → Env) (Hund : undisturbed env).

Lemma create_dir_all_keeps d p s a s' :
  d ≠ p → create_dir_all d env s = (a, s') → entries (world s') !! p = entries (world s) !! p.
Proof.
  unfold create_dir_all. intros Hne (T & N & W)%call_trace. rewrite Hund in W.
  destruct (fallible_world _ _ _ _ _ W) as [->| ->]; [done|].
  repeat case_match; simplify_eq; cbn; try done. by rewrite lookup_insert_ne.
Qed.

Lemma create_new_spec p mode s a s' :
  create_new p mode env s = (a, s') →
  match a with
  | Ok id =>
      entries (world s) !! p = None
      ∧ ∃ u, entries (world s') !! p
             = Some {| kind := Regular []; identity := id; permissions := N.ldiff mode u |}
  | Err x =>
      trace s' = trace s ++ [Opened p (Err x)]
      ∧ (world s' = world s
         ∨ entries (world s) !! p = None
           ∧ ∃ e, entries (world s') !! p = Some e ∧ kind e = Regular [])
  end.
Proof.
  unfold create_new. intros (T & N & W)%call_trace. rewrite Hund in W. unfold fallible in W.
  destruct (entries (world s) !! p) as [e|] eqn:He.
  { destruct (failure _); [destruct (late _)|]; simplify_eq; auto. }
  destruct (failure _); [destruct (late _)|]; simplify_eq; cbn [snd] in *;
    repeat match goal with H : world s' = _ |- _ => rewrite H; clear H end; cbn;
    rewrite ?lookup_insert_eq; eauto 8.
Qed.

Lemma sync_all_world s a s' : sync_all env s = (a, s') → world s' = world s.
Proof. unfold sync_all. intros (T & N & W)%call_trace. rewrite Hund in W. by apply query_world in W. Qed.

Lemma open_dir_world p s a s' : open_dir p env s = (a, s') → world s' = world s.
Proof. unfold open_dir. intros (T & N & W)%call_trace. rewrite Hund in W. by apply query_world in W. Qed.

(** Writing the key into its new file. *)
Lemma write_all_spec id b p u s a s' :
  entries (world s) !! p
    = Some {| kind := Regular []; identity := id; permissions := u |} →
  write_all id b env s = (a, s') →
  ∃ c, entries (world s') !! p
       = Some {| kind := Regular c; identity := id; permissions := u |}
       ∧ (a = Ok tt → c = b).
Proof.
  unfold write_all. intros He (T & N & W)%call_trace. rewrite Hund in W.
  destruct (failure _); simplify_eq; eexists;
    match goal with H : world s' = _ |- _ => rewrite H end;
    (split; [by rewrite (append_to_lookup _ _ _ _ _ [] He)|done]).
Qed.

Lemma remove_file_spec p s a s' e :
  entries (world s) !! p = Some e → kind e ≠ Directory → remove_file p env s = (a, s') →
  entries (world s') !! p = None
  ∨ ∃ x, last (trace s') = Some (Removed p (Err x)).
Proof.
  unfold remove_file. intros He Hk (T & N & W)%call_trace. rewrite Hund in W.
  destruct a as [found|x]; [left|right; exists x; by rewrite T, last_snoc].
  apply fallible_ok in W as [_ W]. rewrite He, decide_False in W by done. simplify_eq.
  match goal with H : _ = world s' |- _ => rewrite <- H end. cbn. apply lookup_delete_eq.
Qed.

(** How opening can end, for the key file and the key in it: a failed start
    leaves a file where there was none only if the parent could not be synced, if
    the removal of an unfinished file failed too, or if the file was created by a
    call that reported a failure. *)
Definition sound_end (draws : list (option bytes)) (p : rstring) (s : Machine)
    (r : result VapidKey KeyError) (s' : Machine) : Prop :=
  match r with
  | Ok k => key_on_disk (world s') p = Ok (Some k)
  | Err e =>
      entries (world s') !! p = entries (world s) !! p
      ∨ entries (world s) !! p = None
        ∧ ((∃ x k, e = KeyParentNotSynced x ∧ generate draws = Ok k
                   ∧ key_on_disk (world s') p = Ok (Some k))
           ∨ (∃ x y, e = KeyNotPersisted x ∧ last (trace s') = Some (Removed p (Err y)))
           ∨ (∃ l x entry, trace s' = trace s ++ l ∧ Opened p (Err x) ∈ l
                           ∧ entries (world s') !! p = Some entry ∧ kind entry = Regular []))
  end.

(** Calls only add to the trace. *)
Lemma call_extends {A} (ev : A → Event) f s a s' :
  call ev f env s = (a, s') → trace s `prefix_of` trace s'.
Proof. intros (T & _)%call_trace. rewrite T. by eexists. Qed.

Lemma load_key_extends p s a s' : load_key p env s = (a, s') → trace s `prefix_of` trace s'.
Proof.
  intros H. unfold load_key, sys_try, sys_map_err, sys_bind, ret, read, metadata in H.
  destruct (call (Read p) _ env s) as [r1 s1] eqn:E1. apply call_extends in E1.
  destruct r1 as [c|[]]; try (by simplify_eq). etrans; [exact E1|].
  destruct (call (Inspected p) _ env s1) as [r2 s2] eqn:E2. apply call_extends in E2.
  destruct r2; cbn [map_err] in H; [destruct (negb _)|]; by simplify_eq.
Qed.

(** The rest of [create], with the new file open. *)
Lemma persist_sound draws d p file k u s (r : result VapidKey KeyError) s1 s' :
  generate draws = Ok k → entries (world s) !! p = None →
  entries (world s1) !! p
    = Some {| kind := Regular []; identity := file; permissions := N.ldiff PRIVATE_KEY_MODE u |} →
  (let! result := (let!? _ := write_all file (secret_to_bytes (private_key k)) in sync_all) in
   match result with
   | Err error => let! _ := remove_file p in ret (Err (KeyNotPersisted error))
   | Ok _ =>
       let!? _ := sys_map_err KeyParentNotSynced (let!? _ := open_dir d in sync_all) in
       ret (Ok k)
   end) env s1 = (r, s') → sound_end draws p s r s'.
Proof.
  intros Hg Hnone Hnew H. unfold sys_try, sys_map_err, sys_bind, ret in H.
  destruct (write_all file _ env s1) as [a s3] eqn:E3.
  eapply write_all_spec in E3 as (contents & He & Hall); [|exact Hnew].
  assert (∀ s4 (b : result Entry IoError) s5 x, world s4 = world s3 →
            remove_file p env s4 = (b, s5) →
            sound_end draws p s (Err (KeyNotPersisted x)) s5) as Hremove.
  { intros s4 b s5 x Hw Hr. cbn. rewrite <- Hw in He.
    eapply remove_file_spec in Hr as [Hr|[y Hr]]; [left; congruence|right|exact He|done].
    split; [done|]. right; left. by eauto. }
  destruct a as [[]|x]; cbn beta iota in H.
  2: { destruct (remove_file p env s3) as [b s4] eqn:E4. simplify_eq. by eapply Hremove. }
  destruct (sync_all env s3) as [a s4] eqn:E4. apply sync_all_world in E4.
  destruct a; cbn beta iota in H.
  2: { destruct (remove_file p env s4) as [b s5] eqn:E5. simplify_eq. by eapply Hremove. }
  assert (∀ s5, world s5 = world s4 → key_on_disk (world s5) p = Ok (Some k)) as Hdone.
  { intros s5 ->. rewrite E4. rewrite (Hall eq_refl) in He. by eapply written_key_on_disk. }
  destruct (open_dir d env s4) as [a s5] eqn:E5. apply open_dir_world in E5.
  destruct a; cbn [map_err] in H; [|simplify_eq; right; split; [done|left; eauto 10]].
  destruct (sync_all env s5) as [a s6] eqn:E6. apply sync_all_world in E6.
  destruct a; cbn [map_err] in H; simplify_eq; cbn; [apply Hdone; congruence|].
  right. split; [done|]. left. do 2 eexists. split_and!; [done|done|]. apply Hdone. congruence.
Qed.

Lemma create_key_sound draws p s r s' :
  parent p ≠ Some (text p) → create_key draws p env s = (r, s') →
  sound_end draws (text p) s r s'.
Proof.
  intros Hproper H. unfold create_key in H.
  destruct (parent p) as [[|c directory]|]; [unfold ret in H; simplify_eq; by left| |
    unfold ret in H; simplify_eq; by left].
  set (d := c :: directory) in *.
  unfold sys_try at 1, sys_map_err at 1, sys_bind at 1 2, ret at 1 in H.
  destruct (create_dir_all d env s) as [a s1] eqn:E1.
  pose proof (call_extends _ _ _ _ _ E1) as T1.
  apply (create_dir_all_keeps d (text p)) in E1; [|congruence].
  destruct a; cbn [map_err] in H; [|unfold ret in H; simplify_eq; by left].
  unfold sys_try at 1, sys_bind at 1, ret at 1 in H.
  destruct (generate draws) as [k|] eqn:Hg; [|unfold ret in H; simplify_eq; by left].
  unfold sys_bind at 1 in H.
  destruct (create_new (text p) PRIVATE_KEY_MODE env s1) as [a s2] eqn:E2.
  apply create_new_spec in E2. destruct a as [id|x].
  { destruct E2 as (Hnone & u & Hnew). eapply persist_sound; [done| |done|exact H]. congruence. }
  destruct E2 as [T2 E2]. destruct T1 as [l1 T1].
  assert (∀ e s3, world s3 = world s2 → trace s2 `prefix_of` trace s3 →
            sound_end draws (text p) s (Err e) s3) as Hend.
  { intros e s3 Hw [l3 T3]. cbn. rewrite Hw, T3, T2, T1.
    destruct E2 as [->|(Hn & entry & He & Hk)]; [by left|right]. split; [congruence|].
    right; right. exists (l1 ++ [Opened (text p) (Err x)] ++ l3), x, entry.
    split; [by rewrite <- !app_assoc|]. split_and!; [set_solver|done..]. }
  destruct x; try (unfold ret in H; simplify_eq; by apply Hend).
  unfold sys_try, sys_bind, ret in H.
  destruct (load_key (text p) env s2) as [found s3] eqn:E3.
  pose proof (load_key_extends _ _ _ _ E3) as T3. apply load_key_world in E3 as [Hw Hk]; [|done].
  destruct found as [[k'|]|]; simplify_eq; try by apply Hend. cbn. rewrite Hw. auto.
Qed.
End undisturbed_key.

(** ** Several daemons starting at once *)

Definition regular (e : Entry) : Prop := ∃ c, kind e = Regular c.
(** A key file that has all its bytes. *)
Definition complete (e : Entry) : Prop :=
  ∃ c, kind e = Regular c ∧ len c = PRIVATE_KEY_LENGTH.

(** What one step of a start does to the key's path, [mine] being the identities
    of the files this start creates: it puts regular files of its own there, and
    leaves complete files and the files of others alone. *)
Definition guarantee (mine : FileId → Prop) (p : rstring) (w w' : World) : Prop :=
  (∀ e, entries w !! p = Some e → ¬ mine (identity e) ∨ complete e → entries w' !! p = Some e)
  ∧ (∀ e, entries w' !! p = Some e →
          entries w !! p = Some e ∨ regular e ∧ mine (identity e)).

(** A step of another start, whose files have other identities. *)
Definition others (mine : FileId → Prop) (p : rstring) (w w' : World) : Prop :=
  ∃ theirs : FileId → Prop, (∀ id, mine id → ¬ theirs id) ∧ guarantee theirs p w w'.

(** What such steps together amount to for this start. *)
Definition respects (mine : FileId → Prop) (p : rstring) (w w' : World) : Prop :=
  (∀ e, entries w !! p = Some e → mine (identity e) ∨ complete e → entries w' !! p = Some e)
  ∧ (∀ e, entries w' !! p = Some e →
          entries w !! p = Some e ∨ regular e ∧ ¬ mine (identity e)).

Lemma others_respect mine p w w' : rtc (others mine p) w w' → respects mine p w w'.
Proof.
  induction 1 as [w|w w1 w' (theirs & Hapart & Hkeep & Hnew) _ [IHkeep IHnew]];
    [by split; [|left]|]. split.
  - intros e He Hor. apply IHkeep; [|done]. apply Hkeep; [done|]. destruct Hor; [left; by apply Hapart|by right].
  - intros e [He|?]%IHnew; [|by right]. apply Hnew in He as [?|[? Ht]]; [by left|right].
    split; [done|]. intros Hm. by apply (Hapart _ Hm).
Qed.

Section concurrent.
Context (env : nat → Env) (p : Path).
Let mine (id : FileId) : Prop := ∃ i, id = fresh (env i).
Context (Hrely : ∀ i w, respects mine (text p) w (interference (env i) w)).

(** The path holds the key [k]. *)
Definition holds_key (k : VapidKey) (w : World) : Prop :=
  ∃ e, entries w !! text p = Some e ∧ complete e ∧ key_on_disk w (text p) = Ok (Some k).

(** If anything, a regular file has the name. *)
Definition plain (w : World) : Prop := ∀ e, entries w !! text p = Some e → regular e.

Lemma plain_rely i w : plain w → plain (interference (env i) w).
Proof.
  intros H e He. destruct (proj2 (Hrely i w) e He) as [?|[? _]]; [by apply H|done].
Qed.

Lemma plain_query {A} (ev : result A IoError → Event) f s a s' :
  call ev (query f) env s = (a, s') → plain (world s) → plain (world s').
Proof. intros (_ & _ & W)%call_trace H. apply query_world in W. rewrite W. by apply plain_rely. Qed.

Lemma plain_insert e w : regular e → plain w →
  plain (set_entries (<[text p := e]> (entries w)) w).
Proof. intros He H e'. cbn. rewrite lookup_insert_eq. by intros [= <-]. Qed.

Lemma plain_create_dir_all d s a s' :
  d ≠ text p → create_dir_all d env s = (a, s') → plain (world s) → plain (world s').
Proof.
  unfold create_dir_all. intros Hne (_ & _ & W)%call_trace H.
  apply (plain_rely (calls s)) in H. revert W H.
  generalize (interference (env (calls s)) (world s)). intros w W H.
  destruct (fallible_world _ _ _ _ _ W) as [->| ->]; [done|].
  repeat case_match; simplify_eq; cbn; try done. intros e. cbn.
  rewrite lookup_insert_ne by done. apply H.
Qed.

Lemma plain_create_new mode s a s' :
  create_new (text p) mode env s = (a, s') → plain (world s) → plain (world s').
Proof.
  unfold create_new. intros (_ & _ & W)%call_trace H.
  apply (plain_rely (calls s)) in H. revert W H.
  generalize (interference (env (calls s)) (world s)). intros w W H.
  destruct (fallible_world _ _ _ _ _ W) as [->| ->]; [done|].
  case_match; [done|]. apply plain_insert; [by eexists|done].
Qed.

Lemma plain_load_key s a s' :
  load_key (text p) env s = (a, s') → plain (world s) → plain (world s').
Proof.
  intros H Hp. unfold load_key, sys_try, sys_map_err, sys_bind, ret in H.
  destruct (read (text p) env s) as [r s1] eqn:E1. eapply plain_query in E1; [|exact Hp].
  destruct r as [|[]]; simplify_eq; try done.
  destruct (metadata (text p) env s1) as [r s2] eqn:E2. eapply plain_query in E2; [|exact E1].
  destruct r; cbn [map_err] in H; [destruct (negb _)|]; by simplify_eq.
Qed.

Lemma holds_key_moves k w w' :
  holds_key k w → (∀ e, entries w !! text p = Some e → complete e → entries w' !! text p = Some e) →
  holds_key k w'.
Proof.
  intros (e & He & Hc & Hk) Hmove. exists e. split_and!; [by apply Hmove|done|].
  revert Hk. unfold key_on_disk. pose proof Hc as (c & Hkind & _).
  rewrite (follow_direct _ _ _ e He), (follow_direct _ _ _ e (Hmove e He Hc))
    by (intros t; congruence). done.
Qed.

Lemma holds_key_rely k i w : holds_key k w → holds_key k (interference (env i) w).
Proof. intros H. apply (holds_key_moves _ _ _ H). intros e He Hc. apply (proj1 (Hrely i w)); auto. Qed.

Lemma query_holds {A} k (ev : result A IoError → Event) f s a s' :
  call ev (query f) env s = (a, s') → holds_key k (world s) → holds_key k (world s').
Proof.
  intros (_ & _ & W)%call_trace H. apply query_world in W. rewrite W. by apply holds_key_rely.
Qed.

Lemma load_key_concurrent s k s' :
  plain (world s) → load_key (text p) env s = (Ok (Some k), s') → holds_key k (world s').
Proof.
  intros Hp H. unfold load_key, sys_try, sys_map_err, sys_bind, ret in H.
  unfold read in H. next_call. destruct r as [contents|[]]; simplify_eq.
  unfold metadata in H. next_call. destruct r as [found|]; cbn [map_err] in H; [|done].
  destruct (negb (N.land _ _ =? 0)%N) eqn:Hmode; [done|].
  destruct (decode_key contents) as [k'|] eqn:Hd; cbn in H; simplify_eq.
  apply query_world in W as Hw. apply query_ok in W. rewrite <- Hw in W.
  assert (len contents = PRIVATE_KEY_LENGTH) as Hlen.
  { unfold decode_key in Hd. destruct (N.eqb_spec (len contents) PRIVATE_KEY_LENGTH); done. }
  destruct (entries (world m) !! text p) as [e|] eqn:He.
  2: { unfold follow in W. cbn in W. by rewrite He in W. }
  destruct (plain_rely (calls s) _ Hp e) as [c Hc]; [by rewrite <- Hw|].
  rewrite (follow_direct _ _ _ e He) in W by (intros t; congruence). cbn in W. rewrite Hc in W.
  assert (c = contents) as -> by congruence.
  assert (complete e) as Hcomplete by (exists contents; auto).
  destruct (Hrely (calls m) (world m)) as [Hkeep _].
  specialize (Hkeep e He (or_intror Hcomplete)).
  apply query_world in W0 as Hw0. apply query_ok in W0.
  rewrite (follow_direct _ _ _ e Hkeep) in W0 by (intros t; congruence). cbn in W0. simplify_eq.
  rewrite <- Hw0 in Hkeep. exists found. split_and!; [done|done|].
  unfold key_on_disk. rewrite (follow_direct _ _ _ found Hkeep) by (intros t; congruence).
  by rewrite Hc, Hmode, Hd.
Qed.

Lemma create_new_concurrent mode s id s' :
  create_new (text p) mode env s = (Ok id, s') →
  mine id ∧ ∃ u, entries (world s') !! text p
    = Some {| kind := Regular []; identity := id; permissions := N.ldiff mode u |}.
Proof.
  unfold create_new. intros (_ & _ & W)%call_trace. apply fallible_ok in W as [_ W].
  destruct (entries _ !! text p); [done|]. injection W as <- <-.
  split; [by eexists|]. eexists. cbn. apply lookup_insert_eq.
Qed.

Lemma write_all_concurrent id k u s s' :
  mine id →
  entries (world s) !! text p
    = Some {| kind := Regular []; identity := id; permissions := N.ldiff PRIVATE_KEY_MODE u |} →
  write_all id (secret_to_bytes (private_key k)) env s = (Ok tt, s') →
  holds_key k (world s').
Proof.
  unfold write_all. intros Hmine He (_ & _ & W)%call_trace.
  destruct (Hrely (calls s) (world s)) as [Hkeep _].
  specialize (Hkeep _ He (or_introl Hmine)).
  destruct (failure _); simplify_eq.
  assert (entries (world s') !! text p
          = Some {| kind := Regular (secret_to_bytes (private_key k)); identity := id;
                    permissions := N.ldiff PRIVATE_KEY_MODE u |}) as He'.
  { match goal with H : world s' = _ |- _ => rewrite H end.
    by rewrite (append_to_lookup _ _ _ _ _ [] Hkeep). }
  eexists. split_and!; [exact He'| |by eapply written_key_on_disk].
  eexists. split; [done|apply secret_length].
Qed.

(** What this start does itself, between two of its states. *)
Definition guarded (s s' : Machine) : Prop :=
  ∃ l, steps s' = steps s ++ l ∧ Forall (λ st, guarantee mine (text p) st.1 st.2) l.

#[local] Instance guarded_preorder : PreOrder guarded.
Proof.
  split; [intros s; exists []; by rewrite app_nil_r|].
  intros s1 s2 s3 (l1 & E1 & H1) (l2 & E2 & H2). exists (l1 ++ l2).
  rewrite E2, E1, app_assoc. split; [done|by apply Forall_app].
Qed.

Lemma call_guarded {A} (ev : A → Event) f s a s' :
  call ev f env s = (a, s') →
  guarantee mine (text p) (interference (env (calls s)) (world s)) (world s') → guarded s s'.
Proof.
  unfold call. destruct (f _ _) as [b w]. intros [= <- <-] Hg. eexists. split; [done|].
  by constructor.
Qed.

Lemma guarantee_same w w' : entries w' !! text p = entries w !! text p → guarantee mine (text p) w w'.
Proof. intros E. split; [by rewrite E|]. rewrite E. by left. Qed.

Lemma query_guarded {A} (ev : result A IoError → Event) f s a s' :
  call ev (query f) env s = (a, s') → guarded s s'.
Proof.
  intros H. eapply call_guarded; [exact H|]. apply call_trace in H as (_ & _ & W).
  apply query_world in W. rewrite W. by apply guarantee_same.
Qed.

Lemma create_dir_all_guarded d s a s' :
  d ≠ text p → create_dir_all d env s = (a, s') → guarded s s'.
Proof.
  intros Hne H. eapply call_guarded; [exact H|]. apply call_trace in H as (_ & _ & W).
  apply guarantee_same. revert W. generalize (interference (env (calls s)) (world s)). intros w W.
  destruct (fallible_world _ _ _ _ _ W) as [->| ->]; [done|].
  repeat case_match; simplify_eq; cbn; try done. by rewrite lookup_insert_ne.
Qed.

Lemma create_new_guarded mode s a s' : create_new (text p) mode env s = (a, s') → guarded s s'.
Proof.
  intros H. eapply call_guarded; [exact H|]. apply call_trace in H as (_ & _ & W).
  revert W. generalize (interference (env (calls s)) (world s)). intros w W.
  destruct (fallible_world _ _ _ _ _ W) as [->| ->]; [by apply guarantee_same|].
  destruct (entries w !! text p) eqn:He; [by apply guarantee_same|]. split; [by rewrite He|].
  cbn. rewrite lookup_insert_eq. intros e [= <-]. right. split; [by eexists|by eexists].
Qed.

Lemma write_all_guarded id b u s a s' :
  mine id →
  entries (world s) !! text p = Some {| kind := Regular []; identity := id; permissions := u |} →
  write_all id b env s = (a, s') → guarded s s'.
Proof.
  intros Hmine He H. unfold write_all in H. eapply call_guarded; [exact H|]. apply call_trace in H as (_ & _ & W).
  destruct (Hrely (calls s) (world s)) as [Hkeep _]. specialize (Hkeep _ He (or_introl Hmine)).
  revert W Hkeep. generalize (interference (env (calls s)) (world s)). intros w W Hkeep.
  assert (∃ b', world s' = append_to id b' w) as [b' ->] by (destruct (failure _); simplify_eq; eauto).
  split.
  - intros e. rewrite Hkeep. intros [= <-] [Hno|(c & Hc & Hl)]; [done|]. cbn in Hc. by simplify_eq.
  - rewrite (append_to_lookup _ _ _ _ _ [] Hkeep) by done. intros e [= <-]. right.
    split; [by eexists|done].
Qed.

Lemma load_key_guarded s a s' : load_key (text p) env s = (a, s') → guarded s s'.
Proof.
  intros H. unfold load_key, sys_try, sys_map_err, sys_bind, ret in H.
  destruct (read (text p) env s) as [r s1] eqn:E1. apply query_guarded in E1.
  destruct r as [c|[]]; try (by simplify_eq). etrans; [exact E1|].
  destruct (metadata (text p) env s1) as [r s2] eqn:E2. apply query_guarded in E2.
  destruct r; cbn [map_err] in H; [destruct (negb _)|]; by simplify_eq.
Qed.

Lemma create_key_guarded draws s r s' :
  parent p ≠ Some (text p) → create_key draws p env s = (r, s') →
  (∀ x, r ≠ Err (KeyNotPersisted x)) → guarded s s'.
Proof.
  intros Hproper H Hr. unfold create_key in H.
  destruct (parent p) as [[|c directory]|]; [unfold ret in H; by simplify_eq| |
    unfold ret in H; by simplify_eq].
  unfold sys_try, sys_map_err, sys_bind, ret in H.
  destruct (create_dir_all _ env s) as [a s1] eqn:E1. apply create_dir_all_guarded in E1; [|congruence].
  etrans; [exact E1|]. destruct a; cbn [map_err] in H; [|by simplify_eq].
  destruct (generate draws) as [k0|]; [|by simplify_eq].
  destruct (create_new (text p) PRIVATE_KEY_MODE env s1) as [a s2] eqn:E2.
  etrans; [by eapply create_new_guarded|]. destruct a as [id|e].
  2: { destruct e; try by simplify_eq. destruct (load_key (text p) env s2) as [found s3] eqn:E3.
       apply load_key_guarded in E3. destruct found as [[]|]; by simplify_eq. }
  apply create_new_concurrent in E2 as (Hmine & u & He).
  destruct (write_all id _ env s2) as [a s3] eqn:E3. eapply write_all_guarded in E3; [|done..].
  etrans; [exact E3|]. destruct a as [[]|x]; cbn beta iota in H.
  2: { destruct (remove_file _ _ _). simplify_eq. by destruct (Hr x). }
  destruct (sync_all env s3) as [a s4] eqn:E4. apply query_guarded in E4. etrans; [exact E4|].
  destruct a as [[]|x]; cbn beta iota in H.
  2: { destruct (remove_file _ _ _). simplify_eq. by destruct (Hr x). }
  destruct (open_dir _ env s4) as [a s5] eqn:E5. apply query_guarded in E5. etrans; [exact E5|].
  destruct a; cbn [map_err] in H; [|by simplify_eq].
  destruct (sync_all env s5) as [a s6] eqn:E6. apply query_guarded in E6.
  destruct a; cbn [map_err] in H; by simplify_eq.
Qed.

Lemma create_key_concurrent draws s k s' :
  parent p ≠ Some (text p) → plain (world s) →
  create_key draws p env s = (Ok k, s') → holds_key k (world s').
Proof.
  intros Hproper Hp H. unfold create_key in H.
  destruct (parent p) as [[|c directory]|]; [done| |done].
  unfold sys_try, sys_map_err, sys_bind, ret in H.
  destruct (create_dir_all _ env s) as [a s1] eqn:E1.
  apply plain_create_dir_all in E1; [|congruence|done]. destruct a; cbn [map_err] in H; [|done].
  destruct (generate draws) as [k0|]; [|done].
  destruct (create_new (text p) PRIVATE_KEY_MODE env s1) as [a s2] eqn:E2.
  destruct a as [id|e].
  2: { destruct e; try done. destruct (load_key (text p) env s2) as [found s3] eqn:E3.
       destruct found as [[k'|]|]; cbn in H; simplify_eq.
       eapply load_key_concurrent; [by eapply plain_create_new|done]. }
  apply create_new_concurrent in E2 as (Hmine & u & He).
  destruct (write_all id _ env s2) as [a s3] eqn:E3.
  destruct a as [[]|x]; cbn beta iota in H; [|by destruct (remove_file _ _ _)].
  apply (write_all_concurrent _ _ u) in E3; [|done..].
  destruct (sync_all env s3) as [a s4] eqn:E4. eapply query_holds in E4; [|exact E3].
  destruct a; cbn beta iota in H; [|by destruct (remove_file _ _ _)].
  destruct (open_dir _ env s4) as [a s5] eqn:E5. eapply query_holds in E5; [|exact E4].
  destruct a; cbn [map_err] in H; [|done].
  destruct (sync_all env s5) as [a s6] eqn:E6. eapply query_holds in E6; [|exact E5].
  destruct a; cbn [map_err] in H; by simplify_eq.
Qed.
End concurrent.

(** C37: Opening the VAPID key leaves a sound key file, whatever calls fail,
    before or after taking effect, while no other process changes the machine.  A
    returned key is in the file, readable by nobody else, and every later start
    returns it again without touching the disk.  A failed start leaves the path as
    it was, unless there was no file and now there is: the complete key that the
    next start will use, when only the directory could not be synced; an
    unfinished file whose removal failed too; or an empty file that was created by
    a call that reported a failure, of which the server does not know. *)
Theorem key_file_sound env draws p s r s' :
  undisturbed env → parent p ≠ Some (text p) →
  open_key draws p env s = (r, s') →
  sound_end draws (text p) s r s'
  ∧ ∀ k, r = Ok k → ∀ env2 draws2 s2, calm env2 → world s2 = world s' →
      ∃ s3, open_key draws2 p env2 s2 = (Ok k, s3) ∧ world s3 = world s2.
Proof.
  intros Hund Hproper H.
  assert (sound_end draws (text p) s r s') as Hend.
  { unfold open_key, sys_try, sys_bind, ret in H.
    destruct (load_key (text p) env s) as [found s1] eqn:E.
    pose proof (load_key_extends _ _ _ _ _ E) as [l T]. apply load_key_world in E as [Hw Hk]; [|done].
    destruct found as [[k|]|]; simplify_eq; cbn; rewrite ?Hw; auto.
    apply (create_key_sound env) in H; [|done..]. unfold sound_end in *. rewrite Hw, T in H.
    destruct r; [done|]. destruct H as [?|[? [?|[?|(l' & x & en & -> & Hin & ?)]]]]; auto 10.
    right. split; [done|]. right; right. exists (l ++ l'), x, en.
    split; [by rewrite <- app_assoc|]. split; [set_solver|done]. }
  split; [done|]. intros k -> env2 draws2 s2 Hcalm Hs2. cbn in Hend.
  unfold open_key, sys_try, sys_bind, ret.
  destruct (load_key (text p) env2 s2) as [found s3] eqn:E.
  apply calm_load in E as [-> Hw]; [|done]. exists s3. by rewrite Hs2, Hend, Hw.
Qed.

(** C38: Daemons that start at the same time agree on the key.  Whatever calls
    fail and however the starts interleave: if each step of the others does what
    a start guarantees, then a start guarantees it of each of its own steps too,
    unless it fails to persist its file and so removes it; and a key it returns
    is the one in the file, then and after any further steps of other starts.
    A start that cannot sync its complete file breaks the guarantee: it removes
    a key that another start may have returned. *)
Theorem concurrent_starts_agree env draws p s r s' :
  let mine id := ∃ i, id = fresh (env i) in
  (∀ i w, rtc (others mine (text p)) w (interference (env i) w)) →
  parent p ≠ Some (text p) → (∀ e, entries (world s) !! text p = Some e → regular e) →
  open_key draws p env s = (r, s') →
  ((∀ x, r ≠ Err (KeyNotPersisted x)) →
   ∃ own, steps s' = steps s ++ own
     ∧ ∀ w w', (w, w') ∈ own → guarantee mine (text p) w w')
  ∧ ∀ k, r = Ok k → ∀ later, rtc (others mine (text p)) (world s') later →
      key_on_disk later (text p) = Ok (Some k).
Proof.
  intros mine Hothers Hproper Hplain H.
  assert (∀ i w, respects mine (text p) w (interference (env i) w)) as Hrely
    by (intros; by apply others_respect).
  unfold open_key, sys_try, sys_bind, ret in H.
  destruct (load_key (text p) env s) as [found s1] eqn:E. split.
  - intros Hr. enough (guarded env p s s') as (l & El & Hl).
    { exists l. split; [done|]. intros w w' Hin. rewrite Forall_forall in Hl. exact (Hl _ Hin). }
    apply load_key_guarded in E as G. destruct found as [[k|]|]; simplify_eq; [done| |done].
    destruct G as (l1 & E1 & G1), (create_key_guarded _ _ Hrely _ _ _ _ Hproper H Hr) as (l2 & E2 & G2).
    exists (l1 ++ l2). rewrite E2, E1, app_assoc. split; [done|by apply Forall_app].
  - intros k -> later Hlater.
    assert (holds_key p k (world s')) as Hs'.
    { destruct found as [[k'|]|]; simplify_eq.
      - by eapply load_key_concurrent.
      - eapply create_key_concurrent; [done|done| |done]. by eapply plain_load_key. }
    enough (holds_key p k later) as (e & _ & _ & Hk) by done.
    eapply holds_key_moves; [done|]. intros e He Hc. apply (others_respect _ _ _ _ Hlater); auto.
Qed.
End key_file.

(** ** A concrete curve *)

(** Keys of 32 equal bytes. *)
Definition sample_p256 : P256 :=
  {| SecretKey := byte;
     secret_from_slice := λ b,
       match b with
       | k :: _ => if decide (b = replicate 32 k) then Some k else None
       | [] => None
       end;
     secret_to_bytes := replicate 32;
     uncompressed_public_key := λ k, [k];
     base64_url := λ b, b |}.
#[export] Instance sample_p256_spec : P256Spec sample_p256.
Proof. split; [done|]. intros k. cbn. by rewrite decide_True. Qed.

Definition sample_key : VapidKey (H := sample_p256) :=
  @Build_VapidKey sample_p256 Byte.x07.

Lemma newest_wake_is_published_witness :
  ∃ c, push_run [WakeSent {| reasons := [byte_string "a"] |};
                 WakeSent {| reasons := [byte_string "a"; byte_string "b"] |};
                 SleepOver; PublishDone] start_coalescer = Some c
       ∧ last (published c) = Some {| reasons := [byte_string "a"; byte_string "b"] |}.
Proof.
  eexists. split; [reflexivity|].
  refine (proj1 (proj2 (proj2 (newest_wake_is_published
    [WakeSent {| reasons := [byte_string "a"] |};
     WakeSent {| reasons := [byte_string "a"; byte_string "b"] |};
     SleepOver; PublishDone] _ eq_refl))) eq_refl).
Defined.

(** A first start on the sample machine. *)
Definition sample_start : result VapidKey KeyError * Machine :=
  open_key (H := sample_p256) [Some (replicate 32 Byte.x07)] (run_path "/run/vapid.key")
    quiet_env sample_machine.

Lemma sample_start_key : sample_start = (Ok sample_key, sample_start.2).
Proof.
  assert (sample_start.1 = Ok sample_key) as E by (vm_compute; reflexivity).
  rewrite <- E. apply surjective_pairing.
Qed.

Lemma key_file_sound_witness :
  key_on_disk (P := sample_p256) (world sample_start.2) (byte_string "/run/vapid.key")
  = Ok (Some sample_key).
Proof.
  refine (proj1 (key_file_sound (P := sample_p256) quiet_env [Some (replicate 32 Byte.x07)]
    (run_path "/run/vapid.key") sample_machine _ _ _ _ sample_start_key)).
  - exact (proj1 quiet_env_calm).
  - discriminate.
Defined.

Lemma concurrent_starts_agree_witness :
  key_on_disk (P := sample_p256) (world sample_start.2) (byte_string "/run/vapid.key")
  = Ok (Some sample_key).
Proof.
  refine (proj2 (concurrent_starts_agree (P := sample_p256) quiet_env [Some (replicate 32 Byte.x07)]
    (run_path "/run/vapid.key") sample_machine _ _ _ _ _ sample_start_key) _ eq_refl _ (rtc_refl _ _)).
  - intros i w. apply rtc_refl.
  - discriminate.
  - intros e He. discriminate.
Defined.

(** The exception: the sync of the complete key file fails.  Its key could have
    been loaded by another start before the file is removed. *)
Definition unsynced_env (i : nat) : Env :=
  {| interference := λ w, w; failure := if decide (i = 4) then Some (OtherError 5) else None;
     late := false; partial := 0; fresh := (1, N.of_nat i + 100)%N; umask := 18 |}.

Lemma unsynced_key_is_withdrawn :
  let '(r, s') := open_key (H := sample_p256) [Some (replicate 32 Byte.x07)]
                    (run_path "/run/vapid.key") unsynced_env sample_machine in
  r = Err (KeyNotPersisted (OtherError 5))
  ∧ (λ st, (key_on_disk (P := sample_p256) st.1 (byte_string "/run/vapid.key"),
            key_on_disk (P := sample_p256) st.2 (byte_string "/run/vapid.key"))) <$> last (steps s')
    = Some (Ok (Some sample_key), Ok None).
Proof. by vm_compute. Qed.
