(* ===== verification/Text.v ===== *)
(** * Text: string operations of the web and command-line code

    What [web/assets.rs] and [cli.rs] use of Rust's [str]: [split], [trim],
    [trim_start_matches], [replace], [replacen], [to_ascii_lowercase], and the
    formatting of bytes as hexadecimal digits.  A string is its UTF-8 bytes. *)

From S2P Require Import Prelude Bytes Utf8.

(** ** Operations *)

(** [str::split(sep)] for an ASCII separator: always at least one piece. *)
Fixpoint split_on (sep : byte) (l : bytes) : list bytes :=
  match l with
  | [] => [[]]
  | b :: l =>
      if decide (b = sep) then [] :: split_on sep l
      else
        match split_on sep l with
        | piece :: pieces => (b :: piece) :: pieces
        | [] => [[b]]
        end
  end.

Definition white (c : chunk) : bool :=
  match c with Char n _ => is_whitespace n | Malformed_sequence => false end.
Fixpoint skip_white (l : list chunk) : list chunk :=
  match l with
  | c :: rest => if white c then skip_white rest else l
  | [] => []
  end.
(** [str::trim] *)
Definition trim (l : bytes) : bytes :=
  mjoin (chunk_bytes <$> reverse (skip_white (reverse (skip_white (utf8_chunks l))))).

Definition starts_with (pat l : bytes) : bool := bool_decide (take (length pat) l = pat).

(** [str::trim_start_matches("W/")] *)
Fixpoint trim_weak (l : bytes) : bytes :=
  match l with
  | Byte.x57 :: Byte.x2f :: rest => trim_weak rest
  | _ => l
  end.

(** [str::replace] of one ASCII character. *)
Definition replace_byte (from : byte) (by_ l : bytes) : bytes :=
  mjoin ((λ b, if decide (b = from) then by_ else [b]) <$> l).

(** [str::replacen(pat, by, 1)]: the first occurrence, if any. *)
Fixpoint replace_first (pat by_ l : bytes) : bytes :=
  if starts_with pat l then by_ ++ drop (length pat) l
  else
    match l with
    | [] => []
    | b :: l => b :: replace_first pat by_ l
    end.

(** [str::to_ascii_lowercase] *)
Definition to_ascii_lowercase (l : bytes) : bytes :=
  (λ b, if between 65 90 b then byte_of_N (Byte.to_N b + 32) else b) <$> l.

(** A lower-case hexadecimal digit, and [{byte:02x}]. *)
Definition hex_nibble (n : N) : byte :=
  byte_of_N (if (n <? 10)%N then 48 + n else 87 + n).
Definition hex_byte (b : byte) : bytes :=
  [hex_nibble (Byte.to_N b `div` 16); hex_nibble (Byte.to_N b `mod` 16)].
Definition hex_bytes (l : bytes) : bytes := mjoin (hex_byte <$> l).

(** ** Lemmas *)

(** Visible ASCII characters. *)
Definition visible (b : byte) : Prop := between 33 126 b = true.

Lemma between_spec lo hi b : between lo hi b = true ↔ (lo ≤ Byte.to_N b ≤ hi)%N.
Proof. unfold between. rewrite andb_true_iff, !N.leb_le. done. Qed.

Lemma split_on_none sep l : sep ∉ l → split_on sep l = [l].
Proof.
  induction l as [|b l IH]; cbn; [done|]. intros [Hne Hl]%not_elem_of_cons.
  by rewrite decide_False, (IH Hl).
Qed.

Lemma split_on_app sep l1 l2 :
  sep ∉ l1 → split_on sep (l1 ++ sep :: l2) = l1 :: split_on sep l2.
Proof.
  induction l1 as [|b l1 IH]; cbn; [by rewrite decide_True|].
  intros [Hne Hl]%not_elem_of_cons. by rewrite decide_False, (IH Hl).
Qed.

Lemma ascii_chunk b l :
  between 0 127 b = true → utf8_chunks (b :: l) = Char (Byte.to_N b) [b] :: utf8_chunks l.
Proof. intros H. cbn. by rewrite H. Qed.

Lemma visible_ascii b : visible b → between 0 127 b = true.
Proof. unfold visible. rewrite !between_spec. lia. Qed.

Lemma visible_not_white b : visible b → is_whitespace (Byte.to_N b) = false.
Proof.
  intros [H1 H2]%between_spec. unfold is_whitespace.
  repeat match goal with |- context [(?a <=? ?b)%N] => destruct (N.leb_spec a b); try lia
    | |- context [(?a =? ?b)%N] => destruct (N.eqb_spec a b); try lia end; done.
Qed.

Definition ascii_chunks (l : bytes) : list chunk := (λ b, Char (Byte.to_N b) [b]) <$> l.

Lemma utf8_chunks_ascii l : Forall (λ b, between 0 127 b = true) l → utf8_chunks l = ascii_chunks l.
Proof.
  induction 1 as [|b l Hb _ IH]; [done|]. by rewrite ascii_chunk, IH.
Qed.

Lemma ascii_chunks_bytes l : mjoin (chunk_bytes <$> ascii_chunks l) = l.
Proof. induction l as [|b l IH]; [done|]. exact (f_equal (cons b) IH). Qed.

Lemma skip_white_id l : (∀ c, c ∈ l → white c = false) → skip_white l = l.
Proof. destruct l as [|c l]; [done|]. intros H. cbn. by rewrite (H c (list_elem_of_here _ _)). Qed.

(** Nothing to trim in visible text. *)
Lemma trim_visible l : Forall visible l → trim l = l.
Proof.
  intros H. unfold trim.
  rewrite utf8_chunks_ascii by (eapply Forall_impl; [exact H|]; apply visible_ascii).
  assert (∀ c, c ∈ ascii_chunks l → white c = false) as Hw.
  { intros c (b & -> & Hb)%list_elem_of_fmap. cbn. apply visible_not_white.
    by eapply Forall_forall in H. }
  rewrite (skip_white_id (ascii_chunks l)) by done.
  rewrite skip_white_id by (intros c Hc; apply Hw; by rewrite elem_of_reverse in Hc).
  by rewrite reverse_involutive, ascii_chunks_bytes.
Qed.

(** Surrounding spaces are trimmed off visible text. *)
Lemma trim_space_l l : trim (Byte.x20 :: l) = trim l.
Proof. unfold trim. by rewrite ascii_chunk. Qed.

Lemma replace_byte_removes from by_ l : from ∉ by_ → from ∉ replace_byte from by_ l.
Proof.
  intros Hby Hin. unfold replace_byte in Hin. apply list_elem_of_join in Hin as (piece & Hin & Hp).
  apply list_elem_of_fmap in Hp as (b & -> & _). destruct (decide (b = from)); [done|].
  by apply list_elem_of_singleton in Hin.
Qed.

Lemma starts_with_app pat l : starts_with pat l = true → l = pat ++ drop (length pat) l.
Proof. unfold starts_with. intros H%bool_decide_eq_true. rewrite <- H at 1. by rewrite take_drop. Qed.

(** One occurrence is replaced, or there is none and nothing changes. *)
Lemma replace_first_spec pat by_ l :
  replace_first pat by_ l = l
  ∨ ∃ pre post, l = pre ++ pat ++ post ∧ replace_first pat by_ l = pre ++ by_ ++ post.
Proof.
  induction l as [|b l IH]; cbn [replace_first].
  - destruct (starts_with pat []) eqn:E; [|by left]. right. exists [], (drop (length pat) []).
    split; [by apply starts_with_app|done].
  - destruct (starts_with pat (b :: l)) eqn:E.
    + right. exists [], (drop (length pat) (b :: l)). split; [by apply starts_with_app|done].
    + destruct IH as [->|(pre & post & -> & ->)]; [by left|].
      right. by exists (b :: pre), post.
Qed.

Lemma to_N_hex_nibble n :
  (n < 16)%N → Byte.to_N (hex_nibble n) = (if (n <? 10)%N then 48 + n else 87 + n)%N.
Proof.
  intros Hn. unfold hex_nibble. rewrite to_N_byte_of_N. apply N.mod_small.
  destruct (n <? 10)%N; lia.
Qed.

Lemma hex_nibble_inj n m : (n < 16)%N → (m < 16)%N → hex_nibble n = hex_nibble m → n = m.
Proof.
  intros Hn Hm E%(f_equal Byte.to_N). rewrite !to_N_hex_nibble in E by done.
  destruct (N.ltb_spec n 10), (N.ltb_spec m 10); lia.
Qed.

Lemma hex_byte_inj a b : hex_byte a = hex_byte b → a = b.
Proof.
  pose proof (to_N_lt_256 a). pose proof (to_N_lt_256 b).
  intros [= H1 H2]. apply hex_nibble_inj in H1; [|apply N.Div0.div_lt_upper_bound; lia..].
  apply hex_nibble_inj in H2; [|apply N.mod_lt; lia..].
  apply to_N_inj. rewrite (N.div_mod (Byte.to_N a) 16), (N.div_mod (Byte.to_N b) 16) by done.
  congruence.
Qed.

Lemma hex_bytes_inj l1 l2 : hex_bytes l1 = hex_bytes l2 → l1 = l2.
Proof.
  revert l2. induction l1 as [|a l1 IH]; intros [|b l2]; [done..|].
  unfold hex_bytes in *. cbn. intros H. injection H as H1 H2 H3.
  f_equal; [by apply hex_byte_inj; unfold hex_byte; congruence|by apply IH].
Qed.

(** Hexadecimal digits are letters or digits. *)
Lemma hex_bytes_range l b :
  b ∈ hex_bytes l → between 48 57 b = true ∨ between 97 102 b = true.
Proof.
  intros (piece & Hb & (x & -> & _)%list_elem_of_fmap)%list_elem_of_join.
  pose proof (to_N_lt_256 x) as Hx.
  assert (∃ n, (n < 16)%N ∧ b = hex_nibble n) as (n & Hn & ->).
  { apply elem_of_cons in Hb as [->|[->|[]%not_elem_of_nil]%elem_of_cons].
    - eexists. split; [|done]. apply N.Div0.div_lt_upper_bound; lia.
    - eexists. split; [|done]. apply N.mod_lt. lia. }
  rewrite !between_spec, to_N_hex_nibble by done. destruct (N.ltb_spec n 10); lia.
Qed.
