(* ===== verification/Web.v ===== *)
(** * Web: the embedded web application's files

    Models [crates/server/src/web/assets.rs]: which file a request gets, its
    caching headers, conditional requests, and the page with the Sentry DSN put
    into it.

    The embedded files ([rust_embed]), MIME types, JSON strings and SHA-256 are
    parameters; request matching ([axum]) is not modelled. *)

From stdpp Require Import pretty.
From S2P Require Import Prelude Bytes Utf8 Packet Pairing Text.

Definition IMMUTABLE_CACHE : rstring := byte_string "public, max-age=31536000, immutable".
Definition REVALIDATE_CACHE : rstring := byte_string "no-cache".
(** The double quote. *)
Definition QUOTE : byte := Byte.x22.
Definition SENTRY_DSN_PLACEHOLDER : bytes :=
  QUOTE :: byte_string "__AGENT_WITNESS_SENTRY_DSN__" ++ [QUOTE].

(** [rust_embed::EmbeddedFile]: the data and its SHA-256 metadata. *)
Record EmbeddedFile := {
  data : bytes;
  sha256_hash : bytes;
}.

Class WebLib := {
  (** [Assets::get] *)
  get_asset : rstring → option EmbeddedFile;
  (** [mime_guess::from_path(path).first_or_octet_stream()] *)
  mime_type : rstring → rstring;
  (** [serde_json::to_string] of an optional string *)
  json_optional_string : option rstring → rstring;
}.
(** The parts of a response the code sets. *)
Record Response := {
  status : N;
  cache_control : option rstring;
  etag_header : option rstring;
  nosniff : bool;
  content_type : option rstring;
  content_length : option rstring;
  body : bytes;
}.

Definition NOT_FOUND : Response :=
  {| status := 404; cache_control := None; etag_header := None; nosniff := false;
     content_type := None; content_length := None; body := [] |}.

(** A handler responds, or panics in an [expect]. *)
Inductive Handled :=
| Responded (r : Response)
| Panicked.

(** [HeaderValue::from_str]: visible ASCII, spaces and tabs, and bytes above
    127. *)
Definition header_byte (b : byte) : bool :=
  between 32 255 b && negb (bool_decide (b = Byte.x7f)) || bool_decide (b = Byte.x09).
Definition valid_header (l : rstring) : bool := forallb header_byte l.

(** [HeaderValue::to_str]: [None] unless visible ASCII, spaces and tabs. *)
Definition header_to_str (l : bytes) : option rstring :=
  if forallb (λ b, between 32 126 b || bool_decide (b = Byte.x09)) l then Some l else None.

(** [etag], and [etag_bytes] of the digest: a quoted hexadecimal hash. *)
Definition etag_of_hash (hash : bytes) : rstring := QUOTE :: hex_bytes hash ++ [QUOTE].
Definition etag (f : EmbeddedFile) : rstring := etag_of_hash (sha256_hash f).
Definition etag_bytes `{Digest} (b : bytes) : rstring := etag_of_hash (sha256 b).

(** [matches_etag], given the request's first [If-None-Match] header. *)
Definition candidate_matches (tag candidate : rstring) : bool :=
  let candidate := trim candidate in
  bool_decide (candidate = byte_string "*") || bool_decide (trim_weak candidate = tag).
Definition matches_etag (if_none_match : option bytes) (tag : rstring) : bool :=
  match if_none_match ≫= header_to_str with
  | Some value => existsb (candidate_matches tag) (split_on Byte.x2c value)
  | None => false
  end.

(** [response] *)
Definition response (code : N) (contents : bytes) (cache tag : rstring) : Handled :=
  if valid_header tag then
    Responded {| status := code; cache_control := Some cache; etag_header := Some tag;
                 nosniff := true; content_type := None; content_length := None;
                 body := contents |}
  else Panicked.

Section assets.
Context `{WebLib} `{Digest}.

(** [serve_data] *)
Definition serve_data (path : rstring) (contents : bytes) (cache : rstring)
    (if_none_match : option bytes) (tag : rstring) : Handled :=
  if matches_etag if_none_match tag then response 304 [] cache tag
  else
    match response 200 contents cache tag with
    | Panicked => Panicked
    | Responded r =>
        let length := byte_string (pretty (len contents)) in
        if valid_header (mime_type path) && valid_header length then
          Responded {| status := status r; cache_control := cache_control r;
                       etag_header := etag_header r; nosniff := nosniff r;
                       content_type := Some (mime_type path); content_length := Some length;
                       body := body r |}
        else Panicked
    end.

(** [serve] *)
Definition serve_asset (path cache : rstring) (if_none_match : option bytes) : Handled :=
  match get_asset path with
  | None => Responded NOT_FOUND
  | Some file => serve_data path (data file) cache if_none_match (etag file)
  end.

(** [manifest], [service_worker] and [asset] *)
Definition manifest : option bytes → Handled :=
  serve_asset (byte_string "manifest.webmanifest") REVALIDATE_CACHE.
Definition service_worker : option bytes → Handled :=
  serve_asset (byte_string "service-worker.js") REVALIDATE_CACHE.
Definition asset (path : rstring) : option bytes → Handled :=
  serve_asset (byte_string "assets/" ++ path) IMMUTABLE_CACHE.

(** The DSN as a script expression: JSON with [<] escaped. *)
Definition dsn_literal (dsn : option rstring) : rstring :=
  replace_byte Byte.x3c (byte_string "\u003c") (json_optional_string dsn).

(** The page [index] serves. *)
Definition index_page (source : rstring) (dsn : option rstring) : bytes :=
  replace_first SENTRY_DSN_PLACEHOLDER (dsn_literal dsn) source.

(** [index] *)
Definition index (dsn : option rstring) (if_none_match : option bytes) : Handled :=
  match get_asset (byte_string "index.html") with
  | None => Responded NOT_FOUND
  | Some file =>
      match from_utf8 (data file) with
      | None => Panicked
      | Some source =>
          let page := index_page source dsn in
          serve_data (byte_string "index.html") page REVALIDATE_CACHE if_none_match
            (etag_bytes page)
      end
  end.
End assets.
