(* ===== verification/WebProps.v ===== *)
(** * WebProps: caching, conditional requests and the injected DSN

    Properties of [Web]. *)

From stdpp Require Import pretty.
From S2P Require Import Prelude Bytes Utf8 Packet Pairing Text Web.

(** ** Headers *)

Definition digit (b : byte) : Prop := between 48 57 b = true.

Lemma byte_string_cons c s : byte_string (String.String c s) = Ascii.byte_of_ascii c :: byte_string s.
Proof. done. Qed.

Lemma pretty_char_digit x : (x < 10)%N → digit (Ascii.byte_of_ascii (pretty_N_char x)).
Proof.
  intros Hx. assert (x = 0 ∨ x = 1 ∨ x = 2 ∨ x = 3 ∨ x = 4 ∨ x = 5 ∨ x = 6 ∨ x = 7 ∨ x = 8 ∨ x = 9)%N
    as H by lia.
  destruct_or! H; subst; done.
Qed.

Lemma pretty_go_digits x s :
  Forall digit (byte_string s) → Forall digit (byte_string (pretty_N_go x s)).
Proof.
  revert s. induction (N.lt_wf_0 x) as [x _ IH]. intros s Hs.
  destruct (decide (x = 0%N)) as [->|Hx]; [by rewrite pretty_N_go_0|].
  rewrite pretty_N_go_step by lia. apply IH; [apply N.div_lt; lia|].
  rewrite byte_string_cons. constructor; [|done]. apply pretty_char_digit. by apply N.mod_lt.
Qed.

Lemma pretty_digits (n : N) : Forall digit (byte_string (pretty n)).
Proof.
  unfold pretty, pretty_N. case_decide; [by repeat constructor|].
  by apply pretty_go_digits.
Qed.

Lemma valid_header_Forall l : valid_header l = true ↔ Forall (λ b, header_byte b = true) l.
Proof. unfold valid_header. rewrite forallb_forall, Forall_forall. by setoid_rewrite list_elem_of_In. Qed.

Lemma visible_header b : visible b → header_byte b = true.
Proof.
  intros Hb. unfold header_byte. rewrite orb_true_iff, andb_true_iff, negb_true_iff. left.
  apply between_spec in Hb. split; [apply between_spec; lia|].
  apply bool_decide_eq_false. intros ->. by cbn in Hb; lia.
Qed.

Lemma digit_visible b : digit b → visible b.
Proof. unfold digit, visible. rewrite !between_spec. lia. Qed.

Lemma length_header (n : N) : valid_header (byte_string (pretty n)) = true.
Proof.
  apply valid_header_Forall. eapply Forall_impl; [apply pretty_digits|].
  intros b Hb. by apply visible_header, digit_visible.
Qed.

(** ** Tags *)

(** The bytes of a tag: visible, and neither a comma nor a letter [W]. *)
Lemma etag_bytes_visible hash b :
  b ∈ etag_of_hash hash → visible b ∧ b ≠ Byte.x2c ∧ b ≠ Byte.x20.
Proof.
  unfold etag_of_hash. intros [->|[Hb| ->%list_elem_of_singleton]%elem_of_app]%elem_of_cons; [done| |done].
  apply hex_bytes_range in Hb. unfold visible. rewrite !between_spec in *.
  split; [lia|]. split; intros ->; cbn in Hb; lia.
Qed.

Lemma etag_visible hash : Forall visible (etag_of_hash hash).
Proof. apply Forall_forall. intros b Hb. by apply etag_bytes_visible in Hb as [? _]. Qed.

Lemma etag_valid_header hash : valid_header (etag_of_hash hash) = true.
Proof.
  apply valid_header_Forall. eapply Forall_impl; [apply etag_visible|]. apply visible_header.
Qed.

Lemma etag_inj h1 h2 : etag_of_hash h1 = etag_of_hash h2 → h1 = h2.
Proof.
  unfold etag_of_hash. intros H%(inj (cons QUOTE))%(inj (λ l, l ++ [QUOTE])).
  by apply hex_bytes_inj.
Qed.

(** A tag as a client may send it back: strong or weak. *)
Definition sent_tag (t : bool * bytes) : rstring :=
  (if t.1 then byte_string "W/" else []) ++ etag_of_hash t.2.

Lemma sent_tag_bytes t b : b ∈ sent_tag t → visible b ∧ b ≠ Byte.x2c.
Proof.
  unfold sent_tag. intros [Hb|Hb]%elem_of_app.
  - destruct t.1; [|by apply not_elem_of_nil in Hb].
    apply elem_of_cons in Hb as [->|Hb]; [done|]. by apply list_elem_of_singleton in Hb as ->.
  - by apply etag_bytes_visible in Hb as (? & ? & _).
Qed.

Lemma trim_weak_sent t : trim_weak (sent_tag t) = etag_of_hash t.2.
Proof. unfold sent_tag. by destruct t.1. Qed.

Lemma sent_tag_matches hash t :
  candidate_matches (etag_of_hash hash) (sent_tag t) = bool_decide (hash = t.2).
Proof.
  unfold candidate_matches.
  rewrite trim_visible by (apply Forall_forall; intros b Hb; by apply sent_tag_bytes in Hb as [? _]).
  rewrite trim_weak_sent.
  rewrite (bool_decide_false (sent_tag t = _)).
  - cbn. apply bool_decide_ext. split; [by intros ->%etag_inj|by intros ->].
  - unfold sent_tag. destruct t.1; [done|]. unfold etag_of_hash. cbn. intros [=].
Qed.

Lemma candidate_space tag c : candidate_matches tag (Byte.x20 :: c) = candidate_matches tag c.
Proof. unfold candidate_matches. by rewrite trim_space_l. Qed.

(** The tags of an [If-None-Match] header, separated by commas and spaces. *)
Fixpoint tag_list (t : bool * bytes) (rest : list (bool * bytes)) : rstring :=
  match rest with
  | [] => sent_tag t
  | t' :: rest => sent_tag t ++ Byte.x2c :: Byte.x20 :: tag_list t' rest
  end.

Lemma tag_list_matches hash t rest :
  existsb (candidate_matches (etag_of_hash hash)) (split_on Byte.x2c (tag_list t rest))
  = bool_decide (hash ∈ (t :: rest).*2).
Proof.
  assert (∀ t, Byte.x2c ∉ sent_tag t) as Hno by (intros t' Hin; by apply sent_tag_bytes in Hin as []).
  revert t. induction rest as [|t' rest IH]; intros t; cbn [tag_list].
  - rewrite split_on_none by done. cbn. rewrite sent_tag_matches, orb_false_r.
    apply bool_decide_ext. by rewrite list_elem_of_singleton.
  - rewrite split_on_app by done. cbn [existsb fmap list_fmap].
    rewrite sent_tag_matches.
    assert (existsb (candidate_matches (etag_of_hash hash))
              (split_on Byte.x2c (Byte.x20 :: tag_list t' rest))
            = bool_decide (hash ∈ (t' :: rest).*2)) as ->.
    { rewrite <- IH. cbn [split_on]. rewrite decide_False by done.
      destruct (split_on Byte.x2c (tag_list t' rest)) as [|piece pieces] eqn:E; [|].
      - destruct (tag_list t' rest) as [|b l]; cbn in E; [done|].
        destruct (decide _); [done|]. by destruct (split_on Byte.x2c l).
      - cbn. by rewrite candidate_space. }
    rewrite <- bool_decide_or. apply bool_decide_ext. symmetry. apply elem_of_cons.
Qed.

(** ** The theorems *)

(** The complete response with a file, and the short one for a client that has
    it. *)
Definition full_response `{WebLib} (path contents cache tag : rstring) : Response :=
  {| status := 200; cache_control := Some cache; etag_header := Some tag; nosniff := true;
     content_type := Some (mime_type path);
     content_length := Some (byte_string (pretty (len contents))); body := contents |}.
Definition not_modified (cache tag : rstring) : Response :=
  {| status := 304; cache_control := Some cache; etag_header := Some tag; nosniff := true;
     content_type := None; content_length := None; body := [] |}.

Section theorems.
Context `{W : WebLib} `{D : Digest}.
Context (mime_valid : ∀ path, valid_header (mime_type path) = true).

Lemma serve_data_cases path contents cache inm hash :
  serve_data path contents cache inm (etag_of_hash hash)
  = Responded (if matches_etag inm (etag_of_hash hash)
               then not_modified cache (etag_of_hash hash)
               else full_response path contents cache (etag_of_hash hash)).
Proof.
  unfold serve_data, response. rewrite etag_valid_header, mime_valid, length_header.
  by destruct (matches_etag inm (etag_of_hash hash)).
Qed.

Lemma tag_list_header t rest : header_to_str (tag_list t rest) = Some (tag_list t rest).
Proof.
  unfold header_to_str.
  assert (forallb (λ b, between 32 126 b || bool_decide (b = Byte.x09)) (tag_list t rest) = true) as ->; [|done].
  assert (∀ t b, b ∈ sent_tag t → between 32 126 b = true) as Htag.
  { intros t' b [Hb _]%sent_tag_bytes. unfold visible in Hb. rewrite between_spec in *. lia. }
  apply forallb_forall. intros b Hb%list_elem_of_In. apply orb_true_iff. left. revert t Hb.
  induction rest as [|t' rest IH]; intros t Hb; cbn [tag_list] in Hb; [by eapply Htag|].
  apply elem_of_app in Hb as [Hb|[->|[->|Hb]%elem_of_cons]%elem_of_cons]; eauto.
Qed.

Lemma tag_list_matches_etag hash t rest :
  matches_etag (Some (tag_list t rest)) (etag_of_hash hash) = bool_decide (hash ∈ (t :: rest).*2).
Proof. unfold matches_etag. cbn [mbind option_bind]. by rewrite tag_list_header, tag_list_matches. Qed.

(** Conditional requests are answered exactly.  An embedded file is served
    whole, with its length, its cache policy and the tag of its hash, to a client
    that sends no tag or only tags of other hashes; a client that sends
    the file's own tag, strong or weak, alone or among others, or [*], gets the
    short answer with the same tag and no body.  No answer panics. *)
Theorem conditional_requests path f cache t rest :
  get_asset path = Some f →
  serve_asset path cache None = Responded (full_response path (data f) cache (etag f))
  ∧ serve_asset path cache (Some (tag_list t rest))
    = Responded (if decide (sha256_hash f ∈ (t :: rest).*2) then not_modified cache (etag f)
                 else full_response path (data f) cache (etag f))
  ∧ serve_asset path cache (Some (byte_string "*")) = Responded (not_modified cache (etag f)).
Proof.
  intros Hf. unfold serve_asset. rewrite Hf. unfold etag. rewrite !serve_data_cases.
  split_and!; [done| |done]. rewrite tag_list_matches_etag.
  by destruct (decide _) as [Hin|Hin]; [rewrite bool_decide_true|rewrite bool_decide_false].
Qed.

(** The page is the embedded one with the DSN in place of the placeholder,
    and the DSN cannot end the script it is put into: the text put in has no [<].
    The page's tag is that of the page as served. *)
Theorem injected_dsn_is_inert dsn f inm :
  get_asset (byte_string "index.html") = Some f → valid_utf8 (data f) = true →
  ∃ page,
    (page = data f ∨ ∃ pre post, data f = pre ++ SENTRY_DSN_PLACEHOLDER ++ post
                                 ∧ page = pre ++ dsn_literal dsn ++ post)
    ∧ Byte.x3c ∉ dsn_literal dsn
    ∧ index dsn inm
      = Responded (if matches_etag inm (etag_bytes page)
                   then not_modified REVALIDATE_CACHE (etag_bytes page)
                   else full_response (byte_string "index.html") page REVALIDATE_CACHE
                          (etag_bytes page)).
Proof.
  intros Hf Hutf. exists (index_page (data f) dsn). split_and!.
  - apply replace_first_spec.
  - apply replace_byte_removes. apply (bool_decide_unpack _). by vm_compute.
  - unfold index. rewrite Hf. unfold from_utf8. rewrite Hutf. apply serve_data_cases.
Qed.
End theorems.

(** ** A small site *)

Definition sample_web : WebLib :=
  {| get_asset := λ path,
       if decide (path = byte_string "index.html") then
         Some {| data := byte_string "<script>dsn=" ++ SENTRY_DSN_PLACEHOLDER ++ byte_string "</script>";
                 sha256_hash := [Byte.x01; Byte.xab] |}
       else None;
     mime_type := λ _, byte_string "text/html";
     json_optional_string := λ dsn,
       match dsn with
       | None => byte_string "null"
       | Some dsn => QUOTE :: dsn ++ [QUOTE]
       end |}.
Definition sample_sha256 : Digest := {| sha256 := take 4 |}.

Lemma conditional_requests_witness :
  serve_asset (H := sample_web) (byte_string "index.html") REVALIDATE_CACHE
    (Some (tag_list (false, [Byte.x00]) [(true, [Byte.x01; Byte.xab])]))
  = Responded (not_modified REVALIDATE_CACHE (etag_of_hash [Byte.x01; Byte.xab])).
Proof.
  exact (proj1 (proj2 (conditional_requests (W := sample_web) (λ _, eq_refl)
    (byte_string "index.html") _ REVALIDATE_CACHE (false, [Byte.x00])
    [(true, [Byte.x01; Byte.xab])] eq_refl))).
Defined.

Lemma injected_dsn_is_inert_witness :
  ∃ page, index (H := sample_web) (H0 := sample_sha256) (Some (byte_string "</script>")) None
          = Responded (full_response (H := sample_web) (byte_string "index.html") page
                         REVALIDATE_CACHE (etag_bytes (H := sample_sha256) page)).
Proof.
  destruct (injected_dsn_is_inert (W := sample_web) (D := sample_sha256) (λ _, eq_refl)
    (Some (byte_string "</script>")) _ None eq_refl eq_refl) as (page & _ & _ & H).
  exists page. exact H.
Defined.
