(* ===== verification/WebRouter.v ===== *)
(** * WebRouter: which handler answers an HTTP request

    Models [router] and [upgrade_agent] of [crates/server/src/web/mod.rs]: the
    routes, with and without the embedded web application, and what each of
    them answers.

    Matching a request against the routes is [axum]'s, the class [Axum] with its
    documented laws.  The Sentry layers around the router observe requests and
    do not change responses. *)

From S2P Require Import Prelude Bytes Utf8 Packet Pairing Text Web WebProps.

(** ** Routes *)

(** A literal path, or a prefix followed by [{*path}]. *)
Inductive Pattern :=
| Exact (path : rstring)
| Wildcard (prefix : rstring).

Inductive Endpoint := UpgradeAgent | IndexPage | ManifestFile | ServiceWorkerFile | AssetFile.
Inductive Method := Get | Head | OtherMethod.

Abbreviation Route := (Pattern * Endpoint)%type.

#[export] Instance Pattern_eq_dec : EqDecision Pattern.
Proof. solve_decision. Defined.
#[export] Instance Endpoint_eq_dec : EqDecision Endpoint.
Proof. solve_decision. Defined.

(** [Router::new().route(..)]; [embedded_ui] is the Cargo feature. *)
Definition routes (embedded_ui : bool) : list Route :=
  (Exact (byte_string "/api/agent"), UpgradeAgent)
  :: if embedded_ui then
       [(Exact (byte_string "/"), IndexPage);
        (Exact (byte_string "/manifest.webmanifest"), ManifestFile);
        (Exact (byte_string "/service-worker.js"), ServiceWorkerFile);
        (Wildcard (byte_string "/assets/"), AssetFile)]
     else [].

(** ** Matching *)

(** Whether a pattern covers a path, and what its wildcard, which is never
    empty, captures. *)
Definition covers (p : Pattern) (path : rstring) : option (option rstring) :=
  match p with
  | Exact literal => if decide (path = literal) then Some None else None
  | Wildcard prefix =>
      if decide (take (length prefix) path = prefix ∧ length prefix < length path) then
        Some (Some (drop (length prefix) path))
      else None
  end.

Inductive Routed :=
| ToEndpoint (endpoint : Endpoint) (captured : option rstring)
| NoRoute
| WrongMethod
| BadCapture.

Class Axum := {
  (** Percent-decoding of a captured segment; [None] when it is not UTF-8. *)
  percent_decode : rstring → option rstring;
  find_route : list Route → Method → rstring → Routed;
}.

(** [get(handler)] takes [GET] and [HEAD]. *)
Definition routed_to `{Axum} (endpoint : Endpoint) (captured : option rstring) (m : Method) : Routed :=
  match m, captured with
  | OtherMethod, _ => WrongMethod
  | _, None => ToEndpoint endpoint None
  | _, Some raw =>
      match percent_decode raw with
      | Some value => ToEndpoint endpoint (Some value)
      | None => BadCapture
      end
  end.

Class AxumSpec (X : Axum) : Prop := {
  (** A path no route covers has no handler. *)
  find_route_none : ∀ table m path,
    (∀ r, r ∈ table → covers r.1 path = None) → find_route table m path = NoRoute;
  (** A path exactly one route covers goes to its handler. *)
  find_route_only : ∀ table p endpoint captured m path,
    (p, endpoint) ∈ table → covers p path = Some captured →
    (∀ r, r ∈ table → r ≠ (p, endpoint) → covers r.1 path = None) →
    find_route table m path = routed_to endpoint captured m;
}.

(** ** Responses *)

Record WebState := {
  web_max_message_size : N;
  web_sentry_frontend_dsn : option rstring;
}.

Record Request := {
  method : Method;
  request_path : rstring;
  if_none_match : option bytes;
  (** Whether the request asks for a WebSocket upgrade [axum] can perform. *)
  upgradable : bool;
}.

(** What a request gets: an upgrade to a WebSocket whose messages are limited in
    size, a handler's response (without its body for [HEAD]), or a status [axum]
    answers with by itself. *)
Inductive Served :=
| Upgraded (max_message_size : N)
| NotUpgradable
| Handler (h : Handled)
| Status (code : N).

Section respond.
Context `{X : Axum} `{W : WebLib} `{D : Digest}.

(** [upgrade_agent], once the extractor has found an upgrade. *)
Definition upgrade_agent (st : WebState) (r : Request) : Served :=
  if upgradable r then Upgraded (web_max_message_size st) else NotUpgradable.

Definition respond (embedded_ui : bool) (st : WebState) (r : Request) : Served :=
  match find_route (routes embedded_ui) (method r) (request_path r) with
  | NoRoute => Status 404
  | WrongMethod => Status 405
  | BadCapture => Status 400
  | ToEndpoint UpgradeAgent _ => upgrade_agent st r
  | ToEndpoint IndexPage _ => Handler (index (web_sentry_frontend_dsn st) (if_none_match r))
  | ToEndpoint ManifestFile _ => Handler (manifest (if_none_match r))
  | ToEndpoint ServiceWorkerFile _ => Handler (service_worker (if_none_match r))
  | ToEndpoint AssetFile captured => Handler (asset (default [] captured) (if_none_match r))
  end.
End respond.

(** ** The routes do not overlap *)

Lemma covers_exact p path captured :
  covers (Exact p) path = Some captured → path = p ∧ captured = None.
Proof. unfold covers. case_decide; naive_solver. Qed.

Lemma covers_wildcard prefix path captured :
  covers (Wildcard prefix) path = Some captured →
  ∃ rest, path = prefix ++ rest ∧ rest ≠ [] ∧ captured = Some rest.
Proof.
  unfold covers. case_decide as H; [|done]. intros [= <-]. destruct H as [H Hl].
  exists (drop (length prefix) path). split_and!; [|intros Hd|done].
  - rewrite <- H at 1. symmetry. apply take_drop.
  - apply (f_equal length) in Hd. rewrite length_drop in Hd. simpl in Hd. lia.
Qed.

(** The file a route serves; the wildcard's files begin with [assets/]. *)
Definition published (name : rstring) : Prop :=
  name = byte_string "index.html" ∨ name = byte_string "manifest.webmanifest"
  ∨ name = byte_string "service-worker.js" ∨ ∃ path, name = byte_string "assets/" ++ path.

Lemma routes_disjoint ui r1 r2 path c1 c2 :
  r1 ∈ routes ui → r2 ∈ routes ui → covers r1.1 path = Some c1 → covers r2.1 path = Some c2 →
  r1 = r2.
Proof.
  intros H1 H2 C1 C2. destruct ui; unfold routes in *;
    repeat (apply elem_of_cons in H1 as [->|H1]); try (by apply not_elem_of_nil in H1);
    repeat (apply elem_of_cons in H2 as [->|H2]); try (by apply not_elem_of_nil in H2);
    try done; cbn [fst] in *;
    repeat match goal with
    | H : covers (Exact _) _ = _ |- _ => apply covers_exact in H as [? _]
    | H : covers (Wildcard _) _ = _ |- _ => apply covers_wildcard in H as (? & ? & _)
    end; by simplify_eq/=.
Qed.

(** ** Theorems *)

Section theorems.
Context `{X : Axum} `{!AxumSpec X}.

Lemma find_route_covered ui p endpoint captured m path :
  (p, endpoint) ∈ routes ui → covers p path = Some captured →
  find_route (routes ui) m path = routed_to endpoint captured m.
Proof.
  intros Hin Hc. eapply find_route_only; [done..|]. intros r Hr Hne.
  destruct (covers r.1 path) as [c|] eqn:E; [|done].
  destruct Hne. by eapply (routes_disjoint ui r (p, endpoint) path).
Qed.

(** A request that reaches a handler came in on one of its paths. *)
Lemma find_route_inv ui m path endpoint captured :
  find_route (routes ui) m path = ToEndpoint endpoint captured →
  ∃ p raw, (p, endpoint) ∈ routes ui ∧ covers p path = Some raw
    ∧ routed_to endpoint raw m = ToEndpoint endpoint captured.
Proof.
  intros Hf. destruct (decide (Exists (λ r, covers r.1 path ≠ None) (routes ui))) as [He|He].
  - apply Exists_exists in He as ([p e'] & Hin & Hc).
    destruct (covers p path) as [raw|] eqn:E; [|done].
    rewrite (find_route_covered ui p e' raw) in Hf by done.
    assert (e' = endpoint) as ->; [|by eauto 6].
    unfold routed_to in Hf. repeat case_match; by simplify_eq.
  - rewrite find_route_none in Hf; [done|]. intros r Hr. destruct (covers r.1 path) eqn:E; [|done].
    destruct He. apply Exists_exists. exists r. by rewrite E.
Qed.

(** Which path leads to which handler. *)
Lemma endpoint_path ui m path endpoint captured :
  find_route (routes ui) m path = ToEndpoint endpoint captured →
  match endpoint with
  | UpgradeAgent => path = byte_string "/api/agent"
  | IndexPage => ui = true ∧ path = byte_string "/"
  | ManifestFile => ui = true ∧ path = byte_string "/manifest.webmanifest"
  | ServiceWorkerFile => ui = true ∧ path = byte_string "/service-worker.js"
  | AssetFile => ui = true ∧ ∃ rest value, path = byte_string "/assets/" ++ rest ∧ rest ≠ []
                             ∧ percent_decode rest = Some value ∧ captured = Some value
  end.
Proof.
  intros (p & raw & Hin & Hc & Hr)%find_route_inv. destruct ui; unfold routes in Hin;
    repeat (apply elem_of_cons in Hin as [[= -> ->]|Hin]); try (by apply not_elem_of_nil in Hin);
    try (by apply covers_exact in Hc as [-> _]).
  apply covers_wildcard in Hc as (rest & -> & Hne & ->). split; [done|]. unfold routed_to in Hr.
  destruct m; try done; destruct (percent_decode rest) as [v|] eqn:Ed; simplify_eq; by exists rest, v.
Qed.

(** The routes, one by one: the agent endpoint upgrades to a WebSocket with the
    configured limit; with the web application its page, its two fixed files and
    its assets are served, by [GET] and [HEAD]; other methods are refused; any
    other path, and without the web application any path but the agent
    endpoint's, is not found. *)
Theorem routes_are_served `{W : WebLib} `{D : Digest} ui st r :
  let served h := match method r with OtherMethod => Status 405 | _ => h end in
  let page := Handler in
  (request_path r = byte_string "/api/agent" → respond ui st r = served (upgrade_agent st r))
  ∧ (request_path r = byte_string "/" → respond true st r
       = served (page (index (web_sentry_frontend_dsn st) (if_none_match r))))
  ∧ (request_path r = byte_string "/manifest.webmanifest" → respond true st r
       = served (page (manifest (if_none_match r))))
  ∧ (request_path r = byte_string "/service-worker.js" → respond true st r
       = served (page (service_worker (if_none_match r))))
  ∧ (∀ rest, request_path r = byte_string "/assets/" ++ rest → rest ≠ [] → respond true st r
       = served (match percent_decode rest with
                 | Some path => page (asset path (if_none_match r))
                 | None => Status 400
                 end))
  ∧ ((∀ x, x ∈ routes ui → covers x.1 (request_path r) = None) → respond ui st r = Status 404).
Proof.
  assert (∀ ui p endpoint captured, (p, endpoint) ∈ routes ui →
    covers p (request_path r) = Some captured →
    find_route (routes ui) (method r) (request_path r) = routed_to endpoint captured (method r)) as Hf
    by (intros; by eapply find_route_covered).
  cbn zeta. unfold respond. split_and!.
  - intros Hp. rewrite (Hf ui (Exact (byte_string "/api/agent")) UpgradeAgent None).
    + by destruct (method r).
    + apply list_elem_of_here.
    + by rewrite Hp.
  - intros Hp. rewrite (Hf true (Exact (byte_string "/")) IndexPage None).
    + by destruct (method r).
    + by apply (list_elem_of_lookup_2 _ 1).
    + by rewrite Hp.
  - intros Hp. rewrite (Hf true (Exact (byte_string "/manifest.webmanifest")) ManifestFile None).
    + by destruct (method r).
    + by apply (list_elem_of_lookup_2 _ 2).
    + by rewrite Hp.
  - intros Hp. rewrite (Hf true (Exact (byte_string "/service-worker.js")) ServiceWorkerFile None).
    + by destruct (method r).
    + by apply (list_elem_of_lookup_2 _ 3).
    + by rewrite Hp.
  - intros rest Hp Hne. rewrite (Hf true (Wildcard (byte_string "/assets/")) AssetFile (Some rest)).
    + unfold routed_to. destruct (method r), (percent_decode rest); done.
    + by apply (list_elem_of_lookup_2 _ 4).
    + rewrite Hp. unfold covers. rewrite decide_True; [by rewrite drop_app_length|].
      rewrite take_app_length, length_app. split; [done|]. destruct rest; [done|simpl; lia].
  - intros Hn. by rewrite find_route_none.
Qed.

(** Two builds of the web application that agree on the published files. *)
Definition agree (W1 W2 : WebLib) : Prop :=
  (∀ name, published name → get_asset (WebLib := W1) name = get_asset (WebLib := W2) name)
  ∧ (∀ name, mime_type (WebLib := W1) name = mime_type (WebLib := W2) name)
  ∧ ∀ dsn, json_optional_string (WebLib := W1) dsn = json_optional_string (WebLib := W2) dsn.

Lemma serve_data_agree W1 W2 path contents cache inm tag :
  agree W1 W2 →
  serve_data (H := W1) path contents cache inm tag = serve_data (H := W2) path contents cache inm tag.
Proof. intros (_ & Hm & _). unfold serve_data. by rewrite Hm. Qed.

Lemma serve_asset_agree W1 W2 path cache inm :
  agree W1 W2 → published path →
  serve_asset (H := W1) path cache inm = serve_asset (H := W2) path cache inm.
Proof.
  intros Ha Hp. unfold serve_asset. rewrite (proj1 Ha path Hp).
  case_match; [by apply serve_data_agree|done].
Qed.

(** C39: The web server is closed.  Nothing but the published files (the page, the
    manifest, the service worker and what is under [assets/]) can be read over
    HTTP: two builds that agree on them answer every request alike, whatever
    other files they embed.  Without the web application only the agent endpoint
    has a handler.  And a response may be cached for good only if it comes from
    under [/assets/], whose names change with their contents. *)
Theorem site_is_closed `{D : Digest} :
  (∀ W1 W2 ui st r, agree W1 W2 → respond (W := W1) ui st r = respond (W := W2) ui st r)
  ∧ (∀ `{W : WebLib} st r h, respond false st r ≠ Handler h)
  ∧ (∀ `{W : WebLib} ui st r response, respond ui st r = Handler (Responded response) →
       cache_control response = Some IMMUTABLE_CACHE →
       ∃ rest, request_path r = byte_string "/assets/" ++ rest).
Proof.
  split_and!.
  - intros W1 W2 ui st r Ha. unfold respond, manifest, service_worker, asset.
    destruct (find_route _ _ _) as [[] captured| | |]; try done; f_equal;
      try (apply serve_asset_agree; [done|]; unfold published; by eauto).
    unfold index, index_page, dsn_literal. rewrite (proj1 Ha) by (by left).
    destruct (get_asset _) as [f|]; [|done]. case_match; [|done].
    rewrite (proj2 (proj2 Ha)). by apply serve_data_agree.
  - intros W st r h. unfold respond.
    destruct (find_route _ _ _) as [endpoint captured| | |] eqn:E; try done.
    apply endpoint_path in E. destruct endpoint; try (by destruct E).
    unfold upgrade_agent. by case_match.
  - intros W ui st r response. unfold respond.
    destruct (find_route _ _ _) as [endpoint captured| | |] eqn:E; try done.
    apply endpoint_path in E. destruct endpoint.
    + unfold upgrade_agent. by case_match.
    + intros [= Hi] Hc. exfalso. unfold index, serve_data, Web.response in Hi.
      repeat case_match; simplify_eq/=.
    + intros [= Hi] Hc. exfalso. unfold manifest, serve_asset, serve_data, Web.response in Hi.
      repeat case_match; simplify_eq/=.
    + intros [= Hi] Hc. exfalso. unfold service_worker, serve_asset, serve_data, Web.response in Hi.
      repeat case_match; simplify_eq/=.
    + destruct E as (_ & rest & value & -> & _). by exists rest.
Qed.
End theorems.

(** ** A router *)

Definition plain_decode : rstring → option rstring := λ raw, Some raw.

Fixpoint first_route (table : list Route) (m : Method) (path : rstring) : Routed :=
  match table with
  | [] => NoRoute
  | (p, endpoint) :: rest =>
      match covers p path, m with
      | None, _ => first_route rest m path
      | Some _, OtherMethod => WrongMethod
      | Some captured, _ => ToEndpoint endpoint captured
      end
  end.
Definition sample_axum : Axum := {| percent_decode := plain_decode; find_route := first_route |}.

#[export] Instance sample_axum_spec : AxumSpec sample_axum.
Proof.
  split; cbn [find_route sample_axum].
  - intros table m path Hn. induction table as [|[p e] table IH]; [done|]. cbn [first_route].
    pose proof (Hn (p, e) ltac:(apply list_elem_of_here)) as E. cbn in E. rewrite E. apply IH.
    intros r Hr. by apply Hn, list_elem_of_further.
  - intros table p e captured m path Hin Hc Hothers. induction table as [|[p' e'] table IH];
      [by apply not_elem_of_nil in Hin|]. cbn [first_route].
    destruct (decide ((p', e') = (p, e))) as [E|Hne].
    + injection E as -> ->. rewrite Hc. by destruct m, captured.
    + pose proof (Hothers (p', e') ltac:(apply list_elem_of_here) Hne) as E. cbn in E. rewrite E.
      apply elem_of_cons in Hin as [?|Hin]; [congruence|]. apply IH; [done|].
      intros r Hr. by apply Hothers, list_elem_of_further.
Qed.

Definition sample_request (path : rstring) : Request :=
  {| method := Get; request_path := path; if_none_match := None; upgradable := false |}.

(** A stray file next to the page is never served. *)
Definition stray_web : WebLib :=
  {| get_asset := λ name,
       if decide (name = byte_string "secret.txt") then
         Some {| data := byte_string "secret"; sha256_hash := [] |}
       else get_asset (WebLib := sample_web) name;
     mime_type := mime_type (WebLib := sample_web);
     json_optional_string := json_optional_string (WebLib := sample_web) |}.

Lemma site_is_closed_witness :
  respond (X := sample_axum) (W := stray_web) (D := sample_sha256) true
    {| web_max_message_size := 1; web_sentry_frontend_dsn := None |}
    (sample_request (byte_string "/secret.txt"))
  = respond (X := sample_axum) (W := sample_web) (D := sample_sha256) true
    {| web_max_message_size := 1; web_sentry_frontend_dsn := None |}
    (sample_request (byte_string "/secret.txt")).
Proof.
  apply (proj1 (site_is_closed (X := sample_axum) (D := sample_sha256))). split_and!; [|done|done].
  intros name Hp. cbn [get_asset stray_web]. rewrite decide_False; [done|]. intros ->.
  destruct Hp as [H|[H|[H|(path & H)]]]; vm_compute in H; discriminate H.
Defined.
Example agent_endpoint_upgrades : respond (X := sample_axum) (W := sample_web) (D := sample_sha256) false
    {| web_max_message_size := 9; web_sentry_frontend_dsn := None |}
    {| method := Get; request_path := byte_string "/api/agent"; if_none_match := None;
       upgradable := true |} = Upgraded 9.
Proof. by vm_compute. Qed.
