(* ===== verification/AcceptLoop.v ===== *)
(** * AcceptLoop: the loops that accept local connections

    Models [serve] of [crates/server/src/agent_socket/listener.rs] and
    [ControlSocket::serve] of [crates/server/src/control/server.rs]: both accept
    connections until shutdown, run one task per connection in a [JoinSet], and
    abort what is left when they end.

    What a [select!] completes is an event; a task is what it was spawned
    with. *)

From S2P Require Import Prelude Bytes Packet PacketProps RequestRouter System.

Section accept_loop.
Context {Conn Task : Type}.
(** The task a new connection is given, if it is accepted. *)
Context (task_for : Conn → option Task).

Inductive LoopEvent :=
| LoopShutdown
| LoopAccepted (accepted : result Conn IoError)
| LoopJoined (index : nat).

Record AcceptLoop := {
  running : list Task;
  joined : list Task;
  aborted : list Task;
  returned : option (result unit IoError);
}.

Definition start_loop : AcceptLoop :=
  {| running := []; joined := []; aborted := []; returned := None |}.

(** Leave the loop: [abort_all] and the last joins, or the [JoinSet]'s drop. *)
Definition leave_loop (r : result unit IoError) (l : AcceptLoop) : AcceptLoop :=
  {| running := []; joined := joined l; aborted := aborted l ++ running l; returned := Some r |}.

(** One iteration; [None] for an event that cannot happen. *)
Definition serve_step (ev : LoopEvent) (l : AcceptLoop) : option AcceptLoop :=
  match returned l with
  | Some _ => None
  | None =>
      match ev with
      | LoopShutdown => Some (leave_loop (Ok tt) l)
      | LoopAccepted (Err error) => Some (leave_loop (Err error) l)
      | LoopAccepted (Ok connection) =>
          match task_for connection with
          | None => Some l
          | Some task =>
              Some {| running := running l ++ [task]; joined := joined l; aborted := aborted l;
                      returned := None |}
          end
      | LoopJoined i =>
          match running l !! i with
          | None => None
          | Some task =>
              Some {| running := delete i (running l); joined := joined l ++ [task];
                      aborted := aborted l; returned := None |}
          end
      end
  end.

Fixpoint serve_loop (events : list LoopEvent) (l : AcceptLoop) : option AcceptLoop :=
  match events with
  | [] => Some l
  | ev :: rest =>
      match serve_step ev l with
      | Some l => serve_loop rest l
      | None => None
      end
  end.

(** ** Supervision *)

Definition accepted_by (ev : LoopEvent) : list Conn :=
  match ev with LoopAccepted (Ok c) => [c] | _ => [] end.
Definition all_accepted (events : list LoopEvent) : list Conn := mjoin (accepted_by <$> events).

(** The tasks of a loop, whatever became of them. *)
Definition tasks (l : AcceptLoop) : list Task := running l ++ joined l ++ aborted l.

(** What ends the loop. *)
Definition ending (ev : LoopEvent) : option (result unit IoError) :=
  match ev with
  | LoopShutdown => Some (Ok tt)
  | LoopAccepted (Err e) => Some (Err e)
  | _ => None
  end.

Lemma serve_step_tasks ev l l' :
  serve_step ev l = Some l' →
  tasks l' ≡ₚ tasks l ++ omap task_for (accepted_by ev)
  ∧ returned l = None ∧ returned l' = ending ev ∧ (is_Some (returned l') → running l' = []).
Proof.
  unfold serve_step, tasks. destruct (returned l) eqn:Hr; [done|].
  assert (∀ P : Prop, is_Some (@None (result unit IoError)) → P) as Hnone by (by intros P [? [=]]).
  destruct ev as [|[c|e]|i]; cbn.
  - intros [= <-]. cbn. split_and!; try done. solve_Permutation.
  - destruct (task_for c) as [t|]; intros [= <-]; cbn; rewrite ?Hr; split_and!; auto;
      solve [apply Hnone|solve_Permutation].
  - intros [= <-]. cbn. split_and!; try done. solve_Permutation.
  - destruct (running l !! i) as [t|] eqn:Hi; [|done]. intros [= <-]. cbn.
    split_and!; [|done|done|apply Hnone].
    pose proof (delete_Permutation (running l) i t Hi) as Hd. revert Hd.
    generalize (delete i (running l)). intros others ->. solve_Permutation.
Qed.

(** Nothing happens after the loop has returned. *)
Lemma serve_loop_returned events l l' :
  is_Some (returned l) → serve_loop events l = Some l' → events = [] ∧ l' = l.
Proof.
  intros [r Hr]. destruct events as [|ev events]; cbn [serve_loop]; [by intros [= <-]|].
  unfold serve_step. by rewrite Hr.
Qed.

Lemma serve_loop_tasks events l l' :
  serve_loop events l = Some l' → returned l = None →
  tasks l' ≡ₚ tasks l ++ omap task_for (all_accepted events)
  ∧ (is_Some (returned l') → running l' = [])
  ∧ returned l' = last events ≫= ending.
Proof.
  revert l. induction events as [|ev events IH]; intros l; cbn [serve_loop].
  { intros [= <-] Hn. unfold all_accepted. cbn. rewrite app_nil_r, Hn.
    split_and!; [done|by intros [? [=]]|done]. }
  destruct (serve_step ev l) as [l1|] eqn:E; [|done]. intros H _.
  apply serve_step_tasks in E as (Ht & Hn & Hr & Hq).
  assert (all_accepted (ev :: events) = accepted_by ev ++ all_accepted events) as -> by done.
  rewrite omap_app. destruct (returned l1) as [r|] eqn:E1.
  - apply serve_loop_returned in H as [-> ->]; [|by rewrite E1].
    unfold all_accepted. cbn. rewrite app_nil_r, E1, <- Hr. split_and!; auto.
  - apply IH in H as (Ht' & Hr' & Hl); [|done]. split_and!; [|done|].
    + rewrite Ht', Ht. by rewrite app_assoc.
    + destruct events as [|ev' events]; [|done]. cbn in *. by rewrite Hl, <- Hr.
Qed.
End accept_loop.

(** ** The two loops *)

(** The agent socket gives a connection a router for the identities published
    when it is accepted, and skips it if they are invalid. *)
Definition agent_task `{SshAgentLib} (w : Watch) : option ConnectionRouter := ok (connection w).
Definition agent_serve `{SshAgentLib} : list (LoopEvent (Conn := Watch)) → AcceptLoop → option AcceptLoop :=
  serve_loop agent_task.

(** The control socket handles every connection. *)
Definition control_serve {Stream} :
    list (LoopEvent (Conn := Stream)) → AcceptLoop → option AcceptLoop :=
  serve_loop Some.

(** The accept loops account for every connection.  Along every run each
    accepted connection (whose identities are valid, for the agent socket) has
    exactly one task, which is running, has ended or was aborted; the loop returns
    exactly when it is told to shut down, successfully, or when accepting fails,
    with that error; and then no task is left running. *)
Theorem accept_loops_supervise `{SshAgentLib} {Stream} :
  (∀ events l, agent_serve events start_loop = Some l →
     tasks l ≡ₚ omap agent_task (all_accepted events)
     ∧ (is_Some (returned l) → running l = []) ∧ returned l = last events ≫= ending)
  ∧ (∀ events l, control_serve (Stream := Stream) events start_loop = Some l →
     tasks l ≡ₚ all_accepted events
     ∧ (is_Some (returned l) → running l = []) ∧ returned l = last events ≫= ending).
Proof.
  split; intros events l Hl; eapply serve_loop_tasks in Hl as (Ht & Hr & He); try done.
  split_and!; [|done..]. rewrite Ht. cbn. clear. induction (all_accepted events) as [|x l IH]; [done|].
  cbn. by f_equiv.
Qed.
