(* ===== verification/Server.v ===== *)
(** * Server: the running server as one transition system

    Composes the loops of the other files the way [run] of
    [crates/server/src/daemon.rs] wires their tasks: local connections
    ([Listener]) submit requests over a channel to the broker's actor
    ([BrokerTask]), which answers on one-shot channels and sends commands over
    an unbounded channel to the remote session ([Session]), which puts commands
    into the broker's mailbox.  A turn is one iteration of one task's loop, or
    one step between two awaits of a task; the scheduler may take any turn that
    is possible.

    The channels' contents are part of the state.  A one-shot channel and the
    token or channel created with it share a handle.  A log records what
    happened, in order; identifiers that the runtime draws at random are fresh
    with respect to it ([fresh_turn]). *)

From S2P Require Import Prelude Bytes Utf8 Packet ContextCodec RequestRouter Listener Assoc BrokerModel BrokerTask BrokerHandle BrokerTaskProps Pairing Protocol Session System AcceptLoop.

Definition BROKER_REQUEST_CHANNEL_CAPACITY : nat := 1.

#[export] Instance PacketRequest_eq_dec : EqDecision PacketRequest.
Proof. solve_decision. Defined.
#[export] Instance Command_eq_dec : EqDecision Command.
Proof. solve_decision. Defined.

(** ** The handshake in its two halves *)

Section handshake.
Context `{A : PairingAuthority} `{C : RemoteCodecs} `{L : SshAgentLib}.

(** [serve] until it asks the broker for the remote slot: the message and its
    authorization if it gets there. *)
Definition serve_first (env : AuthorityEnv) (received : option Message) (a : Authority) :
    Authority * list SessionAction * option (ClientMessage * Authorization) :=
  match receive_client received with
  | None => (a, [], None)
  | Some message =>
      match authorize env message a with
      | (a, Some (Ok authorization)) => (a, [], Some (message, authorization))
      | (a, _) => (a, send_rejected, None)
      end
  end.

(** [serve] from the broker's answer to [run_authenticated]. *)
Definition serve_connected (connected : result SessionId BrokerError) (sent : bool)
    (vapid_public_key : bytes) (authorization : Authorization) :
    list SessionAction * option Established :=
  match connected with
  | Err BrokerRemoteAlreadyConnected => (send_rejected, None)
  | Err _ => ([], None)
  | Ok session =>
      let response := handshake_response authorization session vapid_public_key in
      if is_ok (encode_server response) && sent then
        ([Send response],
         Some {| session_id := session; client_id := authorized_client authorization |})
      else ([ToBroker (CmdDisconnected session)], None)
  end.

(** The halves are [serve]. *)
Lemma serve_halves env received connected sent vapid a :
  serve env received connected sent vapid a
  = match serve_first env received a with
    | (a, acts, None) => (a, acts, None)
    | (a, acts, Some (_, authorization)) =>
        let '(acts', e) := serve_connected connected sent vapid authorization in
        (a, acts ++ acts', e)
    end.
Proof.
  unfold serve, serve_first, serve_connected. destruct (receive_client received) as [m|]; [|done].
  destruct (authorize env m a) as [a' [[authorization|]|]]; [|done..].
  destruct connected as [session|[]]; [by case_match|done..].
Qed.
End handshake.

(** ** State *)

(** The task of one WebSocket: it waits for the first message, for room in the
    broker's mailbox, for the broker's answer; it adapts the socket to the
    broker; it has left its loop and has yet to send these commands and to drop
    its channel; it is over. *)
Inductive SessionTask `{A : PairingAuthority} :=
| Greeting
| Authorized (authorization : Authorization)
| Connecting (authorization : Authorization) (channel : Handle)
| Adapting (session : Session.Session) (channel : Handle)
| Leaving (posted : list Command) (channel : Handle)
| SessionOver.

Inductive Happened :=
(** A packet was routed to the broker; it was answered to the client. *)
| Accepted (connection : nat) (token : Handle) (packet : bytes) (context : option RequestContext)
| Answered (connection : nat) (token : Handle) (outcome : result bytes RequestError)
(** The broker received a request, put a command on a session's channel, woke
    the client, gave away its remote slot, or refused to. *)
| Admission (request_id : RequestId) (request : PacketRequest)
| Dispatched (channel : Handle) (command : RemoteCommand)
| Woken (request : WakeRequest)
| Connected (session : SessionId) (channel : Handle)
| Refused (response : Handle)
(** A handshake message was authorized; the broker was asked for the slot; the
    session was established and heard from its client; a message was sent on a
    socket, whether or not it has a session. *)
| Granted (task : nat) (message : ClientMessage) (authorization : Authorization)
| Asked (task : nat) (channel : Handle)
| Opened (task : nat) (channel : Handle) (e : Established) (authorization : Authorization)
| Heard (task : nat) (e : Established) (message : ClientMessage)
| Told (task : nat) (message : ServerMessage).

(** The channels between the tasks. *)
Record Wires := {
  local_requests : list PacketRequest;
  mailbox : list Command;
  replies : gmap Handle (result bytes RequestError);
  aborted : gset Handle;
  connect_replies : gmap Handle (result SessionId BrokerError);
  outboxes : gmap Handle (list RemoteCommand);
}.

(** The accept loop and its connections; the tokens whose request was sent to
    the broker, and those that were cancelled. *)
Record Locals := {
  accepting : bool;
  connections : gmap nat Connection;
  submitted : gset Handle;
  cancelled : gset Handle;
}.

Record Server `{A : PairingAuthority} := {
  locals : Locals;
  broker : BrokerLoop;
  wires : Wires;
  sessions : gmap nat SessionTask;
  service : Authority;
  stopping : bool;
  log : list Happened;
}.

Definition set_local_requests (l : list PacketRequest) (w : Wires) : Wires :=
  {| local_requests := l; mailbox := mailbox w; replies := replies w; aborted := aborted w;
     connect_replies := connect_replies w; outboxes := outboxes w |}.
Definition set_mailbox (l : list Command) (w : Wires) : Wires :=
  {| local_requests := local_requests w; mailbox := l; replies := replies w; aborted := aborted w;
     connect_replies := connect_replies w; outboxes := outboxes w |}.
Definition set_replies (m : gmap Handle (result bytes RequestError)) (w : Wires) : Wires :=
  {| local_requests := local_requests w; mailbox := mailbox w; replies := m; aborted := aborted w;
     connect_replies := connect_replies w; outboxes := outboxes w |}.
Definition set_aborted (x : gset Handle) (w : Wires) : Wires :=
  {| local_requests := local_requests w; mailbox := mailbox w; replies := replies w; aborted := x;
     connect_replies := connect_replies w; outboxes := outboxes w |}.
Definition set_connect_replies (m : gmap Handle (result SessionId BrokerError)) (w : Wires) : Wires :=
  {| local_requests := local_requests w; mailbox := mailbox w; replies := replies w;
     aborted := aborted w; connect_replies := m; outboxes := outboxes w |}.
Definition set_outboxes (m : gmap Handle (list RemoteCommand)) (w : Wires) : Wires :=
  {| local_requests := local_requests w; mailbox := mailbox w; replies := replies w;
     aborted := aborted w; connect_replies := connect_replies w; outboxes := m |}.

(** What one action of the broker does to the channels.  A wake goes to the
    push service, which only receives. *)
Definition perform (w : Wires) (action : Action) : Wires :=
  match action with
  | Respond h outcome => set_replies (<[h := outcome]> (replies w)) w
  | Abort h => set_aborted ({[h]} ∪ aborted w) w
  | Outbound ch command => set_outboxes (alter (.++ [command]) ch (outboxes w)) w
  | ConnectReply h outcome => set_connect_replies (<[h := outcome]> (connect_replies w)) w
  | Wake _ | ShutdownReply _ => w
  end.

(** The tokens of the requests that wait for an answer. *)
Definition tokens_of (l : list RoutedResponse) : list Handle :=
  omap (λ r, match r with Submit _ _ t => Some t | Ready_response _ => None end) l.

(** What [submit] sends to the broker; the reply channel has the token's handle. *)
Definition request_of (packet : bytes) (context : option RequestContext) (token : Handle) :
    PacketRequest :=
  {| req_packet := packet; req_context := context; req_response := token;
     req_cancellation := token |}.

Section server.
Context `{A : PairingAuthority} `{C : RemoteCodecs} `{L : SshAgentLib} `{U : UuidText}.
(** The configured capacity of the remote session and the server's push key. *)
Context (capacity : N) (vapid : bytes).

Definition set_locals (l : Locals) (s : Server) : Server :=
  {| locals := l; broker := broker s; wires := wires s; sessions := sessions s;
     service := service s; stopping := stopping s; log := log s |}.
Definition set_wires (w : Wires) (s : Server) : Server :=
  {| locals := locals s; broker := broker s; wires := w; sessions := sessions s;
     service := service s; stopping := stopping s; log := log s |}.
Definition record (events : list Happened) (s : Server) : Server :=
  {| locals := locals s; broker := broker s; wires := wires s; sessions := sessions s;
     service := service s; stopping := stopping s; log := log s ++ events |}.
Definition broker_runs (s : Server) : bool := BrokerTask.running (broker s).

(** ** Local connections *)

(** What a request's future completes with: the broker's reply, or that the
    broker is gone. *)
Definition reply_possible (s : Server) (c : Connection) (outcome : result bytes RequestError) :
    bool :=
  match responses c with
  | Submit _ _ t :: _ =>
      match replies (wires s) !! t with
      | Some o => bool_decide (outcome = submit true (Some o))
      | None =>
          negb (broker_runs s)
          && bool_decide (outcome = submit (bool_decide (t ∈ submitted (locals s))) None)
      end
  | _ => true
  end.
Definition listener_possible (s : Server) (c : Connection) (i : ListenerInput) : bool :=
  match i with
  | ResponseDone outcome => reply_possible s c outcome
  | _ => true
  end.

Definition accepted_events (n : nat) (d : Done) : list Happened :=
  omap (λ x, match x.2 with
             | Submit packet context t => Some (Accepted n t packet context)
             | Ready_response _ => None
             end) (routed d).
Definition answered_events (n : nat) (c : Connection) (i : ListenerInput) (d : Done) : list Happened :=
  match i, responses c, written d with
  | ResponseDone outcome, Submit _ _ t :: _, _ :: _ => [Answered n t outcome]
  | _, _, _ => []
  end.

(** A connection that ends cancels what it still waits for. *)
Definition put_connection (n : nat) (c : Connection) (l : Locals) : Locals :=
  {| accepting := accepting l; connections := <[n := c]> (connections l);
     submitted := submitted l;
     cancelled := if Listener.open c then cancelled l
                  else list_to_set (tokens_of (responses c)) ∪ cancelled l |}.

Definition accept_turn (n : nat) (w : Watch) (s : Server) : option Server :=
  if negb (accepting (locals s)) then None
  else
    match connections (locals s) !! n with
    | Some _ => None
    | None =>
        match agent_task w with
        | None => Some s
        | Some router =>
            Some (set_locals (put_connection n (open_connection router) (locals s)) s)
        end
    end.

(** Shutdown of the accept loop: its connections are aborted. *)
Definition stop_accepting (s : Server) : option Server :=
  let l := locals s in
  Some (set_locals
    {| accepting := false; connections := close <$> connections l; submitted := submitted l;
       cancelled :=
         list_to_set (mjoin ((λ kv, tokens_of (responses kv.2)) <$> map_to_list (connections l)))
         ∪ cancelled l |} s).

Definition connection_turn (n : nat) (write_ok : bool) (i : ListenerInput) (s : Server) :
    option Server :=
  match connections (locals s) !! n with
  | None => None
  | Some c =>
      if listener_possible s c i then
        match handle_connection_step write_ok i c with
        | None => None
        | Some (c', d) =>
            Some (record (accepted_events n d ++ answered_events n c i d)
                    (set_locals (put_connection n c' (locals s)) s))
        end
      else None
  end.

(** The future of the connection's [k]th outstanding response sends its request
    to the broker, when the channel has room. *)
Definition submit_turn (n k : nat) (s : Server) : option Server :=
  let l := locals s in
  let w := wires s in
  match connections l !! n with
  | None => None
  | Some c =>
      match responses c !! k with
      | Some (Submit packet context t) =>
          if Listener.open c && broker_runs s && local_requests_open (broker s)
             && negb (bool_decide (t ∈ submitted l))
             && bool_decide (length (local_requests w) < BROKER_REQUEST_CHANNEL_CAPACITY)
          then
            Some (set_wires (set_local_requests (local_requests w ++ [request_of packet context t]) w)
                    (set_locals {| accepting := accepting l; connections := connections l;
                                   submitted := {[t]} ∪ submitted l; cancelled := cancelled l |} s))
          else None
      | _ => None
      end
  end.

(** ** The broker *)

(** A send succeeds while the session holds the channel's receiver. *)
Definition delivers (s : Server) (ch : Handle) (_ : RemoteCommand) : bool :=
  bool_decide (is_Some (outboxes (wires s) !! ch)).

Definition cancels (s : Server) (id : RequestId) (h : Happened) : bool :=
  match h with
  | Admission id' r => bool_decide (id' = id ∧ req_cancellation r ∈ cancelled (locals s))
  | _ => false
  end.
Definition is_aborted (s : Server) (id : RequestId) : bool :=
  existsb (λ c, bool_decide (c.1 = id ∧ c.2 ∈ aborted (wires s))) (cancellations (broker s)).

(** The inputs the channels offer, and the channels without it.  The daemon
    holds a sender of the mailbox, which is never closed. *)
Definition broker_input (i : Input) (s : Server) : option Wires :=
  let w := wires s in
  match i with
  | InLocal _ _ _ _ request =>
      match local_requests w with
      | r :: rest => if decide (r = request) then Some (set_local_requests rest w) else None
      | [] => None
      end
  | InLocalClosed =>
      if negb (accepting (locals s)) && bool_decide (local_requests w = []) then Some w else None
  | InCancelled id _ =>
      if existsb (cancels s id) (log s) && negb (is_aborted s id) then Some w else None
  | InAborted id => if is_aborted s id then Some w else None
  | InCommand command _ _ =>
      match mailbox w with
      | c :: rest => if decide (c = command) then Some (set_mailbox rest w) else None
      | [] => None
      end
  | InCommandsClosed => None
  | InDeadline _ => Some w
  end.

Definition broker_events (i : Input) (acts : list Action) : list Happened :=
  match i with
  | InLocal id _ _ _ request => [Admission id request]
  | _ => []
  end ++
  omap (λ x, match x, i with
             | ConnectReply _ (Ok s), InCommand (CmdConnect _ ch _) _ _ => Some (Connected s ch)
             | ConnectReply resp (Err _), _ => Some (Refused resp)
             | Outbound ch command, _ => Some (Dispatched ch command)
             | Wake request, _ => Some (Woken request)
             | _, _ => None
             end) acts.

(** An iteration of the broker; a stopped broker drops its receivers. *)
Definition broker_turn (i : Input) (s : Server) : option Server :=
  match broker_input i s with
  | None => None
  | Some w =>
      match run_broker_step (delivers s) i (broker s) with
      | None => None
      | Some (l, acts) =>
          let w := foldl perform w acts in
          let w := if BrokerTask.running l then w else set_local_requests [] (set_mailbox [] w) in
          Some (record (broker_events i acts)
                  {| locals := locals s; broker := l; wires := w; sessions := sessions s;
                     service := service s; stopping := stopping s; log := log s |})
      end
  end.

(** ** Remote sessions *)

(** Commands reach the mailbox while the broker runs. *)
Definition commands (acts : list SessionAction) : list Command :=
  omap (λ x, match x with ToBroker c => Some c | Send _ => None end) acts.
Definition told_events (n : nat) (acts : list SessionAction) : list Happened :=
  omap (λ x, match x with Send m => Some (Told n m) | ToBroker _ => None end) acts.

(** The server after a step of session [n], which must find room for what it
    sends. *)
Definition put_session (n : nat) (task : SessionTask) (a : Authority) (posted : list Command)
    (boxes : gmap Handle (list RemoteCommand)) (events : list Happened) (s : Server) : Server :=
  let w := wires s in
  {| locals := locals s; broker := broker s;
     wires := set_outboxes boxes
                (set_mailbox (mailbox w ++ if broker_runs s then posted else []) w);
     sessions := <[n := task]> (sessions s); service := a; stopping := stopping s;
     log := log s ++ events |}.
Definition post_session (n : nat) (task : SessionTask) (a : Authority) (posted : list Command)
    (boxes : gmap Handle (list RemoteCommand)) (events : list Happened) (s : Server) :
    option Server :=
  if mailbox_takes (broker_runs s) (mailbox (wires s)) posted then
    Some (put_session n task a posted boxes events s)
  else None.

Definition upgrade_turn (n : nat) (s : Server) : option Server :=
  match sessions s !! n with
  | Some _ => None
  | None => Some (put_session n Greeting (service s) [] (outboxes (wires s)) [] s)
  end.

(** The first message and its authorization. *)
Definition greet_turn (n : nat) (env : AuthorityEnv) (received : option Message) (s : Server) :
    option Server :=
  match sessions s !! n with
  | Some Greeting =>
      let boxes := outboxes (wires s) in
      let '(a, acts, next) := serve_first env received (service s) in
      match next with
      | None => Some (put_session n SessionOver a [] boxes (told_events n acts) s)
      | Some (message, authorization) =>
          Some (put_session n (Authorized authorization) a [] boxes
                  (told_events n acts ++ [Granted n message authorization]) s)
      end
  | _ => None
  end.

(** The request for the remote slot, with a new channel; the reply's one-shot
    channel shares its handle. *)
Definition ask_turn (n : nat) (channel : Handle) (s : Server) : option Server :=
  match sessions s !! n with
  | Some (Authorized authorization) =>
      let boxes := outboxes (wires s) in
      match connect_remote (broker_runs s) capacity channel channel with
      | (posted, Ok _) =>
          post_session n (Connecting authorization channel) (service s) posted
            (<[channel := []]> boxes) [Asked n channel] s
      | (_, Err _) => Some (put_session n SessionOver (service s) [] boxes [] s)
      end
  | _ => None
  end.

(** The broker's answer to the request for the slot, if there is one. *)
Definition connect_outcome (channel : Handle) (s : Server) : option (result SessionId BrokerError) :=
  match connect_replies (wires s) !! channel with
  | Some outcome => Some (connect_reply (Some outcome))
  | None => if broker_runs s then None else Some (connect_reply None)
  end.

Definition connected_turn (n : nat) (sent : bool) (s : Server) : option Server :=
  match sessions s !! n with
  | Some (Connecting authorization channel) =>
      match connect_outcome channel s with
      | None => None
      | Some outcome =>
          let boxes := outboxes (wires s) in
          let '(acts, established) := serve_connected outcome sent vapid authorization in
          match established with
          | Some e =>
              Some (put_session n (Adapting (start_session e (service s)) channel) (service s)
                      [] boxes (Opened n channel e authorization :: told_events n acts) s)
          | None =>
              Some (put_session n (Leaving (commands acts) channel) (service s) [] boxes
                      (told_events n acts) s)
          end
      end
  | _ => None
  end.

(** The session works on the service all sessions share. *)
Definition with_service (a : Authority) (x : Session.Session) : Session.Session :=
  {| established := established x; authority_state := a; awaiting_pong := awaiting_pong x;
     alive := alive x |}.

(** The inputs a session can get, and its channel without it: commands in order,
    the channel's end when the broker has dropped its sender.  A revocation may
    be observed at any time. *)
Definition session_input (i : SessionInput) (channel : Handle) (s : Server) :
    option (gmap Handle (list RemoteCommand)) :=
  let boxes := outboxes (wires s) in
  match i with
  | FromBroker (Some command) _ =>
      match boxes !! channel with
      | Some (c :: rest) => if decide (c = command) then Some (<[channel := rest]> boxes) else None
      | _ => None
      end
  | FromBroker None _ =>
      if bool_decide (boxes !! channel = Some [])
         && negb (broker_runs s && bool_decide ((snd <$> remote (actor (broker s))) = Some channel))
      then Some boxes else None
  | FromClient _ _ accepted => if decide (accepted = broker_runs s) then Some boxes else None
  | Heartbeat _ | Revoked => Some boxes
  | Shutdown => if stopping s then Some boxes else None
  end.

Definition heard_events (n : nat) (e : Established) (i : SessionInput) : list Happened :=
  match i with
  | FromClient _ (Some (Binary frame)) _ =>
      match decode_client frame with
      | Ok message => [Heard n e message]
      | Err _ => []
      end
  | _ => []
  end.

Definition session_turn (n : nat) (i : SessionInput) (s : Server) : option Server :=
  match sessions s !! n with
  | Some (Adapting x channel) =>
      match session_input i channel s with
      | None => None
      | Some boxes =>
          match run_authenticated_step i (with_service (service s) x) with
          | None => None
          | Some (x', acts) =>
              let e := established x in
              let events := heard_events n e i ++ told_events n acts in
              if alive x' then
                post_session n (Adapting x' channel) (authority_state x') (commands acts)
                  boxes events s
              else
                Some (put_session n (Leaving (commands acts) channel) (authority_state x') []
                        boxes events s)
          end
      end
  | _ => None
  end.

(** After the loop: the last commands, then the channel's receiver is dropped. *)
Definition leave_turn (n : nat) (s : Server) : option Server :=
  match sessions s !! n with
  | Some (Leaving [] channel) =>
      Some (put_session n SessionOver (service s) [] (delete channel (outboxes (wires s))) [] s)
  | Some (Leaving posted channel) =>
      post_session n (Leaving [] channel) (service s) posted (outboxes (wires s)) [] s
  | _ => None
  end.

(** ** Turns *)

(** [TService] stands for what others do to the pairing service meanwhile: an
    operator may clear the pairing through the control socket.  [TShutdown] is
    the cancellation of the daemon's shutdown token, to which the sessions react;
    the accept loop ends after it, or when accepting fails. *)
Inductive ServerTurn :=
| TAccept (n : nat) (w : Watch)
| TStopAccepting
| TConnection (n : nat) (write_ok : bool) (i : ListenerInput)
| TSubmit (n k : nat)
| TBroker (i : Input)
| TUpgrade (n : nat)
| TGreet (n : nat) (env : AuthorityEnv) (received : option Message)
| TAsk (n : nat) (channel : Handle)
| TConnected (n : nat) (sent : bool)
| TSession (n : nat) (i : SessionInput)
| TLeave (n : nat)
| TShutdown
| TStopBroker (response : Handle)
| TService (a : Authority).

Definition server_turn (t : ServerTurn) (s : Server) : option Server :=
  match t with
  | TAccept n w => accept_turn n w s
  | TStopAccepting => stop_accepting s
  | TConnection n write_ok i => connection_turn n write_ok i s
  | TSubmit n k => submit_turn n k s
  | TBroker i => broker_turn i s
  | TUpgrade n => upgrade_turn n s
  | TGreet n env received => greet_turn n env received s
  | TAsk n channel => ask_turn n channel s
  | TConnected n sent => connected_turn n sent s
  | TSession n i => session_turn n i s
  | TLeave n => leave_turn n s
  | TShutdown =>
      Some {| locals := locals s; broker := broker s; wires := wires s; sessions := sessions s;
              service := service s; stopping := true; log := log s |}
  | TStopBroker response =>
      let posted := (shutdown (broker_runs s) response).1 in
      if mailbox_takes (broker_runs s) (mailbox (wires s)) posted then
        Some (set_wires (set_mailbox (mailbox (wires s) ++ posted) (wires s)) s)
      else None
  | TService a =>
      Some {| locals := locals s; broker := broker s; wires := wires s; sessions := sessions s;
              service := a; stopping := stopping s; log := log s |}
  end.

(** Tokens, request, session and channel identifiers are used once. *)
Definition token_of (h : Happened) : option Handle :=
  match h with Accepted _ t _ _ => Some t | _ => None end.
Definition admitted_id (h : Happened) : option RequestId :=
  match h with Admission id _ => Some id | _ => None end.
Definition connected_id (h : Happened) : option SessionId :=
  match h with Connected s _ => Some s | _ => None end.
Definition asked_channel (h : Happened) : option Handle :=
  match h with Asked _ ch => Some ch | _ => None end.

Definition fresh_turn (t : ServerTurn) (s : Server) : Prop :=
  match t with
  | TConnection _ _ (Frame _ _ token) => token ∉ omap token_of (log s)
  | TBroker (InLocal id _ _ _ _ as i) =>
      fresh_input i (broker s) ∧ id ∉ omap admitted_id (log s)
  | TBroker (InCommand _ session _) => session ∉ omap connected_id (log s)
  | TAsk _ channel => channel ∉ omap asked_channel (log s)
  | _ => True
  end.
#[export] Instance fresh_turn_dec t s : Decision (fresh_turn t s).
Proof.
  destruct t as [| |n write_ok i| |i| | | | | | | | |]; simpl; try apply _; destruct i; apply _.
Defined.

Fixpoint server_run (turns : list ServerTurn) (s : Server) : option Server :=
  match turns with
  | [] => Some s
  | t :: turns => if decide (fresh_turn t s) then server_turn t s ≫= server_run turns else None
  end.

(** The server when its tasks have been spawned. *)
Definition server_start (cfg : BrokerConfig) (a : Authority) : Server :=
  {| locals := {| accepting := true; connections := ∅; submitted := ∅; cancelled := ∅ |};
     broker := (spawn cfg).1;
     wires := {| local_requests := []; mailbox := (spawn cfg).2; replies := ∅; aborted := ∅;
                 connect_replies := ∅; outboxes := ∅ |};
     sessions := ∅; service := a; stopping := false; log := [] |}.
End server.
