(* ===== verification/ServerProps.v ===== *)
(** * ServerProps: end-to-end properties of the running server

    What a local client is answered comes from the client that was paired or
    authenticated, for the very request the local client made, and what that
    client is asked comes from local clients.  Proved as an invariant of the
    transition system of [Server]. *)

From S2P Require Import Prelude Bytes Utf8 Packet ContextCodec RequestRouter RequestRouterProps PacketProps ContextCodecProps Listener Assoc BrokerModel BrokerTask BrokerHandle BrokerTaskProps BrokerTaskSync BrokerTracking Pairing PairingProps Protocol Session SessionProps Server.

Section props.
Context `{A : PairingAuthority} `{C : RemoteCodecs} `{L : SshAgentLib} `{U : UuidText}.
Context (capacity : N) (vapid : bytes).

(** ** The log *)

(** The origin of a successful answer to the request with token [t]: a session,
    opened for an authorized client, to which the request was dispatched, and
    which heard the answer for that attempt from its client. *)
Definition from_paired_client (l : list Happened) (t : Handle) (packet : bytes)
    (context : option RequestContext) (answer : bytes) : Prop :=
  ∃ k ch e authorization id r att req dl,
    Opened k ch e authorization ∈ l
    ∧ Admission id r ∈ l ∧ req_response r = t
    ∧ Dispatched ch (RemoteRequest id att req dl packet context) ∈ l
    ∧ Heard k e (AgentResponse id att answer) ∈ l.

(** The reason of an event in what has happened before it. *)
Definition justified (l : list Happened) (h : Happened) : Prop :=
  match h with
  | Answered n t (Ok answer) =>
      ∃ packet context, Accepted n t packet context ∈ l
                        ∧ from_paired_client l t packet context answer
  | Admission _ r => ∃ n, Accepted n (req_response r) (req_packet r) (req_context r) ∈ l
  | Dispatched _ (RemoteRequest id _ _ _ packet context) =>
      ∃ r, Admission id r ∈ l ∧ req_packet r = packet ∧ req_context r = context
  | Woken request =>
      ∀ x, x ∈ reasons request →
        ∃ id r c, Admission id r ∈ l ∧ req_context r = Some c ∧ reason c = x
  | Granted _ message authorization =>
      ∃ env a a', authorize env message a = (a', Some (Ok authorization))
  | Opened k ch e authorization =>
      Connected (session_id e) ch ∈ l ∧ client_id e = authorized_client authorization
      ∧ ∃ message, Granted k message authorization ∈ l
  | Heard k e _ => ∃ ch authorization, Opened k ch e authorization ∈ l
  | Told k message =>
      message = Rejected
      ∨ ∃ ch e authorization, Opened k ch e authorization ∈ l
        ∧ ∀ id att req dl packet context,
            message = AgentRequest id att req dl packet context →
            Dispatched ch (RemoteRequest id att req dl packet context) ∈ l
  | _ => True
  end.

Lemma from_paired_client_mono l l' t packet context answer :
  l ⊆ l' → from_paired_client l t packet context answer →
  from_paired_client l' t packet context answer.
Proof.
  intros Hs (k & ch & e & au & id & r & att & req & dl & ? & ? & ? & ? & ?).
  exists k, ch, e, au, id, r, att, req, dl. auto 6.
Qed.

Lemma justified_mono l l' h : l ⊆ l' → justified l h → justified l' h.
Proof.
  intros Hs. destruct h as [| ? ? [] | |? []| | | | | | | |]; simpl; try done; try naive_solver.
  intros (p & c & ? & ?). exists p, c. eauto using from_paired_client_mono.
Qed.

(** Each event has its reason in [l] and the events before it. *)
Fixpoint justified_after (l events : list Happened) : Prop :=
  match events with
  | [] => True
  | h :: rest => justified l h ∧ justified_after (l ++ [h]) rest
  end.

Lemma justified_after_app l es1 es2 :
  justified_after l (es1 ++ es2) ↔ justified_after l es1 ∧ justified_after (l ++ es1) es2.
Proof.
  revert l. induction es1 as [|h es1 IH]; intros l; simpl; [rewrite (app_nil_r l); naive_solver|].
  rewrite IH, <- (app_assoc l [h] es1). simpl. naive_solver.
Qed.

Lemma justified_after_Forall l es : Forall (justified l) es → justified_after l es.
Proof.
  intros H. assert (∀ l', l ⊆ l' → justified_after l' es) as Hall; [|by apply Hall].
  induction H as [|h es Hh _ IH]; intros l' Hs; simpl; [done|].
  split; [by eapply justified_mono|]. apply IH. set_solver.
Qed.

(** One event happened before another. *)
Definition before (l : list Happened) (x y : Happened) : Prop :=
  ∃ l1 l2, l = l1 ++ y :: l2 ∧ x ∈ l1.

Lemma before_in l x y : before l x y → x ∈ l.
Proof. intros (l1 & l2 & -> & Hx). set_solver. Qed.

Lemma justified_before l h :
  justified_after [] l → h ∈ l →
  ∃ l1, justified l1 h ∧ justified_after [] l1 ∧ l1 ⊆ l ∧ ∀ x, x ∈ l1 → before l x h.
Proof.
  intros Hj Hh. apply list_elem_of_split in Hh as (l1 & l2 & ->).
  apply justified_after_app in Hj as [Hj1 Hj]. simpl in Hj. exists l1.
  split_and!; [apply Hj|done|set_solver|]. intros x Hx. by exists l1, l2.
Qed.

Lemma justified_by_log l h : justified_after [] l → h ∈ l → justified l h.
Proof.
  intros Hj Hh. destruct (justified_before l h Hj Hh) as (l1 & ? & _ & ? & _).
  by eapply justified_mono.
Qed.

Record log_ok (l : list Happened) : Prop := {
  lo_justified : justified_after [] l;
  lo_tokens : NoDup (omap token_of l);
  lo_admitted : NoDup (omap admitted_id l);
  lo_connected : ∀ s ch ch', Connected s ch ∈ l → Connected s ch' ∈ l → ch = ch';
}.

Lemma log_app l events :
  log_ok l → justified_after l events →
  NoDup (omap token_of events) → (∀ x, x ∈ omap token_of events → x ∉ omap token_of l) →
  NoDup (omap admitted_id events) → (∀ x, x ∈ omap admitted_id events → x ∉ omap admitted_id l) →
  (∀ s ch, Connected s ch ∈ events →
     s ∉ omap connected_id l ∧ ∀ ch', Connected s ch' ∈ events → ch = ch') →
  log_ok (l ++ events).
Proof.
  intros [Hj Ht Ha Hc] He Ht1 Ht2 Ha1 Ha2 Hn. split.
  - by apply justified_after_app.
  - rewrite omap_app, NoDup_app. naive_solver.
  - rewrite omap_app, NoDup_app. naive_solver.
  - assert (∀ s ch, Connected s ch ∈ l → s ∈ omap connected_id l) as Hin
      by (intros; apply list_elem_of_omap; by eexists).
    intros s ch ch' [H1|H1]%elem_of_app [H2|H2]%elem_of_app; [by eauto|..].
    + destruct (Hn _ _ H2) as [Hf _]. by destruct Hf; eauto.
    + destruct (Hn _ _ H1) as [Hf _]. by destruct Hf; eauto.
    + by apply (Hn s).
Qed.

(** Events that use no identifier. *)
Definition plain (h : Happened) : Prop :=
  token_of h = None ∧ admitted_id h = None ∧ connected_id h = None.

Lemma omap_none {X Y} (f : X → option Y) (l : list X) :
  Forall (λ x, f x = None) l → omap f l = [].
Proof. induction 1 as [|x l Hx _ IH]; [done|]. simpl. by rewrite Hx. Qed.

Lemma log_app_plain l events :
  log_ok l → justified_after l events → Forall plain events →
  log_ok (l ++ events).
Proof.
  intros Hl He Hp.
  assert (omap token_of events = [] ∧ omap admitted_id events = []) as [E1 E2].
  { split; apply omap_none; (eapply Forall_impl; [exact Hp|]); by intros ? (? & ? & ?). }
  apply log_app; rewrite ?E1, ?E2; try done; try constructor; try (by intros ? ?%not_elem_of_nil).
  all: rewrite Forall_forall in Hp; by apply Hp in H as (_ & _ & ?).
Qed.

(** Identifiers determine their events. *)
Lemma omap_NoDup_inj {X Y} (f : X → option Y) (l : list X) x y k :
  NoDup (omap f l) → x ∈ l → y ∈ l → f x = Some k → f y = Some k → x = y.
Proof.
  induction l as [|z l IH]; intros Hnd Hx Hy Ex Ey; [by apply not_elem_of_nil in Hx|].
  assert (∀ w, w ∈ l → f w = Some k → k ∈ omap f l) as Hin
    by (intros w ? ?; apply list_elem_of_omap; eauto).
  simpl in Hnd. apply elem_of_cons in Hx as [->|Hx], Hy as [->|Hy]; [done|..].
  - rewrite Ex in Hnd. apply NoDup_cons in Hnd as [Hn _]. by destruct Hn; eauto.
  - rewrite Ey in Hnd. apply NoDup_cons in Hnd as [Hn _]. by destruct Hn; eauto.
  - apply IH; try done. destruct (f z); [by apply NoDup_cons in Hnd as [_ ?]|done].
Qed.

(** ** The invariant *)

Definition known (l : list Happened) (id : RequestId) (packet : bytes)
    (context : option RequestContext) : Prop :=
  ∃ r, Admission id r ∈ l ∧ req_packet r = packet ∧ req_context r = context.
Definition dispatches (l : list Happened) : list Emission :=
  omap (λ h, match h with
             | Dispatched ch c => Some (Emitted ch c)
             | Woken request => Some (Roused request)
             | _ => None
             end) l.

Lemma elem_of_dispatches l ch c : Emitted ch c ∈ dispatches l ↔ Dispatched ch c ∈ l.
Proof.
  unfold dispatches. rewrite list_elem_of_omap. split.
  - intros (h & Hh & E). destruct h; try done. by injection E as -> ->.
  - intros Hh. by eexists.
Qed.
Lemma elem_of_roused l wk : Roused wk ∈ dispatches l ↔ Woken wk ∈ l.
Proof.
  unfold dispatches. rewrite list_elem_of_omap. split.
  - intros (h & Hh & E). destruct h; try done. by injection E as ->.
  - intros Hh. by eexists.
Qed.

Record broker_ok (l : list Happened) (b : BrokerLoop) : Prop := {
  bo_coherent : running b = true → ∃ O, coherent O [] (actor b);
  bo_tracked : running b = true → tracked (known l) (dispatches l) [] (actor b);
  bo_waiters : ∀ id w, waiters (actor b) !! id = Some w →
    ∃ r, Admission id r ∈ l ∧ req_response r = response w;
  bo_remote : ∀ s ch, remote (actor b) = Some (s, ch) → Connected s ch ∈ l;
}.

Record wires_ok (l : list Happened) (w : Wires) : Prop := {
  wo_requests : ∀ r, r ∈ local_requests w →
    ∃ n, Accepted n (req_response r) (req_packet r) (req_context r) ∈ l;
  wo_responses : ∀ s id att b, CmdResponse s id att b ∈ mailbox w →
    ∃ k e, session_id e = s ∧ Heard k e (AgentResponse id att b) ∈ l;
  wo_connects : ∀ cap ch resp, CmdConnect cap ch resp ∈ mailbox w → resp = ch;
  wo_replies : ∀ t b, replies w !! t = Some (Ok b) →
    ∃ n packet context, Accepted n t packet context ∈ l ∧ from_paired_client l t packet context b;
  wo_connected : ∀ ch s, connect_replies w !! ch = Some (Ok s) → Connected s ch ∈ l;
  wo_outboxes : ∀ ch q c, outboxes w !! ch = Some q → c ∈ q → Dispatched ch c ∈ l;
}.

(** A command that asks the broker for nothing. *)
Definition quiet (c : Command) : Prop :=
  match c with CmdConnect _ _ _ | CmdResponse _ _ _ _ => False | _ => True end.

Definition locals_ok (l : list Happened) (x : Locals) : Prop :=
  ∀ n c packet context t, connections x !! n = Some c →
    Submit packet context t ∈ responses c → Accepted n t packet context ∈ l.

Definition task_ok (l : list Happened) (k : nat) (task : SessionTask) : Prop :=
  match task with
  | Authorized authorization | Connecting authorization _ =>
      ∃ message, Granted k message authorization ∈ l
  | Adapting x ch => ∃ authorization, Opened k ch (established x) authorization ∈ l
  | Leaving posted _ => Forall quiet posted
  | _ => True
  end.

Record server_ok (s : Server) : Prop := {
  so_log : log_ok (log s);
  so_broker : broker_ok (log s) (broker s);
  so_wires : wires_ok (log s) (wires s);
  so_locals : locals_ok (log s) (locals s);
  so_sessions : ∀ k task, sessions s !! k = Some task → task_ok (log s) k task;
}.

(** A longer log keeps the invariant of what has not changed. *)
Lemma explained_known l wk : explained (known l) wk ↔ justified l (Woken wk).
Proof.
  split; intros He x Hx; simpl in *.
  - destruct (He x Hx) as (id & pkt & c & (r & ? & _ & ?) & ?). by exists id, r, c.
  - destruct (He x Hx) as (id & r & c & ? & ? & ?). exists id, (req_packet r), c.
    split; [by exists r|done].
Qed.

Lemma known_mono l l' id packet context :
  l ⊆ l' → known l id packet context → known l' id packet context.
Proof. intros Hs (r & ? & ?). exists r. auto. Qed.

Lemma dispatches_grounded l : log_ok l → Forall (grounded (known l)) (dispatches l).
Proof.
  intros [Hj _ _ _]. apply Forall_forall.
  intros [ch [id att req dl pkt ctx|]|wk] Hin; simpl; [|done|].
  - apply elem_of_dispatches in Hin. by apply justified_by_log in Hin.
  - apply elem_of_roused in Hin. apply explained_known. by apply justified_by_log.
Qed.

Lemma broker_ok_mono l l' b : l ⊆ l' → log_ok l' → broker_ok l b → broker_ok l' b.
Proof.
  intros Hs Hl [Hc Ht Hw Hr]. split; [done| | |by auto].
  - intros Hrun. eapply tracked_mono; [..|by apply Ht].
    + intros id pkt ctx. by apply known_mono.
    + intros [ch c|wk]; rewrite ?elem_of_dispatches, ?elem_of_roused; auto.
    + by apply dispatches_grounded.
  - intros id w (r & ? & ?)%Hw. exists r. auto.
Qed.

Lemma wires_ok_mono l l' w : l ⊆ l' → wires_ok l w → wires_ok l' w.
Proof.
  intros Hs [H1 H2 H3 H4 H5 H6]. split; [..|by eauto|by eauto].
  - intros r (n & ?)%H1. exists n. auto.
  - intros s id att b (k & e & ? & ?)%H2. exists k, e. auto.
  - done.
  - intros t b (n & p & c & ? & ?)%H4. exists n, p, c. eauto using from_paired_client_mono.
Qed.

Lemma locals_ok_mono l l' x : l ⊆ l' → locals_ok l x → locals_ok l' x.
Proof. intros Hs H n c p ctx t ??. by eapply Hs, H. Qed.

Lemma task_ok_mono l l' k task : l ⊆ l' → task_ok l k task → task_ok l' k task.
Proof. intros Hs. destruct task; simpl; naive_solver. Qed.

(** ** Local turns *)

Lemma route_token w packet t r r' packet' context t' :
  route w packet t r = (r', Ok (Submit packet' context t')) → t' = t.
Proof.
  unfold route, route_request. intros. repeat case_match; by simplify_eq.
Qed.

(** What an iteration adds to the outstanding responses. *)
Lemma connection_step_submits write_ok i c c' d n packet context t :
  handle_connection_step write_ok i c = Some (c', d) →
  Submit packet context t ∈ responses c' →
  Submit packet context t ∈ responses c ∨ Accepted n t packet context ∈ accepted_events n d.
Proof.
  unfold handle_connection_step, refuse. destruct (Listener.open c); [|done]. simpl.
  destruct i as [| |w p tok|outcome]; repeat case_match; intros; simplify_eq/=; auto.
  - match goal with H : _ ∈ _ ++ _ |- _ => apply elem_of_app in H as [?|<-%list_elem_of_singleton] end;
      [by left|]. right. apply list_elem_of_here.
  - left. by apply list_elem_of_further.
  - left. by match goal with H : responses c = _ |- _ => rewrite <- H end.
Qed.

Lemma connection_step_tokens write_ok i c c' d n :
  handle_connection_step write_ok i c = Some (c', d) →
  omap token_of (accepted_events n d) = []
  ∨ ∃ w packet t, i = Frame w packet t ∧ omap token_of (accepted_events n d) = [t].
Proof.
  unfold handle_connection_step, refuse, accepted_events. destruct (Listener.open c); [|done]. simpl.
  destruct i as [| |w p tok|outcome]; repeat case_match; intros; simplify_eq/=; auto.
  destruct value as [b|packet context t']; [by left|]. right. exists w, p, tok. split; [done|].
  match goal with H : route _ _ _ _ = _ |- _ => apply route_token in H as -> end. done.
Qed.

(** A client is written an answer the broker gave to its own request. *)
Lemma answered_justified s n c write_ok i c' d :
  server_ok s → connections (locals s) !! n = Some c → listener_possible s c i = true →
  handle_connection_step write_ok i c = Some (c', d) →
  Forall (justified (log s)) (answered_events n c i d).
Proof.
  intros [Hl _ Hw Hlo _] Hc Hp Hst. unfold answered_events.
  destruct i as [| | |outcome]; [constructor..|].
  destruct (responses c) as [|[|packet context t] rest] eqn:Er; [constructor..|].
  destruct (written d); constructor; [|constructor]. simpl.
  destruct outcome as [b|]; [|done]. exists packet, context.
  assert (Accepted n t packet context ∈ log s) as Ha.
  { apply (Hlo n c); [done|]. rewrite Er. apply list_elem_of_here. }
  split; [done|]. unfold listener_possible, reply_possible in Hp. rewrite Er in Hp.
  destruct (replies (wires s) !! t) as [o|] eqn:Eo.
  - apply bool_decide_eq_true in Hp. simpl in Hp. subst o.
    destruct (wo_replies _ _ Hw t b Eo) as (n' & p' & x' & Ha' & Hf).
    pose proof (omap_NoDup_inj token_of _ _ _ t (lo_tokens _ Hl) Ha Ha' eq_refl eq_refl).
    by simplify_eq.
  - apply andb_true_iff in Hp as [_ Hp%bool_decide_eq_true]. unfold submit in Hp. by case_match.
Qed.

Lemma accepted_plain n d :
  omap admitted_id (accepted_events n d) = []
  ∧ (∀ s ch, Connected s ch ∉ accepted_events n d)
  ∧ Forall (λ h, ∀ l, justified l h) (accepted_events n d).
Proof.
  unfold accepted_events. induction (routed d) as [|[x r] rs (IH1 & IH2 & IH3)].
  { split_and!; [done|intros; apply not_elem_of_nil|constructor]. }
  simpl. destruct r; simpl; [done|]. split_and!; [done| |by constructor].
  intros s ch [?|Hin]%elem_of_cons; [done|by apply IH2 in Hin].
Qed.

Lemma answered_plain n c i d : Forall plain (answered_events n c i d).
Proof. unfold answered_events. repeat case_match; repeat constructor. Qed.

Lemma connection_turn_ok n write_ok i s s' :
  server_ok s → fresh_turn (TConnection n write_ok i) s →
  connection_turn n write_ok i s = Some s' → server_ok s'.
Proof.
  intros Hok Hfr Ht. unfold connection_turn in Ht.
  destruct (connections (locals s) !! n) as [c|] eqn:Ec; [|done].
  destruct (listener_possible s c i) eqn:Ep; [|done].
  destruct (handle_connection_step write_ok i c) as [[c' d]|] eqn:Est; [|done].
  pose proof (answered_justified s n c write_ok i c' d Hok Ec Ep Est) as Hj.
  injection Ht as <-. destruct Hok as [Hl Hb Hw Hlo Hse].
  destruct (accepted_plain n d) as (E1 & E2 & Hj').
  assert (log_ok (log s ++ accepted_events n d)) as Hl1.
  { apply log_app; rewrite ?E1; try done; try (by intros ? ?%not_elem_of_nil);
      try (by intros ? ? ?%E2); [..|constructor].
    - apply justified_after_Forall. eapply Forall_impl; [exact Hj'|]. simpl. auto.
    - destruct (connection_step_tokens _ _ _ _ _ n Est) as [->|(w & p & t & -> & ->)];
        repeat constructor; set_solver.
    - destruct (connection_step_tokens _ _ _ _ _ n Est) as [->|(w & p & t & -> & ->)];
        [by intros ? ?%not_elem_of_nil|]. by intros x ->%list_elem_of_singleton. }
  assert (log_ok (log s ++ accepted_events n d ++ answered_events n c i d)) as Hl2.
  { rewrite app_assoc. apply log_app_plain; [done| |apply answered_plain].
    apply justified_after_Forall. eapply Forall_impl; [exact Hj|].
    intros h. apply justified_mono. set_solver. }
  assert (log s ⊆ log s ++ accepted_events n d ++ answered_events n c i d) as Hs by set_solver.
  split; simpl; [done|by eapply broker_ok_mono|by eapply wires_ok_mono| |].
  - intros m c1 p x t Hm Hin. simpl in Hm. apply lookup_insert_Some in Hm as [[-> ->]|[_ Hm]].
    + destruct (connection_step_submits _ _ _ _ _ m p x t Est Hin) as [Hin'|Hin'].
      * apply Hs. by eapply Hlo.
      * set_solver.
    + apply Hs. by eapply Hlo.
  - intros k task Hk. eapply task_ok_mono; [exact Hs|by apply Hse].
Qed.

Lemma accept_turn_ok n w s s' : server_ok s → accept_turn n w s = Some s' → server_ok s'.
Proof.
  intros [Hl Hb Hw Hlo Hse] Ht. unfold accept_turn in Ht. repeat case_match; simplify_eq; [|by split].
  split; simpl; [done..| |done]. intros m c1 p x t Hm Hin. simpl in Hm.
  apply lookup_insert_Some in Hm as [[-> <-]|[_ Hm]]; [by apply not_elem_of_nil in Hin|by eapply Hlo].
Qed.

Lemma stop_accepting_ok s s' : server_ok s → stop_accepting s = Some s' → server_ok s'.
Proof.
  intros [Hl Hb Hw Hlo Hse] [= <-]. split; simpl; [done..| |done].
  intros m c p x t Hm Hin. simpl in Hm. apply lookup_fmap_Some in Hm as (c0 & <- & Hm).
  by eapply Hlo.
Qed.

Lemma submit_turn_ok n k s s' : server_ok s → submit_turn n k s = Some s' → server_ok s'.
Proof.
  intros [Hl Hb Hw Hlo Hse] Ht. unfold submit_turn in Ht.
  destruct (connections (locals s) !! n) as [c|] eqn:Ec; [|done].
  destruct (responses c !! k) as [[|packet context t]|] eqn:Ek; [done| |done].
  case_match; [|done]. simplify_eq. destruct Hw as [H1 H2 H3 H4 H5 H6].
  split; simpl; [done|done| |done|done]. split; simpl; try done.
  intros r [Hin| ->%list_elem_of_singleton]%elem_of_app; [by auto|]. exists n.
  apply (Hlo n c); [done|]. by eapply list_elem_of_lookup_2.
Qed.

(** ** The broker's turn *)

Lemma broker_input_ok l i s w :
  broker_input i s = Some w → wires_ok l (wires s) →
  wires_ok l w
  ∧ (∀ id ab now sys r, i = InLocal id ab now sys r → r ∈ local_requests (wires s))
  ∧ (∀ c x now, i = InCommand c x now → c ∈ mailbox (wires s)).
Proof.
  intros Hi Hw. unfold broker_input in Hi. destruct i; repeat case_match; simplify_eq;
    (split_and!; [|try done|try done]); try done.
  - destruct Hw as [H1 H2 H3 H4 H5 H6]. split; simpl; try done. intros r Hr. apply H1.
    match goal with H : local_requests _ = _ |- _ => rewrite H end. by apply list_elem_of_further.
  - intros ????? [= <- <- <- <- <-]. apply list_elem_of_here.
  - destruct Hw as [H1 H2 H3 H4 H5 H6].
    match goal with H : mailbox _ = _ |- _ => rewrite H in H2, H3 end. split; simpl; try done.
    + intros ???? Hin. by eapply H2, list_elem_of_further.
    + intros ??? Hin. by eapply H3, list_elem_of_further.
  - intros ??? [= <- <- <-]. apply list_elem_of_here.
Qed.

(** What the actions put on the channels has its reason in the log. *)
Definition actions_ok (l : list Happened) (acts : list Action) : Prop :=
  (∀ t b, Respond t (Ok b) ∈ acts →
     ∃ n packet context, Accepted n t packet context ∈ l ∧ from_paired_client l t packet context b)
  ∧ (∀ ch x, ConnectReply ch (Ok x) ∈ acts → Connected x ch ∈ l)
  ∧ (∀ ch c, Outbound ch c ∈ acts → Dispatched ch c ∈ l).

Lemma perform_ok l w x : wires_ok l w → actions_ok l [x] → wires_ok l (perform w x).
Proof.
  intros [H1 H2 H3 H4 H5 H6] (R1 & R2 & R3).
  destruct x as [h outcome|h|ch c|wk|h outcome|h]; simpl; split; simpl; try done.
  - intros t b [[-> ->]|[_ Ht]]%lookup_insert_Some; [|by auto]. apply R1, list_elem_of_here.
  - intros ch' q c' Hq Hin. destruct (decide (ch' = ch)) as [->|Hne].
    + rewrite lookup_alter_eq in Hq. apply fmap_Some in Hq as (q0 & Hq & ->).
      apply elem_of_app in Hin as [Hin| ->%list_elem_of_singleton]; [by eauto|].
      apply R3, list_elem_of_here.
    + rewrite lookup_alter_ne in Hq by done. eauto.
  - intros ch s [[-> ->]|[_ Ht]]%lookup_insert_Some; [|by auto]. apply R2, list_elem_of_here.
Qed.

Lemma perform_all_ok l acts w : wires_ok l w → actions_ok l acts → wires_ok l (foldl perform w acts).
Proof.
  revert w. induction acts as [|x acts IH]; intros w Hw (R1 & R2 & R3); [done|]. simpl.
  apply IH; [apply perform_ok; [done|]|]; split_and!; intros ?? Hin.
  - apply list_elem_of_singleton in Hin as <-. apply R1, list_elem_of_here.
  - apply list_elem_of_singleton in Hin as <-. apply R2, list_elem_of_here.
  - apply list_elem_of_singleton in Hin as <-. apply R3, list_elem_of_here.
  - by apply R1, list_elem_of_further.
  - by apply R2, list_elem_of_further.
  - by apply R3, list_elem_of_further.
Qed.

(** The part of an input's events that is not made of actions. *)
Definition admission (i : Input) : list Happened :=
  match i with InLocal id _ _ _ request => [Admission id request] | _ => [] end.

Lemma elem_of_admission i h :
  h ∈ admission i → ∃ id ab now sys r, i = InLocal id ab now sys r ∧ h = Admission id r.
Proof.
  destruct i; try (by intros ?%not_elem_of_nil). intros ->%list_elem_of_singleton. by eauto 8.
Qed.

Lemma elem_of_broker_events i acts h :
  h ∈ broker_events i acts ↔
  h ∈ admission i
  ∨ (∃ ch c, Outbound ch c ∈ acts ∧ h = Dispatched ch c)
  ∨ (∃ wk, Wake wk ∈ acts ∧ h = Woken wk)
  ∨ (∃ resp e, ConnectReply resp (Err e) ∈ acts ∧ h = Refused resp)
  ∨ ∃ resp s cap ch r x now, ConnectReply resp (Ok s) ∈ acts
      ∧ i = InCommand (CmdConnect cap ch r) x now ∧ h = Connected s ch.
Proof.
  unfold broker_events. rewrite elem_of_app, list_elem_of_omap. apply or_iff_compat_l. split.
  - intros (x & Hx & E). destruct x as [| |ch c|wk|resp [s|]|]; try done.
    + injection E as <-. left. by eauto.
    + injection E as <-. right; left. by eauto.
    + destruct i as [| | | |[] ? ?| |]; simplify_eq. right; right; right. by eauto 12.
    + injection E as <-. right; right; left. by eauto.
  - intros [(ch & c & Hx & ->)|[(wk & Hx & ->)|[(resp & e & Hx & ->)|
      (resp & s & cap & ch & r & x & now & Hx & -> & ->)]]]; by eexists.
Qed.

Lemma dispatches_broker_events l i acts :
  dispatches (l ++ broker_events i acts) = dispatches l ++ outbounds acts.
Proof.
  unfold dispatches, broker_events. rewrite !omap_app. f_equal.
  match goal with |- omap ?f ?a ++ _ = _ => assert (omap f a = []) as -> by by destruct i end.
  simpl. induction acts as [|x acts IH]; [done|]. unfold outbounds in *. simpl.
  destruct x as [| | | |? []|]; simpl; try done; [by f_equal|by f_equal|].
  by destruct i as [| | | |[] ? ?| |].
Qed.

Lemma broker_events_ids i acts :
  omap token_of (broker_events i acts) = []
  ∧ omap admitted_id (broker_events i acts) = omap admitted_id (admission i).
Proof.
  unfold broker_events. rewrite !omap_app.
  assert (omap token_of (admission i) = []) as E by by destruct i.
  unfold admission in *. rewrite E. simpl.
  rewrite <- (app_nil_r (omap admitted_id _)) at 2. split; [|f_equal].
  all: induction acts as [|[| | | |? []|] acts IH]; simpl; try done.
  all: by destruct i as [| | | |[] ? ?| |].
Qed.

Section broker_step.
Variables (s : Server) (i : Input) (l' : BrokerLoop) (acts : list Action) (w : Wires).
Hypotheses (Hok : server_ok s) (Hfr : fresh_turn (TBroker i) s) (Hi : broker_input i s = Some w)
  (Hst : run_broker_step (delivers s) i (broker s) = Some (l', acts)).
Let l1 := log s ++ broker_events i acts.

Lemma step_fresh : fresh_input i (broker s).
Proof. clear Hi Hst. destruct i; try done. by destruct Hfr. Qed.

Lemma step_running : running (broker s) = true.
Proof. unfold run_broker_step in Hst. by destruct (running (broker s)). Qed.

Lemma step_inputs :
  (∀ id ab now sys r, i = InLocal id ab now sys r → r ∈ local_requests (wires s))
  ∧ ∀ c x now, i = InCommand c x now → c ∈ mailbox (wires s).
Proof. apply (broker_input_ok (log s) _ _ _ Hi (so_wires _ Hok)). Qed.

Lemma step_log_grows : log s ⊆ l1.
Proof. clear. unfold l1. set_solver. Qed.
Lemma step_logs h : h ∈ broker_events i acts → h ∈ l1.
Proof. clear. unfold l1. set_solver. Qed.
Lemma step_admits h : h ∈ admission i → h ∈ l1.
Proof. intros. apply step_logs, elem_of_broker_events. by left. Qed.

(** A successful answer comes from the paired client. *)
Lemma respond_origin t b :
  Respond t (Ok b) ∈ acts →
  ∃ n packet context,
    Accepted n t packet context ∈ log s ∧ from_paired_client (log s) t packet context b.
Proof.
  intros Hin. pose proof Hok as [[Hj Htok Hadm Hcon] [Hco Htr Hwt Hrem] Hw _ _].
  destruct (Hco step_running) as [O HO]. specialize (Htr step_running).
  destruct (step_success _ O i _ _ _ _ _ step_fresh HO Hst Hin)
    as (x & id & att & y & now & wt & p & Ei & Hwid & <- & Hp & Hfl & _).
  destruct (wo_responses _ _ Hw _ _ _ _ (proj2 step_inputs _ _ _ Ei)) as (k & e & <- & Hheard).
  destruct (Hwt id wt Hwid) as (r & Hr & <-).
  destruct (tr_pending _ _ _ _ Htr id p Hp) as (r' & Hr' & Hpk & Hcx).
  assert (r = r') as <-.
  { pose proof (omap_NoDup_inj admitted_id _ _ _ id Hadm Hr Hr' eq_refl eq_refl). by simplify_eq. }
  destruct (tr_flight _ _ _ _ Htr id p _ att Hp Hfl)
    as [(? & ? & []%not_elem_of_nil)|(ch & req & dl & Hch & Hd%elem_of_dispatches)].
  pose proof (justified_by_log _ _ Hj Hr) as (n & Hacc).
  pose proof (justified_by_log _ _ Hj Hheard) as (ch' & au & Hop).
  pose proof (justified_by_log _ _ Hj Hop) as (Hc' & _ & _).
  assert (ch' = ch) as -> by (eapply Hcon; [exact Hc'|by apply Hrem]).
  exists n, (req_packet r), (req_context r). split; [done|].
  exists k, ch, e, au, id, r, att, req, dl. by rewrite <- Hpk, <- Hcx in Hd.
Qed.

Lemma step_tracked_log : tracked (known l1) (dispatches l1) [] (actor l').
Proof.
  pose proof Hok as [Hl [Hco Htr _ _] _ _ _]. destruct (Hco step_running) as [O HO].
  unfold l1 at 2. rewrite dispatches_broker_events.
  eapply (step_tracked (known l1) (delivers s) O); [apply step_fresh|done| | |exact Hst].
  - eapply tracked_mono; [| | |exact (Htr step_running)]; [|done|].
    + intros id pkt ctx. by apply known_mono, step_log_grows.
    + eapply Forall_impl; [by apply dispatches_grounded|]. intros x. apply grounded_mono.
      intros id pkt ctx. by apply known_mono, step_log_grows.
  - intros id ab now sys r Ei. exists r. split; [|done]. apply step_admits. rewrite Ei.
    apply list_elem_of_here.
Qed.

(** What the broker emits speaks of requests admitted before, at the latest in
    the same turn. *)
Lemma known_admitted id pkt ctx : known l1 id pkt ctx → known (log s ++ admission i) id pkt ctx.
Proof.
  intros (r & Hr & ?). exists r. split; [|done]. apply elem_of_app in Hr as [Hr|Hr]; [set_solver|].
  apply elem_of_broker_events in Hr; clear Hfr Hi Hst; set_solver.
Qed.

Lemma emitted_grounded x :
  x ∈ outbounds acts → grounded (known (log s ++ admission i)) x.
Proof.
  intros Hx. apply (grounded_mono (known l1)); [apply known_admitted|].
  pose proof (tr_sent _ _ _ _ step_tracked_log) as Hg. rewrite Forall_forall in Hg. apply Hg.
  unfold l1. rewrite dispatches_broker_events. apply elem_of_app. by right.
Qed.

Lemma step_justified : justified_after (log s) (broker_events i acts).
Proof.
  apply (justified_after_app _ (admission i)). split; apply justified_after_Forall, Forall_forall.
  - intros h (id & ab & now & sys & r & Ei & ->)%elem_of_admission. simpl.
    apply (wo_requests _ _ (so_wires _ Hok)). by eapply step_inputs.
  - intros h (x & Hx & E)%list_elem_of_omap.
    destruct x as [| |ch [id att req dl pkt ctx|]|wk|resp [y|]|]; simplify_eq/=; try done.
    + apply (emitted_grounded (Emitted ch (RemoteRequest id att req dl pkt ctx))).
      apply list_elem_of_omap. by eexists.
    + apply explained_known, (emitted_grounded (Roused wk)). apply list_elem_of_omap. by eexists.
    + clear Hfr Hi Hst. destruct i as [| | | |[] ? ?| |]; by simplify_eq/=.
Qed.

Lemma step_log_ok : log_ok l1.
Proof.
  destruct (broker_events_ids i acts) as [Et Ea].
  destruct (step_frames _ _ _ _ _ Hst) as (_ & _ & Fc).
  apply log_app; [apply Hok|..]; rewrite ?Et, ?Ea.
  - apply step_justified.
  - constructor.
  - by intros ? ?%not_elem_of_nil.
  - clear. destruct i; repeat constructor; set_solver.
  - clear Et Ea Fc Hi Hst. destruct i; try (by intros ? ?%not_elem_of_nil).
    intros x ->%list_elem_of_singleton. apply Hfr.
  - intros x ch Hx. apply elem_of_broker_events in Hx as [Hx|[Hx|[Hx|[Hx|Hx]]]];
      [by apply elem_of_admission in Hx; naive_solver|naive_solver|naive_solver|naive_solver|].
    destruct Hx as (resp & ? & cap & ? & r & y & now & Hx & Ei & [= <- <-]).
    apply Fc in Hx as (? & ? & ? & Ei'). rewrite Ei in Ei'. simplify_eq.
    split; [done|]. intros ch' Hx. apply elem_of_broker_events in Hx as [Hx|[Hx|[Hx|[Hx|Hx]]]];
      [by apply not_elem_of_nil in Hx|naive_solver..].
Qed.

Lemma step_broker_ok : broker_ok l1 l'.
Proof.
  pose proof Hok as [_ [Hco _ Hwt Hrem] _ _ _]. destruct (Hco step_running) as [O HO].
  destruct (step_frames _ _ _ _ _ Hst) as (Fw & Fr & _). split.
  - intros Hrun. destruct (step_coherent _ O i _ _ _ step_fresh HO Hst Hrun) as (O' & HO' & _).
    by exists O'.
  - intros _. apply step_tracked_log.
  - intros id wt Hid. destruct (Fw id wt Hid) as [Hold|(ab & now & sys & r & Ei & ->)].
    + apply Hwt in Hold as (r & ? & ?). exists r. auto using step_log_grows.
    + exists r. split; [|done]. apply step_admits. rewrite Ei. apply list_elem_of_here.
  - intros x ch Hx. destruct (Fr x ch Hx) as [Hold|(cap & resp & now & Ei & Hrep)].
    + by apply step_log_grows, Hrem.
    + apply step_logs, elem_of_broker_events. by eauto 15.
Qed.

Lemma step_actions_ok : actions_ok l1 acts.
Proof.
  destruct (step_frames _ _ _ _ _ Hst) as (_ & _ & Fc). split_and!.
  - intros t b (n & packet & context & ? & ?)%respond_origin.
    exists n, packet, context. eauto using from_paired_client_mono, step_log_grows.
  - intros ch x Hin. destruct (Fc ch x Hin) as (cap & ch' & now & Ei).
    assert (ch = ch') as -> by (eapply (wo_connects _ _ (so_wires _ Hok)); by eapply step_inputs).
    apply step_logs, elem_of_broker_events. by eauto 15.
  - intros ch c Hin. apply step_logs, elem_of_broker_events. by eauto 6.
Qed.
End broker_step.

Lemma broker_turn_ok i s s' :
  server_ok s → fresh_turn (TBroker i) s → broker_turn i s = Some s' → server_ok s'.
Proof.
  intros Hok Hfr Ht. unfold broker_turn in Ht.
  destruct (broker_input i s) as [w|] eqn:Hi; [|done].
  destruct (run_broker_step (delivers s) i (broker s)) as [[l' acts]|] eqn:Hst; [|done].
  pose proof (step_log_ok s i l' acts w Hok Hfr Hi Hst) as Hl1.
  pose proof (step_broker_ok s i l' acts Hok Hfr Hst) as Hb1.
  pose proof (step_actions_ok s i l' acts w Hok Hfr Hi Hst) as Ha1.
  injection Ht as <-. destruct Hok as [Hl Hb Hw Hlo Hse].
  destruct (broker_input_ok (log s) _ _ _ Hi Hw) as (Hw1 & _).
  assert (log s ⊆ log s ++ broker_events i acts) as Hs by set_solver.
  split; simpl; [done|done| |by eapply locals_ok_mono|].
  - assert (wires_ok (log s ++ broker_events i acts) (foldl perform w acts)) as Hw2
      by (apply perform_all_ok; [by eapply wires_ok_mono|done]).
    case_match; [done|]. destruct Hw2 as [H1 H2 H3 H4 H5 H6].
    split; simpl; try done; set_solver.
  - intros k task Hk. eapply task_ok_mono; [exact Hs|by apply Hse].
Qed.

(** ** The sessions' turns *)

Lemma put_session_ok n task a posted boxes events s :
  server_ok s → log_ok (log s ++ events) → task_ok (log s ++ events) n task →
  (∀ x id att b, CmdResponse x id att b ∈ posted →
     ∃ k e, session_id e = x ∧ Heard k e (AgentResponse id att b) ∈ log s ++ events) →
  (∀ cap ch resp, CmdConnect cap ch resp ∈ posted → resp = ch) →
  (∀ ch q c, boxes !! ch = Some q → c ∈ q → Dispatched ch c ∈ log s) →
  server_ok (put_session n task a posted boxes events s).
Proof.
  intros [Hl Hb Hw Hlo Hse] Hl1 Ht Hr Hc Hbox.
  assert (log s ⊆ log s ++ events) as Hs by set_solver.
  pose proof (wires_ok_mono _ _ _ Hs Hw) as [H1 H2 H3 H4 H5 _].
  split; simpl; [done|by eapply broker_ok_mono| |by eapply locals_ok_mono|].
  - split; simpl; try done.
    + intros x id att b [Hin|Hin]%elem_of_app; [by eauto|].
      destruct (broker_runs s); [by eauto|by apply not_elem_of_nil in Hin].
    + intros cap ch resp [Hin|Hin]%elem_of_app; [by eauto|].
      destruct (broker_runs s); [by eauto|by apply not_elem_of_nil in Hin].
    + intros ch q c Hq Hin. by eapply Hs, Hbox.
  - intros k task' [[<- <-]|[_ Hk]]%lookup_insert_Some; [done|].
    eapply task_ok_mono; [exact Hs|by apply Hse].
Qed.

(** A step that records at most rejections and posts nothing the broker answers. *)
Lemma put_session_refusing n task a posted boxes events s :
  server_ok s → task_ok (log s) n task →
  Forall quiet posted → (∀ h, h ∈ events → h = Told n Rejected) →
  (∀ ch q, boxes !! ch = Some q → q = [] ∨ outboxes (wires s) !! ch = Some q) →
  server_ok (put_session n task a posted boxes events s).
Proof.
  intros Hok Ht Hp He Hb. rewrite Forall_forall in Hp. apply put_session_ok; try done.
  - apply log_app_plain; [apply Hok|apply justified_after_Forall|]; apply Forall_forall;
      intros h ->%He; [by left|done].
  - eapply task_ok_mono, Ht. set_solver.
  - intros x id att b Hin. by apply Hp in Hin.
  - intros cap ch resp Hin. by apply Hp in Hin.
  - intros ch q c Hq Hin. destruct (Hb ch q Hq) as [->|Hq']; [by apply not_elem_of_nil in Hin|].
    by eapply (wo_outboxes _ _ (so_wires _ Hok)).
Qed.

Lemma put_session_quiet n task a posted boxes s :
  server_ok s → task_ok (log s) n task → Forall quiet posted →
  (∀ ch q, boxes !! ch = Some q → q = [] ∨ outboxes (wires s) !! ch = Some q) →
  server_ok (put_session n task a posted boxes [] s).
Proof. intros. apply put_session_refusing; try done. by intros h ?%not_elem_of_nil. Qed.

Lemma elem_of_commands acts c : c ∈ commands acts ↔ ToBroker c ∈ acts.
Proof.
  unfold commands. rewrite list_elem_of_omap. split.
  - intros (x & Hx & E). destruct x; by simplify_eq.
  - intros Hx. by eexists.
Qed.
Lemma elem_of_told n acts h : h ∈ told_events n acts ↔ ∃ m, Send m ∈ acts ∧ h = Told n m.
Proof.
  unfold told_events. rewrite list_elem_of_omap. split.
  - intros (x & Hx & E). destruct x; simplify_eq. by eauto.
  - intros (m & Hm & ->). by eexists.
Qed.

Lemma send_rejected_commands : commands send_rejected = [].
Proof. unfold send_rejected, send. by case_match. Qed.
Lemma send_rejected_says m : Send m ∈ send_rejected → m = Rejected.
Proof. unfold send_rejected, send. case_match; set_solver. Qed.

Lemma upgrade_turn_ok n s s' : server_ok s → upgrade_turn n s = Some s' → server_ok s'.
Proof.
  intros Hok Ht. unfold upgrade_turn in Ht. case_match; simplify_eq.
  apply put_session_quiet; [done|done|constructor|by auto].
Qed.

Lemma serve_first_spec env received a a' acts next :
  serve_first env received a = (a', acts, next) →
  (∀ x, Send x ∈ acts → x = Rejected)
  ∧ ∀ m authorization, next = Some (m, authorization) →
      receive_client received = Some m ∧ authorize env m a = (a', Some (Ok authorization)).
Proof.
  unfold serve_first. destruct (receive_client received) as [m'|].
  - destruct (authorize env m' a) as [a1 [[au|]|]] eqn:E; intros [= <- <- <-];
      (split; [try apply send_rejected_says; set_solver|]); naive_solver.
  - intros [= <- <- <-]. split; [set_solver|done].
Qed.

(** What is sent to a client that is refused. *)
Lemma told_rejections n acts h :
  (∀ x, Send x ∈ acts → x = Rejected) → h ∈ told_events n acts → h = Told n Rejected.
Proof. intros Hx (m & ->%Hx & ->)%elem_of_told. done. Qed.

Lemma post_session_some n task a posted boxes events s s' :
  post_session n task a posted boxes events s = Some s' →
  s' = put_session n task a posted boxes events s.
Proof. unfold post_session. case_match; naive_solver. Qed.

Lemma greet_turn_ok n env received s s' :
  server_ok s → greet_turn n env received s = Some s' → server_ok s'.
Proof.
  intros Hok Ht. unfold greet_turn in Ht. destruct (sessions s !! n) as [[| | | | |]|]; try done.
  destruct (serve_first env received (service s)) as [[a acts] [[m au]|]] eqn:Ef; injection Ht as <-.
  - apply serve_first_spec in Ef as [Hrej Hgr]. destruct (Hgr m au eq_refl) as [_ Eau].
    assert (∀ h, h ∈ told_events n acts ++ [Granted n m au] →
              h = Told n Rejected ∨ h = Granted n m au) as Hes.
    { intros h [Hh|Hh]%elem_of_app; [left; by eapply told_rejections|set_solver]. }
    apply put_session_ok; [done|..]; try set_solver.
    + apply log_app_plain; [apply Hok|apply justified_after_Forall|]; apply Forall_forall;
        intros h [->| ->]%Hes; try done; [by left|by simpl; eauto].
    + intros. by eapply (wo_outboxes _ _ (so_wires _ Hok)).
  - apply serve_first_spec in Ef as [Hrej _].
    apply put_session_refusing; [done|done|constructor|by intros h; apply told_rejections|by auto].
Qed.

Lemma ask_turn_ok n channel s s' :
  server_ok s → ask_turn capacity n channel s = Some s' → server_ok s'.
Proof.
  intros Hok Ht. unfold ask_turn in Ht.
  destruct (sessions s !! n) as [[|au| | | |]|] eqn:En; try done.
  destruct (so_sessions _ Hok _ _ En) as (m & Hm).
  destruct (connect_remote _ capacity channel channel) as [posted [[]|]] eqn:Ec.
  - apply post_session_some in Ht as ->.
    assert (posted = [CmdConnect capacity channel channel]) as ->.
    { unfold connect_remote in Ec. case_match; [done|].
      by apply send_remote_event_ok in Ec as [[-> _] _]. }
    apply put_session_ok; [done|..].
    + apply log_app_plain; [apply Hok|done|by repeat constructor].
    + simpl. exists m. set_solver.
    + set_solver.
    + intros cap ch resp Hin%list_elem_of_singleton. by simplify_eq.
    + intros ch q c [[<- <-]|[_ Hq]]%lookup_insert_Some Hin; [by apply not_elem_of_nil in Hin|].
      by eapply (wo_outboxes _ _ (so_wires _ Hok)).
  - injection Ht as <-. apply put_session_quiet; [done|done|constructor|by auto].
Qed.

Lemma serve_connected_spec outcome sent authorization acts e :
  serve_connected outcome sent vapid authorization = (acts, e) →
  match e with
  | Some e => outcome = Ok (session_id e) ∧ client_id e = authorized_client authorization
              ∧ commands acts = []
              ∧ ∀ id att req dl packet context, Send (AgentRequest id att req dl packet context) ∉ acts
  | None => Forall quiet (commands acts) ∧ ∀ x, Send x ∈ acts → x = Rejected
  end.
Proof.
  unfold serve_connected. destruct outcome as [session|[]]; [case_match|..]; intros [= <- <-];
    rewrite ?send_rejected_commands;
    try (by split; [repeat constructor|try apply send_rejected_says; set_solver]).
  split_and!; [done..|]. intros. destruct authorization; set_solver.
Qed.

Lemma connected_turn_ok n sent s s' :
  server_ok s → connected_turn vapid n sent s = Some s' → server_ok s'.
Proof.
  intros Hok Ht. unfold connected_turn in Ht.
  destruct (sessions s !! n) as [[| |au ch| | |]|] eqn:En; try done.
  destruct (connect_outcome ch s) as [outcome|] eqn:Eo; [|done].
  destruct (serve_connected outcome sent vapid au) as [acts e] eqn:Es.
  apply serve_connected_spec in Es. pose proof (so_sessions _ Hok _ _ En) as (m & Hm).
  destruct e as [e|]; injection Ht as <-.
  - destruct Es as (-> & Hcl & _ & Hno).
    assert (Connected (session_id e) ch ∈ log s) as Hcon.
    { apply (wo_connected _ _ (so_wires _ Hok)). unfold connect_outcome in Eo.
      destruct (connect_replies (wires s) !! ch); [by simplify_eq/=|]. by case_match. }
    apply put_session_ok; [done|..]; [|exists au; set_solver|set_solver|set_solver|].
    + apply log_app_plain; [apply Hok|..].
      * simpl. split; [by eauto|]. apply justified_after_Forall, Forall_forall.
        intros h (x & Hx & ->)%elem_of_told. right. exists ch, e, au. split; [set_solver|].
        intros ?????? ->. by apply Hno in Hx.
      * apply Forall_forall. by intros h [->|(x & Hx & ->)%elem_of_told]%elem_of_cons.
    + intros. by eapply (wo_outboxes _ _ (so_wires _ Hok)).
  - destruct Es as [Hq Hrej].
    apply put_session_refusing; [done|done|constructor|by intros h; apply told_rejections|by auto].
Qed.

Lemma leave_turn_ok n s s' : server_ok s → leave_turn n s = Some s' → server_ok s'.
Proof.
  intros Hok Ht. unfold leave_turn in Ht.
  destruct (sessions s !! n) as [[| | | |posted ch|]|] eqn:En; try done.
  pose proof (so_sessions _ Hok _ _ En) as Hq. simpl in Hq.
  destruct posted as [|c posted]; [injection Ht as <-|apply post_session_some in Ht as ->].
  - apply put_session_quiet; [done|done|done|].
    intros ch' q Hch%lookup_delete_Some. right. by destruct Hch.
  - apply put_session_quiet; [done|constructor|done|by auto].
Qed.

(** What a session tells the broker: never that it wants the slot, and a response
    only as its client sent it. *)
Definition reports (e : Established) (message : option Message) (c : Command) : Prop :=
  match c with
  | CmdConnect _ _ _ => False
  | CmdResponse s id att b =>
      s = session_id e
      ∧ ∃ frame, message = Some (Binary frame) ∧ decode_client frame = Ok (AgentResponse id att b)
  | _ => True
  end.

Lemma client_message_spec env message accepted e pong a a' pong' acts continue :
  handle_client_message env message accepted e pong a = (a', pong', acts, continue) →
  (∀ m, Send m ∉ acts) ∧ ∀ c, ToBroker c ∈ acts → reports e (Some message) c.
Proof.
  unfold handle_client_message.
  destruct message as [frame| | | |]; [|intros; simplify_eq; split; set_solver..].
  destruct (decode_client frame) as [m|] eqn:Ed; [|intros; simplify_eq; split; set_solver].
  destruct m; try destruct accepted; repeat case_match; intros; simplify_eq;
    (split; [set_solver|]); try (by intros c ?%not_elem_of_nil);
    intros c Hc%list_elem_of_singleton; simplify_eq; simpl; by eauto.
Qed.

Definition message_of (i : SessionInput) : option Message :=
  match i with FromClient _ message _ => message | _ => None end.

(** What a session does in an iteration. *)
Lemma session_step_spec i x x' acts :
  run_authenticated_step i x = Some (x', acts) →
  established x' = established x
  ∧ (∀ m, Send m ∈ acts →
       m = Ping ∨ ∃ command sent, i = FromBroker (Some command) sent ∧ m = server_message command)
  ∧ ∀ c, ToBroker c ∈ acts → reports (established x) (message_of i) c.
Proof.
  unfold run_authenticated_step. destruct (alive x); [|done]. simpl. intros [= H].
  assert (∀ y acts0, (∀ m, Send m ∉ acts0) →
    (∀ c, ToBroker c ∈ acts0 → reports (established x) (message_of i) c) →
    established y = established x → end_session acts0 y = (x', acts) →
    established x' = established x ∧ (∀ m, Send m ∉ acts)
    ∧ ∀ c, ToBroker c ∈ acts → reports (established x) (message_of i) c) as Hend.
  { intros y acts0 Hm Hc Hy [= <- <-]. split_and!; [exact Hy| |].
    - intros m [Hin|Hin]%elem_of_app; [by apply Hm in Hin|set_solver].
    - intros c [Hin|Hin]%elem_of_app; [by auto|]. apply list_elem_of_singleton in Hin. by simplify_eq. }
  destruct i as [[command|] sent|env [message|] accepted|sent| |]; simpl in H.
  - destruct (is_ok _ && sent); [simplify_eq|]; [split_and!; [done| |set_solver]|].
    { intros m Hm%list_elem_of_singleton. simplify_eq. by eauto. }
    apply Hend in H as (? & ? & ?); [|set_solver..|done]. split_and!; [done|set_solver|done].
  - apply Hend in H as (? & ? & ?); [|set_solver..|done]. split_and!; [done|set_solver|done].
  - destruct (handle_client_message _ _ _ _ _ _) as [[[a pong] acts0] continue] eqn:E.
    apply client_message_spec in E as [Hm Hc]. destruct continue; [simplify_eq|].
    { split_and!; [done|set_solver|done]. }
    apply Hend in H as (? & ? & ?); [|done..]. split_and!; [done|set_solver|done].
  - apply Hend in H as (? & ? & ?); [|set_solver..|done]. split_and!; [done|set_solver|done].
  - destruct (is_ok _ && _ && sent); [simplify_eq|]; [split_and!; [done|set_solver|set_solver]|].
    apply Hend in H as (? & ? & ?); [|set_solver..|done]. split_and!; [done|set_solver|done].
  - apply Hend in H as (? & ? & ?); [|set_solver..|done]. split_and!; [done|set_solver|done].
  - apply Hend in H as (? & ? & ?); [|set_solver..|done]. split_and!; [done|set_solver|done].
Qed.

(** A session that ends only says so. *)
Lemma session_end_quiet i x x' acts :
  run_authenticated_step i x = Some (x', acts) → alive x' = false → Forall quiet (commands acts).
Proof.
  intros Hst Ha. rewrite (step_ending _ _ _ _ Hst Ha). by repeat constructor.
Qed.

Lemma session_input_ok i ch s boxes :
  server_ok s → session_input i ch s = Some boxes →
  (∀ ch' q c, boxes !! ch' = Some q → c ∈ q → Dispatched ch' c ∈ log s)
  ∧ ∀ command sent, i = FromBroker (Some command) sent → Dispatched ch command ∈ log s.
Proof.
  intros Hok Hi. pose proof (wo_outboxes _ _ (so_wires _ Hok)) as Hbox. unfold session_input in Hi.
  destruct i as [[command|] sent|env message accepted|sent| |]; repeat case_match; simplify_eq;
    try (split; [done|done]).
  match goal with H : outboxes _ !! ch = Some _ |- _ => rename H into Hch end. split.
  - intros ch' q c [[<- <-]|[_ Hq]]%lookup_insert_Some Hin; [|by eauto].
    by eapply Hbox, list_elem_of_further.
  - intros command' sent' [= <- <-]. eapply Hbox; [done|]. apply list_elem_of_here.
Qed.

Lemma session_events_ok n i ch s x x' acts boxes au :
  server_ok s → session_input i ch s = Some boxes → Opened n ch (established x) au ∈ log s →
  run_authenticated_step i (with_service (service s) x) = Some (x', acts) →
  log_ok (log s ++ heard_events n (established x) i ++ told_events n acts).
Proof.
  intros Hok Hi Hop Hst. destruct (session_input_ok _ _ _ _ Hok Hi) as [_ Hcmd].
  destruct (session_step_spec _ _ _ _ Hst) as (_ & Hm & _).
  assert (∀ h, h ∈ heard_events n (established x) i → ∃ m, h = Heard n (established x) m) as Hh.
  { intros h Hin. unfold heard_events in Hin.
    repeat case_match; try (by apply not_elem_of_nil in Hin).
    apply list_elem_of_singleton in Hin. by eauto. }
  apply log_app_plain; [apply Hok|apply justified_after_Forall|]; apply Forall_forall;
    intros h [(m & ->)%Hh|(m & Hin & ->)%elem_of_told]%elem_of_app; try done; simpl.
  - by exists ch, au.
  - right. exists ch, (established x), au. split; [done|]. intros id att req dl packet context ->.
    destruct (Hm _ Hin) as [?|(command & sent & -> & E)]; [done|]. destruct command; simplify_eq/=.
    exact (Hcmd _ _ eq_refl).
Qed.

Lemma session_turn_ok n i s s' :
  server_ok s → session_turn n i s = Some s' → server_ok s'.
Proof.
  intros Hok Ht. unfold session_turn in Ht.
  destruct (sessions s !! n) as [[| | |x ch| |]|] eqn:En; try done.
  destruct (session_input i ch s) as [boxes|] eqn:Ei; [|done].
  destruct (run_authenticated_step i _) as [[x' acts]|] eqn:Est; [|done].
  pose proof (so_sessions _ Hok _ _ En) as (au & Hop).
  pose proof (session_events_ok n i ch s x x' acts boxes au Hok Ei Hop Est) as Hl1.
  destruct (session_input_ok _ _ _ _ Hok Ei) as [Hbox _].
  destruct (session_step_spec _ _ _ _ Est) as (He & _ & Hc). simpl in He, Hc.
  set (events := heard_events n (established x) i ++ told_events n acts) in *.
  assert (∀ y id att b, CmdResponse y id att b ∈ commands acts →
    ∃ k e, session_id e = y ∧ Heard k e (AgentResponse id att b) ∈ log s ++ events) as Hr.
  { intros y id att b Hin%elem_of_commands. apply Hc in Hin as (-> & frame & Hf & Hd).
    exists n, (established x). split; [done|]. apply elem_of_app. right. apply elem_of_app. left.
    destruct i; try done. simpl in Hf. subst message. simpl. rewrite Hd. apply list_elem_of_here. }
  assert (∀ cap ch' resp, CmdConnect cap ch' resp ∈ commands acts → resp = ch') as Hcon
    by (intros cap ch' resp Hin%elem_of_commands; by apply Hc in Hin).
  destruct (alive x') eqn:Ea; [apply post_session_some in Ht as ->|injection Ht as <-];
    apply put_session_ok; try done; try (by intros ???? ?%not_elem_of_nil);
    try (by intros ??? ?%not_elem_of_nil).
  - exists au. rewrite He. set_solver.
  - by eapply session_end_quiet.
Qed.

(** ** Every turn keeps the invariant *)

Lemma server_turn_ok t s s' :
  server_ok s → fresh_turn t s → server_turn capacity vapid t s = Some s' → server_ok s'.
Proof.
  intros Hok Hfr.
  destruct t as [n w| |n write_ok i|n k|i|n|n env received|n ch|n sent|n i|n| |resp|a]; simpl.
  - by apply accept_turn_ok.
  - by apply stop_accepting_ok.
  - by apply connection_turn_ok.
  - by apply submit_turn_ok.
  - by apply broker_turn_ok.
  - by apply upgrade_turn_ok.
  - by apply greet_turn_ok.
  - by apply ask_turn_ok.
  - by apply connected_turn_ok.
  - by apply session_turn_ok.
  - by apply leave_turn_ok.
  - intros [= <-]. by destruct Hok.
  - case_match; [|done]. intros [= <-]. destruct Hok as [Hl Hb [H1 H2 H3 H4 H5 H6] Hlo Hse].
    unfold shutdown. split; simpl; try done. split; simpl; try done; case_match; set_solver.
  - intros [= <-]. by destruct Hok.
Qed.

Lemma server_start_ok cfg a : server_ok (server_start cfg a).
Proof.
  split; simpl.
  - split; [constructor..|]. intros ??? ?%not_elem_of_nil. done.
  - split; simpl; try done. intros _. exists ∅. apply coherent_init.
  - split; simpl; set_solver.
  - done.
  - done.
Qed.

Lemma server_run_ok turns s s' :
  server_ok s → server_run capacity vapid turns s = Some s' → server_ok s'.
Proof.
  revert s. induction turns as [|t turns IH]; intros s Hok; simpl; [by intros [= <-]|].
  case_decide as Hfr; [|done]. intros (s1 & H1 & H2)%bind_Some. eapply IH; [|done].
  by eapply server_turn_ok.
Qed.

(** ** Authorizations *)

(** The handshake of session [k] was authorized by the pairing service in the
    state it had when the message arrived. *)
Definition authorized_in (start : Server) (turns : list ServerTurn) (k : nat)
    (message : ClientMessage) (authorization : Authorization) : Prop :=
  ∃ turns1 env received turns2 s1 a',
    turns = turns1 ++ TGreet k env received :: turns2
    ∧ server_run capacity vapid turns1 start = Some s1
    ∧ receive_client received = Some message
    ∧ authorize env message (service s1) = (a', Some (Ok authorization)).

Lemma put_session_log n task a posted boxes events s :
  log (put_session n task a posted boxes events s) = log s ++ events.
Proof. done. Qed.

(** What a turn may record. *)
Definition recorded (t : ServerTurn) (s : Server) (h : Happened) : Prop :=
  match t, h with
  | TConnection n _ _, (Accepted m _ _ _ | Answered m _ _) => m = n
  | TBroker _, (Admission _ _ | Dispatched _ _ | Woken _ | Connected _ _ | Refused _) => True
  | TGreet n env received, Granted k m au =>
      k = n ∧ receive_client received = Some m
      ∧ ∃ a', authorize env m (service s) = (a', Some (Ok au))
  | TGreet n _ _, Told k m => k = n ∧ m = Rejected
  | TAsk n _, Asked k _ => k = n
  | TConnected n _, (Opened k _ _ _ | Told k _) => k = n
  | TSession n _, (Heard k _ _ | Told k _) => k = n
  | _, _ => False
  end.

Lemma connection_events_recorded n write_ok i s c d :
  Forall (recorded (TConnection n write_ok i) s) (accepted_events n d ++ answered_events n c i d).
Proof.
  apply Forall_app. split.
  - apply Forall_forall. intros h (x & _ & E)%list_elem_of_omap. case_match; by simplify_eq.
  - unfold answered_events. repeat case_match; by repeat constructor.
Qed.

Lemma broker_events_recorded i acts s : Forall (recorded (TBroker i) s) (broker_events i acts).
Proof.
  apply Forall_forall. intros h [Hin|Hin]%elem_of_broker_events;
    [apply elem_of_admission in Hin|]; naive_solver.
Qed.

Lemma session_events_recorded n i s e acts :
  Forall (recorded (TSession n i) s) (heard_events n e i ++ told_events n acts).
Proof.
  apply Forall_app. split.
  - unfold heard_events. repeat case_match; by repeat constructor.
  - apply Forall_forall. by intros h (m & _ & ->)%elem_of_told.
Qed.

Lemma server_turn_log t s s' :
  server_turn capacity vapid t s = Some s' →
  ∃ es, log s' = log s ++ es ∧ Forall (recorded t s) es.
Proof.
  assert (∀ t s1, log s1 = log s → ∃ es, log s1 = log s ++ es ∧ Forall (recorded t s) es) as Hsame.
  { intros t0 s1 ->. exists []. by rewrite app_nil_r. }
  assert (∀ t n task a posted boxes es, Forall (recorded t s) es →
    ∃ es', log (put_session n task a posted boxes es s) = log s ++ es' ∧ Forall (recorded t s) es')
    as Hput by by eauto.
  destruct t as [n w| |n write_ok i|n k|i|n|n env received|n ch|n sent|n i|n| |resp|a]; simpl;
    intros Ht.
  - unfold accept_turn in Ht. repeat case_match; simplify_eq; by apply Hsame.
  - injection Ht as <-. by apply Hsame.
  - unfold connection_turn in Ht. repeat case_match; simplify_eq. eexists. split; [done|].
    apply connection_events_recorded.
  - unfold submit_turn in Ht. repeat case_match; simplify_eq. by apply Hsame.
  - unfold broker_turn in Ht. repeat case_match; simplify_eq; (eexists; split; [done|]);
      apply broker_events_recorded.
  - unfold upgrade_turn in Ht. case_match; simplify_eq. by apply Hput.
  - unfold greet_turn in Ht. destruct (sessions s !! n) as [[| | | | |]|]; try done.
    destruct (serve_first env received (service s)) as [[a acts] next] eqn:Ef.
    apply serve_first_spec in Ef as [Hrej Hgr].
    assert (Forall (recorded (TGreet n env received) s) (told_events n acts)) as Ht1.
    { apply Forall_forall. by intros h ->%(told_rejections _ _ _ Hrej). }
    destruct next as [[m au]|]; injection Ht as <-; apply Hput; [|done].
    destruct (Hgr m au eq_refl). apply Forall_app. split; [done|]. repeat constructor; by eauto.
  - unfold ask_turn in Ht. repeat case_match; simplify_eq; [apply post_session_some in Ht as ->|];
      apply Hput; by repeat constructor.
  - unfold connected_turn in Ht. repeat case_match; simplify_eq; apply Hput; [constructor; [done|]|];
      apply Forall_forall; by intros h (m & _ & ->)%elem_of_told.
  - unfold session_turn in Ht. repeat case_match; simplify_eq; [apply post_session_some in Ht as ->|];
      apply Hput, session_events_recorded.
  - unfold leave_turn in Ht. repeat case_match; simplify_eq; [|apply post_session_some in Ht as ->];
      by apply Hput.
  - injection Ht as <-. by apply Hsame.
  - case_match; simplify_eq. by apply Hsame.
  - injection Ht as <-. by apply Hsame.
Qed.

(** The turns that are not the broker's leave the broker and its answers alone. *)
Lemma server_turn_apart t s s' :
  server_turn capacity vapid t s = Some s' →
  (∃ i, t = TBroker i)
  ∨ ((∀ i, t ≠ TBroker i) ∧ broker s' = broker s ∧ replies (wires s') = replies (wires s)).
Proof.
  destruct t as [m w| |m write_ok i|m k|i|m|m env received|m ch|m sent|m i|m| |resp|a]; simpl;
    intros Ht; [..|by eauto| | | | | | | | |]; right; (split; [done|]).
  - unfold accept_turn in Ht. repeat case_match; by simplify_eq.
  - by injection Ht as <-.
  - unfold connection_turn in Ht. repeat case_match; by simplify_eq.
  - unfold submit_turn in Ht. repeat case_match; by simplify_eq.
  - unfold upgrade_turn in Ht. case_match; by simplify_eq.
  - unfold greet_turn in Ht. repeat case_match; by simplify_eq.
  - unfold ask_turn in Ht. repeat case_match; simplify_eq; [by apply post_session_some in Ht as ->|done].
  - unfold connected_turn in Ht. repeat case_match; by simplify_eq.
  - unfold session_turn in Ht. repeat case_match; simplify_eq; [by apply post_session_some in Ht as ->|done].
  - unfold leave_turn in Ht. repeat case_match; simplify_eq; [done|by apply post_session_some in Ht as ->].
  - by injection Ht as <-.
  - case_match; by simplify_eq.
  - by injection Ht as <-.
Qed.

(** The turns that change the table of connections. *)
Definition connects (t : ServerTurn) : bool :=
  match t with TAccept _ _ | TStopAccepting | TConnection _ _ _ => true | _ => false end.

Lemma server_turn_keeps_connections t s s' :
  server_turn capacity vapid t s = Some s' →
  connects t = true ∨ connects t = false ∧ connections (locals s') = connections (locals s).
Proof.
  destruct t as [m w| |m write_ok i|m k|i|m|m env received|m ch|m sent|m i|m| |resp|a]; simpl;
    intros Ht; try (by left); right; (split; [done|]).
  - unfold submit_turn in Ht. repeat case_match; by simplify_eq.
  - unfold broker_turn in Ht. repeat case_match; by simplify_eq.
  - unfold upgrade_turn in Ht. case_match; by simplify_eq.
  - unfold greet_turn in Ht. repeat case_match; by simplify_eq.
  - unfold ask_turn in Ht. repeat case_match; simplify_eq; [by apply post_session_some in Ht as ->|done].
  - unfold connected_turn in Ht. repeat case_match; by simplify_eq.
  - unfold session_turn in Ht. repeat case_match; simplify_eq; [by apply post_session_some in Ht as ->|done].
  - unfold leave_turn in Ht. repeat case_match; simplify_eq; [done|by apply post_session_some in Ht as ->].
  - by injection Ht as <-.
  - case_match; by simplify_eq.
  - by injection Ht as <-.
Qed.

(** Where an open connection comes from. *)
Lemma server_turn_connections t s s' n c' :
  server_turn capacity vapid t s = Some s' →
  connections (locals s') !! n = Some c' → Listener.open c' = true →
  (connections (locals s) !! n = Some c' ∧ ∀ write_ok i, t ≠ TConnection n write_ok i)
  ∨ (∃ w r, t = TAccept n w ∧ connections (locals s) !! n = None
      ∧ AcceptLoop.agent_task w = Some r ∧ c' = open_connection r)
  ∨ ∃ write_ok i c done, t = TConnection n write_ok i ∧ connections (locals s) !! n = Some c
      ∧ handle_connection_step write_ok i c = Some (c', done).
Proof.
  intros Ht Hc Ho. destruct (server_turn_keeps_connections _ _ _ Ht) as [Hk|[Hk E]].
  - destruct t as [m w| |m write_ok i| | | | | | | | | | |]; simpl in *; try done.
    + unfold accept_turn in Ht. repeat case_match; simplify_eq; [|by left]. simpl in Hc.
      apply lookup_insert_Some in Hc as [[-> <-]|[_ Hc]]; [right; left; by eauto 6|by left].
    + injection Ht as <-. simpl in Hc. by apply lookup_fmap_Some in Hc as (c0 & <- & _).
    + unfold connection_turn in Ht. repeat case_match; simplify_eq. simpl in Hc.
      apply lookup_insert_Some in Hc as [[-> <-]|[Hne Hc]]; [right; right; by eauto 8|].
      left. split; [done|]. intros ?? [=]. done.
  - left. rewrite E in Hc. split; [done|]. by intros ?? ->.
Qed.

(** A connection's number is not used again. *)
Lemma server_turn_absent t s s' n :
  server_turn capacity vapid t s = Some s' →
  connections (locals s') !! n = None → connections (locals s) !! n = None.
Proof.
  intros Ht Hc. destruct (server_turn_keeps_connections _ _ _ Ht) as [Hk|[_ E]]; [|by rewrite <- E].
  destruct t as [m w| |m write_ok i| | | | | | | | | | |]; simpl in *; try done.
  - unfold accept_turn in Ht. repeat case_match; simplify_eq; [|done]. simpl in Hc.
    by apply lookup_insert_None in Hc as [? _].
  - injection Ht as <-. simpl in Hc. rewrite lookup_fmap in Hc. by apply fmap_None in Hc.
  - unfold connection_turn in Ht. repeat case_match; simplify_eq. simpl in Hc.
    by apply lookup_insert_None in Hc as [? _].
Qed.

(** Runs are put together. *)
Lemma server_run_app turns1 turns2 s :
  server_run capacity vapid (turns1 ++ turns2) s
  = server_run capacity vapid turns1 s ≫= server_run capacity vapid turns2.
Proof.
  revert s. induction turns1 as [|t turns1 IH]; intros s; [done|]. simpl. case_decide; [|done].
  destruct (server_turn capacity vapid t s) as [s1|]; [|done]. apply IH.
Qed.

Lemma granted_authorized turns s s' k m au :
  log s = [] → server_run capacity vapid turns s = Some s' → Granted k m au ∈ log s' →
  authorized_in s turns k m au.
Proof.
  intros Hl. revert s'. induction turns as [|t turns IH] using rev_ind; intros s' Hrun Hin.
  { injection Hrun as <-. rewrite Hl in Hin. by apply not_elem_of_nil in Hin. }
  rewrite server_run_app in Hrun. apply bind_Some in Hrun as (s1 & H1 & H2). simpl in H2.
  case_decide; [|done]. apply bind_Some in H2 as (s2 & H2 & [= <-]).
  destruct (server_turn_log _ _ _ H2) as (es & E & Hes). rewrite E in Hin.
  apply elem_of_app in Hin as [Hin|Hin].
  - destruct (IH s1 H1 Hin) as (t1 & env & rc & t2 & s3 & a' & -> & ? & ? & ?).
    exists t1, env, rc, (t2 ++ [t]), s3, a'. by rewrite <- app_assoc.
  - pose proof (proj1 (Forall_forall _ _) Hes _ Hin) as Hg. destruct t as [| | | | | |n env rc| | | | | | |]; try done.
    destruct Hg as (-> & ? & a' & ?). by exists turns, env, rc, [], s1, a'.
Qed.

(** Where a successful answer comes from. *)
Lemma answer_origin s n t answer :
  server_ok s → Answered n t (Ok answer) ∈ log s →
  ∃ packet context k ch e authorization message id att req dl,
    let accepted := Accepted n t packet context in
    let granted := Granted k message authorization in
    let opened := Opened k ch e authorization in
    let dispatched := Dispatched ch (RemoteRequest id att req dl packet context) in
    let heard := Heard k e (AgentResponse id att answer) in
    let answered := Answered n t (Ok answer) in
    client_id e = authorized_client authorization
    ∧ before (log s) granted opened ∧ before (log s) opened heard
    ∧ before (log s) accepted dispatched
    ∧ before (log s) dispatched answered ∧ before (log s) heard answered.
Proof.
  intros Hok Hin. destruct (so_log _ Hok) as [Hj Ht Ha Hc].
  destruct (justified_before _ _ Hj Hin) as (l1 & (p & x & Hacc & k & ch & e & au & id & r & att &
    req & dl & Hop & Hadm & Et & Hd & Hh) & _ & Hs & Hb).
  destruct (justified_before _ _ Hj (Hs _ Hh)) as (l2 & (ch' & au' & Hop') & _ & Hs2 & Hb2).
  destruct (justified_before _ _ Hj (Hs2 _ Hop')) as (l3 & (Hc' & Hcl & m & Hgr) & _ & Hs3 & Hb3).
  destruct (justified_by_log _ _ Hj (Hs _ Hop)) as (Hc1 & _).
  assert (ch' = ch) as -> by (eapply Hc; eauto).
  destruct (justified_before _ _ Hj (Hs _ Hd)) as (l4 & (r' & Hr' & Ep & Ex) & Hj4 & Hs4 & Hb4).
  assert (Admission id r' = Admission id r) as [= ->]
    by (eapply (omap_NoDup_inj admitted_id (log s) _ _ id); eauto).
  destruct (justified_by_log _ _ Hj4 Hr') as (n' & Hacc'). rewrite Et in Hacc'.
  assert (Accepted n t p x = Accepted n' t (req_packet r) (req_context r)) as [= <- _ _]
    by (eapply (omap_NoDup_inj token_of (log s) _ _ t); eauto).
  exists p, x, k, ch, e, au', m, id, att, req, dl. simpl. rewrite Ep, Ex in Hacc'.
  split_and!; auto.
Qed.

(** ** Theorems *)

(** C1: End to end, a local client is answered successfully only with what an
    authorized remote client sent for that very request.  In every run of the
    server, however its tasks interleave, whatever sends and writes fail and
    whatever the remote clients send: if a local connection is written a
    successful answer for a packet it submitted, then before that the packet was
    dispatched, after it was accepted from that connection, unchanged and with
    the connection's context, to a session; that session had been opened for a
    client whose handshake the pairing service had authorized in the state it
    then had; and once open the session heard exactly this answer, for that
    request and attempt, from its client. *)
Theorem answers_come_from_the_paired_client cfg a turns s n t answer :
  server_run capacity vapid turns (server_start cfg a) = Some s →
  Answered n t (Ok answer) ∈ log s →
  ∃ packet context k ch e authorization message id att req dl,
    let accepted := Accepted n t packet context in
    let granted := Granted k message authorization in
    let opened := Opened k ch e authorization in
    let dispatched := Dispatched ch (RemoteRequest id att req dl packet context) in
    let heard := Heard k e (AgentResponse id att answer) in
    let answered := Answered n t (Ok answer) in
    authorized_in (server_start cfg a) turns k message authorization
    ∧ client_id e = authorized_client authorization
    ∧ before (log s) granted opened ∧ before (log s) opened heard
    ∧ before (log s) accepted dispatched
    ∧ before (log s) dispatched answered ∧ before (log s) heard answered.
Proof.
  intros Hrun Hin. pose proof (server_run_ok _ _ _ (server_start_ok cfg a) Hrun) as Hok.
  destruct (answer_origin _ _ _ _ Hok Hin)
    as (p & x & k & ch & e & au & m & id & att & req & dl & Hcl & Hgr & Hrest).
  exists p, x, k, ch, e, au, m, id, att, req, dl. split; [|by split].
  eapply granted_authorized; [|done|by eapply before_in]. done.
Qed.

(** C2: End to end, whatever is sent on a remote client's socket, before or after
    it has a session, is a rejection or was sent after the pairing service, in the
    state it then had, authorized the first message of that socket and the
    session was opened for the authorized client; and what a client is asked to
    sign is what a local client asked for: every request it is sent carries,
    unchanged, the packet and the context of a request submitted by a local
    connection before. *)
Theorem requests_come_from_local_clients cfg a turns s k message :
  server_run capacity vapid turns (server_start cfg a) = Some s →
  Told k message ∈ log s →
  (message = Rejected
   ∨ ∃ ch e authorization first,
     authorized_in (server_start cfg a) turns k first authorization
     ∧ client_id e = authorized_client authorization
     ∧ before (log s) (Granted k first authorization) (Opened k ch e authorization)
     ∧ before (log s) (Opened k ch e authorization) (Told k message))
  ∧ ∀ id att req dl packet context,
      message = AgentRequest id att req dl packet context →
      ∃ n t, before (log s) (Accepted n t packet context) (Told k message).
Proof.
  intros Hrun Hin. pose proof (server_run_ok _ _ _ (server_start_ok cfg a) Hrun) as Hok.
  pose proof (lo_justified _ (so_log _ Hok)) as Hj.
  destruct (justified_before _ _ Hj Hin) as (l1 & [->|(ch & e & au & Hop & Hreq)] & Hj1 & Hs & Hb);
    [by split; [left|]|].
  destruct (justified_before _ _ Hj (Hs _ Hop)) as (l2 & (_ & Hcl & m & Hgr) & _ & Hs2 & Hb2).
  split.
  - right. exists ch, e, au, m. split_and!; auto. eapply granted_authorized; [|done|by auto]. done.
  - intros id att req dl packet context E.
    destruct (justified_by_log _ _ Hj1 (Hreq _ _ _ _ _ _ E)) as (r & Hadm & <- & <-).
    destruct (justified_by_log _ _ Hj1 Hadm) as (n & Hacc). exists n, (req_response r). auto.
Qed.
End props.

(** ** A concrete run *)

Definition sample_server_config : BrokerConfig :=
  {| request_timeout := 30; config_max_pending_requests := 8 |}.
Definition signature : bytes := byte_string "signature".
Definition sample_dispatch : RemoteCommand := RemoteRequest 1 1 1000000 1000000 sign_request None.

(** A local client sends a signing request; a phone pairs, is given the request
    and answers it; the answer is written to the local client. *)
Definition sample_server_turns : list (ServerTurn (A := sample_authority)) :=
  [TAccept 0 (quiet_watch None);
   TConnection 0 true (Frame (quiet_watch None) sign_request 7);
   TSubmit 0 0;
   TBroker (InLocal 1 60 2 1000000000000 (request_of sign_request None 7));
   TUpgrade 0;
   TGreet (A := sample_authority) 0 sample_env (Some (Binary pair_frame));
   TAsk 0 50;
   TBroker (InCommand (CmdConnect 4 50 50) 100 3);
   TConnected 0 true;
   TSession 0 (FromBroker (A := sample_authority) (Some sample_dispatch) true);
   TSession 0 (FromClient (A := sample_authority) sample_env
     (Some (Binary (Byte.x03 :: signature))) true);
   TBroker (InCommand (CmdResponse 100 1 1 signature) 101 4);
   TConnection 0 true (ResponseDone (Ok signature))].
Definition sample_server_start : Server (A := sample_authority) :=
  server_start sample_server_config (sample_service : Authority (PairingAuthority := sample_authority)).
Definition sample_server_run : option (Server (A := sample_authority)) :=
  server_run (A := sample_authority) (C := sample_remote) (L := sample_codecs) (U := hex_uuid_text)
    4 [] sample_server_turns sample_server_start.
Definition sample_server : Server (A := sample_authority) :=
  default sample_server_start sample_server_run.

Lemma sample_server_runs : sample_server_run = Some sample_server.
Proof.
  assert (match sample_server_run with Some _ => true | None => false end = true) as H
    by by vm_compute.
  unfold sample_server. by destruct sample_server_run.
Qed.

Lemma sample_answered_logged : Answered 0 7 (Ok signature) ∈ log sample_server.
Proof. apply (list_elem_of_lookup_2 _ 11). by vm_compute. Qed.
Lemma sample_told_logged :
  Told 0 (AgentRequest 1 1 1000000 1000000 sign_request None) ∈ log sample_server.
Proof. apply (list_elem_of_lookup_2 _ 9). by vm_compute. Qed.

Lemma answers_come_from_the_paired_client_witness :
  ∃ k e id att, before (log sample_server) (Heard k e (AgentResponse id att signature))
                  (Answered 0 7 (Ok signature)).
Proof.
  destruct (answers_come_from_the_paired_client (A := sample_authority) (C := sample_remote)
    (L := sample_codecs) (U := hex_uuid_text) 4 [] sample_server_config
    (sample_service : Authority (PairingAuthority := sample_authority))
    sample_server_turns sample_server 0 7 signature sample_server_runs sample_answered_logged)
    as (packet & context & k & ch & e & au & m & id & att & req & dl & _ & _ & _ & _ & _ & _ & Hh).
  by exists k, e, id, att.
Defined.

Lemma requests_come_from_local_clients_witness :
  let told := Told 0 (AgentRequest 1 1 1000000 1000000 sign_request None) in
  (∃ ch e authorization, before (log sample_server) (Opened 0 ch e authorization) told)
  ∧ ∃ n t, before (log sample_server) (Accepted n t sign_request None) told.
Proof.
  destruct (requests_come_from_local_clients (A := sample_authority) (C := sample_remote)
    (L := sample_codecs) (U := hex_uuid_text) 4 [] sample_server_config
    (sample_service : Authority (PairingAuthority := sample_authority))
    sample_server_turns sample_server 0 _ sample_server_runs sample_told_logged)
    as [[?|(ch & e & authorization & _ & _ & _ & _ & Hb)] Hr]; [discriminate|].
  split; [by exists ch, e, authorization|exact (Hr 1%N 1%N 1000000%N 1000000%N sign_request None eq_refl)].
Defined.

(** A socket whose first message is no handshake is told [Rejected], and that is
    recorded. *)
Example refused_socket_told :
  log <$> server_run (A := sample_authority) (C := sample_remote) (L := sample_codecs)
    (U := hex_uuid_text) 4 []
    [TUpgrade 0; TGreet (A := sample_authority) 0 sample_env (Some (Binary (Byte.x03 :: signature)))]
    sample_server_start
  = Some [Told 0 Rejected].
Proof. by vm_compute. Qed.
