(* ===== verification/ServerLiveness.v ===== *)
(** * ServerLiveness: nobody waits forever

    The channels of [Server] stay within their capacities, and no request is
    lost on its way: a request sent to the broker is in the channel, waits in
    the broker's actor or has been answered.  From there, the server's own turns
    (no remote client needed, only time) answer every outstanding request of
    every open connection. *)

From S2P Require Import Prelude Bytes Utf8 Packet ContextCodec RequestRouter PacketProps ContextCodecProps Listener Assoc BrokerModel BrokerSpec BrokerRefinement BrokerProps BrokerEffects BrokerTask BrokerHandle BrokerTaskProps BrokerTaskSync BrokerTracking BrokerProgress BrokerTime Pairing PairingProps Protocol Session SessionProps Server ServerProps.

Section liveness.
Context `{A : PairingAuthority} `{C : RemoteCodecs} `{L : SshAgentLib} `{U : UuidText}.
Context (capacity : N) (vapid : bytes).

(** ** The invariant *)

(** Where a request that was sent to the broker is: answered, in the channel,
    or with the actor. *)
Definition located (s : Server) (t : Handle) : Prop :=
  is_Some (replies (wires s) !! t)
  ∨ t ∈ req_response <$> local_requests (wires s)
  ∨ t ∈ outstanding (actor (broker s)).

(** The bounded channels and the pipelines are within their bounds. *)
Definition within_bounds (s : Server) : Prop :=
  length (local_requests (wires s)) ≤ BROKER_REQUEST_CHANNEL_CAPACITY
  ∧ length (mailbox (wires s)) ≤ COMMAND_CHANNEL_CAPACITY
  ∧ ∀ n c, connections (locals s) !! n = Some c → length (responses c) ≤ MAX_PIPELINED_REQUESTS.

Record live (s : Server) : Prop := {
  lv_bounds : within_bounds s;
  lv_located : broker_runs s = true → ∀ t, t ∈ submitted (locals s) → located s t;
  lv_open : local_requests_open (broker s) = false → accepting (locals s) = false;
  lv_closed : accepting (locals s) = false →
    ∀ n c, connections (locals s) !! n = Some c → Listener.open c = false;
  lv_coherent : broker_runs s = true → (∀ h, Refused h ∉ log s) →
    coherent ∅ [] (actor (broker s));
}.

(** A turn that leaves alone what local requests depend on. *)
Lemma live_frame s s' :
  locals s' = locals s → broker s' = broker s → replies (wires s') = replies (wires s) →
  local_requests (wires s') = local_requests (wires s) → log s ⊆ log s' →
  length (mailbox (wires s')) ≤ COMMAND_CHANNEL_CAPACITY → live s → live s'.
Proof.
  intros El Eb Er Eq Hs Hm [(H1 & H2 & H3) Hloc Ho Hc Hco].
  split; unfold within_bounds, located, broker_runs in *; rewrite ?El, ?Eb, ?Er, ?Eq; try done.
  intros Hr Hf. apply Hco; [done|]. intros h Hh. by apply (Hf h), Hs.
Qed.

(** ** Turns of the sessions *)

Lemma put_session_live n task a posted boxes events s :
  mailbox_takes (broker_runs s) (mailbox (wires s)) posted = true → live s →
  live (put_session n task a posted boxes events s).
Proof.
  intros Ht Hl. pose proof (lv_bounds _ Hl) as (_ & Hm & _).
  eapply live_frame; [..|exact Hl]; try done; [simpl; set_solver|]. simpl. rewrite length_app.
  unfold mailbox_takes in Ht. destruct (broker_runs s); simpl in *; [|lia].
  by apply bool_decide_eq_true in Ht.
Qed.

Lemma put_session_live_nil n task a boxes events s :
  live s → live (put_session n task a [] boxes events s).
Proof.
  intros Hl. apply put_session_live; [|done]. pose proof (lv_bounds _ Hl) as (_ & Hm & _).
  unfold mailbox_takes. destruct (broker_runs s); [|done]. simpl. apply bool_decide_eq_true. lia.
Qed.

Lemma post_session_live n task a posted boxes events s s' :
  post_session n task a posted boxes events s = Some s' → live s → live s'.
Proof.
  unfold post_session. destruct (mailbox_takes _ _ _) eqn:E; [|done]. intros [= <-].
  by apply put_session_live.
Qed.

(** ** Turns of the local connections *)

Lemma connection_turn_live n write_ok i s s' :
  connection_turn n write_ok i s = Some s' → live s → live s'.
Proof.
  unfold connection_turn. destruct (connections (locals s) !! n) as [c|] eqn:Ec; [|done].
  destruct (listener_possible s c i); [|done].
  destruct (handle_connection_step write_ok i c) as [[c' d]|] eqn:Est; [|done].
  intros [= <-] [(H1 & H2 & H3) Hloc Ho Hc Hco].
  assert (Listener.open c = true) as Hopen
    by (unfold handle_connection_step in Est; by destruct (Listener.open c)).
  split; simpl; try done.
  - split_and!; [done|done|]. intros m c1 Hm. simpl in Hm.
    apply lookup_insert_Some in Hm as [[<- <-]|[_ Hm]]; [|by eauto].
    apply (step_in_order _ _ _ _ _ Est). by eauto.
  - intros Hac. by rewrite (Hc Hac n c Ec) in Hopen.
  - intros Hr Hf. apply Hco; [done|]. set_solver.
Qed.

Lemma accept_turn_live n w s s' : accept_turn n w s = Some s' → live s → live s'.
Proof.
  unfold accept_turn. destruct (accepting (locals s)) eqn:Ea; [|done]. simpl.
  destruct (connections (locals s) !! n); [done|]. destruct (AcceptLoop.agent_task w); [|by intros [= <-]].
  intros [= <-] [(H1 & H2 & H3) Hloc Ho Hc Hco]. split; simpl; try done.
  - split_and!; [done|done|]. intros m c1 Hm. simpl in Hm.
    apply lookup_insert_Some in Hm as [[<- <-]|[_ Hm]]; [simpl; lia|by eauto].
  - by rewrite Ea.
Qed.

Lemma stop_accepting_live s s' : stop_accepting s = Some s' → live s → live s'.
Proof.
  intros [= <-] [(H1 & H2 & H3) Hloc Ho Hc Hco]. split; simpl; try done.
  - split_and!; [done|done|]. intros m c1 Hm. simpl in Hm.
    apply lookup_fmap_Some in Hm as (c & <- & Hm). simpl. by eauto.
  - by intros _ m c1 (c & <- & Hm)%lookup_fmap_Some.
Qed.

Lemma submit_turn_live n k s s' : submit_turn n k s = Some s' → live s → live s'.
Proof.
  unfold submit_turn. destruct (connections (locals s) !! n) as [c|] eqn:Ec; [|done].
  destruct (responses c !! k) as [[|packet context t]|]; [done| |done].
  destruct (_ && bool_decide (length _ < _)) eqn:Eg; [|done]. apply andb_true_iff in Eg as [_ Hroom].
  apply bool_decide_eq_true in Hroom. intros [= <-] [(H1 & H2 & H3) Hloc Ho Hc Hco].
  split; simpl; try done.
  - split_and!; [|done|done]. simpl. rewrite length_app. simpl. lia.
  - intros Hr t' [->%elem_of_singleton|Ht]%elem_of_union; unfold located; simpl; rewrite fmap_app.
    + right; left. apply elem_of_app. right. apply list_elem_of_here.
    + destruct (Hloc Hr t' Ht) as [?|[?|?]]; [by left|right; left|by right; right].
      apply elem_of_app. by left.
Qed.

(** ** The broker's turn *)

Lemma perform_replies acts w t :
  is_Some (replies w !! t) ∨ t ∈ responded acts → is_Some (replies (foldl perform w acts) !! t).
Proof.
  revert w. induction acts as [|x acts IH]; intros w; [intros [?|?%not_elem_of_nil]; done|].
  simpl. intros Ht. apply IH. unfold responded in *. simpl in Ht.
  destruct x as [h outcome| | | | |]; simpl in *; try done.
  destruct (decide (h = t)) as [->|Hne]; [left; by rewrite lookup_insert_eq|].
  rewrite lookup_insert_ne by done. destruct Ht as [?|[?|?]%elem_of_cons]; auto. congruence.
Qed.

Lemma perform_queues acts w :
  local_requests (foldl perform w acts) = local_requests w
  ∧ mailbox (foldl perform w acts) = mailbox w.
Proof.
  revert w. induction acts as [|x acts IH]; intros w; [done|]. simpl.
  destruct (IH (perform w x)) as [-> ->]. by destruct x.
Qed.

(** What an input takes from the channels. *)
Lemma broker_input_takes i s w :
  broker_input i s = Some w →
  req_response <$> local_requests (wires s) = arrives i ++ (req_response <$> local_requests w)
  ∧ replies w = replies (wires s) ∧ length (mailbox w) ≤ length (mailbox (wires s))
  ∧ (i = InLocalClosed → accepting (locals s) = false).
Proof.
  unfold broker_input. intros Hi. destruct i; repeat case_match; simplify_eq/=; try (by split_and!).
  - match goal with H : negb _ && _ = true |- _ => apply andb_true_iff in H as [Ha%negb_true_iff _] end.
    by split_and!.
  - split_and!; [done|done|lia|done].
Qed.

Lemma refused_recorded i acts l :
  (∀ h, Refused h ∉ l ++ broker_events i acts) → no_refusal acts.
Proof.
  intros Hf. apply Forall_forall. intros x Hx. destruct x as [| | | |h [|e]|]; try done.
  destruct (Hf h). apply elem_of_app. right. apply elem_of_broker_events. by eauto 8.
Qed.

Lemma step_located s i l' acts w t :
  fresh_input i (broker s) → broker_input i s = Some w →
  run_broker_step (delivers s) i (broker s) = Some (l', acts) → located s t →
  is_Some (replies (foldl perform w acts) !! t) ∨ t ∈ req_response <$> local_requests w
  ∨ t ∈ outstanding (actor l').
Proof.
  intros Hfr (Eq & Er & _)%broker_input_takes Hst Hloc.
  destruct (run_broker_step_conserves _ _ _ _ _ Hfr Hst) as [Hp _].
  assert (t ∈ arrives i ∨ t ∈ outstanding (actor (broker s)) →
          is_Some (replies (foldl perform w acts) !! t) ∨ t ∈ outstanding (actor l')) as Hmoves.
  { intros Ht. assert (t ∈ responded acts ++ outstanding (actor l')) as Hin
      by (rewrite Hp; by apply elem_of_app).
    apply elem_of_app in Hin as [?|?]; [left; apply perform_replies; by right|by right]. }
  destruct Hloc as [Ht|[Ht|Ht]].
  - left. apply perform_replies. left. by rewrite Er.
  - rewrite Eq in Ht. apply elem_of_app in Ht as [?|?]; [|by auto]. tauto.
  - tauto.
Qed.

Lemma broker_turn_live i s s' :
  fresh_turn (TBroker i) s → broker_turn i s = Some s' → live s → live s'.
Proof.
  intros Hfr Ht Hl. unfold broker_turn in Ht.
  destruct (broker_input i s) as [w|] eqn:Hi; [|done].
  destruct (run_broker_step (delivers s) i (broker s)) as [[l' acts]|] eqn:Hst; [|done].
  injection Ht as <-. destruct Hl as [(H1 & H2 & H3) Hloc Ho Hc Hco].
  assert (fresh_input i (broker s)) as Hfi by (clear Hi Hst; destruct i; try done; by destruct Hfr).
  assert (running (broker s) = true) as Hrun
    by (unfold run_broker_step in Hst; by destruct (running (broker s))).
  pose proof (broker_input_takes _ _ _ Hi) as (Eq & Er & Em & Hcl).
  destruct (perform_queues acts w) as [Eq' Em'].
  split; simpl; try done.
  - apply (f_equal length) in Eq. rewrite length_app, !length_fmap in Eq.
    destruct (running l'); split_and!; simpl; rewrite ?Eq', ?Em'; try done; lia.
  - intros Hrl t Ht. unfold broker_runs in Hrl. simpl in Hrl. unfold located. simpl. rewrite Hrl, Eq'.
    eapply step_located; [done..|]. by apply Hloc.
  - intros Hop. destruct (step_open _ _ _ _ _ Hst Hop) as [?|?]; auto.
  - intros Hrl Hf. destruct (step_coherent _ ∅ _ _ _ _ Hfi (Hco Hrun ltac:(set_solver)) Hst Hrl)
      as (O' & HO' & _ & Hno). by rewrite Hno in HO' by by eapply refused_recorded.
Qed.

Lemma server_turn_live t s s' :
  fresh_turn t s → server_turn capacity vapid t s = Some s' → live s → live s'.
Proof.
  intros Hfr Ht Hl.
  destruct t as [n w| |n write_ok i|n k|i|n|n env received|n ch|n sent|n i|n| |resp|a]; simpl in Ht.
  - by eapply accept_turn_live.
  - by eapply stop_accepting_live.
  - by eapply connection_turn_live.
  - by eapply submit_turn_live.
  - by eapply broker_turn_live.
  - unfold upgrade_turn in Ht. repeat case_match; simplify_eq. by apply put_session_live_nil.
  - unfold greet_turn in Ht. repeat case_match; simplify_eq; by apply put_session_live_nil.
  - unfold ask_turn in Ht. repeat case_match; simplify_eq;
      [by eapply post_session_live|by apply put_session_live_nil].
  - unfold connected_turn in Ht. repeat case_match; simplify_eq; by apply put_session_live_nil.
  - unfold session_turn in Ht. repeat case_match; simplify_eq;
      [by eapply post_session_live|by apply put_session_live_nil].
  - unfold leave_turn in Ht. repeat case_match; simplify_eq;
      [by apply put_session_live_nil|by eapply post_session_live].
  - injection Ht as <-. by eapply live_frame; [..|exact Hl]; try done; apply Hl.
  - destruct (mailbox_takes _ _ _) eqn:Em; [|done]. injection Ht as <-.
    pose proof (lv_bounds _ Hl) as (_ & Hm & _).
    eapply live_frame; [..|exact Hl]; try done. simpl. rewrite length_app.
    unfold mailbox_takes in Em. destruct (broker_runs s); simpl in *; [|lia].
    by apply bool_decide_eq_true in Em.
  - injection Ht as <-. by eapply live_frame; [..|exact Hl]; try done; apply Hl.
Qed.

Lemma server_start_live cfg a : live (server_start cfg a).
Proof.
  split; simpl; try done.
  - split_and!; simpl; try lia. by intros n c ?%lookup_empty_Some.
  - intros _ _. apply coherent_init.
Qed.

Lemma server_run_live turns s s' :
  live s → server_run capacity vapid turns s = Some s' → live s'.
Proof.
  revert s. induction turns as [|t turns IH]; intros s Hl; simpl; [by intros [= <-]|].
  case_decide as Hfr; [|done]. intros (s1 & H1 & H2)%bind_Some. eapply IH; [|done].
  by eapply server_turn_live.
Qed.

(** ** Progress *)

(** The turns the server takes by itself: writing a finished response to a
    client that reads it, sending a request to the broker, admitting it, firing
    the timer. *)
Definition internal_turn (t : ServerTurn) : bool :=
  match t with
  | TConnection _ true (ResponseDone _) | TSubmit _ _ => true
  | TBroker i => own_input i
  | _ => false
  end.

(** The monotonic clock: what the turns read from it never goes back, from [u] to
    at most [u']. *)
Definition turn_time (t : ServerTurn) : option Instant :=
  match t with TBroker i => input_time i | _ => None end.
Fixpoint clock_runs (u : Instant) (turns : list ServerTurn) (u' : Instant) : Prop :=
  match turns with
  | [] => (u ≤ u')%N
  | t :: turns =>
      match turn_time t with
      | Some now => (u ≤ now)%N ∧ clock_runs now turns u'
      | None => clock_runs u turns u'
      end
  end.

Lemma clock_runs_later u1 u2 turns u3 :
  (u1 ≤ u2)%N → clock_runs u2 turns u3 → clock_runs u1 turns u3.
Proof.
  revert u1 u2. induction turns as [|t turns IH]; intros u1 u2 Hu; simpl; [lia|].
  destruct (turn_time t); [intros [? ?]; split; [lia|done]|by apply IH].
Qed.
Lemma clock_runs_app u1 turns1 u2 turns2 u3 :
  clock_runs u1 turns1 u2 → clock_runs u2 turns2 u3 → clock_runs u1 (turns1 ++ turns2) u3.
Proof.
  revert u1. induction turns1 as [|t turns IH]; intros u1; simpl; [apply clock_runs_later|].
  destruct (turn_time t); [intros [? ?] ?; split; [done|by apply IH]|apply IH].
Qed.

(** From [s] at time [u], the server gets to [s'] at time [u'] by itself. *)
Definition reaches (u : Instant) (s : Server) (u' : Instant) (s' : Server) : Prop :=
  ∃ turns, Forall (λ t, internal_turn t = true) turns
           ∧ server_run capacity vapid turns s = Some s' ∧ clock_runs u turns u'.

Lemma reaches_refl u s : reaches u s u s.
Proof. exists []. split_and!; [constructor|done|simpl; lia]. Qed.

Lemma reaches_trans u1 s1 u2 s2 u3 s3 :
  reaches u1 s1 u2 s2 → reaches u2 s2 u3 s3 → reaches u1 s1 u3 s3.
Proof.
  intros (t1 & F1 & H1 & C1) (t2 & F2 & H2 & C2). exists (t1 ++ t2).
  split_and!; [by apply Forall_app|by rewrite server_run_app, H1|by eapply clock_runs_app].
Qed.

Lemma reaches_turn u t s u' s' :
  internal_turn t = true → fresh_turn t s → server_turn capacity vapid t s = Some s' →
  (u ≤ u')%N → (∀ now, turn_time t = Some now → now = u') → reaches u s u' s'.
Proof.
  intros Hi Hf Ht Hu Hn. exists [t]. split_and!; [by repeat constructor| |].
  - simpl. by rewrite decide_True, Ht by done.
  - simpl. destruct (turn_time t) as [now|]; [|done]. rewrite (Hn now eq_refl). split; [done|lia].
Qed.

Lemma reaches_live u s u' s' : live s → reaches u s u' s' → live s'.
Proof. intros Hl (turns & _ & Hr & _). by eapply server_run_live. Qed.

(** The sequence numbers the requests in the channel will have used up. *)
Definition work (s : Server) : N :=
  next_sequence (BrokerTask.state (actor (broker s))) + len (local_requests (wires s)).

(** Internal turns that leave the connections as they are.  A broker that is
    over stays so. *)
Record progress (extra : N) (u : Instant) (s : Server) (u' : Instant) (s' : Server) : Prop := {
  pr_reaches : reaches u s u' s';
  pr_connections : connections (locals s') = connections (locals s);
  pr_submitted : submitted (locals s) ⊆ submitted (locals s');
  pr_runs : broker_runs s = false → broker_runs s' = false;
  pr_open : local_requests_open (broker s') = local_requests_open (broker s);
  pr_refused : ∀ h, Refused h ∈ log s' → Refused h ∈ log s;
  pr_log : log s ⊆ log s';
  pr_work : (work s' ≤ work s + extra)%N;
}.

Lemma progress_refl u s : progress 0 u s u s.
Proof. split; auto using reaches_refl; lia. Qed.

Lemma progress_trans k1 k2 u1 s1 u2 s2 u3 s3 :
  progress k1 u1 s1 u2 s2 → progress k2 u2 s2 u3 s3 → progress (k1 + k2) u1 s1 u3 s3.
Proof.
  intros [] []. split; [by eapply reaches_trans|congruence|by etrans|auto|congruence|auto|by etrans|lia].
Qed.

Lemma own_turn u now i s w :
  own_input i = true → input_time i = Some now → (u ≤ now)%N → enabled i (broker s) → broker_input i s = Some w →
  fresh_turn (TBroker i) s →
  ∃ s' acts, progress 0 u s now s'
    ∧ local_requests (wires s') = (if broker_runs s' then local_requests w else [])
    ∧ run_broker_step (delivers s) i (broker s) = Some (broker s', acts)
    ∧ ∀ t, t ∈ responded acts → is_Some (replies (wires s') !! t).
Proof.
  intros Ho Hn Hu He Hi Hf. destruct (proj2 (run_broker_step_total (delivers s) i (broker s)) He)
    as [[l' acts] Hst]. pose proof (own_step _ _ _ _ _ Ho Hst) as (Hr & Hop & Hsq & Hno).
  pose proof (broker_input_takes _ _ _ Hi) as (Eq & _). destruct (perform_queues acts w) as [Eq' _].
  apply (f_equal length) in Eq. rewrite length_app, !length_fmap in Eq.
  pose (s' := record (broker_events i acts)
    {| locals := locals s; broker := l'; wires :=
         if running l' then foldl perform w acts
         else set_local_requests [] (set_mailbox [] (foldl perform w acts));
       sessions := sessions s; service := service s; stopping := stopping s; log := log s |}).
  assert (server_turn capacity vapid (TBroker i) s = Some s') as Ht
    by (simpl; unfold broker_turn; by rewrite Hi, Hst).
  exists s', acts. split_and!; [split; [apply (reaches_turn u (TBroker i)); try done;
    simpl; rewrite Hn; congruence|..]|..]; simpl; try done.
  - unfold broker_runs. destruct He as [-> _]. done.
  - intros h [Hin|Hin]%elem_of_app; [done|].
    apply elem_of_broker_events in Hin as [Hin|[Hin|[Hin|[Hin|Hin]]]]; [|naive_solver..].
    apply elem_of_admission in Hin. naive_solver.
  - set_solver.
  - unfold work, len in *. simpl. destruct (running l'); simpl; [rewrite Eq'|]; lia.
  - unfold broker_runs. simpl. by destruct (running l').
  - intros t Ht'. pose proof (perform_replies acts w t (or_intror Ht')). by destruct (running l').
Qed.

(** The requests in the channel are admitted, or the broker is over. *)
Lemma drain u s :
  broker_runs s = true → local_requests_open (broker s) = true → (work s < 2 ^ 64)%N →
  ∃ s', progress 0 u s u s' ∧ local_requests (wires s') = [].
Proof.
  remember (length (local_requests (wires s))) as k eqn:Ek. revert s Ek.
  induction k as [|k IH]; intros s Ek Hr Ho Hw.
  { exists s. split; [apply progress_refl|]. by apply length_zero_iff_nil. }
  destruct (local_requests (wires s)) as [|r rest] eqn:Eq; [done|].
  set (used := dom (waiters (actor (broker s))) ∪ list_to_set (omap admitted_id (log s)) : gset N).
  pose proof (is_fresh used) as Hid. set (id := fresh used) in *.
  destruct (own_turn u u (InLocal id 0 u 0 r) s (set_local_requests rest (wires s)))
    as (s1 & acts & Hp & Eq1 & _ & _); [done|done|lia|done| |..].
  - unfold broker_input. rewrite Eq. by rewrite decide_True.
  - unfold used in Hid. rewrite elem_of_union, elem_of_list_to_set in Hid. split; [|tauto].
    split; [apply not_elem_of_dom; tauto|]. unfold work in Hw. rewrite Eq in Hw. unfold len in Hw.
    simpl in Hw. lia.
  - destruct (broker_runs s1) eqn:Hr1; [|by exists s1]. simpl in Eq1.
    destruct (IH s1) as (s2 & Hp2 & E2).
    + rewrite Eq1. by injection Ek.
    + done.
    + by rewrite (pr_open _ _ _ _ _ Hp).
    + pose proof (pr_work _ _ _ _ _ Hp). lia.
    + exists s2. split; [|done]. by eapply (progress_trans 0 0 u s u s1).
Qed.

(** A request with the actor is answered, at the latest by its deadline. *)
Lemma admitted_answered u s t :
  live s → (∀ h, Refused h ∉ log s) → broker_runs s = true → local_requests (wires s) = [] →
  t ∈ submitted (locals s) →
  ∃ u' s', progress 0 u s u' s' ∧ is_Some (replies (wires s') !! t).
Proof.
  intros Hl Hf Hr Hq Ht. destruct (lv_located _ Hl Hr t Ht) as [Ha|[Ha|Ha]].
  - exists u, s. auto using progress_refl.
  - rewrite Hq in Ha. by apply not_elem_of_nil in Ha.
  - apply list_elem_of_fmap in Ha as ([id w] & -> & Hid). apply elem_of_map_to_list in Hid.
    destruct (waiter_times_out _ id w u Hr (lv_coherent _ Hl Hr Hf) Hid) as (now & Hu & He & Hresp).
    destruct (own_turn u now (InDeadline now) s (wires s)) as (s' & acts & Hp & _ & Hst & Hrep); [done..|].
    exists now, s'. split; [done|]. apply Hrep. apply Hresp in Hst. apply list_elem_of_omap. by eexists.
Qed.

Lemma unrefused_progress k u s u' s' :
  progress k u s u' s' → (∀ h, Refused h ∉ log s) → ∀ h, Refused h ∉ log s'.
Proof. intros Hp Hf h ?%(pr_refused _ _ _ _ _ Hp). by apply (Hf h). Qed.

(** A request that was sent to the broker gets its reply, or the broker is over. *)
Lemma submitted_answered u s t :
  live s → (∀ h, Refused h ∉ log s) → broker_runs s = true →
  local_requests_open (broker s) = true → (work s < 2 ^ 64)%N → t ∈ submitted (locals s) →
  ∃ u' s', progress 0 u s u' s' ∧ (broker_runs s' = false ∨ is_Some (replies (wires s') !! t)).
Proof.
  intros Hl Hf Hr Ho Hw Ht. destruct (drain u s) as (s1 & P1 & Q1); [done..|].
  destruct (broker_runs s1) eqn:Hr1; [|exists u, s1; by auto].
  destruct (admitted_answered u s1 t) as (u2 & s2 & P2 & Ha).
  - by eapply reaches_live, P1.
  - by eapply unrefused_progress.
  - done.
  - done.
  - by apply (pr_submitted _ _ _ _ _ P1).
  - exists u2, s2. split; [|by right]. by apply (progress_trans 0 0 u s u s1).
Qed.

Lemma submit_head u s n c packet context t rest :
  connections (locals s) !! n = Some c → Listener.open c = true →
  responses c = Submit packet context t :: rest → broker_runs s = true →
  local_requests_open (broker s) = true → local_requests (wires s) = [] →
  t ∉ submitted (locals s) →
  ∃ s', progress 1 u s u s' ∧ t ∈ submitted (locals s').
Proof.
  intros Hc Ho Hresp Hr Hop Hq Ht.
  assert (is_Some (submit_turn n 0 s)) as [s' E].
  { unfold submit_turn. rewrite Hc, Hresp. simpl.
    rewrite Ho, Hr, Hop, bool_decide_false, Hq by done. by eexists. }
  exists s'. assert (reaches u s u s') as Hreach by by apply (reaches_turn u (TSubmit n 0)).
  unfold submit_turn in E. rewrite Hc, Hresp in E. simpl in E. case_match; [|done].
  injection E as <-. split; [split; try done|]; simpl; [set_solver| |set_solver].
  unfold work, len. simpl. rewrite Hq. simpl. lia.
Qed.

(** The first outstanding request of an open connection gets its reply. *)
Lemma head_replied u s n c packet context t rest :
  live s → (∀ h, Refused h ∉ log s) → connections (locals s) !! n = Some c →
  Listener.open c = true → responses c = Submit packet context t :: rest →
  (work s + 1 < 2 ^ 64)%N →
  ∃ u' s', progress 1 u s u' s' ∧ (broker_runs s' = false ∨ is_Some (replies (wires s') !! t)).
Proof.
  intros Hl Hf Hc Ho Hresp Hw.
  assert (∀ u' s', progress 0 u s u' s' → progress 1 u s u' s') as Hweak
    by (intros u' s' []; split; auto; lia).
  destruct (broker_runs s) eqn:Hr; [|exists u, s; auto using progress_refl].
  assert (local_requests_open (broker s) = true) as Hop.
  { destruct (local_requests_open (broker s)) eqn:E; [done|].
    by rewrite (lv_closed _ Hl (lv_open _ Hl E) n c Hc) in Ho. }
  destruct (decide (t ∈ submitted (locals s))) as [Hs|Hs].
  { destruct (submitted_answered u s t) as (u1 & s1 & P1 & Ha); [done..|lia|done|]. by eauto. }
  destruct (drain u s) as (s1 & P1 & Q1); [done|done|lia|].
  destruct (broker_runs s1) eqn:Hr1; [|exists u, s1; by auto].
  destruct (decide (t ∈ submitted (locals s1))) as [Hs1|Hs1].
  { destruct (submitted_answered u s1 t) as (u2 & s2 & P2 & Ha); [by eapply reaches_live, P1
      |by eapply unrefused_progress|done|by rewrite (pr_open _ _ _ _ _ P1)
      |pose proof (pr_work _ _ _ _ _ P1); lia|done|].
    exists u2, s2. split; [apply Hweak; by apply (progress_trans 0 0 u s u s1)|done]. }
  destruct (submit_head u s1 n c packet context t rest) as (s2 & P2 & T2);
    [by rewrite (pr_connections _ _ _ _ _ P1)|done|done|done|by rewrite (pr_open _ _ _ _ _ P1)|done|done|].
  pose proof (progress_trans 0 1 u s u s1 u s2 P1 P2) as P12.
  destruct (broker_runs s2) eqn:Hr2; [|exists u, s2; by auto].
  destruct (submitted_answered u s2 t) as (u3 & s3 & P3 & Ha); [by eapply reaches_live, P12
    |by eapply unrefused_progress|done|by rewrite (pr_open _ _ _ _ _ P12)
    |pose proof (pr_work _ _ _ _ _ P12); lia|done|].
  exists u3, s3. split; [by apply (progress_trans 1 0 u s u s2)|done].
Qed.

(** ** Answers are written *)

(** The outcome with which the first outstanding response completes. *)
Lemma head_outcome s c r rest :
  responses c = r :: rest →
  (∀ packet context t, r = Submit packet context t →
     broker_runs s = false ∨ is_Some (replies (wires s) !! t)) →
  ∃ outcome, listener_possible s c (ResponseDone outcome) = true ∧ completes_with r outcome = true.
Proof.
  intros Hr Hd. simpl. unfold reply_possible. rewrite Hr. destruct r as [b|packet context t].
  - exists (Ok b). split; [done|]. simpl. by apply bool_decide_eq_true.
  - destruct (replies (wires s) !! t) as [o|] eqn:E.
    + exists o. split; [by apply bool_decide_eq_true|done].
    + destruct (Hd _ _ _ eq_refl) as [Hb|[? Hs]]; [|by rewrite E in Hs].
      rewrite Hb. simpl. eexists. split; [by apply bool_decide_eq_true|done].
Qed.

Lemma head_written u s n c r rest outcome :
  connections (locals s) !! n = Some c → Listener.open c = true → responses c = r :: rest →
  listener_possible s c (ResponseDone outcome) = true → completes_with r outcome = true →
  ∃ s' c', reaches u s u s' ∧ connections (locals s') !! n = Some c' ∧ Listener.open c' = true
    ∧ responses c' = rest ∧ work s' = work s
    ∧ log s' = log s ++ match r with Submit _ _ t => [Answered n t outcome] | _ => [] end.
Proof.
  intros Hc Ho Hr Hp Hd.
  assert (handle_connection_step true (ResponseDone outcome) c
          = Some (with_responses (router c) rest, wrote (response_bytes outcome))) as Hst.
  { unfold handle_connection_step. by rewrite Ho, Hr, Hd. }
  assert (is_Some (connection_turn n true (ResponseDone outcome) s)) as [s' E].
  { unfold connection_turn. rewrite Hc, Hp, Hst. by eexists. }
  exists s', (with_responses (router c) rest).
  split; [by apply (reaches_turn u (TConnection n true (ResponseDone outcome)))|].
  unfold connection_turn in E. rewrite Hc, Hp, Hst in E. injection E as <-. simpl.
  split_and!; [by rewrite lookup_insert_eq|done|done|done|].
  unfold answered_events. rewrite Hr. by destruct r.
Qed.

Lemma head_answered u s n c r rest :
  live s → (∀ h, Refused h ∉ log s) → connections (locals s) !! n = Some c →
  Listener.open c = true → responses c = r :: rest → (work s + 1 < 2 ^ 64)%N →
  ∃ u' s' c', reaches u s u' s' ∧ connections (locals s') !! n = Some c' ∧ Listener.open c' = true
    ∧ responses c' = rest ∧ (work s' ≤ work s + 1)%N ∧ log s ⊆ log s'
    ∧ (∀ h, Refused h ∉ log s') ∧ ∀ t, t ∈ tokens_of [r] → ∃ outcome, Answered n t outcome ∈ log s'.
Proof.
  intros Hl Hf Hc Ho Hr Hw.
  assert (∃ u1 s1, progress 1 u s u1 s1 ∧ ∀ packet context t, r = Submit packet context t →
            broker_runs s1 = false ∨ is_Some (replies (wires s1) !! t)) as (u1 & s1 & P1 & Hd).
  { destruct r as [b|packet context t].
    - exists u, s. split; [|done]. pose proof (progress_refl u s) as []. split; auto; lia.
    - destruct (head_replied u s n c packet context t rest) as (u1 & s1 & P1 & Hd); [done..|].
      exists u1, s1. split; [done|]. by intros ??? [= -> -> ->]. }
  destruct (head_outcome s1 c r rest Hr Hd) as (outcome & Hp & Hcw).
  destruct (head_written u1 s1 n c r rest outcome) as (s2 & c2 & R2 & Hc2 & Ho2 & Hr2 & W2 & E2);
    [by rewrite (pr_connections _ _ _ _ _ P1)|done..|].
  exists u1, s2, c2. rewrite W2, E2. split_and!; try done.
  - by eapply reaches_trans; [apply P1|].
  - apply P1.
  - etrans; [apply (pr_log _ _ _ _ _ P1)|set_solver].
  - intros h [Hh|Hh]%elem_of_app; [by eapply unrefused_progress in Hh|].
    destruct r; set_solver.
  - intros t Ht. destruct r as [b|packet context t']; [by apply not_elem_of_nil in Ht|].
    apply list_elem_of_singleton in Ht as ->. exists outcome. set_solver.
Qed.

Lemma all_answered u s n c :
  live s → (∀ h, Refused h ∉ log s) → connections (locals s) !! n = Some c →
  Listener.open c = true → (work s + len (responses c) < 2 ^ 64)%N →
  ∃ u' s' c', reaches u s u' s' ∧ connections (locals s') !! n = Some c' ∧ Listener.open c' = true
    ∧ responses c' = [] ∧ log s ⊆ log s'
    ∧ ∀ t, t ∈ tokens_of (responses c) → ∃ outcome, Answered n t outcome ∈ log s'.
Proof.
  remember (responses c) as l eqn:El. revert u s c El.
  induction l as [|r l IH]; intros u s c El Hl Hf Hc Ho Hw.
  { exists u, s, c. split_and!; auto using reaches_refl. by intros t ?%not_elem_of_nil. }
  unfold len in Hw. simpl in Hw.
  destruct (head_answered u s n c r l) as (u1 & s1 & c1 & R1 & Hc1 & Ho1 & Hr1 & W1 & L1 & F1 & A1);
    [done..|lia|].
  destruct (IH u1 s1 c1) as (u2 & s2 & c2 & R2 & Hc2 & Ho2 & Hr2 & L2 & A2);
    [done|by eapply reaches_live|done..|unfold len; lia|].
  exists u2, s2, c2. split_and!; try done; [by eapply reaches_trans|by etrans|].
  intros t Ht. change (r :: l) with ([r] ++ l) in Ht. unfold tokens_of in Ht.
  rewrite omap_app in Ht. apply elem_of_app in Ht as [Ht|Ht]; [|by apply A2].
  destruct (A1 t Ht) as [outcome Hin]. exists outcome. by apply L2.
Qed.

(** ** Theorems *)

(** The channels never outgrow their capacities: along every run at most one
    request waits between the connections and the broker, at most 128 commands
    are in the broker's mailbox, and no connection has more than eight
    outstanding responses. *)
Theorem channels_bounded cfg a turns s :
  server_run capacity vapid turns (server_start cfg a) = Some s → within_bounds s.
Proof. intros H%server_run_live; [by apply lv_bounds|apply server_start_live]. Qed.

(** C4: Nobody waits forever.  From every state the server can reach, provided
    the broker never had to refuse a second remote session and its 64-bit
    sequence counter has ten numbers left, the server can answer every
    outstanding request of any open connection by itself: whatever the time, there
    is a finite sequence of its own turns (sending requests to the broker,
    admitting them, firing the timer, writing responses to a client that reads
    them; no remote client takes part), with a monotonic clock that only advances
    from that time, after which the connection is open, nothing is outstanding on
    it, and every request it had outstanding has been answered. *)
Theorem every_request_is_answered cfg a turns s n c time :
  server_run capacity vapid turns (server_start cfg a) = Some s →
  (∀ h, Refused h ∉ log s) →
  connections (locals s) !! n = Some c → Listener.open c = true →
  (next_sequence (BrokerTask.state (actor (broker s))) + 10 < 2 ^ 64)%N →
  ∃ turns' s' c',
    Forall (λ t, internal_turn t = true) turns'
    ∧ (∃ time', clock_runs time turns' time')
    ∧ server_run capacity vapid turns' s = Some s'
    ∧ connections (locals s') !! n = Some c' ∧ Listener.open c' = true ∧ responses c' = []
    ∧ ∀ t, t ∈ tokens_of (responses c) → ∃ outcome, Answered n t outcome ∈ log s'.
Proof.
  intros Hrun Hf Hc Ho Hn. apply server_run_live in Hrun as Hl; [|apply server_start_live].
  destruct (all_answered time s n c)
    as (time' & s' & c' & (turns' & Hi & Hr & Hcl) & Hc' & Ho' & Hr' & _ & Ha);
    [done..| |exists turns', s', c'; split_and!; eauto].
  pose proof (lv_bounds _ Hl) as (Hq & _ & Hp). specialize (Hp n c Hc).
  unfold work, len, MAX_PIPELINED_REQUESTS, BROKER_REQUEST_CHANNEL_CAPACITY in *. lia.
Qed.
End liveness.

(** ** A concrete state *)

(** A local client waits, its request with the broker, and no remote client is
    there. *)
Definition waiting_server_run : option (Server (A := sample_authority)) :=
  server_run (A := sample_authority) (C := sample_remote) (L := sample_codecs) (U := hex_uuid_text)
    4 [] (take 4 sample_server_turns) sample_server_start.
Definition waiting_server : Server (A := sample_authority) :=
  default sample_server_start waiting_server_run.

Definition unrefusedb (h : Happened) : bool := match h with Refused _ => false | _ => true end.
Lemma unrefusedb_ok l : forallb unrefusedb l = true → ∀ h, Refused h ∉ l.
Proof.
  induction l as [|x l IH]; simpl; intros Hl h; [apply not_elem_of_nil|].
  apply andb_true_iff in Hl as [Hx Hl]. intros [<-|Hh]%elem_of_cons; [done|by apply (IH Hl h)].
Qed.

Lemma waiting_server_runs : waiting_server_run = Some waiting_server.
Proof.
  assert (match waiting_server_run with Some _ => true | None => false end = true) as H
    by by vm_compute.
  unfold waiting_server. by destruct waiting_server_run.
Qed.

Lemma every_request_is_answered_witness :
  ∃ turns' s', Forall (λ t, internal_turn t = true) turns'
    ∧ server_run (A := sample_authority) (C := sample_remote) (L := sample_codecs)
        (U := hex_uuid_text) 4 [] turns' waiting_server = Some s'
    ∧ ∃ outcome, Answered 0 7 outcome ∈ log s'.
Proof.
  assert (match connections (locals waiting_server) !! 0 with
          | Some c => Listener.open c && bool_decide (tokens_of (responses c) = [7%N])
          | None => false end = true) as Hc by by vm_compute.
  destruct (connections (locals waiting_server) !! 0) as [c|] eqn:Ec; [|done].
  apply andb_true_iff in Hc as [Ho Ht%bool_decide_eq_true].
  destruct (every_request_is_answered (A := sample_authority) (C := sample_remote)
    (L := sample_codecs) (U := hex_uuid_text) 4 [] sample_server_config
    (sample_service : Authority (PairingAuthority := sample_authority))
    (take 4 sample_server_turns) waiting_server 0 c 3%N waiting_server_runs)
    as (turns' & s' & c' & Hi & _ & Hr & _ & _ & _ & Ha).
  - apply unrefusedb_ok. by vm_compute.
  - exact Ec.
  - exact Ho.
  - by vm_compute.
  - exists turns', s'. split_and!; [exact Hi|exact Hr|]. apply Ha. rewrite Ht. apply list_elem_of_here.
Defined.
