(* ===== verification/ServerTime.v ===== *)
(** * ServerTime: no request outlives its deadline

    Every request the broker has admitted is answered, or still waits with the
    deadline it got when it was admitted; and the first iteration of the broker
    that reads a clock at or after that deadline answers it. *)

From S2P Require Import Prelude Bytes Utf8 Packet ContextCodec RequestRouter RequestRouterProps PacketProps ContextCodecProps Listener Assoc BrokerModel BrokerSpec BrokerRefinement BrokerProps BrokerEffects BrokerTask BrokerHandle BrokerTaskProps BrokerTaskSync BrokerTracking BrokerProgress BrokerTime Pairing PairingProps Protocol Session SessionProps Server ServerProps ServerLiveness.

Section time.
Context `{A : PairingAuthority} `{C : RemoteCodecs} `{L : SshAgentLib} `{U : UuidText}.
Context (capacity : N) (vapid : bytes).

(** ** The invariant *)

(** The request [r], admitted as [id] at [t0]: it is answered, or its caller
    waits and its deadline is the configured timeout after [t0]. *)
Definition on_time (cfg : BrokerConfig) (s : Server) (id : RequestId) (t0 : Instant)
    (r : PacketRequest) : Prop :=
  is_Some (replies (wires s) !! req_response r)
  ∨ (broker_runs s = true
     ∧ (∃ w, waiters (actor (broker s)) !! id = Some w ∧ response w = req_response r)
     ∧ ∀ p, pending (BrokerTask.state (actor (broker s))) !! id = Some p →
            deadline p = (t0 + request_timeout cfg)%N).

Record timely (cfg : BrokerConfig) (turns : list ServerTurn) (s : Server) : Prop := {
  ti_config : config (actor (broker s)) = cfg;
  ti_logged : ∀ id ab t0 sys r, TBroker (InLocal id ab t0 sys r) ∈ turns → Admission id r ∈ log s;
  ti_on_time : ∀ id ab t0 sys r, TBroker (InLocal id ab t0 sys r) ∈ turns → on_time cfg s id t0 r;
}.

Lemma timely_apart cfg turns t s s' :
  timely cfg turns s → (∀ i, t ≠ TBroker i) → broker s' = broker s →
  replies (wires s') = replies (wires s) → log s ⊆ log s' → timely cfg (turns ++ [t]) s'.
Proof.
  intros [Hc Hl Ho] Hne Eb Er Hs.
  assert (∀ i, TBroker i ∈ turns ++ [t] → TBroker i ∈ turns) as Hin.
  { intros i [?|E%list_elem_of_singleton]%elem_of_app; [done|]. by destruct (Hne i). }
  split; unfold on_time, broker_runs in *; rewrite ?Eb, ?Er; [done|..].
  - intros id ab t0 sys r Ht%Hin. by eapply Hs, Hl.
  - intros id ab t0 sys r Ht%Hin. by eapply Ho.
Qed.

(** What a request is told in an iteration reaches its reply channel. *)
Lemma responded_replies acts w (l : BrokerLoop) t :
  is_Some (replies w !! t) ∨ t ∈ responded acts →
  is_Some (replies (if BrokerTask.running l then foldl perform w acts
                    else set_local_requests [] (set_mailbox [] (foldl perform w acts))) !! t).
Proof. intros Ht%perform_replies. by destruct (BrokerTask.running l). Qed.

Section broker.
Variables (cfg : BrokerConfig) (turns : list ServerTurn) (s s' : Server) (i : Input)
  (w : Wires) (l' : BrokerLoop) (acts : list Action).
Hypotheses (Hok : server_ok s) (Hti : timely cfg turns s) (Hfr : fresh_turn (TBroker i) s)
  (Hi : broker_input i s = Some w)
  (Hst : run_broker_step (delivers s) i (broker s) = Some (l', acts))
  (Hb' : broker s' = l') (Hlog : log s' = log s ++ broker_events i acts)
  (Hr' : ∀ t, is_Some (replies (wires s) !! t) ∨ t ∈ responded acts →
              is_Some (replies (wires s') !! t)).

Lemma turn_fresh : fresh_input i (broker s).
Proof. clear Hi Hst. destruct i; try done. by destruct Hfr. Qed.

Lemma turn_coherent : ∃ O, coherent O [] (actor (broker s)).
Proof. apply (bo_coherent _ _ (so_broker _ Hok)). by eapply step_running. Qed.

(** A request admitted before. *)
Lemma turn_keeps id ab t0 sys r :
  TBroker (InLocal id ab t0 sys r) ∈ turns →
  on_time cfg s' id t0 r ∧ ∀ ab' t' sys' r', i ≠ InLocal id ab' t' sys' r'.
Proof.
  intros Ht. assert (∀ ab' t' sys' r', i ≠ InLocal id ab' t' sys' r') as Hne.
  { intros ab' t' sys' r' Ei. pose proof (ti_logged _ _ _ Hti _ _ _ _ _ Ht) as Ha.
    clear Hi Hst. subst i. destruct Hfr as [_ []]. apply list_elem_of_omap. by eexists. }
  split; [|done]. unfold on_time. rewrite Hb'.
  destruct (ti_on_time _ _ _ Hti _ _ _ _ _ Ht) as [?|(_ & (wt & Hw & E) & Hd)]; [left; auto|].
  destruct (step_serves _ _ _ _ _ _ _ turn_fresh Hst Hw) as [Hw'|Hin]; [|left; rewrite <- E; auto].
  destruct (BrokerTask.running l') eqn:Hrun; [right|].
  - split_and!; [unfold broker_runs; by rewrite Hb'|by exists wt|]. intros p Hp.
    destruct turn_coherent as [O HO].
    destruct (proj2 (step_due _ _ _ _ _ _ turn_fresh HO Hst) id p Hp)
      as [(? & ? & ? & ? & -> & _)|[_ (q & Hq & <-)]]; [by destruct (Hne _ _ _ _ eq_refl)|auto].
  - by rewrite (stopped_empty _ _ _ _ _ Hst Hrun), lookup_empty in Hw'.
Qed.

Lemma turn_timely : timely cfg (turns ++ [TBroker i]) s'.
Proof.
  assert (∀ id ab t0 sys r, TBroker (InLocal id ab t0 sys r) ∈ turns ++ [TBroker i] →
    TBroker (InLocal id ab t0 sys r) ∈ turns ∨ i = InLocal id ab t0 sys r) as Hin
    by (clear; intros ????? [?|[= ->]%list_elem_of_singleton]%elem_of_app; auto).
  destruct turn_coherent as [O HO]. pose proof (step_due _ _ _ _ _ _ turn_fresh HO Hst) as [Hcfg Hdue].
  split.
  - rewrite Hb', Hcfg. apply Hti.
  - intros id ab t0 sys r [Ht|Ei]%Hin; rewrite Hlog; apply elem_of_app.
    + left. by eapply Hti.
    + right. apply elem_of_broker_events. left. rewrite Ei. apply list_elem_of_here.
  - intros id ab t0 sys r [Ht|Ei]%Hin; [by eapply turn_keeps|]. unfold on_time. rewrite Hb'.
    rewrite Ei in Hst. destruct (admission_serves _ _ _ _ _ _ _ _ _ Hst) as [Hw'|?]; [|left; auto].
    destruct (BrokerTask.running l') eqn:Hrun; [right|].
    + split_and!; [unfold broker_runs; by rewrite Hb'|by eexists|]. intros p Hp.
      destruct (Hdue id p Hp) as [(ab' & t' & sys' & r' & Ei' & ->)|[_ (q & Hq & _)]].
      * rewrite Ei in Ei'. simplify_eq. by rewrite (ti_config _ _ _ Hti).
      * pose proof turn_fresh as Hf. rewrite Ei in Hf. destruct Hf as [Hnone _].
        pose proof (co_waits _ _ _ HO id) as Hc. unfold waits, holds in Hc.
        rewrite Hq, Hnone, decide_False in Hc by (by intros [? ?]).
        rewrite decide_True in Hc by done. lia.
    + by rewrite (stopped_empty _ _ _ _ _ Hst Hrun), lookup_empty in Hw'.
Qed.
End broker.

(** The parts of a turn of the broker. *)
Lemma broker_turn_parts i s s' :
  broker_turn i s = Some s' →
  ∃ w l' acts, broker_input i s = Some w
    ∧ run_broker_step (delivers s) i (broker s) = Some (l', acts)
    ∧ broker s' = l' ∧ log s' = log s ++ broker_events i acts
    ∧ ∀ t, is_Some (replies (wires s) !! t) ∨ t ∈ responded acts →
           is_Some (replies (wires s') !! t).
Proof.
  unfold broker_turn. destruct (broker_input i s) as [w|] eqn:Hi; [|done].
  destruct (run_broker_step (delivers s) i (broker s)) as [[l' acts]|]; [|done]. intros [= <-].
  exists w, l', acts. split_and!; [done..|]. intros t. simpl.
  apply broker_input_takes in Hi as (_ & <- & _). apply responded_replies.
Qed.

Lemma server_turn_timely cfg turns t s s' :
  server_ok s → timely cfg turns s → fresh_turn t s →
  server_turn capacity vapid t s = Some s' → timely cfg (turns ++ [t]) s'.
Proof.
  intros Hok Hti Hfr Ht. destruct (server_turn_apart _ _ _ _ _ Ht) as [[i ->]|(Hne & Eb & Er)].
  - apply broker_turn_parts in Ht as (w & l' & acts & Hi & Hst & Hb & Hl & Hr).
    by eapply turn_timely.
  - apply (timely_apart _ _ _ s); try done.
    destruct (server_turn_log _ _ _ _ _ Ht) as (es & -> & _). set_solver.
Qed.

Lemma server_run_timely cfg a turns s :
  server_run capacity vapid turns (server_start cfg a) = Some s → timely cfg turns s.
Proof.
  revert s. induction turns as [|t turns IH] using rev_ind; intros s Hrun.
  { injection Hrun as <-. split; [done|by intros ????? ?%not_elem_of_nil..]. }
  rewrite server_run_app in Hrun. apply bind_Some in Hrun as (s1 & H1 & H2). simpl in H2.
  case_decide as Hfr; [|done]. apply bind_Some in H2 as (s2 & H2 & [= <-]).
  eapply server_turn_timely; [|by apply IH|done..].
  by eapply server_run_ok; [apply server_start_ok|].
Qed.

(** ** Theorem *)

(** C5: no request outlives its deadline.  In every run of the server, however its
    tasks interleave and whatever the clocks show: once the broker takes an input
    at a time at or after a request's deadline, which is the configured timeout
    after its admission, the request has been answered, unless the broker had to
    refuse a second remote session. *)
Theorem requests_answered_by_deadline cfg a turns1 id ab t0 sys r turns2 i now s :
  server_run capacity vapid (turns1 ++ TBroker (InLocal id ab t0 sys r) :: turns2 ++ [TBroker i])
    (server_start cfg a) = Some s →
  input_time i = Some now → (∀ h, Refused h ∉ log s) → (t0 + request_timeout cfg ≤ now)%N →
  is_Some (replies (wires s) !! req_response r).
Proof.
  intros Hrun Ht Hno Hnow. rewrite app_comm_cons, app_assoc in Hrun.
  set (turns := turns1 ++ _ :: turns2) in Hrun.
  assert (TBroker (InLocal id ab t0 sys r) ∈ turns) as Hin by (unfold turns; set_solver).
  pose proof (server_run_live _ _ _ _ _ (server_start_live cfg a) Hrun) as Hlive.
  rewrite server_run_app in Hrun. apply bind_Some in Hrun as (s1 & H1 & H2). simpl in H2.
  case_decide as Hfr; [|done]. apply bind_Some in H2 as (s2 & H2 & [= ->]).
  pose proof (server_run_ok _ _ _ _ _ (server_start_ok cfg a) H1) as Hok.
  pose proof (server_run_timely _ _ _ _ H1) as Hti.
  apply broker_turn_parts in H2 as (w & l' & acts & Hi & Hst & Hb & Hl & Hr).
  destruct (ti_on_time _ _ _ Hti _ _ _ _ _ Hin) as [Hrep|(_ & _ & Hd)]; [by auto|].
  destruct (turn_keeps cfg turns s1 s i w l' acts Hok Hti Hfr Hi Hst Hb Hl Hr _ _ _ _ _ Hin)
    as [[?|(Hrun & (wt & Hw & _) & _)] Hne]; [done|]. exfalso.
  destruct (turn_coherent s1 i l' acts Hok Hst) as [O HO].
  rewrite Hb in Hw. unfold broker_runs in Hrun. rewrite Hb in Hrun.
  destruct (waits_before_deadline (delivers s1) O i _ l' acts now id wt (turn_fresh s1 s i acts Hfr Hl) HO Hst)
    as (p & Hp & Hlt); [|done..|].
  { rewrite <- Hb. apply (lv_coherent _ Hlive); [|done]. unfold broker_runs. by rewrite Hb. }
  rewrite (Hd p Hp) in Hlt. lia.
Qed.
End time.

(** ** A concrete run *)

(** The request admitted at 2 is pending when the timer fires at 32. *)
Definition late_server_turns : list (ServerTurn (A := sample_authority)) :=
  take 3 sample_server_turns
  ++ TBroker (InLocal 1 60 2 1000000000000 (request_of sign_request None 7))
     :: [] ++ [TBroker (InDeadline 32)].
Definition late_server_run : option (Server (A := sample_authority)) :=
  server_run (A := sample_authority) (C := sample_remote) (L := sample_codecs) (U := hex_uuid_text)
    4 [] late_server_turns sample_server_start.
Definition late_server : Server (A := sample_authority) :=
  default sample_server_start late_server_run.

Lemma late_server_runs : late_server_run = Some late_server.
Proof.
  assert (match late_server_run with Some _ => true | None => false end = true) as H
    by by vm_compute.
  unfold late_server. by destruct late_server_run.
Qed.

Lemma requests_answered_by_deadline_witness :
  waiters (actor (broker waiting_server)) !! 1%N ≠ None
  ∧ is_Some (replies (wires late_server) !! 7%N).
Proof.
  split; [by vm_compute|].
  apply (requests_answered_by_deadline (A := sample_authority) (C := sample_remote)
    (L := sample_codecs) (U := hex_uuid_text) 4 [] sample_server_config
    (sample_service : Authority (PairingAuthority := sample_authority))
    (take 3 sample_server_turns) 1 60 2 1000000000000 (request_of sign_request None 7)
    [] (InDeadline 32) 32 late_server late_server_runs).
  - done.
  - apply unrefusedb_ok. by vm_compute.
  - by vm_compute.
Defined.
