(* ===== verification/ServerSpec.v ===== *)
(** * ServerSpec: the server refines a desk with a queue per client

    What the local clients see of the server, stated without its tasks: a desk
    keeps the requests of each connection in a queue.  A request is taken with a
    token that was never used, while fewer than [MAX_PIPELINED_REQUESTS] wait;
    only the oldest request of a connection is answered, and answering it removes
    it.  The log of every run of the server is a run of the desk, whose queues
    are what the open connections wait for. *)

From S2P Require Import Prelude Bytes Utf8 Packet ContextCodec RequestRouter PacketProps ContextCodecProps Listener Assoc BrokerModel BrokerTask BrokerHandle BrokerTaskProps Pairing PairingProps Protocol Session SessionProps Server ServerProps.

(** ** The desk *)

Record Ticket := {
  ticket_token : Handle;
  ticket_packet : bytes;
  ticket_context : option RequestContext;
}.

Record Desk := {
  queues : nat → list Ticket;
  used : list Handle;
}.
Definition empty_desk : Desk := {| queues := λ _, []; used := [] |}.

Definition set_queue (n : nat) (q : list Ticket) (qs : nat → list Ticket) : nat → list Ticket :=
  λ m, if decide (m = n) then q else qs m.

(** What the desk does at an event; [None] if it may not happen. *)
Definition desk_step (d : Desk) (h : Happened) : option Desk :=
  match h with
  | Server.Accepted n t packet context =>
      let ticket := {| ticket_token := t; ticket_packet := packet; ticket_context := context |} in
      if decide (t ∉ used d ∧ length (queues d n) < MAX_PIPELINED_REQUESTS) then
        Some {| queues := set_queue n (queues d n ++ [ticket]) (queues d); used := used d ++ [t] |}
      else None
  | Answered n t _ =>
      match queues d n with
      | ticket :: rest =>
          if decide (ticket_token ticket = t) then
            Some {| queues := set_queue n rest (queues d); used := used d |}
          else None
      | [] => None
      end
  | _ => Some d
  end.
Fixpoint desk_run (d : Desk) (l : list Happened) : option Desk :=
  match l with
  | [] => Some d
  | h :: l => desk_step d h ≫= λ d, desk_run d l
  end.

Lemma desk_run_app d l1 l2 : desk_run d (l1 ++ l2) = desk_run d l1 ≫= λ d, desk_run d l2.
Proof.
  revert d. induction l1 as [|h l1 IH]; intros d; [done|]. simpl.
  destruct (desk_step d h) as [d1|]; [apply IH|done].
Qed.

Lemma set_queue_eq n q qs : set_queue n q qs n = q.
Proof. unfold set_queue. by rewrite decide_True. Qed.
Lemma set_queue_ne n m q qs : m ≠ n → set_queue n q qs m = qs m.
Proof. intros. unfold set_queue. by rewrite decide_False. Qed.

(** ** What a desk guarantees *)

(** The tokens of what connection [n] asked and was answered, in order. *)
Definition asked_on (n : nat) (h : Happened) : option Handle :=
  match h with
  | Server.Accepted m t _ _ => if decide (m = n) then Some t else None
  | _ => None
  end.
Definition answered_on (n : nat) (h : Happened) : option Handle :=
  match h with
  | Answered m t _ => if decide (m = n) then Some t else None
  | _ => None
  end.

Lemma desk_step_fifo d h d' n :
  desk_step d h = Some d' →
  option_list (answered_on n h) ++ (ticket_token <$> queues d' n)
  = (ticket_token <$> queues d n) ++ option_list (asked_on n h).
Proof.
  intros Hst. destruct h as [m t p x|m t o| | | | | | | | | |]; simplify_eq/=;
    try (by rewrite app_nil_r).
  - case_decide; simplify_eq/=. destruct (decide (m = n)) as [->|Hne].
    + by rewrite set_queue_eq, fmap_app.
    + by rewrite set_queue_ne, app_nil_r.
  - destruct (queues d m) as [|ticket rest] eqn:Eq; [done|]. case_decide; simplify_eq/=.
    rewrite app_nil_r. destruct (decide (m = n)) as [->|Hne].
    + by rewrite set_queue_eq, Eq.
    + by rewrite set_queue_ne.
Qed.

(** Every connection is answered in the order in which it asked. *)
Lemma desk_fifo n l d d' :
  desk_run d l = Some d' →
  omap (answered_on n) l ++ (ticket_token <$> queues d' n)
  = (ticket_token <$> queues d n) ++ omap (asked_on n) l.
Proof.
  revert d. induction l as [|h l IH]; intros d; [intros [= <-]; by rewrite app_nil_r|].
  intros (d1 & H1 & H2)%bind_Some. specialize (IH _ H2).
  pose proof (desk_step_fifo _ _ _ n H1) as E.
  assert (∀ (f : Happened → option Handle), omap f (h :: l) = option_list (f h) ++ omap f l) as Eo
    by (intros f; simpl; by destruct (f h)).
  rewrite !Eo, <- app_assoc, IH, !app_assoc. by rewrite E.
Qed.

Lemma desk_used l d d' : desk_run d l = Some d' → used d' = used d ++ omap token_of l.
Proof.
  revert d. induction l as [|h l IH]; intros d; [intros [= <-]; by rewrite app_nil_r|].
  simpl. intros (d1 & H1 & ->%IH)%bind_Some.
  destruct h; simpl in *; repeat case_match; simplify_eq/=; by rewrite <- ?app_assoc.
Qed.

(** Events of other parts of the server. *)
Definition at_desk (h : Happened) : bool :=
  match h with Server.Accepted _ _ _ _ | Answered _ _ _ => true | _ => false end.

Lemma desk_silent d l : Forall (λ h, at_desk h = false) l → desk_run d l = Some d.
Proof. induction 1 as [|h l Hh _ IH]; [done|]. simpl. by destruct h. Qed.

(** ** Refinement *)

Section refinement.
Context `{A : PairingAuthority} `{C : RemoteCodecs} `{L : SshAgentLib} `{U : UuidText}.
Context (capacity : N) (vapid : bytes).

(** What the responses a connection waits for are at the desk. *)
Definition tickets_of (l : list RoutedResponse) : list Ticket :=
  omap (λ r, match r with
             | Submit packet context t =>
                 Some {| ticket_token := t; ticket_packet := packet; ticket_context := context |}
             | Ready_response _ => None
             end) l.

Lemma tickets_of_app l1 l2 : tickets_of (l1 ++ l2) = tickets_of l1 ++ tickets_of l2.
Proof. apply omap_app. Qed.
Lemma tickets_of_length l : length (tickets_of l) ≤ length l.
Proof. induction l as [|[] l IH]; simpl in *; lia. Qed.

(** An iteration of a connection, at the desk. *)
Lemma connection_step_desk n write_ok i c c' d D :
  handle_connection_step write_ok i c = Some (c', d) →
  (∀ w p t, i = Frame w p t → t ∉ used D) → queues D n = tickets_of (responses c) →
  ∃ D', desk_run D (accepted_events n d ++ answered_events n c i d) = Some D'
    ∧ (Listener.open c' = true → queues D' n = tickets_of (responses c'))
    ∧ ∀ m, m ≠ n → queues D' m = queues D m.
Proof.
  intros Hst Hfr Hq. unfold handle_connection_step, refuse in Hst.
  destruct (Listener.open c); [|done]. simpl in Hst.
  destruct i as [| |w p tok|outcome].
  - simplify_eq/=. by exists D.
  - repeat case_match; simplify_eq/=; by exists D.
  - case_decide as Hlen; [simplify_eq/=; by exists D|].
    destruct (route w p tok (router c)) as [r [response|e]] eqn:Hr;
      [|repeat case_match; simplify_eq/=; by exists D]. simplify_eq/=. rewrite tickets_of_app.
    destruct response as [b|packet context t]; simpl.
    + exists D. by rewrite app_nil_r.
    + apply route_token in Hr as ->. pose proof (tickets_of_length (responses c)) as Hlt.
      rewrite decide_True by (rewrite Hq; split; [by eapply Hfr|lia]).
      eexists. split_and!; [done|simpl; by rewrite set_queue_eq, Hq|intros m; by apply set_queue_ne].
  - unfold answered_events. destruct (responses c) as [|response rest]; [done|].
    destruct (completes_with response outcome); [|done].
    destruct write_ok; simplify_eq/=; [|exists D; by repeat case_match].
    destruct response as [b|packet context t]; simpl; [by exists D|].
    rewrite Hq. simpl. rewrite decide_True by done.
    eexists. split_and!; [done|simpl; by rewrite set_queue_eq|intros m; by apply set_queue_ne].
Qed.

Record desk_ok (s : Server) (d : Desk) : Prop := {
  do_run : desk_run empty_desk (log s) = Some d;
  do_open : ∀ n c, connections (locals s) !! n = Some c → Listener.open c = true →
    queues d n = tickets_of (responses c);
  do_absent : ∀ n, connections (locals s) !! n = None → queues d n = [];
}.

(** A turn of another task. *)
Lemma silent_turn_desk t s s' d :
  (∀ n write_ok i, t ≠ TConnection n write_ok i) → server_turn capacity vapid t s = Some s' →
  desk_ok s d → desk_ok s' d.
Proof.
  intros Hne Ht [Hr Ho Ha]. split.
  - destruct (server_turn_log _ _ _ _ _ Ht) as (es & -> & Hes). rewrite desk_run_app, Hr. simpl.
    apply desk_silent. eapply Forall_impl; [exact Hes|]. intros h Hh.
    by destruct t, h; try (by destruct (Hne _ _ _ eq_refl)).
  - intros n c Hc Hop. destruct (server_turn_connections _ _ _ _ _ _ _ Ht Hc Hop)
      as [[Hold _]|[(w & r & -> & Hn & _ & ->)|(wo & i & ? & ? & -> & _)]]; [by apply Ho|by apply Ha|].
    by destruct (Hne _ _ _ eq_refl).
  - intros n Hn. by eapply Ha, server_turn_absent.
Qed.

Lemma server_turn_desk t s s' d :
  fresh_turn t s → server_turn capacity vapid t s = Some s' → desk_ok s d → ∃ d', desk_ok s' d'.
Proof.
  intros Hfr Ht Hd. assert ((∃ n wo i, t = TConnection n wo i) ∨ ∀ n wo i, t ≠ TConnection n wo i)
    as [(n & wo & i & ->)|Hne] by (destruct t; (by right) || (left; by eauto));
    [|exists d; by eapply silent_turn_desk].
  destruct Hd as [Hr Ho Ha]. simpl in Ht. unfold connection_turn in Ht.
  destruct (connections (locals s) !! n) as [c|] eqn:Ec; [|done].
  destruct (listener_possible s c i); [|done].
  destruct (handle_connection_step wo i c) as [[c' dn]|] eqn:Est; [|done]. injection Ht as <-.
  destruct (connection_step_desk n wo i c c' dn d Est) as (d' & Hd' & Hq & Hm).
  { intros w p t ->. by rewrite (desk_used _ _ _ Hr). }
  { apply Ho; [done|]. unfold handle_connection_step in Est. by destruct (Listener.open c). }
  exists d'. split; simpl.
  - by rewrite desk_run_app, Hr.
  - intros m c1 Hc1 Hop. apply lookup_insert_Some in Hc1 as [[-> ->]|[Hne Hc1]]; [auto|].
    rewrite Hm by done. by apply Ho.
  - intros m [Hn Hne]%lookup_insert_None. rewrite Hm by done. by apply Ha.
Qed.

Lemma server_run_desk turns s s' d :
  server_run capacity vapid turns s = Some s' → desk_ok s d → ∃ d', desk_ok s' d'.
Proof.
  revert s d. induction turns as [|t turns IH]; intros s d Hrun Hd; [injection Hrun as <-; by eauto|].
  simpl in Hrun. case_decide; [|done]. apply bind_Some in Hrun as (s1 & H1 & H2).
  destruct (server_turn_desk _ _ _ _ H H1 Hd) as [d1 Hd1]. by eapply IH.
Qed.

(** ** Theorem *)

(** C3: to its local clients the server is a desk with a queue per connection.
    Whatever run it takes, what it accepts and answers is a run of the desk: a
    request is only taken while fewer than eight of its connection wait and its
    token is new, only the oldest request of a connection is answered, once; what
    an open connection waits for is the desk's queue, with the packets and
    contexts that were accepted; and on every connection what was answered,
    followed by what waits, is what was asked, in order. *)
Theorem clients_see_a_queue cfg a turns s :
  server_run capacity vapid turns (server_start cfg a) = Some s →
  ∃ desk, desk_run empty_desk (log s) = Some desk
    ∧ (∀ n c, connections (locals s) !! n = Some c → Listener.open c = true →
         queues desk n = tickets_of (responses c))
    ∧ ∀ n, omap (answered_on n) (log s) ++ (ticket_token <$> queues desk n)
           = omap (asked_on n) (log s).
Proof.
  intros Hrun. destruct (server_run_desk _ _ _ empty_desk Hrun) as [d [Hr Ho _]].
  { split; [done| |done]. by intros n c Hc. }
  exists d. split_and!; [done..|]. intros n. by rewrite (desk_fifo n _ _ _ Hr).
Qed.
End refinement.

(** ** A concrete run *)

(** The signed request was asked and answered on connection 0, whose queue is
    empty again. *)
Lemma clients_see_a_queue_witness :
  omap (asked_on 0) (log sample_server) = [7%N]
  ∧ ∃ desk, desk_run empty_desk (log sample_server) = Some desk ∧ queues desk 0 = [].
Proof.
  split; [by vm_compute|].
  destruct (clients_see_a_queue (A := sample_authority) (C := sample_remote)
    (L := sample_codecs) (U := hex_uuid_text) 4 [] sample_server_config
    (sample_service : Authority (PairingAuthority := sample_authority))
    sample_server_turns sample_server sample_server_runs) as (desk & Hr & _ & Hq).
  exists desk. split; [exact Hr|]. specialize (Hq 0).
  assert (omap (answered_on 0) (log sample_server) = [7%N]) as E1 by by vm_compute.
  assert (omap (asked_on 0) (log sample_server) = [7%N]) as E2 by by vm_compute.
  rewrite E1, E2 in Hq. destruct (queues desk 0); [reflexivity|discriminate Hq].
Defined.
