(* ===== verification/Deployment.v ===== *)
(** * Deployment: the server with its own pairing service

    The transition system of [Server] leaves the pairing boundary open.  Here it
    runs with the [PairingService] ([service_authority]), as [run] of
    [crates/server/src/daemon.rs] puts them together: an operator reaches the
    service through the control socket, connections see the identities it
    publishes, sessions watch its revocations, and the push service receives the
    broker's wakes. *)

From S2P Require Import Prelude Bytes Utf8 Packet ContextCodec RequestRouter RequestRouterProps Listener Assoc BrokerModel BrokerTask BrokerHandle BrokerTaskProps Pairing PairingProps Protocol Session System Control ControlProps Push Server.

Section deployment.
Context `{S : PairingStore} `{D : Digest} `{L : SshAgentLib} `{C : RemoteCodecs} `{U : UuidText}.
Context `{F : Framing} `{JR : Json ControlRequest} `{JA : Json ControlResponse}.
Context (describe : StoreError → rstring).
Context (capacity : N) (vapid : bytes).

#[local] Instance authority : PairingAuthority := service_authority S D L.

(** ** State *)

(** The server, the revocations each WebSocket has seen, the identities each
    connection has last read, the push service's loop, and the subscriptions it
    has found for the requests it published. *)
Record Deployment := {
  server : Server;
  seen : gmap nat N;
  viewed : gmap nat (option (list AgentIdentity));
  push : Coalescer;
  notified : list (option PushSubscription * WakeRequest);
}.

Definition pairing (d : Deployment) : PairingService := service (server d).

(** ** Turns *)

(** [DControl]: a connection of the control socket is handled.  [DPush]: the
    push service's sleep or publication is over, or its senders are gone.
    [DSubscription]: [publish] asks the pairing service for the subscription. *)
Inductive DeploymentTurn :=
| DServer (t : ServerTurn)
| DControl (faults : Faults) (received : bytes) (writes : bool)
| DPush (ev : PushEvent)
| DSubscription.

(** What the pairing service adds to the server's turns: a connection sees the
    published identities, as its watch channel documents, and a session a
    revocation since it subscribed. *)
Definition allowed (t : ServerTurn) (d : Deployment) : bool :=
  match t with
  | TService _ => false
  | TAccept _ w => bool_decide (borrowed w = identities (pairing d))
  | TConnection n _ (Frame w _ _) =>
      bool_decide (borrowed w = identities (pairing d)
                   ∧ consistent (default None (viewed d !! n)) w)
  | TSession n Revoked =>
      match seen d !! n with
      | Some generation => revocation_pending generation (pairing d)
      | None => false
      end
  | _ => true
  end.

(** [serve] subscribes to revocations before it reads the first message. *)
Definition subscribe_revocations (t : ServerTurn) (d : Deployment) : gmap nat N :=
  match t with
  | TUpgrade n => <[n := revocations (pairing d)]> (seen d)
  | _ => seen d
  end.

(** A connection's router reads the identities when it is created and before it
    routes a packet. *)
Definition read_identities (t : ServerTurn) (d : Deployment) :
    gmap nat (option (list AgentIdentity)) :=
  match t with
  | TAccept n w | TConnection n _ (Frame w _ _) => <[n := borrowed w]> (viewed d)
  | _ => viewed d
  end.

(** The wakes among events, and their way to the push service: a send to a
    service that has stopped is ignored. *)
Definition wakes_of (events : list Happened) : list WakeRequest :=
  omap (λ h, match h with Woken request => Some request | _ => None end) events.
Definition send_wake (c : Coalescer) (request : WakeRequest) : Coalescer :=
  default c (push_step (WakeSent request) c).

Definition after (t : ServerTurn) (s : Server) (d : Deployment) : Deployment :=
  {| server := s; seen := subscribe_revocations t d; viewed := read_identities t d;
     push := foldl send_wake (push d) (wakes_of (drop (length (log (server d))) (log s)));
     notified := notified d |}.

(** [publish] reads the subscription first, once for each request. *)
Definition subscription_read (d : Deployment) : bool :=
  negb (bool_decide (length (notified d) = length (published (push d)))).

Definition read_subscription (d : Deployment) : option (list (option PushSubscription * WakeRequest)) :=
  match phase (push d) with
  | Publishing request =>
      if subscription_read d then None
      else Some (notified d ++ [(service_push_subscription (pairing d), request)])
  | _ => None
  end.

(** The push service's own events; the broker holds the only sender. *)
Definition push_turn (ev : PushEvent) (d : Deployment) : option Coalescer :=
  match ev with
  | WakeSent _ => None
  | SendersGone => if broker_runs (server d) then None else push_step ev (push d)
  | SleepOver => push_step ev (push d)
  | PublishDone => if subscription_read d then push_step ev (push d) else None
  end.

Definition deployment_turn (t : DeploymentTurn) (d : Deployment) : option Deployment :=
  match t with
  | DServer t =>
      if allowed t d then
        s ← server_turn capacity vapid t (server d);
        Some (after t s d)
      else None
  | DControl faults received writes =>
      let t := TService ((handle_control_connection describe faults received writes (pairing d)).1
                         : Authority) in
      s ← server_turn capacity vapid t (server d);
      Some (after t s d)
  | DPush ev =>
      c ← push_turn ev d;
      Some {| server := server d; seen := seen d; viewed := viewed d; push := c;
              notified := notified d |}
  | DSubscription =>
      l ← read_subscription d;
      Some {| server := server d; seen := seen d; viewed := viewed d; push := push d;
              notified := l |}
  end.

Definition fresh_deployment_turn (t : DeploymentTurn) (d : Deployment) : Prop :=
  match t with
  | DServer t => fresh_turn t (server d)
  | _ => True
  end.
#[export] Instance fresh_deployment_turn_dec t d : Decision (fresh_deployment_turn t d).
Proof. destruct t; apply _. Defined.

Fixpoint deployment_run (turns : list DeploymentTurn) (d : Deployment) : option Deployment :=
  match turns with
  | [] => Some d
  | t :: turns =>
      if decide (fresh_deployment_turn t d) then deployment_turn t d ≫= deployment_run turns
      else None
  end.

(** The server when its tasks have been spawned around an opened service. *)
Definition deployment_start (cfg : BrokerConfig) (service : PairingService) : Deployment :=
  {| server := server_start cfg (service : Authority); seen := ∅; viewed := ∅;
     push := start_coalescer; notified := [] |}.
End deployment.
