(* ===== verification/DeploymentProps.v ===== *)
(** * DeploymentProps: the server and its pairing service together

    Properties of [Deployment]: what the service stores stays well formed over
    runs and restarts, and a local client is listed the paired client's
    identities. *)

From S2P Require Import Prelude Bytes Utf8 Packet ContextCodec ContextCodecProps PacketProps RequestRouter RequestRouterProps Listener Assoc BrokerModel BrokerTask BrokerHandle BrokerTaskProps Pairing PairingProps Protocol Session SessionProps System Control ControlProps Push PushProps Server ServerProps Deployment.

Section props.
Context `{S : PairingStore} `{D : Digest} `{L : SshAgentLib} `{C : RemoteCodecs} `{U : UuidText}.
Context `{F : Framing} `{JR : Json ControlRequest} `{JA : Json ControlResponse}.
Context (describe : StoreError → rstring).
Context (capacity : N) (vapid : bytes).

#[local] Existing Instance authority.

Abbreviation turn := (deployment_turn describe capacity vapid).
Abbreviation run := (deployment_run describe capacity vapid).

(** ** The server in the deployment *)

(** A turn of the deployment is at most one turn of the server. *)
Definition server_turns (t : DeploymentTurn) (d : Deployment) : list ServerTurn :=
  match t with
  | DServer t => [t]
  | DControl faults received writes =>
      [TService ((handle_control_connection describe faults received writes (pairing d)).1
                 : Authority)]
  | DPush _ | DSubscription => []
  end.

Lemma deployment_turn_server t d d' :
  fresh_deployment_turn t d → turn t d = Some d' →
  server_run capacity vapid (server_turns t d) (server d) = Some (server d').
Proof.
  intros Hfr. destruct t as [t|faults received writes|ev|]; simpl.
  - destruct (allowed t d); [|done]. intros (s & Hs & [= <-])%bind_Some.
    rewrite decide_True by done. by rewrite Hs.
  - intros [= <-]. done.
  - by intros (c & _ & [= <-])%bind_Some.
  - by intros (l & _ & [= <-])%bind_Some.
Qed.

Lemma deployment_run_server turns d d' :
  run turns d = Some d' →
  ∃ turns', server_run capacity vapid turns' (server d) = Some (server d').
Proof.
  revert d. induction turns as [|t turns IH]; intros d; simpl; [intros [= <-]; by exists []|].
  case_decide as Hfr; [|done]. intros (d1 & H1 & (turns' & H2)%IH)%bind_Some.
  exists (server_turns t d ++ turns'). rewrite server_run_app.
  by rewrite (deployment_turn_server _ _ _ Hfr H1).
Qed.

Lemma deployment_run_app turns1 turns2 d : run (turns1 ++ turns2) d = run turns1 d ≫= run turns2.
Proof.
  revert d. induction turns1 as [|t turns1 IH]; intros d; [done|]. simpl. case_decide; [|done].
  destruct (turn t d) as [d1|]; [|done]. apply IH.
Qed.

(** ** What turns do to the pairing service *)

(** An operation with arguments from an accepted message. *)
Definition op_ok (op : Op) : Prop :=
  match op with
  | OpPair _ _ _ _ label => within_limits (PairRequest label)
  | OpSetPushSubscription _ _ p =>
      within_limits (SetPushSubscription (endpoint p) (expiration_time p) (p256dh p) (auth p))
  | OpSetIdentities _ _ ids => within_limits (SetIdentities ids)
  | OpClear _ | OpAuthenticate _ _ _ _ => True
  end.

(** The message of its client a session takes, and the operation it performs for
    it: it updates what is kept about that very client. *)
Definition client_message (i : SessionInput) : option ClientMessage :=
  match i with
  | FromClient _ (Some (Binary frame)) _ => ok (decode_client frame)
  | _ => None
  end.
Definition session_op (e : Established) (i : SessionInput) (op : Op) : Prop :=
  match op with
  | OpSetPushSubscription _ id p =>
      id = Session.client_id e
      ∧ client_message i
        = Some (SetPushSubscription (endpoint p) (expiration_time p) (p256dh p) (auth p))
  | OpSetIdentities _ id ids =>
      id = Session.client_id e ∧ client_message i = Some (SetIdentities ids)
  | _ => False
  end.

(** The operations a turn may perform: a greeting pairs with what the runtime
    draws for it, or authenticates; an established session updates what is kept
    about its client; only an operator clears. *)
Definition turn_op (s : Server) (t : ServerTurn) (op : Op) : Prop :=
  match t, op with
  | TGreet _ env received, OpPair f fresh credential time label =>
      op = OpPair (env_faults env) (env_fresh env) (env_credential env) (env_time env) label
      ∧ receive_client received = Some (PairRequest label)
  | TGreet _ _ _, OpAuthenticate _ _ _ _ => True
  | TSession n i, _ =>
      ∃ x ch, sessions s !! n = Some (Adapting x ch) ∧ session_op (established x) i op
  | _, _ => False
  end.
Definition deployment_op (d : Deployment) (t : DeploymentTurn) (op : Op) : Prop :=
  match t with
  | DServer t => turn_op (server d) t op
  | DControl _ _ _ => is_clear op = true
  | DPush _ | DSubscription => False
  end.

(** The service afterwards, by at most one operation of these. *)
Definition by_ops (P : Op → Prop) (s s' : PairingService) : Prop :=
  ∃ ops os, perform_all ops s = (s', os) ∧ Forall op_ok ops ∧ length ops ≤ 1 ∧ Forall P ops.

Lemma by_no_op P s : by_ops P s s.
Proof. exists [], []. split_and!; [done|constructor|simpl; lia|constructor]. Qed.

Lemma by_op (P : Op → Prop) op s s' o :
  PairingProps.perform op s = (s', o) → op_ok op → P op → by_ops P s s'.
Proof.
  intros Hp Hok Hc. exists [op], [o]. cbn. rewrite Hp.
  split_and!; [done|by constructor|done|by constructor].
Qed.

Lemma by_ops_mono (P Q : Op → Prop) s s' : (∀ op, P op → Q op) → by_ops P s s' → by_ops Q s s'.
Proof.
  intros HPQ (ops & os & ? & ? & ? & HP). exists ops, os. split_and!; [done..|].
  by eapply Forall_impl.
Qed.

Lemma authorize_ops sv n frame message env (s s' : PairingService) r :
  decode_client frame = Ok message → authorize env message s = (s', r) →
  by_ops (turn_op sv (TGreet n env (Some (Binary frame)))) s s'.
Proof.
  intros Hd. destruct (decode_client_limits _ _ Hd) as [_ Hl].
  destruct message; simpl; try (intros [= <- <-]; apply by_no_op).
  - destruct (pair _ _ _ _ _ s) as [s1 r1] eqn:E. intros [= <- <-].
    eapply (by_op _ (OpPair (env_faults env) (env_fresh env) (env_credential env) (env_time env) _));
      [cbn; by rewrite E|done|]. simpl. by rewrite Hd.
  - destruct (authenticate _ _ _ _ s) as [s1 r1] eqn:E. intros [= <- <-].
    eapply (by_op _ (OpAuthenticate (env_faults env) (env_time env) _ _));
      [cbn; by rewrite E|done|done].
Qed.

Lemma handle_message_ops env m accepted e pong (s s' : PairingService) pong' acts b :
  handle_client_message env m accepted e pong s = (s', pong', acts, b) →
  by_ops (session_op e (FromClient env (Some m) accepted)) s s'.
Proof.
  unfold handle_client_message. destruct m as [frame| | | |]; try (intros [= <- <- <- <-]; apply by_no_op).
  destruct (decode_client frame) as [m|] eqn:Ed; [|intros [= <- <- <- <-]; apply by_no_op].
  pose proof (decode_client_limits _ _ Ed) as [_ Hl].
  destruct m; try (intros [= <- <- <- <-]; apply by_no_op); simpl.
  - destruct (set_push_subscription _ _ _ s) as [s1 r1] eqn:E. intros [= <- <- <- <-].
    eapply (by_op _ (OpSetPushSubscription (env_faults env) _ _));
      [cbn; by rewrite E|done|]. split; [done|]. simpl. by rewrite Ed.
  - destruct (set_identities _ _ _ s) as [s1 r1] eqn:E. intros [= <- <- <- <-].
    eapply (by_op _ (OpSetIdentities (env_faults env) _ _));
      [cbn; by rewrite E|done|]. split; [done|]. simpl. by rewrite Ed.
Qed.

Lemma session_step_ops i (x x' : Session.Session) acts :
  run_authenticated_step i x = Some (x', acts) →
  by_ops (session_op (established x) i) (authority_state x) (authority_state x').
Proof.
  unfold run_authenticated_step. destruct (alive x); [|done]. cbn [negb]. intros [= Hs].
  destruct i as [[command|] sent|env [message|] accepted|sent| |];
    try (injection Hs as <- <-; apply by_no_op).
  - destruct (_ && sent); injection Hs as <- <-; apply by_no_op.
  - destruct (handle_client_message _ _ _ _ _ _) as [[[a pong] acts0] b] eqn:E.
    apply handle_message_ops in E. destruct b; by injection Hs as <- <-.
  - destruct (_ && sent); injection Hs as <- <-; apply by_no_op.
Qed.

Lemma serve_first_ops sv n env received (s s' : PairingService) acts next :
  serve_first env received s = (s', acts, next) → by_ops (turn_op sv (TGreet n env received)) s s'.
Proof.
  unfold serve_first. destruct (receive_client received) as [m|] eqn:Er;
    [|intros [= <- <- <-]; apply by_no_op].
  unfold receive_client in Er. destruct received as [[frame| | | |]|]; try done.
  apply ok_Some in Er. destruct (authorize env m s) as [s1 r] eqn:Ea.
  pose proof (authorize_ops sv n _ _ _ _ _ _ Er Ea). by destruct r as [[]|]; intros [= <- <- <-].
Qed.

Lemma server_turn_ops t (s s' : Server) :
  (∀ a, t ≠ TService a) → server_turn capacity vapid t s = Some s' →
  by_ops (turn_op s t) (service s) (service s').
Proof.
  intros Ht. destruct t as [n w| |n write_ok i|n k|i|n|n env received|n ch|n sent|n i|n| |resp|a];
    simpl; [..|by destruct (Ht a)].
  - unfold accept_turn. intros. repeat case_match; simplify_eq; apply by_no_op.
  - intros [= <-]. apply by_no_op.
  - unfold connection_turn. intros. repeat case_match; simplify_eq; apply by_no_op.
  - unfold submit_turn. intros. repeat case_match; simplify_eq; apply by_no_op.
  - unfold broker_turn. intros. repeat case_match; simplify_eq; apply by_no_op.
  - unfold upgrade_turn. intros. repeat case_match; simplify_eq; apply by_no_op.
  - unfold greet_turn. destruct (sessions s !! n) as [[| | | | |]|]; try done.
    destruct (serve_first env received (service s)) as [[a acts] next] eqn:E.
    apply (serve_first_ops s n) in E. by destruct next as [[]|]; intros [= <-].
  - unfold ask_turn. intros. repeat case_match; simplify_eq; [|apply by_no_op].
    apply post_session_some in H as ->. apply by_no_op.
  - unfold connected_turn. intros. repeat case_match; simplify_eq; apply by_no_op.
  - unfold session_turn. destruct (sessions s !! n) as [[| | |x ch| |]|] eqn:En; try done.
    destruct (session_input i ch s) as [boxes|]; [|done].
    destruct (run_authenticated_step i (with_service (service s) x)) as [[x' acts]|] eqn:E; [|done].
    apply session_step_ops in E. simpl in E.
    eapply (by_ops_mono _ (λ op, ∃ x ch, sessions s !! n = Some (Adapting x ch)
                                 ∧ session_op (established x) i op)) in E; [|by eauto]. destruct (alive x'); [|by intros [= <-]].
    by intros ->%post_session_some.
  - unfold leave_turn. intros. repeat case_match; simplify_eq; try apply by_no_op.
    apply post_session_some in H as ->. apply by_no_op.
  - intros [= <-]. apply by_no_op.
  - case_match; intros; simplify_eq. apply by_no_op.
Qed.

Lemma control_ops faults received writes (s : PairingService) :
  by_ops (λ op, is_clear op = true) s (handle_control_connection describe faults received writes s).1.
Proof.
  unfold handle_control_connection.
  destruct (next_frame _ received) as [[request|]|]; [|apply by_no_op..].
  destruct (control_decode request) as [[]|]; [|apply by_no_op].
  destruct (clear faults s) as [s1 r] eqn:E.
  assert (by_ops (λ op, is_clear op = true) s s1) by (eapply (by_op _ (OpClear faults)); [cbn; by rewrite E|done|done]).
  by destruct r.
Qed.

Lemma deployment_turn_ops t d d' :
  turn t d = Some d' → by_ops (deployment_op d t) (pairing d) (pairing d').
Proof.
  destruct t as [t|faults received writes|ev|]; simpl.
  - destruct (allowed t d) eqn:Ea; [|done]. intros (s & Hs & [= <-])%bind_Some. unfold pairing. simpl.
    eapply server_turn_ops; [|done]. by intros a ->.
  - intros [= <-]. apply control_ops.
  - intros (c & _ & [= <-])%bind_Some. apply by_no_op.
  - intros (l & _ & [= <-])%bind_Some. apply by_no_op.
Qed.

(** ** What is stored *)

(** Everything kept about a client came in accepted messages. *)
Definition client_ok (c : PairedClient) : Prop :=
  within_limits (PairRequest (label c))
  ∧ (∀ p, push_subscription c = Some p →
       within_limits (SetPushSubscription (endpoint p) (expiration_time p) (p256dh p) (auth p)))
  ∧ ∀ ids, client_identities c = Some ids → within_limits (SetIdentities ids).
Definition state_ok (ps : PairingState) : Prop := ∀ c, client ps = Some c → client_ok c.
Definition stored_ok (st : Store) : Prop := ∀ ps, load healthy st = Ok (Some ps) → state_ok ps.

Record service_ok (s : PairingService) : Prop := {
  sv_identities : identities_ok s;
  sv_state : state_ok (Pairing.state s);
  sv_stored : stored_ok (store s);
}.

Lemma target_ok op s next :
  state_ok (Pairing.state s) → op_ok op → target op s = Some next → state_ok next.
Proof.
  intros Hs Hop Ht c Hc. unfold target in Ht.
  destruct op as [f|f fresh [cr|] t l|f t id cr|f id p|f id ids];
    destruct (client (Pairing.state s)) as [c0|] eqn:Ec; try done; try case_decide; simplify_eq/=;
    try (destruct (Hs c0 Ec) as (H1 & H2 & H3)); split_and!; naive_solver.
Qed.

Context `{!PairingStoreSpec S}.

Lemma perform_service_ok op s s' o :
  service_ok s → op_ok op → PairingProps.perform op s = (s', o) → service_ok s'.
Proof.
  intros [Hi Hs Hst] Hop Hp. split.
  - eapply (perform_all_identities [op]); [done|]. cbn. by rewrite Hp.
  - apply perform_cases in Hp as [(_ & Ht & _)|(_ & -> & _)]; [|done]. by eapply target_ok.
  - rewrite perform_spec in Hp. destruct (target op s) as [next|] eqn:Et; [|by simplify_eq].
    pose proof (target_ok _ _ _ Hs Hop Et) as Hn.
    destruct (save _ _ _) as [st [[]|e]] eqn:Es; simplify_eq; intros ps Hps; simpl in Hps.
    + apply save_ok in Es. rewrite Es in Hps. by injection Hps as <-.
    + apply save_err in Es as [Es|Es]; rewrite Es in Hps; [by apply Hst|by injection Hps as <-].
Qed.

Lemma by_ops_ok b s s' : service_ok s → by_ops b s s' → service_ok s'.
Proof.
  intros Hs (ops & os & Hp & Hops & _ & _). revert s os Hs Hp.
  induction Hops as [|op ops Hop _ IH]; intros s os Hs; cbn; [by intros [= <- <-]|].
  destruct (PairingProps.perform op s) as [s1 o] eqn:E.
  destruct (perform_all ops s1) as [s2 os2] eqn:E2. intros [= <- <-].
  eapply IH; [|done]. by eapply perform_service_ok.
Qed.

Lemma open_ok lf sf fresh st st' s :
  stored_ok st → Pairing.open lf sf fresh st = (st', Ok s) → service_ok s.
Proof.
  intros Hst Ho. pose proof (open_synced _ _ _ _ _ _ Ho) as Hsync. unfold synced in Hsync.
  apply open_cases in Ho as (ps & (Hi & E1 & E2)%open_with_ok & Hcase). rewrite E1, E2 in Hsync.
  assert (state_ok ps) as Hps.
  { destruct Hcase as [[El%load_spec _]|[_ ->]]; [by apply Hst|]. by intros c. }
  split; rewrite ?E1, ?E2; [done..|]. intros ps' Hps'. rewrite Hsync in Hps'. by injection Hps' as <-.
Qed.

Lemma run_service turns d d' :
  service_ok (pairing d) → run turns d = Some d' → service_ok (pairing d').
Proof.
  revert d. induction turns as [|t turns IH]; intros d Hd; simpl; [by intros [= <-]|].
  case_decide; [|done]. intros (d1 & H1 & H2)%bind_Some. eapply IH; [|done].
  by eapply by_ops_ok, deployment_turn_ops.
Qed.

(** Published identities always have an answer. *)
Lemma service_answers s : service_ok s → ∃ answer, derive_answer (identities s) = Ok answer.
Proof.
  intros [[Hi _] Hs _]. rewrite Hi. unfold stored_identities, derive_answer.
  destruct (client (Pairing.state s)) as [c|] eqn:Ec; simpl; [|by eauto].
  destruct (client_identities c) as [ids|] eqn:Ei; [|by eauto].
  destruct (Hs c Ec) as (_ & _ & H). destruct (H ids Ei) as (_ & _ & _ & answer & -> & _).
  by eauto.
Qed.

Lemma stored_opens st lf sf fresh e :
  stored_ok st → (Pairing.open lf sf fresh st).2 ≠ Err (StoredIdentitiesInvalid e).
Proof.
  intros Hst. unfold Pairing.open. destruct (load lf st) as [[ps|]|] eqn:El; simpl; [| |done].
  - unfold open_with, stored_identities. destruct (client ps) as [c|] eqn:Ec; simpl; [|done].
    destruct (client_identities c) as [ids|] eqn:Ei; [|done].
    destruct (Hst ps (load_spec _ _ _ El) c Ec) as (_ & _ & H).
    by destruct (H ids Ei) as (_ & _ & -> & _).
  - by destruct (save sf (unpaired fresh) st) as [st1 []].
Qed.

(** C10: what the server stores stays well formed, over runs and restarts.  If
    the pairing store holds nothing or what this server may have stored, then in
    every run of the server started on it, whatever the clients send, the
    operator does and storage fails at, every label, push subscription and
    identity kept in memory or in the store is within the protocol's limits, the
    published identities are the stored ones and have an answer, so no local
    connection is refused for them, and no later start finds them invalid. *)
Theorem stored_data_stays_well_formed lf sf fresh st st' s cfg turns d :
  stored_ok st → Pairing.open lf sf fresh st = (st', Ok s) →
  run turns (deployment_start cfg s) = Some d →
  state_ok (Pairing.state (pairing d)) ∧ stored_ok (store (pairing d))
  ∧ identities (pairing d) = stored_identities (Pairing.state (pairing d))
  ∧ (∀ w, borrowed w = identities (pairing d) → is_ok (router_new w) = true ∧ is_ok (connection w) = true)
  ∧ ∀ lf' sf' fresh' e,
      (Pairing.open lf' sf' fresh' (store (pairing d))).2 ≠ Err (StoredIdentitiesInvalid e).
Proof.
  intros Hst Ho Hrun. apply run_service in Hrun as Hok; [|by eapply open_ok].
  split_and!; [apply Hok|apply Hok|apply Hok| |intros; by apply stored_opens, Hok].
  intros w Hw. destruct (service_answers _ Hok) as [answer Ha].
  unfold router_new, connection. by rewrite Hw, Ha.
Qed.

(** ** Identity lists *)

Context `{!SshAgentLibSpec L}.

(** Each connection's router answers with the identities it has last read. *)
Definition viewed_ok (d : Deployment) : Prop :=
  ∀ n c, connections (locals (server d)) !! n = Some c → Listener.open c = true →
    ∃ v, viewed d !! n = Some v ∧ derive_answer v = Ok (identity_answer (router c)).

(** A router that was just created or has just routed a packet is current. *)
Lemma created_current w r :
  AcceptLoop.agent_task w = Some r → derive_answer (borrowed w) = Ok (identity_answer r).
Proof.
  unfold AcceptLoop.agent_task, connection. destruct (derive_answer (borrowed w)); [|done].
  by intros [= <-].
Qed.

Lemma connection_step_current write_ok i c c' done v :
  handle_connection_step write_ok i c = Some (c', done) → Listener.open c' = true →
  derive_answer v = Ok (identity_answer (router c)) →
  match i with
  | Frame w _ _ => consistent v w → derive_answer (borrowed w) = Ok (identity_answer (router c'))
  | _ => derive_answer v = Ok (identity_answer (router c'))
  end.
Proof.
  unfold handle_connection_step, refuse. destruct (Listener.open c); [|done]. simpl.
  intros Hst Ho Hv. destruct i as [| |w packet token|outcome]; repeat case_match; simplify_eq/=; try done.
  intros Hc. exact (proj1 (route_current _ _ _ _ _ _ _ Hv Hc H0)).
Qed.

Lemma handle_connection_step_open write_ok i c x :
  handle_connection_step write_ok i c = Some x → Listener.open c = true.
Proof. unfold handle_connection_step. by destruct (Listener.open c). Qed.

Lemma server_turn_viewed t d s :
  viewed_ok d → allowed t d = true → server_turn capacity vapid t (server d) = Some s →
  viewed_ok (after t s d).
Proof.
  intros Hv Hal Ht n c' Hc Ho. simpl in *.
  destruct (server_turn_connections _ _ _ _ _ _ _ Ht Hc Ho)
    as [[Hold Hne]|[(w & r & -> & _ & Hr & ->)|(write_ok & i & c & done & -> & Hold & Hst)]].
  - destruct (Hv n c' Hold Ho) as (v & Hn & Ha). exists v. split; [|done].
    unfold read_identities. destruct t as [m w| |m wo i| | | | | | | | | | |]; try done.
    + rewrite lookup_insert_ne; [done|]. intros ->. simpl in Ht. unfold accept_turn in Ht.
      rewrite Hold in Ht. by destruct (negb _).
    + destruct i; try done. rewrite lookup_insert_ne; [done|]. intros ->. by eapply Hne.
  - exists (borrowed w). simpl. rewrite lookup_insert_eq. split; [done|]. by apply created_current.
  - destruct (Hv n c Hold (handle_connection_step_open _ _ _ _ Hst)) as (v & Hn & Ha).
    pose proof (connection_step_current _ _ _ _ _ _ Hst Ho Ha) as Hcur.
    destruct i as [| |w packet token|outcome]; simpl in *; try (by exists v).
    exists (borrowed w). rewrite lookup_insert_eq. split; [done|]. apply Hcur.
    apply bool_decide_eq_true in Hal as [_ Hal]. by rewrite Hn in Hal.
Qed.

Lemma turn_viewed t d d' : viewed_ok d → turn t d = Some d' → viewed_ok d'.
Proof.
  destruct t as [t|faults received writes|ev|]; simpl; intros Hv.
  - destruct (allowed t d) eqn:Ea; [|done]. intros (s & Hs & [= <-])%bind_Some.
    by apply server_turn_viewed.
  - intros [= <-]. exact Hv.
  - intros (c & _ & [= <-])%bind_Some. exact Hv.
  - intros (l & _ & [= <-])%bind_Some. exact Hv.
Qed.

Lemma run_viewed turns d d' : viewed_ok d → run turns d = Some d' → viewed_ok d'.
Proof.
  revert d. induction turns as [|t turns IH]; intros d Hd; simpl; [by intros [= <-]|].
  case_decide; [|done]. intros (d1 & H1 & H2)%bind_Some. eapply IH; [|done]. by eapply turn_viewed.
Qed.

(** A packet that is no context is routed when the identities have an answer. *)
Lemma route_answerable w packet token r answer :
  derive_answer (borrowed w) = Ok answer → ContextCodec.decode packet = Ok None →
  ∃ r' response, route w packet token r = (r', Ok response).
Proof.
  intros Ha Hd. unfold route, refresh_identity_answer. rewrite Ha, Hd.
  destruct (negb _); simpl; by eauto.
Qed.

(** C8: a local client is listed the identities of the paired client.  In every
    run of the server on an opened store, whenever a connection that may have
    one more request outstanding sends an identity-list request, the request is
    taken and its response is the one for the identities stored for the client
    paired at that moment, whatever had been published when the connection was
    opened; without stored identities the request goes to the broker. *)
Theorem identity_lists_are_the_paired_clients lf sf fresh st st' s cfg turns d n c write_ok w packet token :
  stored_ok st → Pairing.open lf sf fresh st = (st', Ok s) →
  run turns (deployment_start cfg s) = Some d →
  connections (locals (server d)) !! n = Some c → Listener.open c = true →
  length (responses c) < MAX_PIPELINED_REQUESTS → is_identity_request packet = true →
  allowed (TConnection n write_ok (Frame w packet token)) d = true →
  ∃ d' c' response,
    turn (DServer (TConnection n write_ok (Frame w packet token))) d = Some d'
    ∧ connections (locals (server d')) !! n = Some c'
    ∧ Listener.open c' = true ∧ responses c' = responses c ++ [response]
    ∧ identity_response (stored_identities (Pairing.state (pairing d))) packet response.
Proof.
  intros Hst Ho Hrun Hc Hopen Hlen Hid Hal.
  apply run_service in Hrun as Hok; [|by eapply open_ok].
  apply run_viewed in Hrun as Hv; [|intros m c1 Hm; simpl in Hm; by apply lookup_empty_Some in Hm].
  destruct (Hv n c Hc Hopen) as (v & Hn & Ha). destruct (service_answers _ Hok) as [answer Hans].
  pose proof Hal as Hal'. simpl in Hal'. apply bool_decide_eq_true in Hal' as [Hw Hcons].
  rewrite Hn in Hcons. rewrite <- Hw in Hans.
  destruct (route_answerable w packet token (router c) answer Hans) as (r' & response & Hr);
    [by apply identity_request_not_context|].
  destruct (route_current _ _ _ _ _ _ _ Ha Hcons Hr) as [_ Hresp].
  eexists _, (with_responses r' (responses c ++ [response])), response.
  split_and!.
  - cbn [deployment_turn server_turn]. rewrite Hal. unfold connection_turn. rewrite Hc.
    cbn [listener_possible]. unfold handle_connection_step. rewrite Hopen, decide_False, Hr by lia.
    reflexivity.
  - cbn. by rewrite lookup_insert_eq.
  - done.
  - done.
  - rewrite <- (proj1 (sv_identities _ Hok)). change (service (server d)) with (pairing d) in Hw.
    rewrite <- Hw. auto.
Qed.
End props.

(** ** A concrete deployment *)

Definition sample_update : Watch :=
  {| has_changed := Some true; borrowed := Some [sample_identity] |}.

Section sample.
#[local] Existing Instances memory_store sample_digest sample_codecs sample_remote hex_uuid_text
  sample_framing sample_request_json sample_response_json authority.

(** A phone pairs, connects, sends its identities and its subscription and
    leaves; a local client with a context asks for a signature; the phone is woken
    and comes back. *)
Definition from_phone (b : byte) : SessionInput := FromClient sample_env (Some (Binary [b])) true.
Definition sample_deployment_turns : list DeploymentTurn :=
  [DServer (TAccept 0 (quiet_watch None));
   DServer (TUpgrade 0);
   DServer (TGreet 0 sample_env (Some (Binary pair_frame)));
   DServer (TAsk 0 50);
   DServer (TBroker (InCommand (CmdConnect 4 50 50) 100 1));
   DServer (TConnected 0 true);
   DServer (TSession 0 (from_phone Byte.x05));
   DServer (TConnection 0 true (Frame (quiet_watch None) sample_packet 1));
   DServer (TSession 0 (from_phone Byte.x04));
   DServer (TSession 0 (FromClient sample_env None true));
   DServer (TLeave 0); DServer (TLeave 0);
   DServer (TBroker (InCommand (CmdDisconnected 100) 101 2));
   DServer (TConnection 0 true (Frame sample_update sign_request 7));
   DServer (TSubmit 0 1);
   DServer (TBroker (InLocal 1 60 3 1000000000000 (request_of sign_request (Some sample_context) 7)));
   DPush SleepOver; DSubscription; DPush PublishDone;
   DServer (TUpgrade 1);
   DServer (TGreet 1 sample_env (Some (Binary [Byte.x06])));
   DServer (TAsk 1 51);
   DServer (TBroker (InCommand (CmdConnect 4 51 51) 102 4));
   DServer (TConnected 1 true)].
Definition sample_deployment_start : Deployment := deployment_start sample_server_config sample_service.
Definition sample_deployment_run : option Deployment :=
  deployment_run (λ _, []) 4 [] sample_deployment_turns sample_deployment_start.
Definition sample_deployment : Deployment := default sample_deployment_start sample_deployment_run.

Lemma sample_deployment_runs :
  deployment_run (λ _, []) 4 [] sample_deployment_turns
    (deployment_start sample_server_config sample_service) = Some sample_deployment.
Proof.
  change (sample_deployment_run = Some sample_deployment).
  assert (match sample_deployment_run with Some _ => true | None => false end = true) as H
    by by vm_compute.
  unfold sample_deployment. by destruct sample_deployment_run.
Qed.

Lemma sample_service_opens :
  Pairing.open tt tt 77 (None : Store) = (store sample_service, Ok sample_service).
Proof. by vm_compute. Qed.
Lemma empty_store_ok : stored_ok (None : Store).
Proof. intros ps Hps. discriminate. Qed.

Lemma stored_data_stays_well_formed_witness :
  state_ok (Pairing.state (pairing sample_deployment))
  ∧ stored_identities (Pairing.state (pairing sample_deployment)) = Some [sample_identity].
Proof.
  split; [|by vm_compute].
  exact (proj1 (stored_data_stays_well_formed (λ _, []) 4 [] tt tt 77 None _ sample_service
    sample_server_config sample_deployment_turns sample_deployment empty_store_ok
    sample_service_opens sample_deployment_runs)).
Defined.

Lemma sample_connection_waits :
  ∃ c, connections (locals (server sample_deployment)) !! 0 = Some c
       ∧ Listener.open c = true ∧ length (responses c) < MAX_PIPELINED_REQUESTS.
Proof.
  assert (match connections (locals (server sample_deployment)) !! 0 with
          | Some c => Listener.open c && bool_decide (length (responses c) < MAX_PIPELINED_REQUESTS)
          | None => false
          end = true) as H by by vm_compute.
  destruct (connections (locals (server sample_deployment)) !! 0) as [c|]; [|done].
  apply andb_true_iff in H as [? ?%bool_decide_eq_true]. by exists c.
Qed.

Lemma identity_lists_are_the_paired_clients_witness :
  ∃ d' response,
    deployment_turn (λ _, []) 4 []
      (DServer (TConnection 0 true (Frame (quiet_watch (Some [sample_identity])) identity_request 9))) sample_deployment = Some d'
    ∧ identity_response (Some [sample_identity]) identity_request response.
Proof.
  destruct sample_connection_waits as (c & Hc & Ho & Hl).
  destruct (identity_lists_are_the_paired_clients (S := memory_store) (λ _, []) 4 [] tt tt 77 None _ sample_service
    sample_server_config sample_deployment_turns sample_deployment 0 c true
    (quiet_watch (Some [sample_identity])) identity_request 9 empty_store_ok sample_service_opens sample_deployment_runs Hc Ho Hl
    ltac:(by vm_compute) ltac:(by vm_compute)) as (d' & c' & response & Ht & _ & _ & _ & Hr).
  exists d', response. split; [exact Ht|].
  assert (stored_identities (Pairing.state (pairing sample_deployment)) = Some [sample_identity]) as E
    by by vm_compute. by rewrite E in Hr.
Defined.
End sample.
