(* ===== verification/DeploymentSafety.v ===== *)
(** * DeploymentSafety: revocation and wakes in the running server

    Properties of [Deployment] that follow its sessions and its push service
    through a run: a session outlives its client's pairing only until it sees
    the revocation, and what is published to the phone was asked for locally. *)

From S2P Require Import Prelude Bytes Utf8 Packet ContextCodec ContextCodecProps PacketProps RequestRouter Listener Assoc BrokerModel BrokerTask BrokerHandle BrokerTaskProps Pairing PairingProps Protocol Session SessionProps System Control ControlProps Push PushProps Server ServerProps Deployment DeploymentProps.

Section props.
Context `{S : PairingStore} `{D : Digest} `{L : SshAgentLib} `{C : RemoteCodecs} `{U : UuidText}.
Context `{F : Framing} `{JR : Json ControlRequest} `{JA : Json ControlResponse}.
Context (describe : StoreError → rstring).
Context (capacity : N) (vapid : bytes).

#[local] Existing Instance authority.

Abbreviation turn := (deployment_turn describe capacity vapid).
Abbreviation run := (deployment_run describe capacity vapid).

(** ** The paired client *)

Definition paired_id (s : PairingService) : option Uuid :=
  Pairing.client_id <$> client (Pairing.state s).

Lemma authorize_paired env m (s s' : PairingService) au :
  authorize env m s = (s', Some (Ok au)) → paired_id s' = Some (authorized_client au).
Proof.
  unfold paired_id. destruct m; simpl; try done.
  - destruct (pair _ _ _ _ _ s) as [s1 r1] eqn:E. intros [= <- ->]. revert E.
    unfold pair, replace_state. repeat case_match; intros; by simplify_eq/=.
  - destruct (authenticate _ _ _ _ s) as [s1 r1] eqn:E. intros [= <- ->]. revert E.
    unfold authenticate, replace_state. destruct (client (Pairing.state s)) as [c|]; [|done].
    case_bool_decide as Hid; [|done]. simpl. repeat case_match; intros; by simplify_eq/=.
Qed.

Lemma perform_pairing op s s' o :
  PairingProps.perform op s = (s', o) → (revocations s + 1 < 2 ^ 64)%N →
  (revocations s' = revocations s ∧ ∀ id, paired_id s = Some id → paired_id s' = Some id)
  ∨ (revocations s' = revocations s + 1)%N.
Proof.
  intros Hp Hb. apply perform_cases in Hp as [(_ & Ht & _ & Hr)|(_ & Hs & _ & Hr)].
  - destruct (is_clear op) eqn:Ec.
    + right. destruct op; try done. rewrite Hr. simpl. unfold wrap64. by apply N.mod_small.
    + left. split; [by destruct op|]. unfold paired_id. intros id Hid.
      assert (slot (Pairing.state s') = slot (Pairing.state s)) as Hsl.
      { apply (target_slot op); [done..|]. unfold slot. by destruct (client _). }
      unfold slot in Hsl. destruct (client (Pairing.state s)), (client (Pairing.state s'));
        simpl in *; congruence.
  - left. unfold paired_id. by rewrite Hs.
Qed.

Lemma by_ops_pairing b s s' :
  by_ops b s s' → (revocations s + 1 < 2 ^ 64)%N →
  (revocations s' = revocations s ∧ ∀ id, paired_id s = Some id → paired_id s' = Some id)
  ∨ (revocations s' = revocations s + 1)%N.
Proof.
  intros (ops & os & Hp & _ & Hlen & _) Hb. destruct ops as [|op [|? ?]]; simpl in *; [|revert Hp|lia].
  - injection Hp as <- <-. by left.
  - destruct (PairingProps.perform op s) as [s1 o] eqn:E. intros [= <- <-].
    by eapply perform_pairing.
Qed.

(** ** Sessions *)

(** The client a session acts for. *)
Definition bound_client (task : SessionTask) : option Uuid :=
  match task with
  | Authorized authorization | Connecting authorization _ => Some (authorized_client authorization)
  | Adapting x _ => Some (Session.client_id (established x))
  | _ => None
  end.
Definition task_alive (task : SessionTask) : Prop :=
  match task with Adapting x _ => alive x = true | _ => True end.

(** A session has seen no revocation its client was not paired before. *)
Definition sessions_ok (d : Deployment) : Prop :=
  ∀ n task, sessions (server d) !! n = Some task →
    task_alive task ∧ ∃ g, seen d !! n = Some g ∧ (g ≤ revocations (pairing d))%N
      ∧ ∀ id, bound_client task = Some id →
          (g < revocations (pairing d))%N ∨ paired_id (pairing d) = Some id.

(** How a turn changes the task of a session. *)
Definition task_step (s s' : Server) (task task' : SessionTask) : Prop :=
  task_alive task'
  ∧ ∀ id, bound_client task' = Some id →
      bound_client task = Some id
      ∨ ∃ env m au, authorize env m (service s) = (service s', Some (Ok au))
                    ∧ id = authorized_client au.

Lemma task_step_quiet s s' task task' :
  task_alive task' → bound_client task' = None ∨ bound_client task' = bound_client task →
  task_step s s' task task'.
Proof. intros Ha [E|E]; (split; [done|]); rewrite E; [done|by left]. Qed.

(** The turn is one of session [n], and leaves the others alone. *)
Lemma put_session_tasks m task task' a posted boxes events (s : Server) n x :
  sessions s !! m = Some task →
  task_step s (put_session m task' a posted boxes events s) task task' →
  sessions (put_session m task' a posted boxes events s) !! n = Some x →
  sessions s !! n = Some x
  ∨ ∃ y, sessions s !! n = Some y
         ∧ task_step s (put_session m task' a posted boxes events s) y x.
Proof.
  intros Hm Hst Hn. simpl in Hn. apply lookup_insert_Some in Hn as [[-> <-]|[_ Hn]]; [|by left].
  right. by exists task.
Qed.

Lemma serve_connected_client outcome sent au acts e :
  serve_connected outcome sent vapid au = (acts, Some e) →
  Session.client_id e = authorized_client au.
Proof. unfold serve_connected. repeat case_match; intros; by simplify_eq/=. Qed.

Lemma server_turn_sessions t (s s' : Server) n task' :
  server_turn capacity vapid t s = Some s' → sessions s' !! n = Some task' →
  sessions s !! n = Some task'
  ∨ (t = TUpgrade n ∧ sessions s !! n = None ∧ task' = Greeting)
  ∨ ∃ task, sessions s !! n = Some task ∧ task_step s s' task task'.
Proof.
  assert (∀ P Q R : Prop, P ∨ R → P ∨ Q ∨ R) as Hor by tauto.
  destruct t as [m w| |m write_ok i|m k|i|m|m env received|m ch|m sent|m i|m| |resp|a]; simpl;
    intros Ht Hn.
  - unfold accept_turn in Ht. repeat case_match; simplify_eq; by left.
  - injection Ht as <-. by left.
  - unfold connection_turn in Ht. repeat case_match; simplify_eq. by left.
  - unfold submit_turn in Ht. repeat case_match; simplify_eq. by left.
  - unfold broker_turn in Ht. repeat case_match; simplify_eq; by left.
  - unfold upgrade_turn in Ht. case_match eqn:Em; simplify_eq. simpl in Hn.
    apply lookup_insert_Some in Hn as [[-> <-]|[_ Hn]]; [right; by left|by left].
  - unfold greet_turn in Ht. destruct (sessions s !! m) as [[| | | | |]|] eqn:Em; try done.
    unfold serve_first in Ht. apply Hor.
    destruct (receive_client received) as [msg|]; simpl in Ht;
      [|simplify_eq; by eapply put_session_tasks, Hn; [done|apply task_step_quiet; simpl; auto]].
    destruct (authorize env msg (service s)) as [a' [[au|]|]] eqn:Ea; simplify_eq;
      (eapply put_session_tasks, Hn; [done|]); [|by apply task_step_quiet; simpl; auto..].
    split; [done|]. intros id [= <-]. right. by exists env, msg, au.
  - unfold ask_turn in Ht. destruct (sessions s !! m) as [[| | | | |]|] eqn:Em; try done. apply Hor.
    destruct (connect_remote _ _ _ _) as [posted [[]|]]; [apply post_session_some in Ht as ->|simplify_eq];
      (eapply put_session_tasks, Hn; [done|]); apply task_step_quiet; simpl; auto.
  - unfold connected_turn in Ht. destruct (sessions s !! m) as [[| | | | |]|] eqn:Em; try done.
    destruct (connect_outcome _ s) as [o|]; [|done]. apply Hor.
    destruct (serve_connected o sent vapid _) as [acts [e|]] eqn:Ee; simplify_eq;
      (eapply put_session_tasks, Hn; [done|]); apply task_step_quiet; simpl; auto.
    right. simpl. by apply serve_connected_client in Ee as ->.
  - unfold session_turn in Ht. destruct (sessions s !! m) as [[| | |x ch| |]|] eqn:Em; try done.
    destruct (session_input i ch s) as [boxes|]; [|done]. apply Hor.
    destruct (run_authenticated_step i (with_service (service s) x)) as [[x' acts]|] eqn:E; [|done].
    apply step_acted in E as [E _]. simpl in E.
    destruct (alive x') eqn:Eal; [apply post_session_some in Ht as ->|simplify_eq];
      (eapply put_session_tasks, Hn; [done|]); apply task_step_quiet; simpl; auto.
    right. simpl. by rewrite E.
  - unfold leave_turn in Ht. destruct (sessions s !! m) as [[| | | |posted ch|]|] eqn:Em; try done.
    apply Hor. destruct posted; [simplify_eq|apply post_session_some in Ht as ->];
      (eapply put_session_tasks, Hn; [done|]); apply task_step_quiet; simpl; auto.
  - injection Ht as <-. by left.
  - case_match; simplify_eq. by left.
  - injection Ht as <-. by left.
Qed.

(** What has been seen and is bound stays justified as the service goes on. *)
Lemma bound_after b (s s' : PairingService) g id :
  by_ops b s s' → (revocations s + 1 < 2 ^ 64)%N → (g ≤ revocations s)%N →
  (g < revocations s)%N ∨ paired_id s = Some id →
  (g < revocations s')%N ∨ paired_id s' = Some id.
Proof.
  intros Hops Hb Hg Hid. destruct (by_ops_pairing _ _ _ Hops Hb) as [[E Hp]|E]; [|left; lia].
  rewrite E. destruct Hid; [by left|right; auto].
Qed.

Lemma turn_sessions t d d' :
  sessions_ok d → (revocations (pairing d) + 1 < 2 ^ 64)%N → turn t d = Some d' →
  sessions_ok d' ∧ (revocations (pairing d') ≤ revocations (pairing d) + 1)%N.
Proof.
  intros Hok Hb Ht. pose proof (deployment_turn_ops _ _ _ _ _ _ Ht) as Hops.
  assert (revocations (pairing d) ≤ revocations (pairing d') ≤ revocations (pairing d) + 1)%N as Hr.
  { destruct (by_ops_pairing _ _ _ Hops Hb) as [[E _]|E]; rewrite E; lia. }
  split; [|lia].
  assert (∀ n task, sessions (server d) !! n = Some task → seen d' !! n = seen d !! n →
    task_alive task ∧ ∃ g, seen d' !! n = Some g ∧ (g ≤ revocations (pairing d'))%N
      ∧ ∀ id, bound_client task = Some id →
          (g < revocations (pairing d'))%N ∨ paired_id (pairing d') = Some id) as Hkeep.
  { intros n task Hn Hs. destruct (Hok n task Hn) as (Ha & g & Hg & Hle & Hid).
    split; [done|]. exists g. rewrite Hs. split_and!; [done|lia|].
    intros id Hb'. eapply bound_after; eauto. }
  destruct t as [t|faults received writes|ev|]; simpl in Ht.
  - destruct (allowed t d) eqn:Ea; [|done]. apply bind_Some in Ht as (s & Hs & [= <-]).
    intros n task' Hn. simpl in Hn.
    assert (is_Some (sessions (server d) !! n) → seen (after t s d) !! n = seen d !! n) as Hseen.
    { intros [x Hx]. simpl. destruct t; try done. simpl in *. unfold upgrade_turn in Hs.
      rewrite lookup_insert_ne; [done|]. intros ->. by rewrite Hx in Hs. }
    destruct (server_turn_sessions _ _ _ _ _ Hs Hn) as [Hold|[(-> & _ & ->)|(task & Hold & Ha & Hst)]].
    + apply Hkeep; [done|by apply Hseen].
    + split; [done|]. exists (revocations (pairing d)). simpl. rewrite lookup_insert_eq.
      split_and!; [done|apply Hr|done].
    + destruct (Hkeep n task Hold) as (_ & g & Hg & Hle & Hid); [by apply Hseen|].
      split; [done|]. exists g. split_and!; [done..|]. intros id Hb'.
      destruct (Hst id Hb') as [?|(env & m & au & Hau & ->)]; [by apply Hid|]. right.
      by eapply authorize_paired.
  - injection Ht as <-. intros n task Hn. by apply Hkeep.
  - apply bind_Some in Ht as (c & _ & [= <-]). intros n task Hn. by apply Hkeep.
  - apply bind_Some in Ht as (l & _ & [= <-]). intros n task Hn. by apply Hkeep.
Qed.

Lemma run_sessions turns d d' :
  sessions_ok d → (revocations (pairing d) + len turns < 2 ^ 64)%N → run turns d = Some d' →
  sessions_ok d'.
Proof.
  revert d. induction turns as [|t turns IH]; intros d Hok Hb; simpl; [by intros [= <-]|].
  case_decide; [|done]. intros (d1 & H1 & H2)%bind_Some. unfold len in *. simpl in Hb.
  destruct (turn_sessions _ _ _ Hok ltac:(lia) H1) as [Hok1 Hr]. eapply IH; [done| |done]. lia.
Qed.

Lemma start_sessions lf sf fresh st st' s cfg :
  Pairing.open lf sf fresh st = (st', Ok s) →
  sessions_ok (deployment_start cfg s) ∧ revocations (pairing (deployment_start cfg s)) = 0%N.
Proof.
  intros (ps & Ho & _)%open_cases. split.
  - intros n task Hn. simpl in Hn. by apply lookup_empty_Some in Hn.
  - simpl. unfold open_with in Ho. destruct (match stored_identities ps with Some _ => _ | None => _ end);
      [|done]. cbn in Ho. by injection Ho as <-.
Qed.

(** A session of another client than the paired one leaves the service alone. *)
Lemma stranger_session_turn n i d d' x ch :
  turn (DServer (TSession n i)) d = Some d' → sessions (server d) !! n = Some (Adapting x ch) →
  paired_id (pairing d) ≠ Some (Session.client_id (established x)) →
  Pairing.state (pairing d') = Pairing.state (pairing d)
  ∧ identities (pairing d') = identities (pairing d)
  ∧ revocations (pairing d') = revocations (pairing d).
Proof.
  intros Ht Hn Hid. destruct (deployment_turn_ops _ _ _ _ _ _ Ht) as (ops & os & Hp & _ & Hlen & HP).
  destruct ops as [|op [|? ?]]; simpl in Hp, Hlen; [by injection Hp as <- _|revert Hp|lia].
  destruct (PairingProps.perform op (pairing d)) as [s1 o] eqn:E. intros [= -> <-].
  apply perform_cases in E as [(_ & Htg & _)|(_ & Hsame)]; [|done].
  inversion_clear HP as [|? ? (x' & ch' & Hn' & Hop) _]. rewrite Hn in Hn'. injection Hn' as <- <-.
  exfalso. revert Htg. unfold target, paired_id in *.
  destruct op; try done; destruct Hop as [-> _];
    destruct (client (Pairing.state (pairing d))) as [c|]; try done;
    (case_decide as Hc; [|done]); intros _; destruct Hid; simpl; f_equal; by (apply Hc || destruct Hc).
Qed.

(** C7: a session acts for the paired client, or its revocation is pending and it
    can no longer touch the pairing.  In every run of the server of less than
    [2 ^ 64] turns, a session that is adapted to the broker belongs to the client
    that is paired at that moment; or it belongs to another, and then the
    revocation is pending for it: its loop can take it at once, which ends the
    session and takes it from the broker, and whatever the loop takes instead
    (the [select!] is fair to all its branches), nothing the session does changes
    the pairing, the published identities or the revocations. *)
Theorem sessions_act_for_the_paired_client lf sf fresh st st' s cfg turns d n x ch :
  Pairing.open lf sf fresh st = (st', Ok s) → (len turns < 2 ^ 64)%N →
  run turns (deployment_start cfg s) = Some d →
  sessions (server d) !! n = Some (Adapting x ch) →
  paired_id (pairing d) = Some (Session.client_id (established x))
  ∨ paired_id (pairing d) ≠ Some (Session.client_id (established x))
    ∧ (∃ d', turn (DServer (TSession n Revoked)) d = Some d'
          ∧ sessions (server d') !! n
            = Some (Leaving [CmdDisconnected (session_id (established x))] ch))
    ∧ ∀ i d', turn (DServer (TSession n i)) d = Some d' →
        Pairing.state (pairing d') = Pairing.state (pairing d)
        ∧ identities (pairing d') = identities (pairing d)
        ∧ revocations (pairing d') = revocations (pairing d).
Proof.
  intros Ho Hlen Hrun Hn. destruct (start_sessions _ _ _ _ _ _ cfg Ho) as [Hok0 Hr0].
  apply run_sessions in Hrun as Hok; [|done|lia].
  destruct (Hok n _ Hn) as (Ha & g & Hg & _ & Hid). simpl in Ha.
  destruct (decide (paired_id (pairing d) = Some (Session.client_id (established x)))) as [|Hne];
    [by left|right]. destruct (Hid _ eq_refl) as [Hlt|?]; [|done].
  split_and!; [done| |intros i d' Ht; by eapply stranger_session_turn].
  cbn [deployment_turn allowed server_turn]. rewrite Hg. unfold revocation_pending.
  rewrite (proj2 (N.eqb_neq _ _)) by lia. cbn [negb]. unfold session_turn. rewrite Hn.
  cbn [session_input run_authenticated_step]. unfold run_authenticated_step. cbn. rewrite Ha. cbn.
  eexists. split; [done|]. cbn. by rewrite lookup_insert_eq.
Qed.

(** ** Wakes *)

Lemma wakes_of_app l1 l2 : wakes_of (l1 ++ l2) = wakes_of l1 ++ wakes_of l2.
Proof. apply omap_app. Qed.
Lemma elem_of_wakes l wk : wk ∈ wakes_of l ↔ Woken wk ∈ l.
Proof.
  unfold wakes_of. rewrite list_elem_of_omap. split.
  - intros (h & Hh & E). destruct h; try done. by injection E as ->.
  - intros Hh. by eexists.
Qed.

Lemma wakes_of_none es : (∀ wk, Woken wk ∉ es) → wakes_of es = [].
Proof.
  intros Hes. destruct (wakes_of es) as [|wk l] eqn:E; [done|]. destruct (Hes wk).
  apply elem_of_wakes. rewrite E. apply list_elem_of_here.
Qed.

(** Only the running broker wakes, and it does not start again. *)
Lemma server_turn_wakes t (s s' : Server) :
  server_turn capacity vapid t s = Some s' →
  (broker_runs s' = true → broker_runs s = true)
  ∧ ∃ ws, wakes_of (drop (length (log s)) (log s')) = ws ∧ wakes_of (log s') = wakes_of (log s) ++ ws
          ∧ (broker_runs s = true ∨ ws = []).
Proof.
  intros Ht. destruct (server_turn_log _ _ _ _ _ Ht) as (es & E & Hes).
  rewrite E, drop_app_length, wakes_of_app.
  destruct (server_turn_apart _ _ _ _ _ Ht) as [[i ->]|(Hne & Eb & _)].
  - assert (broker_runs s = true) as Hb.
    { simpl in Ht. unfold broker_turn, run_broker_step in Ht. unfold broker_runs.
      destruct (broker_input i s); [|done]. by destruct (BrokerTask.running (broker s)). }
    split; [done|]. eauto.
  - rewrite (wakes_of_none es).
    2: { intros wk Hw. rewrite Forall_forall in Hes. specialize (Hes _ Hw). destruct t; try done.
         by eapply Hne. }
    unfold broker_runs. rewrite Eb. split; [done|]. exists []. split_and!; [done..|by right].
Qed.

(** The push service keeps up with the broker. *)
Record push_ok (sent : list WakeRequest) (open : bool) (c : Coalescer) : Prop := {
  po_tracks : tracks sent c;
  po_receives : senders c = true → phase c ≠ Stopped;
  po_senders : open = true → senders c = true;
}.

Lemma send_wakes ws sent c :
  push_ok sent true c → push_ok (sent ++ ws) true (foldl send_wake c ws).
Proof.
  revert sent c. induction ws as [|wk ws IH]; intros sent c Hc; simpl; [by rewrite app_nil_r|].
  rewrite cons_middle, app_assoc. apply IH. destruct Hc as [Ht Hr Hs].
  specialize (Hs eq_refl). specialize (Hr Hs).
  assert (∃ c', push_step (WakeSent wk) c = Some c' ∧ senders c' = true ∧ phase c' ≠ Stopped)
    as (c' & E & Hs' & Hp').
  { unfold push_step. rewrite Hs. destruct (phase c) eqn:Ep; try done; eexists; (split; [done|]); simpl;
      try by rewrite ?Ep. unfold receive. simpl. by destruct (channel c). }
  pose proof (push_step_tracks _ _ _ _ Ht E). unfold send_wake. by rewrite E.
Qed.

Lemma push_ok_closed sent open open' c :
  (open' = true → open = true) → push_ok sent open c → push_ok sent open' c.
Proof. intros Ho [Ht Hr Hs]. split; auto. Qed.

Lemma push_turn_step ev d c :
  push_turn ev d = Some c → push_step ev (push d) = Some c ∧ sent_by ev = [].
Proof.
  destruct ev; simpl; intros Hp; [done|by destruct (broker_runs _)|done|by destruct (subscription_read d)].
Qed.

Lemma push_turn_ok ev d c sent :
  push_ok sent (broker_runs (server d)) (push d) → push_turn ev d = Some c →
  push_ok sent (broker_runs (server d)) c.
Proof.
  intros [Ht Hr Hs] Hp.
  destruct (push_turn_step _ _ _ Hp) as [E Esent].
  split.
  - apply (push_step_tracks _ _ _ _ Ht) in E. by rewrite Esent, app_nil_r in E.
  - revert E. unfold push_step, receive. destruct ev; repeat case_match; intros; by simplify_eq/=.
  - intros Hb. rewrite Hb in *. specialize (Hs eq_refl).
    revert E. destruct ev; simpl in Hp; [done|by rewrite Hb in Hp|..]; unfold push_step, receive;
      repeat case_match; intros; simplify_eq/=; congruence.
Qed.

Definition wakes_ok (d : Deployment) : Prop :=
  push_ok (wakes_of (log (server d))) (broker_runs (server d)) (push d).

Lemma after_wakes t s d :
  wakes_ok d → server_turn capacity vapid t (server d) = Some s → wakes_ok (after t s d).
Proof.
  intros Hok Ht. destruct (server_turn_wakes _ _ _ Ht) as (Hb & ws & Hd & Hw & Hrun).
  unfold wakes_ok in *. simpl. rewrite Hd, Hw. apply (push_ok_closed _ (broker_runs (server d))); [done|].
  destruct Hrun as [E| ->]; [|by rewrite app_nil_r]. rewrite E in *. by apply send_wakes.
Qed.

Lemma run_wakes turns d d' : wakes_ok d → run turns d = Some d' → wakes_ok d'.
Proof.
  revert d. induction turns as [|t turns IH]; intros d Hd; cbn [deployment_run]; [by intros [= <-]|].
  case_decide; [|done]. intros (d1 & H1 & H2)%bind_Some. eapply IH; [|done].
  destruct t as [t|faults received writes|ev|]; cbn [deployment_turn] in H1.
  - destruct (allowed t d); [|done]. apply bind_Some in H1 as (s & Hs & [= <-]). by apply after_wakes.
  - apply bind_Some in H1 as (s & Hs & [= <-]). by apply after_wakes.
  - apply bind_Some in H1 as (c & Hc & [= <-]). exact (push_turn_ok _ _ _ _ Hd Hc).
  - apply bind_Some in H1 as (l & _ & [= <-]). exact Hd.
Qed.

(** The reasons of a wake were given by local clients. *)
Lemma woken_reasons cfg s turns d request x :
  run turns (deployment_start cfg s) = Some d → request ∈ wakes_of (log (server d)) →
  x ∈ reasons request →
  ∃ n t packet c, Server.Accepted n t packet (Some c) ∈ log (server d) ∧ reason c = x.
Proof.
  intros Hrun Hw%elem_of_wakes Hx. destruct (deployment_run_server _ _ _ _ _ _ Hrun) as [turns' Hs].
  pose proof (server_run_ok _ _ _ _ _ (server_start_ok cfg (s : Authority)) Hs) as Hok.
  pose proof (lo_justified _ (so_log _ Hok)) as Hj.
  destruct (justified_by_log _ _ Hj Hw x Hx) as (id & r & c & Hadm & Hc & Hr).
  destruct (justified_by_log _ _ Hj Hadm) as (n & Hacc). rewrite Hc in Hacc. by eauto 6.
Qed.

(** What the subscription was read for is published, or is being published. *)
Definition being_published (c : Coalescer) (l : list WakeRequest) : Prop :=
  l = published c ∨ ∃ request, phase c = Publishing request ∧ l = published c ++ [request].

Lemma being_published_outlook c l : being_published c l → l ⊆ outlook c.
Proof.
  unfold outlook. intros [->|(r & -> & ->)]; simpl; set_solver.
Qed.

Lemma send_wakes_published ws c l :
  being_published c l → being_published (foldl send_wake c ws) l.
Proof.
  revert c. induction ws as [|wk ws IH]; intros c Hc; [done|]. simpl. apply IH. clear IH.
  unfold send_wake, push_step, receive, being_published in *.
  destruct (phase c) eqn:Ep; repeat case_match; simpl; rewrite ?Ep; naive_solver.
Qed.

(** ** Where a subscription comes from *)

(** The client in the slot is [id], and its subscription is [p]. *)
Definition subscribed_as (s : PairingService) (id : Uuid) (p : PushSubscription) : Prop :=
  ∃ c, client (Pairing.state s) = Some c ∧ Pairing.client_id c = id ∧ push_subscription c = Some p.

(** The message with which a client sets its subscription. *)
Definition subscribes (p : PushSubscription) : ClientMessage :=
  SetPushSubscription (endpoint p) (expiration_time p) (p256dh p) (auth p).

(** [id] had that subscription when the server started, or its session has sent
    it since. *)
Definition asked_for (s : PairingService) (l : list Happened) (id : Uuid) (p : PushSubscription) : Prop :=
  subscribed_as s id p ∨ ∃ k e, Heard k e (subscribes p) ∈ l ∧ Session.client_id e = id.

Lemma asked_for_mono s l l' id p : l ⊆ l' → asked_for s l id p → asked_for s l' id p.
Proof. intros Hl [?|(k & e & Hin & ?)]; [by left|right; exists k, e; auto]. Qed.

Lemma client_message_heard n e i m : client_message i = Some m → heard_events n e i = [Heard n e m].
Proof.
  unfold client_message, heard_events. destruct i as [|env [[]|] accepted| | |]; try done.
  by intros ->%ok_Some.
Qed.

Lemma session_turn_heard n i (s s' : Server) x ch m :
  session_turn n i s = Some s' → sessions s !! n = Some (Adapting x ch) →
  client_message i = Some m → Heard n (established x) m ∈ log s'.
Proof.
  unfold session_turn. intros Ht Hn Hm. rewrite Hn in Ht.
  destruct (session_input i ch s) as [boxes|]; [|done].
  destruct (run_authenticated_step i _) as [[x' acts]|]; [|done].
  rewrite (client_message_heard _ _ _ _ Hm) in Ht.
  destruct (alive x'); [apply post_session_some in Ht as ->|injection Ht as <-]; simpl; set_solver.
Qed.

Lemma turn_log t d d' : turn t d = Some d' → log (server d) ⊆ log (server d').
Proof.
  destruct t as [t|faults received writes|ev|]; cbn [deployment_turn].
  - destruct (allowed t d); [|done]. intros (s & Hs & [= <-])%bind_Some.
    destruct (server_turn_log _ _ _ _ _ Hs) as (es & E & _). simpl. rewrite E. set_solver.
  - by intros [= <-].
  - by intros (c & _ & [= <-])%bind_Some.
  - by intros (l & _ & [= <-])%bind_Some.
Qed.

Lemma run_log turns d d' : run turns d = Some d' → log (server d) ⊆ log (server d').
Proof.
  revert d. induction turns as [|t turns IH]; intros d; cbn [deployment_run]; [by intros [= <-]|].
  case_decide; [|done]. intros (d1 & H1 & H2)%bind_Some. etrans; [by eapply turn_log|by apply IH].
Qed.

(** A turn changes the subscription only for the client whose session sent it. *)
Lemma turn_subscription t d d' id p :
  turn t d = Some d' → subscribed_as (pairing d') id p →
  subscribed_as (pairing d) id p
  ∨ ∃ k e, Heard k e (subscribes p) ∈ log (server d') ∧ Session.client_id e = id.
Proof.
  intros Ht (c & Hc & Hid & Hp). unfold subscribed_as.
  destruct (deployment_turn_ops _ _ _ _ _ _ Ht) as (ops & os & Hpf & _ & Hlen & HP).
  destruct ops as [|op [|? ?]]; simpl in Hpf, Hlen;
    [injection Hpf as E <-; rewrite <- E in Hc; by eauto|revert Hpf|lia].
  destruct (PairingProps.perform op (pairing d)) as [s1 o] eqn:E. intros [= -> <-].
  inversion_clear HP as [|? ? Hop _].
  apply perform_cases in E as [(_ & Htg & _)|(_ & Es & _)]; [|rewrite Es in Hc; by eauto].
  unfold target in Htg. destruct op as [f|f fresh [cr|] tm l|f tm i cr|f i q|f i ids];
    destruct (client (Pairing.state (pairing d))) as [c0|] eqn:Ec; try done;
    try (case_decide as Hd; [|done]); injection Htg as E; rewrite <- E in Hc; simplify_eq/=; eauto.
  right. destruct t as [t| | |]; [|done..]. cbn [deployment_op] in Hop.
  destruct t as [| | | | | | | | |n j| | | |]; try done.
  destruct Hop as (x & ch & Hn & -> & Hm). exists n, (established x). split; [|done].
  cbn [deployment_turn] in Ht. destruct (allowed _ d); [|done].
  apply bind_Some in Ht as (s2 & Hs & [= <-]). by eapply session_turn_heard.
Qed.

Lemma subscription_origin cfg s turns d id p :
  run turns (deployment_start cfg s) = Some d → subscribed_as (pairing d) id p →
  asked_for s (log (server d)) id p.
Proof.
  revert d. induction turns as [|t turns IH] using rev_ind; intros d; [intros [= <-]; by left|].
  rewrite deployment_run_app. intros (d1 & H1 & H2)%bind_Some Hd. cbn [deployment_run] in H2.
  case_decide; [|done]. apply bind_Some in H2 as (d2 & H2 & [= <-]).
  destruct (turn_subscription _ _ _ _ _ H2 Hd) as [Hold|?]; [|by right].
  eapply asked_for_mono; [by eapply turn_log|by apply IH].
Qed.

(** The notifications of a turn: those there were, or the one whose subscription
    it reads. *)
Lemma turn_notifies t d d' sb r :
  turn t d = Some d' → (sb, r) ∈ notified d' →
  (sb, r) ∈ notified d
  ∨ t = DSubscription ∧ phase (push d) = Publishing r ∧ sb = service_push_subscription (pairing d).
Proof.
  destruct t as [t|faults received writes|ev|]; cbn [deployment_turn].
  - destruct (allowed t d); [|done]. intros (s & _ & [= <-])%bind_Some. by left.
  - intros (s & _ & [= <-])%bind_Some. by left.
  - intros (c & _ & [= <-])%bind_Some. by left.
  - unfold read_subscription. intros (l & Hl & [= <-])%bind_Some. simpl.
    destruct (phase (push d)) eqn:Ep; try done. destruct (subscription_read d); [done|].
    injection Hl as <-. intros [Hin|[= -> ->]%list_elem_of_singleton]%elem_of_app; [by left|by right].
Qed.

(** A notification was addressed to the client paired when its subscription was
    read, with a subscription that client had asked for. *)
Definition addressed_to (cfg : BrokerConfig) (s : PairingService) (turns : list DeploymentTurn)
    (p : PushSubscription) (request : WakeRequest) : Prop :=
  ∃ turns1 turns2 d1 c,
    turns = turns1 ++ DSubscription :: turns2 ∧ run turns1 (deployment_start cfg s) = Some d1
    ∧ phase (push d1) = Publishing request
    ∧ client (Pairing.state (pairing d1)) = Some c ∧ push_subscription c = Some p
    ∧ asked_for s (log (server d1)) (Pairing.client_id c) p.

Lemma notification_addressed cfg s turns d p request :
  run turns (deployment_start cfg s) = Some d → (Some p, request) ∈ notified d →
  addressed_to cfg s turns p request.
Proof.
  revert d. induction turns as [|t turns IH] using rev_ind; intros d;
    [intros [= <-] Hin; by apply not_elem_of_nil in Hin|].
  rewrite deployment_run_app. intros (d1 & H1 & H2)%bind_Some Hin. cbn [deployment_run] in H2.
  case_decide; [|done]. apply bind_Some in H2 as (d2 & H2 & [= <-]).
  destruct (turn_notifies _ _ _ _ _ H2 Hin) as [Hold|(-> & Hph & Hsb)].
  - destruct (IH _ H1 Hold) as (t1 & t2 & d3 & c & -> & ?).
    exists t1, (t2 ++ [t]), d3, c. by rewrite <- app_assoc.
  - symmetry in Hsb. unfold service_push_subscription in Hsb. apply bind_Some in Hsb as (c & Hc & Hp).
    exists turns, [], d1, c. split_and!; try done. eapply subscription_origin; [done|]. by exists c.
Qed.

(** The subscriptions came from accepted messages. *)
Definition subscription_ok (p : PushSubscription) : Prop :=
  within_limits (SetPushSubscription (endpoint p) (expiration_time p) (p256dh p) (auth p)).
Record notified_ok (d : Deployment) : Prop := {
  no_published : being_published (push d) (notified d).*2;
  no_subscriptions : ∀ p r, (Some p, r) ∈ notified d → subscription_ok p;
}.

Context `{!PairingStoreSpec S}.

Lemma service_subscription_ok s p :
  service_ok s → service_push_subscription s = Some p → subscription_ok p.
Proof.
  intros [_ Hs _]. unfold service_push_subscription.
  intros (c & Hc & Hp)%bind_Some. by apply (Hs c Hc).
Qed.

Lemma turn_notified t d d' :
  service_ok (pairing d) → notified_ok d → turn t d = Some d' → notified_ok d'.
Proof.
  intros Hsv [Hp Hn]. destruct t as [t|faults received writes|ev|]; cbn [deployment_turn].
  - destruct (allowed t d); [|done]. intros (s & _ & [= <-])%bind_Some.
    split; [by apply send_wakes_published|done].
  - intros (s & _ & [= <-])%bind_Some. split; [by apply send_wakes_published|done].
  - intros (c & Hc & [= <-])%bind_Some. split; [|done]. simpl.
    destruct (push_turn_step _ _ _ Hc) as [E _]. unfold being_published in *.
    destruct ev; simpl in Hc; [done|..]; revert E; unfold push_step, receive.
    + destruct (phase (push d)) eqn:Ep; repeat case_match; intros; simplify_eq/=; naive_solver.
    + destruct (phase (push d)) eqn:Ep; repeat case_match; intros; simplify_eq/=; naive_solver.
    + unfold subscription_read in Hc. case_bool_decide as Hl; [done|].
      destruct Hp as [Hp|(r & Ep & Hp)]; [by destruct Hl; rewrite <- Hp, length_fmap|].
      rewrite Ep, Hp. simpl. intros [= <-]. left. by destruct (channel (push d)).
  - unfold read_subscription. intros (l & Hl & [= <-])%bind_Some.
    destruct (phase (push d)) eqn:Ep; try done. destruct (subscription_read d) eqn:Es; [done|].
    apply negb_false_iff, bool_decide_eq_true in Es. injection Hl as <-. split; simpl.
    + right. exists request. split; [done|]. rewrite fmap_app. f_equal.
      destruct Hp as [->|(r & _ & Hp)]; [done|].
      apply (f_equal length) in Hp. rewrite length_fmap, length_app in Hp. simpl in Hp. lia.
    + intros p r [Hin|[= E _]%list_elem_of_singleton]%elem_of_app; [by eauto|].
      by eapply service_subscription_ok.
Qed.

Lemma run_notified turns d d' :
  service_ok (pairing d) → notified_ok d → run turns d = Some d' → notified_ok d'.
Proof.
  revert d. induction turns as [|t turns IH]; intros d Hs Hd; cbn [deployment_run];
    [by intros [= <-]|]. case_decide; [|done]. intros (d1 & H1 & H2)%bind_Some.
  eapply IH; [|by eapply turn_notified|done]. by eapply by_ops_ok, deployment_turn_ops.
Qed.

(** C9: the phone is woken for what local clients asked, and is told the news.
    In every run of the server on an opened store, what the push service has
    published are wakes of the broker, in the broker's order; whenever the
    service is at rest the last of them is the broker's latest; and a
    notification goes out only for such a wake, to the subscription of the client
    that is paired when the push service reads it, which has an HTTPS endpoint and
    well-formed keys and which that client, by its identifier, sent on its own
    session in this run or had in the store when the server started; and every
    reason in it was given by a local client with a request its connection had
    accepted. *)
Theorem published_wakes_were_asked_for lf sf fresh st st' s cfg turns d :
  stored_ok st → Pairing.open lf sf fresh st = (st', Ok s) →
  run turns (deployment_start cfg s) = Some d →
  sublist (published (push d)) (wakes_of (log (server d)))
  ∧ (at_rest (phase (push d)) = true → last (published (push d)) = last (wakes_of (log (server d))))
  ∧ ∀ subscription request, (subscription, request) ∈ notified d →
      request ∈ wakes_of (log (server d))
      ∧ (∀ p, subscription = Some p → subscription_ok p ∧ addressed_to cfg s turns p request)
      ∧ ∀ x, x ∈ reasons request →
          ∃ n t packet c, Server.Accepted n t packet (Some c) ∈ log (server d) ∧ reason c = x.
Proof.
  intros Hst Ho Hrun.
  assert (wakes_ok (deployment_start cfg s)) as H0 by (split; [apply start_tracks|done..]).
  destruct (run_wakes _ _ _ H0 Hrun) as [Ht _ _].
  apply run_notified in Hrun as Hno;
    [|by eapply open_ok|split; [by left|by intros ? ? ?%not_elem_of_nil]]. destruct Hno as [Hpub Hsub].
  split_and!; [by apply tracks_published|by apply tracks_rest|]. intros sb request Hin.
  assert (request ∈ wakes_of (log (server d))) as Hw.
  { eapply elem_of_sublist; [|apply Ht]. apply (being_published_outlook _ _ Hpub).
    apply list_elem_of_fmap. by exists (sb, request). }
  split_and!; [done|intros p ->; split; [exact (Hsub _ _ Hin)|by eapply notification_addressed]|]. intros x Hx. by eapply woken_reasons.
Qed.
End props.

(** ** A concrete deployment *)

Section sample.
#[local] Existing Instances memory_store sample_digest sample_codecs sample_remote hex_uuid_text
  sample_framing sample_request_json sample_response_json authority.

Definition sample_wake : WakeRequest := {| reasons := [byte_string "Push the release"] |}.

Lemma published_wakes_were_asked_for_witness :
  (∃ k e, Heard k e (subscribes sample_subscription) ∈ log (server sample_deployment))
  ∧ ∃ n t packet c, Server.Accepted n t packet (Some c) ∈ log (server sample_deployment)
                    ∧ reason c = byte_string "Push the release".
Proof.
  destruct (proj2 (proj2 (published_wakes_were_asked_for (S := memory_store) (λ _, []) 4 [] tt tt 77
    None _ sample_service sample_server_config sample_deployment_turns sample_deployment
    empty_store_ok sample_service_opens sample_deployment_runs))
    (Some sample_subscription) sample_wake) as (_ & Hp & Hr).
  - apply (list_elem_of_lookup_2 _ 0). by vm_compute.
  - split; [|apply Hr; apply list_elem_of_here].
    destruct (Hp _ eq_refl) as [_ (t1 & t2 & d1 & c & Et & Hd1 & _ & _ & _ & Hasked)].
    assert (log (server d1) ⊆ log (server sample_deployment)) as Hl.
    { pose proof sample_deployment_runs as Hrun. rewrite Et in Hrun.
      rewrite deployment_run_app in Hrun. apply bind_Some in Hrun as (d2 & H2 & H3).
      rewrite Hd1 in H2. injection H2 as <-. by eapply run_log. }
    destruct Hasked as [(c0 & Hc0 & _)|(k & e & Hk & _)]; [vm_compute in Hc0; discriminate|].
    exists k, e. by apply Hl.
Defined.

(** An operator clears the pairing while the phone is connected. *)
Definition clearing_turns : list DeploymentTurn :=
  sample_deployment_turns ++ [DControl tt (default [] (ok clear_request)) true].
Definition cleared_run : option Deployment :=
  deployment_run (λ _, []) 4 [] clearing_turns sample_deployment_start.
Definition cleared_deployment : Deployment := default sample_deployment_start cleared_run.

Lemma cleared_runs :
  deployment_run (λ _, []) 4 [] clearing_turns
    (deployment_start sample_server_config sample_service) = Some cleared_deployment.
Proof.
  change (cleared_run = Some cleared_deployment).
  assert (match cleared_run with Some _ => true | None => false end = true) as H by by vm_compute.
  unfold cleared_deployment. by destruct cleared_run.
Qed.

Lemma cleared_session_adapts :
  ∃ x, sessions (server cleared_deployment) !! 1 = Some (Adapting x 51)
       ∧ session_id (established x) = 102%N.
Proof.
  assert (match sessions (server cleared_deployment) !! 1 with
          | Some (Adapting x ch) => bool_decide (ch = 51%N ∧ session_id (established x) = 102%N)
          | _ => false
          end = true) as H by by vm_compute.
  destruct (sessions (server cleared_deployment) !! 1) as [[| | |x ch| |]|]; try done.
  apply bool_decide_eq_true in H as [-> E]. by exists x.
Qed.

Lemma sessions_act_for_the_paired_client_witness :
  paired_id (pairing cleared_deployment) = None
  ∧ ∃ d', deployment_turn (λ _, []) 4 [] (DServer (TSession 1 Revoked)) cleared_deployment = Some d'
          ∧ sessions (server d') !! 1 = Some (Leaving [CmdDisconnected 102] 51).
Proof.
  assert (paired_id (pairing cleared_deployment) = None) as Hnone by by vm_compute.
  destruct cleared_session_adapts as (x & Hx & Ex). split; [done|].
  destruct (sessions_act_for_the_paired_client (S := memory_store) (λ _, []) 4 [] tt tt 77 None _
    sample_service sample_server_config clearing_turns cleared_deployment 1 x 51
    sample_service_opens ltac:(by vm_compute) cleared_runs Hx) as [H|(_ & H & _)].
  - by rewrite Hnone in H.
  - by rewrite Ex in H.
Defined.
End sample.
