(* ===== verification/DeploymentOrigin.v ===== *)
(** * DeploymentOrigin: who can answer, traced to a credential

    Follows the pairing slot of [Deployment] through a run: the client in it was
    stored before the server started, or was paired in this run into an empty
    slot.  With the origin of answers in [ServerProps] this says who a local
    client's successful answer can come from. *)

From S2P Require Import Prelude Bytes Utf8 Packet ContextCodec ContextCodecProps PacketProps RequestRouter RequestRouterProps Listener Assoc BrokerModel BrokerTask BrokerHandle BrokerTaskProps Pairing PairingProps Protocol Session SessionProps System Control ControlProps Push PushProps Server ServerProps Deployment DeploymentProps.

Section props.
Context `{S : PairingStore} `{D : Digest} `{L : SshAgentLib} `{C : RemoteCodecs} `{U : UuidText}.
Context `{F : Framing} `{JR : Json ControlRequest} `{JA : Json ControlResponse}.
Context (describe : StoreError → rstring).
Context (capacity : N) (vapid : bytes).

#[local] Existing Instance authority.

Abbreviation turn := (deployment_turn describe capacity vapid).
Abbreviation run := (deployment_run describe capacity vapid).

(** ** Handshakes and credentials *)

(** In the run [turns] session [k] received [message] first, in the state [d1]. *)
Definition greeted (d0 : Deployment) (turns : list DeploymentTurn) (k : nat) (env : AuthorityEnv)
    (message : ClientMessage) (before : list DeploymentTurn) (d1 : Deployment) : Prop :=
  ∃ received rest, turns = before ++ DServer (TGreet k env received) :: rest
    ∧ run before d0 = Some d1 ∧ receive_client received = Some message.

(** The slot holds a client and the hash of its credential. *)
Definition slot_holds (s : PairingService) (id : Uuid) (hash : bytes) : Prop :=
  ∃ c, client (Pairing.state s) = Some c ∧ Pairing.client_id c = id ∧ credential_hash c = hash.

(** A client paired into an empty slot and got a new credential. *)
Definition paired_in (d0 : Deployment) (turns : list DeploymentTurn) (k : nat) (id : Uuid)
    (credential : bytes) : Prop :=
  ∃ env label before d1, greeted d0 turns k env (PairRequest label) before d1
    ∧ client (Pairing.state (pairing d1)) = None
    ∧ env_fresh env = id ∧ env_credential env = Some credential.

Lemma greeted_app d0 turns t k env m b d1 :
  greeted d0 turns k env m b d1 → greeted d0 (turns ++ [t]) k env m b d1.
Proof.
  intros (received & rest & -> & ? & ?). exists received, (rest ++ [t]). by rewrite <- app_assoc.
Qed.
Lemma greeted_now d0 turns k env received m d1 :
  run turns d0 = Some d1 → receive_client received = Some m →
  greeted d0 (turns ++ [DServer (TGreet k env received)]) k env m turns d1.
Proof. by exists received, []. Qed.

(** ** The slot *)

Lemma turn_slot t d d' id hash :
  turn t d = Some d' → slot_holds (pairing d') id hash →
  slot_holds (pairing d) id hash
  ∨ ∃ k env received label credential, t = DServer (TGreet k env received)
      ∧ receive_client received = Some (PairRequest label)
      ∧ client (Pairing.state (pairing d)) = None
      ∧ env_fresh env = id ∧ env_credential env = Some credential ∧ hash = sha256 credential.
Proof.
  intros Ht (c & Hc & Hid & Hh). unfold slot_holds.
  destruct (deployment_turn_ops _ _ _ _ _ _ Ht) as (ops & os & Hp & _ & Hlen & HP).
  destruct ops as [|op [|? ?]]; simpl in *; [injection Hp as E <-; rewrite <- E in Hc; by eauto|revert Hp|lia].
  destruct (PairingProps.perform op (pairing d)) as [s1 o] eqn:E. intros [= -> <-].
  inversion_clear HP as [|? ? Hop _].
  apply perform_cases in E as [(_ & Htg & _)|(_ & Es & _)]; [|rewrite Es in Hc; by eauto].
  unfold target in Htg. destruct op as [f|f fresh [cr|] tm l|f tm i cr|f i p|f i ids];
    destruct (client (Pairing.state (pairing d))) as [c0|] eqn:Ec; try done;
    try (case_decide; [|done]); injection Htg as E; rewrite <- E in Hc; simplify_eq/=; eauto.
  right. destruct t as [[]| | |]; try done; [|by destruct Hop as (? & ? & _ & ?)].
  destruct Hop as [[= -> -> Hcr -> ] Hr]. by eauto 12.
Qed.

(** The client in the slot was stored at the start or paired in this run. *)
Lemma slot_origin cfg s turns d id hash :
  run turns (deployment_start cfg s) = Some d → slot_holds (pairing d) id hash →
  slot_holds s id hash
  ∨ ∃ k credential, paired_in (deployment_start cfg s) turns k id credential
      ∧ hash = sha256 credential.
Proof.
  revert d. induction turns as [|t turns IH] using rev_ind; intros d; [intros [= <-]; by left|].
  rewrite deployment_run_app. intros (d1 & H1 & H2)%bind_Some Hd. simpl in H2.
  case_decide; [|done]. apply bind_Some in H2 as (d2 & H2 & [= <-]).
  destruct (turn_slot _ _ _ _ _ H2 Hd)
    as [Hold|(k & env & received & label & cr & -> & Hr & Hn & <- & Hcr & ->)].
  - destruct (IH _ H1 Hold) as [?|(k & cr & (env & label & b & d3 & Hg & ?) & ?)]; [by left|right].
    exists k, cr. split; [|done]. exists env, label, b, d3. split; [by apply greeted_app|done].
  - right. exists k, cr. split; [|done]. exists env, label, turns, d1.
    split; [by apply greeted_now|done].
Qed.

(** ** Granted handshakes *)

Lemma granted_greeted cfg s turns d k m au :
  run turns (deployment_start cfg s) = Some d → Granted k m au ∈ log (server d) →
  ∃ env b d1 s1, greeted (deployment_start cfg s) turns k env m b d1
    ∧ authorize env m (pairing d1) = (s1, Some (Ok au)).
Proof.
  revert d. induction turns as [|t turns IH] using rev_ind; intros d;
    [intros [= <-] Hin; by apply not_elem_of_nil in Hin|].
  rewrite deployment_run_app. intros (d1 & H1 & H2)%bind_Some Hin. simpl in H2.
  case_decide as Hfr; [|done]. apply bind_Some in H2 as (d2 & H2 & [= <-]).
  assert (Granted k m au ∈ log (server d1) ∨ ∃ t', t = DServer t' ∧ recorded t' (server d1) (Granted k m au))
    as [Hold|(t' & -> & Hrec)].
  { clear IH H1 Hfr. destruct t as [t|faults received writes|ev|]; simpl in H2.
    - destruct (allowed t d1); [|done]. apply bind_Some in H2 as (s2 & H2 & [= <-]).
      destruct (server_turn_log _ _ _ _ _ H2) as (es & E & Hes). simpl in Hin. rewrite E in Hin.
      rewrite Forall_forall in Hes. apply elem_of_app in Hin as [?|?%Hes]; [by left|right; by eauto].
    - injection H2 as <-. by left.
    - apply bind_Some in H2 as (c & _ & [= <-]). by left.
    - apply bind_Some in H2 as (l & _ & [= <-]). by left. }
  - destruct (IH _ H1 Hold) as (env & b & d3 & s3 & Hg & Ha). exists env, b, d3, s3.
    split; [by apply greeted_app|done].
  - destruct t' as [| | | | | |n env received| | | | | | |]; try done.
    destruct Hrec as (-> & Hr & s1 & Ha). exists env, turns, d1, s1. split; [by apply greeted_now|done].
Qed.

(** What a client showed whose handshake was authorized. *)
Lemma authorized_credential env m (s s1 : PairingService) au :
  authorize env m s = (s1, Some (Ok au)) →
  (∃ label credential, m = PairRequest label ∧ client (Pairing.state s) = None
     ∧ env_fresh env = authorized_client au ∧ env_credential env = Some credential)
  ∨ ∃ credential, m = Authenticate (authorized_client au) credential
      ∧ slot_holds s (authorized_client au) (sha256 credential).
Proof.
  destruct m; simpl; try done.
  - destruct (pair _ _ _ _ _ s) as [s2 r] eqn:E. intros [= <- ->]. left.
    unfold pair, replace_state in E. repeat case_match; simplify_eq/=; by eauto 8.
  - destruct (authenticate _ _ _ _ s) as [s2 r] eqn:E. intros [= <- ->]. right. revert E.
    unfold authenticate, replace_state, slot_holds.
    destruct (client (Pairing.state s)) as [c|]; [|done].
    case_bool_decide as Hid; [|done]. case_bool_decide as Hcr; [|done]. simpl.
    repeat case_match; intros; simplify_eq/=; by eauto 8.
Qed.
(** ** Theorem *)

(** C6: a local client's request is only answered by a holder of the pairing
    credential.  In every run of the deployed server, whatever connects to it
    over the network: if a local client is written a successful answer, a session
    heard that answer from its client before, after it had been opened for it,
    and the first message of that client paired it into the then empty slot, or
    carried the identifier of the client that was then paired and a credential
    with the stored hash; and that hash is of the credential minted when the
    client was paired earlier in this run, or was stored before the server was
    started. *)
Theorem answers_need_the_credential cfg s turns d n t answer :
  run turns (deployment_start cfg s) = Some d → Answered n t (Ok answer) ∈ log (server d) →
  ∃ k ch e au id att,
    before (log (server d)) (Opened k ch e au) (Heard k e (AgentResponse id att answer))
    ∧ before (log (server d)) (Heard k e (AgentResponse id att answer)) (Answered n t (Ok answer))
    ∧ ((∃ credential, paired_in (deployment_start cfg s) turns k (client_id e) credential)
       ∨ ∃ env credential earlier d1,
           greeted (deployment_start cfg s) turns k env (Authenticate (client_id e) credential)
             earlier d1
           ∧ slot_holds (pairing d1) (client_id e) (sha256 credential)
           ∧ (slot_holds s (client_id e) (sha256 credential)
              ∨ ∃ k' minted, paired_in (deployment_start cfg s) earlier k' (client_id e) minted
                             ∧ sha256 credential = sha256 minted)).
Proof.
  intros Hrun Hin. destruct (deployment_run_server _ _ _ _ _ _ Hrun) as [turns' Hs].
  pose proof (server_run_ok _ _ _ _ _ (server_start_ok cfg (s : Authority)) Hs) as Hok.
  destruct (answer_origin _ _ _ _ Hok Hin)
    as (p & x & k & ch & e & au & m & id & att & req & dl & Hcl & Hgr%before_in & Hop & _ & _ & Hh).
  exists k, ch, e, au, id, att. split_and!; [done..|]. rewrite Hcl.
  destruct (granted_greeted _ _ _ _ _ _ _ Hrun Hgr) as (env & b & d1 & s1 & Hg & Ha).
  destruct (authorized_credential _ _ _ _ _ Ha)
    as [(label & cr & -> & Hn & Hf & Hcr)|(cr & -> & Hsl)].
  - left. exists cr, env, label, b, d1. done.
  - right. exists env, cr, b, d1. split_and!; [done..|]. destruct Hg as (received & rest & _ & Hb & _).
    by eapply slot_origin.
Qed.
End props.

(** ** A concrete deployment *)

Section sample.
#[local] Existing Instances memory_store sample_digest sample_codecs sample_remote hex_uuid_text
  sample_framing sample_request_json sample_response_json authority.

(** The phone that came back answers the request, and the local client is written
    what it asked for. *)
Definition answering_turns : list DeploymentTurn :=
  sample_deployment_turns ++
  [DServer (TSession 1 (FromBroker
     (Some (RemoteRequest 1 1 1000000 1000000 sign_request (Some sample_context))) true));
   DServer (TSession 1 (FromClient sample_env (Some (Binary (Byte.x03 :: signature))) true));
   DServer (TBroker (InCommand (CmdResponse 102 1 1 signature) 103 5));
   DServer (TConnection 0 true (ResponseDone (Ok AGENT_SUCCESS_FRAME)));
   DServer (TConnection 0 true (ResponseDone (Ok signature)))].
Definition answered_run : option Deployment :=
  deployment_run (λ _, []) 4 [] answering_turns sample_deployment_start.
Definition answered_deployment : Deployment := default sample_deployment_start answered_run.

Lemma answered_runs :
  deployment_run (λ _, []) 4 [] answering_turns
    (deployment_start sample_server_config sample_service) = Some answered_deployment.
Proof.
  change (answered_run = Some answered_deployment).
  assert (match answered_run with Some _ => true | None => false end = true) as H by by vm_compute.
  unfold answered_deployment. by destruct answered_run.
Qed.

Lemma answered_logged : Answered 0 7 (Ok signature) ∈ log (server answered_deployment).
Proof. apply (list_elem_of_lookup_2 _ 18). by vm_compute. Qed.

Lemma answers_need_the_credential_witness :
  ∃ k ch e au id att,
    before (log (server answered_deployment)) (Opened k ch e au)
      (Heard k e (AgentResponse id att signature))
    ∧ before (log (server answered_deployment)) (Heard k e (AgentResponse id att signature))
        (Answered 0 7 (Ok signature)).
Proof.
  destruct (answers_need_the_credential (S := memory_store) (λ _, []) 4 [] sample_server_config
    sample_service answering_turns answered_deployment 0 7 signature answered_runs answered_logged)
    as (k & ch & e & au & id & att & Ho & Hh & _).
  exact (ex_intro _ k (ex_intro _ ch (ex_intro _ e (ex_intro _ au (ex_intro _ id
    (ex_intro _ att (conj Ho Hh))))))).
Defined.
End sample.
