(* ===== verification/Cli.v ===== *)
(** * Cli: the command line

    Models [crates/server/src/cli.rs]: the commands, [write-context] with the
    bytes it writes, [serve] and [pairing clear] with its confirmation, and the
    logging they set up.  Parsing the arguments ([clap]) is not modelled: what it
    produces, the environment, the terminal, and how the daemon and the control
    client end are arguments.

    The theorems tie the commands to the parts of the server they talk to. *)

From S2P Require Import Prelude Bytes Utf8 Packet ContextCodec ContextCodecProps PacketProps RequestRouter RequestRouterProps Pairing PairingProps System Control ControlProps Config ConfigProps Text.

(** ** Commands *)

Record ServeArgs := {
  serve_unix_socket : option Path;
  serve_request_timeout : option N;
}.

Record WriteContextArgs := {
  args_reason : rstring;
  args_group_id : option Uuid;
  args_argv : list rstring;
}.

Record ClearPairingArgs := { yes : bool }.

Inductive CliCommand :=
| Serve (args : ServeArgs)
| WriteContext (args : WriteContextArgs)
| PairingClearCommand (args : ClearPairingArgs).

Record Cli := {
  cli_config : option Path;
  cli_control_socket : option Path;
  cli_command : CliCommand;
}.

Inductive CliError :=
| InvalidContextArgs (error : ContextError)
| CouldNotWriteContext
| CouldNotFlushContext
| ConfigurationUnreadable
| ConfigurationInvalid (error : ConfigError)
| LoggingFailed
| DaemonFailed
| NoConfirmation
| TerminalFailed
| NotCleared
| ControlFailed (error : ConnectionError).

(** What a command does to the world, in order. *)
Inductive CliAction :=
| Stdout (b : bytes)
| SentryStarted (dsn : rstring)
| Subscribed (filter : rstring) (sentry_layer : bool)
| Daemon (c : Config)
| ContactControl (p : Path).

(** ** [write-context] *)

Section write_context.
Context `{U : UuidText}.

(** The context described by the arguments, with the UUID drawn for it. *)
Definition context_of_args (fresh_id : Uuid) (args : WriteContextArgs) : RequestContext :=
  {| group_id := default fresh_id (args_group_id args); reason := args_reason args;
     command := args_argv args |}.

(** [write_context]; a failing write may have written a prefix of the packet. *)
Definition write_context (fresh_id : Uuid) (write_fails : option nat) (flushes : bool)
    (args : WriteContextArgs) :
    list CliAction * result unit CliError :=
  match ContextCodec.encode (context_of_args fresh_id args) with
  | Err e => ([], Err (InvalidContextArgs e))
  | Ok packet =>
      match write_fails with
      | Some n => ([Stdout (take n packet)], Err CouldNotWriteContext)
      | None =>
          if negb flushes then ([Stdout packet], Err CouldNotFlushContext)
          else ([Stdout packet], Ok tt)
      end
  end.
End write_context.

(** ** Logging *)

(** The filter the environment gives, if it gives a valid one, and whether the
    process already has a global subscriber. *)
Record Logging := {
  env_filter : option rstring;
  subscriber_set : bool;
}.

Definition has_dsn (dsn : option rstring) : bool :=
  match dsn with Some _ => true | None => false end.

(** [init_tracing]: Sentry is started if there is a DSN, and its layer installed
    with the others; what is returned keeps it running. *)
Definition init_tracing (l : Logging) (sentry_dsn : option rstring) :
    list CliAction * result (option rstring) CliError :=
  let filter := default (byte_string "agent_witness_server=info") (env_filter l) in
  let started := match sentry_dsn with Some dsn => [SentryStarted dsn] | None => [] end in
  if subscriber_set l then (started, Err LoggingFailed)
  else (started ++ [Subscribed filter (has_dsn sentry_dsn)], Ok sentry_dsn).

(** ** [serve] *)

Section serve.
Context `{F : Figment} `{Sentry}.

(** The overrides of [serve] and of [pairing clear]. *)
Definition serve_overrides (control : option Path) (args : ServeArgs) : ConfigOverrides :=
  {| override_control_socket := control; override_unix_socket := serve_unix_socket args;
     override_request_timeout := serve_request_timeout args |}.
Definition clear_overrides (control : option Path) : ConfigOverrides :=
  {| override_control_socket := control; override_unix_socket := None;
     override_request_timeout := None |}.

(** [serve]; [daemon] is whether running the daemon ends well. *)
Definition serve_command (config_path control : option Path) (args : ServeArgs)
    (logging : Logging) (daemon : Config → bool) : list CliAction * result unit CliError :=
  match extract config_path (serve_overrides control args) with
  | Err _ => ([], Err ConfigurationUnreadable)
  | Ok config =>
      match validate config with
      | Err e => ([], Err (ConfigurationInvalid e))
      | Ok _ =>
          match init_tracing logging (sentry_backend_dsn config) with
          | (logged, Err e) => (logged, Err e)
          | (logged, Ok _) =>
              (logged ++ [Daemon config], if daemon config then Ok tt else Err DaemonFailed)
          end
      end
  end.

(** ** [pairing clear] *)

(** The terminal: whether standard input is one, whether the prompt can be
    shown, and the line the user types. *)
Record Terminal := {
  is_terminal : bool;
  prompts : bool;
  typed : option rstring;
}.

(** [matches!(answer.trim().to_ascii_lowercase(), "y" | "yes")] *)
Definition agrees (answer : rstring) : bool :=
  let answer := to_ascii_lowercase (trim answer) in
  bool_decide (answer = byte_string "y") || bool_decide (answer = byte_string "yes").

(** [confirm_clear] *)
Definition confirm_clear (t : Terminal) : result unit CliError :=
  if negb (is_terminal t) then Err NoConfirmation
  else if negb (prompts t) then Err TerminalFailed
  else
    match typed t with
    | None => Err TerminalFailed
    | Some answer => if agrees answer then Ok tt else Err NotCleared
    end.

(** [clear_pairing]; [control] is what the control client returns for a socket
    path. *)
Definition clear_command (config_path control_socket_override : option Path)
    (args : ClearPairingArgs) (logging : Logging) (t : Terminal)
    (control : Path → result bool ConnectionError) : list CliAction * result unit CliError :=
  match init_tracing logging None with
  | (logged, Err e) => (logged, Err e)
  | (logged, Ok _) =>
      match (if yes args then Ok tt else confirm_clear t) with
      | Err e => (logged, Err e)
      | Ok _ =>
          match extract config_path (clear_overrides control_socket_override) with
          | Err _ => (logged, Err ConfigurationUnreadable)
          | Ok config =>
              let contacted := ContactControl (control_socket config) in
              match control (control_socket config) with
              | Err e => (logged ++ [contacted], Err (ControlFailed e))
              | Ok had_client =>
                  (logged ++
                   [contacted;
                    Stdout (if had_client then byte_string "Pairing cleared." ++ [Byte.x0a]
                            else byte_string "No client was paired." ++ [Byte.x0a])], Ok tt)
              end
          end
      end
  end.

(** [run] *)
Definition run_cli `{U : UuidText} (cli : Cli) (fresh_id : Uuid) (write_fails : option nat)
    (flushes : bool) (logging : Logging) (t : Terminal) (daemon : Config → bool)
    (control : Path → result bool ConnectionError) : list CliAction * result unit CliError :=
  match cli_command cli with
  | Serve args => serve_command (cli_config cli) (cli_control_socket cli) args logging daemon
  | WriteContext args => write_context fresh_id write_fails flushes args
  | PairingClearCommand args =>
      clear_command (cli_config cli) (cli_control_socket cli) args logging t control
  end.
End serve.

(** ** Theorems *)

(** A context packet on a connection that still takes one. *)
Lemma route_context `{L : SshAgentLib} `{U : UuidText} w packet cancellation r received :
  has_changed w ≠ Some true → accepts_context r = true →
  ContextCodec.decode packet = Ok (Some received) →
  route w packet cancellation r
  = (set_accepts_context false (set_context (Some received) r),
     Ok (Ready_response AGENT_SUCCESS_FRAME)).
Proof.
  intros Hw Ha Hd. unfold route, refresh_identity_answer.
  assert (default false (has_changed w) = false) as -> by (by destruct (has_changed w) as [[]|]).
  cbn [negb]. by rewrite Hd, Ha.
Qed.

(** What [write-context] prints is what the server understands.  When the
    command succeeds it has written exactly one packet; sent first on a
    connection, the server's router answers it with success and from then on
    attaches to the connection's requests exactly the reason, group and command
    given on the command line. *)
Theorem write_context_is_understood `{L : SshAgentLib} `{U : UuidText} `{!UuidTextSpec U}
    fresh_id args write_fails flushes actions w cancellation r :
  (default fresh_id (args_group_id args) < 2 ^ 128)%N →
  Forall (λ v, valid_utf8 v = true) (args_argv args) →
  has_changed w ≠ Some true → accepts_context r = true →
  write_context fresh_id write_fails flushes args = (actions, Ok tt) →
  ∃ packet r',
    actions = [Stdout packet]
    ∧ route w packet cancellation r = (r', Ok (Ready_response AGENT_SUCCESS_FRAME))
    ∧ context r' = Some (context_of_args fresh_id args)
    ∧ ∀ later c, carries_context (Some (context_of_args fresh_id args)) (route_request later c r').
Proof.
  intros Hg Hv Hw Ha H. unfold write_context in H.
  destruct (ContextCodec.encode _) as [packet|] eqn:He; [|done].
  destruct write_fails; [done|]. destruct flushes; [|done]. injection H as <-.
  eexists packet, _. split; [done|]. split.
  - apply route_context; [done|done|]. by apply (encodable_decodes (context_of_args fresh_id args)).
  - split; [done|]. intros later c. exact (route_request_context later c _).
Qed.

Lemma validate_backend_dsn `{Sentry} c dsn :
  validate c = Ok tt → sentry_backend_dsn c = Some dsn → dsn_error dsn = None.
Proof.
  unfold validate. intros Hv Hd. rewrite Hd in Hv. repeat (case_match; [done|]). simpl in Hv.
  by destruct (dsn_error dsn).
Qed.

(** What the two commands that set up logging do. *)
Lemma serve_actions `{F : Figment} `{Sentry} path control args logging daemon actions r x :
  serve_command path control args logging daemon = (actions, r) → x ∈ actions →
  match x with
  | Daemon c => validate c = Ok tt
                ∧ ∃ filter, Subscribed filter (has_dsn (sentry_backend_dsn c)) ∈ actions
  | SentryStarted dsn =>
      dsn_error dsn = None
      ∧ ∃ c, extract path (serve_overrides control args) = Ok c ∧ sentry_backend_dsn c = Some dsn
  | Subscribed _ _ => True
  | _ => False
  end.
Proof.
  unfold serve_command. destruct (extract _ _) as [config|] eqn:He; [|intros [= <- <-]; set_solver].
  destruct (validate config) as [[]|] eqn:Hv; [|intros [= <- <-]; set_solver].
  pose proof (λ dsn, validate_backend_dsn config dsn Hv) as Hd. unfold init_tracing.
  destruct (sentry_backend_dsn config) as [dsn|] eqn:Eb, (subscriber_set logging); intros [= <- <-] Hx;
    repeat (apply elem_of_cons in Hx as [->|Hx]); try (by apply not_elem_of_nil in Hx); try done;
    try (split; [by apply Hd|]; by eauto); (split; [done|]); rewrite Eb;
    exists (default (byte_string "agent_witness_server=info") (env_filter logging)); set_solver.
Qed.

Lemma clear_actions `{F : Figment} path socket args logging t control actions r x :
  clear_command path socket args logging t control = (actions, r) → x ∈ actions →
  match x with
  | ContactControl p =>
      (yes args = true ∨ is_terminal t = true ∧ ∃ answer, typed t = Some answer ∧ agrees answer = true)
      ∧ (∃ config, extract path (clear_overrides socket) = Ok config ∧ p = control_socket config)
      ∧ (r = Ok tt ↔ ∃ had, control p = Ok had)
  | Daemon _ | SentryStarted _ => False
  | _ => True
  end.
Proof.
  unfold clear_command, init_tracing. destruct (subscriber_set logging); simpl;
    [intros [= <- <-]; set_solver|].
  destruct (if yes args then Ok tt else confirm_clear t) eqn:Hconsent;
    [|intros [= <- <-]; set_solver].
  destruct (extract _ _) as [config|] eqn:He; [|intros [= <- <-]; set_solver].
  assert (yes args = true
          ∨ is_terminal t = true ∧ ∃ answer, typed t = Some answer ∧ agrees answer = true) as Hyes.
  { destruct (yes args); [by left|right]. unfold confirm_clear in Hconsent.
    destruct (is_terminal t); [|done]. destruct (prompts t); [|done]. cbn in Hconsent.
    destruct (typed t) as [answer|]; [|done]. destruct (agrees answer) eqn:Ha; [|done]. eauto. }
  destruct (control (control_socket config)) as [had|e] eqn:Hc; intros [= <- <-] Hx;
    repeat (apply elem_of_cons in Hx as [->|Hx]); try (by apply not_elem_of_nil in Hx); try done;
    split_and!; eauto; rewrite Hc; naive_solver.
Qed.

(** The commands are guarded.  The daemon is started only with a
    configuration the server can run with, after logging was set up; errors are
    reported to Sentry only by the daemon, and only to the validated DSN of its
    configuration; the control socket is contacted only with [--yes] or after a
    user at a terminal has agreed, at the configured path, and the command
    succeeds exactly when the control server answered. *)
Theorem commands_are_guarded `{F : Figment} `{Sentry} `{U : UuidText}
    cli fresh_id write_fails flushes logging t daemon control actions r :
  run_cli cli fresh_id write_fails flushes logging t daemon control = (actions, r) →
  (∀ c, Daemon c ∈ actions →
     validate c = Ok tt ∧ (∃ filter, Subscribed filter (has_dsn (sentry_backend_dsn c)) ∈ actions))
  ∧ (∀ dsn, SentryStarted dsn ∈ actions →
       dsn_error dsn = None
       ∧ ∃ args c, cli_command cli = Serve args
           ∧ extract (cli_config cli) (serve_overrides (cli_control_socket cli) args) = Ok c
           ∧ sentry_backend_dsn c = Some dsn)
  ∧ (∀ p, ContactControl p ∈ actions →
       (∃ args, cli_command cli = PairingClearCommand args
          ∧ (yes args = true
             ∨ is_terminal t = true ∧ ∃ answer, typed t = Some answer ∧ agrees answer = true))
       ∧ (∃ config, extract (cli_config cli) (clear_overrides (cli_control_socket cli)) = Ok config
                    ∧ p = control_socket config)
       ∧ (r = Ok tt ↔ ∃ had, control p = Ok had)).
Proof.
  unfold run_cli. destruct (cli_command cli) as [args|args|args] eqn:Hcmd; intros Hrun.
  - pose proof (λ x, serve_actions _ _ _ _ _ _ _ x Hrun) as Ha. split_and!.
    + intros c Hin. exact (Ha _ Hin).
    + intros dsn Hin. destruct (Ha _ Hin) as (? & c & ? & ?). split; [done|]. by exists args, c.
    + intros p Hin. by apply Ha in Hin.
  - unfold write_context in Hrun. destruct (ContextCodec.encode _);
      [destruct write_fails; [|destruct flushes]|]; injection Hrun as <- <-; set_solver.
  - pose proof (λ x, clear_actions _ _ _ _ _ _ _ _ x Hrun) as Ha. split_and!.
    + intros c Hin. by apply Ha in Hin.
    + intros dsn Hin. by apply Ha in Hin.
    + intros p Hin. destruct (Ha _ Hin) as (? & ? & ?). split_and!; [|done..]. by exists args.
Qed.

(** ** Examples *)

Example agrees_loosely : agrees (byte_string " Yes" ++ [Byte.x0a]) = true.
Proof. by vm_compute. Qed.
Example silence_is_no : agrees [Byte.x0a] = false.
Proof. by vm_compute. Qed.

Definition sample_args : WriteContextArgs :=
  {| args_reason := reason sample_context; args_group_id := Some (group_id sample_context);
     args_argv := command sample_context |}.

Lemma write_context_is_understood_witness :
  ∃ packet r', route (L := sample_codecs) (U := hex_uuid_text)
                 {| has_changed := Some false; borrowed := None |} packet 0
                 {| identity_answer := None; context := None; accepts_context := true |}
               = (r', Ok (Ready_response AGENT_SUCCESS_FRAME))
               ∧ context r' = Some sample_context.
Proof.
  destruct (write_context_is_understood (L := sample_codecs) (U := hex_uuid_text) 0 sample_args
    None true [Stdout sample_packet] {| has_changed := Some false; borrowed := None |} 0
    {| identity_answer := None; context := None; accepts_context := true |})
    as (packet & r' & _ & Hr & Hc & _).
  - reflexivity.
  - repeat constructor.
  - discriminate.
  - reflexivity.
  - by vm_compute.
  - by exists packet, r'.
Defined.

Lemma commands_are_guarded_witness : validate (H := sample_sentry) default_config = Ok tt.
Proof.
  refine (proj1 (proj1 (commands_are_guarded (F := sample_figment) (H := sample_sentry)
    (U := hex_uuid_text)
    {| cli_config := None; cli_control_socket := None;
       cli_command := Serve {| serve_unix_socket := None; serve_request_timeout := None |} |}
    0 None true {| env_filter := None; subscriber_set := false |}
    {| is_terminal := false; prompts := false; typed := None |} (λ _, true)
    (λ _, Ok true) _ _ eq_refl) default_config _)).
  by apply (list_elem_of_lookup_2 _ 1).
Defined.
