(* ===== verification/Daemon.v ===== *)
(** * Daemon: startup and shutdown of the process

    Models [crates/server/src/daemon.rs]: the order in which [run] acquires the
    key, the pairing state and its listeners, what is dropped when a step fails,
    which task's end it reacts to, and the order in which it stops the others.

    The pairing service's opening and the TCP listener are arguments; the tasks
    [run] spawns are the other files' loops, and here only how they end. *)

From S2P Require Import Prelude Bytes Utf8 Packet PacketProps Pairing RequestRouter System SocketFile SocketFileProps Push PushProps Protocol Config.

(** ** Startup *)

Inductive StartError :=
| KeyFailed (error : KeyError)
| PairingFailed (error : OpenError)
| AgentSocketFailed (error : AgentSocketError)
| ControlSocketFailed (error : ControlSocketError)
| HttpFailed (error : IoError)
| IdentitiesInvalid (error : IdentityError).

Section start.
Context `{S : PairingStore} `{P : P256} `{L : SshAgentLib}.

(** What is running once [run] has spawned its tasks. *)
Record Started := {
  started_key : VapidKey;
  started_pairing : PairingService;
  started_agent : AgentSocket;
  started_control : ControlSocket;
  started_push : PushConfig;
  max_message_size : N;
}.

(** [RequestRouter::new] on the identities the pairing service publishes. *)
Definition router_for (pairing : PairingService) : result unit IdentityError :=
  router_new {| has_changed := Some false; borrowed := identities pairing |}.

(** [run] up to spawning its tasks.  Values in scope are dropped, latest first,
    when a step fails. *)
Definition start (c : Config) (key_task : bool) (draws : list (option bytes))
    (opened : result PairingService OpenError) (http : option IoError) :
    Sys (result Started StartError) :=
  let!? key := sys_map_err KeyFailed (vapid_open key_task draws (vapid_private_key_file c)) in
  match opened with
  | Err error => ret (Err (PairingFailed error))
  | Ok pairing =>
      let!? agent := sys_map_err AgentSocketFailed
        (agent_socket_bind (unix_socket c) (socket_mode c) (max_agent_packet_size c)) in
      let! control := control_bind (control_socket c) (control_socket_mode c) in
      match control with
      | Err error =>
          let! _ := drop_agent_socket agent in
          ret (Err (ControlSocketFailed error))
      | Ok control =>
          match http with
          | Some error =>
              let! _ := drop_control_socket control in
              let! _ := drop_agent_socket agent in
              ret (Err (HttpFailed error))
          | None =>
              match router_for pairing with
              | Err error =>
                  let! _ := drop_control_socket control in
                  let! _ := drop_agent_socket agent in
                  ret (Err (IdentitiesInvalid error))
              | Ok _ =>
                  ret (Ok {| started_key := key; started_pairing := pairing;
                             started_agent := agent; started_control := control;
                             started_push := push_service_new key (request_timeout c);
                             max_message_size :=
                               wrap64 (max_agent_packet_size c + 4 + MAX_MESSAGE_OVERHEAD) |})
              end
          end
      end
  end.
End start.

(** ** Shutdown *)

Inductive TaskName := SocketTask | WebTask | ControlTask | BrokerTask.
#[export] Instance TaskName_eq_dec : EqDecision TaskName.
Proof. solve_decision. Defined.

(** How a task ends: it panicked, or returned an error, or returned.  (The
    broker's task returns no error.) *)
Inductive TaskEnd := TaskPanicked | TaskFailed | TaskReturned.
#[export] Instance TaskEnd_eq_dec : EqDecision TaskEnd.
Proof. solve_decision. Defined.

Inductive DaemonError :=
| SignalHandlerFailed
| TaskError (task : TaskName) (how : TaskEnd)
| BrokerStoppedUnexpectedly.

(** What the daemon does, in order. *)
Inductive DaemonAction :=
| CancelShutdown
| StopBroker
| Awaited (task : TaskName).

(** What the [select!] completes with. *)
Inductive First :=
| Signal (installed : bool)
| Finished (task : TaskName) (how : TaskEnd).

(** [task.await.context(..)??], one task after the other. *)
Fixpoint await_all (ends : TaskName → TaskEnd) (ts : list TaskName) :
    list DaemonAction * result unit DaemonError :=
  match ts with
  | [] => ([], Ok tt)
  | t :: rest =>
      match ends t with
      | TaskReturned =>
          let '(acts, r) := await_all ends rest in (Awaited t :: acts, r)
      | how => ([Awaited t], Err (TaskError t how))
      end
  end.

(** The tasks the other branches of the [select!] wait for, in their order. *)
Definition others (t : TaskName) : list TaskName :=
  match t with
  | SocketTask => [WebTask; ControlTask; BrokerTask]
  | WebTask => [SocketTask; ControlTask; BrokerTask]
  | ControlTask => [SocketTask; WebTask; BrokerTask]
  | BrokerTask => [SocketTask; WebTask; ControlTask]
  end.

(** [wait_for_shutdown] is the signal branch; the rest of [run] after it. *)
Definition run_until_exit (first : First) (ends : TaskName → TaskEnd) :
    list DaemonAction * result unit DaemonError :=
  match first with
  | Signal false => ([], Err SignalHandlerFailed)
  | Signal true =>
      let '(acts, r) := await_all ends [SocketTask; WebTask; ControlTask; BrokerTask] in
      (CancelShutdown :: StopBroker :: acts, r)
  | Finished BrokerTask how =>
      let '(acts, r) := await_all ends (others BrokerTask) in
      (Awaited BrokerTask :: CancelShutdown :: acts,
       let? _ := r in
       match how with
       | TaskReturned => Err BrokerStoppedUnexpectedly
       | how => Err (TaskError BrokerTask how)
       end)
  | Finished t TaskReturned =>
      let '(acts, r) := await_all ends (others t) in
      (Awaited t :: CancelShutdown :: StopBroker :: acts, r)
  | Finished t how => ([Awaited t], Err (TaskError t how))
  end.
