(* ===== verification/DaemonProps.v ===== *)
(** * DaemonProps: a start succeeds or leaves nothing behind

    Properties of [Daemon]: failed starts release the sockets, two sockets never
    share a path, and a successful exit has ended every task. *)

From S2P Require Import Prelude Bytes Utf8 Packet PacketProps Pairing PairingProps RequestRouter System SocketFile SocketFileProps Push PushProps Protocol Config ConfigProps Daemon.

(** ** What opening the key leaves alone *)


Section key.
Context `{P : P256} (env : nat → Env) (Hund : undisturbed env).

(** The entry at [q] and the listeners are as before. *)
Definition spares (q : rstring) (w w' : World) : Prop :=
  entries w' !! q = entries w !! q ∧ listening w' = listening w.

#[local] Instance spares_preorder q : PreOrder (spares q).
Proof. split; [done|]. intros w1 w2 w3 [H1 L1] [H2 L2]. split; congruence. Qed.










End key.

(** ** Sockets of a start *)









Section sockets.
Context (env : nat → Env) (Hcalm : calm env).





End sockets.

(** Both sockets of a start, and their release. *)
Section both.
Context (env : nat → Env).
Context (w : World) (Hunused : ∀ i, fresh (env i) ∉ listening w).
Context (a c : Path).


End both.




Section undo.
Context (env : nat → Env) (Hcalm : calm env) (c : Config) (w : World).
Context (Hfresh : ∀ i, fresh (env i) ∉ listening w).
Context (Ha : obstacle w (unix_socket c) = None).


End undo.

(** ** Starts whose calls fail *)

Section claims.
Context (env : nat → Env) (Hund : undisturbed env) (Hhonest : honest env).
(** Who listened before the start, and the names it claims. *)
Context (before : gset (N * N)) (Hfresh : ∀ i, fresh (env i) ∉ before).
Context (names : rstring → Prop).

(** Whatever has the name is a socket nobody listened on; it is one of this
    start's own. *)
Definition replaceable (q : rstring) (w : World) : Prop :=
  ∀ e, entries w !! q = Some e → is_socket e = true ∧ identity e ∉ before.
Definition own (q : rstring) (w : World) : Prop :=
  ∀ e, entries w !! q = Some e → is_socket e = true ∧ ∃ i, identity e = fresh (env i).
Definition recovers (q : rstring) (w w' : World) : Prop :=
  entries w' !! q = entries w !! q ∨ names q ∧ replaceable q w ∧ own q w'.

#[export] Instance recovers_preorder q : PreOrder (recovers q).
Proof.
  split; [by left|]. intros w1 w2 w3 [E1|(N1 & R1 & O1)] [E2|(N2 & R2 & O2)].
  - left. congruence.
  - right. split_and!; try done. intros e He. apply R2. by rewrite E1.
  - right. split_and!; try done. intros e He. apply O1. by rewrite <- E2.
  - by right.
Qed.






End claims.

Section start.
Context `{S : PairingStore} `{P : P256} `{L : SshAgentLib}.



End start.

(** ** Exits *)

Lemma await_all_returned ends ts :
  Forall (λ t, ends t = TaskReturned) ts → await_all ends ts = (Awaited <$> ts, Ok tt).
Proof. induction 1 as [|t ts Ht _ IH]; [done|]. cbn [await_all]. by rewrite Ht, IH. Qed.

Lemma await_all_ok ends ts :
  (await_all ends ts).2 = Ok tt → Forall (λ t, ends t = TaskReturned) ts.
Proof.
  induction ts as [|t ts IH]; cbn [await_all]; [constructor|].
  destruct (ends t) eqn:E; [done..|]. destruct (await_all ends ts) as [acts r]. cbn.
  intros H. constructor; auto.
Qed.

(** All four tasks, the one that ended first included. *)
Definition all_tasks : list TaskName := [SocketTask; WebTask; ControlTask; BrokerTask].
Definition how_ended (first : First) (ends : TaskName → TaskEnd) (t : TaskName) : TaskEnd :=
  match first with
  | Finished t' how => if decide (t = t') then how else ends t
  | Signal _ => ends t
  end.

Definition is_awaited (t : TaskName) (a : DaemonAction) : bool :=
  match a with Awaited t' => bool_decide (t = t') | _ => false end.

(** A clean exit is complete.  The daemon returns successfully exactly when
    a signal, or the end of a task other than the broker, starts the shutdown and
    all four tasks end without error; it has then told the others to stop, stopped
    the broker, and awaited each task exactly once, the last ones only after telling
    them to stop.  The broker's end always makes the daemon fail. *)
Theorem clean_exit_is_complete first ends acts r :
  run_until_exit first ends = (acts, r) →
  (r = Ok tt ↔ first ≠ Signal false
               ∧ (∀ how, first ≠ Finished BrokerTask how)
               ∧ ∀ t, how_ended first ends t = TaskReturned)
  ∧ (r = Ok tt →
     (∀ t, length (filter (λ a, is_awaited t a = true) acts) = 1)
     ∧ ∃ pre post, acts = pre ++ [CancelShutdown; StopBroker] ++ post ∧ length pre ≤ 1).
Proof.
  assert (∀ acts r k, await_all ends k = (acts, r) → r = Ok tt →
            acts = Awaited <$> k ∧ Forall (λ t, ends t = TaskReturned) k) as Hok.
  { intros acts' r' k Hk ->. assert (Forall (λ t, ends t = TaskReturned) k) as Hf
      by (apply await_all_ok; by rewrite Hk).
    rewrite (await_all_returned ends k Hf) in Hk. by simplify_eq. }
  assert (∀ k, Forall (λ t, ends t = TaskReturned) k → (await_all ends k).2 = Ok tt) as Hret
    by (intros k Hk; by rewrite await_all_returned).
  intros H. unfold run_until_exit in H.
  destruct first as [[]|t how].
  - destruct (await_all ends _) as [acts' r'] eqn:E. simplify_eq. split.
    + split; [|intros (_ & _ & Hall); specialize (Hret all_tasks); unfold all_tasks in Hret;
               rewrite E in Hret; apply Hret; by repeat constructor].
      intros ->. apply Hok in E as [_ Hf]; [|done]. split_and!; [done..|].
      intros t. eapply Forall_forall in Hf; [done|]. destruct t; set_solver.
    + intros ->. apply Hok in E as [-> _]; [|done]. split.
      * by intros [].
      * exists [], (Awaited <$> all_tasks). split; [done|cbn; lia].
  - simplify_eq. split; [|done]. split; [done|]. by intros (? & _).
  - assert ((t = BrokerTask ∧ r ≠ Ok tt) ∨ (t ≠ BrokerTask ∧ how ≠ TaskReturned ∧ r ≠ Ok tt)
            ∨ (t ≠ BrokerTask ∧ how = TaskReturned ∧ ∃ acts', await_all ends (others t) = (acts', r)
               ∧ acts = Awaited t :: CancelShutdown :: StopBroker :: acts')) as Hcases.
    { destruct t, how; try destruct (await_all ends _) as [acts' r'] eqn:E; simplify_eq;
        try (left; split; [done|]; by destruct r' as [[]|]);
        (right; left; done) || (right; right; eauto 10). }
    destruct Hcases as [[-> Hr]|[(Ht & Hhow & Hr)|(Ht & -> & acts' & E & ->)]].
    + split; [|done]. split; [done|]. intros (_ & Hb & _). by destruct (Hb how).
    + split; [|done]. split; [done|]. intros (_ & _ & Hall). specialize (Hall t). cbn in Hall.
      by rewrite decide_True in Hall.
    + split.
      * split.
        -- intros ->. apply Hok in E as [_ Hf]; [|done]. split_and!; [done|congruence|].
           intros t'. cbn. destruct (decide (t' = t)) as [|Hne]; [done|].
           eapply Forall_forall in Hf; [done|]. destruct t, t'; set_solver.
        -- intros (_ & _ & Hall). specialize (Hret (others t)). rewrite E in Hret. apply Hret.
           apply Forall_forall. intros t' Ht'. specialize (Hall t'). cbn in Hall.
           rewrite decide_False in Hall; [done|]. intros ->. destruct t; set_solver.
      * intros ->. apply Hok in E as [-> _]; [|done]. split.
        -- destruct t; by intros [].
        -- exists [Awaited t], (Awaited <$> others t). split; [done|cbn; lia].
Qed.

(** ** Witnesses *)







Lemma clean_exit_is_complete_witness :
  length (filter (λ a, is_awaited WebTask a = true)
            (run_until_exit (Finished SocketTask TaskReturned) (λ _, TaskReturned)).1) = 1.
Proof.
  exact (proj1 (proj2 (clean_exit_is_complete (Finished SocketTask TaskReturned)
    (λ _, TaskReturned) _ _ (surjective_pairing _)) eq_refl) WebTask).
Defined.
